(* ===== verification/_CoqProject ===== *)
-Q . S2P
Prelude.v
Buffers.v
Circular.v
Timers.v
Events.v
Handlers.v
Coro.v
CoroSpec.v
RingQueue.v
InterThread.v
QNode.v
NetRegistry.v
BinLog.v
TcpSocket.v
TcpSocketSpec.v
Awaits.v
Emitting.v
HttpMessage.v
HttpServer.v
Address.v
Checksum.v
Server.v
ServerSpec.v
ServerAwaits.v
Replay.v
ReplaySpec.v
ReplayRuns.v
EventLoop.v
EventLoopSpec.v
JsValue.v
JsValueSpec.v
JsObject.v
JsObjectSpec.v
JsModules.v
Threads.v
Startup.v
ListenerThread.v
ListenerThreadSpec.v
Cluster.v
ClusterSpec.v
MasterSpec.v
SysCalls.v
SysCallsSpec.v
