(* ===== verification/Prelude.v ===== *)
(** * node.cpp: a verification library

    node.cpp runs one or more single-threaded nodes in C++: a node is an event
    loop with timers, immediates, TCP sockets and servers, an HTTP server on top
    of them, and a layer that gives translated JavaScript its values. With
    clustering a master thread, worker threads and listener threads exchange
    messages. This library models that core, operation by operation, and proves
    what makes it correct. A definition carries the name of the function or
    method it models; the conditions, early returns, assertions and writes are
    those of the source, in its order.

    ** The parts and the files

    Below the loop:
    - [Buffers] ([Buffer], [MultiOwner]): common_structs.h, the growable buffer
      and the set of owned sockets of a server;
    - [Circular] ([Cbb]): the [CircularByteBuffer] of net_common.h, the bytes
      read and not consumed or written and not sent;
    - [Timers] ([MultiMap], [Timers]): timeout_manager.h/.cpp and the handles of
      infrastructure.cpp;
    - [Events] ([EvQueue], [PendingEvQueue], [EventEmitter],
      [ListenerEmitter]): ev_queue.h, tcp_socket_base.h, event.h;
    - [Handlers]: the user-defined handlers of net_common.h;
    - [Coro], [CoroSpec]: awaitable.h, the frames, promises and objects of
      coroutines, compared with ordinary calls;
    - [BinLog]: record_and_replay.h, the log of a recording.

    The loop of one node:
    - [NetRegistry]: the table of tcp_socket.h that pairs each socket or server
      with its [pollfd];
    - [TcpSocket], [TcpSocketSpec] ([Tcp], [TcpLaws], [TcpSpec]): [OSLayer] and
      [NetSocketManager], the life of a connection;
    - [SysCalls], [SysCallsSpec] ([Sys], [SysLaws], [SysSpec]): the functions of
      tcp_socket.cpp around the system calls, over a kernel: they implement the
      classes of the operating system, and no path loses a descriptor;
    - [Awaits] ([Awaits], [Until]): the waits with a time limit of
      socket_common.h and [a_readUntil], on sockets, timers and promises
      together;
    - [Emitting] ([Emitting], [SocketEvents], [ServerEvents], [HttpEvents]): the
      emitters and user-defined handlers of socket_common.h, server_common.h and
      http_server_common.h, what an event runs;
    - [Address] ([Ip], [Url]): ip_and_port.h, url.h; [Checksum]: misc.h;
    - [Server], [ServerSpec]: [NetServerManager] and [ServerBase]; [ServerAwaits]:
      the waits of coroutines on servers;
    - [EventLoop], [EventLoopSpec]: [Infrastructure], the loop itself;
    - [Replay] ([Frames], [Replay]), [ReplaySpec], [ReplayRuns]: the build with
      NODECPP_RECORD_AND_REPLAY: what the sockets and servers write into the log
      and tcp_socket_replaying_loop.h, which runs a node on a log alone; it has a
      model of sockets and servers of its own, of what crosses that perimeter;
    - [QNode] ([QNode], [QThreads], [QNodeSpec]): q_based_infrastructure.h/.cpp, a
      node that is driven by the queue of its thread instead of sockets.

    Above the loop:
    - [HttpMessage], [HttpServer] ([Str], [RRQueue], [Http]): http_server_common.h,
      http_socket_at_server.h;
    - [JsValue], [JsValueSpec], [JsObject], [JsObjectSpec], [JsModules]:
      js_compat.h/.cpp, nls.h.

    Between threads:
    - [RingQueue] ([CircBuf], [Mwsr]), [InterThread] ([CommData],
      [ThreadSlots], [Awaker], [WorkerLoad], [Listeners]):
      interthread_comm_impl.h, clustering.cpp, listener_thread.cpp;
    - [Threads] ([Msg], [Threads]): the messages of cluster.h and what all
      threads share: queues, load table, listeners (clustering.cpp,
      listener_thread.cpp);
    - [Startup] ([Startup], [Logs]): infra_main.cpp, [Runnable], logging.h: from
      [main] to the loop, the listener threads a command line asks for, the logs
      that workers share with the master;
    - [ListenerThread], [ListenerThreadSpec]: listener_thread_impl.h, the loop
      of a thread that accepts connections for the workers;
    - [Cluster], [ClusterSpec], [MasterSpec]: cluster.h and the parts of
      clustering.cpp, tcp_socket.h and net.cpp for threads: the master, its
      agents and the workers, a system of any number of threads that take turns,
      and what the master and a worker do with each message. A worker uses its
      node through the class [WorkerNode], which [Server] implements.

    ** How they interact

    [NetRegistry] keeps objects of an arbitrary type and promises, through the
    class [SockTable] and its laws, what [TcpSocket] uses; [Mwsr] uses its
    collection through [FixedSizeCollection], which [CircBuf] implements. The
    operating system is the classes [OS], [ServerOS] and [LoopOS]: system calls
    on a world of any type, whose laws ([OSLaws], [LoopOSLaws]) are their
    documented behaviour; every theorem with such laws has a witness on a
    concrete world; [SysCalls] implements [OS], [ServerOS] and [ListenerOS] over the
    calls of the kernel and derives [OSLaws] from theirs. [Server] holds the manager of the sockets as a field and
    [EventLoop] both of them, with the timers and the immediates. Code of the
    user that runs inside a handler is a function from the event to the calls it
    makes: those of the handlers of a socket act on sockets, those of a server
    on servers and sockets, the callbacks of timers and immediates are functions
    on the whole state of the loop. A coroutine is such code too, between two of
    its suspensions; [Coro] models its frame, and [Awaits] puts frames and timers
    into the world of the sockets to follow one that waits under a time limit, as
    [Emitting] does with what the user has registered.

    [Coro] shows that a coroutine that ends without being suspended has its frame
    freed before the object of the call is destroyed, whose destructor stores
    into that frame. What becomes of the store is up to the allocator and the
    compiler. [HttpServer] marks every such place and takes the answer as the
    class [FreedFrames]: where it is no, the code has no behaviour. In [Awaits] and
    [ServerAwaits], where the [await_resume] of a timed wait is itself such a
    coroutine, its frame and its object are those of [Coro], without that answer.
    Everywhere else a handler that is a coroutine is called like a function:
    there the results are those of a build in which the store reaches nothing in
    use.

    Code that fails returns [res]: [Ok], [AssertFail] for a critical assertion
    that does not hold (and for [throw;] outside a handler, which terminates the
    process too), [Thrown] for an exception, [UB] for what C++ leaves undefined.
    Integers are [Z] with the wrap-around of their width written out where the
    code depends on it.

    ** What the theorems show

    - Data structures: each refines a simple value (a queue of bytes or of
      messages, a plain list of handlers, a list of frames), and is safe under
      every sequence of operations ([circular_buffer_is_queue], [optimized_storage_refines],
      [buffer_ops_safe], [timers_ops_safe]). The bytes of a connection are a
      queue for every operation but the writing of data that wraps around, which
      sends other bytes ([ring_refines_queue]); the table of sockets stays
      consistent under every operation, with the calls that fail an assertion
      told apart ([registry_ops_safe], [rework_preserves_view]).
    - Order: bytes written are sent in order, requests are answered in the order
      they arrive, events are emitted in the order they were queued,
      messages are received in the order they were sent ([appWrite_in_order],
      [write_event_in_order], [requests_served_in_order],
      [emit_runs_all_in_order], [messages_fifo]).
    - Liveness and termination: no wake-up is lost, the due timers and no others
      fire, in the order of their deadlines, the polling
      phase dispatches every ready descriptor once, a connection that ends is
      told so, the loop returns only when it is idle ([no_lost_wakeup],
      [due_timers_fire], [poll_dispatches_each_once], [connection_events_end],
      [loop_returns_only_when_idle], [toString_terminates]).
    - Replay: a process that replays the log of another, with other addresses,
      shows the user's code the same events and answers and ends in the same state
      ([record_replay]), in runs without waits with a time limit and the other calls and
      events of which this is not so, each with the reason.
    - Round trips: parsing a request line that was printed, a query string, a
      recording, [split] and joining.
    - Ownership: a JavaScript object has one owner and ends with it.
    - Threads: an accepted connection becomes exactly one message to one worker
      and none is lost or invented on the way; what the master answers to a
      request to listen, and what it does with one to close.
    - Coroutines: awaiting a coroutine is a call of it, when it suspends before
      it ends ([co_await_as_call]); a wait with a time limit is served or expires, never
      both, and the object its [await_resume] returns can be read but not ended
      ([timed_wait_served], [timed_wait_expires]).
    - System calls: no path that fails loses a descriptor ([descriptors_accounted]).
    - Start: which command lines and which registered classes make a program run, and
      that one with nothing to wait for ends ([master_starts_listeners],
      [main_runs_one_node], [idle_program_ends]); a queue-driven node handles what is
      posted once and in order, and does not sleep when it has nothing to do ([posted_handled_once],
      [idle_node_spins]).
    - Errors: the cases in which the code loses an event, fails an assertion
      or waits for what does not come, each stated as the code behaves.

    ** Fuel and bounds

    A recursion that is not structural takes fuel and returns [NoFuel] when it
    is used up; for each there is a theorem that a fuel computed from the state
    is enough (the length of what is left to read for the loops over a buffer,
    the number of entries for those over a table, the rank of the objects below
    one for printing and destruction), or the theorem itself gives one. The loops of
    a node and of a listener thread ([runStandardLoop], [runLoop]) take the number of turns they
    may run, as they need not end by themselves; so does [runReplayingLoop], which
    never returns ([loop_never_returns]).

    ** Not modelled

    The configurations that are compiled out of the modelled one: Windows,
    the performance counters, assertions of level [pedantic], [iibmalloc] and
    the zombie checks of the safe pointers; [NODECPP_RECORD_AND_REPLAY] together with
    clustering, which the code refuses. In a build with that option (which does not compile as it
    stands: socket_common.h uses a variable and five frame types it does not declare, [Replay]
    supplies them) the files other than [Replay] show what happens while nothing is recorded or
    replayed. [a_connection] with a time limit, which
    does not compile when it is used, is only in [Replay]. The adapters to the global message queue,
    which is a submodule. Formatting, files, what a log does with its messages,
    [std::regex], the console, the allocators. Samples, tests and tools use the
    library and are no part of it. *)

From Stdlib Require Import ZArith Lia Strings.Byte.
From Corelib Require Export Init.Byte.
From stdpp Require Export prelude list gmap strings.

(** ** Outcomes of code that can fail

    [NODECPP_ASSERT(..., critical, c)] that does not hold ends in [AssertFail],
    a C++ exception ([throw Error()]) in [Thrown], behaviour the C++ standard
    leaves undefined (out-of-bounds access, signed overflow) in [UB].
    [NoFuel] is the result of a fuelled loop that was given too little fuel; it
    corresponds to no behaviour of the code and every loop of the development
    is proved not to end in it. *)
Inductive res (A : Type) : Type :=
  | Ok (a : A)
  | AssertFail
  | Thrown
  | UB
  | NoFuel.
Arguments Ok {A} a.
Arguments AssertFail {A}.
Arguments Thrown {A}.
Arguments UB {A}.
Arguments NoFuel {A}.

#[export] Instance res_ret : MRet res := λ A a, Ok a.
#[export] Instance res_bind : MBind res := λ A B f m,
  match m with
  | Ok a => f a
  | AssertFail => AssertFail
  | Thrown => Thrown
  | UB => UB
  | NoFuel => NoFuel
  end.

Declare Scope node_scope.
Delimit Scope node_scope with node.

(** [ASSERT c ;; k] is [NODECPP_ASSERT(c); k]; [REQUIRE c ;; k] is code whose
    behaviour is defined only when [c] holds. *)
Notation "'ASSERT' c ;; k" := (if (c : bool) then k else AssertFail)
  (at level 100, c at level 99, k at level 200, right associativity) : node_scope.
Notation "'REQUIRE' c ;; k" := (if (c : bool) then k else UB)
  (at level 100, c at level 99, k at level 200, right associativity) : node_scope.
#[global] Open Scope node_scope.

Definition is_ok {A} (r : res A) : bool :=
  match r with Ok _ => true | _ => false end.

(** [safe_res P r]: the code stops in an assertion or an exception at worst, and
    a value it returns satisfies [P]; no undefined behaviour, no exhausted loop. *)
Definition safe_res {A} (P : A → Prop) (r : res A) : Prop :=
  match r with
  | Ok a => P a
  | AssertFail | Thrown => True
  | UB | NoFuel => False
  end.

(** [halts P r]: the code comes to an end, and a value it returns satisfies [P]. *)
Definition halts {A} (P : A → Prop) (r : res A) : Prop :=
  match r with
  | Ok a => P a
  | AssertFail | Thrown | UB => True
  | NoFuel => False
  end.

Lemma halts_bind {A B} (P : A → Prop) (Q : B → Prop) (r : res A) (f : A → res B) :
  halts P r → (∀ a, P a → halts Q (f a)) → halts Q (r ≫= f).
Proof. destruct r; cbn; auto. Qed.

Lemma halts_impl {A} (P Q : A → Prop) (r : res A) : halts P r → (∀ a, P a → Q a) → halts Q r.
Proof. destruct r; cbn; auto. Qed.

Section res_lemmas.
Context {A B : Type}.
Implicit Types (m : res A) (f : A → res B).

Lemma bind_Ok (a : A) f : (Ok a ≫= f) = f a.
Proof. done. Qed.

Lemma bind_Ok_inv m f b : (m ≫= f) = Ok b → ∃ a, m = Ok a ∧ f a = Ok b.
Proof. destruct m; simpl; try discriminate. eauto. Qed.

Lemma assert_Ok (c : bool) (k : res B) b :
  (ASSERT c ;; k) = Ok b ↔ c = true ∧ k = Ok b.
Proof. destruct c; intuition congruence. Qed.

Lemma require_Ok (c : bool) (k : res B) b :
  (REQUIRE c ;; k) = Ok b ↔ c = true ∧ k = Ok b.
Proof. destruct c; intuition congruence. Qed.
End res_lemmas.

(** opens the equation of a handler that returned *)
Ltac open_eq :=
  repeat match goal with
  | H : (_ ≫= _) = Ok _ |- _ => let E := fresh "E" in apply bind_Ok_inv in H as (? & E & H)
  | H : (if ?b then _ else _) = Ok _ |- _ => let E := fresh "E" in destruct b eqn:E
  | H : (let '(_, _) := ?x in _) = Ok _ |- _ => destruct x
  | H : match ?x with _ => _ end = Ok _ |- _ => let E := fresh "E" in destruct x eqn:E
  | H : Ok _ = Ok _ |- _ => injection H as H; try subst
  | H : Ok _ = Ok _ |- _ => injection H as <- <-
  | H : AssertFail = Ok _ |- _ => discriminate H
  | H : UB = Ok _ |- _ => discriminate H
  | H : Thrown = Ok _ |- _ => discriminate H
  end.

(** Turns a hypothesis [... = Ok _] about a sequence of binds and asserts into
    the equations of its parts. *)
Ltac inv_res :=
  repeat match goal with
  | H : (_ ≫= _) = Ok _ |- _ => apply bind_Ok_inv in H as (? & ? & H)
  | H : (if ?c then _ else AssertFail) = Ok _ |- _ => apply assert_Ok in H as [? H]
  | H : (if ?c then _ else UB) = Ok _ |- _ => apply require_Ok in H as [? H]
  | H : Ok _ = Ok _ |- _ => injection H as H; try subst
  | H : AssertFail = Ok _ |- _ => discriminate H
  | H : UB = Ok _ |- _ => discriminate H
  | H : Thrown = Ok _ |- _ => discriminate H
  | H : NoFuel = Ok _ |- _ => discriminate H
  | H : bool_decide _ = true |- _ => apply bool_decide_eq_true_1 in H
  | H : bool_decide _ = false |- _ => apply bool_decide_eq_false_1 in H
  | H : negb _ = true |- _ => apply negb_true_iff in H
  | H : _ && _ = true |- _ => apply andb_true_iff in H as [? ?]
  end.

(** Discharges the condition of an [ASSERT], [REQUIRE] or [if] of the goal that
    the arithmetic context decides. *)
Ltac decide_goal :=
  repeat first
    [ rewrite bool_decide_eq_true_2 by (simpl in *; (lia || naive_solver lia))
    | rewrite bool_decide_eq_false_2 by (simpl in *; lia) ];
  cbn [mbind res_bind].

(** Case analysis on a boolean decision of the goal only. *)
Tactic Notation "case_goal" "as" ident(H) :=
  match goal with
  | |- context [bool_decide ?P] => destruct (bool_decide_reflect P) as [H|H]
  end.

(** ** Bytes and memory

    A cell of allocated memory is a byte or, before its first write, an
    indeterminate value ([new uint8_t[n]] initialises nothing). *)
Abbreviation u8 := Byte.byte.
Abbreviation cell := (option u8).

#[export] Instance byte_eq_dec : EqDecision u8.
Proof. intros x y. exact (Byte.byte_eq_dec x y). Defined.

Definition uninit (n : nat) : list cell := replicate n None.

(** [memcpy(mem + i, d, length d)] *)
Definition blit {A} (i : nat) (d mem : list A) : list A :=
  take i mem ++ d ++ drop (i + length d) mem.

(** the [n] cells from offset [i] *)
Definition slice {A} (i n : nat) (mem : list A) : list A := take n (drop i mem).

(** [memcpy] to and from an allocation of the model: undefined outside it. *)
Definition store_cells (i : nat) (d mem : list cell) : res (list cell) :=
  REQUIRE bool_decide (i + length d ≤ length mem) ;; Ok (blit i d mem).
Definition load_cells (i n : nat) (mem : list cell) : res (list cell) :=
  REQUIRE bool_decide (i + n ≤ length mem) ;; Ok (slice i n mem).
Definition load_byte (i : nat) (mem : list cell) : res u8 :=
  match mem !! i with Some (Some c) => Ok c | _ => UB end.

Lemma store_cells_ok i d mem :
  i + length d ≤ length mem → store_cells i d mem = Ok (blit i d mem).
Proof. intros. unfold store_cells. by rewrite bool_decide_eq_true_2. Qed.
Lemma load_cells_ok i n mem :
  i + n ≤ length mem → load_cells i n mem = Ok (slice i n mem).
Proof. intros. unfold load_cells. by rewrite bool_decide_eq_true_2. Qed.

(** [enum CoroStandardOutcomes] (include/nodecpp/common.h) *)
Inductive CoroStandardOutcomes : Type := ok | timeout | insufficient_buffer | in_progress | failed.

(** ** Machine integers *)
Definition u64 (z : Z) : Z := z mod 2 ^ 64.
Definition u32 (z : Z) : Z := z mod 2 ^ 32.
Definition u16 (z : Z) : Z := z mod 2 ^ 16.
Definition in_i32 (z : Z) : bool := bool_decide (- 2 ^ 31 ≤ z < 2 ^ 31)%Z.
Definition INT32_MAX : Z := (2 ^ 31 - 1)%Z.
Definition UINT64_MAX : Z := (2 ^ 64 - 1)%Z.

Lemma u64_small z : (0 ≤ z < 2 ^ 64)%Z → u64 z = z.
Proof. intros. by apply Z.mod_small. Qed.
Lemma u64_range z : (0 ≤ u64 z < 2 ^ 64)%Z.
Proof. by apply Z.mod_pos_bound. Qed.

(** The value of a byte and its inverse ([static_cast<uint8_t>]). *)
Definition Z_of_u8 (b : u8) : Z := Z.of_N (Byte.to_N b).
Definition u8_of_Z (z : Z) : u8 := default x00 (Byte.of_N (Z.to_N (z mod 256))).

Lemma Z_of_u8_range b : (0 ≤ Z_of_u8 b < 256)%Z.
Proof. unfold Z_of_u8. pose proof (Byte.to_N_bounded b). lia. Qed.

Lemma Z_of_u8_of_Z z : Z_of_u8 (u8_of_Z z) = (z mod 256)%Z.
Proof.
  unfold Z_of_u8, u8_of_Z.
  pose proof (Z.mod_pos_bound z 256 ltac:(lia)).
  destruct (Byte.of_N (Z.to_N (z mod 256))) eqn:E; simpl.
  - apply Byte.to_of_N in E. rewrite E. lia.
  - apply Byte.of_N_None_iff in E. lia.
Qed.

Lemma u8_of_Z_of_u8 b : u8_of_Z (Z_of_u8 b) = b.
Proof.
  unfold u8_of_Z. rewrite Z.mod_small by apply Z_of_u8_range.
  unfold Z_of_u8. rewrite N2Z.id, Byte.of_to_N. done.
Qed.

(** Little-endian encoding of the low [n] bytes of [z] and its inverse: the
    layout of an integer copied to memory with [memcpy] on the targets of the
    code. *)
Fixpoint le_split (n : nat) (z : Z) : list u8 :=
  match n with
  | O => []
  | S n' => u8_of_Z z :: le_split n' (z / 256)
  end.
Fixpoint le_join (bs : list u8) : Z :=
  match bs with
  | [] => 0
  | b :: bs' => Z_of_u8 b + 256 * le_join bs'
  end.

Lemma length_le_split n z : length (le_split n z) = n.
Proof. revert z. induction n; simpl; auto. Qed.

Lemma le_join_split n z : le_join (le_split n z) = (z mod 256 ^ Z.of_nat n)%Z.
Proof.
  revert z. induction n as [|n IH]; intros z; cbn [le_split le_join].
  - by rewrite Z.mod_1_r.
  - rewrite IH, Z_of_u8_of_Z, Nat2Z.inj_succ, Z.pow_succ_r by lia.
    rewrite Z.rem_mul_r; lia.
Qed.

(** ** List lemmas *)
Section list_lemmas.
Context {A : Type}.
Implicit Types (l k mem d : list A) (i n : nat).

Lemma lookup_app_dec l k i :
  (l ++ k) !! i = if decide (i < length l) then l !! i else k !! (i - length l).
Proof.
  case_decide; [by rewrite lookup_app_l|].
  rewrite lookup_app_r; [done|lia].
Qed.

Lemma lookup_take_dec l i n :
  take n l !! i = if decide (i < n) then l !! i else None.
Proof.
  case_decide; [by rewrite lookup_take_lt|].
  by rewrite lookup_take_ge by lia.
Qed.

Lemma lookup_out l i : length l ≤ i → l !! i = None.
Proof. apply lookup_ge_None_2. Qed.
End list_lemmas.

Lemma filter_all {A} (P : A → Prop) `{∀ x, Decision (P x)} (l : list A) :
  (∀ x, x ∈ l → P x) → filter P l = l.
Proof.
  induction l as [|x l IH]; intros HP; [done|].
  rewrite filter_cons_True by (apply HP; left). f_equal. apply IH. intros y Hy. apply HP. by right.
Qed.

Lemma Forall2_impl_l {A B} (P Q : A → B → Prop) l k :
  Forall2 P l k → (∀ x y, x ∈ l → P x y → Q x y) → Forall2 Q l k.
Proof.
  induction 1 as [|x y l k Hxy _ IH]; intros HPQ; constructor.
  - apply HPQ; [left|done].
  - apply IH. intros x' y' Hx'. apply HPQ. by right.
Qed.

(** the number of elements that satisfy a boolean predicate *)
Fixpoint countb {A} (p : A → bool) (l : list A) : nat :=
  match l with
  | [] => 0
  | x :: l' => (if p x then 1 else 0) + countb p l'
  end.

Lemma countb_app {A} (p : A → bool) l k : countb p (l ++ k) = countb p l + countb p k.
Proof. induction l; simpl; lia. Qed.

Lemma countb_insert {A} (p : A → bool) l i x y :
  l !! i = Some x →
  countb p (<[i := y]> l) + (if p x then 1 else 0) = countb p l + (if p y then 1 else 0).
Proof.
  revert i. induction l as [|z l IH]; intros [|i] Hi; simpl in *; try done; [simplify_eq; lia|].
  specialize (IH i Hi). lia.
Qed.

Lemma countb_le {A} (p : A → bool) l : countb p l ≤ length l.
Proof. induction l as [|x l IH]; simpl; [lia|]. destruct (p x); lia. Qed.

Create Rewrite HintDb list_len.
#[export] Hint Rewrite @length_app @length_take @length_drop @length_replicate
  @length_fmap @length_insert @length_nil @length_cons : list_len.

(** Arithmetic about lengths. *)
Ltac len := autorewrite with list_len in *; simpl in *; lia.

Section blit.
Context {A : Type}.
Implicit Types (mem d : list A) (i : nat).

Lemma length_blit i d mem : i + length d ≤ length mem → length (blit i d mem) = length mem.
Proof. intros. unfold blit. len. Qed.

Lemma length_slice i n mem : i + n ≤ length mem → length (slice i n mem) = n.
Proof. intros. unfold slice. len. Qed.

Lemma lookup_blit i d mem j :
  i + length d ≤ length mem →
  blit i d mem !! j =
    if decide (i ≤ j < i + length d) then d !! (j - i) else mem !! j.
Proof.
  intros. unfold blit. rewrite !lookup_app_dec, lookup_take_dec, lookup_drop.
  autorewrite with list_len.
  repeat case_decide; try (exfalso; lia); f_equal; lia.
Qed.

Lemma lookup_slice_dec i n mem j :
  slice i n mem !! j = if decide (j < n) then mem !! (i + j) else None.
Proof. unfold slice. by rewrite lookup_take_dec, lookup_drop. Qed.
End blit.

#[export] Hint Rewrite @length_blit using (autorewrite with list_len; simpl in *; lia) : list_len.
#[export] Hint Rewrite @length_slice using (autorewrite with list_len; simpl in *; lia) : list_len.

(** Decides equalities between lists built from [app], [take], [drop], [blit]
    and [slice] pointwise; the lengths must be known to [lia]. *)
Ltac list_ext_norm :=
  repeat first
    [ rewrite lookup_blit by len
    | rewrite lookup_slice_dec
    | rewrite lookup_app_dec | rewrite lookup_take_dec | rewrite lookup_drop
    | progress autorewrite with list_len ].
Ltac list_ext_close :=
  first
    [ done | exfalso; simpl in *; lia
    | f_equal; lia
    | rewrite ?lookup_out by len; done ].
Ltac list_ext :=
  apply list_eq; intros ?i; list_ext_norm;
  repeat (case_decide; try (exfalso; lia)); try list_ext_close.

Lemma mapM_id_Some (l : list u8) : mapM id (Some <$> l) = Some l.
Proof. induction l as [|x l IH]; [done|]. cbn. by rewrite IH. Qed.

Section mem_lemmas.
Context {A : Type}.
Implicit Types (l k mem d : list A) (i n : nat).

Lemma take_blit_le n i d mem : n ≤ i → i + length d ≤ length mem → take n (blit i d mem) = take n mem.
Proof. intros. list_ext. Qed.

Lemma take_blit_end i d mem :
  i + length d ≤ length mem → take (i + length d) (blit i d mem) = take i mem ++ d.
Proof. intros. list_ext. Qed.

Lemma drop_blit_le i d mem n :
  n ≤ i → i + length d ≤ length mem →
  drop n (blit i d mem) = slice n (i - n) mem ++ d ++ drop (i + length d) mem.
Proof. intros. list_ext. Qed.

Lemma drop_blit_ge i d mem n :
  i + length d ≤ n → i + length d ≤ length mem → drop n (blit i d mem) = drop n mem.
Proof. intros. list_ext. Qed.

Lemma slice_cons_inv i n mem x l :
  slice i n mem = x :: l → mem !! i = Some x ∧ slice (S i) (n - 1) mem = l.
Proof.
  intros Hs. split.
  - apply (f_equal (λ l, l !! 0)) in Hs. rewrite lookup_slice_dec, Nat.add_0_r in Hs.
    by case_decide.
  - apply (f_equal (drop 1)) in Hs. rewrite skipn_cons, drop_0 in Hs. rewrite <-Hs.
    unfold slice. rewrite skipn_firstn_comm, drop_drop. do 2 f_equal. lia.
Qed.

Lemma take_min_length l n : take (n `min` length l) l = take n l.
Proof.
  destruct (decide (n ≤ length l)); [by rewrite Nat.min_l|].
  rewrite Nat.min_r by lia. by rewrite !take_ge by lia.
Qed.

Lemma drop_min_length l n : drop (n `min` length l) l = drop n l.
Proof.
  destruct (decide (n ≤ length l)); [by rewrite Nat.min_l|].
  rewrite Nat.min_r by lia. by rewrite !drop_ge by lia.
Qed.
End mem_lemmas.

(** Performs the memory accesses at the head of the goal that are in bounds. *)
Ltac mem_step :=
  first [rewrite load_cells_ok by len | rewrite store_cells_ok by len]; cbn [mbind res_bind].
Ltac mem_steps := repeat mem_step.
