(* ===== verification/Buffers.v ===== *)
(** * Byte buffers and owners (include/nodecpp/common_structs.h)

    [Module Buffer] models [nodecpp::Buffer], the growable byte buffer that
    carries data between the event loop and user code. A buffer is its three
    fields [_size], [_capacity] and [_data]; the allocated array is a list of
    cells, a cell being indeterminate until something is written to it.
    [Module MultiOwner] models [nodecpp::MultiOwner]. *)

From S2P Require Import Prelude.
From Stdlib Require Import Lia.

Module Buffer.

Definition MIN_BUFFER : nat := 1024.

Record t : Type := mk {
  _size : nat;
  _capacity : nat;
  _data : option (list cell);      (* [None] is [nullptr] *)
}.

(** [Buffer()] *)
Definition empty_buffer : t := mk 0 0 None.

Definition size (b : t) : nat := _size b.
Definition capacity (b : t) : nat := _capacity b.
Definition empty (b : t) : bool := bool_decide (_size b = 0).

Definition reserve (sz : nat) (b : t) : res t :=
  ASSERT bool_decide (_size b = 0) ;;
  ASSERT bool_decide (_capacity b = 0) ;;
  ASSERT bool_decide (_data b = None) ;;
  let cp := sz `max` MIN_BUFFER in
  Ok (mk (_size b) cp (Some (uninit cp))).

(** [Buffer(size_t res)] *)
Definition with_reserve (sz : nat) : res t := reserve sz empty_buffer.

Definition ensureCapacity (sz : nat) (b : t) : res t :=
  match _data b with
  | None => reserve sz b
  | Some d =>
      if bool_decide (_capacity b < sz) then
        let cp := sz `max` MIN_BUFFER in
        Ok (mk (_size b) cp (Some (blit 0 (take (_size b) d) (uninit cp))))
      else Ok b
  end.

(** [memcpy(begin() + pos, dt, sz)] *)
Definition memcpy_at (pos : nat) (dt : list cell) (b : t) : res (list cell) :=
  match _data b with
  | None => UB
  | Some d => REQUIRE bool_decide (pos + length dt ≤ length d) ;; Ok (blit pos dt d)
  end.

(** [append(const void* dt, size_t sz)], [dt] being the [sz] cells read *)
Definition append (dt : list cell) (b : t) : res t :=
  b' ← ensureCapacity (_size b + length dt) b;
  d ← memcpy_at (_size b') dt b';
  Ok (mk (_size b' + length dt) (_capacity b') (Some d)).

(** the cells [begin() .. end()) *)
Definition contents (b : t) : list cell :=
  match _data b with None => [] | Some d => take (_size b) d end.

(** [append(const Buffer&)], for an argument other than [*this] *)
Definition append_buffer (o : t) (b : t) : res t := append (contents o) b.

Definition append_from (o : t) (offset : nat) (b : t) : res t :=
  ASSERT bool_decide (offset ≤ size o) ;;
  append (drop offset (contents o)) b.

Definition append_range (o : t) (start count : nat) (b : t) : res t :=
  ASSERT negb (empty o) ;;
  ASSERT bool_decide (start + count ≤ size o) ;;
  append (slice start count (contents o)) b.

Definition trim (sz : nat) (b : t) : res t :=
  ASSERT bool_decide (sz ≤ _size b) ;;
  ASSERT bool_decide (_data b ≠ None ∨ (_size b = 0 ∧ sz = 0)) ;;
  Ok (mk (_size b - sz) (_capacity b) (_data b)).

Definition clear (b : t) : res t := trim (size b) b.

Definition set_size (sz : nat) (b : t) : res t :=
  ASSERT bool_decide (sz ≤ _capacity b) ;;
  ASSERT bool_decide (_data b ≠ None) ;;
  Ok (mk sz (_capacity b) (_data b)).

Definition clone (b : t) : res t :=
  cp ← with_reserve (size b);
  append (contents b) cp.

(** The [memmove] of no bytes from a null pointer (an empty buffer that was
    never allocated) changes nothing. *)
Definition popFront (sz : nat) (b : t) : res t :=
  ASSERT bool_decide (sz ≤ size b) ;;
  let remaining := size b - sz in
  match _data b with
  | None => trim sz b
  | Some d =>
      REQUIRE bool_decide (sz + remaining ≤ length d) ;;
      trim sz (mk (_size b) (_capacity b) (Some (blit 0 (slice sz remaining d) d)))
  end.

Definition writeInt8 (val : u8) (pos : nat) (b : t) : res (t * nat) :=
  b' ← ensureCapacity (pos + 1) b;
  d ← memcpy_at pos [Some val] b';
  let sz := if bool_decide (_size b' < pos + 1) then pos + 1 else _size b' in
  Ok (mk sz (_capacity b') (Some d), pos + 1).

Definition appendUint8 (val : u8) (b : t) : res t :=
  b' ← ensureCapacity (size b + 1) b;
  d ← memcpy_at (size b') [Some val] b';
  Ok (mk (_size b' + 1) (_capacity b') (Some d)).

Definition appendString (str : list u8) (b : t) : res t := append (Some <$> str) b.

(** [writeUInt32LE(uint8_t, size_t)] *)
Definition writeUInt32LE_u8 (value : u8) (offset : nat) (b : t) : res t :=
  ASSERT bool_decide (offset + 1 ≤ _capacity b) ;;
  d ← memcpy_at (size b) [Some value] b;
  Ok (mk (if bool_decide (_size b < offset + 4) then offset + 4 else _size b)
         (_capacity b) (Some d)).

(** [writeUInt32LE(uint32_t, size_t)] *)
Definition writeUInt32LE (value : Z) (offset : nat) (b : t) : res t :=
  ASSERT bool_decide (offset + 4 ≤ _capacity b) ;;
  d ← memcpy_at (size b) (Some <$> le_split 4 value) b;
  Ok (mk (if bool_decide (_size b < offset + 4) then offset + 4 else _size b)
         (_capacity b) (Some d)).

Definition writeUInt32BE (value : Z) (offset : nat) (b : t) : res t := AssertFail.
Definition readUInt32BE (offset : nat) (b : t) : res Z := AssertFail.

(** reading memory: an indeterminate cell or one out of bounds is undefined *)
Definition load (pos n : nat) (b : t) : res (list u8) :=
  match _data b with
  | None => UB
  | Some d =>
      REQUIRE bool_decide (pos + n ≤ length d) ;;
      match mapM id (slice pos n d) with Some bs => Ok bs | None => UB end
  end.

Definition readUInt8 (offset : nat) (b : t) : res Z :=
  ASSERT bool_decide (offset + 1 ≤ _size b) ;;
  bs ← load offset 1 b;
  Ok (le_join bs).

(** declared to return [uint8_t] *)
Definition readUInt32LE (offset : nat) (b : t) : res Z :=
  ASSERT bool_decide (offset + 4 ≤ _size b) ;;
  bs ← load offset 4 b;
  Ok (le_join bs mod 2 ^ 8)%Z.

(** [Buffer(Buffer&&)] and [operator=(Buffer&&)] swap the two objects. *)
Definition move_construct (p : t) : t * t := (p, empty_buffer).
Definition move_assign (self p : t) : t * t := (p, self).

(** ** The invariant *)
Definition wf (b : t) : Prop :=
  match _data b with
  | None => _size b = 0 ∧ _capacity b = 0
  | Some d => length d = _capacity b ∧ _size b ≤ _capacity b ∧ MIN_BUFFER ≤ _capacity b
  end.

(** The operations that change a buffer. *)
Inductive op : Type :=
  | OpReserve (sz : nat)
  | OpAppend (dt : list cell)
  | OpAppendBuffer (o : t)
  | OpAppendFrom (o : t) (offset : nat)
  | OpAppendRange (o : t) (start count : nat)
  | OpTrim (sz : nat)
  | OpClear
  | OpSetSize (sz : nat)
  | OpPopFront (sz : nat)
  | OpWriteInt8 (val : u8) (pos : nat)
  | OpAppendUint8 (val : u8)
  | OpAppendString (str : list u8).

Definition exec (o : op) (b : t) : res t :=
  match o with
  | OpReserve sz => reserve sz b
  | OpAppend dt => append dt b
  | OpAppendBuffer o => append_buffer o b
  | OpAppendFrom o off => append_from o off b
  | OpAppendRange o s c => append_range o s c b
  | OpTrim sz => trim sz b
  | OpClear => clear b
  | OpSetSize sz => set_size sz b
  | OpPopFront sz => popFront sz b
  | OpWriteInt8 v pos => '(b', _) ← writeInt8 v pos b; Ok b'
  | OpAppendUint8 v => appendUint8 v b
  | OpAppendString s => appendString s b
  end.

(** ** Lemmas *)

(** [b] is allocated and holds [cs]. *)
Lemma length_buffer_contents b : wf b → length (contents b) = size b.
Proof. destruct b as [s c [d|]]; unfold wf, contents, size; simpl; intros; len. Qed.

Lemma contents_Some s c d : contents (mk s c (Some d)) = take s d.
Proof. done. Qed.

Lemma ensureCapacity_spec sz b :
  wf b →
  ∃ d, ensureCapacity sz b = Ok (mk (_size b) (length d) (Some d)) ∧
       sz ≤ length d ∧ _size b ≤ length d ∧ MIN_BUFFER ≤ length d ∧
       take (_size b) d = contents b.
Proof.
  destruct b as [s c [d|]]; unfold wf, ensureCapacity, contents; simpl.
  - intros (Hd & Hs & Hm). case_bool_decide.
    + exists (blit 0 (take s d) (uninit (sz `max` MIN_BUFFER))).
      unfold uninit. split_and!; try len; [do 2 f_equal; len|].
      list_ext.
    + exists d. split_and!; [by subst|lia..|done].
  - intros [-> ->]. exists (uninit (sz `max` MIN_BUFFER)).
    unfold uninit. unfold reserve; simpl. split_and!; try len; [|done].
    do 2 f_equal. len.
Qed.

Lemma memcpy_at_spec s pos dt d :
  pos + length dt ≤ length d →
  memcpy_at pos dt (mk s (length d) (Some d)) = Ok (blit pos dt d).
Proof. intros. unfold memcpy_at; simpl. by decide_goal. Qed.

Lemma buffer_append_spec dt b :
  wf b →
  ∃ b', append dt b = Ok b' ∧ wf b' ∧ contents b' = contents b ++ dt ∧
        _size b' = _size b + length dt.
Proof.
  intros Hwf. unfold append.
  destruct (ensureCapacity_spec (_size b + length dt) b Hwf)
    as (d & -> & H1 & H2 & H3 & H4); simpl.
  rewrite memcpy_at_spec by lia. simpl. eexists; split; [done|].
  unfold wf; simpl. split_and!; [len..| |done].
  unfold contents at 1; simpl. by rewrite take_blit_end, H4 by lia.
Qed.

Lemma wf_size_le b : wf b → size b ≤ capacity b.
Proof. unfold wf, size, capacity. destruct (_data b); lia. Qed.

Lemma contents_empty b : size b = 0 → contents b = [].
Proof. unfold contents, size. intros ->. by destruct (_data b). Qed.

Lemma trim_spec n b :
  wf b → n ≤ _size b →
  ∃ b', trim n b = Ok b' ∧ wf b' ∧ contents b' = take (_size b - n) (contents b) ∧
        _size b' = _size b - n ∧ _capacity b' = _capacity b.
Proof.
  destruct b as [s c [d|]]; unfold wf, trim, contents; simpl; intros Hwf Hn.
  - decide_goal.
    eexists; split; [done|]; simpl. split_and!; try lia. by rewrite take_take, Nat.min_l by lia.
  - destruct Hwf as [-> ->]. decide_goal.
    eexists; split; [done|]; simpl. split_and!; lia || done || by rewrite take_nil.
Qed.

Lemma popFront_spec n b :
  wf b → n ≤ _size b →
  ∃ b', popFront n b = Ok b' ∧ wf b' ∧ contents b' = drop n (contents b) ∧
        _size b' = _size b - n ∧ _capacity b' = _capacity b.
Proof.
  intros Hwf Hn. unfold popFront, size. decide_goal.
  destruct b as [s c [d|]]; simpl in *.
  - destruct Hwf as (Hd & Hs & Hm). simpl in *. decide_goal.
    destruct (trim_spec n (mk s c (Some (blit 0 (slice n (s - n) d) d))))
      as (b' & -> & Hb & Hc & Hsz & Hcap); simpl in *; [|done|].
    { unfold wf; simpl. split_and!; [len|done..]. }
    exists b'. split_and!; try done. rewrite Hc. unfold contents; simpl. list_ext.
  - destruct (trim_spec n (mk s c None) Hwf Hn) as (b' & -> & Hb & Hc & Hsz & Hcap).
    exists b'. split_and!; try done. rewrite Hc. unfold contents; simpl.
    by rewrite take_nil, drop_nil.
Qed.

Lemma writeInt8_spec v pos b :
  wf b →
  ∃ b', writeInt8 v pos b = Ok (b', pos + 1) ∧ wf b' ∧
        _size b' = _size b `max` (pos + 1) ∧
        contents b' !! pos = Some (Some v) ∧
        ∀ i, i < _size b → i ≠ pos → contents b' !! i = contents b !! i.
Proof.
  intros Hwf. unfold writeInt8.
  destruct (ensureCapacity_spec (pos + 1) b Hwf) as (d & -> & H1 & H2 & H3 & H4); simpl.
  rewrite memcpy_at_spec by (simpl; lia); simpl.
  assert (Hs : (if bool_decide (_size b < pos + 1) then pos + 1 else _size b)
               = _size b `max` (pos + 1)) by (case_bool_decide; lia).
  rewrite Hs. eexists; split; [done|]. unfold wf; simpl.
  rewrite length_blit by (simpl; lia). split_and!; try lia.
  - unfold contents; simpl. rewrite lookup_take_dec, lookup_blit by (simpl; lia).
    repeat case_decide; simpl in *; try lia; by rewrite Nat.sub_diag.
  - intros i Hi Hne. rewrite <-H4. unfold contents; simpl.
    rewrite !lookup_take_dec, lookup_blit by (simpl; lia).
    repeat case_decide; simpl in *; done || lia.
Qed.

(** Appending within the capacity keeps the allocation. *)
Lemma append_fits dt b b' :
  wf b → _data b ≠ None → _size b + length dt ≤ _capacity b →
  append dt b = Ok b' → _capacity b' = _capacity b.
Proof.
  destruct b as [s c [d|]]; unfold wf, append, ensureCapacity; simpl; [|done].
  intros Hwf _ Hfit. rewrite bool_decide_eq_false_2 by lia. simpl.
  intros H. inv_res. done.
Qed.

Definition grows (b b' : t) : Prop := wf b' ∧ capacity b ≤ capacity b'.

Lemma append_grows dt b b' : wf b → append dt b = Ok b' → grows b b'.
Proof.
  intros Hwf H. destruct (buffer_append_spec dt b Hwf) as (b1 & Hb1 & Hwf1 & _).
  assert (b1 = b') as -> by congruence. split; [done|].
  revert H. unfold append, ensureCapacity, reserve, capacity. intros H.
  apply bind_Ok_inv in H as (b2 & Hb2 & H). apply bind_Ok_inv in H as (d & _ & H). simplify_eq/=.
  destruct (_data b); repeat case_bool_decide; simplify_eq/=; lia.
Qed.

Lemma appendUint8_eq v b : appendUint8 v b = append [Some v] b.
Proof. done. Qed.

Lemma reserve_wf n b b' : reserve n b = Ok b' → wf b'.
Proof.
  unfold reserve. intros H. inv_res. unfold wf, uninit; simpl. len.
Qed.
End Buffer.

(** ** What the buffer promises *)
Module BufferSpec.
Import Buffer.

(** Memory safety and well-formedness of [Buffer]: from a well-formed
    buffer no operation reads or writes outside the allocation, whatever its
    arguments, and an operation that passes its assertions leaves the buffer
    well-formed. *)
Theorem buffer_ops_safe (o : op) (b : t) : wf b → safe_res wf (exec o b).
Proof.
  intros Hwf.
  assert (Happ : ∀ dt, safe_res wf (append dt b)).
  { intros dt. by destruct (buffer_append_spec dt b Hwf) as (b' & -> & Hb & _). }
  assert (Htrim : ∀ n, safe_res wf (trim n b)).
  { intros n. destruct (decide (n ≤ _size b)) as [Hn|Hn].
    - by destruct (trim_spec n b Hwf Hn) as (b' & -> & Hb & _).
    - unfold trim. by rewrite bool_decide_eq_false_2 by done. }
  destruct o; cbn [exec]; unfold append_buffer, append_from, append_range, appendString; auto.
  - destruct (reserve sz b) eqn:E; simpl; try done; [by eapply reserve_wf|..];
      unfold reserve in E; repeat case_bool_decide; discriminate.
  - case_bool_decide; [apply Happ|done].
  - destruct (empty o); simpl; [done|]. case_bool_decide; [apply Happ|done].
  - apply Htrim.
  - unfold set_size. repeat case_bool_decide; simpl; try done.
    unfold wf in *. simpl. destruct (_data b); [lia|done].
  - destruct (decide (sz ≤ _size b)) as [Hn|Hn].
    + by destruct (popFront_spec sz b Hwf Hn) as (b' & -> & Hb & _).
    + unfold popFront, size. by rewrite bool_decide_eq_false_2 by done.
  - by destruct (writeInt8_spec val pos b Hwf) as (b' & -> & Hb & _).
  - rewrite appendUint8_eq. apply Happ.
Qed.

Lemma buffer_ops_safe_witness :
  wf (mk 3 1024 (Some (uninit 1024))) ∧
  is_ok (exec (OpPopFront 2) (mk 3 1024 (Some (uninit 1024)))) = true ∧
  safe_res wf (exec (OpPopFront 2) (mk 3 1024 (Some (uninit 1024)))).
Proof.
  assert (H : wf (mk 3 1024 (Some (uninit 1024)))).
  { split; [reflexivity|]. unfold MIN_BUFFER; simpl; lia. }
  split; [exact H|]. split; [vm_compute; reflexivity|].
  apply (buffer_ops_safe (OpPopFront 2) _ H).
Defined.

(** FIFO behaviour of [Buffer]: on a well-formed buffer [append] always
    succeeds and adds the bytes at the end (growing the allocation when it
    has to), and [popFront n] on a buffer of at least [n] bytes always
    succeeds and removes exactly the first [n]. *)
Theorem buffer_append_popFront (dt : list cell) (n : nat) (b : t) :
  wf b → n ≤ _size b + length dt →
  ∃ b1 b2, append dt b = Ok b1 ∧ popFront n b1 = Ok b2 ∧
           contents b1 = contents b ++ dt ∧
           contents b2 = drop n (contents b ++ dt) ∧
           _size b2 = _size b + length dt - n ∧ wf b2.
Proof.
  intros Hwf Hn. destruct (buffer_append_spec dt b Hwf) as (b1 & H1 & Hwf1 & Hc1 & Hs1).
  destruct (popFront_spec n b1) as (b2 & H2 & Hwf2 & Hc2 & Hs2 & _); [done|lia|].
  exists b1, b2. rewrite Hc2, Hc1. split_and!; done || lia.
Qed.

Lemma buffer_append_popFront_witness :
  ∃ b1 b2, append [Some x01; Some x02] empty_buffer = Ok b1 ∧ popFront 1 b1 = Ok b2 ∧
           contents b1 = [Some x01; Some x02] ∧ contents b2 = [Some x02] ∧
           _size b2 = 1 ∧ wf b2.
Proof.
  apply (buffer_append_popFront [Some x01; Some x02] 1 empty_buffer).
  - split; reflexivity.
  - simpl; lia.
Defined.

(** [writeUInt32LE(value, offset)] stores at [size()], not at [offset]:
    over bytes that the buffer already holds the call succeeds and changes
    nothing that can be read back, and when fewer than four cells are left
    behind the data the copy runs past the allocation even though the
    assertion on [offset] holds. *)
Theorem writeUInt32LE_ignores_offset (value : Z) (offset : nat) (b : t) :
  wf b → offset + 4 ≤ _size b →
  (_size b + 4 ≤ _capacity b →
   ∃ b', writeUInt32LE value offset b = Ok b' ∧ contents b' = contents b) ∧
  (_capacity b < _size b + 4 → writeUInt32LE value offset b = UB).
Proof.
  intros Hwf Ho. destruct b as [s c [d|]]; unfold wf in Hwf; simpl in *; [|lia].
  destruct Hwf as (Hd & Hs & Hm). unfold writeUInt32LE, memcpy_at, size.
  cbn [_data _capacity _size]. rewrite length_fmap, length_le_split.
  split; intros Hroom.
  - decide_goal. eexists; split; [done|]. unfold contents; cbn [_data _size].
    rewrite take_blit_le; [done|lia|]. rewrite length_fmap, length_le_split. lia.
  - by decide_goal.
Qed.

Definition four_bytes : t :=
  mk 4 1024 (Some (blit 0 (Some <$> [x01;x02;x03;x04]) (uninit 1024))).
Definition full_buffer : t := mk 1024 1024 (Some (uninit 1024)).

Lemma writeUInt32LE_ignores_offset_witness :
  contents four_bytes = Some <$> [x01;x02;x03;x04] ∧
  (∃ b', writeUInt32LE 258 0 four_bytes = Ok b' ∧ contents b' = contents four_bytes) ∧
  writeUInt32LE 258 0 full_buffer = UB.
Proof.
  split; [vm_compute; reflexivity|]. split.
  - apply (writeUInt32LE_ignores_offset 258 0 four_bytes); vm_compute; lia.
  - apply (writeUInt32LE_ignores_offset 258 0 full_buffer); vm_compute; lia.
Defined.
End BufferSpec.

(** ** nodecpp::MultiOwner

    The vector of owning pointers is a list of optional objects ([None] is an
    empty [owning_ptr]); [cnt] has no initialiser in the code, so it is the
    value it had at construction. *)
Module MultiOwner.
Section defs.
Context {Item : Type} `{EqDecision Item}.

Record t : Type := mk { items : list (option Item); cnt : nat }.

Fixpoint put (item : Item) (l : list (option Item)) : list (option Item) :=
  match l with
  | [] => [Some item]                      (* items.emplace_back *)
  | None :: l' => Some item :: l'
  | Some x :: l' => Some x :: put item l'
  end.

(** [item] is [None] for an empty [owning_ptr] *)
Definition add (item : option Item) (m : t) : res (t * Item) :=
  match item with
  | None => AssertFail
  | Some it => Ok (mk (put it (items m)) (cnt m + 1), it)
  end.

(** the loop has no [break]: every slot equal to [item] is reset *)
Fixpoint reset_all (item : Item) (l : list (option Item)) (c : nat) : list (option Item) * nat :=
  match l with
  | [] => ([], c)
  | o :: l' =>
      if decide (o = Some item) then
        let '(l'', c') := reset_all item l' (c - 1) in (None :: l'', c')
      else
        let '(l'', c') := reset_all item l' c in (o :: l'', c')
  end.

Definition removeAndDelete (item : option Item) (m : t) : res t :=
  match item with
  | None => AssertFail
  | Some it => let '(l, c) := reset_all it (items m) (cnt m) in Ok (mk l c)
  end.

Definition clear (m : t) : t := mk [] 0.
Definition getCount (m : t) : nat := cnt m.

(** the objects owned *)
Fixpoint owned (l : list (option Item)) : list Item :=
  match l with
  | [] => []
  | Some x :: l' => x :: owned l'
  | None :: l' => owned l'
  end.
Definition wf (m : t) : Prop := cnt m = length (owned (items m)).

Lemma owned_put it l : owned (put it l) ≡ₚ it :: owned l.
Proof.
  induction l as [|[x|] l IH]; cbn [put owned]; [done| |done].
  rewrite IH. constructor.
Qed.

Lemma reset_all_spec it l c :
  length (owned l) ≤ c →
  owned (reset_all it l c).1 = filter (.≠ it) (owned l) ∧
  (reset_all it l c).2 + length (owned l) = c + length (filter (.≠ it) (owned l)).
Proof.
  revert c. induction l as [|o l IH]; intros c Hc; cbn [reset_all owned]; [done|].
  case_decide as Ho.
  - subst o. cbn [owned length] in *.
    destruct (IH (c - 1) ltac:(lia)) as [IH1 IH2].
    destruct (reset_all it l (c - 1)) as [l' c']. simpl in *.
    rewrite filter_cons_False by naive_solver. split; [done|lia].
  - destruct o as [x|]; cbn [owned length] in *.
    + destruct (IH c ltac:(lia)) as [IH1 IH2].
      destruct (reset_all it l c) as [l' c']. simpl in *.
      rewrite filter_cons_True by naive_solver. split; [by rewrite IH1|]. simpl. lia.
    + destruct (IH c ltac:(lia)) as [IH1 IH2].
      destruct (reset_all it l c) as [l' c']. done.
Qed.
End defs.
Arguments t Item : clear implicits.

(** The count of a [MultiOwner] is the number of objects it owns: [add] of
    an object adds exactly that object, [removeAndDelete] removes exactly the
    occurrences of its argument, and the count follows. *)
Theorem multiowner_count `{EqDecision Item} (it : Item) (m : t Item) :
  wf m →
  (∃ m', add (Some it) m = Ok (m', it) ∧ wf m' ∧ owned (items m') ≡ₚ it :: owned (items m)) ∧
  (∃ m', removeAndDelete (Some it) m = Ok m' ∧ wf m' ∧
         owned (items m') = filter (.≠ it) (owned (items m))).
Proof.
  unfold wf. intros Hwf. split.
  - eexists; split; [done|]. simpl. pose proof (owned_put it (items m)) as Hp.
    split; [|done]. rewrite Hp. simpl. lia.
  - unfold removeAndDelete.
    destruct (reset_all_spec it (items m) (cnt m) ltac:(lia)) as [H1 H2].
    destruct (reset_all it (items m) (cnt m)) as [l c]. simpl in *.
    eexists; split; [done|]. simpl. split; [|done]. rewrite H1. lia.
Qed.

Lemma multiowner_count_witness :
  ∃ m', removeAndDelete (Some 7) (mk [Some 7; None; Some 9] 2) = Ok m' ∧ wf m' ∧
        owned (items m') = [9].
Proof.
  destruct (multiowner_count 7 (mk [Some 7; None; Some 9] 2) eq_refl) as [_ H]. exact H.
Defined.
End MultiOwner.
