(* ===== verification/Circular.v ===== *)
(** * The circular byte buffer (include/nodecpp/net_common.h)

    [nodecpp::CircularByteBuffer] holds the bytes of a socket that were
    received and not yet consumed, or written and not yet sent. The model keeps
    the allocation as a list of cells and the two raw pointers [begin] and [end]
    as offsets into it, so that every [memcpy], wrap-around and reallocation of
    the code is a step of the model, with an access outside the allocation
    being undefined. [Module Cbb] holds the operations and their lemmas,
    [Module CbbSpec] the theorems: the refinement of a queue of bytes first. *)

From S2P Require Import Prelude Buffers.
From Stdlib Require Import Lia.

Module Cbb.

Definition max_allowed_size_exp : nat := 32.

Record t : Type := mk {
  buff : list cell;
  size_exp : nat;
  begin_ : nat;
  end_ : nat;
}.

Definition alloc_size (cb : t) : nat := 2 ^ size_exp cb.

(** [CircularByteBuffer(size_t sz_exp)]: the size is [1 << sz_exp], undefined from
    the width of a [size_t] on *)
Definition fresh_ring (sz_exp : nat) : t := mk (uninit (2 ^ sz_exp)) sz_exp 0 0.
Definition create (sz_exp : nat) : res t :=
  REQUIRE bool_decide (sz_exp < 64) ;; Ok (fresh_ring sz_exp).

Definition used_size (cb : t) : nat :=
  if bool_decide (begin_ cb ≤ end_ cb) then end_ cb - begin_ cb
  else alloc_size cb - (begin_ cb - end_ cb).
Definition remaining_capacity (cb : t) : nat := alloc_size cb - 1 - used_size cb.
Definition empty (cb : t) : bool := bool_decide (begin_ cb = end_ cb).

(** the [while] loop of [resize_up_and_append]: [None] is [return false] *)
Fixpoint grow_exp (fuel new_size_exp total_sz : nat) : res (option nat) :=
  match fuel with
  | O => NoFuel
  | S fuel' =>
      if bool_decide (2 ^ new_size_exp < total_sz + 1) then
        let e := S new_size_exp in
        if bool_decide (max_allowed_size_exp < e) then Ok None
        else grow_exp fuel' e total_sz
      else Ok (Some new_size_exp)
  end.

Definition resize_up_and_append (data : list cell) (cb : t) : res (t * bool) :=
  let total_sz := used_size cb + length data in
  oe ← grow_exp (S max_allowed_size_exp) (S (size_exp cb)) total_sz;
  match oe with
  | None => Ok (cb, false)
  | Some new_size_exp =>
      let new_alloc_size := 2 ^ new_size_exp in
      let new_buff := uninit new_alloc_size in
      '(new_buff, sz) ←
        (if bool_decide (begin_ cb ≤ end_ cb) then
           let sz := end_ cb - begin_ cb in
           d ← load_cells (begin_ cb) sz (buff cb);
           nb ← store_cells 0 d new_buff;
           Ok (nb, sz)
         else
           let sz := alloc_size cb - begin_ cb in
           d ← load_cells (begin_ cb) sz (buff cb);
           nb ← store_cells 0 d new_buff;
           d' ← load_cells 0 (end_ cb) (buff cb);
           nb ← store_cells sz d' nb;
           Ok (nb, sz + end_ cb));
      new_buff ← store_cells sz data new_buff;
      Ok (mk new_buff new_size_exp 0 (sz + length data), true)
  end.

Definition append (data : list cell) (cb : t) : res (t * bool) :=
  let sz := length data in
  if bool_decide (remaining_capacity cb < sz) then resize_up_and_append data cb
  else
    let fwd_free_sz := alloc_size cb - end_ cb in
    if bool_decide (sz ≤ fwd_free_sz) then
      m ← store_cells (end_ cb) data (buff cb);
      let e := end_ cb + sz in
      Ok (mk m (size_exp cb) (begin_ cb) (if bool_decide (e = alloc_size cb) then 0 else e), true)
    else
      m ← store_cells (end_ cb) (take fwd_free_sz data) (buff cb);
      m ← store_cells 0 (drop fwd_free_sz data) m;
      Ok (mk m (size_exp cb) (begin_ cb) (sz - fwd_free_sz), true).

(** [read_ready_data_until_impl]: the byte loop, then the classification *)
Fixpoint until_loop (fuel : nat) (mem : list cell) (b : nat) (what : u8)
    (workingEnd : nat) (out : Buffer.t) : res (nat * Buffer.t) :=
  match fuel with
  | O => NoFuel
  | S fuel' =>
      if bool_decide (b < workingEnd) then
        curr ← load_byte b mem;
        if bool_decide (curr ≠ what ∧ Buffer.size out < Buffer.capacity out) then
          out' ← Buffer.appendUint8 curr out;
          until_loop fuel' mem (S b) what workingEnd out'
        else Ok (b, out)
      else Ok (b, out)
  end.

Definition read_ready_data_until_impl (mem : list cell) (b : nat) (what : u8)
    (workingEnd : nat) (out : Buffer.t) : res (nat * Buffer.t * CoroStandardOutcomes) :=
  if bool_decide (b = workingEnd) then Ok (b, out, in_progress)
  else
    '(b', out') ← until_loop (S (workingEnd - b)) mem b what workingEnd out;
    found ← (if bool_decide (b' < workingEnd) then
               c ← load_byte b' mem; Ok (bool_decide (c = what))
             else Ok false);
    if (found : bool) then
      out'' ← Buffer.appendUint8 what out';
      Ok (S b', out'', ok)
    else if bool_decide (Buffer.capacity out' = Buffer.size out') then
      Ok (b', out', insufficient_buffer)
    else
      ASSERT bool_decide (b' = workingEnd) ;;
      Ok (b', out', in_progress).

Definition read_ready_data_until (what : u8) (out : Buffer.t) (cb : t)
  : res (t * Buffer.t * CoroStandardOutcomes) :=
  ASSERT bool_decide (Buffer.size out = 0) ;;
  ASSERT bool_decide (Buffer.capacity out ≠ 0) ;;
  if bool_decide (begin_ cb = end_ cb) then Ok (cb, out, in_progress)
  else if bool_decide (begin_ cb < end_ cb) then
    '(b, out', r) ← read_ready_data_until_impl (buff cb) (begin_ cb) what (end_ cb) out;
    Ok (mk (buff cb) (size_exp cb) b (end_ cb), out', r)
  else
    '(b, out', firstRet) ← read_ready_data_until_impl (buff cb) (begin_ cb) what (alloc_size cb) out;
    let b := if bool_decide (b = alloc_size cb) then 0 else b in
    match firstRet with
    | ok | insufficient_buffer =>
        Ok (mk (buff cb) (size_exp cb) b (end_ cb), out', firstRet)
    | _ =>
        '(b, out', r) ← read_ready_data_until_impl (buff cb) b what (end_ cb) out';
        Ok (mk (buff cb) (size_exp cb) b (end_ cb), out', r)
    end.

Definition get_ready_data (bytes2read : nat) (out : Buffer.t) (cb : t) : res (t * Buffer.t) :=
  ASSERT bool_decide (Buffer.size out = 0) ;;
  ASSERT bool_decide (bytes2read ≤ Buffer.capacity out) ;;
  let at_ b := mk (buff cb) (size_exp cb) b (end_ cb) in
  if bool_decide (begin_ cb ≤ end_ cb) then
    let diff := end_ cb - begin_ cb in
    let sz2copy := if bool_decide (diff ≤ bytes2read) then diff else bytes2read in
    d ← load_cells (begin_ cb) sz2copy (buff cb);
    out' ← Buffer.append d out;
    Ok (at_ (begin_ cb + sz2copy), out')
  else
    let sz2copy := alloc_size cb - begin_ cb in
    if bool_decide (bytes2read < sz2copy) then
      d ← load_cells (begin_ cb) bytes2read (buff cb);
      out' ← Buffer.append d out;
      ASSERT bool_decide (begin_ cb + bytes2read < alloc_size cb) ;;
      Ok (at_ (begin_ cb + bytes2read), out')
    else if bool_decide (sz2copy < bytes2read) then
      d ← load_cells (begin_ cb) sz2copy (buff cb);
      out' ← Buffer.append d out;
      ASSERT bool_decide (begin_ cb + sz2copy = alloc_size cb) ;;
      let diff := end_ cb in
      let sz2copy2 := if bool_decide (diff < bytes2read - sz2copy) then diff
                      else bytes2read - sz2copy in
      d' ← load_cells 0 sz2copy2 (buff cb);
      out'' ← Buffer.append d' out';
      ASSERT bool_decide (sz2copy2 ≤ end_ cb) ;;
      Ok (at_ sz2copy2, out'')
    else
      d ← load_cells (begin_ cb) sz2copy (buff cb);
      out' ← Buffer.append d out;
      Ok (at_ 0, out').

(** [get_ready_data(Buffer&)] *)
Definition get_all_ready_data (out : Buffer.t) (cb : t) : res (t * Buffer.t) :=
  get_ready_data (Buffer.capacity out) out cb.

Definition advance (cb : t) : t :=
  mk (buff cb) (size_exp cb)
     (if bool_decide (S (begin_ cb) ≠ alloc_size cb) then S (begin_ cb) else 0) (end_ cb).

Definition try_read_byte (cb : t) : res (t * (bool * u8)) :=
  if negb (empty cb) then
    c ← load_byte (begin_ cb) (buff cb);
    Ok (advance cb, (true, c))
  else Ok (cb, (false, x00)).

Definition read_byte (cb : t) : res (t * u8) :=
  ASSERT bool_decide (begin_ cb ≠ end_ cb) ;;
  c ← load_byte (begin_ cb) (buff cb);
  Ok (advance cb, c).

(** [CircularByteBuffer(CircularByteBuffer&&)]: the array moves ([None] is
    what is left of the source), and the pointers are copied. *)
Definition move_construct (other : t) : t * option (list cell) := (other, None).

(** [operator=(CircularByteBuffer&&)] copies the pointers and the exponent
    and leaves both arrays where they are: [begin] and [end] of the target
    then point into the array of [other]. The result tells which array the
    pointers of the target refer to. *)
Inductive points_to : Type := own_array | array_of_other.
Definition move_assign (self other : t) : list cell * points_to * nat * nat * nat :=
  (buff self, array_of_other, size_exp other, begin_ other, end_ other).

(** ** The operations that talk to the operating system

    [write] and [read] are templates over the object that does the transfer;
    [writer d w] is offered the cells [d] and returns whether it can continue
    and how many it took; [reader n w] is offered room for [n] bytes and
    returns the bytes it stored. *)
Section transfer.
Context {W : Type}.
Context (writer : list cell → W → res (W * bool * nat)).
Context (reader : nat → W → res (W * bool * list u8)).

Definition write (cb : t) (w : W) : res (t * W * nat) :=
  let at_ b := mk (buff cb) (size_exp cb) b (end_ cb) in
  if bool_decide (begin_ cb < end_ cb) then
    d ← load_cells (begin_ cb) (end_ cb - begin_ cb) (buff cb);
    '(w, _, n) ← writer d w;
    Ok (at_ (begin_ cb + n), w, n)
  else if bool_decide (end_ cb < begin_ cb) then
    let sz2write := alloc_size cb - begin_ cb in
    (* the code passes [end], not [begin], to the writer *)
    d ← load_cells (end_ cb) sz2write (buff cb);
    '(w, can_continue, n) ← writer d w;
    let b := begin_ cb + n in
    let till_end := bool_decide (b = alloc_size cb) in
    let b := if till_end then 0 else b in
    if negb can_continue || negb till_end then Ok (at_ b, w, n)
    else
      ASSERT bool_decide (b = 0) ;;
      if bool_decide (b ≠ end_ cb) then
        d ← load_cells b (end_ cb - b) (buff cb);
        '(w, _, bw) ← writer d w;
        Ok (at_ (b + bw), w, n + bw)
      else Ok (at_ b, w, n)
  else Ok (cb, w, 0).

Definition read (target_sz : nat) (cb : t) (w : W) : res (t * W * nat) :=
  if bool_decide (end_ cb < begin_ cb) then
    '(w, _, bs) ← reader (begin_ cb - end_ cb - 1) w;
    m ← store_cells (end_ cb) (Some <$> bs) (buff cb);
    Ok (mk m (size_exp cb) (begin_ cb) (end_ cb + length bs), w, length bs)
  else
    let endpoint := if bool_decide (begin_ cb ≠ 0) then alloc_size cb else alloc_size cb - 1 in
    let sz2read := endpoint - end_ cb in
    '(w, can_continue, bs) ← reader sz2read w;
    m ← store_cells (end_ cb) (Some <$> bs) (buff cb);
    let e := end_ cb + length bs in
    let till_end := bool_decide (e = alloc_size cb) in
    let e := if till_end then 0 else e in
    let cb' := mk m (size_exp cb) (begin_ cb) e in
    if negb can_continue || negb till_end then Ok (cb', w, length bs)
    else
      ASSERT bool_decide (e = 0) ;;
      if bool_decide (begin_ cb + target_sz ≤ alloc_size cb) then Ok (cb', w, length bs)
      else if bool_decide (1 < begin_ cb - e) then
        '(w, _, br) ← reader (begin_ cb - e - 1) w;
        m' ← store_cells e (Some <$> br) m;
        Ok (mk m' (size_exp cb) (begin_ cb) (e + length br), w, length bs + length br)
      else Ok (cb', w, length bs).
End transfer.

(** ** The invariant and the abstraction *)
Definition wf (cb : t) : Prop :=
  length (buff cb) = alloc_size cb ∧ begin_ cb < alloc_size cb ∧ end_ cb < alloc_size cb.

(** the cells between two offsets of a ring, and the bytes held, oldest first *)
Definition ring (mem : list cell) (b e : nat) : list cell :=
  if bool_decide (b ≤ e) then slice b (e - b) mem else drop b mem ++ take e mem.
Definition contents (cb : t) : list cell := ring (buff cb) (begin_ cb) (end_ cb).

(** ** Lemmas on rings *)
Section ring.
Implicit Types (mem d : list cell) (b e n : nat).

Ltac ring_tac :=
  intros; unfold ring; repeat case_bool_decide; try lia; list_ext.

Lemma length_ring mem b e :
  b < length mem → e < length mem →
  length (ring mem b e) = if bool_decide (b ≤ e) then e - b else length mem - (b - e).
Proof. intros. unfold ring, slice. case_bool_decide; len. Qed.

Lemma ring_empty mem b : ring mem b b = [].
Proof. ring_tac. Qed.

Lemma ring_push mem b e d :
  b ≤ e → e + length d < length mem →
  ring (blit e d mem) b (e + length d) = ring mem b e ++ d.
Proof. ring_tac. Qed.

Lemma ring_push_to_end mem b e d :
  0 < b → b ≤ e → e + length d = length mem →
  ring (blit e d mem) b 0 = ring mem b e ++ d.
Proof. ring_tac. Qed.

Lemma ring_push_low mem b e d :
  e < b → b < length mem → e + length d < b →
  ring (blit e d mem) b (e + length d) = ring mem b e ++ d.
Proof. ring_tac. Qed.

Lemma ring_push_split mem b e d d' :
  b ≤ e → e < length mem → e + length d = length mem → length d' < b →
  ring (blit 0 d' (blit e d mem)) b (length d') = ring mem b e ++ d ++ d'.
Proof. ring_tac. Qed.

Lemma ring_pop mem b e n :
  b < length mem → e < length mem → n ≤ length (ring mem b e) → b + n < length mem →
  ring mem (b + n) e = drop n (ring mem b e).
Proof. intros Hb He Hn Hl. rewrite length_ring in Hn by done. revert Hn. ring_tac. Qed.

Lemma ring_pop_to_end mem b e n :
  e < b → b < length mem → b + n = length mem →
  ring mem 0 e = drop n (ring mem b e).
Proof. ring_tac. Qed.

Lemma ring_peek mem b e n :
  b < length mem → e < length mem → n ≤ length (ring mem b e) → b + n ≤ length mem →
  slice b n mem = take n (ring mem b e).
Proof. intros Hb He Hn Hl. rewrite length_ring in Hn by done. revert Hn. ring_tac. Qed.
End ring.

Lemma alloc_size_pos cb : 0 < alloc_size cb.
Proof. unfold alloc_size. apply Nat.neq_0_lt_0, Nat.pow_nonzero. done. Qed.

Lemma create_spec e : wf (fresh_ring e) ∧ contents (fresh_ring e) = [].
Proof.
  pose proof (alloc_size_pos (fresh_ring e)). unfold wf, alloc_size, contents in *; simpl in *.
  unfold uninit. rewrite length_replicate, ring_empty. done.
Qed.

Lemma length_ring_contents cb : wf cb → length (contents cb) = used_size cb.
Proof.
  intros (Hl & Hb & He). unfold contents, used_size. rewrite length_ring by lia.
  case_bool_decide; lia.
Qed.

Lemma used_size_lt cb : wf cb → used_size cb < alloc_size cb.
Proof. intros (Hl & Hb & He). unfold used_size. case_bool_decide; lia. Qed.

(** ** Growing and appending *)
Lemma grow_exp_spec fuel e total :
  0 < fuel → max_allowed_size_exp < e + fuel →
  (grow_exp fuel e total = Ok None ∧ 2 ^ max_allowed_size_exp < total + 1) ∨
  (∃ e', grow_exp fuel e total = Ok (Some e') ∧ total + 1 ≤ 2 ^ e').
Proof.
  revert e. induction fuel as [|fuel IH]; intros e Hf He; [lia|].
  cbn [grow_exp]. case_bool_decide as H1; [|right; exists e; split; [done|lia]].
  case_bool_decide as H2; [|apply IH; unfold max_allowed_size_exp in *; lia].
  left. split; [done|]. eapply Nat.le_lt_trans; [|exact H1].
  apply Nat.pow_le_mono_r; lia.
Qed.

Lemma resize_spec data cb :
  wf cb →
  (resize_up_and_append data cb = Ok (cb, false) ∧
   2 ^ max_allowed_size_exp ≤ used_size cb + length data) ∨
  (∃ cb', resize_up_and_append data cb = Ok (cb', true) ∧ wf cb' ∧
          contents cb' = contents cb ++ data).
Proof.
  intros Hwf. pose proof Hwf as (Hl & Hb & He). unfold resize_up_and_append.
  destruct (grow_exp_spec (S max_allowed_size_exp) (S (size_exp cb)) (used_size cb + length data))
    as [[-> Hbig]|(e' & -> & Hfit)]; [unfold max_allowed_size_exp; lia..|left; split; [done|lia]|].
  right. cbn [mbind res_bind].
  pose proof (length_ring_contents cb Hwf) as Hlen. unfold contents in *.
  unfold used_size in *. set (N' := 2 ^ e') in *.
  assert (HN' : length (uninit N') = N') by (unfold uninit; len).
  case_bool_decide as Hbe; mem_steps;
    (eexists; split; [done|]; unfold wf, alloc_size in *; cbn [buff begin_ end_ size_exp]; fold N');
    (split; [split; [len|lia]|]); unfold ring; repeat case_bool_decide; try lia; list_ext.
Qed.

Lemma ring_append_spec data cb :
  wf cb →
  (append data cb = Ok (cb, false) ∧
   2 ^ max_allowed_size_exp ≤ used_size cb + length data) ∨
  (∃ cb', append data cb = Ok (cb', true) ∧ wf cb' ∧ contents cb' = contents cb ++ data).
Proof.
  intros Hwf. unfold append. case_bool_decide as Hcap; [by apply resize_spec|]. right.
  pose proof Hwf as (Hl & Hb & He). unfold remaining_capacity, used_size in Hcap.
  case_bool_decide as Hbe; case_bool_decide as Hfwd; try lia; mem_steps;
    eexists; (split; [done|]); unfold wf, alloc_size, contents in *;
    cbn [buff begin_ end_ size_exp].
  - assert (Hlen : length (blit (end_ cb) data (buff cb)) = 2 ^ size_exp cb) by len.
    case_bool_decide as Hend; (split; [split; [done|lia]|]);
      [apply ring_push_to_end|apply ring_push]; lia.
  - split; [split; [len|lia]|].
    rewrite <-(take_drop (2 ^ size_exp cb - end_ cb) data) at 4.
    rewrite <-ring_push_split by len. f_equal. len.
  - rewrite bool_decide_eq_false_2 by lia. split; [split; [len|lia]|].
    apply ring_push_low; lia.
Qed.

(** ** Consuming *)
Lemma wf_at cb b :
  wf cb → b < alloc_size cb → wf (mk (buff cb) (size_exp cb) b (end_ cb)).
Proof. intros (Hl & Hb & He) ?. unfold wf, alloc_size in *; simpl. lia. Qed.

(** Moving [begin] forward by [n], with the wrap-around when it meets the end
    of the array. *)
Lemma pop_spec n cb :
  wf cb → n ≤ length (contents cb) → begin_ cb + n < alloc_size cb →
  let cb' := mk (buff cb) (size_exp cb) (begin_ cb + n) (end_ cb) in
  wf cb' ∧ contents cb' = drop n (contents cb).
Proof.
  intros Hwf Hn Hl. split; [by apply wf_at|].
  destruct Hwf as (Hm & Hb & He). unfold contents in *; simpl. apply ring_pop; lia.
Qed.

Lemma pop_wrap_spec n cb :
  wf cb → end_ cb < begin_ cb → begin_ cb + n = alloc_size cb →
  let cb' := mk (buff cb) (size_exp cb) 0 (end_ cb) in
  wf cb' ∧ contents cb' = drop n (contents cb).
Proof.
  intros Hwf Hlt Hl. pose proof (alloc_size_pos cb). split; [by apply wf_at|].
  destruct Hwf as (Hm & Hb & He). unfold contents; simpl. apply ring_pop_to_end; lia.
Qed.

Lemma peek_spec n cb :
  wf cb → n ≤ length (contents cb) → begin_ cb + n ≤ alloc_size cb →
  load_cells (begin_ cb) n (buff cb) = Ok (take n (contents cb)).
Proof.
  intros (Hm & Hb & He) Hn Hl. rewrite load_cells_ok by lia.
  unfold contents in *. rewrite (ring_peek (buff cb) (begin_ cb) (end_ cb)) by lia. done.
Qed.

Lemma advance_spec cb c q :
  wf cb → contents cb = c :: q → wf (advance cb) ∧ contents (advance cb) = q.
Proof.
  intros Hwf Hc. pose proof (length_ring_contents cb Hwf) as Hl. rewrite Hc in Hl. simpl in Hl.
  pose proof Hwf as (Hm & Hb & He). unfold advance, used_size in *.
  replace q with (drop 1 (contents cb)) by (by rewrite Hc).
  case_goal as Hs.
  - replace (S (begin_ cb)) with (begin_ cb + 1) by lia.
    apply pop_spec; [done|rewrite Hc; simpl; lia|lia].
  - apply pop_wrap_spec; [done| |lia]. revert Hl; case_bool_decide; lia.
Qed.

Lemma load_byte_spec cb c q :
  wf cb → contents cb = Some c :: q → load_byte (begin_ cb) (buff cb) = Ok c.
Proof.
  intros Hwf Hc. pose proof Hwf as (Hm & Hb & He).
  pose proof (peek_spec 1 cb Hwf) as Hp. rewrite Hc in Hp. simpl in Hp.
  specialize (Hp ltac:(lia) ltac:(lia)). unfold load_cells in Hp. inv_res.
  unfold load_byte, slice in *. rewrite <-(Nat.add_0_r (begin_ cb)), <-lookup_drop.
  destruct (drop (begin_ cb) (buff cb)); simplify_eq/=. done.
Qed.

Lemma get_ready_data_spec n out cb :
  wf cb → Buffer.wf out → Buffer.size out = 0 → n ≤ Buffer.capacity out →
  ∃ cb' out', get_ready_data n out cb = Ok (cb', out') ∧
    wf cb' ∧ Buffer.wf out' ∧
    Buffer.contents out' = take n (contents cb) ∧
    contents cb' = drop n (contents cb).
Proof.
  intros Hwf Ho Hs Hcap. unfold get_ready_data. decide_goal.
  pose proof (Buffer.contents_empty out Hs) as He0.
  pose proof (length_ring_contents cb Hwf) as Hlen. pose proof Hwf as (Hm & Hb & He).
  unfold used_size in Hlen. revert Hlen. case_goal as Hbe.
  - intros Hlen. set (k := if bool_decide _ then _ else _).
    assert (Hk : k = n `min` (end_ cb - begin_ cb)) by (subst k; case_bool_decide; lia).
    clearbody k. subst k. set (k := n `min` _).
    rewrite (peek_spec k) by (done || lia). cbn [mbind res_bind].
    destruct (Buffer.buffer_append_spec (take k (contents cb)) out Ho) as (o' & -> & Ho' & Hc' & _).
    destruct (pop_spec k cb) as [Hw Hd]; [done|lia..|].
    eexists _, _; split; [done|]. rewrite Hc', Hd, He0. split_and!; try done.
    + subst k. by rewrite <-Hlen, take_min_length.
    + subst k. by rewrite <-Hlen, drop_min_length.
  - intros Hlen. case_goal as H1; [|case_goal as H2].
    + rewrite (peek_spec n) by (done || lia). cbn [mbind res_bind].
      destruct (Buffer.buffer_append_spec (take n (contents cb)) out Ho) as (o' & -> & Ho' & Hc' & _).
      cbn [mbind res_bind]. decide_goal.
      destruct (pop_spec n cb) as [Hw Hd]; [done|lia..|].
      eexists _, _; split; [done|]. by rewrite Hc', Hd, He0.
    + set (k := alloc_size cb - begin_ cb) in *.
      rewrite (peek_spec k) by (done || lia). cbn [mbind res_bind].
      destruct (Buffer.buffer_append_spec (take k (contents cb)) out Ho) as (o' & -> & Ho' & Hc' & _).
      cbn [mbind res_bind]. rewrite (bool_decide_eq_true_2 (begin_ cb + k = _)) by lia.
      set (j := if bool_decide _ then _ else _).
      assert (Hj : j = (n - k) `min` end_ cb) by (subst j; case_bool_decide; lia).
      clearbody j. subst j. set (j := _ `min` end_ cb) in *.
      destruct (pop_wrap_spec k cb) as [Hw Hd]; [done|lia..|].
      pose proof (peek_spec j _ Hw) as Hp. pose proof (pop_spec j _ Hw) as [Hw2 Hd2];
        cbn [buff size_exp begin_ end_] in *; rewrite ?Hd in *.
      { rewrite length_drop. lia. } { unfold alloc_size in *; simpl; lia. }
      rewrite Hp by (rewrite ?length_drop; unfold alloc_size in *; simpl; lia).
      cbn [mbind res_bind].
      destruct (Buffer.buffer_append_spec (take j (drop k (contents cb))) o' Ho')
        as (o2 & -> & Ho2 & Hc2 & _). cbn [mbind res_bind]. rewrite bool_decide_eq_true_2 by lia.
      eexists _, _; split; [done|]. split_and!; [done..| |].
      * rewrite Hc2, Hc', He0. subst j. replace (end_ cb) with (length (drop k (contents cb)))
          by (rewrite length_drop; lia). rewrite take_min_length. list_ext.
      * simpl in Hd2. rewrite Hd2. subst j. replace (end_ cb) with (length (drop k (contents cb)))
          by (rewrite length_drop; lia). rewrite drop_min_length, drop_drop. f_equal. lia.
    + assert (n = alloc_size cb - begin_ cb) as -> by lia.
      rewrite (peek_spec (alloc_size cb - begin_ cb)) by (done || lia). cbn [mbind res_bind].
      destruct (Buffer.buffer_append_spec (take (alloc_size cb - begin_ cb) (contents cb)) out Ho)
        as (o' & -> & Ho' & Hc' & _).
      destruct (pop_wrap_spec (alloc_size cb - begin_ cb) cb) as [Hw Hd]; [done|lia..|].
      eexists _, _; split; [done|]. by rewrite Hc', Hd, He0.
Qed.

(** ** Reading up to a delimiter *)
Lemma until_loop_spec what mem we fuel b q out :
  we - b < fuel → b ≤ we → we ≤ length mem → slice b (we - b) mem = (Some <$> q) →
  Buffer.wf out →
  ∃ p r out', until_loop fuel mem b what we out = Ok (b + length p, out') ∧
    q = p ++ r ∧ (what ∉ p) ∧ Buffer.wf out' ∧
    Buffer.contents out' = Buffer.contents out ++ (Some <$> p) ∧
    Buffer.size out' = Buffer.size out + length p ∧
    Buffer.capacity out' = Buffer.capacity out ∧
    (r = [] ∨ head r = Some what ∨ Buffer.capacity out ≤ Buffer.size out').
Proof.
  revert b q out. induction fuel as [|fuel IH]; intros b q out Hf Hb Hl Hq Ho; [lia|].
  assert (Hlen : length q = we - b).
  { apply (f_equal length) in Hq. rewrite length_fmap, length_slice in Hq by lia. done. }
  cbn [until_loop]. case_goal as Hlt.
  2: { exists [], q, out. rewrite Nat.add_0_r, app_nil_r.
       split_and!; try done; try apply not_elem_of_nil; try (simpl; lia).
       left. apply length_zero_iff_nil. lia. }
  destruct q as [|c q]; [simpl in *; lia|].
  apply slice_cons_inv in Hq as [Hc Hq].
  unfold load_byte. rewrite Hc. cbn [mbind res_bind]. case_goal as Hcond.
  - destruct Hcond as [Hne Hroom]. rewrite Buffer.appendUint8_eq.
    destruct (Buffer.buffer_append_spec [Some c] out Ho) as (o' & Ha & Ho' & Hc' & Hs').
    rewrite Ha. cbn [mbind res_bind]. simpl in Hs'.
    assert (Hcap : Buffer._capacity o' = Buffer._capacity out).
    { apply (Buffer.append_fits [Some c] out o' Ho); simpl;
        unfold Buffer.size, Buffer.capacity in *; [|lia|done].
      intros Hd. unfold Buffer.wf in Ho. rewrite Hd in Ho. unfold Buffer.capacity in *. lia. }
    destruct (IH (S b) q o') as (p & r & o2 & Hu & -> & Hp & Ho2 & Hc2 & Hs2 & Hcap2 & Hend);
      [lia..| |done|].
    { etrans; [|exact Hq]. f_equal. lia. }
    exists (c :: p), r, o2. simpl. unfold Buffer.size, Buffer.capacity in *.
    rewrite Hu, Hc2, Hc', <-app_assoc. split_and!; try done; try lia.
    + do 2 f_equal. lia.
    + by apply not_elem_of_cons.
    + destruct Hend as [?|[?|?]]; [by left|by right; left|right; right; lia].
  - exists [], (c :: q), out. rewrite Nat.add_0_r, app_nil_r.
    split_and!; try done; try apply not_elem_of_nil; try (simpl; lia).
    right. destruct (decide (c = what)) as [->|Hne]; [by left|right].
    destruct (decide (Buffer.size out < Buffer.capacity out)); [naive_solver|lia].
Qed.

(** What [read_ready_data_until] and its helper report about the bytes [q]
    they could look at, having taken [p] of them into a buffer that had [room]
    free cells. *)
Definition until_outcome (what : u8) (room : nat) (q p : list u8) (r : CoroStandardOutcomes) : Prop :=
  match r with
  | ok => ∃ p', p = p' ++ [what] ∧ (what ∉ p') ∧ length p' ≤ room
  | insufficient_buffer => (what ∉ p) ∧ length p = room
  | in_progress => p = q ∧ (what ∉ p)
  | _ => False
  end.

Lemma until_impl_spec what mem we b q out :
  b ≤ we → we ≤ length mem → slice b (we - b) mem = (Some <$> q) →
  Buffer.wf out → Buffer.size out ≤ Buffer.capacity out →
  ∃ p rest out' r, read_ready_data_until_impl mem b what we out = Ok (b + length p, out', r) ∧
    q = p ++ rest ∧ Buffer.wf out' ∧ Buffer.contents out' = Buffer.contents out ++ (Some <$> p) ∧
    until_outcome what (Buffer.capacity out - Buffer.size out) q p r ∧
    (r ≠ ok → Buffer.capacity out' = Buffer.capacity out ∧ 
              Buffer.size out' = Buffer.size out + length p) .
Proof.
  intros Hb Hl Hq Ho Hsc. unfold read_ready_data_until_impl.
  assert (Hlen : length q = we - b).
  { apply (f_equal length) in Hq. rewrite length_fmap, length_slice in Hq by lia. done. }
  case_goal as Heq.
  { exists [], q, out, in_progress. rewrite Nat.add_0_r, app_nil_r.
    assert (q = []) as -> by (apply length_zero_iff_nil; lia).
    simpl. split_and!; done || apply not_elem_of_nil || lia. }
  destruct (until_loop_spec what mem we (S (we - b)) b q out)
    as (p & r & o' & -> & -> & Hp & Ho' & Hc' & Hs' & Hcap' & Hend); [lia..|done|done|].
  cbn [mbind res_bind]. rewrite length_app in Hlen.
  assert (Hbyte : ∀ c r', r = c :: r' → load_byte (b + length p) mem = Ok c).
  { intros c r' ->. unfold load_byte.
    apply (f_equal (λ l, l !! length p)) in Hq. simpl in Hlen.
    rewrite lookup_slice_dec, decide_True, list_lookup_fmap in Hq by lia.
    rewrite lookup_app_r, Nat.sub_diag in Hq by lia. simpl in Hq. by rewrite Hq. }
  destruct r as [|c r].
  - simpl in Hlen. rewrite (bool_decide_eq_false_2 (b + length p < we)) by lia. cbn [mbind res_bind]. case_goal as Hfull.
    + exists p, [], o', insufficient_buffer. simpl. split_and!; try done || lia.
    + rewrite bool_decide_eq_true_2 by lia. exists p, [], o', in_progress.
      rewrite app_nil_r. simpl. split_and!; done || lia.
  - simpl in Hlen. rewrite (bool_decide_eq_true_2 (b + length p < we)) by lia. rewrite (Hbyte c r eq_refl).
    cbn [mbind res_bind]. case_goal as Hcw.
    + subst c. rewrite Buffer.appendUint8_eq.
      destruct (Buffer.buffer_append_spec [Some what] o' Ho') as (o2 & -> & Ho2 & Hc2 & _).
      cbn [mbind res_bind]. exists (p ++ [what]), r, o2, ok.
      rewrite Hc2, Hc', fmap_app, <-!app_assoc, length_app, Nat.add_1_r, Nat.add_succ_r.
      simpl. split_and!; try done. exists p. split_and!; [done..|].
      pose proof (Buffer.wf_size_le o' Ho'). lia.
    + assert (Hsz : Buffer.capacity out ≤ Buffer.size o')
        by (destruct Hend as [|[[=]|]]; done).
      pose proof (Buffer.wf_size_le o' Ho').
      rewrite bool_decide_eq_true_2 by lia.
      exists p, (c :: r), o', insufficient_buffer. simpl. split_and!; done || lia.
Qed.

(** the buffer read into stays usable *)
Lemma until_loop_grows what we mem fuel b out b' out' :
  Buffer.wf out → until_loop fuel mem b what we out = Ok (b', out') → Buffer.grows out out'.
Proof.
  revert b out. induction fuel as [|fuel IH]; intros b out Hwf H; cbn [until_loop] in H; [done|].
  destruct (bool_decide (b < we)); [|by simplify_eq].
  apply bind_Ok_inv in H as (c & _ & H). destruct (bool_decide _); [|by simplify_eq].
  apply bind_Ok_inv in H as (o1 & Ho1 & H). rewrite Buffer.appendUint8_eq in Ho1.
  apply Buffer.append_grows in Ho1 as [Hwf1 Hc1]; [|done]. apply IH in H as [Hwf2 Hc2]; [|done]. split; [done|lia].
Qed.

Lemma until_impl_grows what we mem b out b' out' r :
  Buffer.wf out → read_ready_data_until_impl mem b what we out = Ok (b', out', r) → Buffer.grows out out'.
Proof.
  intros Hwf H. unfold read_ready_data_until_impl in H. destruct (bool_decide _); [by simplify_eq|].
  apply bind_Ok_inv in H as ([b1 o1] & Hl & H). apply until_loop_grows in Hl as [Hwf1 Hc1]; [|done].
  apply bind_Ok_inv in H as (f & _ & H). destruct f.
  - apply bind_Ok_inv in H as (o2 & Ho2 & H). simplify_eq. rewrite Buffer.appendUint8_eq in Ho2.
    apply Buffer.append_grows in Ho2 as [Hwf2 Hc2]; [|done]. split; [done|lia].
  - repeat case_bool_decide; by simplify_eq.
Qed.

Lemma until_grows what out cb cb' out' r :
  Buffer.wf out → read_ready_data_until what out cb = Ok (cb', out', r) → Buffer.grows out out'.
Proof.
  intros Hwf H. unfold read_ready_data_until in H. destruct (bool_decide _); [|done].
  destruct (bool_decide _); [|done]. destruct (bool_decide _); [by simplify_eq|]. destruct (bool_decide _).
  - apply bind_Ok_inv in H as ([[b1 o1] r1] & Hi & H). simplify_eq. by eapply until_impl_grows.
  - apply bind_Ok_inv in H as ([[b1 o1] r1] & Hi & H). apply until_impl_grows in Hi as [Hwf1 Hc1]; [|done].
    destruct r1; try by simplify_eq.
    all: apply bind_Ok_inv in H as ([[b2 o2] r2] & Hi2 & H); simplify_eq;
      apply until_impl_grows in Hi2 as [Hwf2 Hc2]; [|done]; (split; [done|lia]).
Qed.
End Cbb.

(** ** The theorems *)
Module CbbSpec.
Import Cbb.

(** [Represents cb q]: the ring is well-formed and holds exactly the bytes [q]. *)
Definition Represents (cb : t) (q : list u8) : Prop := wf cb ∧ contents cb = (Some <$> q).

Lemma with_reserve_spec r :
  ∃ out, Buffer.with_reserve r = Ok out ∧ Buffer.wf out ∧ Buffer.size out = 0 ∧
         Buffer.capacity out = r `max` Buffer.MIN_BUFFER ∧ Buffer.contents out = [].
Proof.
  eexists; split; [reflexivity|]. unfold Buffer.wf, Buffer.size, Buffer.capacity, uninit; simpl.
  split_and!; try lia; try done. len.
Qed.

(** One segment of the ring: what is left after taking [p] of it. *)
Lemma until_spec what out cb q :
  Represents cb q → Buffer.wf out → Buffer.size out = 0 → Buffer.capacity out ≠ 0 →
  ∃ p rest cb' out' r,
    read_ready_data_until what out cb = Ok (cb', out', r) ∧ q = p ++ rest ∧
    Represents cb' rest ∧ Buffer.contents out' = (Some <$> p) ∧
    until_outcome what (Buffer.capacity out) q p r.
Proof.
  intros [Hwf Hq] Ho Hs0 Hcap. unfold read_ready_data_until. decide_goal.
  pose proof (Buffer.contents_empty out Hs0) as Hc0.
  pose proof Hwf as (Hm & Hb & He). pose proof (length_ring_contents cb Hwf) as Hlen.
  pose proof (Buffer.wf_size_le out Ho) as Hsc.
  rewrite Hq, length_fmap in Hlen. unfold used_size in Hlen.
  case_goal as Heq; [|case_goal as Hle].
  - rewrite bool_decide_eq_true_2 in Hlen by lia.
    assert (q = []) as -> by (apply length_zero_iff_nil; lia).
    exists [], [], cb, out, in_progress. rewrite Hc0. simpl.
    split_and!; try done. apply not_elem_of_nil.
  - rewrite (bool_decide_eq_true_2 (begin_ cb ≤ end_ cb)) in Hlen by lia.
    assert (Hsl : slice (begin_ cb) (end_ cb - begin_ cb) (buff cb) = (Some <$> q)).
    { rewrite <-Hq. unfold contents, ring. by rewrite bool_decide_eq_true_2 by lia. }
    destruct (until_impl_spec what (buff cb) (end_ cb) (begin_ cb) q out)
      as (p & rest & o' & r & -> & -> & Ho' & Hc' & Hout & _); [lia..|done|done|lia|].
    cbn [mbind res_bind]. rewrite Hs0, Nat.sub_0_r in Hout. rewrite length_app in Hlen.
    eexists p, rest, _, _, _; split; [done|]. split; [done|].
    destruct (pop_spec (length p) cb Hwf) as [Hw Hd];
      [rewrite Hq, length_fmap, length_app; lia|lia|].
    split; [|by rewrite Hc', Hc0]. split; [done|].
    by rewrite Hd, Hq, fmap_app, drop_app_length'  by by rewrite length_fmap.
  - rewrite (bool_decide_eq_false_2 (begin_ cb ≤ end_ cb)) in Hlen by lia.
    set (k := alloc_size cb - begin_ cb) in *.
    destruct (until_impl_spec what (buff cb) (alloc_size cb) (begin_ cb) (take k q) out)
      as (p & rest & o' & r & -> & Hpq & Ho' & Hc' & Hout & Hno); [lia..| |done|lia|].
    { rewrite (ring_peek (buff cb) (begin_ cb) (end_ cb)); fold (contents cb);
        rewrite ?Hq, ?length_fmap; [by rewrite fmap_take|lia..]. }
    cbn [mbind res_bind]. rewrite Hs0, Nat.sub_0_r in Hout.
    assert (Hpk : length p ≤ k).
    { apply (f_equal length) in Hpq. rewrite length_app, length_take in Hpq. lia. }
    assert (Hq' : q = p ++ rest ++ drop k q).
    { by rewrite app_assoc, <-Hpq, take_drop. }
    set (b' := if bool_decide _ then _ else _).
    assert (Hat : Represents (mk (buff cb) (size_exp cb) b' (end_ cb)) (rest ++ drop k q)).
    { assert (Hdrop : drop (length p) (contents cb) = (Some <$> rest ++ drop k q)).
      { rewrite Hq. trans (drop (length p) (Some <$> p ++ rest ++ drop k q)); [by rewrite <-Hq'|].
        rewrite (fmap_app _ p). apply drop_app_length'. by rewrite length_fmap. }
      subst b'. unfold Represents. rewrite <-Hdrop. case_goal as Hend.
      - apply pop_wrap_spec; [done|lia..].
      - apply pop_spec; [done|rewrite Hq, length_fmap|]; lia. }
    assert (Hb' : length p = k → b' = 0).
    { intros. subst b'. by rewrite bool_decide_eq_true_2 by lia. }
    clearbody b'. destruct Hat as [Hw2 Hd2]. destruct r; try done.
    + eexists p, (rest ++ drop k q), _, _, ok. split_and!; try done. by rewrite Hc', Hc0.
    + eexists p, (rest ++ drop k q), _, _, insufficient_buffer.
      split_and!; try done. by rewrite Hc', Hc0.
    + destruct Hout as [-> Hnw]. destruct (Hno ltac:(done)) as [Hcap' Hsz'].
      assert (rest = []) as ->.
      { apply (f_equal length) in Hpq. rewrite length_app in Hpq.
        apply length_zero_iff_nil. lia. }
      rewrite (Hb' ltac:(rewrite length_take; lia)) in *. simpl in Hd2.
      assert (Hsl : slice 0 (end_ cb - 0) (buff cb) = (Some <$> drop k q)) by exact Hd2.
      destruct (until_impl_spec what (buff cb) (end_ cb) 0 (drop k q) o')
        as (p2 & rest2 & o2 & r2 & -> & Hpq2 & Ho2 & Hc2 & Hout2 & _); [lia..|done|done|by apply Buffer.wf_size_le|].
      cbn [mbind res_bind]. rewrite Nat.add_0_l.
      assert (Hp2 : length p2 + length rest2 = end_ cb).
      { apply (f_equal length) in Hpq2. rewrite length_app, length_drop in Hpq2. lia. }
      eexists (take k q ++ p2), rest2, _, _, r2. split; [done|].
      split; [by rewrite <-app_assoc, <-Hpq2, take_drop|].
      destruct (pop_spec (length p2) _ Hw2) as [Hw3 Hd3]; cbn [buff size_exp begin_ end_] in *.
      { rewrite Hd2, length_fmap, Hpq2, length_app. lia. }
      { unfold alloc_size in *; simpl. lia. }
      split; [split; [done|]|split].
      * simpl in Hd3. by rewrite Hd3, Hd2, Hpq2, fmap_app, drop_app_length' by (by rewrite length_fmap).
      * by rewrite Hc2, Hc', Hc0, fmap_app.
      * pose proof (Buffer.wf_size_le o' Ho').
        rewrite Hcap', Hsz', Hs0 in Hout2. revert Hout2. destruct r2; simpl; try done.
        -- intros (p' & -> & Hp' & Hl). exists (take k q ++ p'). rewrite app_assoc, length_app.
           split_and!; [done| |lia]. by intros [?|?]%elem_of_app.
        -- intros [Hp' Hl]. rewrite length_app. split; [|lia]. by intros [?|?]%elem_of_app.
        -- intros [-> Hp']. rewrite take_drop. split; [done|].
           rewrite <-(take_drop k q). by intros [?|?]%elem_of_app.
Qed.

(** [append] succeeds whenever fewer than 2^32 bytes are held in total,
    and then adds its argument at the end of what the buffer holds,
    reallocating when it has to. *)
Theorem ring_append (data : list cell) (cb : t) :
  wf cb → used_size cb + length data < 2 ^ max_allowed_size_exp →
  ∃ cb', append data cb = Ok (cb', true) ∧ wf cb' ∧ contents cb' = contents cb ++ data.
Proof.
  intros Hwf Hfit. destruct (ring_append_spec data cb Hwf) as [[_ Hbig]|H]; [|done].
  exfalso. eapply Nat.lt_irrefl, Nat.lt_le_trans; [exact Hfit|exact Hbig].
Qed.

Lemma ring_append_witness :
  ∃ cb', append (Some <$> [x01; x02; x03; x04; x05]) (fresh_ring 2) = Ok (cb', true) ∧ wf cb' ∧
         contents cb' = contents (fresh_ring 2) ++ (Some <$> [x01; x02; x03; x04; x05]).
Proof.
  apply (ring_append (Some <$> [x01; x02; x03; x04; x05]) (fresh_ring 2)).
  - apply create_spec.
  - apply (Nat.lt_le_trans _ (2 ^ 3)); [vm_compute; lia|].
    apply Nat.pow_le_mono_r; vm_compute; lia.
Defined.

(** ** Transfers

    [sent w] is what a writer has sent so far and [incoming w] what a reader
    has still to deliver. *)
Section transfer.
Context {W : Type}.
Context (writer : list cell → W → res (W * bool * nat)) (sent : W → list cell).
Context (reader : nat → W → res (W * bool * list u8)) (incoming : W → list u8).

(** A writer sends a prefix of what it is offered, all of it if it says it
    can continue ([ret == COMMLAYER_RET_OK && size == sentSize_]). *)
Definition writer_law : Prop := ∀ d w,
  safe_res (λ '(w', can, n), n ≤ length d ∧ (can = true → n = length d) ∧
                             sent w' = sent w ++ take n d) (writer d w).

(** A reader delivers at most what there is room for, in order. *)
Definition reader_law_at (n : nat) : Prop := ∀ w,
  safe_res (λ '(w', can, bs), length bs ≤ n ∧ (can = true → length bs = n) ∧
                              incoming w = bs ++ incoming w') (reader n w).
Definition reader_law : Prop := ∀ n, reader_law_at n.

Definition flushed (cb : t) (w : W) (cb' : t) (w' : W) (n : nat) : Prop :=
  wf cb' ∧ n ≤ length (contents cb) ∧ contents cb' = drop n (contents cb) ∧
  sent w' = sent w ++ take n (contents cb).

Lemma write_accounting cb w :
  writer_law → wf cb →
  safe_res (λ '(cb', w', n), wf cb' ∧ n ≤ length (contents cb) ∧
                             contents cb' = drop n (contents cb)) (write writer cb w).
Proof.
  intros Hlaw Hwf. pose proof (length_ring_contents cb Hwf) as Hlen.
  pose proof Hwf as (Hm & Hb & He). unfold used_size in Hlen. unfold write.
  case_goal as Hlt; [|case_goal as Hgt; [|cbn [safe_res]; rewrite drop_0; split_and!; done || lia]].
  - rewrite bool_decide_eq_true_2 in Hlen by lia. mem_step.
    pose proof (Hlaw (slice (begin_ cb) (end_ cb - begin_ cb) (buff cb)) w) as Hw.
    destruct (writer _ w) as [[[w' can] n]| | | |]; cbn [mbind res_bind safe_res] in *; try done.
    rewrite length_slice in Hw by lia. destruct Hw as (Hn & _).
    destruct (pop_spec n cb Hwf); [lia..|]. split_and!; done || lia.
  - rewrite bool_decide_eq_false_2 in Hlen by lia. mem_step.
    pose proof (Hlaw (slice (end_ cb) (alloc_size cb - begin_ cb) (buff cb)) w) as Hw.
    destruct (writer _ w) as [[[w' can] n]| | | |]; cbn [mbind res_bind safe_res] in *; try done.
    rewrite length_slice in Hw by lia. destruct Hw as (Hn & Hcan & _).
    case_goal as Hend.
    + destruct (pop_wrap_spec n cb Hwf) as [Hw1 Hd1]; [lia..|].
      destruct can; cbn [negb orb]; [|split_and!; done || lia].
      rewrite (bool_decide_eq_true_2 (0 = 0)) by done.
      case_goal as Hne; [|split_and!; done || lia].
      rewrite load_cells_ok by lia. cbn [mbind res_bind].
      pose proof (Hlaw (slice 0 (end_ cb - 0) (buff cb)) w') as Hw2.
      destruct (writer (slice 0 _ _) w') as [[[w2 can2] n2]| | | |];
        cbn [mbind res_bind safe_res] in *; try done.
      rewrite length_slice in Hw2 by lia. destruct Hw2 as (Hn2 & _).
      destruct (pop_spec n2 _ Hw1) as [Hw3 Hd3]; cbn [buff size_exp begin_ end_] in *.
      { rewrite Hd1, length_drop. lia. } { unfold alloc_size in *; simpl; lia. }
      split_and!; [done|lia|]. rewrite Hd3, Hd1, drop_drop. f_equal.
    + rewrite orb_true_r. destruct (pop_spec n cb Hwf); [lia..|]. split_and!; done || lia.
Qed.

(** Sending loses nothing as long as the data does not wrap around the
    end of the array: what was sent and what is still held are together
    what was held before, in order, however much the socket accepts. *)
Lemma write_in_one_piece (cb : t) (w : W) :
  writer_law → wf cb → begin_ cb ≤ end_ cb →
  safe_res (λ '(cb', w', n), flushed cb w cb' w' n) (write writer cb w).
Proof.
  intros Hlaw Hwf Hle. pose proof (write_accounting cb w Hlaw Hwf) as Hacc.
  assert (Hs : safe_res (λ '(cb', w', n), sent w' = sent w ++ take n (contents cb))
                 (write writer cb w)).
  { unfold write, contents, ring in *. rewrite (bool_decide_eq_true_2 (begin_ cb ≤ _)) by done.
    destruct Hwf as (Hm & Hb & He).
    case_goal as Hlt; [|rewrite bool_decide_eq_false_2 by lia; simpl; by rewrite app_nil_r].
    mem_step.
    pose proof (Hlaw (slice (begin_ cb) (end_ cb - begin_ cb) (buff cb)) w) as Hw.
    destruct (writer _ w) as [[[w' can] n]| | | |]; cbn [mbind res_bind safe_res] in *; try done.
    by destruct Hw as (? & ? & ->). }
  destruct (write writer cb w) as [[[cb' w'] n]| | | |]; try done.
  destruct Hacc as (? & ? & ?). by split_and!.
Qed.

(** When the data wraps around, [write] hands the writer the cells that
    start at [end] instead of those that start at [begin]: for a writer
    that accepts everything, the bytes sent are the cells from [end] on
    (free or already consumed cells first), although the buffer drops its
    own data as sent. *)
Theorem write_wrapped_sends_from_end (cb : t) (w : W) :
  (∀ d w, ∃ w', writer d w = Ok (w', true, length d) ∧ sent w' = sent w ++ d) →
  wf cb → end_ cb < begin_ cb →
  ∃ cb' w', write writer cb w = Ok (cb', w', length (contents cb)) ∧ contents cb' = [] ∧
    sent w' = sent w ++ slice (end_ cb) (alloc_size cb - begin_ cb) (buff cb)
                     ++ take (end_ cb) (buff cb).
Proof.
  intros Hall Hwf Hlt. pose proof (length_ring_contents cb Hwf) as Hlen.
  pose proof Hwf as (Hm & Hb & He). unfold used_size in Hlen.
  rewrite bool_decide_eq_false_2 in Hlen by lia. unfold write.
  rewrite (bool_decide_eq_false_2 (begin_ cb < _)), (bool_decide_eq_true_2 (end_ cb < _)) by lia.
  mem_step.
  destruct (Hall (slice (end_ cb) (alloc_size cb - begin_ cb) (buff cb)) w) as (w1 & -> & Hs1).
  cbn [mbind res_bind]. rewrite length_slice by lia.
  rewrite (bool_decide_eq_true_2 (begin_ cb + _ = _)) by lia. cbn [negb orb].
  rewrite (bool_decide_eq_true_2 (0 = 0)) by done.
  case_goal as Hne.
  - rewrite load_cells_ok by lia. cbn [mbind res_bind].
    destruct (Hall (slice 0 (end_ cb - 0) (buff cb)) w1) as (w2 & -> & Hs2).
    cbn [mbind res_bind]. rewrite length_slice by lia.
    eexists _, _. split; [do 2 f_equal; lia|]. split.
    + unfold contents; cbn. replace (end_ cb - 0) with (end_ cb) by lia. apply ring_empty.
    + rewrite Hs2, Hs1, <-app_assoc. unfold slice. by rewrite drop_0, Nat.sub_0_r.
  - eexists _, _. split; [do 2 f_equal; lia|].
    apply dec_stable in Hne. unfold contents; cbn.
    rewrite Hs1, <-Hne, ring_empty, take_0, app_nil_r. done.
Qed.

(** Receiving loses nothing: what the buffer holds followed by what the
    reader has still to deliver is the same before and after [read], in
    every position of the ring and for any number of bytes delivered; the
    count returned is the number of bytes added. *)
Lemma read_lossless (target_sz : nat) (cb : t) (w : W) :
  (∀ n, n < alloc_size cb → reader_law_at n) → wf cb →
  safe_res (λ '(cb', w', n),
    wf cb' ∧ length (contents cb') = length (contents cb) + n ∧
    contents cb' ++ (Some <$> incoming w') = contents cb ++ (Some <$> incoming w))
    (read reader target_sz cb w).
Proof.
  intros Hlaw Hwf. pose proof Hwf as (Hm & Hb & He). unfold read.
  assert (Hgoal : ∀ cb' w' bs, wf cb' → contents cb' = contents cb ++ (Some <$> bs) →
    incoming w = bs ++ incoming w' →
    wf cb' ∧ length (contents cb') = length (contents cb) + length bs ∧
    contents cb' ++ (Some <$> incoming w') = contents cb ++ (Some <$> incoming w)).
  { intros cb' w' bs Hw Hc ->. split; [done|]. rewrite Hc, length_app, length_fmap.
    split; [done|]. by rewrite fmap_app, app_assoc. }
  case_goal as Hlt.
  - pose proof (Hlaw (begin_ cb - end_ cb - 1) ltac:(lia) w) as Hr.
    destruct (reader _ w) as [[[w1 can] bs]| | | |]; cbn [mbind res_bind safe_res] in *; try done.
    destruct Hr as (Hn & _ & Hin). mem_steps. apply Hgoal; [..|done].
    + unfold wf, alloc_size in *; cbn. split; [len|lia].
    + unfold contents; cbn. rewrite <-(length_fmap Some bs). apply ring_push_low; len.
  - set (endpoint := if bool_decide _ then _ else _).
    assert (Hep : endpoint ≤ alloc_size cb ∧ (begin_ cb = 0 → endpoint < alloc_size cb)
                  ∧ end_ cb ≤ endpoint ∧ endpoint - end_ cb < alloc_size cb).
    { subst endpoint. case_goal as H0; lia. }
    clearbody endpoint. pose proof (Hlaw (endpoint - end_ cb) ltac:(lia) w) as Hr.
    destruct (reader _ w) as [[[w1 can] bs]| | | |]; cbn [mbind res_bind safe_res] in *; try done.
    destruct Hr as (Hn & _ & Hin). mem_steps.
    case_goal as Hend.
    + assert (Hcb1 : let cb1 := mk (blit (end_ cb) (Some <$> bs) (buff cb)) (size_exp cb) (begin_ cb) 0 in
              wf cb1 ∧ contents cb1 = contents cb ++ (Some <$> bs)).
      { unfold wf, contents, alloc_size in *; cbn. split; [split; [len|lia]|].
        apply ring_push_to_end; [lia..|len]. }
      destruct Hcb1 as [Hw1 Hc1]. rewrite orb_false_r.
      destruct can; cbn [negb]; [|by apply Hgoal].
      rewrite (bool_decide_eq_true_2 (0 = 0)) by done.
      case_goal as Ht; [by apply Hgoal|]. case_goal as Hroom; [|by apply Hgoal].
      pose proof (Hlaw (begin_ cb - 0 - 1) ltac:(lia) w1) as Hr2.
      destruct (reader (begin_ cb - 0 - 1) w1) as [[[w2 can2] br]| | | |];
        cbn [mbind res_bind safe_res] in *; try done.
      destruct Hr2 as (Hn2 & _ & Hin2). mem_steps.
      rewrite <-length_app. apply Hgoal.
      * unfold wf, alloc_size in *; cbn. split; [len|lia].
      * rewrite fmap_app, app_assoc, <-Hc1. unfold contents; cbn.
        rewrite <-(length_fmap Some br). apply (ring_push_low _ (begin_ cb) 0); len.
      * by rewrite Hin, Hin2, app_assoc.
    + rewrite orb_true_r. apply Hgoal; [..|done].
      * unfold wf, alloc_size in *; cbn. split; [len|lia].
      * unfold contents; cbn. rewrite <-(length_fmap Some bs). apply ring_push; len.
Qed.

(** a reader that answers whenever there is room makes [read] answer whenever
    the buffer is not full *)
Lemma read_returns target_sz cb w :
  (∀ n, n < alloc_size cb → reader_law_at n) → (∀ n w, 0 < n → n < alloc_size cb → is_ok (reader n w) = true) → wf cb →
  0 < remaining_capacity cb →
  is_ok (read reader target_sz cb w) = true.
Proof.
  intros Hlaw Hret Hwf Hroom. pose proof Hwf as (Hm & Hb & He). unfold remaining_capacity, used_size in Hroom.
  unfold read. case_goal as Hlt.
  - rewrite bool_decide_eq_false_2 in Hroom by lia.
    pose proof (Hlaw (begin_ cb - end_ cb - 1) ltac:(lia) w) as Hl. pose proof (Hret (begin_ cb - end_ cb - 1) w) as Hr.
    destruct (reader _ w) as [[[w1 can] bs]| | | |]; try (discriminate Hr; lia).
    cbn [mbind res_bind safe_res] in *. destruct Hl as (Hn & _). by mem_steps.
  - rewrite bool_decide_eq_true_2 in Hroom by lia. set (endpoint := if bool_decide _ then _ else _).
    assert (Hep : endpoint ≤ alloc_size cb ∧ end_ cb < endpoint ∧ endpoint - end_ cb < alloc_size cb)
      by (subst endpoint; case_goal as H0; lia).
    clearbody endpoint.
    pose proof (Hlaw (endpoint - end_ cb) ltac:(lia) w) as Hl. pose proof (Hret (endpoint - end_ cb) w) as Hr.
    destruct (reader _ w) as [[[w1 can] bs]| | | |]; try (discriminate Hr; lia).
    cbn [mbind res_bind safe_res] in *. destruct Hl as (Hn & _). mem_steps.
    case_goal as Hend; [|by rewrite orb_true_r]. destruct can; cbn [negb orb]; [|done].
    rewrite (bool_decide_eq_true_2 (0 = 0)) by done.
    case_goal as Ht; [done|]. case_goal as Hmore; [|done].
    pose proof (Hlaw (begin_ cb - 0 - 1) ltac:(lia) w1) as Hl2. pose proof (Hret (begin_ cb - 0 - 1) w1) as Hr2.
    destruct (reader (begin_ cb - 0 - 1) w1) as [[[w2 can2] br]| | | |]; try (discriminate Hr2; lia).
    cbn [mbind res_bind safe_res] in *. destruct Hl2 as (Hn2 & _). by mem_steps.
Qed.
(** *** What a transfer does to the streams *)

(** a [write] changes the world by calls of the writer only *)
Lemma write_keeps (P : W → Prop) cb w cb' w' n :
  (∀ d w w' can n, writer d w = Ok (w', can, n) → P w → P w') →
  write writer cb w = Ok (cb', w', n) → P w → P w'.
Proof.
  intros HP Hw Hp. unfold write in Hw.
  repeat match type of Hw with
  | (if ?b then _ else _) = _ => destruct b
  | (_ ≫= _) = _ => let x := fresh "x" in let E := fresh "E" in apply bind_Ok_inv in Hw as (x & E & Hw)
  | (let '(_, _) := ?x in _) = _ => destruct x
  end; try done; simplify_eq; eauto.
Qed.

Lemma read_keeps (P : W → Prop) target cb w cb' w' n :
  (∀ m w w' can bs, reader m w = Ok (w', can, bs) → P w → P w') →
  read reader target cb w = Ok (cb', w', n) → P w → P w'.
Proof.
  intros HP Hw Hp. unfold read in Hw.
  repeat match type of Hw with
  | (if ?b then _ else _) = _ => destruct b
  | (_ ≫= _) = _ => let x := fresh "x" in let E := fresh "E" in apply bind_Ok_inv in Hw as (x & E & Hw)
  | (let '(_, _) := ?x in _) = _ => destruct x
  end; try done; simplify_eq; eauto.
Qed.

Lemma read_keeps_size target cb w cb' w' n :
  read reader target cb w = Ok (cb', w', n) → size_exp cb' = size_exp cb.
Proof.
  intros Hr. unfold read in Hr.
  repeat match type of Hr with
  | (if ?b then _ else _) = _ => destruct b
  | (_ ≫= _) = _ => let x := fresh "x" in let E := fresh "E" in apply bind_Ok_inv in Hr as (x & E & Hr)
  | (let '(_, _) := ?x in _) = _ => destruct x
  end; try done; by simplify_eq.
Qed.

(** as many bytes are sent as are dropped, wrapped or not *)
Lemma write_sends cb w :
  writer_law → wf cb →
  safe_res (λ '(cb', w', n), ∃ d, sent w' = sent w ++ d ∧ length d = n) (write writer cb w).
Proof.
  intros Hlaw (Hm & Hb & He). unfold write.
  case_goal as Hlt; [|case_goal as Hgt; [|cbn [safe_res]; exists []; by rewrite app_nil_r]]; mem_step.
  - pose proof (Hlaw (slice (begin_ cb) (end_ cb - begin_ cb) (buff cb)) w) as Hw.
    destruct (writer _ w) as [[[w' can] n]| | | |]; cbn [mbind res_bind safe_res] in *; try done.
    destruct Hw as (Hn & _ & ->). eexists; split; [done|]. rewrite length_take. lia.
  - pose proof (Hlaw (slice (end_ cb) (alloc_size cb - begin_ cb) (buff cb)) w) as Hw.
    destruct (writer _ w) as [[[w' can] n]| | | |]; cbn [mbind res_bind safe_res] in *; try done.
    destruct Hw as (Hn & _ & Hs).
    assert (Hone : ∃ d, sent w' = sent w ++ d ∧ length d = n) by (eexists; split; [exact Hs|rewrite length_take; lia]).
    case_goal as Hend; [|by rewrite orb_true_r]. destruct can; cbn [negb orb]; [|done].
    rewrite (bool_decide_eq_true_2 (0 = 0)) by done. case_goal as Hne; [|done].
    rewrite load_cells_ok by lia. cbn [mbind res_bind].
    pose proof (Hlaw (slice 0 (end_ cb - 0) (buff cb)) w') as Hw2.
    destruct (writer (slice 0 _ _) w') as [[[w2 can2] n2]| | | |]; cbn [mbind res_bind safe_res] in *; try done.
    destruct Hw2 as (Hn2 & _ & Hs2), Hone as (d & Hd & Hl). eexists. split; [by rewrite Hs2, Hd, <-app_assoc|].
    rewrite length_app, length_take. lia.
Qed.

(** ** All operations together *)

(** The operations of a ring as its clients call them, and what they see; a
    [write] reports whether the data was in one piece. *)
Inductive qop : Type :=
  | QAppend (d : list u8)                    (* append( d ) *)
  | QGet (n res : nat)                       (* get_ready_data( Buffer(res), n ) *)
  | QGetAll (res : nat)                      (* get_ready_data( Buffer(res) ) *)
  | QUntil (what : u8) (res : nat)           (* read_ready_data_until( Buffer(res), what ) *)
  | QTryByte                                 (* try_read_byte() *)
  | QByte                                    (* read_byte() *)
  | QRead (target_sz : nat)                  (* read( reader, bytesRead, target_sz ) *)
  | QWrite.                                  (* write( writer, bytesWritten ) *)
Inductive qout : Type :=
  | OAppended (b : bool)
  | OBytes (d : list cell)
  | OUntil (d : list cell) (r : CoroStandardOutcomes)
  | OByte (b : bool * u8)
  | ORead (n : nat)
  | OWrote (one_piece : bool) (n : nat).

Definition cstep (o : qop) (cw : t * W) : res (t * W * qout) :=
  let '(cb, w) := cw in
  match o with
  | QAppend d => '(cb, b) ← append (Some <$> d) cb; Ok (cb, w, OAppended b)
  | QGet n r =>
      out ← Buffer.with_reserve r;
      '(cb, out) ← get_ready_data n out cb;
      Ok (cb, w, OBytes (Buffer.contents out))
  | QGetAll r =>
      out ← Buffer.with_reserve r;
      '(cb, out) ← get_all_ready_data out cb;
      Ok (cb, w, OBytes (Buffer.contents out))
  | QUntil what r =>
      out ← Buffer.with_reserve r;
      '(cb, out, st) ← read_ready_data_until what out cb;
      Ok (cb, w, OUntil (Buffer.contents out) st)
  | QTryByte => '(cb, b) ← try_read_byte cb; Ok (cb, w, OByte b)
  | QByte => '(cb, b) ← read_byte cb; Ok (cb, w, OByte (true, b))
  | QRead target => '(cb', w, n) ← read reader target cb w; Ok (cb', w, ORead n)
  | QWrite => '(cb', w, n) ← write writer cb w; Ok (cb', w, OWrote (bool_decide (begin_ cb ≤ end_ cb)) n)
  end.

Fixpoint crun (os : list qop) (cw : t * W) : res (t * W * list qout) :=
  match os with
  | [] => Ok (cw, [])
  | o :: os =>
      '(cw, x) ← cstep o cw;
      '(cw, xs) ← crun os cw;
      Ok (cw, x :: xs)
  end.

(** The specification: a queue of bytes between what the peer has still to
    deliver and what was sent. A [write] that finds the data in two pieces takes
    bytes from the front of the queue too, but sends as many others. *)
Definition astate : Type := list u8 * list u8 * list cell.
Inductive astep : astate → qop → qout → astate → Prop :=
  | AAppend q i s d : astep (q, i, s) (QAppend d) (OAppended true) (q ++ d, i, s)
  | AAppendFull q i s d :
      2 ^ max_allowed_size_exp ≤ length q + length d →
      astep (q, i, s) (QAppend d) (OAppended false) (q, i, s)
  | AGet q i s n r : astep (q, i, s) (QGet n r) (OBytes (Some <$> take n q)) (drop n q, i, s)
  | AGetAll q i s r : let n := r `max` Buffer.MIN_BUFFER in
      astep (q, i, s) (QGetAll r) (OBytes (Some <$> take n q)) (drop n q, i, s)
  | AUntil p rest i s what r st :
      until_outcome what (r `max` Buffer.MIN_BUFFER) (p ++ rest) p st →
      astep (p ++ rest, i, s) (QUntil what r) (OUntil (Some <$> p) st) (rest, i, s)
  | AByte c q i s : astep (c :: q, i, s) QTryByte (OByte (true, c)) (q, i, s)
  | ANoByte i s : astep ([], i, s) QTryByte (OByte (false, x00)) ([], i, s)
  | AReadByte c q i s : astep (c :: q, i, s) QByte (OByte (true, c)) (q, i, s)
  | ARead q bs i s target : astep (q, bs ++ i, s) (QRead target) (ORead (length bs)) (q ++ bs, i, s)
  | AWrite p rest i s d one_piece :
      length d = length p → (one_piece = true → d = Some <$> p) →
      astep (p ++ rest, i, s) QWrite (OWrote one_piece (length p)) (rest, i, s ++ d).

Inductive arun : astate → list qop → list qout → astate → Prop :=
  | arun_nil a : arun a [] [] a
  | arun_cons a o x a' os xs a'' :
      astep a o x a' → arun a' os xs a'' → arun a (o :: os) (x :: xs) a''.

(** [abstracts a cw]: the ring holds the queue, and the world is at these streams *)
Definition abstracts (a : astate) (cw : t * W) : Prop :=
  Represents cw.1 a.1.1 ∧ incoming cw.2 = a.1.2 ∧ sent cw.2 = a.2.

Context (Hwriter : writer_law) (Hreader : reader_law).
Context (Hwriter_in : ∀ d w w' can n, writer d w = Ok (w', can, n) → incoming w' = incoming w).
Context (Hreader_sent : ∀ m w w' can bs, reader m w = Ok (w', can, bs) → sent w' = sent w).

Lemma get_step n r cb q : Represents cb q →
  safe_res (λ '(cb', d), d = (Some <$> take n q) ∧ Represents cb' (drop n q))
    (out ← Buffer.with_reserve r; '(cb, out) ← get_ready_data n out cb; Ok (cb, Buffer.contents out)).
Proof.
  intros [Hwf Hq]. destruct (with_reserve_spec r) as (out & -> & Ho & Hs & Hcap & Hc). rewrite bind_Ok.
  destruct (decide (n ≤ Buffer.capacity out)) as [Hn|Hn].
  - destruct (get_ready_data_spec n out cb) as (cb' & out' & -> & Hw & Ho' & Hc' & Hd); [done..|].
    cbn [mbind res_bind safe_res]. rewrite Hc', Hq, fmap_take. split; [done|].
    split; [done|]. by rewrite Hd, Hq, fmap_drop.
  - unfold get_ready_data. by rewrite Hs, (bool_decide_eq_false_2 (n ≤ _)).
Qed.

Lemma get_all_step r cb q : Represents cb q → let n := r `max` Buffer.MIN_BUFFER in
  safe_res (λ '(cb', d), d = (Some <$> take n q) ∧ Represents cb' (drop n q))
    (out ← Buffer.with_reserve r; '(cb, out) ← get_all_ready_data out cb; Ok (cb, Buffer.contents out)).
Proof.
  intros HR n. pose proof (get_step n r cb q HR) as Hg.
  destruct (with_reserve_spec r) as (out & Hr & _ & _ & Hcap & _). rewrite Hr in *.
  unfold get_all_ready_data. rewrite bind_Ok in Hg. rewrite bind_Ok. by rewrite Hcap.
Qed.

Lemma byte_step cb c q : Represents cb (c :: q) →
  load_byte (begin_ cb) (buff cb) = Ok c ∧ Represents (advance cb) q ∧ begin_ cb ≠ end_ cb.
Proof.
  intros [Hwf Hq]. pose proof (length_ring_contents cb Hwf) as Hl. rewrite Hq in Hl. split.
  - by rewrite (load_byte_spec cb c (Some <$> q)).
  - split; [by apply (advance_spec cb (Some c))|]. intros He. unfold used_size in Hl.
    rewrite bool_decide_eq_true_2 in Hl by lia. simpl in Hl. lia.
Qed.

Lemma no_byte cb : Represents cb [] → begin_ cb = end_ cb.
Proof.
  intros [Hwf Hq]. pose proof (length_ring_contents cb Hwf) as Hl. rewrite Hq in Hl. simpl in Hl.
  destruct Hwf as (Hm & Hb & He). unfold used_size in Hl. revert Hl. case_bool_decide; lia.
Qed.

Lemma read_step target cb w q : Represents cb q →
  safe_res (λ '(cb', w', n), ∃ bs, n = length bs ∧ incoming w = bs ++ incoming w' ∧
              Represents cb' (q ++ bs) ∧ sent w' = sent w) (read reader target cb w).
Proof.
  intros [Hwf Hq]. pose proof (read_lossless target cb w (λ n _, Hreader n) Hwf) as Hr.
  destruct (read reader target cb w) as [[[cb' w'] n]| | | |] eqn:E; try done. destruct Hr as (Hw & Hl & Hall).
  assert (Hsnt : sent w' = sent w).
  { apply (read_keeps (λ v, sent v = sent w) _ _ _ _ _ _ (λ m v v' can bs Hv Hs, eq_trans (Hreader_sent m v v' can bs Hv) Hs) E). done. }
  assert (Hle : length (incoming w) = length (incoming w') + n).
  { apply (f_equal length) in Hall. rewrite !length_app, !length_fmap in Hall. lia. }
  rewrite <-(take_drop n (incoming w)), fmap_app, app_assoc in Hall.
  apply app_inj_1 in Hall as [Ha Hb]; [|rewrite Hl, length_app, length_fmap, length_take; lia].
  apply (inj (fmap Some)) in Hb. exists (take n (incoming w)). split; [rewrite length_take; lia|].
  split; [by rewrite Hb, take_drop|]. split; [|done]. split; [done|]. by rewrite Ha, Hq, fmap_app.
Qed.

Lemma write_step cb w q : Represents cb q →
  safe_res (λ '(cb', w', n), ∃ p rest d, q = p ++ rest ∧ n = length p ∧ Represents cb' rest ∧
    sent w' = sent w ++ d ∧ length d = length p ∧ (begin_ cb ≤ end_ cb → d = Some <$> p) ∧
    incoming w' = incoming w) (write writer cb w).
Proof.
  intros [Hwf Hq]. pose proof (write_accounting cb w Hwriter Hwf) as Ha.
  pose proof (write_sends cb w Hwriter Hwf) as Hs.
  assert (Hc : begin_ cb ≤ end_ cb → safe_res (λ '(cb', w', n), flushed cb w cb' w' n) (write writer cb w))
    by (intros; by apply write_in_one_piece).
  destruct (write writer cb w) as [[[cb' w'] n]| | | |] eqn:E; try done.
  destruct Ha as (Hw' & Hn & Hd), Hs as (d & Hs & Hdl). rewrite Hq in Hn, Hd. rewrite length_fmap in Hn.
  assert (Hlt : length (take n q) = n) by (rewrite length_take; lia).
  exists (take n q), (drop n q), d. split; [by rewrite take_drop|]. split; [done|].
  split; [split; [done|by rewrite Hd, fmap_drop]|]. split; [done|]. split; [congruence|]. split.
  - intros Hle. destruct (Hc Hle) as (_ & _ & _ & Hs2). rewrite Hs2, Hq in Hs. apply app_inv_head in Hs.
    by rewrite <-Hs, fmap_take.
  - apply (write_keeps (λ v, incoming v = incoming w) _ _ _ _ _ (λ d v v' can m Hv Hi, eq_trans (Hwriter_in d v v' can m Hv) Hi) E). done.
Qed.

Lemma cstep_refines o a cw :
  abstracts a cw → safe_res (λ '(cw', x), ∃ a', astep a o x a' ∧ abstracts a' cw') (cstep o cw).
Proof.
  destruct a as [[q i] s], cw as [cb w]. intros (HR & Hi & Hsent). cbn in HR, Hi, Hsent. subst i s.
  pose proof HR as [Hwf Hq]. destruct o as [d|n r|r|what r| | |target|]; cbn [cstep].
  - pose proof (length_ring_contents cb Hwf) as Hlen. rewrite Hq, length_fmap in Hlen.
    destruct (ring_append_spec (Some <$> d) cb Hwf) as [[-> Hfull]|(cb' & -> & Hw & Hc)]; cbn [mbind res_bind safe_res].
    + eexists. split; [apply AAppendFull; rewrite length_fmap in Hfull; lia|done].
    + eexists. split; [constructor|]. split; [|done]. split; [done|]. cbn. by rewrite Hc, Hq, fmap_app.
  - pose proof (get_step n r cb q HR) as Hg. destruct (Buffer.with_reserve r) as [out| | | |]; try done.
    rewrite bind_Ok in Hg. rewrite bind_Ok. revert Hg. destruct (get_ready_data n out cb) as [[cb' out']| | | |]; try done.
    cbn [mbind res_bind safe_res]. intros [Hd HR']. rewrite Hd. eexists. by split; [constructor|].
  - pose proof (get_all_step r cb q HR) as Hg. destruct (Buffer.with_reserve r) as [out| | | |]; try done.
    cbn zeta in Hg. rewrite bind_Ok in Hg. rewrite bind_Ok. revert Hg. destruct (get_all_ready_data out cb) as [[cb' out']| | | |]; try done.
    cbn [mbind res_bind safe_res]. intros [Hd HR']. rewrite Hd. eexists. by split; [constructor|].
  - destruct (with_reserve_spec r) as (out & -> & Ho & Hs & Hcap & Hc). rewrite bind_Ok.
    destruct (until_spec what out cb q) as (p & rest & cb' & out' & st & -> & -> & HR' & Hc' & Hu);
      [done..|unfold Buffer.MIN_BUFFER in *; lia|].
    cbn [mbind res_bind safe_res]. rewrite Hc', Hcap in *. eexists. by split; [constructor|].
  - unfold try_read_byte, empty. destruct q as [|c q].
    + rewrite bool_decide_eq_true_2 by (by apply no_byte). cbn. eexists. by split; [constructor|].
    + destruct (byte_step _ _ _ HR) as (Hl & HR' & Hne). rewrite bool_decide_eq_false_2 by done. cbn [negb].
      rewrite Hl. cbn [mbind res_bind safe_res]. eexists. by split; [constructor|].
  - unfold read_byte. destruct q as [|c q].
    + by rewrite bool_decide_eq_false_2 by (intros Hn; by apply Hn, no_byte).
    + destruct (byte_step _ _ _ HR) as (Hl & HR' & Hne). rewrite bool_decide_eq_true_2 by done.
      rewrite Hl. cbn [mbind res_bind safe_res]. eexists. by split; [constructor|].
  - pose proof (read_step target cb w q HR) as Hr.
    destruct (read reader target cb w) as [[[cb' w'] n]| | | |]; try done.
    destruct Hr as (bs & -> & -> & HR' & <-). cbn [mbind res_bind safe_res]. eexists. by split; [constructor|].
  - pose proof (write_step cb w q HR) as Hr.
    destruct (write writer cb w) as [[[cb' w'] n]| | | |]; try done.
    destruct Hr as (p & rest & d & -> & -> & HR' & Hs' & Hl & Hone & <-). cbn [mbind res_bind safe_res].
    eexists (rest, incoming w', sent w ++ d). split.
    + constructor; [done|]. intros Hb. apply bool_decide_eq_true_1 in Hb. by apply Hone.
    + done.
Qed.

End transfer.

(** Concrete transfer objects for the witnesses: a socket that takes at most
    [k] bytes per call, and a peer that delivers what it has. *)
Definition sink (k : nat) (d : list cell) (w : list cell) : res (list cell * bool * nat) :=
  Ok (w ++ take k d, bool_decide (length d ≤ k), k `min` length d).
Definition source (n : nat) (w : list u8) : res (list u8 * bool * list u8) :=
  Ok (drop n w, bool_decide (length (take n w) = n), take n w).

Lemma sink_law k : writer_law (sink k) id.
Proof.
  intros d w. simpl. split; [lia|]. split; [intros H; inv_res; lia|].
  f_equal. destruct (decide (k ≤ length d)); [by rewrite Nat.min_l|].
  by rewrite Nat.min_r, !take_ge by lia.
Qed.

Lemma source_law : reader_law source id.
Proof.
  intros n w. simpl. split; [len|]. split; [intros H; by inv_res|]. by rewrite take_drop.
Qed.

(** four bytes held in a ring of eight cells, in one piece and wrapped *)
Definition straight : t := mk (blit 1 (Some <$> [x0a; x0b; x0c; x0d]) (uninit 8)) 3 1 5.
Definition wrapped : t := mk (Some <$> [x0c; x0d; x01; x02; x03; x04; x0a; x0b]) 3 6 2.

Lemma write_in_one_piece_example :
  write (sink 3) straight [] = Ok (mk (buff straight) 3 4 5, Some <$> [x0a; x0b; x0c], 3) ∧
  safe_res (λ '(cb', w', n), flushed id straight [] cb' w' n) (write (sink 3) straight []).
Proof.
  split; [vm_compute; reflexivity|]. apply (write_in_one_piece (sink 3) id).
  - apply sink_law.
  - vm_compute. lia.
  - vm_compute. lia.
Defined.

Lemma write_wrapped_sends_from_end_witness :
  contents wrapped = Some <$> [x0a; x0b; x0c; x0d] ∧
  ∃ cb' w', write (sink 8) wrapped [] = Ok (cb', w', 4) ∧ contents cb' = [] ∧
            w' = Some <$> [x01; x02; x0c; x0d].
Proof.
  split; [vm_compute; reflexivity|].
  set (wr := λ d (w : list cell), Ok (w ++ d, true, length d) : res (list cell * bool * nat)).
  change (∃ cb' w', write wr wrapped [] = Ok (cb', w', length (contents wrapped)) ∧
    contents cb' = [] ∧
    id w' = id [] ++ slice (end_ wrapped) (alloc_size wrapped - begin_ wrapped) (buff wrapped)
                  ++ take (end_ wrapped) (buff wrapped)).
  apply (write_wrapped_sends_from_end wr id).
  - intros d w. eexists. split; reflexivity.
  - vm_compute. lia.
  - vm_compute. lia.
Defined.

(** a socket with both sides: what was sent and what is to come *)
Definition wire_send (k : nat) (d : list cell) (w : list cell * list u8) : res (list cell * list u8 * bool * nat) :=
  '(s, can, n) ← sink k d w.1; Ok (s, w.2, can, n).
Definition wire_receive (n : nat) (w : list cell * list u8) : res (list cell * list u8 * bool * list u8) :=
  '(i, can, bs) ← source n w.2; Ok (w.1, i, can, bs).

(** two bytes are appended, four arrive in the array of four, and what wraps is sent *)
Definition some_ops : list qop := [QAppend [x01; x02; x03]; QGet 2 1; QRead 3; QWrite; QTryByte].

End CbbSpec.
