(* ===== verification/Timers.v ===== *)
(** * Timers (src/timeout_manager.h, src/timeout_manager.cpp, src/infrastructure.cpp)

    [Module Timers] models [TimeoutManager]: the table of timers, the multimap
    from deadlines to timers, every operation on them, and the user-facing
    [Timeout] handle with its destructor. A [std::multimap] is the list of its
    pairs in iteration order. User callbacks and coroutine resumptions are
    parameters that may change the timers and the rest of the world.
    [Module TimersSpec] states what a user relies on. *)

From S2P Require Import Prelude.
From Stdlib Require Import Lia Sorting.Sorted.

(** ** The multimap [nextTimeouts] *)
Module MultiMap.

Definition t : Type := list (Z * Z).

(** [insert]: a new pair comes after the pairs with the same key *)
Fixpoint insert_pair (k v : Z) (m : t) : t :=
  match m with
  | [] => [(k, v)]
  | (k', v') :: m' =>
      if bool_decide (k < k')%Z then (k, v) :: (k', v') :: m'
      else (k', v') :: insert_pair k v m'
  end.

(** the walk through [equal_range(k)] that erases the first pair with value
    [v]; [None] if there is none *)
Fixpoint erase_in_range (k v : Z) (m : t) : option t :=
  match m with
  | [] => None
  | (k', v') :: m' =>
      if bool_decide (k' < k)%Z then cons (k', v') <$> erase_in_range k v m'
      else if bool_decide (k' = k) then
        if bool_decide (v' = v) then Some m' else cons (k', v') <$> erase_in_range k v m'
      else None
  end.

(** the pairs before and from [upper_bound(now)] *)
Fixpoint split_upper (now : Z) (m : t) : t * t :=
  match m with
  | [] => ([], [])
  | (k, v) :: m' =>
      if bool_decide (k ≤ now)%Z then
        let '(l, r) := split_upper now m' in ((k, v) :: l, r)
      else ([], (k, v) :: m')
  end.

Definition key_le (p q : Z * Z) : Prop := (p.1 ≤ q.1)%Z.
Definition sorted (m : t) : Prop := StronglySorted key_le m.

Lemma insert_pair_perm k v m : insert_pair k v m ≡ₚ (k, v) :: m.
Proof.
  induction m as [|[k' v'] m IH]; cbn [insert_pair]; [done|].
  case_bool_decide; [done|]. rewrite IH. constructor.
Qed.

Lemma insert_pair_sorted k v m : sorted m → sorted (insert_pair k v m).
Proof.
  induction 1 as [|[k' v'] m Hs IH Hall]; cbn [insert_pair]; [by repeat constructor|].
  case_bool_decide as Hk; constructor.
  - by constructor.
  - constructor; [unfold key_le; simpl; lia|].
    eapply Forall_impl; [exact Hall|]. unfold key_le; simpl; intros; lia.
  - done.
  - rewrite insert_pair_perm. constructor; [unfold key_le; simpl; lia|done].
Qed.

Lemma erase_in_range_found k v m :
  sorted m → (k, v) ∈ m → ∃ m', erase_in_range k v m = Some m' ∧ m ≡ₚ (k, v) :: m' ∧ sorted m'.
Proof.
  induction 1 as [|[k' v'] m Hs IH Hall]; [by intros []%elem_of_nil|].
  cbn [erase_in_range]. intros Hin.
  assert (Hrec : (k, v) ∈ m → ∃ m', cons (k', v') <$> erase_in_range k v m = Some m' ∧
                   (k', v') :: m ≡ₚ (k, v) :: m' ∧ sorted m').
  { intros Hm. destruct (IH Hm) as (m' & -> & Hp & Hs'). eexists; split; [done|]. split.
    - rewrite Hp. constructor.
    - constructor; [done|]. rewrite Hp in Hall. by inversion Hall. }
  apply elem_of_cons in Hin as [Heq|Hin].
  - simplify_eq. rewrite bool_decide_eq_false_2, !bool_decide_eq_true_2 by (done || lia). eauto.
  - assert (k' ≤ k)%Z by (rewrite Forall_forall in Hall; apply (Hall _ Hin)).
    repeat case_bool_decide; simplify_eq; eauto; lia.
Qed.

Lemma split_upper_app now m l r : split_upper now m = (l, r) → m = l ++ r.
Proof.
  revert l r. induction m as [|[k v] m IH]; cbn [split_upper]; intros l r H; [by simplify_eq|].
  case_bool_decide; [|by simplify_eq].
  destruct (split_upper now m) as [l' r']. simplify_eq. simpl. by erewrite IH.
Qed.

Lemma split_upper_bound now m l r :
  sorted m → split_upper now m = (l, r) →
  Forall (λ p, p.1 ≤ now)%Z l ∧ Forall (λ p, now < p.1)%Z r.
Proof.
  intros Hs. revert l r. induction Hs as [|[k v] m Hs IH Hall]; cbn [split_upper]; intros l r H.
  - simplify_eq. by split.
  - case_bool_decide as Hk.
    + destruct (split_upper now m) as [l' r']. simplify_eq.
      destruct (IH _ _ eq_refl). by split; [constructor|].
    + simplify_eq. split; [done|]. constructor; [simpl; lia|].
      eapply Forall_impl; [exact Hall|]. unfold key_le; simpl; intros; lia.
Qed.

Lemma sorted_app_r l r : sorted (l ++ r) → sorted r.
Proof. induction l as [|p l IH]; [done|]. simpl. inversion 1; auto. Qed.

End MultiMap.

(** ** The timeout manager *)
Module Timers.

Definition TimeOutNever : Z := UINT64_MAX.

(** [getPollTimeout]: microseconds to the milliseconds of [poll] *)
Definition getPollTimeout (nextTimeoutAt now : Z) : Z :=
  if bool_decide (nextTimeoutAt = TimeOutNever) then -1
  else if bool_decide (nextTimeoutAt ≤ now)%Z then 0
  else if bool_decide ((nextTimeoutAt - now) / 1000 + 1 ≤ INT32_MAX)%Z
  then (nextTimeoutAt - now) / 1000 + 1
  else INT32_MAX.

Section defs.
(** callbacks, coroutine handles *)
Context {CB H : Type}.

Record TimeoutEntryHandlerData : Type := mkHandler { cb : option CB; h : option H }.

(** [lastSchedule] and [nextTimeout] have no value before the first schedule *)
Record TimeoutEntry : Type := mkEntry {
  handler : TimeoutEntryHandlerData;
  id : Z;
  lastSchedule : option Z;
  delay : Z;
  nextTimeout : option Z;
  handleDestroyed : bool;
  active : bool;
}.

Record t : Type := mk {
  lastId : Z;
  timers : gmap Z TimeoutEntry;
  nextTimeouts : MultiMap.t;
}.

Definition init : t := mk 0 ∅ [].

(** [appSetTimeout(TimeoutEntry&, now)], the entry being the one under [i] *)
Definition appSetTimeout_entry (i : Z) (e : TimeoutEntry) (now : Z) (m : t) : res t :=
  ASSERT bool_decide (active e = false) ;;
  let next := u64 (now + delay e) in
  let e' := mkEntry (handler e) (id e) (Some now) (delay e) (Some next) (handleDestroyed e) true in
  Ok (mk (lastId m) (<[i := e']> (timers m))
         (MultiMap.insert_pair next (id e) (nextTimeouts m))).

Definition deactivate (e : TimeoutEntry) : TimeoutEntry :=
  mkEntry (handler e) (id e) (lastSchedule e) (delay e) (nextTimeout e) (handleDestroyed e) false.

(** [appClearTimeout(TimeoutEntry&)] *)
Definition appClearTimeout_entry (i : Z) (e : TimeoutEntry) (m : t) : res (t * TimeoutEntry) :=
  if active e then
    match nextTimeout e with
    | None => UB
    | Some next =>
        match MultiMap.erase_in_range next (id e) (nextTimeouts m) with
        | None => AssertFail                          (* entry.active is still true *)
        | Some nt =>
            let e' := deactivate e in
            Ok (mk (lastId m) (<[i := e']> (timers m)) nt, e')
        end
    end
  else Ok (m, e).

(** [appSetTimeoutImpl]: the result is the id of the [Timeout] handle. The
    product [ms * 1000] is computed in [int]. *)
Definition appSetTimeoutImpl (hd : TimeoutEntryHandlerData) (ms now : Z) (m : t) : res (t * Z) :=
  let ms := if bool_decide (ms = 0)%Z then 1%Z
            else if bool_decide (ms < 0)%Z then INT32_MAX else ms in
  let i := u64 (lastId m + 1) in
  REQUIRE in_i32 (ms * 1000) ;;
  let entry := mkEntry hd i None (u64 (ms * 1000)) None false false in
  match timers m !! i with
  | None =>
      m' ← appSetTimeout_entry i entry now (mk i (<[i := entry]> (timers m)) (nextTimeouts m));
      Ok (m', i)
  | Some _ => Ok (mk i (timers m) (nextTimeouts m), 0%Z)
  end.

Definition appSetTimeout_cb (f : CB) := appSetTimeoutImpl (mkHandler (Some f) None).
Definition appSetTimeout_h (c : H) := appSetTimeoutImpl (mkHandler None (Some c)).

(** [appClearTimeout(const Timeout&)] *)
Definition appClearTimeout (i : Z) (m : t) : res t :=
  match timers m !! i with
  | Some e => '(m', _) ← appClearTimeout_entry i e m; Ok m'
  | None => Ok m
  end.

Definition appRefresh (i now : Z) (m : t) : res t :=
  match timers m !! i with
  | Some e =>
      '(m', e') ← appClearTimeout_entry i e m;
      appSetTimeout_entry i e' now m'
  | None => Ok m
  end.

Definition mark_destroyed (e : TimeoutEntry) : TimeoutEntry :=
  mkEntry (handler e) (id e) (lastSchedule e) (delay e) (nextTimeout e) true (active e).

Definition appTimeoutDestructor (i : Z) (m : t) : t :=
  match timers m !! i with
  | Some e =>
      if active e then mk (lastId m) (<[i := mark_destroyed e]> (timers m)) (nextTimeouts m)
      else mk (lastId m) (delete i (timers m)) (nextTimeouts m)
  | None => m                                          (* logged *)
  end.

(** the first loop of [infraTimeoutEvents]: timers due are taken off the table *)
Fixpoint collect_due (due : MultiMap.t) (ts : gmap Z TimeoutEntry)
  : res (gmap Z TimeoutEntry * list TimeoutEntryHandlerData) :=
  match due with
  | [] => Ok (ts, [])
  | (_, i) :: due' =>
      match ts !! i with
      | None => AssertFail
      | Some e =>
          ASSERT active e ;;
          let ts' := if handleDestroyed e then delete i ts else <[i := deactivate e]> ts in
          '(ts'', hs) ← collect_due due' ts';
          Ok (ts'', handler e :: hs)
      end
  end.

Definition take_due (now : Z) (m : t) : res (t * list TimeoutEntryHandlerData) :=
  let '(due, rest) := MultiMap.split_upper now (nextTimeouts m) in
  '(ts, hs) ← collect_due due (timers m);
  Ok (mk (lastId m) ts rest, hs).

Section run.
Context {W : Type}.
Context (call : CB → t * W → res (t * W)).
Context (resume : H → t * W → res (t * W)).
Context (setCoroStatus : H → CoroStandardOutcomes → W → W).

(** the second loop *)
Fixpoint run_handlers (hs : list TimeoutEntryHandlerData) (s : t * W) : res (t * W) :=
  match hs with
  | [] => Ok s
  | hd :: hs' =>
      s' ← match cb hd, h hd with
           | Some f, _ => call f s
           | None, Some c => resume c (s.1, setCoroStatus c timeout s.2)
           | None, None => Ok s
           end;
      run_handlers hs' s'
  end.

Definition infraTimeoutEvents (now : Z) (s : t * W) : res (t * W) :=
  '(m, hs) ← take_due now s.1;
  run_handlers hs (m, s.2).
End run.

Definition infraNextTimeout (m : t) : Z :=
  match nextTimeouts m with [] => TimeOutNever | (k, _) :: _ => k end.

Definition infraRefedTimeout (m : t) : bool :=
  match nextTimeouts m with [] => false | _ => true end.

(** ** The user's handle: [nodecpp::Timeout] is its id *)
Definition Timeout_move_construct (other : Z) : Z * Z := (other, 0%Z).
Definition Timeout_move_assign (self other : Z) : Z * Z := (other, self).
Definition Timeout_destroy (to : Z) (m : t) : t :=
  if bool_decide (to ≠ 0%Z) then appTimeoutDestructor to m else m.

Definition setTimeout (f : CB) (ms now : Z) (m : t) : res (t * Z) := appSetTimeout_cb f ms now m.
Definition setTimeoutForAction (c : H) (ms now : Z) (m : t) : res (t * Z) := appSetTimeout_h c ms now m.
Definition refreshTimeout (to now : Z) (m : t) : res t := appRefresh to now m.

(** [clearTimeout(to)] calls [appClearTimeout(to.getId())]: the id converts to a
    temporary [Timeout], which is destroyed at the end of the statement. *)
Definition clearTimeout (to : Z) (m : t) : res t :=
  m' ← appClearTimeout to m;
  Ok (Timeout_destroy to m').

(** ** The invariant *)
Record wf (m : t) : Prop := {
  wf_sorted : MultiMap.sorted (nextTimeouts m);
  wf_nodup : NoDup (nextTimeouts m).*2;
  wf_listed : ∀ k i, (k, i) ∈ nextTimeouts m ↔
    ∃ e, timers m !! i = Some e ∧ active e = true ∧ nextTimeout e = Some k;
  wf_ids : ∀ i e, timers m !! i = Some e → id e = i;
  wf_active_deadline : ∀ i e, timers m !! i = Some e → active e = true → ∃ k, nextTimeout e = Some k;
}.

Lemma wf_init : wf init.
Proof.
  constructor; simpl; [constructor..| | |]; try (intros i e He; by rewrite lookup_empty in He).
  intros k i. split; [by intros []%elem_of_nil|]. intros (e & He & _). by rewrite lookup_empty in He.
Qed.

Lemma wf_listed_id m i k : wf m → (k, i) ∈ nextTimeouts m → i ∈ (nextTimeouts m).*2.
Proof. intros _ Hin. apply list_elem_of_fmap. by exists (k, i). Qed.

Lemma wf_inactive_not_listed m i e :
  wf m → timers m !! i = Some e → active e = false → i ∉ (nextTimeouts m).*2.
Proof.
  intros Hwf He Ha Hin. apply list_elem_of_fmap in Hin as ([k i'] & -> & Hin).
  apply (wf_listed _ Hwf) in Hin as (e' & He' & Ha' & _). simpl in *. congruence.
Qed.

Lemma wf_absent_not_listed m i : wf m → timers m !! i = None → i ∉ (nextTimeouts m).*2.
Proof.
  intros Hwf He Hin. apply list_elem_of_fmap in Hin as ([k i'] & -> & Hin).
  apply (wf_listed _ Hwf) in Hin as (e' & He' & _). simpl in *. congruence.
Qed.

(** ** Preservation of the invariant *)
Lemma set_entry_spec i e now m :
  wf m → timers m !! i = Some e → active e = false →
  ∃ m', appSetTimeout_entry i e now m = Ok m' ∧ wf m' ∧
        nextTimeouts m' = MultiMap.insert_pair (u64 (now + delay e)) i (nextTimeouts m) ∧
        timers m' = <[i := mkEntry (handler e) i (Some now) (delay e)
                             (Some (u64 (now + delay e))) (handleDestroyed e) true]> (timers m) ∧
        lastId m' = lastId m.
Proof.
  intros Hwf He Ha. pose proof (wf_inactive_not_listed _ _ _ Hwf He Ha) as Hni.
  pose proof (wf_ids _ Hwf _ _ He) as Hid.
  unfold appSetTimeout_entry. rewrite bool_decide_eq_true_2 by done. rewrite Hid.
  eexists; split; [done|]. split_and!; try done.
  constructor; cbn [timers nextTimeouts].
  - apply MultiMap.insert_pair_sorted, Hwf.
  - rewrite MultiMap.insert_pair_perm. simpl. constructor; [done|apply Hwf].
  - intros k j. rewrite MultiMap.insert_pair_perm, elem_of_cons, (wf_listed _ Hwf).
    destruct (decide (j = i)) as [->|Hne].
    + rewrite lookup_insert_eq. split.
      * intros [Heq|(e' & He' & Ha' & _)]; [|congruence]. simplify_eq. eauto.
      * intros (e' & He' & _ & Hk). left. simplify_eq/=. done.
    + rewrite lookup_insert_ne by done. split; [intros [?|?]; [congruence|done]|by right].
  - intros j e'. destruct (decide (j = i)) as [->|Hne].
    + rewrite lookup_insert_eq. intros; by simplify_eq.
    + rewrite lookup_insert_ne by done. apply Hwf.
  - intros j e'. destruct (decide (j = i)) as [->|Hne].
    + rewrite lookup_insert_eq. intros; simplify_eq/=. eauto.
    + rewrite lookup_insert_ne by done. apply Hwf.
Qed.

Lemma clear_entry_spec i e m :
  wf m → timers m !! i = Some e →
  ∃ m', appClearTimeout_entry i e m = Ok (m', deactivate e) ∧ wf m' ∧
        timers m' = <[i := deactivate e]> (timers m) ∧ lastId m' = lastId m ∧
        i ∉ (nextTimeouts m').*2 ∧
        (∀ k j, j ≠ i → (k, j) ∈ nextTimeouts m' ↔ (k, j) ∈ nextTimeouts m).
Proof.
  intros Hwf He. pose proof (wf_ids _ Hwf _ _ He) as Hid.
  unfold appClearTimeout_entry. destruct (active e) eqn:Ha.
  - assert (Hin : ∃ k, nextTimeout e = Some k ∧ (k, i) ∈ nextTimeouts m).
    { destruct (nextTimeout e) as [k|] eqn:Hk.
      - exists k. split; [done|]. apply (wf_listed _ Hwf). eauto.
      - exfalso. destruct (wf_active_deadline _ Hwf i e He Ha) as [k ?]. congruence. }
    destruct Hin as (k & -> & Hin). rewrite Hid.
    destruct (MultiMap.erase_in_range_found k i _ (wf_sorted _ Hwf) Hin) as (nt & -> & Hp & Hs).
    pose proof (wf_nodup _ Hwf) as Hnd. rewrite Hp in Hnd. simpl in Hnd.
    apply NoDup_cons in Hnd as [Hni Hnd].
    assert (Hout : ∀ k' j, j ≠ i → (k', j) ∈ nt ↔ (k', j) ∈ nextTimeouts m).
    { intros k' j Hne. rewrite Hp, elem_of_cons. split; [by right|]. intros [?|?]; [congruence|done]. }
    eexists; split; [done|]. split_and!; try done. constructor; cbn [timers nextTimeouts]; try done.
    + intros k' j. destruct (decide (j = i)) as [->|Hne].
      * rewrite lookup_insert_eq. split.
        -- intros Hin'. exfalso. apply Hni, list_elem_of_fmap. by exists (k', i).
        -- intros (e' & He' & Ha' & _). by simplify_eq.
      * rewrite lookup_insert_ne by done. rewrite Hout by done. apply Hwf.
    + intros j e'. destruct (decide (j = i)) as [->|Hne].
      * rewrite lookup_insert_eq. intros; by simplify_eq.
      * rewrite lookup_insert_ne by done. apply Hwf.
    + intros j e'. destruct (decide (j = i)) as [->|Hne].
      * rewrite lookup_insert_eq. intros; by simplify_eq.
      * rewrite lookup_insert_ne by done. apply Hwf.
  - assert (deactivate e = e) as -> by (destruct e; simpl in *; by subst).
    rewrite insert_id by done. eexists; split; [done|]. split_and!; try done.
    by eapply wf_inactive_not_listed.
Qed.

Lemma destructor_wf i m : wf m → wf (appTimeoutDestructor i m).
Proof.
  intros Hwf. unfold appTimeoutDestructor.
  destruct (timers m !! i) as [e|] eqn:He; [|done]. destruct (active e) eqn:Ha.
  - constructor; cbn [timers nextTimeouts]; try apply Hwf.
    + intros k j. rewrite (wf_listed _ Hwf). destruct (decide (j = i)) as [->|Hne].
      * rewrite lookup_insert_eq. split; intros (e' & ? & ? & ?); simplify_eq; eauto.
      * by rewrite lookup_insert_ne by done.
    + intros j e'. destruct (decide (j = i)) as [->|Hne].
      * rewrite lookup_insert_eq. intros; simplify_eq. apply (wf_ids _ Hwf _ _ He).
      * rewrite lookup_insert_ne by done. apply Hwf.
    + intros j e'. destruct (decide (j = i)) as [->|Hne].
      * rewrite lookup_insert_eq. intros; simplify_eq/=. by eapply (wf_active_deadline _ Hwf).
      * rewrite lookup_insert_ne by done. apply Hwf.
  - pose proof (wf_inactive_not_listed _ _ _ Hwf He Ha) as Hni.
    constructor; cbn [timers nextTimeouts]; try apply Hwf.
    + intros k j. rewrite (wf_listed _ Hwf). destruct (decide (j = i)) as [->|Hne].
      * rewrite lookup_delete_eq. split; intros (e' & ? & ? & ?); congruence.
      * by rewrite lookup_delete_ne by done.
    + intros j e' He'. apply lookup_delete_Some in He' as [_ He']. by apply (wf_ids _ Hwf).
    + intros j e' He'. apply lookup_delete_Some in He' as [_ He'].
      by eapply (wf_active_deadline _ Hwf).
Qed.

(** what is left of an entry whose timer has fired *)
Definition fired (e : TimeoutEntry) : option TimeoutEntry :=
  if handleDestroyed e then None else Some (deactivate e).

Lemma collect_due_spec due ts :
  NoDup due.*2 → (∀ k i, (k, i) ∈ due → ∃ e, ts !! i = Some e ∧ active e = true) →
  ∃ ts' hs, collect_due due ts = Ok (ts', hs) ∧
    (∀ i, i ∉ due.*2 → ts' !! i = ts !! i) ∧
    (∀ i e, i ∈ due.*2 → ts !! i = Some e → ts' !! i = fired e) ∧
    Forall2 (λ p hd, ∃ e, ts !! p.2 = Some e ∧ handler e = hd) due hs.
Proof.
  revert ts. induction due as [|[k i] due IH]; intros ts Hnd Hact; cbn [collect_due].
  - exists ts, []. split_and!; [done..| |constructor]. by intros i e []%elem_of_nil.
  - simpl in Hnd. apply NoDup_cons in Hnd as [Hni Hnd].
    destruct (Hact k i) as (e & He & Ha); [left|]. rewrite He, Ha.
    set (ts1 := if handleDestroyed e then _ else _).
    assert (Hts1 : ts1 !! i = fired e ∧ ∀ j, j ≠ i → ts1 !! j = ts !! j).
    { subst ts1. unfold fired. destruct (handleDestroyed e).
      - rewrite lookup_delete_eq. split; [done|]. intros. by rewrite lookup_delete_ne.
      - rewrite lookup_insert_eq. split; [done|]. intros. by rewrite lookup_insert_ne. }
    destruct Hts1 as [Hi Hj].
    assert (Hne : ∀ p, p ∈ due → p.2 ≠ i).
    { intros p Hp <-. apply Hni, list_elem_of_fmap. eauto. }
    destruct (IH ts1 Hnd) as (ts' & hs & -> & H1 & H2 & H3).
    { intros k' j Hin. rewrite Hj by apply (Hne _ Hin). apply (Hact k' j). by right. }
    exists ts', (handler e :: hs). split; [done|]. simpl. split_and!.
    + intros j Hj'. rewrite elem_of_cons in Hj'. rewrite H1, Hj; naive_solver.
    + intros j e' Hin He'. apply elem_of_cons in Hin as [->|Hin].
      * rewrite H1 by done. simplify_eq. done.
      * apply H2; [done|]. rewrite Hj; [done|]. intros ->. done.
    + constructor; [by eauto|]. eapply Forall2_impl_l; [exact H3|].
      intros p hd Hp (e' & He' & Hh). exists e'. by rewrite <-Hj by apply (Hne _ Hp).
Qed.

(** the timer of [e] is due *)
Definition is_due (now : Z) (e : TimeoutEntry) : bool :=
  active e && match nextTimeout e with Some k => bool_decide (k ≤ now)%Z | None => false end.

Lemma take_due_wf m now due rest ts' :
  wf m → nextTimeouts m = due ++ rest → NoDup rest.*2 →
  Forall (λ p, p.1 ≤ now)%Z due → Forall (λ p, now < p.1)%Z rest →
  (∀ i e, timers m !! i = Some e → ts' !! i = if is_due now e then fired e else Some e) →
  (∀ i, timers m !! i = None → ts' !! i = None) →
  wf (mk (lastId m) ts' rest).
Proof.
  intros Hwf Happ Hnd Hdue Hrest Hts Hnone.
  assert (Hback : ∀ i e', ts' !! i = Some e' → ∃ e, timers m !! i = Some e ∧
            if is_due now e then e' = deactivate e else e' = e).
  { intros i e' He'. destruct (timers m !! i) as [e|] eqn:He.
    - rewrite (Hts _ _ He) in He'. exists e. split; [done|]. unfold fired in He'.
      destruct (is_due now e), (handleDestroyed e); by simplify_eq.
    - rewrite Hnone in He'; done. }
  constructor; cbn [timers nextTimeouts]; try done.
  - eapply MultiMap.sorted_app_r. rewrite <-Happ. apply Hwf.
  - intros k i. split.
    + intros Hin. rewrite Forall_forall in Hrest. pose proof (Hrest _ Hin) as Hk. simpl in Hk.
      destruct (proj1 (wf_listed _ Hwf k i)) as (e & He & Ha & Hn).
      { rewrite Happ. apply elem_of_app. by right. }
      exists e. rewrite (Hts _ _ He). unfold is_due. rewrite Ha, Hn. simpl.
      by rewrite bool_decide_eq_false_2 by lia.
    + intros (e' & He' & Ha' & Hn'). apply Hback in He' as (e & He & Hcase).
      destruct (is_due now e) eqn:Hd; subst e'; [done|].
      assert (Hm : (k, i) ∈ nextTimeouts m) by (apply (wf_listed _ Hwf); eauto).
      rewrite Happ in Hm. apply elem_of_app in Hm as [Hm|Hm]; [|done].
      rewrite Forall_forall in Hdue. pose proof (Hdue _ Hm) as Hle. simpl in Hle.
      unfold is_due in Hd. rewrite Ha', Hn' in Hd. simpl in Hd.
      apply bool_decide_eq_false_1 in Hd. lia.
  - intros i e' He'. apply Hback in He' as (e & He & Hcase).
    rewrite <-(wf_ids _ Hwf _ _ He). destruct (is_due now e); by subst.
  - intros i e' He' Ha'. apply Hback in He' as (e & He & Hcase).
    destruct (is_due now e); subst e'; [done|]. by eapply (wf_active_deadline _ Hwf).
Qed.

Lemma take_due_spec now m :
  wf m →
  ∃ m' hs due, take_due now m = Ok (m', hs) ∧ wf m' ∧
    nextTimeouts m = due ++ nextTimeouts m' ∧
    Forall (λ p, p.1 ≤ now)%Z due ∧ Forall (λ p, now < p.1)%Z (nextTimeouts m') ∧
    (∀ i e, timers m !! i = Some e → timers m' !! i = if is_due now e then fired e else Some e) ∧
    (∀ i, timers m !! i = None → timers m' !! i = None) ∧
    Forall2 (λ p hd, ∃ e, timers m !! p.2 = Some e ∧ handler e = hd) due hs.
Proof.
  intros Hwf. unfold take_due.
  destruct (MultiMap.split_upper now (nextTimeouts m)) as [due rest] eqn:Hsp.
  pose proof (MultiMap.split_upper_app _ _ _ _ Hsp) as Happ.
  destruct (MultiMap.split_upper_bound _ _ _ _ (wf_sorted _ Hwf) Hsp) as [Hdue Hrest].
  pose proof (wf_nodup _ Hwf) as Hnd. rewrite Happ, fmap_app in Hnd.
  apply NoDup_app in Hnd as (Hnd1 & Hdisj & Hnd2).
  assert (Hin : ∀ k i, (k, i) ∈ due → ∃ e, timers m !! i = Some e ∧ active e = true ∧ nextTimeout e = Some k).
  { intros k i Hki. apply (wf_listed _ Hwf). rewrite Happ. apply elem_of_app. by left. }
  destruct (collect_due_spec due (timers m) Hnd1) as (ts' & hs & -> & H1 & H2 & H3); [naive_solver|].
  assert (Hiff : ∀ i e, timers m !! i = Some e → i ∈ due.*2 ↔ is_due now e = true).
  { intros i e He. unfold is_due. split.
    - intros Hi. apply list_elem_of_fmap in Hi as ([k j] & -> & Hkj). rewrite Forall_forall in Hdue.
      pose proof (Hdue _ Hkj) as Hle. apply Hin in Hkj as (e' & He' & Ha & Hk). simplify_eq/=.
      rewrite Ha, Hk. by apply bool_decide_eq_true_2.
    - intros (Ha & Hk)%andb_true_iff. destruct (nextTimeout e) as [k|] eqn:Hn; [|done].
      apply bool_decide_eq_true_1 in Hk. assert (Hm : (k, i) ∈ nextTimeouts m).
      { apply (wf_listed _ Hwf). eauto. }
      rewrite Happ in Hm. apply elem_of_app in Hm as [Hm|Hm].
      + apply list_elem_of_fmap. by exists (k, i).
      + rewrite Forall_forall in Hrest. specialize (Hrest _ Hm). simpl in Hrest. lia. }
  assert (Hts : ∀ i e, timers m !! i = Some e → ts' !! i = if is_due now e then fired e else Some e).
  { intros i e He. destruct (is_due now e) eqn:Hd.
    - apply H2; [by apply (Hiff i e)|done].
    - rewrite H1; [done|]. intros Hi. apply (Hiff i e He) in Hi. congruence. }
  eexists _, hs, due. split; [done|]. cbn [timers nextTimeouts]. split_and!; try done.
  - apply (take_due_wf m now due rest ts'); try done.
    intros i Hi. rewrite H1; [done|]. intros (p & -> & Hp)%list_elem_of_fmap.
    destruct p as [k j]. apply Hin in Hp as (e & He & _). simpl in *. congruence.
  - intros i Hi. rewrite H1; [done|]. intros (p & -> & Hp)%list_elem_of_fmap.
    destruct p as [k j]. apply Hin in Hp as (e & He & _). simpl in *. congruence.
Qed.

End defs.
Arguments TimeoutEntry : clear implicits.
Arguments TimeoutEntryHandlerData : clear implicits.
Arguments t : clear implicits.

End Timers.

(** ** What the timers promise *)
Module TimersSpec.
Import Timers.

Section spec.
Context {CB H W : Type}.
Context (call : CB → t CB H * W → res (t CB H * W)).
Context (resume : H → t CB H * W → res (t CB H * W)).
Context (setCoroStatus : H → CoroStandardOutcomes → W → W).

(** What the manager is asked to do: by user code, and by the event loop. *)
Inductive op : Type :=
  | OpSetTimeout (f : CB) (ms now : Z)
  | OpSetTimeoutForAction (c : H) (ms now : Z)
  | OpClear (to : Z)
  | OpRefresh (to now : Z)
  | OpDestroy (to : Z)
  | OpEvents (now : Z).

Definition exec (o : op) (s : t CB H * W) : res (t CB H * W) :=
  match o with
  | OpSetTimeout f ms now => '(m, _) ← setTimeout f ms now s.1; Ok (m, s.2)
  | OpSetTimeoutForAction c ms now => '(m, _) ← setTimeoutForAction c ms now s.1; Ok (m, s.2)
  | OpClear to => m ← clearTimeout to s.1; Ok (m, s.2)
  | OpRefresh to now => m ← refreshTimeout to now s.1; Ok (m, s.2)
  | OpDestroy to => Ok (Timeout_destroy to s.1, s.2)
  | OpEvents now => infraTimeoutEvents call resume setCoroStatus now s
  end.

(** The milliseconds whose microseconds fit in an [int]. *)
Definition ms_ok (ms : Z) : Prop := (0 ≤ ms ≤ 2147483)%Z.
Definition op_ok (o : op) : Prop :=
  match o with
  | OpSetTimeout _ ms _ | OpSetTimeoutForAction _ ms _ => ms_ok ms
  | _ => True
  end.

(** User code reaches the manager through its operations only. *)
Definition user_law : Prop := ∀ s, wf s.1 →
  (∀ f, ∃ s', call f s = Ok s' ∧ wf s'.1) ∧ (∀ c, ∃ s', resume c s = Ok s' ∧ wf s'.1).

Definition the_ms (ms : Z) : Z := if bool_decide (ms = 0)%Z then 1%Z else ms.

Lemma appSetTimeoutImpl_spec hd ms now (m : t CB H) :
  wf m → ms_ok ms →
  ∃ m' i, appSetTimeoutImpl hd ms now m = Ok (m', i) ∧ wf m' ∧
    (timers m !! u64 (lastId m + 1) = None →
     i = u64 (lastId m + 1) ∧
     timers m' = <[i := mkEntry hd i (Some now) (the_ms ms * 1000)
                  (Some (u64 (now + the_ms ms * 1000))) false true]> (timers m)).
Proof.
  intros Hwf Hms. unfold appSetTimeoutImpl.
  assert (Hm : (if bool_decide (ms = 0)%Z then 1%Z else if bool_decide (ms < 0)%Z then INT32_MAX else ms)
               = the_ms ms).
  { unfold the_ms. unfold ms_ok in Hms. repeat case_bool_decide; lia. }
  rewrite Hm. assert (Hr : (1000 ≤ the_ms ms * 1000 < 2 ^ 31)%Z).
  { unfold the_ms. unfold ms_ok in Hms. case_bool_decide; lia. }
  unfold in_i32. rewrite bool_decide_eq_true_2 by lia. rewrite (u64_small (the_ms ms * 1000)) by lia.
  set (i := u64 (lastId m + 1)). destruct (timers m !! i) as [e|] eqn:Hi.
  - eexists _, _. split; [done|]. split; [|done].
    destruct Hwf as [? ? ? ? ?]. by constructor.
  - set (e := mkEntry _ _ _ _ _ _ _).
    destruct (set_entry_spec i e now (mk i (<[i:=e]> (timers m)) (nextTimeouts m)))
      as (m' & -> & Hwf' & _ & Hts & _).
    + pose proof (wf_absent_not_listed _ _ Hwf Hi) as Hni.
      constructor; cbn [timers nextTimeouts]; try apply Hwf.
      * intros k j. rewrite (wf_listed _ Hwf). destruct (decide (j = i)) as [->|Hne].
        -- rewrite lookup_insert_eq, Hi. split; intros (e' & ? & ? & ?); by simplify_eq.
        -- by rewrite lookup_insert_ne by done.
      * intros j e' Hj. apply lookup_insert_Some in Hj as [[<- <-]|[_ Hj]]; [done|].
        by apply (wf_ids _ Hwf).
      * intros j e' Hj. apply lookup_insert_Some in Hj as [[<- <-]|[_ Hj]]; [done|].
        by eapply (wf_active_deadline _ Hwf).
    + apply lookup_insert_eq.
    + done.
    + eexists _, _. split; [done|]. split; [done|]. intros _. split; [done|].
      rewrite Hts. cbn [timers]. by rewrite insert_insert_eq.
Qed.

Lemma appClearTimeout_spec to (m : t CB H) :
  wf m → ∃ m', appClearTimeout to m = Ok m' ∧ wf m' ∧
    timers m' = alter deactivate to (timers m) ∧ lastId m' = lastId m.
Proof.
  intros Hwf. unfold appClearTimeout. destruct (timers m !! to) as [e|] eqn:He.
  - destruct (clear_entry_spec _ _ _ Hwf He) as (m' & -> & Hwf' & Hts & Hl & _).
    exists m'. split; [done|]. split; [done|]. split; [|done]. rewrite Hts. apply map_eq. intros j.
    destruct (decide (j = to)) as [->|Hne].
    + by rewrite lookup_insert_eq, lookup_alter_eq, He.
    + by rewrite lookup_insert_ne, lookup_alter_ne.
  - exists m. split_and!; try done. symmetry. apply map_eq. intros j.
    destruct (decide (j = to)) as [->|Hne]; [by rewrite lookup_alter_eq, He|by rewrite lookup_alter_ne].
Qed.

Lemma appRefresh_wf to now (m : t CB H) :
  wf m → ∃ m', appRefresh to now m = Ok m' ∧ wf m'.
Proof.
  intros Hwf. unfold appRefresh. destruct (timers m !! to) as [e|] eqn:He; [|eauto].
  destruct (clear_entry_spec _ _ _ Hwf He) as (m1 & -> & Hwf1 & Hts & _). cbn [mbind res_bind].
  destruct (set_entry_spec to (deactivate e) now m1) as (m2 & -> & Hwf2 & _); [done| |done|eauto].
  rewrite Hts. apply lookup_insert_eq.
Qed.

Lemma Timeout_destroy_wf to (m : t CB H) : wf m → wf (Timeout_destroy to m).
Proof. unfold Timeout_destroy. case_bool_decide; [apply destructor_wf|done]. Qed.

Lemma run_handlers_wf hs s :
  user_law → wf s.1 → ∃ s', run_handlers call resume setCoroStatus hs s = Ok s' ∧ wf s'.1.
Proof.
  intros Hlaw. revert s. induction hs as [|[[f|] [c|]] hs IH]; intros s Hwf; cbn [run_handlers]; [eauto|..];
    cbn [cb h]; try (destruct (proj1 (Hlaw s Hwf) f) as (s' & -> & Hs'); by apply IH).
  - destruct (proj2 (Hlaw (s.1, setCoroStatus c timeout s.2) Hwf) c) as (s' & -> & Hs'). by apply IH.
  - by apply IH.
Qed.

(** C22. The timer table stays consistent: from a well-formed table every
    operation of user code and of the event loop, whatever its arguments and in
    whatever order, runs to completion without failing any assertion and
    leaves the table well-formed (the multimap is sorted and lists exactly the
    active timers, once each, under their deadlines), as long as the callbacks
    do. The one restriction is on the milliseconds, which must not exceed the
    range whose microseconds fit in an [int]. *)
Theorem timers_ops_safe (o : op) (s : t CB H * W) :
  user_law → op_ok o → wf s.1 → ∃ s', exec o s = Ok s' ∧ wf s'.1.
Proof.
  intros Hlaw Hok Hwf. destruct o as [f ms now|c ms now|to|to now|to|now]; cbn [exec].
  - destruct (appSetTimeoutImpl_spec (mkHandler (Some f) None) ms now _ Hwf Hok) as (m' & i & Hm & Hwf' & _).
    unfold setTimeout, appSetTimeout_cb. rewrite Hm. by eexists.
  - destruct (appSetTimeoutImpl_spec (mkHandler None (Some c)) ms now _ Hwf Hok) as (m' & i & Hm & Hwf' & _).
    unfold setTimeoutForAction, appSetTimeout_h. rewrite Hm. by eexists.
  - unfold clearTimeout. destruct (appClearTimeout_spec to _ Hwf) as (m' & -> & Hwf' & _).
    eexists; split; [done|]. by apply Timeout_destroy_wf.
  - unfold refreshTimeout. destruct (appRefresh_wf to now _ Hwf) as (m' & -> & Hwf'). by eexists.
  - eexists; split; [done|]. by apply Timeout_destroy_wf.
  - unfold infraTimeoutEvents. destruct (take_due_spec now _ Hwf) as (m' & hs & due & -> & Hwf' & _).
    by apply run_handlers_wf.
Qed.

(** Every handler is fired, one after another, in the state the one before left: a
    callback is called, a coroutine is resumed with its status set to [timeout]. *)
Inductive fires : list (TimeoutEntryHandlerData CB H) → t CB H * W → t CB H * W → Prop :=
  | fires_none s : fires [] s s
  | fires_callback f c hs s s1 s2 :
      call f s = Ok s1 → fires hs s1 s2 → fires (mkHandler (Some f) c :: hs) s s2
  | fires_coroutine c hs m w s1 s2 :
      resume c (m, setCoroStatus c timeout w) = Ok s1 → fires hs s1 s2 →
      fires (mkHandler None (Some c) :: hs) (m, w) s2
  | fires_nothing hs s s2 : fires hs s s2 → fires (mkHandler None None :: hs) s s2.

Lemma run_handlers_fires hs s s' : run_handlers call resume setCoroStatus hs s = Ok s' ↔ fires hs s s'.
Proof.
  split.
  - revert s. induction hs as [|[[f|] [c|]] hs IH]; intros s Hr; cbn [run_handlers] in Hr;
      [simplify_eq; constructor|..]; apply bind_Ok_inv in Hr as (s1 & H1 & Hr); cbn [cb h] in H1; try destruct s;
      simplify_eq/=; econstructor; eauto.
  - induction 1 as [|f c hs s s1 s2 H1 _ IH|c hs m w s1 s2 H1 _ IH|]; cbn [run_handlers cb h fst snd]; [done| | |done];
      by rewrite H1.
Qed.

(** C23. [infraTimeoutEvents] fires what is due and nothing else. The handlers
    taken are those of the active timers with deadline at most [now], in the
    order of their deadlines; each such timer is inactive before any handler
    runs and dropped if its handle is gone; every other timer is untouched. The call
    returns exactly when all of these handlers, in this order, were called or resumed and returned. *)
Theorem due_timers_fire (now : Z) (m : t CB H) :
  wf m →
  ∃ m' hs ids,
    (∀ w s', infraTimeoutEvents call resume setCoroStatus now (m, w) = Ok s' ↔ fires hs (m', w) s') ∧
    (∀ i, i ∈ ids ↔ ∃ e, timers m !! i = Some e ∧ is_due now e = true) ∧ NoDup ids ∧
    StronglySorted (λ i j, ∃ e e' k k', timers m !! i = Some e ∧ timers m !! j = Some e' ∧
      nextTimeout e = Some k ∧ nextTimeout e' = Some k' ∧ (k ≤ k')%Z) ids ∧
    Forall2 (λ i hd, ∃ e, timers m !! i = Some e ∧ handler e = hd) ids hs ∧
    (∀ i, timers m' !! i = timers m !! i ≫= λ e, if is_due now e then fired e else Some e).
Proof.
  intros Hwf. destruct (take_due_spec now _ Hwf) as (m' & hs & due & Ht & Hwf' & Happ & Hle & Hgt & Hts & Hno & Hhs).
  exists m', hs, due.*2.
  split; [intros w s'; unfold infraTimeoutEvents; cbn [fst snd]; rewrite Ht; apply run_handlers_fires|].
  assert (Hin : ∀ k i, (k, i) ∈ due → ∃ e, timers m !! i = Some e ∧ active e = true ∧ nextTimeout e = Some k).
  { intros k i Hki. apply (wf_listed _ Hwf). rewrite Happ. apply elem_of_app. by left. }
  rewrite Forall_forall in Hle, Hgt. split_and!.
  - intros i. split.
    + intros ([k j] & -> & Hkj)%list_elem_of_fmap. destruct (Hin _ _ Hkj) as (e & He & Ha & Hn).
      exists e. split; [done|]. unfold is_due. rewrite Ha, Hn. apply bool_decide_eq_true_2, (Hle _ Hkj).
    + intros (e & He & Hd). unfold is_due in Hd. apply andb_true_iff in Hd as [Ha Hd].
      destruct (nextTimeout e) as [k|] eqn:Hn; [|done]. apply bool_decide_eq_true_1 in Hd.
      assert (Hm : (k, i) ∈ nextTimeouts m) by (apply (wf_listed _ Hwf); eauto).
      rewrite Happ in Hm. apply elem_of_app in Hm as [Hm|Hm].
      * apply list_elem_of_fmap. by exists (k, i).
      * specialize (Hgt _ Hm). simpl in Hgt. lia.
  - pose proof (wf_nodup _ Hwf) as Hnd. rewrite Happ, fmap_app in Hnd. by apply NoDup_app in Hnd as [? _].
  - pose proof (wf_sorted _ Hwf) as Hs. rewrite Happ in Hs.
    clear -Hs Hin. induction due as [|[k i] due IH]; [constructor|].
    simpl in Hs |- *. inversion Hs as [|? ? Hs' Hall]; subst. constructor.
    + apply IH; [intros; apply Hin; by right|done].
    + rewrite Forall_forall in Hall. apply Forall_forall. intros j ([k' j'] & -> & Hj)%list_elem_of_fmap.
      destruct (Hin k i) as (e & He & _ & Hn); [left|].
      destruct (Hin k' j') as (e' & He' & _ & Hn'); [by right|].
      exists e, e', k, k'. split_and!; try done. apply (Hall (k', j')), elem_of_app. by left.
  - clear -Hhs. induction Hhs; simpl; constructor; auto.
  - intros i. destruct (timers m !! i) as [e|] eqn:He; [by apply Hts|by apply Hno].
Qed.

(** The wait of the event loop: [infraNextTimeout] is the least deadline of
    the active timers ([TimeOutNever] when there is none) and
    [infraRefedTimeout] tells whether there is one. *)
Theorem next_timeout_is_minimum (m : t CB H) :
  wf m →
  (infraRefedTimeout m = true ↔ ∃ i e, timers m !! i = Some e ∧ active e = true) ∧
  (∀ i e k, timers m !! i = Some e → active e = true → nextTimeout e = Some k →
     (infraNextTimeout m ≤ k)%Z) ∧
  (if infraRefedTimeout m
   then ∃ i e, timers m !! i = Some e ∧ active e = true ∧ nextTimeout e = Some (infraNextTimeout m)
   else infraNextTimeout m = TimeOutNever).
Proof.
  intros Hwf. unfold infraRefedTimeout, infraNextTimeout.
  pose proof (wf_listed _ Hwf) as Hl. pose proof (wf_sorted _ Hwf) as Hs.
  destruct (nextTimeouts m) as [|[k0 i0] l]; split_and!; try done.
  - split; [done|]. intros (i & e & He & Ha). destruct (wf_active_deadline _ Hwf _ _ He Ha) as [k Hk].
    exfalso. apply (not_elem_of_nil (k, i)). apply Hl. eauto.
  - intros i e k He Ha Hk. exfalso. apply (not_elem_of_nil (k, i)). apply Hl. eauto.
  - split; [|done]. intros _. destruct (proj1 (Hl k0 i0)) as (e & ? & ? & ?); [left|]. eauto.
  - intros i e k He Ha Hk. assert (Hin : (k, i) ∈ (k0, i0) :: l) by (apply Hl; eauto).
    apply elem_of_cons in Hin as [?|Hin]; [simplify_eq; lia|].
    inversion Hs as [|? ? _ Hall]; subst. rewrite Forall_forall in Hall. apply (Hall _ Hin).
  - destruct (proj1 (Hl k0 i0)) as (e & ? & ? & ?); [left|]. eauto.
Qed.

(** A timer set for [ms] milliseconds at [now] fires exactly when the
    event loop looks at [now + ms] (at least 1 ms) or later: looking at [later]
    right after setting it, its handler is among those run if and only if the
    deadline has passed, and until then it stays active under that deadline. *)
Theorem setTimeout_fires (f : CB) (ms now later : Z) (m : t CB H) :
  wf m → ms_ok ms → (0 ≤ now < 2 ^ 63)%Z → timers m !! u64 (lastId m + 1) = None →
  ∃ m1 i m2 hs, setTimeout f ms now m = Ok (m1, i) ∧ take_due later m1 = Ok (m2, hs) ∧
    if bool_decide (now + the_ms ms * 1000 ≤ later)%Z
    then mkHandler (Some f) None ∈ hs ∧ (∀ e, timers m2 !! i = Some e → active e = false)
    else ∃ e, timers m2 !! i = Some e ∧ active e = true ∧
              nextTimeout e = Some (now + the_ms ms * 1000)%Z.
Proof.
  intros Hwf Hms Hnow Hfresh. unfold setTimeout, appSetTimeout_cb.
  destruct (appSetTimeoutImpl_spec (mkHandler (Some f) None) ms now _ Hwf Hms)
    as (m1 & i & -> & Hwf1 & Hres).
  destruct (Hres Hfresh) as [-> Hts].
  assert (Hd : (0 ≤ the_ms ms * 1000 < 2 ^ 62)%Z).
  { unfold the_ms. unfold ms_ok in Hms. case_bool_decide; lia. }
  rewrite (u64_small (now + the_ms ms * 1000)) in Hts by lia.
  set (i := u64 (lastId m + 1)) in *. set (e := mkEntry _ _ _ _ _ _ _) in Hts.
  assert (He : timers m1 !! i = Some e) by (rewrite Hts; apply lookup_insert_eq).
  destruct (take_due_spec later _ Hwf1) as (m2 & hs & due & Ht & _ & Happ & _ & Hgt & Hts2 & _ & Hhs).
  exists m1, i, m2, hs. split; [done|]. split; [done|].
  pose proof (Hts2 _ _ He) as Hi. unfold is_due in Hi. cbn [active nextTimeout e andb] in Hi.
  destruct (bool_decide_reflect (now + the_ms ms * 1000 ≤ later)%Z) as [Hle|Hlt].
  - split; [|intros e' He'; rewrite Hi in He'; unfold fired in He'; simpl in He'; by simplify_eq].
    assert (Hm : ((now + the_ms ms * 1000)%Z, i) ∈ nextTimeouts m1).
    { apply (wf_listed _ Hwf1). exists e. done. }
    rewrite Happ in Hm. apply elem_of_app in Hm as [Hm|Hm].
    + apply list_elem_of_lookup in Hm as [n Hn].
      destruct (Forall2_lookup_l _ _ _ _ _ Hhs Hn) as (hd & Hhd & e' & He' & <-).
      simpl in He'. rewrite He in He'. simplify_eq. by eapply list_elem_of_lookup_2.
    + rewrite Forall_forall in Hgt. specialize (Hgt _ Hm). simpl in Hgt. lia.
  - exists e. done.
Qed.

(** the timer is cancelled and its entry destroyed *)
Lemma clearTimeout_deletes (to : Z) (m : t CB H) :
  wf m → to ≠ 0%Z →
  ∃ m', clearTimeout to m = Ok m' ∧ wf m' ∧ timers m' = delete to (timers m).
Proof.
  intros Hwf Hto. unfold clearTimeout.
  destruct (appClearTimeout_spec to _ Hwf) as (m1 & -> & Hwf1 & Hts & _). cbn [mbind res_bind].
  exists (Timeout_destroy to m1). split; [done|]. split; [by apply Timeout_destroy_wf|].
  unfold Timeout_destroy, appTimeoutDestructor. rewrite bool_decide_eq_true_2 by done.
  rewrite Hts, lookup_alter_eq. apply map_eq. intros j.
  destruct (timers m !! to) as [e|] eqn:He; simpl; destruct (decide (j = to)) as [->|Hne].
  - by rewrite !lookup_delete_eq.
  - by rewrite !lookup_delete_ne, lookup_alter_ne.
  - by rewrite Hts, lookup_delete_eq, lookup_alter_eq, He.
  - by rewrite Hts, lookup_delete_ne, lookup_alter_ne.
Qed.

(** [clearTimeout] discards the timer along with cancelling it: the
    temporary handle it builds from the id destroys the entry, so that a later
    [refreshTimeout] through the handle the user still holds does nothing. *)
Theorem clearTimeout_discards (to now : Z) (m : t CB H) :
  wf m → to ≠ 0%Z →
  ∃ m', clearTimeout to m = Ok m' ∧ wf m' ∧ timers m' = delete to (timers m) ∧
        refreshTimeout to now m' = Ok m'.
Proof.
  intros Hwf Hto. destruct (clearTimeout_deletes to m Hwf Hto) as (m' & Hm' & Hwf' & Hts).
  exists m'. split_and!; [done..|]. unfold refreshTimeout, appRefresh. by rewrite Hts, lookup_delete_eq.
Qed.

(** A negative delay, which the code means to replace by the largest one,
    and a delay of more than 2147483 milliseconds overflow the [int] product
    [ms * 1000]: behaviour is undefined. *)
Theorem setTimeout_overflow (f : CB) (ms now : Z) (m : t CB H) :
  (ms < 0 ∨ 2147483 < ms)%Z → setTimeout f ms now m = UB.
Proof.
  intros Hms. unfold setTimeout, appSetTimeout_cb, appSetTimeoutImpl.
  unfold INT32_MAX, in_i32. rewrite (bool_decide_eq_false_2 (ms = 0)%Z) by lia.
  destruct (bool_decide_reflect (ms < 0)%Z); by rewrite bool_decide_eq_false_2 by lia.
Qed.

End spec.

(** [getPollTimeout] never lets [poll] sleep more than a millisecond past
    the deadline and, the cap of an [int] apart, never wakes it before; without
    a deadline the wait is unbounded, past it there is none. *)
Theorem getPollTimeout_bounds (next now : Z) :
  (0 ≤ now ≤ UINT64_MAX)%Z → (0 ≤ next ≤ UINT64_MAX)%Z →
  let p := getPollTimeout next now in
  (next = TimeOutNever → p = -1)%Z ∧
  (next ≠ TimeOutNever → next ≤ now → p = 0)%Z ∧
  (next ≠ TimeOutNever → now < next →
     0 < p ≤ INT32_MAX ∧ p * 1000 ≤ next - now + 1000 ∧ (p < INT32_MAX → next - now < p * 1000))%Z.
Proof.
  intros Hnow Hnext. cbv zeta. unfold getPollTimeout, INT32_MAX, TimeOutNever, UINT64_MAX in *.
  pose proof (Z.div_mod (next - now) 1000 ltac:(lia)).
  pose proof (Z.mod_pos_bound (next - now) 1000 ltac:(lia)).
  repeat case_bool_decide; split_and!; intros; try lia; split_and!; lia.
Qed.

(** ** Concrete instances *)

(** callbacks that refresh the timer they are named after *)
Definition refresher (f : nat) (s : t nat nat * nat) : res (t nat nat * nat) :=
  m ← appRefresh (Z.of_nat f) 5000 s.1; Ok (m, S s.2).

(** two timers: 1 is due at 4000, 2 at 2000 *)
Definition two_timers : t nat nat :=
  match '(m, _) ← setTimeout 7 3 1000 init; setTimeout 8 0 1000 m with
  | Ok (m, _) => m
  | _ => init
  end.

Lemma two_timers_wf : wf two_timers.
Proof.
  unfold two_timers, setTimeout, appSetTimeout_cb.
  destruct (appSetTimeoutImpl_spec (mkHandler (Some 7) None) 3 1000 (init (CB:=nat) (H:=nat)))
    as (m1 & i1 & -> & Hwf1 & _); [apply wf_init|vm_compute; split; discriminate|].
  cbn [mbind res_bind].
  destruct (appSetTimeoutImpl_spec (mkHandler (Some 8) None) 0 1000 m1)
    as (m2 & i2 & -> & Hwf2 & _); [done|vm_compute; split; discriminate|done].
Qed.

Lemma refresher_law : user_law refresher refresher.
Proof.
  intros s Hwf. split; intros f; unfold refresher;
    destruct (appRefresh_wf (Z.of_nat f) 5000 _ Hwf) as (m & -> & Hm); by eexists.
Qed.

Lemma timers_ops_safe_witness :
  ∃ s', exec refresher refresher (λ _ _ w, w) (OpEvents 4000) (two_timers, 0) = Ok s' ∧ wf s'.1.
Proof.
  apply timers_ops_safe.
  - apply refresher_law.
  - exact I.
  - apply two_timers_wf.
Defined.

(** callbacks that write down that they were called *)
Definition note (f : nat) (s : t nat nat * list nat) : res (t nat nat * list nat) := Ok (s.1, s.2 ++ [f]).

Lemma due_timers_fire_witness :
  (∃ m', infraTimeoutEvents note note (λ _ _ w, w) 4000 (two_timers, []) = Ok (m', [8; 7])) ∧
  ∃ m' hs ids,
    (∀ w s', infraTimeoutEvents note note (λ _ _ w, w) 4000 (two_timers, w) = Ok s' ↔
             fires note note (λ _ _ w, w) hs (m', w) s') ∧
    (∀ i, i ∈ ids ↔ ∃ e, timers two_timers !! i = Some e ∧ is_due 4000 e = true) ∧ NoDup ids ∧
    StronglySorted (λ i j, ∃ e e' k k', timers two_timers !! i = Some e ∧ timers two_timers !! j = Some e' ∧
      nextTimeout e = Some k ∧ nextTimeout e' = Some k' ∧ (k ≤ k')%Z) ids ∧
    Forall2 (λ i hd, ∃ e, timers two_timers !! i = Some e ∧ handler e = hd) ids hs ∧
    (∀ i, timers m' !! i = timers two_timers !! i ≫= λ e, if is_due 4000 e then fired e else Some e).
Proof.
  split; [eexists; vm_compute; reflexivity|]. apply due_timers_fire, two_timers_wf.
Defined.

Lemma next_timeout_is_minimum_witness :
  infraNextTimeout two_timers = 2000%Z ∧
  (infraRefedTimeout two_timers = true ↔ ∃ i e, timers two_timers !! i = Some e ∧ active e = true) ∧
  (∀ i e k, timers two_timers !! i = Some e → active e = true → nextTimeout e = Some k →
     (infraNextTimeout two_timers ≤ k)%Z) ∧
  (if infraRefedTimeout two_timers
   then ∃ i e, timers two_timers !! i = Some e ∧ active e = true ∧
               nextTimeout e = Some (infraNextTimeout two_timers)
   else infraNextTimeout two_timers = TimeOutNever).
Proof. split; [vm_compute; reflexivity|]. apply next_timeout_is_minimum, two_timers_wf. Defined.

Lemma setTimeout_fires_witness :
  ∃ m1 i m2 hs, setTimeout 9 5 1000 two_timers = Ok (m1, i) ∧ take_due 6000 m1 = Ok (m2, hs) ∧
    mkHandler (Some 9) None ∈ hs ∧ (∀ e, timers m2 !! i = Some e → active e = false).
Proof.
  apply (setTimeout_fires 9 5 1000 6000 two_timers).
  - apply two_timers_wf.
  - vm_compute. split; discriminate.
  - lia.
  - vm_compute. reflexivity.
Defined.

Lemma clearTimeout_discards_witness :
  ∃ m', clearTimeout 1 two_timers = Ok m' ∧ wf m' ∧ timers m' = delete 1%Z (timers two_timers) ∧
        refreshTimeout 1 2000 m' = Ok m'.
Proof. apply clearTimeout_discards; [apply two_timers_wf|discriminate]. Defined.

Lemma setTimeout_overflow_witness : setTimeout 7 (-1) 0 two_timers = UB.
Proof. apply setTimeout_overflow. left. reflexivity. Defined.

Lemma getPollTimeout_bounds_witness :
  getPollTimeout 2500 1000 = 2%Z ∧ (2500 - 1000 < getPollTimeout 2500 1000 * 1000)%Z.
Proof.
  split; [vm_compute; reflexivity|].
  apply (getPollTimeout_bounds 2500 1000); vm_compute; try (split; discriminate); try discriminate; reflexivity.
Defined.
End TimersSpec.
