(* ===== verification/Events.v ===== *)
(** * Event queues and emitters (src/ev_queue.h, src/tcp_socket/tcp_socket_base.h,
    include/nodecpp/event.h)

    [Module EvQueue] models the queue of events of one turn of the loop and of
    the immediates, [Module PendingEvQueue] the events tagged with the index of
    their socket, [Module EventEmitter] and [Module ListenerEmitter] the two
    emitters ([EventEmitter], [EventEmitterSupportingListeners]). A callback is a
    value of an arbitrary type; what it does when called is a parameter that may
    also act on the container it is called from, as user code can. *)

From S2P Require Import Prelude.
From Stdlib Require Import Lia.

Module EvQueue.
Section defs.
Context {E W : Type}.

(** [evQueue], oldest first *)
Definition t : Type := list E.

Definition empty (q : t) : bool := match q with [] => true | _ => false end.
Definition add (ev : E) (q : t) : t := q ++ [ev].

(** What running an event does: the world it leaves, the events it adds to the
    queue it is run from, and whether it ends in an exception. *)
Record outcome : Type := mkOutcome { world : W; added : list E; threw : bool }.
Context (run : E → W → res outcome).

(** [emit(ev)]: an exception is logged and goes no further *)
Definition emit_one (ev : E) (w : W) : res (W * list E) :=
  o ← run ev w; Ok (world o, added o).

(** the range-for of [emit]: a [push_back] to the vector it iterates
    invalidates its end iterator *)
Fixpoint emit_loop (evs : list E) (w : W) : res W :=
  match evs with
  | [] => Ok w
  | ev :: evs' =>
      '(w', more) ← emit_one ev w;
      REQUIRE empty more ;;
      emit_loop evs' w'
  end.

Definition emit (q : t) (w : W) : res (t * W) :=
  w' ← emit_loop q w;
  Ok ([], w').
End defs.
Arguments t E : clear implicits.
Arguments outcome E W : clear implicits.
End EvQueue.

Module PendingEvQueue.
Section defs.
Context {E : Type}.

Definition t : Type := list (nat * E).

Definition add (ix : nat) (ev : E) (q : t) : t := q ++ [(ix, ev)].

Fixpoint forward (evs : t) (ev : EvQueue.t E) : EvQueue.t E :=
  match evs with
  | [] => ev
  | (_, e) :: evs' => forward evs' (EvQueue.add e ev)
  end.
Definition toQueue (q : t) (ev : EvQueue.t E) : t * EvQueue.t E := ([], forward q ev).

Fixpoint remove (ix : nat) (q : t) : t :=
  match q with
  | [] => []
  | (i, e) :: q' => if bool_decide (ix = i) then remove ix q' else (i, e) :: remove ix q'
  end.

Lemma forward_app evs ev : forward evs ev = ev ++ evs.*2.
Proof.
  revert ev. induction evs as [|[i e] evs IH]; intros ev; simpl; [by rewrite app_nil_r|].
  rewrite IH. unfold EvQueue.add. by rewrite <-app_assoc.
Qed.

Lemma remove_filter ix (q : list (nat * E)) : remove ix q = filter (λ p, p.1 ≠ ix) q.
Proof.
  induction q as [|[i e] q IH]; simpl; [done|]. case_bool_decide as H.
  - rewrite filter_cons_False; naive_solver.
  - rewrite filter_cons_True; [by rewrite IH|naive_solver].
Qed.
End defs.
Arguments t E : clear implicits.
End PendingEvQueue.

Module EventEmitter.
Section defs.
Context {CB W : Type}.

(** [callbacks]: whether to call it once, and the callback *)
Definition t : Type := list (bool * CB).

Definition on (cb : CB) (l : t) : t := l ++ [(false, cb)].
Definition once (cb : CB) (l : t) : t := l ++ [(true, cb)].
Definition prependListener (cb : CB) (l : t) : t := (false, cb) :: l.
Definition listenerCount (l : t) : nat := length l.

(** A callback may register other callbacks while it runs. *)
Context (call : CB → t * W → res (t * W)).

(** the copy of the callbacks that stay *)
Fixpoint keep (l : t) : t :=
  match l with
  | [] => []
  | (false, cb) :: l' => (false, cb) :: keep l'
  | (true, _) :: l' => keep l'
  end.

Fixpoint call_all (other : t) (s : t * W) : res (t * W) :=
  match other with
  | [] => Ok s
  | (_, cb) :: other' => s' ← call cb s; call_all other' s'
  end.

(** after [std::swap] the member holds the copy and the loop runs on the
    callbacks there were *)
Definition emit (s : t * W) : res (t * W) := call_all s.1 (keep s.1, s.2).

Lemma keep_filter (l : list (bool * CB)) : keep l = filter (λ p, p.1 = false) l.
Proof.
  induction l as [|[[] cb] l IH]; simpl; [done|..].
  - by rewrite filter_cons_False.
  - rewrite filter_cons_True by done. by rewrite IH.
Qed.
End defs.
Arguments t CB : clear implicits.
End EventEmitter.

Module ListenerEmitter.
Section defs.
Context {CB L W : Type}.

(** [struct Element]: a lambda or a listener; a [soft_ptr] to a listener that
    was deleted is null *)
Inductive target : Type := lambda (cb : CB) | listener (p : option L).
Record Element : Type := mkElement { once_ : bool; what : target }.
Definition t : Type := list Element.

Definition on (cb : CB) (l : t) : t := l ++ [mkElement false (lambda cb)].
Definition once (cb : CB) (l : t) : t := l ++ [mkElement true (lambda cb)].
Definition on_listener (p : option L) (l : t) : res t :=
  ASSERT bool_decide (is_Some p) ;; Ok (l ++ [mkElement false (listener p)]).
Definition once_listener (p : option L) (l : t) : res t :=
  ASSERT bool_decide (is_Some p) ;; Ok (l ++ [mkElement true (listener p)]).
Definition listenerCount (l : t) : nat := length l.

Definition alive (e : Element) : bool :=
  match what e with lambda _ => true | listener p => bool_decide (is_Some p) end.

Fixpoint keep (l : t) : res t :=
  match l with
  | [] => Ok []
  | e :: l' =>
      if once_ e then keep l'
      else ASSERT alive e ;; k ← keep l'; Ok (e :: k)
  end.

(** what a callback or a listener's member function does, and whether it
    changes the list of callbacks *)
Context (call : CB → W → res (W * bool)) (onMyEvent : L → W → res (W * bool)).

Definition fire (e : Element) (w : W) : res (W * bool) :=
  match what e with
  | lambda cb => call cb w
  | listener (Some p) => onMyEvent p w
  | listener None => AssertFail
  end.

(** the loop iterates the member itself, so a change to it is undefined *)
Fixpoint fire_all (l : t) (w : W) : res W :=
  match l with
  | [] => Ok w
  | e :: l' =>
      '(w', changed) ← fire e w;
      REQUIRE negb changed ;;
      fire_all l' w'
  end.

Definition emit (s : t * W) : res (t * W) :=
  callbacks ← keep s.1;
  w ← fire_all callbacks s.2;
  Ok (callbacks, w).

Lemma keep_spec (l k : list Element) : keep l = Ok k → k = filter (λ e, once_ e = false) l.
Proof.
  revert k. induction l as [|e l IH]; intros k H; cbn [keep] in H; [by simplify_eq|].
  destruct (once_ e) eqn:Ho.
  - rewrite filter_cons_False by congruence. by apply IH.
  - inv_res. rewrite filter_cons_True by done. f_equal. by apply IH.
Qed.

Lemma keep_alive l :
  Forall (λ e, alive e = true) l → ∃ k, keep l = Ok k ∧ Forall (λ e, alive e = true) k.
Proof.
  induction 1 as [|e l He _ (k & IH & Hk)]; cbn [keep]; [by eexists|].
  destruct (once_ e); [by eauto|]. rewrite He, IH. eexists; split; [done|]. by constructor.
Qed.
End defs.
Arguments target CB L : clear implicits.
Arguments Element CB L : clear implicits.
Arguments t CB L : clear implicits.
End ListenerEmitter.

(** ** What queues and emitters promise *)
Module EventsSpec.

Section spec.
Context {E : Type}.

(** An event that logs itself; [f] tells which throw and which add events. *)
Definition logging (f : E → bool * list E) (ev : E) (w : list E) : res (EvQueue.outcome E (list E)) :=
  Ok (EvQueue.mkOutcome (w ++ [ev]) (f ev).2 (f ev).1).

(** [EvQueue::emit] runs every queued event exactly once, in the order they
    were added, whether or not events before it threw, and leaves the queue
    empty, provided no event adds to the queue it is run from. An event that
    does (a [setInmediate] called from an immediate) makes the loop run on
    invalidated iterators. *)
Theorem emit_runs_all_in_order (f : E → bool * list E) (q : EvQueue.t E) (w : list E) :
  EvQueue.emit (logging f) q w =
    if decide (Forall (λ ev, (f ev).2 = []) q) then Ok ([], w ++ q) else UB.
Proof.
  unfold EvQueue.emit.
  assert (Hloop : EvQueue.emit_loop (logging f) q w =
    if decide (Forall (λ ev, (f ev).2 = []) q) then Ok (w ++ q) else UB).
  { revert w. induction q as [|ev q IH]; intros w; cbn [EvQueue.emit_loop].
    - by rewrite app_nil_r.
    - unfold EvQueue.emit_one.
      change (logging f ev w) with (Ok (EvQueue.mkOutcome (w ++ [ev]) (f ev).2 (f ev).1)). cbn [mbind res_bind EvQueue.world EvQueue.added].
      destruct ((f ev).2) as [|x l] eqn:Hf; cbn [EvQueue.empty].
      + rewrite IH, <-app_assoc.
        assert (Hiff : Forall (λ ev, (f ev).2 = []) q ↔ Forall (λ ev, (f ev).2 = []) (ev :: q)).
        { rewrite Forall_cons. naive_solver. }
        destruct (decide (Forall _ q)) as [H1|H1], (decide (Forall _ (ev :: q))) as [H2|H2]; tauto || done.
      + destruct (decide (Forall _ (ev :: q))) as [HH|HH]; [|done].
        apply Forall_cons in HH as [HH _]. congruence. }
  rewrite Hloop. by case_decide.
Qed.

(** Events of a socket that is closed are discarded: what [toQueue] hands on
    after [remove(ix)] are the pending events of the other sockets, in the
    order they were added, and nothing stays pending. *)
Theorem remove_discards_socket (ix : nat) (q : list (nat * E)) (ev : EvQueue.t E) :
  PendingEvQueue.toQueue (PendingEvQueue.remove ix q) ev =
    ([], ev ++ (filter (λ p, p.1 ≠ ix) q).*2) ∧
  (∀ i e, PendingEvQueue.remove ix (PendingEvQueue.add i e q) =
     if bool_decide (i = ix) then PendingEvQueue.remove ix q
     else PendingEvQueue.add i e (PendingEvQueue.remove ix q)).
Proof.
  unfold PendingEvQueue.toQueue, PendingEvQueue.add.
  rewrite PendingEvQueue.forward_app, PendingEvQueue.remove_filter. split; [done|]. intros i e.
  rewrite PendingEvQueue.remove_filter, filter_app. case_bool_decide.
  - rewrite filter_cons_False by naive_solver. by rewrite app_nil_r.
  - by rewrite filter_cons_True by naive_solver.
Qed.

(** [EventEmitter::emit] calls the callbacks registered when it starts, each
    once and in order, whatever they do to the list while they run ([g]); the
    [once] ones are off the list before the first call, so that the next
    [emit] calls the others and what was registered meanwhile. *)
Theorem emitter_calls_snapshot (g : E → EventEmitter.t E → EventEmitter.t E)
    (l : list (bool * E)) (w : list E) :
  EventEmitter.emit (λ cb '(l, w), Ok (g cb l, w ++ [cb])) (l, w) =
    Ok (foldl (λ k cb, g cb k) (filter (λ p, p.1 = false) l) l.*2, w ++ l.*2).
Proof.
  unfold EventEmitter.emit. cbn [fst snd]. rewrite EventEmitter.keep_filter.
  generalize (filter (λ p : bool * E, p.1 = false) l). intros k.
  revert k w. induction l as [|[b cb] l IH]; intros k w; simpl; [by rewrite app_nil_r|].
  rewrite IH. by rewrite <-app_assoc.
Qed.
End spec.

(** [EventEmitterSupportingListeners::emit] iterates the list it kept and
    not the list there was: callbacks and listeners registered with [once] are
    dropped without ever being called; the others are called in order. *)
Theorem listener_emitter_once_never_called {CB L} (l : list (ListenerEmitter.Element CB L))
    (w : list (ListenerEmitter.target CB L)) :
  Forall (λ e, ListenerEmitter.alive e = true) l →
  ListenerEmitter.emit (λ cb w, Ok (w ++ [ListenerEmitter.lambda cb], false))
    (λ p w, Ok (w ++ [ListenerEmitter.listener (Some p)], false)) (l, w) =
  let regular := filter (λ e, ListenerEmitter.once_ e = false) l in
  Ok (regular, w ++ (ListenerEmitter.what <$> regular)).
Proof.
  intros Halive. unfold ListenerEmitter.emit. cbn [fst snd].
  destruct (ListenerEmitter.keep_alive l Halive) as (k & Hk & Hka). rewrite Hk. cbn [mbind res_bind].
  apply ListenerEmitter.keep_spec in Hk. cbv zeta. rewrite <-Hk. clear Hk Halive.
  match goal with |- context [ListenerEmitter.fire_all ?c ?m k w] =>
    assert (Hf : ListenerEmitter.fire_all c m k w = Ok (w ++ (ListenerEmitter.what <$> k))) end.
  { revert w. induction Hka as [|e k He _ IH]; intros w; cbn [ListenerEmitter.fire_all].
    - by rewrite app_nil_r.
    - unfold ListenerEmitter.fire, ListenerEmitter.alive in *.
      destruct (ListenerEmitter.what e) as [cb|[p|]] eqn:Hw; [..|by apply bool_decide_eq_true_1 in He as [? ?]];
        cbn [mbind res_bind negb]; rewrite IH, fmap_cons, Hw, <-app_assoc; done. }
  by rewrite Hf.
Qed.

Lemma listener_emitter_once_never_called_witness :
  ListenerEmitter.emit (λ (cb : nat) w, Ok (w ++ [ListenerEmitter.lambda cb], false))
    (λ (p : nat) w, Ok (w ++ [ListenerEmitter.listener (Some p)], false))
    (ListenerEmitter.once 5 (ListenerEmitter.on 4 []), []) =
  Ok ([ListenerEmitter.mkElement false (ListenerEmitter.lambda 4)], [ListenerEmitter.lambda 4]).
Proof.
  apply (listener_emitter_once_never_called (ListenerEmitter.once 5 (ListenerEmitter.on 4 [])) []).
  repeat constructor.
Defined.
End EventsSpec.
