(* ===== verification/Handlers.v ===== *)
(** * Registered member-function handlers (include/nodecpp/net_common.h)

    [Module Handlers] models the lists of handlers a class registers for its
    events ([UserDefHandlersBase], [UserDefHandlers]), the compact storage of
    the per-object copy ([UserDefHandlersWithOptimizedStorage]) and the table of
    patterns per class ([UserHandlerClassPatterns]). [HandlersSpec] shows that
    the compact storage behaves as the plain list. *)

From S2P Require Import Prelude.
From Stdlib Require Import Lia.

Module Handlers.
Section defs.
(** function pointers, objects and (for the class patterns) type indices *)
Context {Fn Obj : Type} `{EqDecision Fn, EqDecision Obj}.

(** [None] is [nullptr] *)
Record HandlerInstance : Type := mkInst { handler : option Fn; object : option Obj }.

#[export] Instance HandlerInstance_eq_dec : EqDecision HandlerInstance.
Proof. solve_decision. Defined.

(** ** UserDefHandlersBase and UserDefHandlers *)
Definition base : Type := list HandlerInstance.

Definition base_willHandle (b : base) : bool := bool_decide (length b ≠ 0).

Definition with_default (dflt : option Obj) (i : HandlerInstance) : HandlerInstance :=
  match object i with None => mkInst (handler i) dflt | Some _ => i end.

Definition base_from (pattern : base) (dflt : option Obj) (b : base) : res base :=
  ASSERT bool_decide (length b = 0) ;;
  Ok (with_default dflt <$> pattern).

(** both overloads of [add] ([o = None] for the one without an object): the
    loop asserts for each handler present *)
Fixpoint not_present (f : Fn) (o : option Obj) (b : base) : bool :=
  match b with
  | [] => true
  | h :: b' => (bool_decide (handler h ≠ Some f) || bool_decide (object h ≠ o)) && not_present f o b'
  end.
Definition add (f : Fn) (o : option Obj) (b : base) : res base :=
  ASSERT not_present f o b ;;
  Ok (b ++ [mkInst (Some f) o]).

(** both overloads of [remove]: the first match goes *)
Fixpoint remove (f : Fn) (o : option Obj) (b : base) : base :=
  match b with
  | [] => []
  | h :: b' =>
      if bool_decide (handler h = Some f) && bool_decide (object h = o) then b'
      else h :: remove f o b'
  end.

(** ** UserDefHandlersWithOptimizedStorage *)
Inductive Type_ : Type := uninitialized | zero | one | two | many.

#[export] Instance Type__eq_dec : EqDecision Type_.
Proof. solve_decision. Defined.

(** [basebytes] holds indeterminate bytes, up to two instances, or a vector;
    reading it as another type than it was written is undefined *)
Inductive storage : Type :=
  | raw
  | arr (a0 : HandlerInstance) (a1 : option HandlerInstance)
  | vec (v : list HandlerInstance).

Record opt : Type := mkOpt { type : Type_; basebytes : storage }.
Definition opt_init : opt := mkOpt uninitialized raw.

Definition handlers_a0 (s : storage) : res HandlerInstance :=
  match s with arr a0 _ => Ok a0 | _ => UB end.
Definition handlers_a1 (s : storage) : res HandlerInstance :=
  match s with arr _ (Some a1) => Ok a1 | _ => UB end.
Definition handlers_v (s : storage) : res (list HandlerInstance) :=
  match s with vec v => Ok v | _ => UB end.

Definition willHandle (h : opt) : bool :=
  bool_decide (type h ≠ uninitialized) && bool_decide (type h ≠ zero).

Definition from (pattern : base) (dflt : option Obj) (h : opt) : res opt :=
  ASSERT bool_decide (type h = uninitialized) ;;
  match pattern with
  | [] => Ok (mkOpt zero (basebytes h))
  | [p0] => Ok (mkOpt one (arr (with_default dflt p0) None))
  | [p0; p1] => Ok (mkOpt two (arr (with_default dflt p0) (Some (with_default dflt p1))))
  | _ => Ok (mkOpt many (vec (with_default dflt <$> pattern)))
  end.

Section execute.
Context {W : Type}.
(** the user's member function; a null function pointer is undefined *)
Context (run : Fn → Obj → W → res W).

Definition call (i : HandlerInstance) (w : W) : res W :=
  ASSERT bool_decide (is_Some (object i)) ;;
  match handler i, object i with
  | Some f, Some o => run f o w
  | _, _ => UB
  end.

Fixpoint call_each (l : list HandlerInstance) (w : W) : res W :=
  match l with
  | [] => Ok w
  | i :: l' => w' ← call i w; call_each l' w'
  end.

Definition execute (h : opt) (w : W) : res W :=
  ASSERT bool_decide (type h ≠ uninitialized) ;;
  ASSERT bool_decide (type h ≠ zero) ;;
  match type h with
  | one =>
      a0 ← handlers_a0 (basebytes h);
      call a0 w
  | two =>
      a0 ← handlers_a0 (basebytes h);
      w ← call a0 w;
      a1 ← handlers_a1 (basebytes h);
      call a1 w
  | _ =>
      ASSERT bool_decide (type h = many) ;;
      v ← handlers_v (basebytes h);
      call_each v w
  end.
End execute.

(** ** UserHandlerClassPatterns *)
Context {Idx U : Type} `{Countable Idx} (UserHandlerType : U).

(** a pattern, and whether an instance was created from it *)
Definition patterns : Type := gmap Idx (U * bool).

Definition getPattern (idx : Idx) (p : patterns) : patterns * (U * bool) :=
  match p !! idx with
  | Some r => (p, r)
  | None => (<[idx := (UserHandlerType, false)]> p, (UserHandlerType, false))
  end.

(** the reference returned is used by the caller to update the pattern: [upd] *)
Definition getPatternForUpdate (idx : Idx) (upd : U → res U) (p : patterns) : res patterns :=
  let '(p, (u, used)) := getPattern idx p in
  ASSERT negb used ;;
  u' ← upd u;
  Ok (<[idx := (u', used)]> p).

Definition getPatternForApplying (idx : Idx) (p : patterns) : patterns * U :=
  let '(p, (u, _)) := getPattern idx p in
  (<[idx := (u, true)]> p, u).

(** ** Lemmas *)
Lemma not_present_spec f o b : not_present f o b = true ↔ mkInst (Some f) o ∉ b.
Proof.
  induction b as [|[hf ho] b IH]; cbn [not_present handler object].
  - split; [intros _; apply not_elem_of_nil|done].
  - rewrite andb_true_iff, orb_true_iff, !bool_decide_eq_true, IH, not_elem_of_cons.
    destruct (decide (hf = Some f)), (decide (ho = o)); subst; naive_solver.
Qed.

Lemma remove_not_in f o b : mkInst (Some f) o ∉ b → remove f o b = b.
Proof.
  induction b as [|[hf ho] b IH]; cbn [remove handler object]; [done|].
  intros [Hne Hni]%not_elem_of_cons. rewrite IH by done.
  repeat case_bool_decide; simplify_eq; done.
Qed.

Lemma handlers_remove_filter b f o :
  NoDup b → remove f o b = filter (.≠ mkInst (Some f) o) b.
Proof.
  induction 1 as [|[hf ho] b Hni Hnd IH]; cbn [remove handler object]; [done|].
  destruct (decide (mkInst hf ho = mkInst (Some f) o)) as [Heq|Hne].
  - simplify_eq. rewrite !bool_decide_eq_true_2 by done. simpl.
    rewrite filter_cons_False by naive_solver.
    rewrite <-IH. by rewrite remove_not_in.
  - rewrite filter_cons_True by done. rewrite <-IH.
    repeat case_bool_decide; simplify_eq; done.
Qed.
End defs.
Arguments HandlerInstance : clear implicits.
Arguments base : clear implicits.
Arguments opt : clear implicits.
Arguments storage : clear implicits.
Arguments patterns Idx U {_ _} : assert.
End Handlers.

Module HandlersSpec.
Import Handlers.

Section spec.
Context {Fn Obj W : Type} `{EqDecision Fn, EqDecision Obj}.
Context (run : Fn → Obj → W → res W).

(** The compact storage refines the plain list of handlers: for every
    pattern and default object, [from] succeeds on a fresh object, [willHandle]
    tells whether the list has a handler, and if so [execute] does what calling
    the handlers of the list in order does, null objects replaced by the default one
    (failures and effects included): no read of the storage goes through the
    wrong type, whatever the number of handlers. *)
Theorem optimized_storage_refines (pattern : base Fn Obj) (dflt : option Obj) :
  ∃ h b, from pattern dflt opt_init = Ok h ∧ base_from pattern dflt [] = Ok b ∧
    willHandle h = base_willHandle b ∧
    (willHandle h = true → ∀ w, execute run h w = call_each run b w) ∧
    (willHandle h = false → ∀ w, execute run h w = AssertFail).
Proof.
  exists (match pattern with
     | [] => mkOpt zero raw
     | [p0] => mkOpt one (arr (with_default dflt p0) None)
     | [p0; p1] => mkOpt two (arr (with_default dflt p0) (Some (with_default dflt p1)))
     | _ => mkOpt many (vec (with_default dflt <$> pattern))
     end), (with_default dflt <$> pattern).
  assert (Hret : ∀ m : res W, (m ≫= λ w, Ok w) = m) by (by intros []).
  destruct pattern as [|p0 [|p1 [|p2 pattern]]]; split_and!; try done.
  - intros _ w. simpl. by rewrite Hret.
  - intros _ w. simpl. unfold execute; simpl.
    destruct (call run (with_default dflt p0) w); simpl; by rewrite ?Hret.
Qed.

End spec.

(** [add] and [remove] keep a set: starting from lists without repetition,
    [add] refuses exactly the handlers that are present and appends the others,
    and [remove] takes out exactly its argument, an [add] that is then undone
    being the identity. *)
Theorem handlers_no_duplicates {Fn Obj} `{EqDecision Fn, EqDecision Obj} (f : Fn) (o : option Obj) (b : list (HandlerInstance Fn Obj)) :
  NoDup b →
  (if decide (mkInst (Some f) o ∈ b) then add f o b = AssertFail
   else ∃ b', add f o b = Ok b' ∧ NoDup b' ∧ b' = b ++ [mkInst (Some f) o] ∧ remove f o b' = b) ∧
  remove f o b = filter (.≠ mkInst (Some f) o) b ∧ NoDup (remove f o b).
Proof.
  intros Hnd. unfold add. pose proof (not_present_spec f o b) as Hp.
  rewrite (handlers_remove_filter b f o Hnd). split; [|split; [done|by apply NoDup_filter]].
  case_decide as Hin.
  - destruct (not_present f o b); [|done]. exfalso. by apply Hp.
  - destruct (not_present f o b); [|exfalso; apply Hp in Hin; discriminate].
    assert (Hnd' : NoDup (b ++ [mkInst (Some f) o])).
    { apply NoDup_app. split_and!; [done| |apply NoDup_singleton]. intros x Hx Hx'.
      by apply list_elem_of_singleton in Hx' as ->. }
    eexists; split_and!; try done. rewrite (handlers_remove_filter _ f o Hnd'), filter_app.
    rewrite filter_cons_False by naive_solver. rewrite filter_nil, app_nil_r.
    apply filter_all. intros x Hx ->. done.
Qed.

(** Patterns are frozen by use: the handlers of a class can be updated until
    an instance is created from its pattern and never after, while the patterns
    of other classes are unaffected; every instance of a class sees the pattern
    as it was at the first creation. *)
Theorem patterns_frozen {Idx U} `{Countable Idx} (u0 : U) (idx : Idx) (p : patterns Idx U) :
  let '(p1, u) := getPatternForApplying u0 idx p in
  (∀ upd, getPatternForUpdate u0 idx upd p1 = AssertFail) ∧
  (getPatternForApplying u0 idx p1 = (p1, u)) ∧
  (∀ idx', idx' ≠ idx → p1 !! idx' = p !! idx').
Proof.
  unfold getPatternForApplying, getPatternForUpdate, getPattern, patterns in *.
  destruct (p !! idx) as [[u used]|] eqn:Hp; rewrite ?lookup_insert_eq; split_and!; try done.
  - by rewrite insert_insert_eq.
  - intros idx' Hne. by rewrite lookup_insert_ne.
  - by rewrite !insert_insert_eq.
  - intros idx' Hne. by rewrite !lookup_insert_ne.
Qed.

Lemma handlers_no_duplicates_witness :
  NoDup [mkInst (Some 2) (@None nat)] ∧
  (∃ b', add 3 (Some 1) [mkInst (Some 2) None] = Ok b' ∧ NoDup b' ∧
         b' = [mkInst (Some 2) None; mkInst (Some 3) (Some 1)] ∧ remove 3 (Some 1) b' = [mkInst (Some 2) None]).
Proof.
  split; [apply NoDup_singleton|].
  destruct (handlers_no_duplicates 3 (Some 1) [mkInst (Some 2) None] (NoDup_singleton _)) as [H _].
  destruct (decide _) as [Hin|_] in H; [|exact H].
  by apply list_elem_of_singleton in Hin.
Defined.
End HandlersSpec.
