(* ===== verification/Coro.v ===== *)
(** * Coroutines (include/nodecpp/awaitable.h)

    The frames of coroutines with their promises, the [awaitable] objects that
    calls return, and what [co_await] does with both. The body of a coroutine is
    a tree of what it does between suspensions; its recursion is structural, and
    what resumes another coroutine ([final_suspend]) takes fuel. [CoroSpec]
    compares it with ordinary calls. *)

From S2P Require Import Prelude.
From Stdlib Require Import Lia.

Module Coro.
Section defs.
(** values of [co_return] and exceptions *)
Context {V X : Type}.

(** The body of a coroutine. [Call] is [auto a = f(...)] and [Await] is
    [co_await a] for the object [a]; [Leaf] is the [co_await] of an awaiter that
    suspends until the infrastructure resumes it (socket_common.h), and gets the
    status it was resumed with; [Move] and [Destroy] are the move constructor and
    the destructor of [awaitable]. *)
Inductive prog : Type :=
  | Return (v : V)
  | Throw (x : X)
  | Call (f : prog) (k : nat → prog)
  | Await (a : nat) (k : V + X → prog)
  | Leaf (k : Z + X → prog)
  | Move (a : nat) (k : nat → prog)
  | Destroy (a : nat) (k : prog).

(** [promise_type_struct] with [CoroEData]; [e_pending] of the promise is not used *)
Record promise : Type := mkPromise {
  status : Z; isException : bool; e : option X; hr : option nat; myRetObject : option nat }.
Definition new_promise (a : nat) : promise := mkPromise 0 false None None (Some a).
Definition set_hr (x : option nat) (p : promise) : promise :=
  mkPromise (status p) (isException p) (e p) x (myRetObject p).
Definition set_object (x : option nat) (p : promise) : promise :=
  mkPromise (status p) (isException p) (e p) (hr p) x.
Definition set_edata (n : Z) (b : bool) (x : option X) (p : promise) : promise :=
  mkPromise n b x (hr p) (myRetObject p).

(** where a coroutine is suspended *)
Inductive suspension : Type := AtAwait (a : nat) (k : V + X → prog) | AtLeaf (k : Z + X → prog).
Record frame : Type := mkFrame { prom : promise; at_ : option suspension }.

(** [awaitable]: [coro] is [None] for a null handle; nothing sets [coroDestroyed] *)
Record awaitable : Type := mkAwaitable {
  value : option V; is_value : bool; e_pending : option X; coro : option nat; coroDestroyed : bool }.
Definition new_awaitable (h : nat) : awaitable := mkAwaitable None false None (Some h) false.

(** frames and objects are never given the name of one that is gone *)
Record t : Type := mk { frames : gmap nat frame; objects : gmap nat awaitable; next : nat }.

Definition with_frame (h : nat) (f : frame) (s : t) : t := mk (<[h := f]> (frames s)) (objects s) (next s).
Definition with_object (a : nat) (o : awaitable) (s : t) : t := mk (frames s) (<[a := o]> (objects s)) (next s).
Definition drop_frame (h : nat) (s : t) : t := mk (delete h (frames s)) (objects s) (next s).
Definition drop_object (a : nat) (s : t) : t := mk (frames s) (delete a (objects s)) (next s).

(** a frame that is gone is freed memory, an object that is gone a dangling pointer *)
Definition frame_of (h : nat) (s : t) : res frame := match frames s !! h with Some f => Ok f | None => UB end.
Definition object (a : nat) (s : t) : res awaitable := match objects s !! a with Some o => Ok o | None => UB end.
Definition on_promise (h : nat) (g : promise → promise) (s : t) : res t :=
  f ← frame_of h s; Ok (with_frame h (mkFrame (g (prom f)) (at_ f)) s).

(** ** [CoroEData] *)
Definition initCoroData (h : nat) (s : t) : res t :=
  on_promise h (λ p, set_edata 0 (isException p) (e p) p) s.
Definition setCoroException (h : nat) (x : X) (s : t) : res t :=
  on_promise h (λ p, set_edata (status p) true (Some x) p) s.
Definition setCoroStatus (h : nat) (n : Z) (s : t) : res t :=
  on_promise h (λ p, set_edata n (isException p) (e p) p) s.
Definition isCoroException (h : nat) (s : t) : res bool := f ← frame_of h s; Ok (isException (prom f)).
Definition getCoroStatus (h : nat) (s : t) : res Z := f ← frame_of h s; Ok (status (prom f)).
Definition getCoroException (h : nat) (s : t) : res X :=
  f ← frame_of h s;
  ASSERT isException (prom f) ;;
  match e (prom f) with Some x => Ok x | None => UB end.

(** ** The promise *)
Definition get_return_object (s : t) : t * (nat * nat) :=
  let n := next s in
  (mk (<[n := mkFrame (new_promise n) None]> (frames s)) (<[n := new_awaitable n]> (objects s)) (S n), (n, n)).

Definition return_value (h : nat) (v : V) (s : t) : res t :=
  f ← frame_of h s;
  match myRetObject (prom f) with
  | Some a => o ← object a s; Ok (with_object a (mkAwaitable (Some v) true (e_pending o) (coro o) (coroDestroyed o)) s)
  | None => Ok s
  end.
Definition unhandled_exception (h : nat) (x : X) (s : t) : res t :=
  f ← frame_of h s;
  match myRetObject (prom f) with
  | Some a => o ← object a s; Ok (with_object a (mkAwaitable (value o) (is_value o) (Some x) (coro o) (coroDestroyed o)) s)
  | None => Ok s
  end.

(** ** [awaitable] *)
(** the handle of an object, as [coro.promise()] needs it *)
Definition handle (o : awaitable) : res nat := match coro o with Some h => Ok h | None => UB end.

Definition await_suspend (a h_ : nat) (s : t) : res t :=
  o ← object a s;
  ASSERT negb (coroDestroyed o) ;;
  h ← handle o;
  on_promise h (set_hr (Some h_)) s.

(** a value that was never set is indeterminate *)
Definition getValue (o : awaitable) : res V := match value o with Some v => Ok v | None => UB end.
Definition await_resume (a : nat) (s : t) : res (t * (V + X)) :=
  o ← object a s;
  match e_pending o with
  | Some x => Ok (with_object a (mkAwaitable (value o) (is_value o) None (coro o) (coroDestroyed o)) s, inr x)
  | None => v ← getValue o; Ok (s, inl v)
  end.

(** the move constructor leaves [myRetObject] of the promise as it is; the other
    members of the new object have their default values *)
Definition move_awaitable (a : nat) (s : t) : res (t * nat) :=
  o ← object a s;
  let s := with_object a (mkAwaitable (value o) (is_value o) (e_pending o) None (coroDestroyed o)) s in
  let n := next s in
  Ok (mk (frames s) (<[n := mkAwaitable None false None (coro o) false]> (objects s)) (S n), n).

Definition destroy_awaitable (a : nat) (s : t) : res t :=
  o ← object a s;
  s ← (if negb (coroDestroyed o) then h ← handle o; on_promise h (set_object None) s else Ok s);
  Ok (drop_object a s).

(** ** Running *)
Definition suspend (h : nat) (x : suspension) (s : t) : res t :=
  f ← frame_of h s; Ok (with_frame h (mkFrame (prom f) (Some x)) s).

(** the [await_resume] of the awaiters of the infrastructure: an exception that was
    set is thrown, the status tells a timeout *)
Definition leaf_resume (h : nat) (s : t) : res (Z + X) :=
  b ← isCoroException h s;
  if (b : bool) then x ← getCoroException h s; Ok (inr x) else n ← getCoroStatus h s; Ok (inl n).

Section run.
Context (resume : nat → t → res t).

(** after [final_suspend] the frame destroys itself *)
Definition final_suspend (h : nat) (s : t) : res t :=
  f ← frame_of h s;
  s ← match hr (prom f) with
      | Some tmph => resume tmph (with_frame h (mkFrame (set_hr None (prom f)) (at_ f)) s)
      | None => Ok s
      end;
  _ ← frame_of h s;
  Ok (drop_frame h s).

Fixpoint run (h : nat) (p : prog) (s : t) : res t :=
  match p with
  | Return v => s ← return_value h v s; final_suspend h s
  | Throw x => s ← unhandled_exception h x s; final_suspend h s
  | Call f k => let '(s, (h', a)) := get_return_object s in s ← run h' f s; run h (k a) s
  | Await a k =>
      o ← object a s;
      if is_value o then '(s, r) ← await_resume a s; run h (k r) s
      else s ← await_suspend a h s; suspend h (AtAwait a k) s
  | Leaf k => s ← initCoroData h s; suspend h (AtLeaf k) s
  | Move a k => '(s, a') ← move_awaitable a s; run h (k a') s
  | Destroy a k => s ← destroy_awaitable a s; run h k s
  end.
End run.

(** [hr()]: defined for a suspended coroutine only *)
Fixpoint resume (fuel h : nat) (s : t) : res t :=
  match fuel with
  | O => NoFuel
  | S fuel =>
      f ← frame_of h s;
      let s := with_frame h (mkFrame (prom f) None) s in
      match at_ f with
      | None => UB
      | Some (AtAwait a k) => '(s, r) ← await_resume a s; run (resume fuel) h (k r) s
      | Some (AtLeaf k) => r ← leaf_resume h s; run (resume fuel) h (k r) s
      end
  end.

(** a call of a coroutine from ordinary code, which keeps the object *)
Definition call (fuel : nat) (p : prog) (s : t) : res (t * nat) :=
  let '(s, (h, a)) := get_return_object s in
  s ← run (resume fuel) h p s; Ok (s, a).

(** ** [wait_for_all], for calls of one type: each is awaited in turn; a compiler
    may evaluate the arguments in any order, here it is the order they are written in *)
Fixpoint wait_for_all (calls : list nat) (k : list V + X → prog) : prog :=
  match calls with
  | [] => k (inl [])
  | a :: calls =>
      Await a (λ r, match r with
                    | inl v => wait_for_all calls (λ rs, match rs with inl vs => k (inl (v :: vs)) | inr x => k (inr x) end)
                    | inr x => k (inr x)
                    end)
  end.
End defs.
Arguments prog : clear implicits.
Arguments t : clear implicits.
Arguments promise : clear implicits.
Arguments frame : clear implicits.
Arguments awaitable : clear implicits.
Arguments suspension : clear implicits.
End Coro.
