(* ===== verification/CoroSpec.v ===== *)
(** * [co_await] as a call

    A reference semantics in which awaiting the result of a coroutine is an
    ordinary call (a stack of continuations), and what the coroutines of
    awaitable.h make of it: the same, as long as every coroutine that is called
    suspends before it ends. *)

From S2P Require Import Prelude Coro.
From Stdlib Require Import Lia.

Module CoroSpec.
Import Coro.
Section spec.
Context {V X : Type}.
Abbreviation state := (Coro.t V X).
Implicit Types (s : state).

(** ** The reference *)

(** A coroutine that only uses [co_await f(...)]. *)
Inductive sprog : Type :=
  | SReturn (v : V)
  | SThrow (x : X)
  | SAwait (f : sprog) (k : V + X → sprog)
  | SLeaf (k : Z + X → sprog).

(** the object of [co_await f(...)] lives to the end of the expression *)
Fixpoint compile (p : sprog) : prog V X :=
  match p with
  | SReturn v => Return v
  | SThrow x => Throw x
  | SAwait f k => Call (compile f) (λ a, Await a (λ r, Destroy a (compile (k r))))
  | SLeaf k => Leaf (λ r, compile (k r))
  end.

(** [SBroken] is a call of a coroutine that ends without having suspended *)
Inductive outcome : Type :=
  | SDone (r : V + X)
  | SBlocked (ks : list (V + X → sprog)) (k : Z + X → sprog)
  | SBroken.

Fixpoint srun (p : sprog) : outcome :=
  match p with
  | SReturn v => SDone (inl v)
  | SThrow x => SDone (inr x)
  | SAwait f k =>
      match srun f with
      | SBlocked ks k' => SBlocked (ks ++ [k]) k'
      | _ => SBroken
      end
  | SLeaf k => SBlocked [] k
  end.

(** what a running coroutine comes to, with its callers below it *)
Fixpoint deliver (ks : list (V + X → sprog)) (o : outcome) : outcome :=
  match ks with
  | [] => o
  | k :: ks =>
      match o with
      | SDone r => deliver ks (srun (k r))
      | SBlocked ks' k' => SBlocked (ks' ++ k :: ks) k'
      | SBroken => SBroken
      end
  end.

(** ** The stack of callers in the frames *)
Definition resumes (n : nat) (k : V + X → sprog) : suspension V X :=
  AtAwait n (λ r, Destroy n (compile (k r))).
Definition waits (k : Z + X → sprog) : suspension V X := AtLeaf (λ r, compile (k r)).

(** a called coroutine and its object, which have the same name; it resumes [c] at its end *)
Definition owned s (n : nat) (c : option nat) : Prop :=
  (∃ f, frames s !! n = Some f ∧ hr (prom f) = c ∧ myRetObject (prom f) = Some n) ∧
  objects s !! n = Some (new_awaitable n).
Definition suspended s (n : nat) (x : suspension V X) : Prop := ∃ f, frames s !! n = Some f ∧ at_ f = Some x.

(** from [n] through its callers [ns], with what each does with the result, to [h] *)
Fixpoint path s (n : nat) (ns : list nat) (ks : list (V + X → sprog)) (h : nat) : Prop :=
  match ns, ks with
  | [], [] => n = h
  | m :: ns, k :: ks => owned s n (Some m) ∧ suspended s m (resumes n k) ∧ path s m ns ks h
  | _, _ => False
  end.

Record wf s : Prop := {
  wf_frames : ∀ n, is_Some (frames s !! n) → n < next s;
  wf_objects : ∀ n, is_Some (objects s !! n) → n < next s;
}.

(** nothing but the frames [ns] and new ones is touched; old objects stay, but those of [os] *)
Record same (ns os : list nat) s s' : Prop := {
  sm_next : next s ≤ next s';
  sm_frames : ∀ i, i < next s → i ∉ ns → frames s' !! i = frames s !! i;
  sm_objects : ∀ i, i < next s → i ∉ os → objects s' !! i = objects s !! i;
}.

Lemma path_mono s s' n ns ks h :
  NoDup (n :: ns) → path s n ns ks h →
  (∀ x f, x ∈ n :: ns → frames s !! x = Some f →
     ∃ f', frames s' !! x = Some f' ∧ at_ f' = at_ f ∧ (x ≠ h → prom f' = prom f)) →
  (∀ x, x ∈ n :: ns → x ≠ h → objects s' !! x = objects s !! x) → path s' n ns ks h.
Proof.
  revert n ks. induction ns as [|m ns IH]; intros n [|k ks]; try done. cbn [path].
  intros Hnd (Ho & Hs & Hp) Hf Hob. apply NoDup_cons in Hnd as [Hn Hnd].
  assert (Hnh : n ≠ h).
  { intros ->. apply Hn. clear -Hp. revert m ks Hp. induction ns as [|m' ns IH]; intros m [|k ks]; cbn [path]; try done.
    - intros ->. set_solver.
    - intros (_ & _ & Hp). apply elem_of_cons. right. by eapply IH. }
  split_and!.
  - destruct Ho as [(f & Hl & Hhr & Hr) Hobj]. split; [|by rewrite Hob by set_solver].
    destruct (Hf n f ltac:(set_solver) Hl) as (f' & Hl' & _ & Hpr). exists f'. rewrite Hpr by done. done.
  - destruct Hs as (f & Hl & Hat). destruct (Hf m f ltac:(set_solver) Hl) as (f' & Hl' & Hat' & _). exists f'. by rewrite Hat'.
  - apply IH; [done|done| |]; intros; [eapply Hf|apply Hob]; set_solver.
Qed.

Lemma path_last s n ns ks h : path s n ns ks h → h ∈ n :: ns.
Proof.
  revert n ks. induction ns as [|m ns IH]; intros n [|k ks]; cbn [path]; try done; [intros ->; set_solver|].
  intros (_ & _ & Hp). apply elem_of_cons. right. by eapply IH.
Qed.

Lemma path_app s n ns ks h ms ks' root :
  path s n ns ks h → path s h ms ks' root → path s n (ns ++ ms) (ks ++ ks') root.
Proof.
  revert n ks. induction ns as [|m ns IH]; intros n [|k ks]; cbn [path app]; try done; [by intros ->|].
  intros (? & ? & ?) ?. split_and!; [done..|]. by eapply IH.
Qed.

Ltac fresh_name := first [lia | apply not_elem_of_nil | (intros ?%list_elem_of_singleton; lia)].

(** ** A coroutine that runs up to its first suspension *)
Definition store (h : nat) (r : V + X) s : res state :=
  match r with inl v => return_value h v s | inr x => unhandled_exception h x s end.

Lemma run_done R h p s r : srun p = SDone r → run R h (compile p) s = (s ← store h r s; final_suspend R h s).
Proof. destruct p as [v|x|f k|k]; cbn; [by intros [= <-]..| |done]. by destruct (srun f). Qed.

(** the object of a coroutine that has ended *)
Definition holding (n : nat) (r : V + X) : awaitable V X :=
  match r with
  | inl v => mkAwaitable (Some v) true None (Some n) false
  | inr x => mkAwaitable None false (Some x) (Some n) false
  end.

Lemma store_owned s n c r : owned s n c → store n r s = Ok (with_object n (holding n r) s).
Proof.
  intros [(f & Hf & _ & Hr) Ho]. destruct r; cbn; unfold return_value, unhandled_exception, frame_of, object;
    by rewrite Hf; cbn [mbind res_bind]; rewrite Hr, Ho.
Qed.

Lemma final_none R s n f : frames s !! n = Some f → hr (prom f) = None → final_suspend R n s = Ok (drop_frame n s).
Proof. intros Hf Hh. unfold final_suspend, frame_of. rewrite Hf. cbn [mbind res_bind]. rewrite Hh. cbn [mbind res_bind]. by rewrite Hf. Qed.

Lemma frame_ok s n f : frames s !! n = Some f → frame_of n s = Ok f.
Proof. intros Hf. unfold frame_of. by rewrite Hf. Qed.

Lemma final_some R s n f m : frames s !! n = Some f → hr (prom f) = Some m →
  final_suspend R n s =
    (s ← R m (with_frame n (mkFrame (set_hr None (prom f)) (at_ f)) s); _ ← frame_of n s; Ok (drop_frame n s)).
Proof. intros Hf Hh. unfold final_suspend. rewrite (frame_ok s n f) by done. cbn [mbind res_bind]. by rewrite Hh. Qed.

Lemma resume_at fuel m s f x : frames s !! m = Some f → at_ f = Some x →
  resume (S fuel) m s =
    (let s := with_frame m (mkFrame (prom f) None) s in
     match x with
     | AtAwait a k => '(s, r) ← await_resume a s; run (resume fuel) m (k r) s
     | AtLeaf k => r ← leaf_resume m s; run (resume fuel) m (k r) s
     end).
Proof. intros Hf Hx. cbn [resume]. rewrite (frame_ok s m f) by done. cbn [mbind res_bind]. by rewrite Hx. Qed.

Definition fresh_path s (n : nat) (ns : list nat) (h : nat) : Prop :=
  NoDup (n :: ns) ∧ ∀ x, x ∈ n :: ns → x = h ∨ next s ≤ x.

Lemma new_call s :
  wf s → let s1 := (get_return_object s).1 in
  get_return_object s = (s1, (next s, next s)) ∧ wf s1 ∧ owned s1 (next s) None ∧ next s1 = S (next s) ∧ same [] [] s s1 ∧
  frames s1 !! next s = Some (mkFrame (new_promise (next s)) None).
Proof.
  intros [Hf Ho] s1. split; [done|]. subst s1. cbn. split_and!; try done.
  - constructor; cbn; intros n Hn; (destruct (decide (n = next s)) as [->|]; [lia|]); rewrite lookup_insert_ne in Hn by done;
      [apply Hf in Hn|apply Ho in Hn]; lia.
  - split; [|by cbn; rewrite lookup_insert_eq]. eexists. cbn. by rewrite lookup_insert_eq.
  - constructor; cbn; [lia|intros; by rewrite lookup_insert_ne by lia..].
  - by rewrite lookup_insert_eq.
Qed.

Lemma run_blocked p R h f s :
  wf s → frames s !! h = Some f → h < next s →
  match srun p with
  | SDone _ => True
  | SBroken => run R h (compile p) s = UB
  | SBlocked ks k => ∃ s' n ns,
      run R h (compile p) s = Ok s' ∧ wf s' ∧ path s' n ns ks h ∧ suspended s' n (waits k) ∧ fresh_path s n ns h ∧
      same [h] [] s s' ∧
      ∃ f', frames s' !! h = Some f' ∧ hr (prom f') = hr (prom f) ∧ myRetObject (prom f') = myRetObject (prom f)
  end.
Proof.
  revert h f s. induction p as [v|x|g IH k _|k _]; intros h f s Hwf Hf Hh; cbn [srun]; try done.
  - destruct (new_call s Hwf) as (He & Hwf1 & Ho1 & Hn1 & Hsame1 & Hnew). set (s1 := (get_return_object s).1) in *.
    cbn [compile run]. rewrite He. specialize (IH (next s) _ s1 Hwf1 Hnew ltac:(lia)).
    destruct (srun g) as [r|ks k'|] eqn:Hg.
    + rewrite (run_done _ _ _ _ _ Hg), (store_owned _ _ _ _ Ho1). cbn [mbind res_bind].
      rewrite (final_none _ _ _ (mkFrame (new_promise (next s)) None)) by done. cbn [mbind res_bind].
      unfold object. cbn [objects drop_frame with_object]. rewrite lookup_insert_eq. cbn [mbind res_bind].
      assert (Hgone : frames s1 !! next s = Some (mkFrame (new_promise (next s)) None)) by done.
      destruct r as [v|x]; cbn [holding is_value].
      * unfold await_resume, object. cbn [objects drop_frame with_object]. rewrite lookup_insert_eq. cbn.
        unfold destroy_awaitable, object. cbn. rewrite lookup_insert_eq. cbn. unfold on_promise, frame_of. cbn.
        by rewrite lookup_delete_eq.
      * unfold await_suspend, object. cbn [objects drop_frame with_object]. rewrite lookup_insert_eq. cbn.
        unfold on_promise, frame_of. cbn. by rewrite lookup_delete_eq.
    + destruct IH as (s2 & n & ns & Hrun & Hwf2 & Hpath & Hsusp & [Hnd Hfresh] & [Hnx Hsf Hso] & f' & Hf' & Hhr' & Hro').
      rewrite Hrun. cbn [mbind res_bind]. unfold object. rewrite (Hso (next s)) by fresh_name.
      rewrite (proj2 Ho1). cbn [mbind res_bind is_value new_awaitable].
      unfold await_suspend, object. rewrite (Hso (next s)) by fresh_name. rewrite (proj2 Ho1). cbn.
      unfold on_promise, frame_of. rewrite Hf'. cbn [mbind res_bind]. unfold suspend, frame_of. cbn [frames with_frame].
      rewrite lookup_insert_ne by lia. destruct Hsame1 as [_ Hsf1 Hso1].
      assert (Hfh : frames s2 !! h = Some f) by (rewrite Hsf, Hsf1 by fresh_name; done).
      rewrite Hfh. cbn [mbind res_bind]. set (s3 := with_frame h _ _).
      assert (Hlast := path_last _ _ _ _ _ Hpath).
      assert (Hold : ∀ x, x ∈ n :: ns → next s ≤ x) by (intros x Hx; destruct (Hfresh x Hx); lia).
      exists s3, n, (ns ++ [h]). split; [done|].
      assert (Hl3 : ∀ x, x ≠ h → x ≠ next s → frames s3 !! x = frames s2 !! x).
      { intros x ??. unfold s3. cbn. by rewrite !lookup_insert_ne by done. }
      assert (Hln : frames s3 !! next s = Some (mkFrame (set_hr (Some h) (prom f')) (at_ f'))).
      { unfold s3. cbn. rewrite lookup_insert_ne by lia. by rewrite lookup_insert_eq. }
      assert (Hlh : frames s3 !! h = Some (mkFrame (prom f) (Some (resumes (next s) k)))).
      { unfold s3. cbn. by rewrite lookup_insert_eq. }
      split_and!.
      * destruct Hwf2 as [Hw1 Hw2]. constructor; cbn [next s3 with_frame]; [|exact Hw2].
        intros x Hx. destruct (decide (x = h)) as [->|]; [unfold s3; cbn; lia|]. destruct (decide (x = next s)) as [->|]; [unfold s3; cbn; lia|].
        rewrite Hl3 in Hx by done. by apply Hw1.
      * apply (path_app _ _ _ _ (next s)).
        -- eapply path_mono; [done|exact Hpath| |].
           ++ intros x fx Hx Hfx. specialize (Hold x Hx). destruct (decide (x = next s)) as [->|].
              ** exists (mkFrame (set_hr (Some h) (prom f')) (at_ f')). rewrite Hf' in Hfx. injection Hfx as <-. done.
              ** exists fx. rewrite Hl3 by (done || lia). done.
           ++ done.
        -- cbn [path]. split_and!; [|by eexists|done]. split.
           ++ eexists. split; [exact Hln|]. split; [done|exact Hro'].
           ++ unfold s3. cbn. rewrite (Hso (next s)) by fresh_name. apply Ho1.
      * destruct Hsusp as (fl & Hfl & Hat). destruct (decide (n = next s)) as [->|].
        -- eexists. split; [exact Hln|]. rewrite Hf' in Hfl. injection Hfl as <-. done.
        -- exists fl. by rewrite Hl3 by (done || specialize (Hold n ltac:(set_solver)); lia).
      * split.
        -- change (n :: ns ++ [h]) with ((n :: ns) ++ [h]). apply NoDup_app. split_and!; [done| |repeat constructor; set_solver].
           intros x Hx Hx'. apply list_elem_of_singleton in Hx' as ->. specialize (Hold h Hx). lia.
        -- intros x Hx. change (n :: ns ++ [h]) with ((n :: ns) ++ [h]) in Hx. apply elem_of_app in Hx as [Hx|Hx].
           ++ right. by apply Hold.
           ++ left. by apply list_elem_of_singleton in Hx.
      * constructor; cbn [next s3 with_frame].
        -- lia.
        -- intros i Hi Hni. assert (i ≠ h) by (intros ->; by apply Hni, list_elem_of_singleton).
           rewrite Hl3 by (done || lia). rewrite Hsf, Hsf1 by fresh_name. done.
        -- intros i Hi _. change (objects s3) with (objects s2). rewrite Hso, Hso1 by fresh_name. done.
      * eexists. split; [exact Hlh|]. done.
    + rewrite IH. done.
  - cbn [compile run]. unfold initCoroData, on_promise, frame_of. rewrite Hf. cbn [mbind res_bind]. unfold suspend, frame_of.
    cbn [frames with_frame]. rewrite lookup_insert_eq. cbn [mbind res_bind].
    eexists _, h, []. split; [done|]. cbn [frames with_frame]. rewrite insert_insert_eq.
    split_and!; cbn [path].
    + destruct Hwf as [Hw1 Hw2]. constructor; cbn; [|exact Hw2]. intros x Hx. destruct (decide (x = h)) as [->|]; [done|].
      rewrite !lookup_insert_ne in Hx by done. by apply Hw1.
    + done.
    + eexists. cbn. rewrite lookup_insert_eq. done.
    + split; [repeat constructor; set_solver|]. intros x Hx. apply list_elem_of_singleton in Hx. by left.
    + constructor; cbn; [lia| |done]. intros i _ Hni. rewrite !lookup_insert_ne; [done|intros ->; by apply Hni, list_elem_of_singleton|]. intros ->. by apply Hni, list_elem_of_singleton.
    + eexists. rewrite lookup_insert_eq. done.
Qed.

(** ** A coroutine with its callers *)

(** [root] was called by ordinary code, which keeps its object *)
Definition stack s (n : nat) (ns : list nat) (ks : list (V + X → sprog)) (root : nat) : Prop :=
  path s n ns ks root ∧ owned s root None ∧ NoDup (n :: ns) ∧ ∀ x, x ∈ n :: ns → x < next s.

(** what running the top of the stack [ns] comes to *)
Definition ends (root : nat) (ns : list nat) s (o : outcome) (r : res state) : Prop :=
  match o with
  | SBroken => r = UB
  | SDone v => ∃ s', r = Ok s' ∧ wf s' ∧ same ns ns s s' ∧ objects s' !! root = Some (holding root v) ∧
                 ∀ x, x ∈ ns → frames s' !! x = None
  | SBlocked ks k => ∃ s' n' ns', r = Ok s' ∧ wf s' ∧ stack s' n' ns' ks root ∧ suspended s' n' (waits k) ∧
                       same ns ns s s' ∧ ∀ x, x ∈ n' :: ns' → x ∈ ns ∨ next s ≤ x
  end.

Lemma path_kept s s' h ms ks root :
  (∀ x c, x ∈ h :: ms → owned s x c → owned s' x c) → (∀ x y, x ∈ ms → suspended s x y → suspended s' x y) →
  path s h ms ks root → path s' h ms ks root.
Proof.
  revert h ks. induction ms as [|m ms IH]; intros h [|k ks] Hown Hsusp; cbn [path]; try done.
  intros (Ho & Hs & Hp). split_and!; [apply Hown; [by left|done]|apply Hsusp; [by left|done]|].
  apply IH; [intros; apply Hown; [by right|done]|intros; apply Hsusp; [by right|done]|done].
Qed.

Lemma stack_untouched s s' h ms ks root :
  stack s h ms ks root → same [h] [] s s' →
  (∀ f, frames s !! h = Some f →
     ∃ f', frames s' !! h = Some f' ∧ hr (prom f') = hr (prom f) ∧ myRetObject (prom f') = myRetObject (prom f)) →
  path s' h ms ks root ∧ owned s' root None.
Proof.
  intros (Hp & Hroot & Hnd & Hlt) [_ Hsf Hso] Hh.
  assert (Hown : ∀ x c, x ∈ h :: ms → owned s x c → owned s' x c).
  { intros x c Hx [(f & Hf & Hhr & Hr) Ho]. specialize (Hlt x Hx). split.
    - destruct (decide (x = h)) as [->|Hne].
      + destruct (Hh f Hf) as (f' & Hf' & Hhr' & Hr'). exists f'. by rewrite Hhr', Hr'.
      + exists f. by rewrite Hsf by (done || by intros ?%list_elem_of_singleton).
    - by rewrite Hso by (done || apply not_elem_of_nil). }
  split; [|apply Hown; [by eapply path_last|done]].
  eapply path_kept; [exact Hown| |exact Hp].
  intros x y Hx (f & Hf & Hat). exists f. rewrite Hsf; [done|apply Hlt; by right|].
  intros ->%list_elem_of_singleton. by apply NoDup_cons in Hnd as [? _].
Qed.

(** the bottom of the stack [m :: ns] after its caller [n] has gone *)
Lemma stack_pop s s' n m ns k ks root :
  stack s n (m :: ns) (k :: ks) root → same [n; m] [n] s s' →
  (∀ f, frames s !! m = Some f → ∃ f', frames s' !! m = Some f' ∧ prom f' = prom f) → stack s' m ns ks root.
Proof.
  intros ((Ho & Hs & Hp) & Hroot & Hnd & Hlt) [Hnx Hsf Hso] Hm.
  apply NoDup_cons in Hnd as [Hn Hnd].
  assert (Hown : ∀ x c, x ∈ m :: ns → owned s x c → owned s' x c).
  { intros x c Hx [(f & Hf & Hhr & Hr) Hobj]. assert (x < next s) by (apply Hlt; by right). assert (x ≠ n) by by intros ->.
    split.
    - destruct (decide (x = m)) as [->|Hne].
      + destruct (Hm f Hf) as (f' & Hf' & Hpr). exists f'. by rewrite Hpr.
      + exists f. rewrite Hsf; [done|done|]. rewrite elem_of_cons, list_elem_of_singleton. naive_solver.
    - rewrite Hso; [done|done|]. by intros ?%list_elem_of_singleton. }
  split_and!.
  - eapply path_kept; [exact Hown| |exact Hp]. intros x y Hx (f & Hf & Hat). exists f.
    rewrite Hsf; [done|apply Hlt; by do 2 right|]. apply NoDup_cons in Hnd as [Hmns _].
    rewrite elem_of_cons, list_elem_of_singleton. intros [->| ->]; [by apply Hn; right|done].
  - apply Hown; [by eapply path_last|done].
  - done.
  - intros x Hx. eapply Nat.lt_le_trans; [|exact Hnx]. apply Hlt. by right.
Qed.
Lemma path_frames s n ns ks h x : path s n ns ks h → x ∈ n :: ns → x = h ∨ is_Some (frames s !! x).
Proof.
  revert n ks. induction ns as [|m ns IH]; intros n [|k ks]; cbn [path]; try done.
  - intros -> ?%list_elem_of_singleton. by left.
  - intros ([(f & Hf & _) _] & _ & Hp) Hx. apply elem_of_cons in Hx as [->|Hx]; [right; by eexists|]. by eapply IH.
Qed.

Lemma same_weaken ns os ns' os' s s' : ns ⊆ ns' → os ⊆ os' → same ns os s s' → same ns' os' s s'.
Proof. intros Hn Ho [? Hf Hob]. constructor; [done|intros; apply Hf; [done|]; by intros ?%Hn|intros; apply Hob; [done|]; by intros ?%Ho]. Qed.

Lemma same_trans ns os s1 s2 s3 : same ns os s1 s2 → same ns os s2 s3 → same ns os s1 s3.
Proof.
  intros [? Hf1 Ho1] [? Hf2 Ho2]. constructor; [lia|intros; rewrite Hf2, Hf1 by (done || lia); done|].
  intros; rewrite Ho2, Ho1 by (done || lia); done.
Qed.

Lemma deliver_blocked R p s n ns ks root ks2 k :
  wf s → stack s n ns ks root → is_Some (frames s !! n) → srun p = SBlocked ks2 k →
  ends root (n :: ns) s (SBlocked (ks2 ++ ks) k) (run R n (compile p) s).
Proof.
  intros Hwf Hst [f Hf] Hp. assert (Hn : n < next s) by (apply Hst; by left).
  pose proof (run_blocked p R n f s Hwf Hf Hn) as Hrun. rewrite Hp in Hrun.
  destruct Hrun as (s' & n' & ns' & Hr & Hwf' & Hpath & Hsusp & [Hnd' Hfresh] & Hsame & f' & Hf' & Hhr & Hro).
  destruct (stack_untouched _ _ _ _ _ _ Hst Hsame) as [Hp2 Hroot].
  { intros f0 Hf0. rewrite Hf in Hf0. injection Hf0 as <-. by exists f'. }
  destruct Hst as (_ & _ & Hnd & Hlt). apply NoDup_cons in Hnd as [Hni Hnd].
  assert (Hin : ∀ x, x ∈ n' :: ns' ++ ns → x ∈ n' :: ns' ∨ x ∈ ns).
  { intros x Hx. apply (elem_of_app (n' :: ns') ns). exact Hx. }
  assert (Hdis : ∀ x, x ∈ n' :: ns' → x ∉ ns).
  { intros x Hx Hxn. destruct (Hfresh x Hx) as [->|Hge]; [done|].
    assert (x < next s) by (apply Hlt; by right). lia. }
  exists s', n', (ns' ++ ns). split_and!; try done.
  - split_and!.
    + by eapply path_app.
    + done.
    + apply (NoDup_app (n' :: ns') ns). done.
    + intros x Hx. destruct (Hin x Hx) as [Hx'|Hx'].
      * destruct (path_frames _ _ _ _ _ x Hpath Hx') as [->|Hs]; [|by apply Hwf'].
        eapply Nat.lt_le_trans; [exact Hn|]. apply Hsame.
      * eapply Nat.lt_le_trans; [apply Hlt; by right|]. apply Hsame.
  - eapply same_weaken; [| |exact Hsame]; [|apply list_subseteq_nil].
    intros x ->%list_elem_of_singleton. by left.
  - intros x Hx. destruct (Hin x Hx) as [Hx'|Hx']; [|left; by right].
    destruct (Hfresh x Hx') as [->|]; [left; by left|by right].
Qed.

Lemma wf_drop n s : wf s → wf (drop_frame n s).
Proof.
  intros [Hf Ho]. constructor; cbn; [|done]. intros x [y Hx]. apply lookup_delete_Some in Hx as [_ Hx]. apply Hf. by eexists.
Qed.

(** [n] has resumed its caller, which ran to its next suspension or its end: it goes *)
Lemma ends_pop root n m ns s s3 o r :
  NoDup (n :: m :: ns) → wf s → n < next s → same [n; m] [n] s s3 → is_Some (frames s3 !! n) →
  ends root (m :: ns) s3 o r → root ∈ m :: ns →
  ends root (n :: m :: ns) s o (s4 ← r; _ ← frame_of n s4; Ok (drop_frame n s4)).
Proof.
  intros Hnd Hwf Hlt Hs3 [f3 Hf3] He Hroot. apply NoDup_cons in Hnd as [Hn _].
  assert (Hsame : ∀ s4, same (m :: ns) (m :: ns) s3 s4 →
                    frames s4 !! n = Some f3 ∧ same (n :: m :: ns) (n :: m :: ns) s (drop_frame n s4)).
  { intros s4 H4. assert (Hn3 : n < next s3) by (destruct Hs3; lia). split; [destruct H4 as [_ H4 _]; by rewrite H4|].
    apply same_trans with s4.
    - apply same_trans with s3.
      + eapply same_weaken; [| |exact Hs3]; intros x; rewrite ?elem_of_cons, ?elem_of_nil; naive_solver.
      + eapply same_weaken; [| |exact H4]; intros x; rewrite !elem_of_cons; naive_solver.
    - constructor; cbn; [done| |done]. intros i _ Hi. apply lookup_delete_ne. intros ->. apply Hi. by left. }
  destruct o as [v|ks k|]; cbn [ends] in *.
  - destruct He as (s4 & -> & Hwf4 & H4 & Hob & Hgone). destruct (Hsame s4 H4) as [Hf4 Hs4].
    cbn [mbind res_bind]. unfold frame_of. rewrite Hf4. cbn [mbind res_bind].
    eexists. split_and!; [done|by apply wf_drop|done|done|].
    intros x Hx. cbn. apply lookup_delete_None. apply elem_of_cons in Hx as [->|Hx]; [by left|right; by apply Hgone].
  - destruct He as (s4 & n' & ns' & -> & Hwf4 & Hst4 & Hsusp & H4 & Hnew). destruct (Hsame s4 H4) as [Hf4 Hs4].
    cbn [mbind res_bind]. unfold frame_of. rewrite Hf4. cbn [mbind res_bind].
    assert (Hnn : n ∉ n' :: ns').
    { intros Hx. destruct (Hnew n Hx) as [?|Hge]; [done|]. destruct Hs3; lia. }
    eexists _, n', ns'. split_and!; [done|by apply wf_drop| | |done|].
    + destruct Hst4 as (Hp & Hr & Hnd4 & Hlt4).
      assert (Hown : ∀ x c, x ∈ n' :: ns' → owned s4 x c → owned (drop_frame n s4) x c).
      { intros x c Hx [(f & Hf & Hh) Ho]. split; [|done]. exists f. cbn. by rewrite lookup_delete_ne by (by intros ->). }
      split_and!; try done.
      * eapply path_kept; [exact Hown| |exact Hp]. intros x y Hx (f & Hf & Hat). exists f. cbn.
        rewrite lookup_delete_ne; [done|]. intros ->. apply Hnn. by right.
      * apply Hown; [by eapply path_last|done].
    + destruct Hsusp as (f & Hf & Hat). exists f. cbn. rewrite lookup_delete_ne; [done|]. intros ->. apply Hnn. by left.
    + intros x Hx. destruct (Hnew x Hx) as [Hx'|Hge]; [left; by right|right; destruct Hs3; lia].
  - by rewrite He.
Qed.

(** [await_resume] of the object of a coroutine that has ended, and its destruction *)
Lemma resume_holding n r s :
  objects s !! n = Some (holding n r) → is_Some (frames s !! n) →
  ∃ s', (∀ R h kk, ('(s, r) ← await_resume n s; run R h (Destroy n (kk r)) s) = run R h (kk r) s') ∧
    same [n] [n] s s' ∧ next s' = next s ∧ (∀ x, is_Some (objects s' !! x) → is_Some (objects s !! x)) ∧
    (∀ x, is_Some (frames s' !! x) ↔ is_Some (frames s !! x)).
Proof.
  intros Ho [f Hf].
  exists (drop_object n (with_frame n (mkFrame (set_object None (prom f)) (at_ f)) s)). split_and!.
  - intros R h kk. unfold await_resume, object. rewrite Ho. cbn [mbind res_bind].
    destruct r as [v|x]; cbn [holding e_pending value getValue mbind res_bind run]; unfold destroy_awaitable, object, on_promise, frame_of.
    + rewrite Ho. cbn [holding coroDestroyed handle coro negb mbind res_bind]. by rewrite Hf.
    + cbn [with_object objects frames]. rewrite lookup_insert_eq. cbn [coroDestroyed handle coro negb mbind res_bind].
      rewrite Hf. cbn [mbind res_bind]. unfold drop_object, with_frame, with_object. cbn [frames objects next].
      by rewrite delete_insert_eq.
  - constructor; cbn; [done|intros i _ Hi; apply lookup_insert_ne|intros i _ Hi; apply lookup_delete_ne];
      intros ->; by apply Hi, list_elem_of_singleton.
  - done.
  - cbn. intros x [y Hx]. apply lookup_delete_Some in Hx as [_ Hx]. by eexists.
  - cbn. intros x. destruct (decide (x = n)) as [->|]; [rewrite lookup_insert_eq; rewrite Hf; split; by eexists|].
    by rewrite lookup_insert_ne.
Qed.

Lemma deliver_runs ks p s n ns root fuel :
  wf s → stack s n ns ks root → length ks ≤ fuel →
  ends root (n :: ns) s (deliver ks (srun p)) (run (resume fuel) n (compile p) s).
Proof.
  revert p s n ns fuel. induction ks as [|k ks IH]; intros p s n ns fuel Hwf Hst Hfuel.
  - pose proof Hst as (Hp & Hroot & Hnd & Hlt). destruct ns as [|]; [|done]. cbn in Hp. subst n. cbn [deliver].
    destruct (srun p) as [r|ks k|] eqn:Hs.
    + rewrite (run_done _ _ _ _ _ Hs), (store_owned _ _ _ _ Hroot). cbn [mbind res_bind].
      destruct Hroot as [(f & Hf & Hhr & _) Ho]. rewrite (final_none _ _ _ f) by done. eexists. split_and!; [done|..].
      * apply wf_drop. destruct Hwf as [Hw1 Hw2]. constructor; cbn; [done|]. intros x Hx.
        destruct (decide (x = root)) as [->|]; [apply Hlt; by left|]. rewrite lookup_insert_ne in Hx by done. by apply Hw2.
      * constructor; cbn; [done|intros i _ Hi; apply lookup_delete_ne|intros i _ Hi; apply lookup_insert_ne];
          intros ->; by apply Hi, list_elem_of_singleton.
      * cbn. by rewrite lookup_insert_eq.
      * intros x ->%list_elem_of_singleton. cbn. by rewrite lookup_delete_eq.
    + destruct Hroot as [(f & Hf & _) _]. rewrite <- (app_nil_r ks). apply deliver_blocked; [done..|by eexists|done].
    + destruct Hroot as [(f & Hf & _) _]. pose proof (run_blocked p (resume fuel) root f s Hwf Hf ltac:(apply Hlt; by left)) as Hr.
      by rewrite Hs in Hr.
  - pose proof Hst as (Hp & Hroot & Hnd & Hlt). destruct ns as [|m ns]; [done|]. destruct Hp as (Hown & (fm & Hfm & Hat) & Hp).
    pose proof Hown as [(f & Hf & Hhr & Hro) Hob]. destruct (srun p) as [r|ks2 k2|] eqn:Hs.
    + cbn [deliver]. rewrite (run_done _ _ _ _ _ Hs), (store_owned _ _ _ _ Hown). cbn [mbind res_bind].
      rewrite (final_some _ _ _ f m) by done. destruct fuel as [|fuel]; [cbn in Hfuel; lia|]. assert (Hnm : n ≠ m) by (apply NoDup_cons in Hnd as [Hn _]; intros ->; apply Hn; by left).
      rewrite (resume_at _ _ _ fm (resumes n k)); [|cbn; by rewrite lookup_insert_ne|done].
      cbv zeta. unfold resumes. set (s2 := with_frame m _ _).
      assert (Hs2 : same [n; m] [n] s s2).
      { constructor; unfold s2; cbn; [done|intros i _ Hi|intros i _ Hi].
        - rewrite !lookup_insert_ne; [done| |]; intros ->; apply Hi; rewrite !elem_of_cons; auto.
        - rewrite lookup_insert_ne; [done|]. intros ->. by apply Hi, list_elem_of_singleton. }
      destruct (resume_holding n r s2) as (s3 & Hrun & Hs3 & Hn3 & Hob3 & Hfr3).
      { unfold s2. cbn. by rewrite lookup_insert_eq. }
      { unfold s2. cbn. rewrite lookup_insert_ne by done. rewrite lookup_insert_eq. by eexists. }
      rewrite (Hrun _ _ (λ r, compile (k r))).
      assert (Hs03 : same [n; m] [n] s s3).
      { apply same_trans with s2; [done|]. eapply same_weaken; [| |exact Hs3]; [|done]. intros x; rewrite !elem_of_cons; naive_solver. }
      assert (Hdom : ∀ x, is_Some (frames s3 !! x) → is_Some (frames s !! x)).
      { intros x Hx. apply Hfr3 in Hx. unfold s2 in Hx. cbn in Hx. destruct (decide (x = m)) as [->|]; [by eexists|].
        rewrite lookup_insert_ne in Hx by done. destruct (decide (x = n)) as [->|]; [by eexists|]. by rewrite lookup_insert_ne in Hx. }
      apply ends_pop with s3; try done.
      * apply Hlt. by left.
      * apply Hfr3. unfold s2. cbn. rewrite lookup_insert_ne by done. rewrite lookup_insert_eq. by eexists.
      * apply IH; [| |cbn in Hfuel; lia].
        -- constructor.
           ++ intros x Hx. rewrite Hn3. unfold s2. cbn. apply Hwf. by apply Hdom.
           ++ intros x Hx. rewrite Hn3. unfold s2. cbn. apply Hob3 in Hx. unfold s2 in Hx. cbn in Hx.
              destruct (decide (x = n)) as [->|]; [apply Hlt; by left|]. rewrite lookup_insert_ne in Hx by done. by apply (wf_objects _ Hwf).
        -- apply (stack_pop s s3 n m ns k ks root); [done|done|]. intros f0 Hf0. exists (mkFrame (prom fm) None).
           rewrite Hfm in Hf0. injection Hf0 as <-. split; [|done].
           destruct Hs3 as [_ Hs3 _]. rewrite Hs3.
           ++ unfold s2. cbn. by rewrite lookup_insert_eq.
           ++ unfold s2. cbn. apply Hlt. right. by left.
           ++ by intros ->%list_elem_of_singleton.
      * by eapply path_last.
    + cbn [deliver]. apply deliver_blocked; [done..|by eexists|done].
    + cbn [deliver ends]. pose proof (run_blocked p (resume fuel) n f s Hwf Hf ltac:(apply Hlt; by left)) as Hr. by rewrite Hs in Hr.
Qed.

Lemma ends_from root ns s s' o r : same ns ns s s' → ends root ns s' o r → ends root ns s o r.
Proof.
  intros H. destruct o as [v|ks k|]; cbn [ends]; [| |done].
  - intros (s1 & ? & ? & ? & ? & ?). exists s1. split_and!; try done. by eapply same_trans.
  - intros (s1 & n' & ns' & ? & ? & ? & ? & ? & Hnew). exists s1, n', ns'. split_and!; try done; [by eapply same_trans|].
    intros x Hx. destruct (Hnew x Hx); [by left|right]. destruct H; lia.
Qed.

(** C4. Awaiting a coroutine is an ordinary call: a coroutine that is called, and one
    that the infrastructure resumes with all its callers above it, run as the reference
    says - a result or an exception goes to the caller that awaits it, once, and the
    frames of those that ended are gone - as long as every coroutine called suspends
    before it ends. One that ends at once is undefined behaviour: its frame is gone when
    its object is awaited or destroyed. *)
Theorem co_await_as_call :
  (∀ fuel (p : sprog) s, wf s →
     ends (next s) [next s] (get_return_object s).1 (srun p) ('(s', _) ← call fuel (compile p) s; Ok s')) ∧
  (∀ fuel s n ns ks k root r, wf s → stack s n ns ks root → suspended s n (waits k) → leaf_resume n s = Ok r →
     length ks < fuel → ends root (n :: ns) s (deliver ks (srun (k r))) (resume fuel n s)).
Proof.
  split.
  - intros fuel p s Hwf. destruct (new_call s Hwf) as (He & Hwf1 & Ho1 & Hn1 & _). unfold call. rewrite He.
    pose proof (deliver_runs [] p _ (next s) [] (next s) fuel Hwf1) as Hd. cbn [deliver] in Hd.
    replace (_ ≫= _) with (run (resume fuel) (next s) (compile p) (get_return_object s).1).
    + apply Hd; [|cbn; lia]. split_and!; [done|done|repeat constructor; by intros ?%not_elem_of_nil|].
      intros x ->%list_elem_of_singleton. rewrite Hn1. lia.
    + by destruct (run _ _ _ _).
  - intros fuel s n ns ks k root r Hwf Hst (f & Hf & Hat) Hr Hfuel. destruct fuel as [|fuel]; [lia|].
    rewrite (resume_at _ _ _ f _ Hf Hat). cbv zeta. unfold waits. set (s1 := with_frame n _ s).
    assert (Hr1 : leaf_resume n s1 = Ok r).
    { rewrite <- Hr. unfold leaf_resume, isCoroException, getCoroException, getCoroStatus.
      rewrite (frame_ok s n f Hf), (frame_ok s1 n (mkFrame (prom f) None)); [done|]. unfold s1. cbn. by rewrite lookup_insert_eq. }
    rewrite Hr1. cbn [mbind res_bind].
    assert (Hs1 : same [n] [] s s1).
    { constructor; unfold s1; cbn; [done| |done]. intros i _ Hi. apply lookup_insert_ne. intros ->. by apply Hi, list_elem_of_singleton. }
    apply ends_from with s1.
    { eapply same_weaken; [| |exact Hs1]; [|apply list_subseteq_nil]. intros x ->%list_elem_of_singleton. by left. }
    destruct (stack_untouched _ _ _ _ _ _ Hst Hs1) as [Hp1 Hroot1].
    { intros f0 Hf0. rewrite Hf in Hf0. injection Hf0 as <-. exists (mkFrame (prom f) None). unfold s1. cbn. by rewrite lookup_insert_eq. }
    destruct Hst as (_ & _ & Hnd & Hlt). apply deliver_runs; [|by split_and!|cbn in *; lia].
    destruct Hwf as [Hw1 Hw2]. constructor; [|done]. unfold s1. cbn. intros x Hx.
    destruct (decide (x = n)) as [->|]; [apply Hlt; by left|]. rewrite lookup_insert_ne in Hx by done. by apply Hw1.
Qed.

(** An exception stays with the coroutine it was set for: once the infrastructure
    has released a coroutine with an exception, every later [co_await] of it that
    suspends throws the same exception, whatever it is resumed with, since
    [initCoroData] resets the status only. *)
Theorem exception_sticks fuel h s f x k k2 n :
  frames s !! h = Some f → at_ f = Some (AtLeaf k) → k (inr x) = Leaf k2 →
  ∃ s1, (s' ← setCoroException h x s; resume (S fuel) h s') = Ok s1 ∧
    suspended s1 h (AtLeaf k2) ∧
    ∃ s2, (s' ← setCoroStatus h n s1; resume (S fuel) h s') = run (resume fuel) h (k2 (inr x)) s2.
Proof.
  intros Hf Hat Hk. unfold setCoroException, on_promise. rewrite (frame_ok s h f Hf). cbn [mbind res_bind].
  set (p := set_edata _ true (Some x) (prom f)).
  rewrite (resume_at fuel h _ (mkFrame p (at_ f)) (AtLeaf k)); [|cbn; by rewrite lookup_insert_eq|done]. cbv zeta.
  assert (Hleaf : ∀ s' q y, frames s' !! h = Some (mkFrame q y) → isException q = true → e q = Some x → leaf_resume h s' = Ok (inr x)).
  { intros s' q y Hl Hi He. unfold leaf_resume, isCoroException, getCoroException. rewrite (frame_ok s' h _ Hl). cbn [mbind res_bind prom].
    rewrite Hi. by rewrite He. }
  rewrite (Hleaf _ p None); [|cbn; by rewrite lookup_insert_eq|done..]. cbn [mbind res_bind]. rewrite Hk. cbn [run].
  unfold initCoroData, on_promise. rewrite (frame_ok _ h (mkFrame p None)) by (cbn; by rewrite lookup_insert_eq). cbn [mbind res_bind].
  unfold suspend. rewrite (frame_ok _ h (mkFrame (set_edata 0 true (Some x) p) None)) by (cbn; by rewrite lookup_insert_eq).
  cbn [mbind res_bind prom]. eexists. split; [done|]. split; [eexists; cbn; by rewrite lookup_insert_eq|].
  unfold setCoroStatus, on_promise. rewrite (frame_ok _ h (mkFrame (set_edata 0 true (Some x) p) (Some (AtLeaf k2)))) by (cbn; by rewrite lookup_insert_eq).
  cbn [mbind res_bind]. eexists.
  rewrite (resume_at fuel h _ (mkFrame (set_edata n true (Some x) (set_edata 0 true (Some x) p)) (Some (AtLeaf k2))) (AtLeaf k2));
    [|cbn; by rewrite lookup_insert_eq|done]. cbv zeta.
  rewrite (Hleaf _ (set_edata n true (Some x) (set_edata 0 true (Some x) p)) None); [|cbn; by rewrite lookup_insert_eq|done..]. done.
Qed.

(** the moved-from object of a call cannot be destroyed *)
Lemma moved_object_cannot_end a s o :
  objects s !! a = Some o → coroDestroyed o = false → a ≠ next s →
  (s' ← move_awaitable a s; destroy_awaitable a s'.1) = UB.
Proof.
  intros Ho Hd Hne. unfold move_awaitable, object. rewrite Ho. cbn [mbind res_bind fst]. unfold destroy_awaitable, object.
  cbn [objects with_object]. rewrite lookup_insert_ne by done. rewrite lookup_insert_eq. cbn [mbind res_bind coroDestroyed]. by rewrite Hd.
Qed.
End spec.
Arguments sprog : clear implicits.
Arguments outcome : clear implicits.
End CoroSpec.

Module CoroExample.
Import Coro CoroSpec.

(** a coroutine that waits and returns the status, and one that awaits it *)
Definition waiter : sprog Z string := SLeaf (λ r, match r with inl n => SReturn n | inr x => SThrow x end).
Definition client : sprog Z string :=
  SAwait waiter (λ r, match r with inl n => SReturn (n + 1)%Z | inr _ => SReturn (-1)%Z end).
Definition nothing : Coro.t Z string := mk ∅ ∅ 0.
Definition started : Coro.t Z string :=
  match call 0 (compile client) nothing with Ok (s, _) => s | _ => nothing end.
Definition object_after (r : res (Coro.t Z string)) : option (awaitable Z string) :=
  match r with Ok s => objects s !! 0 | _ => None end.

Example client_gets_status : object_after (resume 2 1 started) = Some (holding 0 (inl 1%Z)).
Proof. reflexivity. Qed.
Example client_gets_exception :
  object_after (s ← setCoroException 1 "closed" started; resume 2 1 s) = Some (holding 0 (inl (-1)%Z)).
Proof. reflexivity. Qed.
Example ending_at_once_is_undefined : call 1 (compile (SAwait (SReturn 1%Z) (λ _, SReturn 2%Z) : sprog Z string)) nothing = UB.
Proof. reflexivity. Qed.
Example throwing_at_once_is_undefined :
  call 1 (compile (SAwait (SThrow "no") (λ _, SReturn 2%Z) : sprog Z string)) nothing = UB.
Proof. reflexivity. Qed.

Lemma wf_nothing : wf nothing.
Proof. constructor; cbn; intros n [x Hx]; by rewrite lookup_empty in Hx. Qed.

Lemma co_await_as_call_witness :
  ends 0 [0] (get_return_object nothing).1 (srun client) ('(s', _) ← call 0 (compile client) nothing; Ok s') ∧
  ends 0 [1; 0] started (SDone (inl 1%Z)) (resume 2 1 started).
Proof.
  split; [apply (proj1 (@co_await_as_call Z string) 0 client nothing), wf_nothing|].
  assert (Hwf : wf started).
  { assert (H1 : Forall (λ p, p.1 < 2) (map_to_list (frames started))) by (vm_compute; repeat constructor).
    assert (H2 : Forall (λ p, p.1 < 2) (map_to_list (objects started))) by (vm_compute; repeat constructor).
    rewrite Forall_forall in H1. rewrite Forall_forall in H2. change (next started) with 2.
    constructor; intros n [x Hx]; [apply (H1 (n, x))|apply (H2 (n, x))]; by apply elem_of_map_to_list. }
  pose proof (proj2 (@co_await_as_call Z string) 2 started 1 [0]
    [λ r, match r with inl n => SReturn (n + 1)%Z | inr _ => SReturn (-1)%Z end]
    (λ r, match r with inl n => SReturn n | inr x => SThrow x end) 0 (inl 0%Z) Hwf) as H.
  apply H; clear H.
  - split_and!.
    + cbn [path]. split_and!; [split; [by eexists|done]|by eexists|done].
    + split; [by eexists|done].
    + repeat constructor; rewrite ?elem_of_cons, ?elem_of_nil; naive_solver lia.
    + intros x Hx. vm_compute. apply elem_of_cons in Hx as [->|Hx]; [lia|]. apply list_elem_of_singleton in Hx as ->. lia.
  - by eexists.
  - reflexivity.
  - cbn. lia.
Defined.

(** a coroutine that catches what its first wait throws and waits again *)
Definition stubborn : sprog Z string :=
  SLeaf (λ _, SLeaf (λ r, match r with inl n => SReturn n | inr x => SThrow x end)).
Definition waiting : Coro.t Z string :=
  match call 0 (compile stubborn) nothing with Ok (s, _) => s | _ => nothing end.
Definition second_wait : prog Z string := compile (SLeaf (λ r, match r with inl n => SReturn n | inr x => SThrow x end)).

Lemma exception_sticks_witness : ∃ s1, (s' ← setCoroException 0 "closed" waiting; resume 1 0 s') = Ok s1 ∧
  ∃ s2, (s' ← setCoroStatus 0 1 s1; resume 1 0 s') = run (resume 0) 0 (Throw "closed") s2.
Proof.
  destruct (exception_sticks 0 0 waiting (mkFrame (new_promise 0) (Some (AtLeaf (λ _, second_wait)))) "closed"
    (λ _, second_wait) (λ r, compile (match r with inl n => SReturn n | inr x => SThrow x end)) 1%Z
    eq_refl eq_refl eq_refl) as (s1 & H1 & _ & s2 & H2).
  exists s1. split; [exact H1|]. by exists s2.
Defined.
End CoroExample.
