(* ===== verification/RingQueue.v ===== *)
(** * The blocking queue between threads
    (src/clustering_impl/interthread_comm_impl.h)

    [Module CircBuf] models [CircularBuffer<T, maxsz_bits>], a ring of slots in
    raw memory with its branch-free [size()]; [Module Mwsr] models
    [MWSRFixedSizeQueueWithFlowControl], the blocking queue with many writers
    and one reader, written against the interface [FixedSizeCollection] that
    stands for the template parameter and that [CircBuf] implements. The body
    of each method under the mutex is a function; waiting, waking (spurious
    wake-ups included) and the notifications outside the mutex are steps of a
    transition system over any number of writer threads. [RingQueueSpec] has the
    theorems. *)

From S2P Require Import Prelude.
From Stdlib Require Import Lia.

(** ** The interface of a fixed-size collection *)
Class FixedSizeCollection (C T : Type) := {
  fsc_size : C → Z;
  fsc_is_full : C → bool;
  fsc_push_back : T → C → res C;
  fsc_pop_front : C → res (C * T);
  fsc_empty : C;
}.

(** What it promises: it holds a sequence of at most [fsc_max] values. *)
Class FixedSizeCollectionLaws C T `{FixedSizeCollection C T} := {
  fsc_max : nat;
  fsc_rep : C → list T → Prop;
  fsc_max_pos : 0 < fsc_max;
  fsc_rep_empty : fsc_rep fsc_empty [];
  fsc_rep_length c xs : fsc_rep c xs → length xs ≤ fsc_max;
  fsc_size_spec c xs : fsc_rep c xs → fsc_size c = Z.of_nat (length xs);
  fsc_is_full_spec c xs : fsc_rep c xs → fsc_is_full c = bool_decide (length xs = fsc_max);
  fsc_push_spec c xs x : fsc_rep c xs → length xs < fsc_max →
    ∃ c', fsc_push_back x c = Ok c' ∧ fsc_rep c' (xs ++ [x]);
  fsc_pop_spec c xs x : fsc_rep c (x :: xs) →
    ∃ c', fsc_pop_front c = Ok (c', x) ∧ fsc_rep c' xs;
}.

(** ** CircularBuffer *)
Module CircBuf.
Section defs.
Context {T : Type} (maxsz_bits : nat).

Definition bufsz : Z := Z.shiftl 1 (Z.of_nat maxsz_bits).
Definition maxsz : Z := (bufsz - 1)%Z.
Definition mask : Z := maxsz.

(** a slot of [buffer] holds an object or raw memory *)
Record t : Type := mk { head : Z; tail : Z; buffer : list (option T) }.

Definition init : t := mk 0 0 (replicate (Z.to_nat bufsz) None).

Definition size (c : t) : Z :=
  u64 (u64 (head c - tail c) +
       Z.land (u64 (Z.b2z (bool_decide (tail c ≤ head c)%Z) - 1)) bufsz).

Definition is_full (c : t) : bool := bool_decide (size c = maxsz).

Definition push_back (x : T) (c : t) : res t :=
  ASSERT bool_decide (size c < maxsz)%Z ;;
  REQUIRE bool_decide (Z.to_nat (head c) < length (buffer c)) ;;
  Ok (mk (Z.land (u64 (head c + 1)) mask) (tail c) (<[Z.to_nat (head c) := Some x]> (buffer c))).

Definition pop_front (c : t) : res (t * T) :=
  ASSERT bool_decide (0 < size c)%Z ;;
  match buffer c !! Z.to_nat (tail c) with
  | Some (Some x) =>
      Ok (mk (head c) (Z.land (u64 (tail c + 1)) mask) (<[Z.to_nat (tail c) := None]> (buffer c)), x)
  | _ => UB
  end.

(** the slot of the [i]-th value *)
Definition slot (c : t) (i : nat) : nat := Z.to_nat ((tail c + Z.of_nat i) mod bufsz).

(** [c] holds [xs]: its slots hold them from [tail] on, and no other slot holds
    an object. *)
Record rep (c : t) (xs : list T) : Prop := {
  rep_bits : 0 < maxsz_bits ∧ maxsz_bits ≤ 30;
  rep_buffer : length (buffer c) = Z.to_nat bufsz;
  rep_tail : (0 ≤ tail c < bufsz)%Z;
  rep_head : head c = ((tail c + Z.of_nat (length xs)) mod bufsz)%Z;
  rep_length : (Z.of_nat (length xs) < bufsz)%Z;
  rep_slots : ∀ i x, xs !! i = Some x → buffer c !! slot c i = Some (Some x);
  rep_free : ∀ i, length xs ≤ i → (Z.of_nat i < bufsz)%Z → buffer c !! slot c i = Some None;
}.

Lemma bufsz_pow : bufsz = (2 ^ Z.of_nat maxsz_bits)%Z.
Proof. unfold bufsz. rewrite Z.shiftl_1_l. done. Qed.

Lemma bufsz_bounds : 0 < maxsz_bits → maxsz_bits ≤ 30 → (2 ≤ bufsz ≤ 2 ^ 30)%Z.
Proof.
  intros H0 H1. rewrite bufsz_pow. split.
  - change 2%Z with (2 ^ 1)%Z at 1. apply Z.pow_le_mono_r; lia.
  - apply Z.pow_le_mono_r; lia.
Qed.

Lemma mask_mod z : Z.land z mask = (z mod bufsz)%Z.
Proof.
  unfold mask, maxsz. rewrite bufsz_pow.
  replace (2 ^ Z.of_nat maxsz_bits - 1)%Z with (Z.ones (Z.of_nat maxsz_bits)) by (rewrite Z.ones_equiv; lia).
  apply Z.land_ones. lia.
Qed.

Lemma size_spec c xs : rep c xs → size c = Z.of_nat (length xs).
Proof.
  intros [Hb _ Ht Hh Hl _ _]. pose proof (bufsz_bounds (proj1 Hb) (proj2 Hb)) as Hbs.
  unfold size. assert (Hcase : ((head c = tail c + Z.of_nat (length xs) ∧ tail c ≤ head c) ∨
                    (head c = tail c + Z.of_nat (length xs) - bufsz ∧ head c < tail c))%Z).
  { rewrite Hh. destruct (decide (tail c + Z.of_nat (length xs) < bufsz)%Z).
    - left. rewrite Z.mod_small; lia.
    - right. rewrite <-(Z.mod_add (tail c + Z.of_nat (length xs)) (-1)) by lia.
      rewrite Z.mod_small; lia. }
  destruct Hcase as [[-> Hle]|[-> Hlt]].
  - rewrite bool_decide_eq_true_2 by lia. change (Z.b2z true - 1)%Z with 0%Z.
    rewrite (u64_small 0), Z.land_0_l by lia. rewrite (u64_small (_ - _)) by lia.
    rewrite u64_small; lia.
  - rewrite bool_decide_eq_false_2 by lia. change (Z.b2z false - 1)%Z with (-1)%Z.
    assert (Hland : Z.land (u64 (-1)) bufsz = bufsz).
    { change (u64 (-1)) with (Z.ones 64). rewrite Z.land_comm, Z.land_ones by lia.
      apply Z.mod_small. lia. }
    rewrite Hland. unfold u64. rewrite Z.add_mod_idemp_l by done.
    rewrite Z.mod_small; lia.
Qed.

Lemma init_rep : 0 < maxsz_bits → maxsz_bits ≤ 30 → rep init [].
Proof.
  intros H0 H1. pose proof (bufsz_bounds H0 H1).
  constructor; simpl; try done; try lia.
  - by rewrite length_replicate.
  - intros i _ Hi. unfold slot; simpl. apply lookup_replicate_2.
    rewrite Z.mod_small by lia. lia.
Qed.

Lemma slot_inj c i j :
  (0 ≤ tail c < bufsz)%Z → (Z.of_nat i < bufsz)%Z → (Z.of_nat j < bufsz)%Z → i ≠ j →
  slot c i ≠ slot c j.
Proof.
  intros Ht Hi Hj Hne Heq. unfold slot in Heq.
  pose proof (Z.mod_pos_bound (tail c + Z.of_nat i) bufsz ltac:(lia)).
  pose proof (Z.mod_pos_bound (tail c + Z.of_nat j) bufsz ltac:(lia)).
  pose proof (Z.div_mod (tail c + Z.of_nat i) bufsz ltac:(lia)).
  pose proof (Z.div_mod (tail c + Z.of_nat j) bufsz ltac:(lia)).
  assert (Hm : ((tail c + Z.of_nat i) mod bufsz = (tail c + Z.of_nat j) mod bufsz)%Z) by lia.
  set (p := ((tail c + Z.of_nat i) / bufsz)%Z) in *. set (q := ((tail c + Z.of_nat j) / bufsz)%Z) in *.
  assert (p = q); [|apply Hne; subst; nia].
  destruct (Z.lt_trichotomy p q) as [?|[?|?]]; [exfalso; nia|done|exfalso; nia].
Qed.

Lemma head_slot c xs : rep c xs → Z.to_nat (head c) = slot c (length xs).
Proof. intros [_ _ _ Hh _ _ _]. unfold slot. by rewrite Hh. Qed.

Lemma slot_lt c i : 0 < maxsz_bits → maxsz_bits ≤ 30 → slot c i < Z.to_nat bufsz.
Proof.
  intros H0 H1. pose proof (bufsz_bounds H0 H1). unfold slot.
  pose proof (Z.mod_pos_bound (tail c + Z.of_nat i) bufsz ltac:(lia)). lia.
Qed.

Lemma circ_push_spec c xs x :
  rep c xs → (Z.of_nat (length xs) < maxsz)%Z →
  ∃ c', push_back x c = Ok c' ∧ rep c' (xs ++ [x]).
Proof.
  intros Hrep Hlt. pose proof Hrep as [[H0 H1] Hbuf Ht Hh Hl Hs Hf].
  pose proof (bufsz_bounds H0 H1) as Hbs. pose proof (slot_lt c (length xs) H0 H1) as Hsl.
  unfold push_back. rewrite (size_spec c xs Hrep), (head_slot c xs Hrep).
  rewrite !bool_decide_eq_true_2 by lia. eexists; split; [done|]. unfold maxsz in *.
  assert (Hne : ∀ i, (Z.of_nat i < bufsz)%Z → i ≠ length xs → slot c (length xs) ≠ slot c i).
  { intros i Hi Hne. by apply slot_inj. }
  constructor; cbn [head tail buffer]; try done.
  - by rewrite length_insert.
  - rewrite mask_mod, length_app, Hh. simpl.
    pose proof (Z.mod_pos_bound (tail c + Z.of_nat (length xs)) bufsz ltac:(lia)).
    rewrite u64_small by lia. rewrite Z.add_mod_idemp_l by lia. f_equal. lia.
  - rewrite length_app. simpl. lia.
  - intros i y Hi. change (slot _ i) with (slot c i). apply lookup_app_Some in Hi as [Hi|[Hge Hi]].
    + pose proof (lookup_lt_Some _ _ _ Hi). rewrite list_lookup_insert_ne by (apply Hne; lia). by apply Hs.
    + apply list_lookup_singleton_Some in Hi as [Hi ->].
      replace i with (length xs) by lia. apply list_lookup_insert_eq. lia.
  - intros i Hi Hib. change (slot _ i) with (slot c i). rewrite length_app in Hi; simpl in Hi.
    rewrite list_lookup_insert_ne by (apply Hne; lia). apply Hf; lia.
Qed.

Lemma slot_shift c i :
  (0 ≤ tail c < bufsz)%Z →
  Z.to_nat (((tail c + 1) mod bufsz + Z.of_nat i) mod bufsz) = slot c (S i).
Proof. intros. unfold slot. rewrite Z.add_mod_idemp_l by lia. do 2 f_equal. lia. Qed.

Lemma circ_pop_spec c xs x :
  rep c (x :: xs) → ∃ c', pop_front c = Ok (c', x) ∧ rep c' xs.
Proof.
  intros Hrep. pose proof Hrep as [[H0 H1] Hbuf Ht Hh Hl Hs Hf].
  pose proof (bufsz_bounds H0 H1) as Hbs. unfold pop_front. rewrite (size_spec c _ Hrep).
  simpl length in *. rewrite bool_decide_eq_true_2 by lia.
  assert (Htl : Z.to_nat (tail c) = slot c 0).
  { unfold slot. rewrite Z.add_0_r, Z.mod_small; lia. }
  rewrite Htl, (Hs 0 x eq_refl). eexists; split; [done|].
  rewrite mask_mod, u64_small by lia.
  assert (Hne : ∀ i, (Z.of_nat (S i) < bufsz)%Z → slot c 0 ≠ slot c (S i)).
  { intros i Hi. apply slot_inj; lia. }
  constructor; cbn [head tail buffer]; try done.
  - by rewrite length_insert.
  - apply Z.mod_pos_bound. lia.
  - rewrite Hh, Z.add_mod_idemp_l by lia. f_equal. lia.
  - lia.
  - intros i y Hi. unfold slot at 1. cbn [tail]. rewrite slot_shift by done.
    pose proof (lookup_lt_Some _ _ _ Hi). rewrite list_lookup_insert_ne by (apply Hne; lia).
    apply (Hs (S i) y Hi).
  - intros i Hi Hib. unfold slot at 1. cbn [tail]. rewrite slot_shift by done.
    destruct (decide (Z.of_nat (S i) < bufsz)%Z) as [Hlt|Hge].
    + rewrite list_lookup_insert_ne by (by apply Hne). apply Hf; lia.
    + assert (slot c (S i) = slot c 0) as ->.
      { unfold slot. replace (Z.of_nat (S i)) with bufsz by lia.
        rewrite Z.add_0_r. rewrite <-(Z.mul_1_l bufsz) at 1. by rewrite Z.mod_add by lia. }
      apply list_lookup_insert_eq. rewrite Hbuf. by apply slot_lt.
Qed.

#[export] Instance circbuf_fsc : FixedSizeCollection t T := {|
  fsc_size := size; fsc_is_full := is_full; fsc_push_back := push_back;
  fsc_pop_front := pop_front; fsc_empty := init |}.
End defs.
Arguments t : clear implicits.

(** The ring implements the interface with room for [2^maxsz_bits - 1] values. *)
Program Definition circbuf_laws {T} (maxsz_bits : nat) (H0 : 0 < maxsz_bits) (H1 : maxsz_bits ≤ 30) :
  @FixedSizeCollectionLaws (t T) T (circbuf_fsc maxsz_bits) := {|
  fsc_max := Z.to_nat (maxsz maxsz_bits);
  fsc_rep := rep maxsz_bits |}.
Next Obligation. intros T b H0 H1. pose proof (bufsz_bounds b H0 H1). unfold maxsz. lia. Qed.
Next Obligation. intros T b H0 H1. by apply init_rep. Qed.
Next Obligation. intros T b H0 H1 c xs Hrep. pose proof (rep_length _ _ _ Hrep). unfold maxsz. lia. Qed.
Next Obligation. intros T b H0 H1 c xs. apply size_spec. Qed.
Next Obligation.
  intros T b H0 H1 c xs Hrep. simpl. unfold is_full. rewrite (size_spec _ _ _ Hrep).
  pose proof (bufsz_bounds b H0 H1). apply bool_decide_ext. unfold maxsz. lia.
Qed.
Next Obligation.
  intros T b H0 H1 c xs x Hrep Hlt. apply circ_push_spec; [done|].
  pose proof (bufsz_bounds b H0 H1). unfold maxsz in *. lia.
Qed.
Next Obligation. intros T b H0 H1 c xs x. apply circ_pop_spec. Qed.
End CircBuf.

(** ** MWSRFixedSizeQueueWithFlowControl *)
Module Mwsr.
Section defs.
Context {C T : Type} `{FixedSizeCollection C T}.

Record t : Type := mk { coll : C; killflag : bool; nfulls : Z; hwmsize : Z }.
Definition init : t := mk fsc_empty false 0 0.

(** *** The bodies under the mutex

    [Block] is a wait on the condition variable, after which the body runs
    again; [Return] leaves without a notification; [Notify] leaves the mutex and
    then notifies. *)
Inductive outcome (A : Type) : Type := Block | Return (a : A) | Notify (a : A).
#[global] Arguments Block {A}.
#[global] Arguments Return {A} a.
#[global] Arguments Notify {A} a.

(** [push_back]: one evaluation of the loop condition and what follows it *)
Definition push_try (it : T) (q : t) : res (t * outcome unit) :=
  if fsc_is_full (coll q) && negb (killflag q) then Ok (q, Block)
  else if killflag q then Ok (q, Return tt)
  else
    ASSERT negb (fsc_is_full (coll q)) ;;
    c ← fsc_push_back it (coll q);
    Ok (mk c (killflag q) (nfulls q) (Z.max (hwmsize q) (fsc_size c)), Notify tt).

(** after a wake-up: [++nfulls] on an [int], then the condition again *)
Definition push_woken (it : T) (q : t) : res (t * outcome unit) :=
  REQUIRE in_i32 (nfulls q + 1) ;;
  push_try it (mk (coll q) (killflag q) (nfulls q + 1) (hwmsize q)).

(** the three [pop_front]s: one message, up to [count], up to [count] in bounded time *)
Inductive request : Type := One | Many (count : nat) | Timed (count : nat).

Fixpoint pop_n (n : nat) (c : C) : res (C * list T) :=
  match n with
  | O => Ok (c, [])
  | S n' =>
      '(c, x) ← fsc_pop_front c;
      '(c, xs) ← pop_n n' c;
      Ok (c, x :: xs)
  end.

Definition sz2move (count : nat) (c : C) : Z :=
  if bool_decide (Z.of_nat count ≤ fsc_size c)%Z then Z.of_nat count else fsc_size c.

Definition with_coll (q : t) (c : C) : t := mk c (killflag q) (nfulls q) (hwmsize q).

(** [expired] is the local flag of the timed variant. The result is the messages
    and, for [pop_front()], whether there is one. *)
Definition pop_try (r : request) (expired : bool) (q : t) : res (t * outcome (list T)) :=
  let wait := bool_decide (fsc_size (coll q) = 0%Z) &&
              (match r with Timed _ => negb expired | _ => true end) && negb (killflag q) in
  if wait then Ok (q, Block)
  else if killflag q then Ok (q, Return [])
  else match r with
       | One =>
           ASSERT bool_decide (0 < fsc_size (coll q))%Z ;;
           '(c, x) ← fsc_pop_front (coll q);
           Ok (with_coll q c, Notify [x])
       | Many count =>
           ASSERT bool_decide (0 < fsc_size (coll q))%Z ;;
           '(c, xs) ← pop_n (Z.to_nat (sz2move count (coll q))) (coll q);
           Ok (with_coll q c, Notify xs)
       | Timed count =>
           '(c, xs) ← pop_n (Z.to_nat (sz2move count (coll q))) (coll q);
           Ok (with_coll q c, Notify xs)
       end.

Definition kill_set (q : t) : t := mk (coll q) true (nfulls q) (hwmsize q).

(** *** The threads *)
Inductive wstate : Type :=
  | WReady (it : T)        (* about to take the mutex *)
  | WBlocked (it : T)      (* in [waitwr.wait] *)
  | WWoken (it : T)        (* notified, about to take the mutex again *)
  | WNotify                (* pushed; [waitrd.notify_one()] is next *)
  | WDone.
Inductive rstate : Type :=
  | RIdle
  | RReady (r : request) (expired : bool)
  | RBlocked (r : request)
  | RNotify.               (* popped; [waitwr.notify_one()] is next *)
(** [kill()]: the flag is set under the mutex, then both [notify_all]s *)
Inductive kstate : Type := KNot | KSet | KReader | KDone.

(** [pushed] and [popped] record the messages in the order the mutex gave them. *)
Record state : Type := mkState {
  q : t;
  writers : list wstate;
  reader : rstate;
  killer : kstate;
  pushed : list T;
  popped : list T;
}.

Definition initial (n : nat) : state := mkState init (replicate n WDone) RIdle KNot [] [].

Definition set_writer (i : nat) (w : wstate) (s : state) : state :=
  mkState (q s) (<[i := w]> (writers s)) (reader s) (killer s) (pushed s) (popped s).
Definition set_reader (r : rstate) (s : state) : state :=
  mkState (q s) (writers s) r (killer s) (pushed s) (popped s).

(** leaving the mutex after [push_try] or [push_woken] *)
Definition after_push (i : nat) (it : T) (q' : t) (o : outcome unit) (s : state) : state :=
  match o with
  | Block => mkState q' (<[i := WBlocked it]> (writers s)) (reader s) (killer s) (pushed s) (popped s)
  | Return _ => mkState q' (<[i := WDone]> (writers s)) (reader s) (killer s) (pushed s) (popped s)
  | Notify _ => mkState q' (<[i := WNotify]> (writers s)) (reader s) (killer s) (pushed s ++ [it]) (popped s)
  end.
Definition after_pop (r : request) (q' : t) (o : outcome (list T)) (s : state) : state :=
  match o with
  | Block => mkState q' (writers s) (RBlocked r) (killer s) (pushed s) (popped s)
  | Return _ => mkState q' (writers s) RIdle (killer s) (pushed s) (popped s)
  | Notify xs => mkState q' (writers s) RNotify (killer s) (pushed s) (popped s ++ xs)
  end.

(** [waitrd.notify_one()] and [notify_all()]: only the reader waits there *)
Definition wake_reader (r : rstate) : rstate :=
  match r with RBlocked r => RReady r false | _ => r end.
Definition wake_writer (w : wstate) : wstate :=
  match w with WBlocked it => WWoken it | _ => w end.

Definition is_blocked (w : wstate) : bool := match w with WBlocked _ => true | _ => false end.

Inductive step : state → state → Prop :=
  | step_call s i it : writers s !! i = Some WDone → step s (set_writer i (WReady it) s)
  | step_push s i it q' o : writers s !! i = Some (WReady it) →
      push_try it (q s) = Ok (q', o) → step s (after_push i it q' o s)
  | step_push_again s i it q' o : writers s !! i = Some (WWoken it) →
      push_woken it (q s) = Ok (q', o) → step s (after_push i it q' o s)
  | step_notify_reader s i : writers s !! i = Some WNotify →
      step s (set_writer i WDone (set_reader (wake_reader (reader s)) s))
  | step_spurious_writer s i it : writers s !! i = Some (WBlocked it) →
      step s (set_writer i (WWoken it) s)
  | step_pop_call s r : reader s = RIdle → step s (set_reader (RReady r false) s)
  | step_pop s r e q' o : reader s = RReady r e →
      pop_try r e (q s) = Ok (q', o) → step s (after_pop r q' o s)
  | step_spurious_reader s r : reader s = RBlocked r → step s (set_reader (RReady r false) s)
  | step_expire s count : reader s = RBlocked (Timed count) →
      step s (set_reader (RReady (Timed count) true) s)
  | step_notify_writer s i it : reader s = RNotify → writers s !! i = Some (WBlocked it) →
      step s (set_writer i (WWoken it) (set_reader RIdle s))
  | step_notify_nobody s : reader s = RNotify → forallb (negb ∘ is_blocked) (writers s) = true →
      step s (set_reader RIdle s)
  | step_kill s : killer s = KNot →
      step s (mkState (kill_set (q s)) (writers s) (reader s) KSet (pushed s) (popped s))
  | step_kill_reader s : killer s = KSet →
      step s (mkState (q s) (writers s) (wake_reader (reader s)) KReader (pushed s) (popped s))
  | step_kill_writers s : killer s = KReader →
      step s (mkState (q s) (wake_writer <$> writers s) (reader s) KDone (pushed s) (popped s)).

Definition reachable (n : nat) (s : state) : Prop := rtc step (initial n) s.
End defs.
Arguments t : clear implicits.
Arguments wstate : clear implicits.
Arguments state : clear implicits.

(** *** The invariant *)
Section inv.
Context {C T : Type} `{FixedSizeCollectionLaws C T}.
Implicit Types (s : state C T) (q : t C).

Definition is_notify (w : wstate T) : bool := match w with WNotify => true | _ => false end.
Definition is_woken (w : wstate T) : bool := match w with WWoken _ => true | _ => false end.

(** some writer is in a state of the given kind *)
Definition has (p : wstate T → bool) (ws : list (wstate T)) : Prop :=
  ∃ i w, ws !! i = Some w ∧ p w = true.

Lemma has_insert_new p ws i w w' : ws !! i = Some w' → p w = true → has p (<[i := w]> ws).
Proof. intros Hi Hp. exists i, w. split; [|done]. apply list_lookup_insert_eq. by eapply lookup_lt_Some. Qed.

Lemma has_insert_keep p ws i w w' : ws !! i = Some w' → p w' = false → has p ws → has p (<[i := w]> ws).
Proof.
  intros Hi Hp (j & v & Hj & Hv). exists j, v. split; [|done].
  rewrite list_lookup_insert_ne; [done|]. congruence.
Qed.

Lemma has_insert_inv p ws i w : p w = false → has p (<[i := w]> ws) → has p ws.
Proof.
  intros Hp (j & v & Hj & Hv). apply list_lookup_insert_Some in Hj as [(-> & <- & _)|[_ Hj]]; [congruence|].
  by exists j, v.
Qed.

(** [xs] is what the queue holds. *)
Record inv_with (xs : list T) s : Prop := {
  inv_rep : fsc_rep (coll (q s)) xs;
  inv_fifo : pushed s = popped s ++ xs;
  inv_kill : killflag (q s) = true ↔ killer s ≠ KNot;
  (* a waiting reader has nothing to read, or is about to be notified *)
  inv_reader : ∀ r, reader s = RBlocked r → killflag (q s) = false →
    xs = [] ∨ has is_notify (writers s);
  (* a waiting writer waits for a reader that has something to read, or another
     writer has been woken, or the reader is about to wake one *)
  inv_writer : has is_blocked (writers s) → killflag (q s) = false →
    xs ≠ [] ∨ has is_woken (writers s) ∨ reader s = RNotify;
  (* after [kill] nobody waits *)
  inv_dead_reader : ∀ r, reader s = RBlocked r → killflag (q s) = true → killer s = KSet;
  inv_dead_writer : has is_blocked (writers s) → killflag (q s) = true →
    killer s = KSet ∨ killer s = KReader;
}.
Definition inv s : Prop := ∃ xs, inv_with xs s.

Lemma push_try_spec it q xs :
  fsc_rep (coll q) xs →
  ∃ q' o, push_try it q = Ok (q', o) ∧ killflag q' = killflag q ∧
    match o with
    | Block => q' = q ∧ killflag q = false ∧ length xs = fsc_max
    | Return _ => q' = q ∧ killflag q = true
    | Notify _ => killflag q = false ∧ fsc_rep (coll q') (xs ++ [it])
    end.
Proof.
  intros Hrep. unfold push_try. rewrite (fsc_is_full_spec _ _ Hrep).
  pose proof (fsc_rep_length _ _ Hrep).
  destruct (killflag q) eqn:Hk; [rewrite andb_false_r; eauto 8|]. rewrite andb_true_r.
  destruct (bool_decide_reflect (length xs = fsc_max)) as [Hf|Hf]; [eauto 8|].
  destruct (fsc_push_spec _ xs it Hrep) as (c & -> & Hc); [lia|].
  cbn [negb mbind res_bind]. eexists _, _. split; [done|]. done.
Qed.

Lemma pop_n_spec n c xs :
  fsc_rep c xs → n ≤ length xs →
  ∃ c', pop_n n c = Ok (c', take n xs) ∧ fsc_rep c' (drop n xs).
Proof.
  revert c xs. induction n as [|n IH]; intros c xs Hrep Hn; cbn [pop_n]; [by eexists|].
  destruct xs as [|x xs]; [simpl in Hn; lia|].
  destruct (fsc_pop_spec _ _ _ Hrep) as (c1 & -> & Hc1). cbn [mbind res_bind].
  destruct (IH c1 xs Hc1) as (c2 & -> & Hc2); [simpl in Hn; lia|]. by eexists.
Qed.

Lemma sz2move_spec count c xs :
  fsc_rep c xs → Z.to_nat (sz2move count c) = count `min` length xs.
Proof.
  intros Hrep. unfold sz2move. rewrite (fsc_size_spec _ _ Hrep). case_bool_decide; lia.
Qed.

Lemma pop_try_spec r e q xs :
  fsc_rep (coll q) xs →
  ∃ q' o, pop_try r e q = Ok (q', o) ∧ killflag q' = killflag q ∧
    match o with
    | Block => q' = q ∧ killflag q = false ∧ xs = []
    | Return _ => q' = q ∧ killflag q = true
    | Notify ys => killflag q = false ∧ ∃ zs, xs = ys ++ zs ∧ fsc_rep (coll q') zs
    end.
Proof.
  intros Hrep. unfold pop_try. rewrite (fsc_size_spec _ _ Hrep).
  destruct (killflag q) eqn:Hk; [rewrite andb_false_r; eauto 8|].
  rewrite andb_true_r.
  destruct (bool_decide_reflect (Z.of_nat (length xs) = 0%Z)) as [Hz|Hz].
  - assert (xs = []) as -> by (apply nil_length_inv; lia).
    destruct r as [|n|n]; cbn [andb]; [eauto 8|eauto 8|].
    destruct e; cbn [negb]; [|eauto 8].
    rewrite (sz2move_spec _ _ _ Hrep). rewrite Nat.min_0_r. simpl.
    eexists _, _. split; [done|]. split; [done|]. split; [done|]. by exists [].
  - cbn [andb]. assert (0 < length xs) by lia. destruct r as [|n|n].
    + rewrite bool_decide_eq_true_2 by lia. destruct xs as [|x xs]; [done|].
      destruct (fsc_pop_spec _ _ _ Hrep) as (c1 & -> & Hc1). cbn [mbind res_bind].
      eexists _, _. split; [done|]. split; [done|]. split; [done|]. by exists xs.
    + rewrite bool_decide_eq_true_2 by lia. rewrite (sz2move_spec _ _ _ Hrep).
      destruct (pop_n_spec (n `min` length xs) _ xs Hrep) as (c1 & -> & Hc1); [lia|].
      cbn [mbind res_bind]. eexists _, _. split; [done|]. split; [done|]. split; [done|].
      eexists. split; [symmetry; apply take_drop|done].
    + rewrite (sz2move_spec _ _ _ Hrep).
      destruct (pop_n_spec (n `min` length xs) _ xs Hrep) as (c1 & -> & Hc1); [lia|].
      cbn [mbind res_bind]. eexists _, _. split; [done|]. split; [done|]. split; [done|].
      eexists. split; [symmetry; apply take_drop|done].
Qed.

Lemma inv_initial n : inv (initial n).
Proof.
  assert (Hnone : ∀ p, p WDone = false → ¬ has p (replicate n (WDone (T:=T)))).
  { intros p Hp (i & w & Hi & Hw). apply lookup_replicate in Hi as [-> _]. congruence. }
  exists []. constructor; simpl; try done.
  - apply fsc_rep_empty.
  - intros Hb. exfalso. by apply (Hnone is_blocked).
Qed.

(** Steps of writer [i] outside the mutex. *)
Lemma inv_set_writer xs s i w w' :
  inv_with xs s → writers s !! i = Some w →
  is_blocked w' = false → is_notify w = false → is_woken w = false →
  inv_with xs (set_writer i w' s).
Proof.
  intros [? ? ? Hr Hw Hdr Hdw] Hi Hb Hn Hk. constructor; cbn [q writers reader killer pushed popped set_writer]; try done.
  - intros r Hrd Hf. destruct (Hr r Hrd Hf) as [?|?]; [by left|right]. by eapply has_insert_keep.
  - intros Hbl Hf. apply has_insert_inv in Hbl; [|done].
    destruct (Hw Hbl Hf) as [?|[?|?]]; [by left|right; left|by right; right]. by eapply has_insert_keep.
  - intros Hbl Hf. apply has_insert_inv in Hbl; [|done]. auto.
Qed.

Lemma inv_after_push xs s i it q' o w q0 :
  inv_with xs s → writers s !! i = Some w → is_notify w = false → is_blocked w = false →
  coll q0 = coll (q s) → killflag q0 = killflag (q s) →
  push_try it q0 = Ok (q', o) → inv (after_push i it q' o s).
Proof.
  intros [Hrep Hfifo Hkill Hr Hw Hdr Hdw] Hi Hn Hb Hc Hk Hp.
  destruct (push_try_spec it q0 xs) as (q1 & o1 & Hp1 & Hk1 & Ho); [by rewrite Hc|].
  rewrite Hp1 in Hp. simplify_eq. pose proof fsc_max_pos as Hpos.
  destruct o as [|u|u]; cbn [after_push].
  - destruct Ho as (-> & Hkf & Hfull). exists xs.
    assert (xs ≠ []) by (intros ->; simpl in *; lia).
    constructor; cbn [q writers reader killer pushed popped]; try done; rewrite ?Hk, ?Hc; try done.
    + intros r Hrd Hf. destruct (Hr r Hrd Hf) as [?|?]; [by left|right]. by eapply has_insert_keep.
    + auto.
    + intros _ Hf. congruence.
  - destruct Ho as (-> & Hkf). exists xs.
    constructor; cbn [q writers reader killer pushed popped]; try done; rewrite ?Hk, ?Hc; try done; try congruence.
    + intros Hbl Hf. apply has_insert_inv in Hbl; [|done]. apply Hdw; congruence.
  - destruct Ho as (Hkf & Hrep'). exists (xs ++ [it]).
    constructor; cbn [q writers reader killer pushed popped]; try done; rewrite ?Hk1, ?Hk; try done; try congruence.
    + by rewrite Hfifo, app_assoc.
    + intros r Hrd Hf. right. by eapply has_insert_new.
    + intros _ _. left. by destruct xs.
Qed.

Lemma inv_after_pop xs s r e q' o :
  inv_with xs s → reader s = RReady r e →
  pop_try r e (q s) = Ok (q', o) → inv (after_pop r q' o s).
Proof.
  intros [Hrep Hfifo Hkill Hr Hw Hdr Hdw] Hrd Hp.
  destruct (pop_try_spec r e (q s) xs Hrep) as (q1 & o1 & Hp1 & Hk1 & Ho).
  rewrite Hp1 in Hp. simplify_eq. destruct o as [|ys|ys]; cbn [after_pop].
  - destruct Ho as (-> & Hkf & ->). exists [].
    constructor; cbn [q writers reader killer pushed popped]; try done; auto; try congruence.
    intros Hb Hf. destruct (Hw Hb Hf) as [?|[?|?]]; [done|auto|congruence].
  - destruct Ho as (-> & Hkf). exists xs.
    constructor; cbn [q writers reader killer pushed popped]; try done; congruence.
  - destruct Ho as (Hkf & zs & -> & Hrep'). exists zs.
    constructor; cbn [q writers reader killer pushed popped]; try done; rewrite ?Hk1; try done; try congruence.
    + by rewrite Hfifo, app_assoc.
    + auto.
Qed.

Lemma forallb_not_blocked ws : forallb (negb ∘ is_blocked (T:=T)) ws = true → ¬ has is_blocked ws.
Proof.
  intros Hall (i & w & Hi & Hw). rewrite forallb_forall in Hall.
  specialize (Hall w). apply list_elem_of_lookup_2, list_elem_of_In, Hall in Hi. simpl in Hi.
  by rewrite Hw in Hi.
Qed.

Lemma inv_notify_reader xs s i :
  inv_with xs s → writers s !! i = Some WNotify →
  inv_with xs (set_writer i WDone (set_reader (wake_reader (reader s)) s)).
Proof.
  intros [Hrep Hfifo Hkill Hr Hw Hdr Hdw] Hi.
  assert (Hnb : ∀ r, wake_reader (reader s) ≠ RBlocked r) by (intros r; by destruct (reader s)).
  constructor; cbn [q writers reader killer pushed popped set_writer set_reader]; try done.
  - intros r Hrd. by apply Hnb in Hrd.
  - intros Hb Hf. apply has_insert_inv in Hb; [|done].
    destruct (Hw Hb Hf) as [?|[?|Hn]]; [by left|right; left; by eapply has_insert_keep|].
    right; right. by rewrite Hn.
  - intros r Hrd. by apply Hnb in Hrd.
  - intros Hb Hf. apply has_insert_inv in Hb; [|done]. auto.
Qed.

Lemma inv_wake_writer xs s i it :
  inv_with xs s → writers s !! i = Some (WBlocked it) → inv_with xs (set_writer i (WWoken it) s).
Proof.
  intros [Hrep Hfifo Hkill Hr Hw Hdr Hdw] Hi.
  constructor; cbn [q writers reader killer pushed popped set_writer]; try done.
  - intros r Hrd Hf. destruct (Hr r Hrd Hf) as [?|?]; [by left|right]. by eapply has_insert_keep.
  - intros _ _. right; left. by eapply has_insert_new.
  - intros Hb Hf. apply has_insert_inv in Hb; [|done]. auto.
Qed.

Lemma inv_set_reader xs s r :
  inv_with xs s → (∀ r', r ≠ RBlocked r') →
  (reader s = RNotify → has is_blocked (writers s) → has is_woken (writers s)) →
  inv_with xs (set_reader r s).
Proof.
  intros [Hrep Hfifo Hkill Hr Hw Hdr Hdw] Hnb Hn.
  constructor; cbn [q writers reader killer pushed popped set_reader]; try done.
  - intros r' Hrd. by apply Hnb in Hrd.
  - intros Hb Hf. destruct (Hw Hb Hf) as [?|[?|?]]; auto.
  - intros r' Hrd. by apply Hnb in Hrd.
Qed.

Lemma inv_step s s' : inv s → step s s' → inv s'.
Proof.
  intros [xs Hinv] Hstep. destruct Hstep as
    [s i it Hi|s i it q' o Hi Hp|s i it q' o Hi Hp|s i Hi|s i it Hi|s r Hr|s r e q' o Hr Hp|s r Hr|s c Hr
    |s i it Hr Hi|s Hr Hall|s Hk|s Hk|s Hk].
  - exists xs. by eapply inv_set_writer.
  - by eapply inv_after_push.
  - unfold push_woken in Hp. inv_res.
    eapply inv_after_push; [exact Hinv|exact Hi|done|done| | |exact Hp]; done.
  - exists xs. by apply inv_notify_reader.
  - exists xs. by apply inv_wake_writer.
  - exists xs. apply inv_set_reader; [done..|]. congruence.
  - by eapply inv_after_pop.
  - exists xs. apply inv_set_reader; [done..|]. congruence.
  - exists xs. apply inv_set_reader; [done..|]. congruence.
  - exists xs. assert (Hinv' := inv_wake_writer xs s i it Hinv Hi).
    apply (inv_set_reader xs _ RIdle) in Hinv'; [done|done|]. intros _ _. by eapply has_insert_new.
  - exists xs. apply inv_set_reader; [done..|]. intros _ Hb. by apply forallb_not_blocked in Hall.
  - exists xs. destruct Hinv as [Hrep Hfifo Hkill Hr Hw Hdr Hdw].
    constructor; cbn [q writers reader killer pushed popped kill_set killflag coll]; auto; done.
  - exists xs. destruct Hinv as [Hrep Hfifo Hkill Hr Hw Hdr Hdw].
    assert (killflag (q s) = true) by (apply Hkill; congruence).
    assert (Hnb : ∀ r, wake_reader (reader s) ≠ RBlocked r) by (intros r; by destruct (reader s)).
    constructor; cbn [q writers reader killer pushed popped]; try done; try congruence; auto.
  - exists xs. destruct Hinv as [Hrep Hfifo Hkill Hr Hw Hdr Hdw].
    assert (killflag (q s) = true) by (apply Hkill; congruence).
    assert (Hnb : ¬ has is_blocked (wake_writer <$> writers s)).
    { intros (i & w & Hi & Hb). rewrite list_lookup_fmap in Hi.
      destruct (writers s !! i) as [[]|]; simpl in Hi; simplify_eq; done. }
    constructor; cbn [q writers reader killer pushed popped]; try done; try congruence.
    intros r Hrd Hf. specialize (Hdr r Hrd Hf). congruence.
Qed.

Lemma inv_reachable n s : reachable n s → inv s.
Proof.
  unfold reachable. intros Hr. pose proof (inv_initial n) as H1. revert H1.
  induction Hr as [s|s s' s'' Hst _ IH]; [done|]. intros Hi. apply IH. by eapply inv_step.
Qed.
End inv.
End Mwsr.

(** ** What the queue promises *)
Module RingQueueSpec.
Import Mwsr.

(** [CircularBuffer] is a bounded queue: with the branch-free [size()], the
    masked indices and objects constructed and destroyed in place, it holds
    what was pushed and not popped, in order, up to [2^maxsz_bits - 1] values;
    [push_back] and [pop_front] succeed exactly when there is room or a value,
    never touch a slot outside the buffer or without an object, and leave no
    object behind in a free slot. *)
Theorem circular_buffer_is_queue {T} (maxsz_bits : nat) (c : CircBuf.t T) (xs : list T) (x : T) :
  CircBuf.rep maxsz_bits c xs →
  CircBuf.size maxsz_bits c = Z.of_nat (length xs) ∧
  (CircBuf.is_full maxsz_bits c = true ↔ Z.of_nat (length xs) = CircBuf.maxsz maxsz_bits) ∧
  (if bool_decide (Z.of_nat (length xs) < CircBuf.maxsz maxsz_bits)%Z
   then ∃ c', CircBuf.push_back maxsz_bits x c = Ok c' ∧ CircBuf.rep maxsz_bits c' (xs ++ [x])
   else CircBuf.push_back maxsz_bits x c = AssertFail) ∧
  match xs with
  | [] => CircBuf.pop_front maxsz_bits c = AssertFail
  | y :: ys => ∃ c', CircBuf.pop_front maxsz_bits c = Ok (c', y) ∧ CircBuf.rep maxsz_bits c' ys
  end.
Proof.
  intros Hrep. pose proof (CircBuf.size_spec _ _ _ Hrep) as Hs. split; [done|]. split.
  { unfold CircBuf.is_full. rewrite Hs. apply bool_decide_eq_true. }
  split.
  - destruct (bool_decide_reflect (Z.of_nat (length xs) < CircBuf.maxsz maxsz_bits)%Z).
    + by apply CircBuf.circ_push_spec.
    + unfold CircBuf.push_back. by rewrite Hs, bool_decide_eq_false_2.
  - destruct xs as [|y ys]; [|by apply CircBuf.circ_pop_spec].
    unfold CircBuf.pop_front. by rewrite Hs.
Qed.

Lemma circular_buffer_is_queue_witness :
  ∃ c', CircBuf.push_back 4 7 (CircBuf.init 4) = Ok c' ∧ CircBuf.rep 4 c' ([] ++ [7]).
Proof. apply (circular_buffer_is_queue 4 (CircBuf.init 4) []). apply CircBuf.init_rep; lia. Defined.

Section spec.
Context {C T : Type} `{FixedSizeCollectionLaws C T}.

(** C8. The messages pass through in order, none lost, duplicated or invented,
    whatever the interleaving of any number of writers with the reader, its
    bulk and timed reads, spurious wake-ups and [kill]: at every moment what was
    popped followed by what the queue holds is what was pushed, and the queue
    holds at most its capacity. *)
Theorem messages_fifo (n : nat) (s : state C T) :
  reachable n s →
  ∃ xs, fsc_rep (coll (q s)) xs ∧ pushed s = popped s ++ xs ∧ length xs ≤ fsc_max.
Proof.
  intros Hr. destruct (inv_reachable _ _ Hr) as (xs & Hinv). exists xs.
  pose proof (inv_rep _ _ Hinv) as Hrep. split_and!; [done|apply Hinv|by eapply fsc_rep_length].
Qed.

(** No assertion of the queue fails and no thread is stuck inside a method:
    in every reachable state a writer or the reader that has the mutex completes
    its critical section (the writers' [int] counter of waits apart, which
    must not overflow). *)
Theorem critical_sections_succeed (n : nat) (s : state C T) :
  reachable n s →
  (∀ it, is_ok (push_try it (q s)) = true) ∧
  (∀ it, in_i32 (nfulls (q s) + 1) = true → is_ok (push_woken it (q s)) = true) ∧
  (∀ r e, is_ok (pop_try r e (q s)) = true).
Proof.
  intros Hr. destruct (inv_reachable _ _ Hr) as (xs & Hinv).
  pose proof (inv_rep _ _ Hinv) as Hrep. split_and!.
  - intros it. by destruct (push_try_spec it (q s) xs Hrep) as (? & ? & -> & _).
  - intros it Hi. unfold push_woken. rewrite Hi.
    destruct (push_try_spec it (mk (coll (q s)) (killflag (q s)) (nfulls (q s) + 1) (hwmsize (q s))) xs)
      as (? & ? & -> & _); done.
  - intros r e. by destruct (pop_try_spec r e (q s) xs Hrep) as (? & ? & -> & _).
Qed.

(** Nothing can happen but a spurious wake-up, a timeout or a new call. *)
Definition quiescent (s : state C T) : Prop :=
  (∀ i w, writers s !! i = Some w → w = WDone ∨ ∃ it, w = WBlocked it) ∧
  (reader s = RIdle ∨ ∃ r, reader s = RBlocked r) ∧
  (killer s = KNot ∨ killer s = KDone).

(** C24. No lost wake-up, no deadlock: when everything has come to rest without
    [kill], a reader that still waits has an empty queue and no writer waits
    with it, and a writer that still waits has a reader that is not waiting and
    a queue that is not empty, so that the next read will wake one; after
    [kill] nobody waits any more. *)
Theorem no_lost_wakeup (n : nat) (s : state C T) :
  reachable n s → quiescent s →
  ∃ xs, fsc_rep (coll (q s)) xs ∧
    (killer s = KNot →
      ((∃ r, reader s = RBlocked r) → xs = [] ∧ ¬ has is_blocked (writers s)) ∧
      (has is_blocked (writers s) → reader s = RIdle ∧ xs ≠ [])) ∧
    (killer s = KDone → (∀ r, reader s ≠ RBlocked r) ∧ ¬ has is_blocked (writers s)).
Proof.
  intros Hr (Hqw & Hqr & Hqk). destruct (inv_reachable _ _ Hr) as (xs & [Hrep _ Hkill Hrd Hwr Hdr Hdw]).
  exists xs. split; [done|].
  assert (Hnn : ¬ has is_notify (writers s)).
  { intros (i & w & Hi & Hw). destruct (Hqw _ _ Hi) as [->|[it ->]]; done. }
  assert (Hnw : ¬ has is_woken (writers s)).
  { intros (i & w & Hi & Hw). destruct (Hqw _ _ Hi) as [->|[it ->]]; done. }
  split.
  - intros Hk. assert (Hkf : killflag (q s) = false).
    { destruct (killflag (q s)); [|done]. by destruct (proj1 Hkill eq_refl). }
    assert (Hw : has is_blocked (writers s) → xs ≠ []).
    { intros Hb. destruct (Hwr Hb Hkf) as [?|[?|Hn]]; [done..|].
      destruct Hqr as [?|[r ?]]; congruence. }
    assert (Hx : ∀ r, reader s = RBlocked r → xs = []).
    { intros r Hb. by destruct (Hrd r Hb Hkf). }
    split.
    + intros [r Hb]. specialize (Hx r Hb). split; [done|]. intros Hbl. by apply Hw in Hbl.
    + intros Hbl. specialize (Hw Hbl). split; [|done].
      destruct Hqr as [?|[r Hb]]; [done|]. by rewrite (Hx r Hb) in Hw.
  - intros Hk. assert (Hkf : killflag (q s) = true) by (apply Hkill; congruence). split.
    + intros r Hb. specialize (Hdr r Hb Hkf). congruence.
    + intros Hb. destruct (Hdw Hb Hkf); congruence.
Qed.
End spec.

(** A run of the queue of the cluster ([CircularBuffer<InterThreadMsg, 4>]). *)
Definition laws4 : @FixedSizeCollectionLaws (CircBuf.t nat) nat (CircBuf.circbuf_fsc 4) :=
  CircBuf.circbuf_laws 4 (Nat.lt_0_succ 3) (proj1 (Nat.leb_le 4 30) eq_refl).

Definition start4 : state (CircBuf.t nat) nat := @initial _ _ (CircBuf.circbuf_fsc 4) 2.
(** the reader blocked on an empty queue *)
Definition blocked4 : state (CircBuf.t nat) nat :=
  set_reader (RBlocked One) start4.

Lemma blocked4_reachable : @reachable _ _ (CircBuf.circbuf_fsc 4) 2 blocked4.
Proof.
  eapply rtc_l; [by apply (step_pop_call (H:=CircBuf.circbuf_fsc 4) start4 One)|].
  eapply rtc_l; [|apply rtc_refl].
  apply (step_pop (H:=CircBuf.circbuf_fsc 4) (set_reader (RReady One false) start4) One false (q start4) Block);
    vm_compute; reflexivity.
Qed.

Lemma messages_fifo_witness :
  ∃ xs, @fsc_rep _ _ _ laws4 (coll (q blocked4)) xs ∧ pushed blocked4 = popped blocked4 ++ xs ∧
        length xs ≤ @fsc_max _ _ _ laws4.
Proof. apply (@messages_fifo _ _ _ laws4 2 blocked4), blocked4_reachable. Defined.

Lemma critical_sections_succeed_witness :
  (∀ it, is_ok (@push_try _ _ (CircBuf.circbuf_fsc 4) it (q blocked4)) = true) ∧
  (∀ it, in_i32 (nfulls (q blocked4) + 1) = true →
         is_ok (@push_woken _ _ (CircBuf.circbuf_fsc 4) it (q blocked4)) = true) ∧
  (∀ r e, is_ok (@pop_try _ _ (CircBuf.circbuf_fsc 4) r e (q blocked4)) = true).
Proof. apply (@critical_sections_succeed _ _ _ laws4 2 blocked4), blocked4_reachable. Defined.

Lemma no_lost_wakeup_witness :
  ∃ xs, @fsc_rep _ _ _ laws4 (coll (q blocked4)) xs ∧
    (killer blocked4 = KNot →
      ((∃ r, reader blocked4 = RBlocked r) → xs = [] ∧ ¬ has is_blocked (writers blocked4)) ∧
      (has is_blocked (writers blocked4) → reader blocked4 = RIdle ∧ xs ≠ [])) ∧
    (killer blocked4 = KDone → (∀ r, reader blocked4 ≠ RBlocked r) ∧ ¬ has is_blocked (writers blocked4)).
Proof.
  apply (@no_lost_wakeup _ _ _ laws4 2 blocked4).
  - apply blocked4_reachable.
  - split_and!.
    + intros [|[|i]] w Hi; vm_compute in Hi; try discriminate Hi; left; congruence.
    + right. by exists One.
    + by left.
Defined.
End RingQueueSpec.
