(* ===== verification/InterThread.v ===== *)
(** * Threads of the cluster (src/clustering_impl/interthread_comm_impl.h,
    src/clustering_impl/clustering.cpp, src/tcp_socket/listener_thread.cpp,
    src/infrastructure.h)

    [Module CommData] models the slot of a thread ([InterThreadCommData]): each
    method runs under the slot's mutex, so a method is one step. [Module
    ThreadSlots] models the array of slots: finding one for a new thread and
    checking the address of a message. [Module Awaker] models the protocol by
    which a message in the queue is paired with a byte in the awaker socket, on
    top of the queue of RingQueue. [Module WorkerLoad] and [Module Listeners]
    model the choice of a worker and the table of listener threads. *)

From S2P Require Import Prelude RingQueue.
From Stdlib Require Import Lia.

Module CommData.
Section defs.
(** what a [InterThreadMessagePostmanBase*] points to *)
Context {P : Type} `{EqDecision P}.

Definition invalid_write_handle : Z := UINT64_MAX.

Inductive Status : Type := unused | acquired | running | terminating.

#[global] Instance Status_eq_dec : EqDecision Status.
Proof. solve_decision. Defined.

Record t : Type := mk {
  writeHandle : Z;
  reincarnation : Z;
  postman : option P;
  status : Status;
}.
Definition init : t := mk invalid_write_handle 0 None unused.

Definition in_use (d : t) : bool :=
  bool_decide (status d ≠ terminating) && bool_decide (status d ≠ unused).

Definition getWriteHandleAndReincarnation (d : t) : bool * (Z * Z) :=
  (in_use d, (reincarnation d, writeHandle d)).
Definition getPostmanAndReincarnation (d : t) : bool * (option P * Z) :=
  (in_use d, (postman d, reincarnation d)).

Definition setTerminating (d : t) : res t :=
  ASSERT bool_decide (status d = running) ;;
  Ok (mk (writeHandle d) (reincarnation d) (postman d) terminating).

(** the postman is deleted *)
Definition setUnused (d : t) : t := mk invalid_write_handle (reincarnation d) None unused.

Definition acquireForReuse (h : Z) (d : t) : res (t * (bool * Z)) :=
  if bool_decide (status d = unused) then
    let r := u64 (reincarnation d + 1) in
    ASSERT bool_decide (postman d = None) ;;
    Ok (mk h r (postman d) acquired, (true, r))
  else Ok (d, (false, UINT64_MAX)).

Definition acquireForReuse_postman (p : option P) (d : t) : t * (bool * Z) :=
  if bool_decide (status d = unused) then
    let r := u64 (reincarnation d + 1) in
    (mk invalid_write_handle r p acquired, (true, r))
  else (d, (false, UINT64_MAX)).

Definition first_use_ok (d : t) : bool :=
  bool_decide (reincarnation d = 0%Z) && bool_decide (postman d = None) &&
  bool_decide (writeHandle d = UINT64_MAX) && bool_decide (status d = unused).

Definition setWriteHandleForFirstUse (h : Z) (d : t) : res t :=
  ASSERT first_use_ok d ;;
  Ok (mk h (reincarnation d) (postman d) acquired).

Definition setPostmanForFirstUse (p : option P) (d : t) : res t :=
  ASSERT first_use_ok d ;;
  Ok (mk (writeHandle d) (reincarnation d) p acquired).

Definition isUnused (d : t) : bool := bool_decide (status d = unused).

(** Every way a slot changes. *)
Inductive step : t → t → Prop :=
  | step_terminating d d' : setTerminating d = Ok d' → step d d'
  | step_unused d : step d (setUnused d)
  | step_acquire d h d' r : acquireForReuse h d = Ok (d', r) → step d d'
  | step_acquire_postman d p : step d (acquireForReuse_postman p d).1
  | step_first d h d' : setWriteHandleForFirstUse h d = Ok d' → step d d'
  | step_first_postman d p d' : setPostmanForFirstUse p d = Ok d' → step d d'.

Record wf (d : t) : Prop := {
  wf_unused : status d = unused → postman d = None ∧ writeHandle d = invalid_write_handle;
  wf_status : status d = unused ∨ status d = acquired;
  wf_range : (0 ≤ reincarnation d < 2 ^ 64)%Z;
}.

Lemma commdata_wf_init : wf init.
Proof. constructor; simpl; auto. lia. Qed.

Lemma step_wf d d' : wf d → step d d' → wf d'.
Proof.
  intros [Hu Hs Hr] Hstep. destruct Hstep as [d d' H|d|d h d' r H|d p|d h d' H|d p d' H].
  - unfold setTerminating in H. inv_res. destruct Hs; congruence.
  - constructor; simpl; auto.
  - unfold acquireForReuse in H. case_bool_decide; inv_res; simplify_eq; [|done].
    constructor; simpl; auto; [done|apply u64_range].
  - unfold acquireForReuse_postman. case_bool_decide; simpl; [|done].
    constructor; simpl; auto; [done|apply u64_range].
  - unfold setWriteHandleForFirstUse in H. inv_res. constructor; simpl; auto; done.
  - unfold setPostmanForFirstUse in H. inv_res. constructor; simpl; auto; done.
Qed.

Lemma acquireForReuse_unused h d :
  wf d → status d = unused →
  acquireForReuse h d = Ok (mk h (u64 (reincarnation d + 1)) None acquired,
                            (true, u64 (reincarnation d + 1))).
Proof.
  intros Hd Hu. destruct (wf_unused _ Hd Hu) as [Hp _]. unfold acquireForReuse.
  by rewrite Hp, !bool_decide_eq_true_2.
Qed.

Lemma acquireForReuse_used h d :
  status d ≠ unused → acquireForReuse h d = Ok (d, (false, UINT64_MAX)).
Proof. intros Hu. unfold acquireForReuse. by rewrite bool_decide_eq_false_2. Qed.
End defs.
Arguments t : clear implicits.
End CommData.

Module ThreadSlots.
Section defs.
Context {P : Type} `{EqDecision P}.

Definition MAX_THREADS : nat := 128.

(** [ThreadID] *)
Record ThreadID : Type := mkID { slotId : Z; reincarnation : Z }.
Definition InvalidSlotID : Z := UINT64_MAX.

#[global] Instance ThreadID_eq_dec : EqDecision ThreadID.
Proof. solve_decision. Defined.

(** [threadQueues] *)
Definition t : Type := list (CommData.t P).
Definition init : t := replicate MAX_THREADS CommData.init.

(** the loop of [preinitThreadStartupData] from slot [i] on *)
Fixpoint acquire_from (i : nat) (h : Z) (qs : t) : res (t * option (nat * Z)) :=
  match qs with
  | [] => Ok ([], None)
  | d :: qs' =>
      '(d', (found, r)) ← CommData.acquireForReuse h d;
      if (found : bool) then Ok (d' :: qs', Some (i, r))
      else '(qs'', o) ← acquire_from (S i) h qs'; Ok (d' :: qs'', o)
  end.

(** the slots from 1 on; [writeHandle] comes from [generateHandlePair()] *)
Definition preinitThreadStartupData (writeHandle : Z) (qs : t) : res (t * ThreadID) :=
  match qs with
  | [] => AssertFail
  | d0 :: qs' =>
      '(qs'', o) ← acquire_from 1 writeHandle qs';
      match o with
      | Some (slot, r) => Ok (d0 :: qs'', mkID (Z.of_nat slot) r)
      | None => AssertFail
      end
  end.

(** the checks of [postInterThreadMsg]: the slot to push to and the handle to
    write the byte to *)
Definition post_check (target : ThreadID) (qs : t) : res (nat * Z) :=
  ASSERT bool_decide (slotId target < Z.of_nat MAX_THREADS)%Z ;;
  match qs !! Z.to_nat (slotId target) with
  | None => UB
  | Some d =>
      let '(valid, (r, h)) := CommData.getWriteHandleAndReincarnation d in
      ASSERT valid ;;
      ASSERT bool_decide (r = reincarnation target) ;;
      Ok (Z.to_nat (slotId target), h)
  end.

(** One slot changes, or a new thread gets one. *)
Inductive step : t → t → Prop :=
  | step_slot qs i d d' : qs !! i = Some d → CommData.step d d' → step qs (<[i := d']> qs)
  | step_preinit qs h qs' id : preinitThreadStartupData h qs = Ok (qs', id) → step qs qs'.

Definition wf (qs : t) : Prop := length qs = MAX_THREADS ∧ Forall CommData.wf qs.

Lemma acquire_from_spec i h (qs : list (CommData.t P)) :
  Forall CommData.wf qs →
  (∃ j d, qs !! j = Some d ∧ CommData.status d = CommData.unused ∧
     (∀ k d', k < j → qs !! k = Some d' → CommData.status d' ≠ CommData.unused) ∧
     let r := u64 (CommData.reincarnation d + 1) in
     acquire_from i h qs = Ok (<[j := CommData.mk h r None CommData.acquired]> qs, Some (i + j, r))) ∨
  (Forall (λ d, CommData.status d ≠ CommData.unused) qs ∧ acquire_from i h qs = Ok (qs, None)).
Proof.
  intros Hwf. revert i. induction Hwf as [|d qs Hd Hqs IH]; intros i; cbn [acquire_from].
  - right. by split.
  - destruct (decide (CommData.status d = CommData.unused)) as [Hu|Hu].
    + left. exists 0, d. rewrite (CommData.acquireForReuse_unused h d Hd Hu).
      split_and!; [done|done|lia|]. simpl. by rewrite Nat.add_0_r.
    + rewrite (CommData.acquireForReuse_used h d Hu). cbn [mbind res_bind]. destruct (IH (S i)) as [(j & d' & Hj & Hs & Hmin & Heq)|[Hall Heq]].
      * left. exists (S j), d'. split_and!; try done.
        -- intros [|k] d'' Hk Hl; [by simplify_eq/=|]. apply (Hmin k); [lia|done].
        -- cbv zeta in Heq |- *. rewrite Heq. cbn [mbind res_bind]. simpl.
           do 3 f_equal. f_equal. lia.
      * right. split; [by constructor|]. by rewrite Heq.
Qed.
End defs.
Arguments t : clear implicits.
End ThreadSlots.

(** ** Messages and the bytes that announce them

    [postInterThreadMsg] pushes a message to the queue of a thread and then
    writes one byte to its awaker socket; the thread, when it is woken, receives
    at most [maxMsgCnt] bytes and pops as many messages. *)
Module Awaker.
Section defs.
Context {C T : Type} `{FixedSizeCollectionLaws C T}.

Definition maxMsgCnt : nat := 8.

(** [unsent]: writers between the push and the byte; [bytes]: bytes in the
    socket; [actaulFromSock]: bytes the reader has received and not yet matched
    with messages. *)
Record state : Type := mk { q : Mwsr.t C; unsent : nat; bytes : nat; actaulFromSock : nat }.
Definition initial : state := mk Mwsr.init 0 0 0.

(** the pop and the assertion on its result; a block of the reader is an error
    of the protocol *)
Definition drain (s : state) : res (state * list T) :=
  '(q', o) ← Mwsr.pop_try (Mwsr.Many (actaulFromSock s)) false (q s);
  match o with
  | Mwsr.Notify thq =>
      ASSERT bool_decide (length thq = actaulFromSock s) ;;
      Ok (mk q' (unsent s) (bytes s) 0, thq)
  | _ => AssertFail
  end.

Inductive step : state → state → Prop :=
  | step_push s it q' : Mwsr.push_try it (q s) = Ok (q', Mwsr.Notify tt) →
      step s (mk q' (S (unsent s)) (bytes s) (actaulFromSock s))
  | step_send s n : unsent s = S n →
      step s (mk (q s) n (S (bytes s)) (actaulFromSock s))
  | step_receive s n : actaulFromSock s = 0 → 0 < n → n ≤ maxMsgCnt → n ≤ bytes s →
      step s (mk (q s) (unsent s) (bytes s - n) n)
  | step_drain s s' thq : 0 < actaulFromSock s → drain s = Ok (s', thq) → step s s'.

Definition inv (s : state) : Prop :=
  ∃ xs, fsc_rep (Mwsr.coll (q s)) xs ∧ Mwsr.killflag (q s) = false ∧
        length xs = unsent s + bytes s + actaulFromSock s.

Lemma drain_spec s xs :
  fsc_rep (Mwsr.coll (q s)) xs → Mwsr.killflag (q s) = false →
  0 < actaulFromSock s → actaulFromSock s ≤ length xs →
  ∃ q', drain s = Ok (mk q' (unsent s) (bytes s) 0, take (actaulFromSock s) xs) ∧
        fsc_rep (Mwsr.coll q') (drop (actaulFromSock s) xs) ∧ Mwsr.killflag q' = false.
Proof.
  intros Hrep Hk Hpos Hle. unfold drain, Mwsr.pop_try.
  rewrite (fsc_size_spec _ _ Hrep), Hk.
  rewrite (bool_decide_eq_false_2 (Z.of_nat (length xs) = 0%Z)) by lia. cbn [andb].
  rewrite (bool_decide_eq_true_2 (0 < Z.of_nat (length xs))%Z) by lia.
  rewrite (Mwsr.sz2move_spec _ _ _ Hrep), Nat.min_l by done.
  destruct (Mwsr.pop_n_spec (actaulFromSock s) _ xs Hrep Hle) as (c & -> & Hc).
  cbn [mbind res_bind]. rewrite bool_decide_eq_true_2 by (rewrite length_take; lia).
  eexists. split; [done|]. by split.
Qed.

Lemma awaker_inv_step s s' : inv s → step s s' → inv s'.
Proof.
  intros (xs & Hrep & Hk & Hlen) Hstep.
  destruct Hstep as [s it q' Hp|s n Hu|s n Ha H1 H2 H3|s s' thq Hpos Hd].
  - destruct (Mwsr.push_try_spec it (q s) xs Hrep) as (q1 & o & Hp1 & Hk1 & Ho).
    rewrite Hp1 in Hp. simplify_eq. destruct Ho as [_ Hrep'].
    exists (xs ++ [it]). unfold inv; cbn [q unsent bytes actaulFromSock].
    split_and!; [done|congruence|]. rewrite length_app. simpl. lia.
  - exists xs. unfold inv; cbn [q unsent bytes actaulFromSock]. split_and!; [done..|lia].
  - exists xs. unfold inv; cbn [q unsent bytes actaulFromSock]. split_and!; [done..|lia].
  - destruct (drain_spec s xs Hrep Hk Hpos) as (q' & Hd' & Hrep' & Hk'); [lia|].
    rewrite Hd' in Hd. simplify_eq. eexists. cbn [q unsent bytes actaulFromSock].
    split_and!; [done..|]. rewrite length_drop. lia.
Qed.
End defs.
Arguments state : clear implicits.
End Awaker.

(** ** WorkerLoad *)
Module WorkerLoad.
Section defs.
Context {ID : Type}.

Definition MAX_THREADS : nat := 128.

Record t : Type := mk {
  workers : list (Z * ID);   (* the used slots: load and id *)
  totalLoadCtr : Z;
  current : nat;
}.
Definition init : t := mk [] 0 0.
Definition usedSlotCnt (s : t) : nat := length (workers s).

Definition addWorker (id : ID) (s : t) : res (t * nat) :=
  ASSERT bool_decide (usedSlotCnt s < MAX_THREADS) ;;
  Ok (mk (workers s ++ [(0%Z, id)]) (totalLoadCtr s) (current s), usedSlotCnt s).

Definition decrementLoadCtr (idx : nat) (s : t) : res t :=
  match workers s !! idx with
  | None => AssertFail                        (* idx < usedSlotCnt *)
  | Some (load, id) =>
      Ok (mk (<[idx := (u64 (load - 1), id)]> (workers s)) (u64 (totalLoadCtr s - 1)) (current s))
  end.

Definition comparisonBase (s : t) : Z :=
  u64 (u64 (Z.shiftl (totalLoadCtr s) 32) +
       u64 (Z.shiftl (totalLoadCtr s) 28) / Z.of_nat (usedSlotCnt s) + 1).

Definition is_candidate (base : Z) (w : Z * ID) : bool :=
  bool_decide (u64 (Z.shiftl w.1 32) < base)%Z.

(** [for ( ; current < limit; ++current )]: the first candidate *)
Fixpoint scan (n cur : nat) (base : Z) (ws : list (Z * ID)) : option nat :=
  match n with
  | O => None
  | S n' =>
      match ws !! cur with
      | Some w => if is_candidate base w then Some cur else scan n' (S cur) base ws
      | None => None
      end
  end.

Definition take_load (cur : nat) (s : t) : res (t * ID) :=
  match workers s !! cur with
  | None => UB
  | Some (load, id) =>
      Ok (mk (<[cur := (u64 (load + 1), id)]> (workers s)) (u64 (totalLoadCtr s + 1)) cur, id)
  end.

Definition getCandidateAndIncrementLoad (s : t) : res (t * ID) :=
  if bool_decide (usedSlotCnt s ≠ 0) then
    let base := comparisonBase s in
    let presentCurrent := current s in
    match scan (usedSlotCnt s - S presentCurrent) (S presentCurrent) base (workers s) with
    | Some cur => take_load cur s
    | None =>
        match scan (S presentCurrent) 0 base (workers s) with
        | Some cur => take_load cur s
        | None => AssertFail
        end
    end
  else AssertFail.

Definition sum_loads (ws : list (Z * ID)) : Z := foldr (λ w a, (w.1 + a)%Z) 0%Z ws.

(** loads are counts that add up to the total *)
Record wf (s : t) : Prop := {
  wf_loads : Forall (λ w, 0 ≤ w.1)%Z (workers s);
  wf_total : totalLoadCtr s = sum_loads (workers s);
  wf_current : current s < usedSlotCnt s ∨ current s = 0;
}.

Lemma sum_loads_lookup ws i w :
  Forall (λ w, 0 ≤ w.1)%Z ws → ws !! i = Some w → (0 ≤ w.1 ≤ sum_loads ws)%Z.
Proof.
  intros Hall. revert i. induction Hall as [|w' ws Hw' Hall IH]; intros i Hi; [done|].
  simpl. assert (0 ≤ sum_loads ws)%Z.
  { clear -Hall. induction Hall; simpl; lia. }
  destruct i as [|i]; simpl in Hi; [simplify_eq; lia|]. specialize (IH i Hi). lia.
Qed.

Lemma sum_loads_insert ws i w w' :
  ws !! i = Some w → sum_loads (<[i := w']> ws) = (sum_loads ws - w.1 + w'.1)%Z.
Proof.
  revert i. induction ws as [|v ws IH]; intros i Hi; [done|].
  destruct i as [|i]; simpl in *; [simplify_eq; lia|]. rewrite (IH i Hi). lia.
Qed.

(** Whatever the loads, every worker passes the comparison. *)
Lemma every_worker_is_candidate s i w :
  wf s → (totalLoadCtr s < 2 ^ 31)%Z → workers s !! i = Some w → is_candidate (comparisonBase s) w = true.
Proof.
  intros Hwf Ht Hi. pose proof (sum_loads_lookup _ _ _ (wf_loads _ Hwf) Hi) as Hw.
  rewrite <-(wf_total _ Hwf) in Hw. unfold is_candidate, comparisonBase.
  rewrite !Z.shiftl_mul_pow2 by lia.
  rewrite (u64_small (totalLoadCtr s * 2 ^ 32)), (u64_small (totalLoadCtr s * 2 ^ 28)),
    (u64_small (w.1 * 2 ^ 32)) by lia.
  pose proof (lookup_lt_Some _ _ _ Hi). unfold usedSlotCnt.
  assert (Hd : (0 ≤ totalLoadCtr s * 2 ^ 28 / Z.of_nat (length (workers s)) ≤ totalLoadCtr s * 2 ^ 28)%Z).
  { split; [apply Z.div_pos; lia|]. apply Z.div_le_upper_bound; nia. }
  rewrite u64_small by lia. apply bool_decide_eq_true_2. nia.
Qed.

Lemma scan_first n cur base ws :
  (∀ i w, ws !! i = Some w → is_candidate base w = true) → cur < length ws → 0 < n →
  scan n cur base ws = Some cur.
Proof.
  intros Hall Hc Hn. destruct n as [|n]; [lia|]. cbn [scan].
  destruct (lookup_lt_is_Some_2 ws cur Hc) as [w Hw]. by rewrite Hw, (Hall _ _ Hw).
Qed.
End defs.
Arguments t : clear implicits.
End WorkerLoad.

(** ** Listeners *)
Module Listeners.
Import ThreadSlots.

Record t : Type := mk { listeners : list ThreadID; maxUsed : nat }.
Definition no_thread : ThreadID := mkID InvalidSlotID UINT64_MAX.
Definition init : t := mk (replicate MAX_THREADS no_thread) 0.

(** the first of the used entries that satisfies [p] *)
Fixpoint find_used (p : ThreadID → bool) (n i : nat) (l : list ThreadID) : option nat :=
  match n with
  | O => None
  | S n' =>
      match l !! i with
      | Some id => if p id then Some i else find_used p n' (S i) l
      | None => None
      end
  end.

Definition add (id : ThreadID) (s : t) : res (t * nat) :=
  match find_used (λ e, bool_decide (slotId e = InvalidSlotID)) (maxUsed s) 0 (listeners s) with
  | Some i => Ok (mk (<[i := id]> (listeners s)) (maxUsed s), i)
  | None =>
      ASSERT bool_decide (maxUsed s < MAX_THREADS) ;;
      Ok (mk (<[maxUsed s := id]> (listeners s)) (S (maxUsed s)), maxUsed s)
  end.

Definition remove (id : ThreadID) (s : t) : t * bool :=
  match find_used (λ e, bool_decide (e = id)) (maxUsed s) 0 (listeners s) with
  | Some i =>
      (mk (<[i := no_thread]> (listeners s))
          (if bool_decide (i + 1 = maxUsed s) then maxUsed s - 1 else maxUsed s), true)
  | None => (s, false)
  end.

Definition getListeners (s : t) : list ThreadID * nat := (listeners s, maxUsed s).

Record wf (s : t) : Prop := {
  wf_length : length (listeners s) = MAX_THREADS;
  wf_max : maxUsed s ≤ MAX_THREADS;
  wf_rest : ∀ i, maxUsed s ≤ i → i < MAX_THREADS → listeners s !! i = Some no_thread;
}.

Lemma find_used_spec p n i l :
  i + n ≤ length l →
  match find_used p n i l with
  | Some j => i ≤ j < i + n ∧ (∃ e, l !! j = Some e ∧ p e = true) ∧
              ∀ k e, i ≤ k < j → l !! k = Some e → p e = false
  | None => ∀ k e, i ≤ k < i + n → l !! k = Some e → p e = false
  end.
Proof.
  revert i. induction n as [|n IH]; intros i Hn; cbn [find_used]; [intros; lia|].
  destruct (lookup_lt_is_Some_2 l i ltac:(lia)) as [e He]. rewrite He.
  destruct (p e) eqn:Hp.
  - split_and!; [lia..|by exists e|intros; lia].
  - specialize (IH (S i) ltac:(lia)).
    assert (Hne : ∀ k e', i ≤ k → ¬ S i ≤ k → l !! k = Some e' → p e' = false).
    { intros k e' ? ? Hk. replace k with i in Hk by lia. congruence. }
    destruct (find_used p n (S i) l) as [j|].
    + destruct IH as (Hj & He' & Hmin). split_and!; [lia..|done|].
      intros k e' Hk Hl. destruct (decide (S i ≤ k)); [apply (Hmin k); [lia|done]|eapply (Hne k); eauto; lia].
    + intros k e' Hk Hl. destruct (decide (S i ≤ k)); [apply (IH k); [lia|done]|eapply (Hne k); eauto; lia].
Qed.
End Listeners.

(** ** What the threads of a cluster rely on *)
Module InterThreadSpec.

(** No slot ever gets to the status [running]: after any sequence of
    operations the assertion of [setTerminating] fails. *)
Theorem setTerminating_never_succeeds {P} `{EqDecision P} (d : CommData.t P) :
  rtc CommData.step CommData.init d → CommData.setTerminating d = AssertFail.
Proof.
  intros Hr. assert (Hwf : CommData.wf d).
  { pose proof (CommData.commdata_wf_init (P:=P)) as H0. revert H0.
    induction Hr as [|d d' d'' Hs _ IH]; [done|]. intros H0. apply IH. by eapply CommData.step_wf. }
  unfold CommData.setTerminating. rewrite bool_decide_eq_false_2; [done|].
  destruct (CommData.wf_status _ Hwf); congruence.
Qed.

Section slots.
Context {P : Type} `{EqDecision P}.
Import ThreadSlots.

(** A new thread gets the first unused slot after the master's, with the
    slot's next reincarnation number, and messages to its address then reach
    that slot and its write handle; if every slot is taken the assertion fails;
    no other slot is touched. *)
Theorem new_thread_slot (h : Z) (qs : list (CommData.t P)) :
  ThreadSlots.wf qs →
  (∃ j d qs' id, 0 < j ∧ qs !! j = Some d ∧ CommData.status d = CommData.unused ∧
     (∀ k d', 0 < k < j → qs !! k = Some d' → CommData.status d' ≠ CommData.unused) ∧
     preinitThreadStartupData h qs = Ok (qs', id) ∧
     id = mkID (Z.of_nat j) (u64 (CommData.reincarnation d + 1)) ∧
     qs' = <[j := CommData.mk h (reincarnation id) None CommData.acquired]> qs ∧
     post_check id qs' = Ok (j, h)) ∨
  ((∀ k d', 0 < k → qs !! k = Some d' → CommData.status d' ≠ CommData.unused) ∧
   preinitThreadStartupData h qs = AssertFail).
Proof.
  intros [Hlen Hwf]. unfold preinitThreadStartupData. destruct qs as [|d0 qs]; [done|].
  apply Forall_cons in Hwf as [Hd0 Hwf].
  destruct (acquire_from_spec 1 h qs Hwf) as [(j & d & Hj & Hu & Hmin & Heq)|[Hall Heq]];
    rewrite Heq; cbn [mbind res_bind].
  - left. exists (S j), d. eexists _, _. split; [lia|]. split; [done|]. split; [done|]. split.
    { intros [|k] d' [? ?] Hk; [lia|]. apply (Hmin k); [lia|done]. }
    split; [done|]. split; [done|]. split; [done|].
    unfold post_check. cbn [slotId reincarnation]. unfold MAX_THREADS in *.
    apply lookup_lt_Some in Hj as Hjl. simpl in Hlen.
    rewrite bool_decide_eq_true_2 by lia. rewrite Nat2Z.id. simpl lookup.
    rewrite list_lookup_insert_eq by done.
    cbn [CommData.getWriteHandleAndReincarnation CommData.reincarnation CommData.writeHandle].
    unfold CommData.in_use. cbn [CommData.status]. by rewrite !bool_decide_eq_true_2 by done.
  - right. split; [|done]. intros [|k] d' Hk Hl; [lia|]. rewrite Forall_forall in Hall.
    apply Hall. by eapply list_elem_of_lookup_2.
Qed.

(** The address of a thread that has finished is refused, also when its slot
    has been given to another thread: a message is never delivered to a thread
    it was not sent to. *)
Theorem finished_thread_address_refused (i : nat) (h h' : Z) (d d' : CommData.t P) (r : bool * Z)
    (qs : list (CommData.t P)) :
  CommData.wf d → qs !! i = Some d → CommData.status d = CommData.acquired →
  CommData.acquireForReuse h' (CommData.setUnused d) = Ok (d', r) →
  let id := mkID (Z.of_nat i) (CommData.reincarnation d) in
  post_check id (<[i := CommData.setUnused d]> qs) = AssertFail ∧
  post_check id (<[i := d']> qs) = AssertFail.
Proof.
  intros Hwf Hi Ha Hacq. cbv zeta. unfold post_check, ThreadSlots.t in *. cbn [slotId reincarnation].
  pose proof (lookup_lt_Some _ _ _ Hi) as Hlt.
  rewrite Nat2Z.id, !list_lookup_insert_eq by done.
  rewrite (CommData.acquireForReuse_unused h' (CommData.setUnused d)) in Hacq;
    [|constructor; simpl; auto; apply Hwf|done].
  simplify_eq. cbn.
  split; [by case_bool_decide|]. case_bool_decide; [|done].
  rewrite bool_decide_eq_false_2; [done|].
  pose proof (CommData.wf_range _ Hwf) as Hr. unfold u64. intros Heq.
  destruct (decide (CommData.reincarnation d + 1 < 2 ^ 64)%Z).
  - rewrite Z.mod_small in Heq; lia.
  - replace (CommData.reincarnation d + 1)%Z with (2 ^ 64)%Z in Heq by lia.
    rewrite Z_mod_same_full in Heq. lia.
Qed.
End slots.

(** The bytes in the awaker socket and the messages in the queue stay
    paired: whatever the interleaving of the writers' pushes and sends with the
    reader's receives, popping as many messages as bytes were received neither
    blocks nor fails its assertion, and yields the oldest messages. *)
Theorem awaker_counts_match {C T} `{FixedSizeCollectionLaws C T} (s : Awaker.state C) :
  rtc Awaker.step Awaker.initial s → 0 < Awaker.actaulFromSock s →
  ∃ s' thq xs, fsc_rep (Mwsr.coll (Awaker.q s)) xs ∧ Awaker.drain s = Ok (s', thq) ∧
    thq = take (Awaker.actaulFromSock s) xs ∧ length thq = Awaker.actaulFromSock s.
Proof.
  intros Hr Hpos. assert (Hinv : Awaker.inv s).
  { assert (H1 : Awaker.inv Awaker.initial).
    { exists []. split_and!; [apply fsc_rep_empty|done|done]. }
    revert H1. clear Hpos. induction Hr as [|s s' s'' Hs _ IH]; [done|]. intros H1. apply IH.
    by eapply Awaker.awaker_inv_step. }
  destruct Hinv as (xs & Hrep & Hk & Hlen).
  destruct (Awaker.drain_spec s xs Hrep Hk Hpos) as (q' & Hd & _); [lia|].
  eexists _, _, xs. split; [done|]. split; [done|]. split; [done|]. rewrite length_take. lia.
Qed.

(** [getLeastLoadedWorkerAndIncrementLoad] does not look at the loads: the
    comparison it makes lets every worker pass (the average load it means to
    compare with is not divided by the number of workers), so that it takes the
    workers in turn, whatever their loads. *)
Theorem worker_choice_ignores_load {ID} (s : WorkerLoad.t ID) :
  WorkerLoad.wf s → WorkerLoad.usedSlotCnt s ≠ 0 → (WorkerLoad.totalLoadCtr s < 2 ^ 31)%Z →
  let next := if bool_decide (S (WorkerLoad.current s) < WorkerLoad.usedSlotCnt s)
              then S (WorkerLoad.current s) else 0 in
  ∃ load id s', WorkerLoad.workers s !! next = Some (load, id) ∧
    WorkerLoad.getCandidateAndIncrementLoad s = Ok (s', id) ∧ WorkerLoad.current s' = next ∧
    WorkerLoad.workers s' = <[next := ((load + 1)%Z, id)]> (WorkerLoad.workers s) ∧ WorkerLoad.wf s'.
Proof.
  intros Hwf Hu Ht next. unfold WorkerLoad.usedSlotCnt in *.
  assert (Hnext : next < length (WorkerLoad.workers s)).
  { subst next. case_bool_decide; lia. }
  destruct (lookup_lt_is_Some_2 _ _ Hnext) as [[load id] Hl].
  pose proof (WorkerLoad.sum_loads_lookup _ _ _ (WorkerLoad.wf_loads _ Hwf) Hl) as Hload.
  rewrite <-(WorkerLoad.wf_total _ Hwf) in Hload. simpl in Hload.
  assert (Htake : WorkerLoad.take_load next s = Ok
    (WorkerLoad.mk (<[next := ((load + 1)%Z, id)]> (WorkerLoad.workers s)) (WorkerLoad.totalLoadCtr s + 1) next, id)).
  { unfold WorkerLoad.take_load. rewrite Hl. by rewrite !u64_small by lia. }
  exists load, id, (WorkerLoad.mk (<[next := ((load + 1)%Z, id)]> (WorkerLoad.workers s))
                      (WorkerLoad.totalLoadCtr s + 1) next). split; [done|].
  assert (Hall : ∀ i w, WorkerLoad.workers s !! i = Some w →
            WorkerLoad.is_candidate (WorkerLoad.comparisonBase s) w = true).
  { intros i w. by apply WorkerLoad.every_worker_is_candidate. }
  split.
  { unfold WorkerLoad.getCandidateAndIncrementLoad, WorkerLoad.usedSlotCnt.
    rewrite bool_decide_eq_true_2 by done. subst next.
    destruct (bool_decide_reflect (S (WorkerLoad.current s) < length (WorkerLoad.workers s))) as [Hc|Hc].
    - rewrite WorkerLoad.scan_first by (done || lia). exact Htake.
    - replace (length (WorkerLoad.workers s) - S (WorkerLoad.current s)) with 0 by lia.
      change (WorkerLoad.scan 0 _ _ _) with (@None nat). cbv iota.
      rewrite WorkerLoad.scan_first by (done || lia). exact Htake. }
  split; [done|]. split; [done|]. destruct Hwf as [Hw Hto Hcu].
  constructor; cbn [WorkerLoad.totalLoadCtr WorkerLoad.workers WorkerLoad.current].
  - apply Forall_insert; [done|]. simpl. lia.
  - rewrite (WorkerLoad.sum_loads_insert _ _ _ _ Hl). simpl. lia.
  - left. unfold WorkerLoad.usedSlotCnt. cbn. by rewrite length_insert.
Qed.

Lemma listeners_remove_aux (id : ThreadSlots.ThreadID) (s : Listeners.t) :
  length (Listeners.listeners s) = ThreadSlots.MAX_THREADS →
  Listeners.maxUsed s ≤ ThreadSlots.MAX_THREADS →
  (∀ i, Listeners.maxUsed s ≤ i → i < ThreadSlots.MAX_THREADS →
     Listeners.listeners s !! i = Some Listeners.no_thread) →
  match Listeners.find_used (λ e, bool_decide (e = id)) (Listeners.maxUsed s) 0 (Listeners.listeners s) with
  | Some j => 0 ≤ j < 0 + Listeners.maxUsed s ∧
      (∃ e, Listeners.listeners s !! j = Some e ∧ bool_decide (e = id) = true) ∧
      ∀ k e, 0 ≤ k < j → Listeners.listeners s !! k = Some e → bool_decide (e = id) = false
  | None => ∀ k e, 0 ≤ k < 0 + Listeners.maxUsed s →
      Listeners.listeners s !! k = Some e → bool_decide (e = id) = false
  end →
  ∀ s' b, Listeners.remove id s = (s', b) → Listeners.wf s' ∧
     if b then ∃ i, Listeners.listeners s !! i = Some id ∧
                    Listeners.listeners s' = <[i := Listeners.no_thread]> (Listeners.listeners s)
     else s' = s ∧ ∀ i, i < Listeners.maxUsed s → Listeners.listeners s !! i ≠ Some id.
Proof.
  intros Hlen Hmax Hrest Hfind s' b. unfold Listeners.remove.
  destruct (Listeners.find_used _ _ _ _) as [j|]; intros [= <- <-].
  - destruct Hfind as (Hj & (e & He & Hpe) & _). apply bool_decide_eq_true_1 in Hpe as ->.
    split; [|by exists j]. constructor; cbn; [by rewrite length_insert|case_bool_decide; lia|].
    intros k Hk Hk'. destruct (decide (k = j)) as [->|Hne].
    + apply list_lookup_insert_eq. lia.
    + rewrite list_lookup_insert_ne by done. apply Hrest; [|done]. case_bool_decide; lia.
  - split; [by constructor|]. split; [done|]. intros i Hi He.
    specialize (Hfind i id ltac:(lia) He). by apply bool_decide_eq_false_1 in Hfind.
Qed.

(** The table of listener threads: [add] stores the id in the first free
    entry and fails only when all 128 are taken, [remove] frees the first entry
    with the id, and both keep the entries beyond [maxUsed] free. *)
Theorem listeners_table (id : ThreadSlots.ThreadID) (s : Listeners.t) :
  Listeners.wf s →
  (∀ s' i, Listeners.add id s = Ok (s', i) →
     Listeners.wf s' ∧ i < ThreadSlots.MAX_THREADS ∧
     (∃ e, Listeners.listeners s !! i = Some e ∧ ThreadSlots.slotId e = ThreadSlots.InvalidSlotID) ∧
     Listeners.listeners s' = <[i := id]> (Listeners.listeners s)) ∧
  (Listeners.add id s = AssertFail →
     ∀ i e, Listeners.listeners s !! i = Some e → ThreadSlots.slotId e ≠ ThreadSlots.InvalidSlotID) ∧
  (∀ s' b, Listeners.remove id s = (s', b) → Listeners.wf s' ∧
     if b then ∃ i, Listeners.listeners s !! i = Some id ∧
                    Listeners.listeners s' = <[i := Listeners.no_thread]> (Listeners.listeners s)
     else s' = s ∧ ∀ i, i < Listeners.maxUsed s → Listeners.listeners s !! i ≠ Some id).
Proof.
  intros [Hlen Hmax Hrest]. unfold Listeners.add, Listeners.remove.
  set (free := λ e, bool_decide (ThreadSlots.slotId e = ThreadSlots.InvalidSlotID)).
  pose proof (Listeners.find_used_spec free (Listeners.maxUsed s) 0 (Listeners.listeners s) ltac:(lia)) as Hfree.
  pose proof (Listeners.find_used_spec (λ e, bool_decide (e = id)) (Listeners.maxUsed s) 0
    (Listeners.listeners s) ltac:(lia)) as Hfind.
  destruct (Listeners.find_used free _ _ _) as [j|].
  - destruct Hfree as (Hj & (e & He & Hpe) & _). apply bool_decide_eq_true_1 in Hpe. split; [|split; [done|]].
    + intros s' i [= <- <-]. split; [|split; [lia|split; [by eexists|done]]].
      constructor; cbn; [by rewrite length_insert|done|].
      intros k Hk Hk'. rewrite list_lookup_insert_ne by lia. by apply Hrest.
    + exact (listeners_remove_aux id s Hlen Hmax Hrest Hfind).
  - split; [|split].
    + intros s' i Hadd. inv_res. simplify_eq.
      match goal with H : _ < ThreadSlots.MAX_THREADS |- _ => rename H into Hlt end.
      split; [|split; [done|split; [|done]]].
      * constructor; cbn; [by rewrite length_insert|lia|].
        intros k Hk Hk'. rewrite list_lookup_insert_ne by lia. apply Hrest; lia.
      * exists Listeners.no_thread. split; [by apply Hrest|done].
    + intros Hadd i e He. case_bool_decide as Hlt; [done|].
      assert (Hi : i < Listeners.maxUsed s) by (apply lookup_lt_Some in He; lia).
      specialize (Hfree i e ltac:(lia) He). by apply bool_decide_eq_false_1 in Hfree.
    + exact (listeners_remove_aux id s Hlen Hmax Hrest Hfind).
Qed.
(** ** Concrete instances *)
Definition slot1 : CommData.t nat := CommData.mk 17 1 None CommData.acquired.
Definition slots1 : list (CommData.t nat) := slot1 :: replicate 127 CommData.init.

Definition preinit_ok (r : res (ThreadSlots.t nat * ThreadSlots.ThreadID)) : option (Z * Z) :=
  match r with Ok (_, id) => Some (ThreadSlots.slotId id, ThreadSlots.reincarnation id) | _ => None end.

Lemma slots1_wf : ThreadSlots.wf slots1.
Proof.
  split; [done|]. constructor.
  - constructor; simpl; [done|by right|lia].
  - apply Forall_replicate, CommData.commdata_wf_init.
Qed.

Lemma setTerminating_never_succeeds_witness : CommData.setTerminating slot1 = AssertFail.
Proof.
  apply setTerminating_never_succeeds.
  apply rtc_once. change slot1 with (fst (slot1, (true, 1%Z))).
  eapply (CommData.step_acquire CommData.init 17). vm_compute. reflexivity.
Defined.

Lemma new_thread_slot_witness :
  preinit_ok (ThreadSlots.preinitThreadStartupData 23 slots1) = Some (1%Z, 1%Z) ∧
  ((∃ j d qs' id, 0 < j ∧ slots1 !! j = Some d ∧ CommData.status d = CommData.unused ∧
     (∀ k d', 0 < k < j → slots1 !! k = Some d' → CommData.status d' ≠ CommData.unused) ∧
     ThreadSlots.preinitThreadStartupData 23 slots1 = Ok (qs', id) ∧
     id = ThreadSlots.mkID (Z.of_nat j) (u64 (CommData.reincarnation d + 1)) ∧
     qs' = <[j := CommData.mk 23 (ThreadSlots.reincarnation id) None CommData.acquired]> slots1 ∧
     ThreadSlots.post_check id qs' = Ok (j, 23%Z)) ∨
   ((∀ k d', 0 < k → slots1 !! k = Some d' → CommData.status d' ≠ CommData.unused) ∧
    ThreadSlots.preinitThreadStartupData 23 slots1 = AssertFail)).
Proof. split; [vm_compute; reflexivity|]. apply new_thread_slot, slots1_wf. Defined.

Lemma finished_thread_address_refused_witness :
  let d' := CommData.mk 99 2 None CommData.acquired in
  let id := ThreadSlots.mkID 0 1 in
  ThreadSlots.post_check id (<[0 := CommData.setUnused slot1]> slots1) = AssertFail ∧
  ThreadSlots.post_check id (<[0 := d']> slots1) = AssertFail.
Proof.
  apply (finished_thread_address_refused 0 17 99 slot1 (CommData.mk 99 2 None CommData.acquired) (true, 2%Z)).
  - constructor; simpl; [done|by right|lia].
  - reflexivity.
  - reflexivity.
  - vm_compute. reflexivity.
Defined.

(** a message pushed, announced, and its byte received *)
Definition received_one : Awaker.state (CircBuf.t nat) :=
  Awaker.mk (Mwsr.mk (CircBuf.mk 1 0 (Some 7 :: replicate 15 None)) false 0 1) 0 0 1.

Lemma awaker_counts_match_witness :
  ∃ s' thq xs, @fsc_rep _ _ _ RingQueueSpec.laws4 (Mwsr.coll (Awaker.q received_one)) xs ∧
    @Awaker.drain _ _ (CircBuf.circbuf_fsc 4) received_one = Ok (s', thq) ∧
    thq = take (Awaker.actaulFromSock received_one) xs ∧ length thq = Awaker.actaulFromSock received_one.
Proof.
  apply (@awaker_counts_match _ _ _ RingQueueSpec.laws4 received_one); [|vm_compute; lia].
  eapply rtc_l; [apply (Awaker.step_push (H:=CircBuf.circbuf_fsc 4) (Awaker.initial) 7
    (Awaker.q received_one)); vm_compute; reflexivity|].
  eapply rtc_l; [eapply Awaker.step_send; reflexivity|].
  eapply rtc_l; [|apply rtc_refl].
  apply (Awaker.step_receive (H:=CircBuf.circbuf_fsc 4)
    (Awaker.mk (Awaker.q received_one) 0 1 0) 1); vm_compute; lia.
Defined.

(** worker 0 has all the load, and is chosen when it is its turn *)
Definition two_workers : WorkerLoad.t nat := WorkerLoad.mk [(50%Z, 10); (0%Z, 11)] 50 1.

Lemma worker_choice_ignores_load_witness :
  ∃ load id s', WorkerLoad.workers two_workers !! 0 = Some (load, id) ∧
    WorkerLoad.getCandidateAndIncrementLoad two_workers = Ok (s', id) ∧ WorkerLoad.current s' = 0 ∧
    WorkerLoad.workers s' = <[0 := ((load + 1)%Z, id)]> (WorkerLoad.workers two_workers) ∧ WorkerLoad.wf s'.
Proof.
  apply (worker_choice_ignores_load two_workers).
  - constructor; simpl; [repeat constructor; simpl; lia|done|left; vm_compute; lia].
  - vm_compute. discriminate.
  - vm_compute. reflexivity.
Defined.

Lemma listeners_table_witness :
  Listeners.wf Listeners.init ∧
  ∀ s' i, Listeners.add (ThreadSlots.mkID 3 1) Listeners.init = Ok (s', i) →
     Listeners.wf s' ∧ i < ThreadSlots.MAX_THREADS ∧
     (∃ e, Listeners.listeners Listeners.init !! i = Some e ∧ ThreadSlots.slotId e = ThreadSlots.InvalidSlotID) ∧
     Listeners.listeners s' = <[i := ThreadSlots.mkID 3 1]> (Listeners.listeners Listeners.init).
Proof.
  assert (H : Listeners.wf Listeners.init).
  { constructor; [done|simpl; lia|]. intros i _ Hi. by apply lookup_replicate_2. }
  split; [exact H|]. apply (listeners_table (ThreadSlots.mkID 3 1) Listeners.init H).
Defined.
End InterThreadSpec.
