(* ===== verification/QNode.v ===== *)
(** * Nodes driven by a queue (include/infrastructure/q_based_infrastructure.h, src/q_based_infrastructure.cpp)

    The configuration without sockets: a node is run by messages and timers
    alone. [QNode] is [NodeProcessor], one node with its timers and immediates,
    [QueueBasedInfrastructure], the loop that feeds it from the queue of its thread
    (the [Mwsr] queue of RingQueue.v, whose [pop_front] waits for a bounded time),
    and the guards of [NodeLoopBase]. [QThreads] is the other side: the slots of the
    threads with their postmen, and posting. [QNodeSpec] holds the theorems. The
    global message queue (NODECPP_USE_GMQUEUE) is not part of the repository and off. *)

From S2P Require Import Prelude.
From S2P Require Import Timers.
From S2P Require Import Events.
From S2P Require Import RingQueue.
From S2P Require Import InterThread.
From Stdlib Require Import Lia.

Module QNode.
Import ThreadSlots.
Module M := RingQueue.Mwsr.

(** [NodeAddress], [InterThreadMsg]; the types of message this configuration uses *)
Record NodeAddress : Type := mkAddress { thread : ThreadID; nodeID : Z }.
Inductive msgType : Type := Infrastructural | GlobalMQ | Other.
Record InterThreadMsg (A : Type) : Type := mkMsg {
  sourceThreadID : NodeAddress; targetThreadID : NodeAddress; recipientID : Z; type : msgType; msg : A }.
Arguments mkMsg {A}.
Arguments sourceThreadID {A}.
Arguments targetThreadID {A}.
Arguments recipientID {A}.
Arguments type {A}.
Arguments msg {A}.

Section defs.
(** callbacks, coroutine handles, the node of the user and the rest of the world, bytes *)
Context {CB H W A : Type}.

(** ** NodeProcessor *)
Record node : Type := mkNode { timeout : Timers.t CB H; immediateEvQueue : EvQueue.t CB; user : W }.
Definition with_timeout (x : Timers.t CB H) (s : node) : node := mkNode x (immediateEvQueue s) (user s).
Definition with_immediates (x : EvQueue.t CB) (s : node) : node := mkNode (timeout s) x (user s).
Definition with_user (x : W) (s : node) : node := mkNode (timeout s) (immediateEvQueue s) x.

(** the clock; a callback, which may throw; a coroutine; [Node::main]; the handlers a
    node class may have ([None]: it has none) *)
Context (sys_now : W → W * Z).
Context (call : CB → node → res (node * bool)) (resume : H → node → res node).
Context (setCoroStatus : H → CoroStandardOutcomes → node → node).
Context (main : node → res node).
Context (onInfrastructureMessage : option (NodeAddress → A → node → res node)).
Context (onGlobalMQMessage : option (A → node → res node)).

Definition infraGetCurrentTime (s : node) : node * Z :=
  let '(w, now) := sys_now (user s) in (with_user w s, now).

Definition refedTimeout (s : node) : bool :=
  negb (EvQueue.empty (immediateEvQueue s)) || Timers.infraRefedTimeout (timeout s).
Definition nextTimeout (s : node) : Z :=
  if EvQueue.empty (immediateEvQueue s) then Timers.infraNextTimeout (timeout s) else 0.

(** an immediate may add immediates to the queue it is run from *)
Definition run_immediate (cb : CB) (s : node) : res (EvQueue.outcome CB node) :=
  '(s', threw) ← call cb s;
  Ok (EvQueue.mkOutcome s' (drop (length (immediateEvQueue s)) (immediateEvQueue s')) threw).
Definition emitInmediates (s : node) : res node :=
  '(q, s) ← EvQueue.emit run_immediate (immediateEvQueue s) s; Ok (with_immediates q s).

(** the timers are members of the node that their callbacks run on *)
Definition on_node (f : node → res node) (x : Timers.t CB H * node) : res (Timers.t CB H * node) :=
  s ← f (with_timeout x.1 x.2); Ok (timeout s, s).
Definition infraTimeoutEvents (now : Z) (s : node) : res node :=
  '(m, s) ← Timers.infraTimeoutEvents
     (λ cb, on_node (λ s, '(s, threw) ← call cb s; if (threw : bool) then Thrown else Ok s))
     (λ h, on_node (resume h)) setCoroStatus now (timeout s, s);
  Ok (with_timeout m s).

(** the time to wait, an [int] *)
Definition time_to_wait (s : node) : node * Z :=
  let nextTimeoutAt := nextTimeout s in
  let '(s, now) := infraGetCurrentTime s in
  (s, Timers.getPollTimeout nextTimeoutAt now).

Definition init (s : node) : res (node * Z) := s ← main s; Ok (time_to_wait s).

(** the [switch] on the type of a message *)
Definition handle (m : InterThreadMsg A) (s : node) : res node :=
  match type m with
  | Infrastructural => match onInfrastructureMessage with Some f => f (sourceThreadID m) (msg m) s | None => Thrown end
  | GlobalMQ => match onGlobalMQMessage with Some f => f (msg m) s | None => Thrown end
  | Other => Thrown
  end.

Definition processMessagesAndOrTimeout (thq : option (InterThreadMsg A)) (s : node) : res (node * Z) :=
  let '(s, now) := infraGetCurrentTime s in
  s ← infraTimeoutEvents now s;
  s ← match thq with Some m => handle m s | None => Ok s end;
  s ← emitInmediates s;
  Ok (time_to_wait s).

(** ** QueueBasedInfrastructure *)
Context {C : Type} `{FixedSizeCollection C (InterThreadMsg A)}.

Record infra : Type := mkInfra {
  processor : node; timeoutToUse : Z; queue : M.t C;
  handled : list (InterThreadMsg A); posted : list (InterThreadMsg A) }.

Definition with_queue (q : M.t C) (s : infra) : infra := mkInfra (processor s) (timeoutToUse s) q (handled s) (posted s).

Definition maxMsgCnt : nat := 8.

(** the [int] becomes the [uint64_t timeout] of [pop_front], and that the signed count
    of [std::chrono::milliseconds]: [wait_for] of zero or less expires at once *)
Definition i64 (z : Z) : Z := let z := u64 z in if bool_decide (z < 2 ^ 63)%Z then z else (z - 2 ^ 64)%Z.
Definition wait_for_ms (timeout : Z) : Z := i64 (u64 timeout).
Definition expired (timeout elapsed : Z) : bool := bool_decide (wait_for_ms timeout ≤ elapsed)%Z.

(** the [for] over the messages of a batch; [handled] and [posted] are not read by the code *)
Fixpoint each_message (ms : list (InterThreadMsg A)) (s : infra) : res infra :=
  match ms with
  | [] => Ok s
  | m :: ms =>
      ASSERT bool_decide (recipientID m = 0%Z) ;;
      '(n, t) ← processMessagesAndOrTimeout (Some m) (processor s);
      each_message ms (mkInfra n t (queue s) (handled s ++ [m]) (posted s))
  end.

(** the body of the loop of [run], [elapsed] milliseconds after it began to wait;
    [None]: it still waits *)
Definition turn (elapsed : Z) (s : infra) : res (option infra) :=
  '(q, o) ← M.pop_try (M.Timed maxMsgCnt) (expired (timeoutToUse s) elapsed) (queue s);
  match o with
  | M.Block => Ok None
  | M.Return _ | M.Notify [] =>
      '(n, t) ← processMessagesAndOrTimeout None (processor s);
      Ok (Some (mkInfra n t q (handled s) (posted s)))
  | M.Notify ms =>
      s ← each_message ms (with_queue q s); Ok (Some s)
  end.

(** what happens to the loop: another thread puts a message into its queue (or waits
    for room, and nothing happens), or it is at [elapsed] milliseconds of its wait; [running] is never reset *)
Inductive event : Type := Posted (m : InterThreadMsg A) | At_ (elapsed : Z).
Definition step (e : event) (s : infra) : res infra :=
  match e with
  | Posted m =>
      '(q, o) ← M.push_try m (queue s);
      Ok (match o with
          | M.Notify _ => mkInfra (processor s) (timeoutToUse s) q (handled s) (posted s ++ [m])
          | _ => s
          end)
  | At_ elapsed => o ← turn elapsed s; Ok (default s o)
  end.
Fixpoint run (es : list event) (s : infra) : res infra :=
  match es with [] => Ok s | e :: es => s ← step e s; run es s end.

(** ** NodeLoopBase and its users *)
Record loop : Type := mkLoop { threadCommID : option ThreadID; IdWithinGroup : Z; initialized : bool; entered : bool }.
Definition new_loop : loop := mkLoop None 0 false false.
(** the constructor from an [Initializer] *)
Definition from_initializer (id : ThreadID) : loop := mkLoop (Some id) 0 true false.

(** [preinit] is [preinitThreadStartupData( loopStartupData, postman)] *)
Definition loop_init {P S : Type} (preinit : P → S → res (S * ThreadID)) (node_id : Z) (postman : option P)
    (l : loop) (s : S) : res (loop * S) :=
  ASSERT negb (entered l) ;;
  '(l, s) ← (if negb (initialized l) then
               match postman with
               | None => AssertFail
               | Some p => '(s, id) ← preinit p s; Ok (mkLoop (Some id) node_id true true, s)
               end
             else Ok (mkLoop (threadCommID l) (IdWithinGroup l) true true, s));
  ASSERT bool_decide (default InvalidSlotID (slotId <$> threadCommID l) ≠ 0%Z) ;;
  Ok (l, s).

(** [QueueBasedNodeLoop::init]: the [init] it calls is that of [NodeProcessor], whose
    result is not kept *)
Definition node_loop_init (s : infra) : res infra :=
  '(n, _) ← init (processor s); Ok (mkInfra n (timeoutToUse s) (queue s) (handled s) (posted s)).
Definition new_infra (n : node) (q : M.t C) : infra := mkInfra n 0 q [] [].
End defs.
Arguments node : clear implicits.
Arguments infra _ _ _ _ _ : clear implicits.
Arguments event : clear implicits.
End QNode.

(** ** Threads *)
Module QThreads.
Import ThreadSlots QNode.
Module M := RingQueue.Mwsr.

Section defs.
(** bytes, postmen of the user *)
Context {A P C : Type} `{EqDecision P} `{FixedSizeCollection C (InterThreadMsg A)}.

(** [useQueuePostman()], or another *)
Inductive postman : Type := ToQueue | Custom (p : P).
#[export] Instance postman_eq_dec : EqDecision postman.
Proof. solve_decision. Defined.

(** [threadQueues]: the slot and its queue; what the postmen of the user were given *)
Record t : Type := mk { slots : list (CommData.t postman * M.t C); delivered : list (P * InterThreadMsg A) }.
Definition init : t := mk (replicate MAX_THREADS (CommData.init, M.init)) [].

(** the loop of [preinitThreadStartupData] from slot [i] on *)
Fixpoint acquire_from (i : nat) (p : option postman) (l : list (CommData.t postman * M.t C))
  : list (CommData.t postman * M.t C) * option ThreadID :=
  match l with
  | [] => ([], None)
  | (d, q) :: l =>
      let '(d, (found, r)) := CommData.acquireForReuse_postman p d in
      if (found : bool) then ((d, q) :: l, Some (mkID (Z.of_nat i) r))
      else let '(l, o) := acquire_from (S i) p l in ((d, q) :: l, o)
  end.
Definition preinitThreadStartupData (p : option postman) (s : t) : res (t * ThreadID) :=
  match slots s with
  | [] => UB
  | x :: l =>
      let '(l, o) := acquire_from 1 p l in
      match o with Some id => Ok (mk (x :: l) (delivered s), id) | None => AssertFail end
  end.

(** the queue of slot [i]; [None]: it is full and the caller waits *)
Definition push_to (i : nat) (m : InterThreadMsg A) (s : t) : res (option t) :=
  match slots s !! i with
  | None => UB
  | Some (d, q) =>
      '(q, o) ← M.push_try m q;
      Ok (match o with M.Block => None | _ => Some (mk (<[i := (d, q)]> (slots s)) (delivered s)) end)
  end.

(** [PostmanToInterthreadQueue::postMessage]: the bound it asserts is one too large *)
Definition postMessage (p : postman) (m : InterThreadMsg A) (s : t) : res (option t) :=
  match p with
  | ToQueue =>
      ASSERT bool_decide (slotId (thread (targetThreadID m)) ≤ Z.of_nat MAX_THREADS)%Z ;;
      push_to (Z.to_nat (slotId (thread (targetThreadID m)))) m s
  | Custom p => Ok (Some (mk (slots s) (delivered s ++ [(p, m)])))
  end.

(** the calling thread is [me] *)
Definition postInterThreadMsg (me : ThreadID) (ty : msgType) (a : A) (target : NodeAddress) (s : t) : res (option t) :=
  ASSERT bool_decide (slotId (thread target) < Z.of_nat MAX_THREADS)%Z ;;
  match slots s !! Z.to_nat (slotId (thread target)) with
  | None => UB
  | Some (d, _) =>
      let '(valid, (p, r)) := CommData.getPostmanAndReincarnation d in
      ASSERT valid ;;
      ASSERT bool_decide (r = ThreadSlots.reincarnation (thread target)) ;;
      match p with
      | Some p => postMessage p (mkMsg (mkAddress me 0) target 0 ty a) s
      | None => AssertFail
      end
  end.
Definition postInfrastructuralMsg (me : ThreadID) (a : A) (target : NodeAddress) (s : t) : res (option t) :=
  postInterThreadMsg me Infrastructural a target s.
Definition internalPostlGlobalMQ (me : ThreadID) (a : A) (target : NodeAddress) (s : t) : res (option t) :=
  postInterThreadMsg me GlobalMQ a target s.
(** [postGmqMsg]: to a slot, whoever has it; [recipientID] has 32 bits *)
Definition postGmqMsg (me : ThreadID) (a : A) (recipient : Z) (slot : Z) (s : t) : res (option t) :=
  ASSERT bool_decide (slot < Z.of_nat MAX_THREADS)%Z ;;
  push_to (Z.to_nat slot) (mkMsg (mkAddress me 0) (mkAddress (mkID InvalidSlotID UINT64_MAX) 0) (u32 recipient) GlobalMQ a) s.
End defs.
Arguments postman : clear implicits.
Arguments t : clear implicits.
End QThreads.

(** ** Theorems *)
Module QNodeSpec.
Import ThreadSlots QNode QThreads.

Section loop.
Context {CB H W A C : Type} `{FixedSizeCollectionLaws C (InterThreadMsg A)}.
Context (sys_now : W → W * Z).
Context (call : CB → node CB H W → res (node CB H W * bool)) (resume : H → node CB H W → res (node CB H W)).
Context (setCoroStatus : H → CoroStandardOutcomes → node CB H W → node CB H W).
Context (onInfrastructureMessage : option (NodeAddress → A → node CB H W → res (node CB H W))).
Context (onGlobalMQMessage : option (A → node CB H W → res (node CB H W))).
Abbreviation process := (processMessagesAndOrTimeout sys_now call resume setCoroStatus onInfrastructureMessage onGlobalMQMessage).
Abbreviation each_message := (each_message sys_now call resume setCoroStatus onInfrastructureMessage onGlobalMQMessage).
Abbreviation turn := (turn sys_now call resume setCoroStatus onInfrastructureMessage onGlobalMQMessage).
Abbreviation step := (step sys_now call resume setCoroStatus onInfrastructureMessage onGlobalMQMessage).
Abbreviation run := (run sys_now call resume setCoroStatus onInfrastructureMessage onGlobalMQMessage).
Abbreviation state := (infra CB H W A C).

(** *** What the queue gives a turn *)
Lemma pop_some n e (q : M.t C) xs : fsc_rep (M.coll q) xs → M.killflag q = false → xs ≠ [] →
  ∃ q', M.pop_try (M.Timed n) e q = Ok (q', M.Notify (take n xs)) ∧ M.killflag q' = false ∧ fsc_rep (M.coll q') (drop n xs).
Proof.
  intros Hrep Hk Hne. unfold M.pop_try. rewrite (fsc_size_spec _ _ Hrep), Hk.
  rewrite bool_decide_eq_false_2 by (destruct xs; [done|]; cbn; lia). cbn [andb].
  rewrite (M.sz2move_spec _ _ _ Hrep). destruct (M.pop_n_spec (n `min` length xs) (M.coll q) xs Hrep) as (c & Hc & Hrep'); [lia|].
  rewrite Hc, bind_Ok. exists (M.with_coll q c). destruct (decide (n ≤ length xs)) as [Hn|Hn].
  - rewrite Nat.min_l in * by done. done.
  - rewrite Nat.min_r in * by lia. rewrite (take_ge xs n), (drop_ge xs n) by lia.
    rewrite take_ge, drop_ge in * by lia. done.
Qed.

Lemma pop_none n e (q : M.t C) : fsc_rep (M.coll q) [] → M.killflag q = false →
  if (e : bool)
  then ∃ q', M.pop_try (M.Timed n) e q = Ok (q', M.Notify []) ∧ M.killflag q' = false ∧ fsc_rep (M.coll q') []
  else M.pop_try (M.Timed n) e q = Ok (q, M.Block).
Proof.
  intros Hrep Hk. unfold M.pop_try. rewrite (fsc_size_spec _ _ Hrep), Hk. destruct e; [|done].
  cbn [andb negb]. rewrite bool_decide_eq_true_2 by done. cbn [andb].
  rewrite (M.sz2move_spec _ _ _ Hrep). cbn [length]. rewrite Nat.min_0_r. cbn. by eexists.
Qed.

(** *** Handling *)
Lemma each_message_log ms (s s' : state) : each_message ms s = Ok s' →
  queue s' = queue s ∧ posted s' = posted s ∧ handled s' = handled s ++ ms.
Proof.
  revert s. induction ms as [|m ms IH]; intros s Hs; cbn [QNode.each_message] in Hs.
  { inv_res. by rewrite app_nil_r. }
  open_eq. match goal with Hr : each_message ms _ = Ok s' |- _ => apply IH in Hr as (-> & -> & ->) end.
  cbn. by rewrite <-app_assoc.
Qed.

(** what the queue of the loop holds *)
Definition holds (s : state) (xs : list (InterThreadMsg A)) : Prop :=
  fsc_rep (M.coll (queue s)) xs ∧ M.killflag (queue s) = false.

Lemma turn_log e (s s' : state) xs : holds s xs → turn e s = Ok (Some s') →
  holds s' (drop maxMsgCnt xs) ∧ posted s' = posted s ∧ handled s' = handled s ++ take maxMsgCnt xs.
Proof.
  intros [Hrep Hk] Ht. unfold QNode.turn in Ht. destruct xs as [|x xs].
  - pose proof (pop_none maxMsgCnt (expired (timeoutToUse s) e) _ Hrep Hk) as Hp.
    destruct (expired _ _); [destruct Hp as (q' & Hp & Hk' & Hrep')|]; rewrite Hp, bind_Ok in Ht; [|done].
    open_eq. simplify_eq. cbn. by rewrite app_nil_r.
  - destruct (pop_some maxMsgCnt (expired (timeoutToUse s) e) _ _ Hrep Hk) as (q' & Hp & Hk' & Hrep'); [done|].
    rewrite Hp, bind_Ok in Ht. cbn [take maxMsgCnt] in Ht. open_eq. simplify_eq.
    match goal with Hr : _ = Ok s' |- _ => apply each_message_log in Hr as (Hq & -> & ->) end.
    unfold holds. rewrite Hq. done.
Qed.

Lemma step_log e (s s' : state) : (∃ xs, holds s xs ∧ posted s = handled s ++ xs) → step e s = Ok s' →
  ∃ xs, holds s' xs ∧ posted s' = handled s' ++ xs.
Proof.
  intros (xs & [Hrep Hk] & Hlog) Hs. destruct e as [m|e]; cbn [QNode.step] in Hs.
  - destruct (M.push_try_spec m _ _ Hrep) as (q' & o & Hp & Hk' & Ho). rewrite Hp, bind_Ok in Hs. inv_res.
    destruct o; [by exists xs; unfold holds..|]. destruct Ho as [_ Ho]. exists (xs ++ [m]). unfold holds. cbn. rewrite Hk', Hlog, app_assoc. done.
  - apply bind_Ok_inv in Hs as ([s1|] & Ht & [= <-]); [|by exists xs].
    destruct (turn_log _ _ _ _ (conj Hrep Hk) Ht) as (Hh & -> & ->).
    exists (drop maxMsgCnt xs). by rewrite Hlog, <-app_assoc, take_drop.
Qed.

Lemma each_message_app ms ms' (s : state) : each_message (ms ++ ms') s = (s ← each_message ms s; each_message ms' s).
Proof.
  revert s. induction ms as [|m ms IH]; intros s; [done|]. cbn [app QNode.each_message].
  destruct (bool_decide _); [|done]. destruct (process (Some m) (processor s)) as [[n t]| | | |]; [|done..].
  rewrite !bind_Ok. apply IH.
Qed.

(** *** How long a turn waits *)
Lemma wait_for_ms_small z : (- 2 ^ 63 ≤ z < 2 ^ 63)%Z → wait_for_ms z = z.
Proof.
  intros Hz. unfold wait_for_ms, i64. rewrite (u64_small (u64 z)) by apply u64_range. unfold u64. destruct (decide (0 ≤ z)%Z).
  - rewrite Z.mod_small by lia. by rewrite bool_decide_eq_true_2 by lia.
  - assert (z `mod` 2 ^ 64 = z + 2 ^ 64)%Z as -> by (symmetry; apply (Z.mod_unique_pos _ _ (-1)); lia).
    rewrite bool_decide_eq_false_2 by lia. lia.
Qed.

Lemma each_message_not_none (r : res state) : (s ← r; Ok (Some s)) ≠ Ok None.
Proof. by destruct r. Qed.

Lemma turn_waits e (s : state) xs : holds s xs →
  turn e s = Ok None ↔ xs = [] ∧ (e < wait_for_ms (timeoutToUse s))%Z.
Proof.
  intros [Hrep Hk]. unfold QNode.turn. destruct xs as [|x xs].
  - pose proof (pop_none maxMsgCnt (expired (timeoutToUse s) e) _ Hrep Hk) as Hp. unfold expired in *.
    destruct (bool_decide_reflect (wait_for_ms (timeoutToUse s) ≤ e)%Z); [destruct Hp as (q' & Hp & _)|];
      rewrite Hp, bind_Ok; [|split; [intros _; split; [done|lia]|done]].
    split; [|lia]. destruct (process None (processor s)) as [[n t]| | | |]; discriminate.
  - destruct (pop_some maxMsgCnt (expired (timeoutToUse s) e) _ _ Hrep Hk) as (q' & Hp & _); [done|].
    rewrite Hp, bind_Ok. cbn [take maxMsgCnt]. split; [intros Hn; by apply each_message_not_none in Hn|by intros [? _]].
Qed.

Lemma poll_timeout_range next now : (- 2 ^ 31 ≤ Timers.getPollTimeout next now < 2 ^ 31)%Z.
Proof.
  unfold Timers.getPollTimeout, INT32_MAX. repeat case_bool_decide; try lia.
  assert (0 ≤ (next - now) / 1000)%Z by (apply Z.div_pos; lia). lia.
Qed.

(** *** The theorems of the loop *)

(** C37. Every message that was put into the queue of the thread is handled once, in the
    order of posting: at any moment the messages posted are those handled followed by
    those the queue holds. *)
Theorem posted_handled_once n es (s : state) : run es (new_infra n M.init) = Ok s →
  ∃ xs, fsc_rep (M.coll (queue s)) xs ∧ posted s = handled s ++ xs.
Proof.
  assert (Hrun : ∀ s0 : state, (∃ xs, holds s0 xs ∧ posted s0 = handled s0 ++ xs) → run es s0 = Ok s →
    ∃ xs, holds s xs ∧ posted s = handled s ++ xs).
  { induction es as [|e es IH]; intros s0 Hs0 Hr; cbn [QNode.run] in Hr.
    - by injection Hr as <-.
    - apply bind_Ok_inv in Hr as (s1 & He & Hr). by eapply IH, Hr; eapply step_log. }
  intros Hr. destruct (Hrun (new_infra n M.init)) as (xs & [Hrep _] & Hlog); [|done|by exists xs].
  exists []. split; [|done]. split; [apply fsc_rep_empty|done].
Qed.

(** A node that has neither timers nor immediates does not wait: the [-1] that means
    no limit is a time that has passed for the wait of the queue, so that [run] turns
    without end while there is no message. With a timer ahead a turn waits until the time
    computed for it, unless there is a message, which is taken at once. *)
Theorem idle_node_spins (s : state) (n : node CB H W) xs :
  holds s xs → timeoutToUse s = (time_to_wait sys_now n).2 →
  let now := (infraGetCurrentTime sys_now n).2 in
  (nextTimeout n = Timers.TimeOutNever → ∀ e, (0 ≤ e)%Z → turn e s ≠ Ok None) ∧
  ((now < nextTimeout n < Timers.TimeOutNever)%Z →
     (0 < timeoutToUse s)%Z ∧ ∀ e, turn e s = Ok None ↔ xs = [] ∧ (e < timeoutToUse s)%Z).
Proof.
  intros Hs Ht now. unfold time_to_wait in Ht.
  assert (Hp : timeoutToUse s = Timers.getPollTimeout (nextTimeout n) now).
  { subst now. rewrite Ht. by destruct (infraGetCurrentTime sys_now n). }
  clear Ht. pose proof (poll_timeout_range (nextTimeout n) now) as Hr. rewrite <-Hp in Hr. split.
  - intros Hn e He Hb. apply (turn_waits _ _ _ Hs) in Hb as [_ Hb]. rewrite wait_for_ms_small, Hp, Hn in Hb by lia.
    unfold Timers.getPollTimeout in Hb. rewrite bool_decide_eq_true_2 in Hb by done. lia.
  - intros Hn. split.
    + rewrite Hp. unfold Timers.getPollTimeout, INT32_MAX. repeat case_bool_decide; try lia.
      assert (0 ≤ (nextTimeout n - now) / 1000)%Z by (apply Z.div_pos; lia). lia.
    + intros e. rewrite (turn_waits _ _ _ Hs), wait_for_ms_small by lia. done.
Qed.

(** *** Posting *)
Context {P : Type} `{EqDecision P}.
Abbreviation world := (QThreads.t A P C).

Definition wf (s : world) : Prop :=
  length (slots s) = MAX_THREADS ∧
  ∀ i d q, slots s !! i = Some (d, q) → ∃ xs, fsc_rep (M.coll q) xs ∧ M.killflag q = false.

Lemma q_wf_init : wf QThreads.init.
Proof.
  split; [apply length_replicate|]. intros i d q Hi. apply lookup_replicate in Hi as [[= -> ->] _].
  exists []. split; [apply fsc_rep_empty|done].
Qed.

Lemma q_acquire_from_spec i (p : option (postman P)) (l l' : list (CommData.t (postman P) * M.t C)) id :
  acquire_from i p l = (l', Some id) →
  ∃ k d q, l !! k = Some (d, q) ∧ slotId id = Z.of_nat (i + k) ∧
    l' = <[k := (CommData.mk CommData.invalid_write_handle (reincarnation id) p CommData.acquired, q)]> l.
Proof.
  revert i l'. induction l as [|[d q] l IH]; intros i l' Ha; [done|]. cbn [acquire_from] in Ha.
  unfold CommData.acquireForReuse_postman in Ha. case_bool_decide.
  - injection Ha as <- <-. exists 0, d, q. by rewrite Nat.add_0_r.
  - destruct (acquire_from (S i) p l) as [l1 o] eqn:Hl. injection Ha as <- ->.
    destruct (IH _ _ Hl) as (k & d' & q' & Hk & Hi & ->). exists (S k), d', q'. split; [done|]. split; [lia|done].
Qed.

(** a message to the slot of a queue *)
Lemma push_to_spec i m (s : world) d q xs : slots s !! i = Some (d, q) → fsc_rep (M.coll q) xs → M.killflag q = false →
  if bool_decide (length xs = fsc_max) then push_to i m s = Ok None
  else ∃ q', push_to i m s = Ok (Some (QThreads.mk (<[i := (d, q')]> (slots s)) (delivered s))) ∧
    fsc_rep (M.coll q') (xs ++ [m]) ∧ M.killflag q' = false.
Proof.
  intros Hi Hrep Hk. unfold push_to. rewrite Hi.
  pose proof (fsc_rep_length _ _ Hrep) as Hmax. unfold M.push_try. rewrite (fsc_is_full_spec _ _ Hrep), Hk.
  case_bool_decide as Hf; [done|]. cbn [andb negb].
  destruct (fsc_push_spec _ xs m Hrep) as (c & -> & Hc); [lia|]. rewrite !bind_Ok. eauto.
Qed.

Lemma post_to_slot me ty a id (s : world) d q :
  (slotId id < Z.of_nat MAX_THREADS)%Z → slots s !! Z.to_nat (slotId id) = Some (d, q) →
  CommData.in_use d = true → CommData.postman d = Some ToQueue →
  postInterThreadMsg me ty a (mkAddress id 0) s =
  if bool_decide (CommData.reincarnation d = ThreadSlots.reincarnation id)
  then push_to (Z.to_nat (slotId id)) (mkMsg (mkAddress me 0) (mkAddress id 0) 0 ty a) s else AssertFail.
Proof.
  intros Hid Hi Hu Hp. unfold postInterThreadMsg. cbn [thread]. rewrite (bool_decide_eq_true_2 (slotId id < _)%Z), Hi by done.
  unfold CommData.getPostmanAndReincarnation. rewrite Hu, Hp. case_bool_decide; [|done].
  unfold postMessage. cbn [targetThreadID thread]. by rewrite bool_decide_eq_true_2 by lia.
Qed.

(** The address that [preinitThreadStartupData] makes leads to the queue of its own
    slot: a message posted there is the last of that queue, from the thread that posted
    it, or the poster waits because the queue is full. No other slot changes, and an
    address of another use of the slot is refused. *)
Theorem posted_message_arrives (s s1 : world) id me a : wf s → preinitThreadStartupData (Some ToQueue) s = Ok (s1, id) →
  let i := Z.to_nat (slotId id) in
  let post (id : ThreadID) := postInfrastructuralMsg me a (mkAddress id 0) s1 in
  (1 ≤ slotId id < Z.of_nat MAX_THREADS)%Z ∧
  ∃ d q xs, slots s1 = <[i := (d, q)]> (slots s) ∧ fsc_rep (M.coll q) xs ∧
    (if bool_decide (length xs = fsc_max) then post id = Ok None
     else ∃ q', post id = Ok (Some (QThreads.mk (<[i := (d, q')]> (slots s1)) (delivered s1))) ∧
       fsc_rep (M.coll q') (xs ++ [mkMsg (mkAddress me 0) (mkAddress id 0) 0 Infrastructural a])) ∧
    ∀ r, r ≠ ThreadSlots.reincarnation id → post (mkID (slotId id) r) = AssertFail.
Proof.
  intros [Hlen Hq] Hpre i post. unfold preinitThreadStartupData in Hpre. destruct (slots s) as [|x l] eqn:Hsl; [done|].
  destruct (acquire_from 1 (Some ToQueue) l) as [l' [id'|]] eqn:Hacq; [|done]. injection Hpre as <- <-.
  apply q_acquire_from_spec in Hacq as (k & d & q & Hk & Hid & ->).
  assert (k < length l) by (by eapply lookup_lt_Some). cbn [length] in Hlen.
  assert (i = S k) as Hi by (subst i; lia).
  destruct (Hq (S k) d q) as (xs & Hrep & Hkill); [done|].
  split; [lia|]. eexists _, q, xs. rewrite Hi. split; [done|]. split; [done|].
  set (s1 := QThreads.mk _ _) in *. set (d1 := CommData.mk _ _ _ _) in *.
  assert (Hs1 : slots s1 !! S k = Some (d1, q)) by (by apply (list_lookup_insert_eq l)).
  assert (Hpost : ∀ r, post (mkID (slotId id') r) = if bool_decide (ThreadSlots.reincarnation id' = r)
    then push_to i (mkMsg (mkAddress me 0) (mkAddress (mkID (slotId id') r) 0) 0 Infrastructural a) s1 else AssertFail).
  { intros r. subst post. apply (post_to_slot me Infrastructural a (mkID (slotId id') r) s1 d1 q); [cbn; lia| |done..].
    cbn [slotId]. fold i. by rewrite Hi. }
  split; [|intros r Hr; by rewrite Hpost, bool_decide_eq_false_2].
  pose proof (push_to_spec (S k) (mkMsg (mkAddress me 0) (mkAddress id' 0) 0 Infrastructural a) s1 _ _ _ Hs1 Hrep Hkill) as Hpush.
  specialize (Hpost (ThreadSlots.reincarnation id')). rewrite bool_decide_eq_true_2, Hi in Hpost by done.
  destruct id' as [sl r]. cbn [slotId ThreadSlots.reincarnation] in *. rewrite Hpost.
  destruct (bool_decide (length xs = fsc_max)); [exact Hpush|]. destruct Hpush as (q' & Hpush & Hrep' & _). by exists q'.
Qed.

(** What [postGmqMsg] puts into the queue of a slot for a recipient other than 0 ends
    the process of the thread that takes it: after the messages before it are handled the
    loop fails its assertion. *)
Theorem other_recipient_ends_receiver (s s' : world) me a recipient (i : nat) d q (s0 : state) e xs :
  wf s → slots s !! i = Some (d, q) → fsc_rep (M.coll q) xs → length xs < maxMsgCnt → u32 recipient ≠ 0%Z →
  postGmqMsg me a recipient (Z.of_nat i) s = Ok (Some s') →
  (snd <$> slots s' !! i) = Some (queue s0) →
  (∀ q' : M.t C, is_ok (each_message xs (with_queue q' s0)) = true) →
  turn e s0 = AssertFail.
Proof.
  intros [Hlen Hq] Hi Hrep Hxs Hr Hpost Hs0 Hms. unfold postGmqMsg in Hpost.
  assert (i < MAX_THREADS) by (rewrite <-Hlen; by eapply lookup_lt_Some).
  rewrite (bool_decide_eq_true_2 (Z.of_nat i < _)%Z), Nat2Z.id in Hpost by lia.
  destruct (Hq i d q Hi) as (xs' & Hrep' & Hk). clear Hrep'.
  set (m := mkMsg _ _ _ _ _) in Hpost. pose proof (push_to_spec i m s d q xs Hi Hrep Hk) as Hp.
  destruct (bool_decide _); [congruence|]. destruct Hp as (q' & Hp & Hrep' & Hk'). rewrite Hpost in Hp. injection Hp as ->.
  cbn in Hs0. rewrite list_lookup_insert_eq in Hs0 by (by eapply lookup_lt_Some). injection Hs0 as Hs0.
  unfold QNode.turn. rewrite <-Hs0. destruct (pop_some maxMsgCnt (expired (timeoutToUse s0) e) _ _ Hrep' Hk') as (q2 & Hpop & _); [by destruct xs|].
  rewrite Hpop, bind_Ok, take_ge by (rewrite length_app; cbn; lia).
  assert (Hend : each_message (xs ++ [m]) (with_queue q2 s0) = AssertFail).
  { rewrite each_message_app. specialize (Hms q2). destruct (each_message xs _); [|done..].
    rewrite bind_Ok. cbn. by rewrite bool_decide_eq_false_2. }
  destruct (xs ++ [m]) eqn:Hx; [by destruct xs|]. by rewrite Hend.
Qed.
End loop.
End QNodeSpec.

(** ** Concrete nodes *)
Module QNodeExample.
Import ThreadSlots QNode QThreads QNodeSpec.
#[local] Instance fsc : FixedSizeCollection (CircBuf.t (InterThreadMsg nat)) (InterThreadMsg nat) := CircBuf.circbuf_fsc 4.
#[local] Instance laws : FixedSizeCollectionLaws (CircBuf.t (InterThreadMsg nat)) (InterThreadMsg nat) :=
  CircBuf.circbuf_laws 4 (Nat.lt_0_succ 3) (proj1 (Nat.leb_le 4 30) eq_refl).

(** the world is the time and what the messages added up to *)
Definition world : Type := Z * nat.
Definition sys_now (w : world) : world * Z := ((w.1 + 10, w.2)%Z, w.1).
Definition call (_ : unit) (s : node unit unit world) : res (node unit unit world * bool) := Ok (s, false).
Definition resume (_ : unit) (s : node unit unit world) : res (node unit unit world) := Ok s.
Definition setCoroStatus (_ : unit) (_ : CoroStandardOutcomes) (s : node unit unit world) := s.
Definition sum (_ : NodeAddress) (a : nat) (s : node unit unit world) : res (node unit unit world) :=
  Ok (with_user ((user s).1, (user s).2 + a) s).
Definition idle : node unit unit world := mkNode Timers.init [] (0%Z, 0).
Definition here : NodeAddress := mkAddress (mkID 1 1) 0.
Definition message (a : nat) : InterThreadMsg nat := mkMsg here here 0 Infrastructural a.
Abbreviation state := (infra unit unit world nat (CircBuf.t (InterThreadMsg nat))).
Abbreviation run := (run sys_now call resume setCoroStatus (Some sum) None).
Abbreviation turn := (turn sys_now call resume setCoroStatus (Some sum) None).

Definition start : state := new_infra idle M.init.
Definition after (es : list (event nat)) : state := match run es start with Ok s => s | _ => start end.
Definition events : list (event nat) := [Posted (message 3); Posted (message 4); At_ 0; Posted (message 5)].

Example handled_two : (user (processor (after events))).2 = 7 ∧ handled (after events) = [message 3; message 4].
Proof. vm_compute. done. Qed.

Lemma posted_handled_once_witness :
  ∃ xs, fsc_rep (M.coll (queue (after events))) xs ∧ posted (after events) = handled (after events) ++ xs.
Proof. apply (posted_handled_once sys_now call resume setCoroStatus (Some sum) None idle events). vm_compute. reflexivity. Defined.

(** a message of a type that the node has no handler for *)
Example no_handler_throws : turn 0 (after [Posted (mkMsg here here 0 GlobalMQ 1)]) = Thrown.
Proof. vm_compute. done. Qed.

(** the first turn does not wait: nothing set [timeoutToUse] *)
Example first_turn_does_not_wait : turn 0 start ≠ Ok None.
Proof. vm_compute. done. Qed.

(** one turn with nothing to do, and the time it leaves *)
Definition idled : state := after [At_ 0].
Lemma idled_holds : holds idled [].
Proof. split; [|reflexivity]. apply (fsc_rep_empty (T:=InterThreadMsg nat)). Qed.

Lemma idle_node_spins_witness : timeoutToUse idled = (-1)%Z ∧ ∀ e, (0 ≤ e)%Z → turn e idled ≠ Ok None.
Proof.
  split; [reflexivity|]. apply (idle_node_spins sys_now call resume setCoroStatus (Some sum) None idled idle [] idled_holds); reflexivity.
Defined.

(** *** Posting *)
Definition threads : QThreads.t nat unit (CircBuf.t (InterThreadMsg nat)) := QThreads.init.
Definition first_thread : QThreads.t nat unit (CircBuf.t (InterThreadMsg nat)) :=
  match preinitThreadStartupData (Some ToQueue) threads with Ok (s, _) => s | _ => threads end.

Lemma posted_message_arrives_witness :
  preinitThreadStartupData (Some ToQueue) threads = Ok (first_thread, mkID 1 1) ∧
  postInfrastructuralMsg (mkID 0 0) 5 (mkAddress (mkID 1 2) 0) first_thread = AssertFail.
Proof.
  assert (Hpre : preinitThreadStartupData (Some ToQueue) threads = Ok (first_thread, mkID 1 1)) by (vm_compute; reflexivity).
  split; [exact Hpre|].
  destruct (posted_message_arrives threads first_thread (mkID 1 1) (mkID 0 0) 5 q_wf_init Hpre) as (_ & d & q & xs & _ & _ & _ & Hr).
  apply (Hr 2%Z). discriminate.
Defined.

Definition with_recipient : QThreads.t nat unit (CircBuf.t (InterThreadMsg nat)) :=
  match postGmqMsg (mkID 0 0) 5 7 1 threads with Ok (Some s) => s | _ => threads end.
Definition receiver : state :=
  match slots with_recipient !! 1 with Some (_, q) => new_infra idle q | None => start end.

Lemma other_recipient_ends_receiver_witness : turn 0 receiver = AssertFail.
Proof.
  apply (other_recipient_ends_receiver sys_now call resume setCoroStatus (Some sum) None
    threads with_recipient (mkID 0 0) 5 7%Z 1 CommData.init M.init receiver 0%Z []).
  - apply q_wf_init.
  - reflexivity.
  - apply (fsc_rep_empty (T:=InterThreadMsg nat)).
  - unfold maxMsgCnt. cbn. lia.
  - discriminate.
  - vm_compute. reflexivity.
  - vm_compute. reflexivity.
  - reflexivity.
Defined.
End QNodeExample.
