(* ===== verification/NetRegistry.v ===== *)
(** * The table of sockets (src/tcp_socket/tcp_socket.h)

    [Module NetRegistry] models [NetSocketEntry] and [NetSockets], the table that
    pairs every socket or server object with its [pollfd]: two parallel vectors
    and two more ([...Accum]) that take new entries while a reallocation of the
    first would invalidate references, until [reworkIfNecessary] merges and
    compacts them between two turns of the loop. The objects' own [index] and
    [osSocket] fields are kept in [heap]; an object that is gone has none, and a
    [soft_ptr] to it is null. The build without clustering is modelled. The
    growth of a [std::vector] is the parameter [grow]. [NetRegistrySpec] states
    what the managers of sockets and servers rely on. *)

From S2P Require Import Prelude.
From Stdlib Require Import Lia.

Module NetRegistry.

Inductive ObjectType : Type := Undefined | ClientSocket | ServerSocket.
Inductive State : Type := Unused | SockIssued | SockAssociated | SockClosed.

#[global] Instance State_eq_dec : EqDecision State.
Proof. solve_decision. Defined.

Record pollfd : Type := mkFd { fd : Z; events : Z; revents : Z }.
Definition INVALID_SOCKET : Z := (-1)%Z.
Definition POLLIN : Z := 1.
Definition POLLOUT : Z := 4.

Section defs.
Context {Ob : Type} `{Countable Ob}.
Context (grow : nat → nat).

(** the fields of [dataForCommandProcessing] the table uses *)
Record Obj : Type := mkObj { obj_index : nat; osSocket : Z }.

Record NetSocketEntry : Type := mkEntry {
  state : State;
  index : nat;
  refed : bool;
  objectType : ObjectType;
  ptr : option Ob;
}.

Record t : Type := mk {
  ourSide : list NetSocketEntry;
  ourCap : nat;                     (* [ourSide.capacity()] *)
  ourSideAccum : list NetSocketEntry;
  osSide : list pollfd;
  osCap : nat;
  osSideAccum : list pollfd;
  associatedCount : Z;
  usedCount : Z;
  heap : gmap Ob Obj;
}.

Definition reserved_capacity : nat := 1.
Definition capacity_ : nat := 1 + reserved_capacity.
Definition compactionMinSize : nat := 32.

Definition empty_entry (i : nat) : NetSocketEntry := mkEntry Unused i false Undefined None.
Definition zero_fd : pollfd := mkFd 0 0 0.

(** [NetSockets()] *)
Definition init (h : gmap Ob Obj) : t :=
  mk [empty_entry 0] capacity_ [] [zero_fd] capacity_ [] 0 0 h.

(** *** NetSocketEntry *)
Definition isValid (h : gmap Ob Obj) (e : NetSocketEntry) : bool :=
  match ptr e with Some o => bool_decide (is_Some (h !! o)) | None => false end.

Definition isUsed (h : gmap Ob Obj) (e : NetSocketEntry) : res bool :=
  ASSERT bool_decide (state e = Unused) || isValid h e ;;
  Ok (bool_decide (state e ≠ Unused)).

Definition isAssociated (h : gmap Ob Obj) (e : NetSocketEntry) : res bool :=
  ASSERT bool_decide (state e = Unused) || isValid h e ;;
  Ok (bool_decide (state e = SockAssociated)).

Definition with_state (st : State) (e : NetSocketEntry) : NetSocketEntry :=
  mkEntry st (index e) (refed e) (objectType e) (ptr e).

Definition entry_setAssociated (h : gmap Ob Obj) (e : NetSocketEntry) : res NetSocketEntry :=
  ASSERT bool_decide (state e = SockIssued) && isValid h e ;;
  Ok (with_state SockAssociated e).

Definition entry_setSocketClosed (e : NetSocketEntry) : res NetSocketEntry :=
  ASSERT bool_decide (state e ≠ Unused) ;;
  Ok (with_state SockClosed e).

Definition entry_setUnused (e : NetSocketEntry) : NetSocketEntry :=
  mkEntry Unused 0 (refed e) (objectType e) (ptr e).

Definition set_index (i : nat) (d : Obj) : Obj := mkObj i (osSocket d).

(** the constructors with a socket or a server; a null pointer is undefined *)
Definition new_entry (i : nat) (ot : ObjectType) (o : Ob) (h : gmap Ob Obj)
  : res (NetSocketEntry * gmap Ob Obj) :=
  match h !! o with
  | None => UB
  | Some d =>
      ASSERT bool_decide (0 < osSocket d)%Z ;;
      Ok (mkEntry SockIssued i false ot (Some o), <[o := set_index i d]> h)
  end.

Definition updateIndex (idx : nat) (e : NetSocketEntry) (h : gmap Ob Obj)
  : res (NetSocketEntry * gmap Ob Obj) :=
  match objectType e with
  | ClientSocket | ServerSocket =>
      ASSERT isValid h e ;;
      Ok (mkEntry (state e) idx (refed e) (objectType e) (ptr e),
          match ptr e with Some o => alter (set_index idx) o h | None => h end)
  | Undefined => AssertFail
  end.

(** *** NetSockets *)
Definition size (s : t) : nat := length (ourSide s) - 1.
Definition isValidId (idx : nat) (s : t) : bool :=
  bool_decide (reserved_capacity ≤ idx) &&
  bool_decide (idx < length (ourSide s) + length (ourSideAccum s)).

(** where the entry of an index is: every operation starts with this *)
Inductive place : Type := InSide (i : nat) | InAccum (i : nat).

Definition locate (idx : nat) (s : t) : res place :=
  ASSERT bool_decide (reserved_capacity ≤ idx) ;;
  if bool_decide (idx < length (ourSide s)) then Ok (InSide idx)
  else
    ASSERT bool_decide (length (ourSide s) = ourCap s) && bool_decide (length (ourSide s) ≤ idx) ;;
    let idx := idx - ourCap s in
    ASSERT bool_decide (idx < length (ourSideAccum s)) ;;
    Ok (InAccum idx).

(** the same for the accessors that look at the descriptors only *)
Definition locate_os (idx : nat) (s : t) : res place :=
  ASSERT bool_decide (idx ≠ 0) ;;
  if bool_decide (idx < length (osSide s)) then Ok (InSide idx)
  else
    ASSERT bool_decide (length (osSide s) = osCap s) && bool_decide (length (osSide s) ≤ idx) ;;
    let idx := idx - osCap s in
    ASSERT bool_decide (idx < length (osSideAccum s)) ;;
    Ok (InAccum idx).

Definition get_entry (p : place) (s : t) : res NetSocketEntry :=
  match (match p with InSide i => ourSide s !! i | InAccum i => ourSideAccum s !! i end) with
  | Some e => Ok e
  | None => UB
  end.
Definition get_fd (p : place) (s : t) : res pollfd :=
  match (match p with InSide i => osSide s !! i | InAccum i => osSideAccum s !! i end) with
  | Some f => Ok f
  | None => UB
  end.
Definition put_entry (p : place) (e : NetSocketEntry) (s : t) : t :=
  match p with
  | InSide i => mk (<[i := e]> (ourSide s)) (ourCap s) (ourSideAccum s) (osSide s) (osCap s)
                   (osSideAccum s) (associatedCount s) (usedCount s) (heap s)
  | InAccum i => mk (ourSide s) (ourCap s) (<[i := e]> (ourSideAccum s)) (osSide s) (osCap s)
                    (osSideAccum s) (associatedCount s) (usedCount s) (heap s)
  end.
Definition put_fd (p : place) (f : pollfd) (s : t) : t :=
  match p with
  | InSide i => mk (ourSide s) (ourCap s) (ourSideAccum s) (<[i := f]> (osSide s)) (osCap s)
                   (osSideAccum s) (associatedCount s) (usedCount s) (heap s)
  | InAccum i => mk (ourSide s) (ourCap s) (ourSideAccum s) (osSide s) (osCap s)
                    (<[i := f]> (osSideAccum s)) (associatedCount s) (usedCount s) (heap s)
  end.
Definition with_counts (a u : Z) (s : t) : t :=
  mk (ourSide s) (ourCap s) (ourSideAccum s) (osSide s) (osCap s) (osSideAccum s) (u64 a) (u64 u) (heap s).
Definition with_heap (h : gmap Ob Obj) (s : t) : t :=
  mk (ourSide s) (ourCap s) (ourSideAccum s) (osSide s) (osCap s) (osSideAccum s)
     (associatedCount s) (usedCount s) h.

(** [at(idx)] *)
Definition at_ (idx : nat) (s : t) : res NetSocketEntry :=
  p ← locate idx s;
  e ← get_entry p s;
  u ← isUsed (heap s) e;
  ASSERT u ;;
  Ok e.

Definition reventsAt (idx : nat) (s : t) : res Z :=
  p ← locate_os idx s;
  f ← get_fd p s;
  Ok (revents f).

Definition socketsAt (idx : nat) (s : t) : res Z :=
  p ← locate_os idx s;
  f ← get_fd p s;
  Ok (fd f).

(** [emplace_back]: the vector grows when it is full *)
Definition cap_after (size cap : nat) : nat :=
  if bool_decide (size < cap) then cap else grow cap.

(** the first unused entry from [i] on *)
Fixpoint find_unused (n i : nat) (s : t) : res (option nat) :=
  match n with
  | O => Ok None
  | S n' =>
      match ourSide s !! i with
      | None => UB
      | Some e =>
          u ← isUsed (heap s) e;
          if (u : bool) then find_unused n' (S i) s else Ok (Some i)
      end
  end.

Definition new_fd (d : Obj) : pollfd := mkFd (- osSocket d) 0 0.

Definition addEntry (ot : ObjectType) (o : Ob) (s : t) : res t :=
  ASSERT bool_decide (length (ourSide s) = length (osSide s)) ;;
  match heap s !! o with
  | None => UB
  | Some d =>
      ASSERT bool_decide (0 < osSocket d)%Z ;;
      free ← find_unused (length (ourSide s) - reserved_capacity) reserved_capacity s;
      match free with
      | Some i =>
          '(e, h) ← new_entry i ot o (heap s);
          let s := put_fd (InSide i) (new_fd d) (put_entry (InSide i) e s) in
          Ok (with_heap h (with_counts (associatedCount s) (usedCount s + 1) s))
      | None =>
          if bool_decide (length (ourSide s) < ourCap s) then
            let ix := length (ourSide s) in
            ASSERT bool_decide (ix < ourCap s) ;;
            '(e, h) ← new_entry ix ot o (heap s);
            Ok (mk (ourSide s ++ [e]) (cap_after (length (ourSide s)) (ourCap s)) (ourSideAccum s)
                   (osSide s ++ [new_fd d]) (cap_after (length (osSide s)) (osCap s)) (osSideAccum s)
                   (associatedCount s) (u64 (usedCount s + 1)) h)
          else
            let ix := length (ourSide s) + length (ourSideAccum s) in
            '(e, h) ← new_entry ix ot o (heap s);
            Ok (mk (ourSide s) (ourCap s) (ourSideAccum s ++ [e])
                   (osSide s) (osCap s) (osSideAccum s ++ [new_fd d])
                   (associatedCount s) (u64 (usedCount s + 1)) h)
      end
  end.

(** the loop of [reworkIfNecessary]: the accumulated entries are appended *)
Fixpoint merge (es : list NetSocketEntry) (fs : list pollfd) (s : t) : res t :=
  match es, fs with
  | e :: es', f :: fs' =>
      ASSERT bool_decide (index e = length (ourSide s)) ;;
      merge es' fs'
        (mk (ourSide s ++ [e]) (cap_after (length (ourSide s)) (ourCap s)) (ourSideAccum s)
            (osSide s ++ [f]) (cap_after (length (osSide s)) (osCap s)) (osSideAccum s)
            (associatedCount s) (usedCount s) (heap s))
  | _, _ => Ok s
  end.

(** the loop of [makeCompactIfNecessary]: used entries go to the new vectors *)
Fixpoint compact_loop (es : list NetSocketEntry) (fs : list pollfd)
    (es' : list NetSocketEntry) (fs' : list pollfd) (cap oscap n : nat) (h : gmap Ob Obj)
  : res (list NetSocketEntry * list pollfd * nat * nat * nat * gmap Ob Obj) :=
  match es, fs with
  | e :: es, f :: fs =>
      u ← isUsed h e;
      if (u : bool) then
        let idx := length es' in
        '(e, h) ← updateIndex idx e h;
        compact_loop es fs (es' ++ [e]) (fs' ++ [f])
          (cap_after (length es') cap) (cap_after (length fs') oscap) (S n) h
      else compact_loop es fs es' fs' cap oscap n h
  | _, _ => Ok (es', fs', cap, oscap, n, h)
  end.

Definition makeCompactIfNecessary (s : t) : res t :=
  if bool_decide (length (ourSide s) ≤ compactionMinSize) ||
     bool_decide (usedCount s < Z.of_nat (length (ourSide s) / 2))%Z
  then Ok s
  else
    '(es, fs, cap, oscap, usedCountNew, h) ←
      compact_loop (drop reserved_capacity (ourSide s)) (drop reserved_capacity (osSide s))
        [empty_entry 0] [zero_fd] capacity_ capacity_ 0 (heap s);
    ASSERT bool_decide (Z.of_nat usedCountNew = usedCount s) ;;
    Ok (mk es cap (ourSideAccum s) fs oscap (osSideAccum s) (associatedCount s) (usedCount s) h).

Definition reworkIfNecessary (s : t) : res t :=
  s ← (if bool_decide (length (ourSideAccum s) ≠ 0) then
         ASSERT bool_decide (length (osSideAccum s) = length (ourSideAccum s)) ;;
         ASSERT bool_decide (length (ourSide s) = ourCap s) ;;
         ASSERT bool_decide (length (osSide s) = length (ourSide s)) ;;
         s' ← merge (ourSideAccum s) (osSideAccum s) s;
         Ok (mk (ourSide s') (ourCap s') [] (osSide s') (osCap s') []
                (associatedCount s') (usedCount s') (heap s'))
       else Ok s);
  makeCompactIfNecessary s.

Definition setAssociated (idx : nat) (s : t) : res t :=
  p ← locate idx s;
  e ← get_entry p s;
  u ← (match p with InSide _ => isUsed (heap s) e | InAccum _ => Ok true end);
  ASSERT u ;;
  e ← entry_setAssociated (heap s) e;
  f ← get_fd p s;
  let f := mkFd (- fd f) (events f) (revents f) in
  ASSERT bool_decide (events f = 0%Z) ;;
  ASSERT bool_decide (revents f = 0%Z) ;;
  ASSERT bool_decide (0 < fd f)%Z ;;
  Ok (with_counts (associatedCount s + 1) (usedCount s) (put_fd p f (put_entry p e s))).

Definition upd_events (g : Z → Z) (idx : nat) (s : t) : res t :=
  p ← locate idx s;
  f ← get_fd p s;
  Ok (put_fd p (mkFd (fd f) (g (events f)) (revents f)) s).
Definition setPollout := upd_events (λ e, Z.lor e POLLOUT).
Definition unsetPollout := upd_events (λ e, Z.land e (Z.lnot POLLOUT)).
Definition setPollin := upd_events (λ e, Z.lor e POLLIN).
Definition unsetPollin := upd_events (λ e, Z.land e (Z.lnot POLLIN)).

Definition setRefed (idx : nat) (r : bool) (s : t) : res t :=
  p ← locate idx s;
  e ← get_entry p s;
  u ← (match p with InSide _ => if r then isUsed (heap s) e else Ok true | InAccum _ => Ok true end);
  ASSERT u ;;
  Ok (put_entry p (mkEntry (state e) (index e) r (objectType e) (ptr e)) s).

Definition setUnused (idx : nat) (s : t) : res t :=
  p ← locate idx s;
  e ← get_entry p s;
  f ← get_fd p s;
  let '(f, a) := if bool_decide (fd f ≠ INVALID_SOCKET)
                 then (mkFd INVALID_SOCKET (events f) (revents f), (associatedCount s - 1)%Z)
                 else (f, associatedCount s) in
  Ok (with_counts a (usedCount s - 1) (put_fd p f (put_entry p (entry_setUnused e) s))).

Definition setSocketClosed (idx : nat) (s : t) : res t :=
  p ← locate idx s;
  e ← get_entry p s;
  u ← isUsed (heap s) e;
  ASSERT u ;;
  assoc ← isAssociated (heap s) e;
  f ← get_fd p s;
  e ← entry_setSocketClosed e;
  let a := if (assoc : bool) then (associatedCount s - 1)%Z else associatedCount s in
  Ok (with_counts a (usedCount s)
        (put_fd p (mkFd INVALID_SOCKET (events f) (revents f)) (put_entry p e s))).

(** [entry = NetSocketEntry(idx)] at the end of a close event *)
Definition resetEntry (idx : nat) (s : t) : res t :=
  p ← locate idx s; Ok (put_entry p (empty_entry idx) s).

(** [wait]: [poll] is given the descriptors from the second on and writes their
    [revents]; it is a parameter. *)
Definition set_revents (rs : list Z) (fs : list pollfd) : list pollfd :=
  zip_with (λ f r, mkFd (fd f) (events f) r) fs rs.
Definition wait (poll : list pollfd → Z → Z * list Z) (timeoutToUse : Z) (s : t) : t * (bool * Z) :=
  if bool_decide (associatedCount s = 0%Z) then (s, (false, 0%Z))
  else
    let '(retval, rs) := poll (drop 1 (osSide s)) timeoutToUse in
    (mk (ourSide s) (ourCap s) (ourSideAccum s) (take 1 (osSide s) ++ set_revents rs (drop 1 (osSide s)))
        (osCap s) (osSideAccum s) (associatedCount s) (usedCount s) (heap s), (true, retval)).
(** ** The invariant *)
Definition all_entries (s : t) : list NetSocketEntry := ourSide s ++ ourSideAccum s.
Definition all_fds (s : t) : list pollfd := osSide s ++ osSideAccum s.
Definition used (e : NetSocketEntry) : bool := bool_decide (state e ≠ Unused).
Definition associated (e : NetSocketEntry) : bool := bool_decide (state e = SockAssociated).

(** A descriptor is the socket's number, negated until the entry is associated
    ([poll] ignores it then) and invalid once it is closed or unused. *)
Definition fd_ok (st : State) (d : Obj) (f : pollfd) : Prop :=
  match st with
  | Unused => False
  | SockIssued => fd f = (- osSocket d)%Z ∧ events f = 0%Z ∧ revents f = 0%Z
  | SockAssociated => fd f = osSocket d
  | SockClosed => fd f = INVALID_SOCKET
  end.

Definition good (h : gmap Ob Obj) (e : NetSocketEntry) (f : pollfd) : Prop :=
  if used e
  then objectType e ≠ Undefined ∧
       ∃ o d, ptr e = Some o ∧ h !! o = Some d ∧ (0 < osSocket d)%Z ∧ fd_ok (state e) d f
  else fd f = INVALID_SOCKET.

(** an entry in use, and the object it is for, know where it is *)
Definition indexed (h : gmap Ob Obj) (i : nat) (e : NetSocketEntry) : Prop :=
  used e = true → index e = i ∧ ∀ o d, ptr e = Some o → h !! o = Some d → obj_index d = i.

Record wf (s : t) : Prop := {
  wf_len : length (ourSide s) = length (osSide s);
  wf_len_accum : length (ourSideAccum s) = length (osSideAccum s);
  wf_cap : ourCap s = osCap s ∧ length (ourSide s) ≤ ourCap s;
  wf_full : ourSideAccum s ≠ [] → length (ourSide s) = ourCap s;
  wf_zero : ∃ e0 l, ourSide s = e0 :: l ∧ used e0 = false;
  wf_good : ∀ i e f, 0 < i → all_entries s !! i = Some e → all_fds s !! i = Some f → good (heap s) e f;
  wf_indexed : ∀ i e, all_entries s !! i = Some e → indexed (heap s) i e;
  wf_used : usedCount s = Z.of_nat (countb used (all_entries s));
  wf_assoc : associatedCount s = Z.of_nat (countb associated (all_entries s));
}.

(** the place of an index *)
Definition place_at (s : t) (p : place) (idx : nat) : Prop :=
  match p with
  | InSide i => i = idx ∧ idx < length (ourSide s)
  | InAccum i => length (ourSide s) + i = idx ∧ i < length (ourSideAccum s)
  end.

Lemma locate_spec idx s :
  wf s → 0 < idx → idx < length (all_entries s) →
  ∃ p, locate idx s = Ok p ∧ place_at s p idx.
Proof.
  intros Hwf H0 Hlt. unfold all_entries in Hlt. rewrite length_app in Hlt.
  unfold locate, reserved_capacity. rewrite bool_decide_eq_true_2 by lia.
  case_bool_decide as Hin; [by exists (InSide idx)|].
  assert (Hfull : length (ourSide s) = ourCap s).
  { apply (wf_full _ Hwf). intros Hn. rewrite Hn in Hlt. simpl in Hlt. lia. }
  rewrite !bool_decide_eq_true_2 by lia. simpl. exists (InAccum (idx - ourCap s)). split; [done|].
  simpl. lia.
Qed.

Lemma get_entry_at s p idx e :
  place_at s p idx → all_entries s !! idx = Some e → get_entry p s = Ok e.
Proof.
  unfold all_entries, get_entry. destruct p as [i|i]; simpl; intros [Hi Hlt] He.
  - subst. by rewrite lookup_app_l in He by done; rewrite He.
  - rewrite lookup_app_r in He by lia. replace (idx - length (ourSide s)) with i in He by lia. by rewrite He.
Qed.

Lemma get_fd_at s p idx f :
  length (ourSide s) = length (osSide s) →
  place_at s p idx → all_fds s !! idx = Some f → get_fd p s = Ok f.
Proof.
  unfold all_fds, get_fd. intros Hlen. destruct p as [i|i]; simpl; intros [Hi Hlt] He.
  - subst. by rewrite lookup_app_l in He by lia; rewrite He.
  - rewrite lookup_app_r in He by lia. replace (idx - length (osSide s)) with i in He by lia. by rewrite He.
Qed.

Lemma put_entry_at s p idx e :
  place_at s p idx → all_entries (put_entry p e s) = <[idx := e]> (all_entries s).
Proof.
  unfold all_entries. destruct p as [i|i]; simpl; intros [Hi Hlt].
  - subst. by rewrite insert_app_l.
  - subst. rewrite insert_app_r_alt by lia. do 2 f_equal. lia.
Qed.

Lemma put_fd_at s p idx f :
  length (ourSide s) = length (osSide s) →
  place_at s p idx → all_fds (put_fd p f s) = <[idx := f]> (all_fds s).
Proof.
  unfold all_fds. intros Hlen. destruct p as [i|i]; simpl; intros [Hi Hlt].
  - subst. by rewrite insert_app_l by lia.
  - subst. rewrite insert_app_r_alt by lia. do 2 f_equal. lia.
Qed.

(** Updating the entry and the descriptor of one index. *)
Definition update (p : place) (e : NetSocketEntry) (f : pollfd) (a u : Z) (h : gmap Ob Obj) (s : t) : t :=
  with_heap h (with_counts a u (put_fd p f (put_entry p e s))).

Lemma update_wf s p idx e f e' f' a u h :
  wf s → 0 < idx → place_at s p idx →
  all_entries s !! idx = Some e → all_fds s !! idx = Some f →
  good h e' f' → indexed h idx e' →
  (∀ j e0 f0, j ≠ idx → all_entries s !! j = Some e0 → all_fds s !! j = Some f0 → 0 < j →
     good (heap s) e0 f0 → good h e0 f0) →
  (∀ j e0, j ≠ idx → all_entries s !! j = Some e0 → indexed (heap s) j e0 → indexed h j e0) →
  (u + Z.b2z (used e) = usedCount s + Z.b2z (used e'))%Z →
  (a + Z.b2z (associated e) = associatedCount s + Z.b2z (associated e'))%Z →
  (0 ≤ a < 2 ^ 64)%Z → (0 ≤ u < 2 ^ 64)%Z →
  wf (update p e' f' a u h s).
Proof.
  intros Hwf H0 Hp He Hf Hg Hi Hframe Hiframe Hu Ha Hab Hub.
  pose proof Hwf as [Hlen Hlena Hcap Hfull (e0 & l & Hz & Hz0) Hgood Hidx Hused Hass].
  assert (Hae : all_entries (update p e' f' a u h s) = <[idx := e']> (all_entries s)).
  { rewrite <-(put_entry_at s p idx e' Hp). by destruct p. }
  assert (Haf : all_fds (update p e' f' a u h s) = <[idx := f']> (all_fds s)).
  { rewrite <-(put_fd_at s p idx f' Hlen Hp). by destruct p. }
  constructor; try rewrite Hae; try rewrite Haf.
  - destruct p; cbn; rewrite ?length_insert; done.
  - destruct p; cbn; rewrite ?length_insert; done.
  - destruct p; cbn; rewrite ?length_insert; done.
  - destruct p; cbn; rewrite ?length_insert; [done|]. intros _. apply Hfull. intros Hn.
    simpl in Hp. rewrite Hn in Hp. simpl in Hp. lia.
  - destruct p as [i|i]; cbn; rewrite Hz; [|by eauto]. simpl in Hp. destruct Hp as [-> _].
    destruct idx; [lia|]. simpl. eauto.
  - intros j e1 f1 Hj He1 Hf1. destruct (decide (j = idx)) as [->|Hne].
    + rewrite list_lookup_insert_eq in He1 by (by eapply lookup_lt_Some).
      rewrite list_lookup_insert_eq in Hf1 by (by eapply lookup_lt_Some). by simplify_eq.
    + rewrite list_lookup_insert_ne in He1 by done. rewrite list_lookup_insert_ne in Hf1 by done.
      apply (Hframe j); eauto.
  - intros j e1 He1. destruct (decide (j = idx)) as [->|Hne].
    + rewrite list_lookup_insert_eq in He1 by (by eapply lookup_lt_Some). by simplify_eq.
    + rewrite list_lookup_insert_ne in He1 by done. apply (Hiframe j); eauto.
  - pose proof (countb_insert used _ _ _ e' He). cbn. rewrite u64_small by done.
    destruct (used e), (used e'); simpl in *; lia.
  - pose proof (countb_insert associated _ _ _ e' He). cbn. rewrite u64_small by done.
    destruct (associated e), (associated e'); simpl in *; lia.
Qed.
Lemma wf_fd_at s i e : wf s → all_entries s !! i = Some e → ∃ f, all_fds s !! i = Some f.
Proof.
  intros Hwf He. apply lookup_lt_is_Some_2. apply lookup_lt_Some in He.
  unfold all_entries, all_fds in *. rewrite length_app in *.
  pose proof (wf_len _ Hwf). pose proof (wf_len_accum _ Hwf). lia.
Qed.

Lemma good_valid h e f : good h e f → bool_decide (state e = Unused) || isValid h e = true.
Proof.
  unfold good, used, isValid. destruct (bool_decide_reflect (state e ≠ Unused)) as [Hu|Hu].
  - intros (_ & o & d & Hp & Ho & _). rewrite Hp, Ho. apply orb_true_iff. right.
    by apply bool_decide_eq_true_2.
  - intros _. apply dec_stable in Hu. by rewrite bool_decide_eq_true_2.
Qed.

Lemma isUsed_ok s i e : wf s → 0 < i → all_entries s !! i = Some e → isUsed (heap s) e = Ok (used e).
Proof.
  intros Hwf H0 He. destruct (wf_fd_at _ _ _ Hwf He) as [f Hf].
  unfold isUsed. by rewrite (good_valid _ _ _ (wf_good _ Hwf _ _ _ H0 He Hf)).
Qed.

Lemma isAssociated_ok s i e :
  wf s → 0 < i → all_entries s !! i = Some e → isAssociated (heap s) e = Ok (associated e).
Proof.
  intros Hwf H0 He. destruct (wf_fd_at _ _ _ Hwf He) as [f Hf].
  unfold isAssociated. by rewrite (good_valid _ _ _ (wf_good _ Hwf _ _ _ H0 He Hf)).
Qed.

Lemma counts_bound s : wf s → (0 ≤ associatedCount s ≤ usedCount s)%Z.
Proof.
  intros Hwf. rewrite (wf_used _ Hwf), (wf_assoc _ Hwf). generalize (all_entries s). intros l.
  induction l as [|e l IH]; simpl; [lia|].
  assert (associated e = true → used e = true).
  { unfold associated, used. rewrite !bool_decide_eq_true. congruence. }
  destruct (associated e), (used e); simpl; lia || naive_solver.
Qed.

(** The table fits in memory: counts do not wrap. *)
Definition fits (s : t) : Prop := (Z.of_nat (length (all_entries s)) < 2 ^ 63)%Z.

Lemma used_bound s : wf s → fits s → (usedCount s < 2 ^ 63)%Z.
Proof.
  unfold fits. intros Hwf Hf. rewrite (wf_used _ Hwf).
  pose proof (countb_le used (all_entries s)). lia.
Qed.

Lemma used_pos s i e : wf s → all_entries s !! i = Some e → used e = true → (0 < usedCount s)%Z.
Proof.
  intros Hwf He Hu. rewrite (wf_used _ Hwf).
  pose proof (countb_insert used _ _ _ (entry_setUnused e) He).
  rewrite Hu in H0. simpl in H0. lia.
Qed.

Lemma assoc_pos s i e : wf s → all_entries s !! i = Some e → state e = SockAssociated → (0 < associatedCount s)%Z.
Proof.
  intros Hwf He Hu. rewrite (wf_assoc _ Hwf). pose proof (countb_insert associated _ _ _ (entry_setUnused e) He).
  unfold associated at 2 in H0. rewrite Hu in H0. simpl in H0. lia.
Qed.

(** What the operations on one entry do. *)
Section one.
Context (s : t) (idx : nat) (e : NetSocketEntry) (f : pollfd).
Context (Hwf : wf s) (Hfits : fits s) (H0 : 0 < idx).
Context (He : all_entries s !! idx = Some e) (Hf : all_fds s !! idx = Some f).

Lemma at_place : ∃ p, locate idx s = Ok p ∧ place_at s p idx ∧
  get_entry p s = Ok e ∧ get_fd p s = Ok f.
Proof.
  destruct (locate_spec idx s Hwf H0) as (p & Hl & Hp); [by eapply lookup_lt_Some|].
  exists p. split_and!; [done..|by eapply get_entry_at|]. eapply get_fd_at; [apply Hwf|done..].
Qed.

Lemma e_good : good (heap s) e f.
Proof. by eapply wf_good. Qed.

Lemma update_same_heap p e' f' a u :
  place_at s p idx → good (heap s) e' f' → indexed (heap s) idx e' →
  (u + Z.b2z (used e) = usedCount s + Z.b2z (used e'))%Z →
  (a + Z.b2z (associated e) = associatedCount s + Z.b2z (associated e'))%Z →
  (0 ≤ a < 2 ^ 64)%Z → (0 ≤ u < 2 ^ 64)%Z →
  wf (update p e' f' a u (heap s) s).
Proof. intros Hp Hg Hi Hu Ha Hab Hub. by eapply update_wf; eauto. Qed.

Lemma heap_update p e' f' a u : 
  with_counts a u (put_fd p f' (put_entry p e' s)) = update p e' f' a u (heap s) s.
Proof. by destruct p. Qed.

Lemma setAssociated_spec :
  state e = SockIssued →
  ∃ s', setAssociated idx s = Ok s' ∧ wf s' ∧ heap s' = heap s ∧
    all_entries s' = <[idx := with_state SockAssociated e]> (all_entries s) ∧
    all_fds s' = <[idx := mkFd (- fd f) 0 0]> (all_fds s).
Proof.
  intros Hst. destruct at_place as (p & Hl & Hp & Hge & Hgf).
  pose proof e_good as Hg. unfold good, used in Hg. rewrite Hst in Hg.
  rewrite bool_decide_eq_true_2 in Hg by done.
  destruct Hg as (Hot & o & d & Hptr & Ho & Hpos & Hfd & Hev & Hrev).
  unfold setAssociated. rewrite Hl. cbn [mbind res_bind]. rewrite Hge. cbn [mbind res_bind].
  rewrite (isUsed_ok _ _ _ Hwf H0 He). unfold used. rewrite Hst.
  assert (Hval : isValid (heap s) e = true).
  { unfold isValid. rewrite Hptr, Ho. by apply bool_decide_eq_true_2. }
  unfold entry_setAssociated. rewrite Hst, Hval, Hgf.
  assert (Hu : ∀ p, (match p with InSide _ => Ok (bool_decide (SockIssued ≠ Unused)) | InAccum _ => Ok true end : res bool) = Ok true).
  { intros []; [|done]. by rewrite bool_decide_eq_true_2. }
  rewrite Hu. cbn [mbind res_bind]. rewrite (bool_decide_eq_true_2 (SockIssued = _)) by done.
  cbn [andb mbind res_bind fd events revents]. rewrite Hev, Hrev, Hfd.
  rewrite !bool_decide_eq_true_2 by lia. rewrite heap_update. eexists. split; [done|].
  pose proof (counts_bound _ Hwf). pose proof (used_bound _ Hwf Hfits).
  split; [|split; [done|split]].
  - apply update_same_heap; [done|..].
    + unfold good, used. simpl. split; [done|]. exists o, d. split_and!; try done. simpl. lia.
    + pose proof (wf_indexed _ Hwf _ _ He) as Hi. intros _. apply Hi. unfold used. by rewrite Hst.
    + unfold used. simpl. by rewrite Hst.
    + unfold associated. simpl. rewrite Hst. simpl. lia.
    + lia.
    + lia.
  - rewrite <-(put_entry_at s p idx _ Hp). by destruct p.
  - rewrite <-(put_fd_at s p idx _ (wf_len _ Hwf) Hp). by destruct p.
Qed.

Lemma setUnused_spec :
  state e = SockAssociated ∨ state e = SockClosed →
  ∃ s', setUnused idx s = Ok s' ∧ wf s' ∧ heap s' = heap s ∧
    all_entries s' = <[idx := entry_setUnused e]> (all_entries s).
Proof.
  intros Hst. destruct at_place as (p & Hl & Hp & Hge & Hgf).
  assert (Hue : used e = true).
  { unfold used. apply bool_decide_eq_true_2. destruct Hst as [->| ->]; done. }
  pose proof e_good as Hg. unfold good in Hg. rewrite Hue in Hg.
  destruct Hg as (Hot & o & d & Hptr & Ho & Hpos & Hfd).
  unfold setUnused. rewrite Hl. cbn [mbind res_bind]. rewrite Hge. cbn [mbind res_bind]. rewrite Hgf.
  cbn [mbind res_bind]. pose proof (counts_bound _ Hwf). pose proof (used_bound _ Hwf Hfits).
  pose proof (used_pos _ _ _ Hwf He Hue).
  assert (Hcase : (if bool_decide (fd f ≠ INVALID_SOCKET)
     then (mkFd INVALID_SOCKET (events f) (revents f), (associatedCount s - 1)%Z)
     else (f, associatedCount s)) =
    (mkFd INVALID_SOCKET (events f) (revents f), (associatedCount s - Z.b2z (associated e))%Z)).
  { unfold associated. destruct Hst as [Hst|Hst]; rewrite Hst in Hfd; simpl in Hfd; rewrite Hfd, Hst.
    - by rewrite !bool_decide_eq_true_2 by (unfold INVALID_SOCKET; done || lia).
    - rewrite bool_decide_eq_false_2 by tauto. simpl. rewrite Z.sub_0_r. f_equal.
      destruct f; simpl in *. by subst. }
  rewrite Hcase. rewrite heap_update. eexists. split; [done|].
  split; [|split; [done|]].
  - apply update_same_heap; [done|..].
    + done.
    + intros Hx. done.
    + rewrite Hue. unfold used at 1. simpl. lia.
    + unfold associated at 3. simpl. lia.
    + pose proof (assoc_pos _ _ _ Hwf He) as Hap. unfold associated.
      destruct (bool_decide_reflect (state e = SockAssociated)) as [Ha|Ha]; simpl; [specialize (Hap Ha)|]; lia.
    + lia.
  - rewrite <-(put_entry_at s p idx _ Hp). by destruct p.
Qed.

Lemma setSocketClosed_spec :
  used e = true →
  ∃ s', setSocketClosed idx s = Ok s' ∧ wf s' ∧ heap s' = heap s ∧
    all_entries s' = <[idx := with_state SockClosed e]> (all_entries s).
Proof.
  intros Hue. destruct at_place as (p & Hl & Hp & Hge & Hgf).
  pose proof e_good as Hg. unfold good in Hg. rewrite Hue in Hg.
  destruct Hg as (Hot & o & d & Hptr & Ho & Hpos & Hfd).
  unfold setSocketClosed. rewrite Hl. cbn [mbind res_bind]. rewrite Hge. cbn [mbind res_bind].
  rewrite (isUsed_ok _ _ _ Hwf H0 He), Hue. cbn [mbind res_bind].
  rewrite (isAssociated_ok _ _ _ Hwf H0 He), Hgf. cbn [mbind res_bind].
  unfold entry_setSocketClosed. unfold used in Hue. rewrite Hue. cbn [mbind res_bind].
  pose proof (counts_bound _ Hwf). pose proof (used_bound _ Hwf Hfits).
  assert (Hcase : (if associated e then (associatedCount s - 1)%Z else associatedCount s) =
    (associatedCount s - Z.b2z (associated e))%Z) by (destruct (associated e); simpl; lia).
  rewrite Hcase, heap_update. eexists. split; [done|].
  split; [|split; [done|]].
  - apply update_same_heap; [done|..].
    + unfold good, used. simpl. split; [done|]. by exists o, d.
    + pose proof (wf_indexed _ Hwf _ _ He) as Hi. intros _. by apply Hi.
    + unfold used. rewrite Hue. simpl. lia.
    + unfold associated at 3. simpl. lia.
    + pose proof (assoc_pos _ _ _ Hwf He) as Hap. unfold associated.
      destruct (bool_decide_reflect (state e = SockAssociated)) as [Ha|Ha]; simpl; [specialize (Hap Ha)|]; lia.
    + lia.
  - rewrite <-(put_entry_at s p idx _ Hp). by destruct p.
Qed.

Lemma upd_events_spec g :
  state e = SockAssociated ∨ state e = SockClosed →
  ∃ s', upd_events g idx s = Ok s' ∧ wf s' ∧ heap s' = heap s ∧ all_entries s' = all_entries s ∧
    all_fds s' = <[idx := mkFd (fd f) (g (events f)) (revents f)]> (all_fds s).
Proof.
  intros Hst. destruct at_place as (p & Hl & Hp & Hge & Hgf).
  pose proof e_good as Hg. unfold upd_events. rewrite Hl. cbn [mbind res_bind]. rewrite Hgf.
  cbn [mbind res_bind]. eexists. split; [done|].
  set (f' := mkFd _ _ _). pose proof (counts_bound _ Hwf). pose proof (used_bound _ Hwf Hfits).
  assert (Hae : all_entries (put_fd p f' s) = all_entries s) by (by destruct p).
  assert (Haf : all_fds (put_fd p f' s) = <[idx := f']> (all_fds s)) by (by apply put_fd_at; [apply Hwf|]).
  assert (Hid : <[idx := e]> (all_entries s) = all_entries s) by (by apply list_insert_id).
  split; [|by destruct p].
  assert (Heq : put_fd p f' s = update p e f' (associatedCount s) (usedCount s) (heap s) s).
  { unfold update, with_counts. rewrite !u64_small by lia.
    destruct p as [i|i]; cbn in *; destruct Hp as [Hi Hlt]; unfold with_heap; cbn; f_equal; symmetry;
      apply list_insert_id; unfold all_entries in He.
    - subst. by rewrite lookup_app_l in He by done.
    - rewrite lookup_app_r in He by lia. by replace (idx - length (ourSide s)) with i in He by lia. }
  rewrite Heq. apply update_same_heap; [done|..].
  - unfold good in *. destruct (used e) eqn:Hu.
    + destruct Hg as (Hot & o & d & Hptr & Ho & Hpos & Hfd). split; [done|]. exists o, d.
      split_and!; try done. destruct Hst as [Hst|Hst]; rewrite Hst in *; done.
    + done.
  - by apply (wf_indexed _ Hwf).
  - lia.
  - lia.
  - lia.
  - lia.
Qed.

Lemma setRefed_spec r :
  ∃ s', (r = true → used e = true) → setRefed idx r s = Ok s' ∧ wf s' ∧ heap s' = heap s ∧
    all_fds s' = all_fds s ∧
    all_entries s' = <[idx := mkEntry (state e) (index e) r (objectType e) (ptr e)]> (all_entries s).
Proof.
  destruct at_place as (p & Hl & Hp & Hge & Hgf).
  pose proof e_good as Hg. unfold setRefed. rewrite Hl. cbn [mbind res_bind]. rewrite Hge.
  cbn [mbind res_bind]. set (e' := mkEntry _ _ r _ _). exists (put_entry p e' s). intros Hr.
  pose proof (counts_bound _ Hwf). pose proof (used_bound _ Hwf Hfits).
  assert (Hu : (match p with InSide _ => if r then isUsed (heap s) e else Ok true | InAccum _ => Ok true end)
               = Ok true).
  { destruct p; [|done]. destruct r; [|done]. by rewrite (isUsed_ok _ _ _ Hwf H0 He), Hr. }
  rewrite Hu. cbn [mbind res_bind]. split; [done|].
  assert (Heq : put_entry p e' s = update p e' f (associatedCount s) (usedCount s) (heap s) s).
  { unfold update, with_counts. rewrite !u64_small by lia.
    destruct p as [i|i]; cbn in *; destruct Hp as [Hi Hlt]; unfold with_heap; cbn; f_equal; symmetry;
      apply list_insert_id; unfold all_fds in Hf; pose proof (wf_len _ Hwf).
    - subst. by rewrite lookup_app_l in Hf by lia.
    - rewrite lookup_app_r in Hf by lia. by replace (idx - length (osSide s)) with i in Hf by lia. }
  split; [|split; [by destruct p|split; [by destruct p|by apply put_entry_at]]].
  rewrite Heq. apply update_same_heap; [done|..].
  - unfold good, used in *. by simpl.
  - pose proof (wf_indexed _ Hwf _ _ He) as Hi. intros Hx. by apply Hi.
  - done.
  - done.
  - lia.
  - lia.
Qed.
End one.
(** *** Adding an entry *)
Lemma find_unused_spec n i s :
  wf s → 0 < i → i + n = length (ourSide s) →
  ∃ r, find_unused n i s = Ok r ∧
    match r with
    | Some j => ∃ e, ourSide s !! j = Some e ∧ used e = false ∧ i ≤ j
    | None => True
    end.
Proof.
  intros Hwf. revert i. induction n as [|n IH]; intros i H0 Hlen; cbn [find_unused]; [by eexists|].
  destruct (lookup_lt_is_Some_2 (ourSide s) i ltac:(lia)) as [e He]. rewrite He.
  assert (Hall : all_entries s !! i = Some e).
  { unfold all_entries. rewrite lookup_app_l by lia. done. }
  rewrite (isUsed_ok _ _ _ Hwf H0 Hall). cbn [mbind res_bind]. destruct (used e) eqn:Hu.
  - destruct (IH (S i)) as (r & Hr & Hspec); [lia..|]. exists r. split; [done|].
    destruct r as [j|]; [|done]. destruct Hspec as (e' & ? & ? & ?). exists e'. split_and!; [done..|lia].
  - eexists. split; [done|]. exists e. split_and!; [done..|lia].
Qed.

Lemma good_set_index h o d i e f :
  h !! o = Some d → good h e f → good (<[o := set_index i d]> h) e f.
Proof.
  intros Ho. unfold good. destruct (used e); [|done].
  intros (Hot & o' & d' & Hp & Ho' & Hpos & Hfd). split; [done|]. exists o'.
  destruct (decide (o' = o)) as [->|Hne].
  - simplify_eq. exists (set_index i d). rewrite lookup_insert_eq. split_and!; try done.
  - exists d'. by rewrite lookup_insert_ne by done.
Qed.

(** [o] has no entry in use *)
Definition unregistered (o : Ob) (s : t) : Prop :=
  ∀ i e, all_entries s !! i = Some e → used e = true → ptr e ≠ Some o.

Lemma indexed_set_index h o d i j e :
  (used e = true → ptr e ≠ Some o) → indexed h j e → indexed (<[o := set_index i d]> h) j e.
Proof.
  intros Hno Hi Hu. destruct (Hi Hu) as [? Hobj]. split; [done|]. intros o' d' Hp Ho'.
  assert (o' ≠ o) by (intros ->; by apply (Hno Hu)). rewrite lookup_insert_ne in Ho' by done. eauto.
Qed.

Lemma new_entry_good h o d i ot :
  h !! o = Some d → (0 < osSocket d)%Z → ot ≠ Undefined →
  good (<[o := set_index i d]> h) (mkEntry SockIssued i false ot (Some o)) (new_fd d).
Proof.
  intros Ho Hpos Hot. unfold good, used. simpl. split; [done|]. exists o, (set_index i d).
  by rewrite lookup_insert_eq.
Qed.

Lemma new_entry_indexed h o d i ot :
  indexed (<[o := set_index i d]> h) i (mkEntry SockIssued i false ot (Some o)).
Proof. intros _. split; [done|]. intros o' d' [= <-] Hl. rewrite lookup_insert_eq in Hl. by simplify_eq. Qed.

Lemma append_wf s s' i o d ot :
  i = length (all_entries s) →
  wf s → fits s → unregistered o s → heap s !! o = Some d → (0 < osSocket d)%Z → ot ≠ Undefined →
  all_entries s' = all_entries s ++ [mkEntry SockIssued i false ot (Some o)] → all_fds s' = all_fds s ++ [new_fd d] →
  heap s' = <[o := set_index i d]> (heap s) →
  usedCount s' = u64 (usedCount s + 1) → associatedCount s' = associatedCount s →
  length (ourSide s') = length (osSide s') → length (ourSideAccum s') = length (osSideAccum s') →
  ourCap s' = osCap s' ∧ length (ourSide s') ≤ ourCap s' →
  (ourSideAccum s' ≠ [] → length (ourSide s') = ourCap s') →
  (∃ e0 l, ourSide s' = e0 :: l ∧ used e0 = false) →
  wf s'.
Proof.
  intros Hi Hwf Hfits Hun Ho Hpos Hot Hae Haf Hh Hu Ha H1 H2 H3 H4 H5.
  assert (Hlen : length (all_entries s) = length (all_fds s)).
  { unfold all_entries, all_fds. rewrite !length_app, (wf_len _ Hwf), (wf_len_accum _ Hwf). done. }
  pose proof (counts_bound _ Hwf). pose proof (used_bound _ Hwf Hfits).
  constructor; try done; rewrite ?Hae, ?Haf, ?Hh.
  - intros j e1 f1 Hj He1 Hf1. apply lookup_app_Some in He1 as [He1|[Hge He1]].
    + pose proof (lookup_lt_Some _ _ _ He1). rewrite lookup_app_l in Hf1 by lia.
      apply good_set_index; [done|]. by eapply (wf_good _ Hwf).
    + apply list_lookup_singleton_Some in He1 as [Hj0 <-].
      replace j with i in * by lia.
      rewrite lookup_app_r, <-Hlen, <-Hi, Nat.sub_diag in Hf1 by lia.
      simplify_eq/=. by apply new_entry_good.
  - intros j e1 He1. apply lookup_app_Some in He1 as [He1|[Hge He1]].
    + apply indexed_set_index; [by apply (Hun j)|]. by apply (wf_indexed _ Hwf).
    + apply list_lookup_singleton_Some in He1 as [Hj0 <-].
      replace j with i by lia. apply new_entry_indexed.
  - rewrite countb_app, Hu, u64_small by lia. rewrite (wf_used _ Hwf). simpl. lia.
  - rewrite countb_app, Ha, (wf_assoc _ Hwf). simpl. lia.
Qed.

Lemma addEntry_spec ot o d s :
  wf s → fits s → unregistered o s → heap s !! o = Some d → (0 < osSocket d)%Z → ot ≠ Undefined →
  ∃ s' i, addEntry ot o s = Ok s' ∧ wf s' ∧ 0 < i ∧
    heap s' = <[o := set_index i d]> (heap s) ∧
    all_entries s' !! i = Some (mkEntry SockIssued i false ot (Some o)) ∧
    all_fds s' !! i = Some (new_fd d) ∧
    (∀ j e, j ≠ i → all_entries s !! j = Some e → all_entries s' !! j = Some e) ∧
    length (all_entries s) ≤ length (all_entries s') ≤ S (length (all_entries s)).
Proof.
  intros Hwf Hfits Hun Ho Hpos Hot. pose proof (counts_bound _ Hwf). pose proof (used_bound _ Hwf Hfits).
  destruct (wf_zero _ Hwf) as (e0 & l0 & Hz & Hz0).
  unfold addEntry, reserved_capacity. rewrite Ho. rewrite !bool_decide_eq_true_2 by (apply Hwf || done).
  assert (Hlen : 1 + (length (ourSide s) - 1) = length (ourSide s)) by (rewrite Hz; simpl; lia).
  destruct (find_unused_spec _ 1 s Hwf ltac:(lia) Hlen) as (r & -> & Hr). cbn [mbind res_bind].
  unfold new_entry. rewrite Ho. rewrite (bool_decide_eq_true_2 (0 < osSocket d)%Z) by done.
  destruct r as [i|].
  - destruct Hr as (e & He & Hue & Hi). cbn [mbind res_bind].
    pose proof (lookup_lt_Some _ _ _ He) as Hilt.
    assert (Hall : all_entries s !! i = Some e) by (unfold all_entries; by rewrite lookup_app_l).
    assert (Hp : place_at s (InSide i) i) by done.
    destruct (wf_fd_at _ _ _ Hwf Hall) as [f Hf].
    set (e' := mkEntry SockIssued i false ot (Some o)).
    assert (Hae : all_entries (update (InSide i) e' (new_fd d) (associatedCount s) (usedCount s + 1)
              (<[o := set_index i d]> (heap s)) s) = <[i := e']> (all_entries s)).
    { by rewrite <-(put_entry_at s (InSide i) i e' Hp). }
    assert (Haf : all_fds (update (InSide i) e' (new_fd d) (associatedCount s) (usedCount s + 1)
              (<[o := set_index i d]> (heap s)) s) = <[i := new_fd d]> (all_fds s)).
    { rewrite <-(put_fd_at s (InSide i) i (new_fd d) (wf_len _ Hwf) Hp). done. }
    assert (Hna : associated e = false).
    { unfold associated. apply bool_decide_eq_false_2. intros Hs. unfold used in Hue. by rewrite Hs in Hue. }
    exists (update (InSide i) e' (new_fd d) (associatedCount s) (usedCount s + 1)
              (<[o := set_index i d]> (heap s)) s), i.
    split; [done|]. rewrite Hae, Haf. split; [|split; [lia|split; [done|split; [|split; [|split]]]]].
    + apply (update_wf s _ i e f); [done|lia|done|done|done|by apply new_entry_good|apply new_entry_indexed|..].
      * intros j e1 f1 Hne He1 Hf1 Hj Hg. by apply good_set_index.
      * intros j e1 Hne He1 Hi1. apply indexed_set_index; [by apply (Hun j)|done].
      * rewrite Hue. change (used e') with true. simpl. lia.
      * rewrite Hna. change (associated e') with false. simpl. lia.
      * lia.
      * lia.
    + apply list_lookup_insert_eq. by eapply lookup_lt_Some.
    + apply list_lookup_insert_eq. by eapply lookup_lt_Some.
    + intros j e1 Hne He1. by rewrite list_lookup_insert_ne by done.
    + rewrite length_insert. lia.
  - clear Hr. set (i := length (all_entries s)).
    assert (Hpost : ∀ s', all_entries s' = all_entries s ++ [mkEntry SockIssued i false ot (Some o)] →
      all_fds s' = all_fds s ++ [new_fd d] →
      all_entries s' !! i = Some (mkEntry SockIssued i false ot (Some o)) ∧
      all_fds s' !! i = Some (new_fd d) ∧
      (∀ j e, j ≠ i → all_entries s !! j = Some e → all_entries s' !! j = Some e) ∧
      length (all_entries s) ≤ length (all_entries s') ≤ S (length (all_entries s))).
    { intros s' -> ->. assert (Hl : length (all_fds s) = i).
      { unfold i, all_entries, all_fds. rewrite !length_app, (wf_len _ Hwf), (wf_len_accum _ Hwf). done. }
      split; [by apply list_lookup_middle|]. split; [by apply list_lookup_middle|].
      split; [intros j e _ He; by apply lookup_app_l_Some|]. rewrite length_app. simpl. lia. }
    destruct (bool_decide_reflect (length (ourSide s) < ourCap s)) as [Hlt|Hge].
    + assert (Hacc : ourSideAccum s = []).
      { destruct (ourSideAccum s) eqn:Ha; [done|]. pose proof (wf_full _ Hwf). rewrite Ha in *.
        assert (length (ourSide s) = ourCap s) by auto. lia. }
      assert (Hi : i = length (ourSide s)) by (unfold i, all_entries; rewrite Hacc, app_nil_r; done).
      assert (Hosacc : osSideAccum s = []).
      { apply nil_length_inv. rewrite <-(wf_len_accum _ Hwf), Hacc. done. }
      cbn [mbind res_bind]. rewrite <-Hi. eexists _, i. split; [done|].
      match goal with |- wf ?s' ∧ _ => destruct (Hpost s') as (P1 & P2 & P3 & P4) end.
      { unfold all_entries; cbn. by rewrite Hacc, !app_nil_r. }
      { unfold all_fds; cbn. by rewrite Hosacc, !app_nil_r. }
      split; [|split_and!; try done; lia].
      eapply (append_wf s _ i o d ot); try done.
      * unfold all_entries; cbn. by rewrite Hacc, !app_nil_r.
      * unfold all_fds; cbn. by rewrite Hosacc, !app_nil_r.
      * cbn. rewrite !length_app, (wf_len _ Hwf). done.
      * cbn. apply Hwf.
      * cbn. rewrite length_app. simpl. unfold cap_after. pose proof (wf_cap _ Hwf) as [Hc Hle].
        rewrite <-(wf_len _ Hwf), <-Hc. rewrite !bool_decide_eq_true_2 by lia. lia.
      * cbn. rewrite Hz. simpl. eauto.
    + assert (Hi : i = length (ourSide s) + length (ourSideAccum s)) by (unfold i, all_entries; by rewrite length_app).
      cbn [mbind res_bind]. rewrite <-Hi. eexists _, i. split; [done|].
      match goal with |- wf ?s' ∧ _ => destruct (Hpost s') as (P1 & P2 & P3 & P4) end.
      { unfold all_entries; cbn. by rewrite app_assoc. }
      { unfold all_fds; cbn. by rewrite app_assoc. }
      split; [|split_and!; try done; lia].
      eapply (append_wf s _ i o d ot); try done.
      * unfold all_entries; cbn. by rewrite app_assoc.
      * unfold all_fds; cbn. by rewrite app_assoc.
      * cbn. apply Hwf.
      * cbn. rewrite !length_app, (wf_len_accum _ Hwf). done.
      * cbn. apply Hwf.
      * cbn. intros _. pose proof (wf_cap _ Hwf). lia.
      * cbn. apply Hwf.
Qed.
(** *** Merging and compacting *)
Context (grow_gt : ∀ n, n < grow n).

Lemma cap_after_spec n cap : n ≤ cap → S n ≤ cap_after n cap.
Proof. intros. unfold cap_after. case_bool_decide; [lia|]. pose proof (grow_gt cap). lia. Qed.

Lemma merge_spec es fs s :
  length es = length fs → length (ourSide s) = length (osSide s) →
  ourCap s = osCap s → length (ourSide s) ≤ ourCap s →
  (∀ k e, es !! k = Some e → index e = length (ourSide s) + k) →
  ∃ cap, merge es fs s = Ok (mk (ourSide s ++ es) cap (ourSideAccum s) (osSide s ++ fs) cap
           (osSideAccum s) (associatedCount s) (usedCount s) (heap s)) ∧
         length (ourSide s ++ es) ≤ cap.
Proof.
  revert fs s. induction es as [|e es IH]; intros [|f fs] s Hlen Hl Hc Hle Hidx; try done; cbn [merge].
  - exists (ourCap s). rewrite !app_nil_r. split; [|done]. rewrite Hc at 2. by destruct s.
  - rewrite bool_decide_eq_true_2 by (rewrite (Hidx 0 e eq_refl); lia).
    match goal with |- context [merge es fs ?s1] => destruct (IH fs s1) as (cap & Hm & Hcap) end.
    + simpl in Hlen. lia.
    + cbn. rewrite !length_app. simpl; lia.
    + cbn. by rewrite Hl, Hc.
    + cbn [ourSide ourCap]. rewrite length_app. simpl length. pose proof (cap_after_spec _ _ Hle). lia.
    + intros k e' Hk. cbn. rewrite (Hidx (S k) e' Hk), length_app. simpl. lia.
    + exists cap. cbn in *. rewrite <-!app_assoc in *. done.
Qed.

(** every accumulated entry carries the index of the place it will move to *)
Definition in_place (s : t) : Prop :=
  index <$> ourSideAccum s = seq (length (ourSide s)) (length (ourSideAccum s)).
#[global] Instance in_place_dec s : Decision (in_place s) := decide_rel (=) _ _.

Lemma merge_stops es fs s :
  length es = length fs → index <$> es ≠ seq (length (ourSide s)) (length es) → merge es fs s = AssertFail.
Proof.
  revert fs s. induction es as [|e es IH]; intros [|f fs] s Hlen Hne; try done; cbn [merge].
  destruct (bool_decide_reflect (index e = length (ourSide s))) as [He|]; [|done].
  apply IH; [by injection Hlen|]. cbn. rewrite length_app. intros Heq. apply Hne. cbn.
  rewrite He, Heq. simpl. by rewrite Nat.add_1_r.
Qed.

Definition moved (i : nat) (e : NetSocketEntry) : NetSocketEntry :=
  mkEntry (state e) i (refed e) (objectType e) (ptr e).

(** no object has two entries in use *)
Definition distinct (l : list NetSocketEntry) : Prop :=
  ∀ i j e e' o, l !! i = Some e → l !! j = Some e' → used e = true → used e' = true →
    ptr e = Some o → ptr e' = Some o → i = j.

Lemma distinct_moved l1 l2 e i : distinct (l1 ++ e :: l2) → distinct ((l1 ++ [moved i e]) ++ l2).
Proof.
  intros Hd a b x y o Hx Hy Hux Huy Hpx Hpy.
  assert (Hback : ∀ k z, ((l1 ++ [moved i e]) ++ l2) !! k = Some z →
            ∃ z', (l1 ++ e :: l2) !! k = Some z' ∧ used z' = used z ∧ ptr z' = ptr z).
  { intros k z Hk. rewrite <-app_assoc in Hk. simpl in Hk.
    apply lookup_app_Some in Hk as [Hk|[Hge Hk]].
    - exists z. split; [by apply lookup_app_l_Some|done].
    - apply lookup_cons_Some in Hk as [[Hk <-]|[Hk Hl2]].
      + exists e. split; [|done]. replace k with (length l1) by lia. by apply list_lookup_middle.
      + exists z. split; [|done]. rewrite lookup_app_r by lia. rewrite lookup_cons_ne_0 by lia.
        rewrite <-Hl2. f_equal. lia. }
  destruct (Hback _ _ Hx) as (x' & ? & ? & ?), (Hback _ _ Hy) as (y' & ? & ? & ?).
  eapply (Hd a b x' y' o); congruence.
Qed.

Lemma distinct_drop l1 l2 e : distinct (l1 ++ e :: l2) → distinct (l1 ++ l2).
Proof.
  intros Hd a b x y o Hx Hy Hux Huy Hpx Hpy.
  set (g := λ k, if decide (k < length l1) then k else S k).
  assert (Hback : ∀ k z, (l1 ++ l2) !! k = Some z → (l1 ++ e :: l2) !! g k = Some z).
  { intros k z Hk. unfold g. apply lookup_app_Some in Hk as [Hk|[Hge Hk]].
    - rewrite decide_True by (by eapply lookup_lt_Some). by apply lookup_app_l_Some.
    - rewrite decide_False by lia. rewrite lookup_app_r by lia.
      replace (S k - length l1) with (S (k - length l1)) by lia. done. }
  pose proof (Hd _ _ _ _ _ (Hback _ _ Hx) (Hback _ _ Hy) Hux Huy Hpx Hpy) as Heq.
  unfold g in Heq. repeat case_decide; lia.
Qed.

(** What compaction makes of the entries [es] and descriptors [fs], given what
    it has put into the new vectors so far. *)
Record compacted (es : list NetSocketEntry) (fs : list pollfd) (es1 es2 : list NetSocketEntry)
    (fs1 fs2 : list pollfd) (h h2 : gmap Ob Obj) : Prop := {
  cp_len : length es2 = length fs2;
  cp_prefix : es1 `prefix_of` es2 ∧ fs1 `prefix_of` fs2;
  cp_count : countb used es2 = countb used es1 + countb used es;
  cp_assoc : countb associated es2 = countb associated es1 + countb associated es;
  cp_good : ∀ i e f, 0 < i → es2 !! i = Some e → fs2 !! i = Some f → good h2 e f;
  cp_indexed : ∀ i e, es2 !! i = Some e → indexed h2 i e;
  cp_to : ∀ k e f, es !! k = Some e → fs !! k = Some f → used e = true →
    ∃ j, es2 !! j = Some (moved j e) ∧ fs2 !! j = Some f;
  cp_from : ∀ j e2, length es1 ≤ j → es2 !! j = Some e2 →
    ∃ k e f, es !! k = Some e ∧ fs !! k = Some f ∧ used e = true ∧ e2 = moved j e ∧ fs2 !! j = Some f;
  cp_heap : ∀ o, osSocket <$> h2 !! o = osSocket <$> h !! o;
}.

Lemma compacted_step_unused es fs es1 es2 fs1 fs2 h h2 e f :
  used e = false → compacted es fs es1 es2 fs1 fs2 h h2 →
  compacted (e :: es) (f :: fs) es1 es2 fs1 fs2 h h2.
Proof.
  intros Hu [H1 H2 H3 H4 H5 H6 H7 H8 H9].
  assert (Hna : associated e = false).
  { apply bool_decide_eq_false_2. intros Hs. unfold used in Hu. by rewrite Hs in Hu. }
  constructor; try done.
  - rewrite H3. simpl. by rewrite Hu.
  - rewrite H4. simpl. by rewrite Hna.
  - intros [|k] e' f' He' Hf' Hu'; [simplify_eq/=; congruence|]. by apply (H7 k).
  - intros j e2 Hj He2. destruct (H8 j e2 Hj He2) as (k & e' & f' & ?). by exists (S k), e', f'.
Qed.

Lemma compacted_step_used es fs es1 es2 fs1 fs2 h h2 e f o d :
  used e = true → h !! o = Some d → length es1 = length fs1 →
  compacted es fs (es1 ++ [moved (length es1) e]) es2 (fs1 ++ [f]) fs2
    (<[o := set_index (length es1) d]> h) h2 →
  compacted (e :: es) (f :: fs) es1 es2 fs1 fs2 h h2.
Proof.
  intros Hu Ho Hlen [H1 [H2 H2'] H3 H4 H5 H6 H7 H8 H9].
  assert (Hmid : es2 !! length es1 = Some (moved (length es1) e) ∧ fs2 !! length es1 = Some f).
  { split.
    - eapply prefix_lookup_Some; [|exact H2]. by apply list_lookup_middle.
    - eapply prefix_lookup_Some; [|exact H2']. rewrite Hlen. by apply list_lookup_middle. }
  destruct Hmid as [Hme Hmf].
  constructor; try done.
  - split; [by eapply prefix_app_l|by eapply prefix_app_l].
  - rewrite H3, countb_app. simpl. change (used (moved _ e)) with (used e). rewrite Hu. lia.
  - rewrite H4, countb_app. simpl. change (associated (moved _ e)) with (associated e). lia.
  - intros [|k] e' f' He' Hf' Hu'; [simplify_eq/=; eauto|]. by apply (H7 k).
  - intros j e2 Hj He2. destruct (decide (j = length es1)) as [->|Hne].
    + exists 0, e, f. split_and!; try done. congruence.
    + destruct (H8 j e2) as (k & e' & f' & ?); [rewrite length_app; simpl; lia|done|].
      by exists (S k), e', f'.
  - intros o'. rewrite H9. destruct (decide (o' = o)) as [->|Hne].
    + by rewrite lookup_insert_eq, Ho.
    + by rewrite lookup_insert_ne.
Qed.

Lemma compact_loop_spec es fs es1 fs1 cap n h :
  Forall2 (good h) es fs → length es1 = length fs1 → 0 < length es1 → length es1 ≤ cap →
  (∀ i e f, 0 < i → es1 !! i = Some e → fs1 !! i = Some f → good h e f) →
  (∀ i e, es1 !! i = Some e → indexed h i e) →
  distinct (es1 ++ es) →
  ∃ es2 fs2 cap2 h2, compact_loop es fs es1 fs1 cap cap n h =
      Ok (es2, fs2, cap2, cap2, n + countb used es, h2) ∧
    compacted es fs es1 es2 fs1 fs2 h h2 ∧ length es2 ≤ cap2.
Proof.
  revert fs es1 fs1 cap n h.
  induction es as [|e es IH]; intros fs es1 fs1 cap n h Hg Hlen H0 Hcap Hgood Hidx Hd;
    inversion Hg as [|? f ? fs' Hge Hg']; subst; cbn [compact_loop].
  - exists es1, fs1, cap, h. rewrite Nat.add_0_r. split; [done|]. split; [|done].
    constructor; try done; [simpl; lia..|]. intros j e2 Hj He2. apply lookup_lt_Some in He2. lia.
  - rename fs' into fs. unfold isUsed. rewrite (good_valid _ _ _ Hge). cbn [mbind res_bind].
    fold (used e). destruct (used e) eqn:Hu.
    + pose proof Hge as Hge'. unfold good in Hge'. rewrite Hu in Hge'.
      destruct Hge' as (Hot & o & d & Hptr & Ho & Hpos & Hfd).
      assert (Hval : isValid h e = true).
      { unfold isValid. rewrite Hptr, Ho. by apply bool_decide_eq_true_2. }
      assert (Hupd : updateIndex (length es1) e h =
        Ok (moved (length es1) e, <[o := set_index (length es1) d]> h)).
      { assert (Halt : alter (set_index (length es1)) o h = <[o := set_index (length es1) d]> h).
        { apply map_eq. intros o'. destruct (decide (o' = o)) as [->|Hne].
          - by rewrite lookup_alter_eq, lookup_insert_eq, Ho.
          - by rewrite lookup_alter_ne, lookup_insert_ne. }
        unfold updateIndex, moved. rewrite Hval, Hptr, Halt. by destruct (objectType e). }
      rewrite Hupd. cbn [mbind res_bind].
      set (h1 := <[o := set_index (length es1) d]> h). set (e1 := moved (length es1) e).
      assert (Hother : ∀ i x, es1 !! i = Some x → used x = true → ptr x ≠ Some o).
      { intros i x Hx Hux Hpx. pose proof (lookup_lt_Some _ _ _ Hx).
        assert (i = length es1); [|lia].
        apply (Hd i (length es1) x e o); [by apply lookup_app_l_Some|by apply list_lookup_middle|done..]. }
      assert (Hge1 : good h1 e1 f).
      { unfold h1. apply good_set_index; [done|]. unfold good. change (used e1) with (used e).
        rewrite Hu. split; [done|]. by exists o, d. }
      destruct (IH fs (es1 ++ [e1]) (fs1 ++ [f]) (cap_after (length es1) cap) (S n) h1)
        as (es2 & fs2 & cap2 & h2 & Hl & Hc & Hle).
      * eapply Forall2_impl; [exact Hg'|]. intros x y. by apply good_set_index.
      * rewrite !length_app. simpl. lia.
      * rewrite length_app. simpl. lia.
      * rewrite length_app. simpl length. pose proof (cap_after_spec _ _ Hcap). lia.
      * intros i x y Hi Hx Hy. apply lookup_app_Some in Hx as [Hx|[Hge2 Hx]].
        -- rewrite lookup_app_l in Hy by (apply lookup_lt_Some in Hx; lia).
           apply good_set_index; [done|]. by eapply Hgood.
        -- apply list_lookup_singleton_Some in Hx as [Hx <-].
           rewrite lookup_app_r in Hy by lia. replace (i - length fs1) with 0 in Hy by lia.
           simplify_eq/=. done.
      * intros i x Hx. apply lookup_app_Some in Hx as [Hx|[Hge2 Hx]].
        -- apply indexed_set_index; [by apply (Hother i)|by apply Hidx].
        -- apply list_lookup_singleton_Some in Hx as [Hx <-]. replace i with (length es1) by lia.
           intros _. split; [done|]. intros o' d' Hp' Ho'. simpl in Hp'. simplify_eq.
           unfold h1 in Ho'. rewrite lookup_insert_eq in Ho'. by simplify_eq.
      * by apply distinct_moved.
      * exists es2, fs2, cap2, h2.
        assert (Hn : S n + countb used es = n + countb used (e :: es)) by (simpl; rewrite Hu; lia).
        rewrite <-Hlen, <-Hn. split; [exact Hl|]. split; [|done].
        by apply (compacted_step_used es fs es1 es2 fs1 fs2 h h2 e f o d).
    + destruct (IH fs es1 fs1 cap n h) as (es2 & fs2 & cap2 & h2 & Hl & Hc & Hle); try done.
      { by eapply distinct_drop. }
      exists es2, fs2, cap2, h2. cbn [countb]. rewrite Hu. split; [done|]. split; [|done].
      by apply compacted_step_unused.
Qed.
(** [o] has an entry in use, with this state, flag, type and descriptor. *)
Definition registered (s : t) (o : Ob) (st : State) (r : bool) (ot : ObjectType) (f : pollfd) : Prop :=
  ∃ i e, 0 < i ∧ all_entries s !! i = Some e ∧ all_fds s !! i = Some f ∧ used e = true ∧
         ptr e = Some o ∧ state e = st ∧ refed e = r ∧ objectType e = ot.

Definition same_view (s s' : t) : Prop :=
  (∀ o st r ot f, registered s' o st r ot f ↔ registered s o st r ot f) ∧
  (∀ o, osSocket <$> heap s' !! o = osSocket <$> heap s !! o).

Lemma wf_distinct s : wf s → distinct (all_entries s).
Proof.
  intros Hwf i j e e' o Hi Hj Hu Hu' Hp Hp'.
  assert (Hpos : ∀ k x, all_entries s !! k = Some x → used x = true → 0 < k).
  { intros [|k] x Hk Hx; [|lia]. destruct (wf_zero _ Hwf) as (e0 & l & Hz & Hz0).
    unfold all_entries in Hk. rewrite Hz in Hk. simplify_eq/=. congruence. }
  destruct (wf_fd_at _ _ _ Hwf Hi) as [f Hf].
  pose proof (wf_good _ Hwf _ _ _ (Hpos _ _ Hi Hu) Hi Hf) as Hg. unfold good in Hg. rewrite Hu in Hg.
  destruct Hg as (_ & o' & d & Hp'' & Ho & _). simplify_eq.
  destruct (wf_indexed _ Hwf _ _ Hi Hu) as [_ H1]. destruct (wf_indexed _ Hwf _ _ Hj Hu') as [_ H2].
  rewrite <-(H1 _ _ Hp Ho). by rewrite (H2 _ _ Hp' Ho).
Qed.

Lemma makeCompact_spec s :
  wf s → ourSideAccum s = [] →
  ∃ s', makeCompactIfNecessary s = Ok s' ∧ wf s' ∧ ourSideAccum s' = [] ∧ same_view s s'.
Proof.
  intros Hwf Hacc. unfold makeCompactIfNecessary. destruct (_ || _).
  { exists s. split_and!; try done. }
  assert (Hosacc : osSideAccum s = []).
  { apply nil_length_inv. rewrite <-(wf_len_accum _ Hwf), Hacc. done. }
  assert (Hae : all_entries s = ourSide s) by (unfold all_entries; by rewrite Hacc, app_nil_r).
  assert (Haf : all_fds s = osSide s) by (unfold all_fds; by rewrite Hosacc, app_nil_r).
  pose proof (wf_len _ Hwf) as Hlen. pose proof (wf_distinct _ Hwf) as Hd.
  destruct (wf_zero _ Hwf) as (e0 & es & Hz & Hz0). rewrite Hz in *.
  destruct (osSide s) as [|f0 fs] eqn:Hos; [done|]. unfold reserved_capacity. rewrite !skipn_cons, !drop_0.
  assert (Hg : Forall2 (good (heap s)) es fs).
  { apply Forall2_same_length_lookup_2; [simpl in Hlen; lia|]. intros i e f He Hf.
    apply (wf_good _ Hwf (S i)); [lia|by rewrite Hae|by rewrite Haf]. }
  destruct (compact_loop_spec es fs [empty_entry 0] [zero_fd] capacity_ 0 (heap s))
    as (es2 & fs2 & cap2 & h2 & Hl & [C1 [C2 C2'] C3 C4 C5 C6 C7 C8 C9] & Hle); try done.
  { unfold capacity_, reserved_capacity. simpl. lia. }
  { unfold capacity_, reserved_capacity. simpl. lia. }
  { intros [|i] e f Hi He; [lia|done]. }
  { by intros [|i] e He Hu; simplify_eq/=. }
  { rewrite Hae in Hd. intros i j e e' o Hi Hj Hu Hu' Hp Hp'.
    destruct i as [|i], j as [|j]; simplify_eq/=; try done.
    by rewrite (Hd (S i) (S j) e e' o). }
  rewrite Hl. cbn [mbind res_bind]. simpl (countb used [empty_entry 0]) in C3.
  assert (Hn : Z.of_nat (0 + countb used es) = usedCount s).
  { rewrite (wf_used _ Hwf), Hae. simpl. rewrite Hz0. done. }
  assert (Hna0 : associated e0 = false).
  { apply bool_decide_eq_false_2. intros Hs. unfold used in Hz0. by rewrite Hs in Hz0. }
  rewrite bool_decide_eq_true_2 by done. eexists. split; [done|]. rewrite Hacc, Hosacc.
  set (s' := mk _ _ _ _ _ _ _ _ _).
  assert (Hae' : all_entries s' = es2) by (unfold all_entries; cbn; by rewrite app_nil_r).
  assert (Haf' : all_fds s' = fs2) by (unfold all_fds; cbn; by rewrite app_nil_r).
  split; [|split; [done|split]].
  - constructor; rewrite ?Hae', ?Haf'; try done.
    + destruct C2 as [k Hk]. exists (empty_entry 0), k. cbn. by rewrite Hk.
    + cbn. rewrite C3. simpl. rewrite <-Hn. done.
    + cbn. rewrite C4, (wf_assoc _ Hwf), Hae. simpl. by rewrite Hna0.
  - intros o st r ot f. unfold registered. rewrite Hae', Haf', Hae, Haf. split.
    + intros (i & e & Hi & He & Hf & Hu & Hp & ? & ? & ?).
      destruct (C8 i e) as (k & e' & f' & He' & Hf' & Hu' & -> & Hf''); [simpl; lia|done|].
      exists (S k), e'. simplify_eq. split_and!; done || lia.
    + intros ([|i] & e & Hi & He & Hf & Hu & Hp & ? & ? & ?); [lia|]. simpl in He, Hf.
      destruct (C7 i e f He Hf Hu) as (j & Hej & Hfj).
      exists j, (moved j e). split_and!; try done. destruct j; [|lia].
      destruct C2 as [k ->]. simpl in Hej. unfold used in Hu.
      apply (f_equal (fmap state)) in Hej. simpl in Hej. injection Hej as Hse. by rewrite <-Hse in Hu.
  - done.
Qed.

Lemma rework_spec s :
  wf s → in_place s →
  ∃ s', reworkIfNecessary s = Ok s' ∧ wf s' ∧ ourSideAccum s' = [] ∧ same_view s s'.
Proof.
  intros Hwf Hacc. unfold reworkIfNecessary.
  destruct (bool_decide_reflect (length (ourSideAccum s) ≠ 0)) as [Hn|Hn].
  - rewrite bool_decide_eq_true_2 by (by rewrite (wf_len_accum _ Hwf)).
    rewrite bool_decide_eq_true_2 by (apply (wf_full _ Hwf); intros Heq; by rewrite Heq in Hn).
    rewrite bool_decide_eq_true_2 by (by rewrite (wf_len _ Hwf)).
    destruct (merge_spec (ourSideAccum s) (osSideAccum s) s) as (cap & Hm & Hcap).
    + apply Hwf.
    + apply Hwf.
    + apply Hwf.
    + apply Hwf.
    + intros k e He. apply (f_equal (.!! k)) in Hacc. rewrite list_lookup_fmap, He in Hacc.
      rewrite lookup_seq_lt in Hacc by (by eapply lookup_lt_Some). by injection Hacc.
    + rewrite Hm. cbn [mbind res_bind ourSide ourCap osSide osCap associatedCount usedCount heap].
      set (s1 := mk _ _ _ _ _ _ _ _ _).
      assert (Hae : all_entries s1 = all_entries s) by (unfold all_entries; cbn; by rewrite app_nil_r).
      assert (Haf : all_fds s1 = all_fds s) by (unfold all_fds; cbn; by rewrite app_nil_r).
      assert (Hwf1 : wf s1).
      { constructor; rewrite ?Hae, ?Haf; try done; try apply Hwf.
        - cbn. by rewrite !length_app, (wf_len _ Hwf), (wf_len_accum _ Hwf).
        - destruct (wf_zero _ Hwf) as (e0 & l & Hz & Hz0). cbn. rewrite Hz. simpl. eauto. }
      destruct (makeCompact_spec s1 Hwf1 eq_refl) as (s' & Hc & Hwf' & Ha' & [Hv1 Hv2]).
      exists s'. split_and!; try done. split; [|done]. intros. rewrite Hv1.
      unfold registered. by rewrite Hae, Haf.
  - cbn [mbind res_bind]. apply makeCompact_spec; [done|]. apply nil_length_inv. lia.
Qed.

Lemma rework_stops s : wf s → ¬ in_place s → reworkIfNecessary s = AssertFail.
Proof.
  intros Hwf Hacc. unfold reworkIfNecessary.
  destruct (bool_decide_reflect (length (ourSideAccum s) ≠ 0)) as [Hn|Hn].
  - rewrite bool_decide_eq_true_2 by (by rewrite (wf_len_accum _ Hwf)).
    rewrite bool_decide_eq_true_2 by (apply (wf_full _ Hwf); intros Heq; by rewrite Heq in Hn).
    rewrite bool_decide_eq_true_2 by (by rewrite (wf_len _ Hwf)).
    by rewrite merge_stops by (apply Hwf || done).
  - exfalso. apply Hacc. unfold in_place. by rewrite (nil_length_inv (ourSideAccum s)) by lia.
Qed.

(** Entries in use are always in place, and so are those that were reset. *)
Lemma used_in_place s : wf s → Forall (λ e, used e = true) (ourSideAccum s) → in_place s.
Proof.
  intros Hwf Hall. apply list_eq. intros k. rewrite list_lookup_fmap.
  destruct (ourSideAccum s !! k) as [e|] eqn:He; cbn.
  - rewrite lookup_seq_lt by (by eapply lookup_lt_Some). f_equal.
    apply (wf_indexed _ Hwf (length (ourSide s) + k) e).
    + unfold all_entries. rewrite lookup_app_r by lia. rewrite <-He. f_equal. lia.
    + rewrite Forall_forall in Hall. apply Hall. by eapply list_elem_of_lookup_2.
  - symmetry. apply lookup_seq_ge. by apply lookup_ge_None_1.
Qed.

Lemma init_wf h : wf (init h).
Proof.
  constructor; try done; cbn.
  - unfold capacity_, reserved_capacity. split; [done|lia].
  - eauto.
  - intros [|i] e f Hi He; [lia|done].
  - intros [|i] e He Hu; [by simplify_eq/=|done].
Qed.
End defs.
Arguments NetSocketEntry : clear implicits.
Arguments t Ob {_ _} : assert.
End NetRegistry.

(** ** What the managers rely on *)
Module NetRegistrySpec.
Import NetRegistry.

Section spec.
Context {Ob : Type} `{Countable Ob}.
Context (grow : nat → nat) (grow_gt : ∀ n, n < grow n).

Inductive op : Type :=
  | OpAdd (ot : ObjectType) (o : Ob)
  | OpRework
  | OpAssociate (idx : nat)
  | OpPollin (idx : nat) | OpNoPollin (idx : nat) | OpPollout (idx : nat) | OpNoPollout (idx : nat)
  | OpRefed (idx : nat) (r : bool)
  | OpUnused (idx : nat)
  | OpClosed (idx : nat)
  | OpReset (idx : nat).

Definition exec (o : op) (s : t Ob) : res (t Ob) :=
  match o with
  | OpAdd ot o => addEntry grow ot o s
  | OpRework => reworkIfNecessary grow s
  | OpAssociate i => setAssociated i s
  | OpPollin i => setPollin i s
  | OpNoPollin i => unsetPollin i s
  | OpPollout i => setPollout i s
  | OpNoPollout i => unsetPollout i s
  | OpRefed i r => setRefed i r s
  | OpUnused i => setUnused i s
  | OpClosed i => setSocketClosed i s
  | OpReset i => resetEntry i s
  end.

(** An object is added once. *)
Definition pre (o : op) (s : t Ob) : Prop :=
  match o with
  | OpAdd ot o => unregistered o s ∧ ot ≠ Undefined ∧ is_Some (heap s !! o)
  | _ => True
  end.

(** What an operation makes of a table in order: another one ([Sound]), a failing
    assertion ([Stops]), or a table that is in order again once the descriptor [i] is
    set to [f] and the counts are changed by [a] and [u] ([Needs i f a u]). *)
Inductive verdict : Type :=
  | Sound
  | Stops
  | Needs (i : nat) (f : pollfd) (a u : Z).

Definition set_fd (i : nat) (f : pollfd) (s : t Ob) : t Ob :=
  match locate i s with Ok p => put_fd p f s | _ => s end.
Definition repaired (i : nat) (f : pollfd) (a u : Z) (s : t Ob) : t Ob :=
  with_counts (associatedCount s + a) (usedCount s + u) (set_fd i f s).

Definition closed_fd (f : pollfd) : pollfd := mkFd INVALID_SOCKET (events f) (revents f).

(** by the entry and the descriptor at the index *)
Definition judge_entry (o : op) (i : nat) (e : NetSocketEntry Ob) (f : pollfd) (s : t Ob) : verdict :=
  match o with
  | OpAssociate _ => if bool_decide (state e = SockIssued) then Sound else Stops
  | OpPollin _ | OpPollout _ => if bool_decide (state e = SockIssued) then Needs i f 0 0 else Sound
  | OpRefed _ r =>
      if r && bool_decide (state e = Unused) && bool_decide (i < length (ourSide s)) then Stops else Sound
  | OpUnused _ =>
      match state e with
      | Unused => Needs i f 0 1
      | SockIssued => if bool_decide (fd f = INVALID_SOCKET) then Sound else Needs i (closed_fd f) 1 0
      | _ => Sound
      end
  | OpClosed _ => if bool_decide (state e = Unused) then Stops else Sound
  | OpReset _ =>
      match state e with
      | Unused => Sound
      | SockAssociated => Needs i (closed_fd f) (-1) (-1)
      | _ => Needs i (closed_fd f) 0 (-1)
      end
  | _ => Sound
  end.

Definition judge (o : op) (s : t Ob) : verdict :=
  match o with
  | OpAdd _ o =>
      match heap s !! o with
      | Some d => if bool_decide (0 < osSocket d)%Z then Sound else Stops
      | None => Sound
      end
  | OpRework => if bool_decide (in_place s) then Sound else Stops
  | OpAssociate i | OpPollin i | OpNoPollin i | OpPollout i | OpNoPollout i | OpRefed i _ | OpUnused i
  | OpClosed i | OpReset i =>
      match i, all_entries s !! i, all_fds s !! i with
      | S _, Some e, Some f => judge_entry o i e f s
      | _, _, _ => Stops
      end
  end.

Definition meets (v : verdict) (r : res (t Ob)) : Prop :=
  match v with
  | Sound => ∃ s', r = Ok s' ∧ wf s'
  | Stops => r = AssertFail
  | Needs i f a u => ∃ s', r = Ok s' ∧ wf (repaired i f a u s')
  end.

(** *** Updates that cancel out *)
Lemma used_state (e : NetSocketEntry Ob) : used e = match state e with Unused => false | _ => true end.
Proof. unfold used. by destruct (state e). Qed.
Lemma associated_state (e : NetSocketEntry Ob) : associated e = match state e with SockAssociated => true | _ => false end.
Proof. unfold associated. by destruct (state e). Qed.

Lemma put_fd_id (s : t Ob) i f p : wf s → all_fds s !! i = Some f → place_at s p i → put_fd p f s = s.
Proof.
  intros Hwf Hf Hp. destruct s, p as [j|j]; cbn in *; destruct Hp as [Hj Hlt]; f_equal; apply list_insert_id;
    unfold all_fds in Hf; pose proof (wf_len _ Hwf) as Hl; cbn in *.
  - subst. by rewrite lookup_app_l in Hf by lia.
  - rewrite lookup_app_r in Hf by lia. rewrite <-Hf. f_equal. lia.
Qed.

Lemma put_entry_id (s : t Ob) i e p : all_entries s !! i = Some e → place_at s p i → put_entry p e s = s.
Proof.
  intros He Hp. destruct s, p as [j|j]; cbn in *; destruct Hp as [Hj Hlt]; f_equal; apply list_insert_id;
    unfold all_entries in He; cbn in *.
  - subst. by rewrite lookup_app_l in He by lia.
  - rewrite lookup_app_r in He by lia. rewrite <-He. f_equal. lia.
Qed.

Lemma with_counts_id (s : t Ob) : wf s → fits s → with_counts (associatedCount s) (usedCount s) s = s.
Proof.
  intros Hwf Hfits. pose proof (counts_bound _ Hwf). pose proof (used_bound _ Hwf Hfits).
  unfold with_counts. rewrite !u64_small by lia. by destruct s.
Qed.

Section entry.
Context (s : t Ob) (i : nat) (e : NetSocketEntry Ob) (f : pollfd).
Context (Hwf : wf s) (H0 : 0 < i).
Context (He : all_entries s !! i = Some e) (Hf : all_fds s !! i = Some f).

(** the one step behind every operation on an entry: the repaired result is an [update] *)
Lemma repaired_wf p e' f1 f' a1 u1 a u A U :
  locate i s = Ok p → place_at s p i → good (heap s) e' f' → indexed (heap s) i e' →
  u64 (u64 a1 + a) = A → u64 (u64 u1 + u) = U →
  (U + Z.b2z (used e) = usedCount s + Z.b2z (used e'))%Z →
  (A + Z.b2z (associated e) = associatedCount s + Z.b2z (associated e'))%Z →
  wf (repaired i f' a u (with_counts a1 u1 (put_fd p f1 (put_entry p e' s)))).
Proof.
  intros Hl Hp Hg Hi HA HU Hu Ha.
  assert (Hb : (0 ≤ A < 2 ^ 64)%Z ∧ (0 ≤ U < 2 ^ 64)%Z) by (subst A U; split; apply Z.mod_pos_bound; lia).
  pose proof (update_same_heap s i e f Hwf H0 He Hf p e' f' A U Hp Hg Hi Hu Ha (proj1 Hb) (proj2 Hb)) as Hup.
  assert (Heq : repaired i f' a u (with_counts a1 u1 (put_fd p f1 (put_entry p e' s))) = update p e' f' A U (heap s) s);
    [|by rewrite Heq].
  unfold repaired, set_fd.
  assert (Hl' : locate i (with_counts a1 u1 (put_fd p f1 (put_entry p e' s))) = Ok p).
  { rewrite <-Hl. unfold locate. destruct p; cbn; by rewrite ?length_insert. }
  rewrite Hl'. unfold update, with_counts, with_heap.
  cbn [associatedCount usedCount]. destruct p; cbn; rewrite ?list_insert_insert_eq, HA, HU, !u64_small by lia; done.
Qed.
End entry.

(** *** The operations on an entry *)
Section judged.
Context (s : t Ob) (i : nat) (e : NetSocketEntry Ob) (f : pollfd).
Context (Hwf : wf s) (Hfits : fits s) (H0 : 0 < i).
Context (He : all_entries s !! i = Some e) (Hf : all_fds s !! i = Some f).

Lemma judged_associate : meets (judge_entry (OpAssociate i) i e f s) (setAssociated i s).
Proof.
  cbn [judge_entry]. case_bool_decide as Hst.
  - destruct (setAssociated_spec s i e f Hwf Hfits H0 He Hf Hst) as (s' & ? & ? & _). by exists s'.
  - destruct (at_place s i e f Hwf H0 He Hf) as (p & Hl & Hp & Hge & Hgf). cbn [meets].
    unfold setAssociated. rewrite Hl. cbn [mbind res_bind]. rewrite Hge. cbn [mbind res_bind].
    rewrite (isUsed_ok _ _ _ Hwf H0 He). unfold entry_setAssociated. rewrite (bool_decide_eq_false_2 (_ = SockIssued)) by done.
    by destruct p, (used e).
Qed.

(** [g] changes the events: fine unless the descriptor was just issued and gets some *)
Lemma judged_events g :
  meets (if bool_decide (state e = SockIssued ∧ g 0%Z ≠ 0%Z) then Needs i f 0 0 else Sound) (upd_events g i s).
Proof.
  destruct (at_place s i e f Hwf H0 He Hf) as (p & Hl & Hp & Hge & Hgf).
  pose proof (counts_bound _ Hwf). pose proof (used_bound _ Hwf Hfits).
  pose proof (e_good s i e f Hwf H0 He Hf) as Hg.
  assert (Hx : upd_events g i s = Ok (with_counts (associatedCount s) (usedCount s)
                (put_fd p (mkFd (fd f) (g (events f)) (revents f)) (put_entry p e s)))).
  { unfold upd_events. rewrite Hl. cbn [mbind res_bind]. rewrite Hgf. cbn [mbind res_bind].
    rewrite (put_entry_id s i e p He Hp). rewrite <-(with_counts_id s Hwf Hfits) at 1. by destruct p. }
  rewrite Hx. case_bool_decide as Hc; cbn [meets]; eexists; (split; [done|]).
  - apply (repaired_wf s i e f Hwf H0 He Hf p e _ f _ _ 0 0 (associatedCount s) (usedCount s)); try done.
    + by apply (wf_indexed _ Hwf).
    + rewrite Z.add_0_r, !u64_small; [done|lia|apply u64_range].
    + rewrite Z.add_0_r, !u64_small; [done|lia|apply u64_range].
  - rewrite (heap_update s). apply (update_same_heap s i e f Hwf H0 He Hf); try done; try lia; [|by apply (wf_indexed _ Hwf)].
    unfold good in *. destruct (used e); [|done]. destruct Hg as (Hot & o & d & Hptr & Ho & Hpos & Hfd).
    split; [done|]. exists o, d. split_and!; try done.
    destruct (state e); try done. cbn in *. destruct Hfd as (? & Hev & ?). split_and!; try done.
    rewrite Hev. apply dec_stable. intros Hn. by apply Hc.
Qed.

Lemma judged_refed r : meets (judge_entry (OpRefed i r) i e f s) (setRefed i r s).
Proof.
  cbn [judge_entry]. destruct (at_place s i e f Hwf H0 He Hf) as (p & Hl & Hp & Hge & Hgf).
  pose proof (counts_bound _ Hwf). pose proof (used_bound _ Hwf Hfits).
  assert (Hin : bool_decide (i < length (ourSide s)) = match p with InSide _ => true | InAccum _ => false end).
  { destruct p as [j|j]; destruct Hp as [Hj Hlt]; [apply bool_decide_eq_true_2|apply bool_decide_eq_false_2]; lia. }
  assert (Hu : bool_decide (state e = Unused) = negb (used e)).
  { unfold used. rewrite bool_decide_not, negb_involutive. done. }
  unfold setRefed. rewrite Hl. cbn [mbind res_bind]. rewrite Hge. cbn [mbind res_bind].
  rewrite (isUsed_ok _ _ _ Hwf H0 He), Hin, Hu.
  destruct (r && negb (used e) && match p with InSide _ => true | InAccum _ => false end) eqn:Hc.
  - destruct p, r, (used e); try done.
  - assert (Hw : wf (put_entry p (mkEntry (state e) (index e) r (objectType e) (ptr e)) s)).
    { pose proof (e_good s i e f Hwf H0 He Hf) as Hg. set (e' := mkEntry _ _ r _ _).
      replace (put_entry p e' s) with (update p e' f (associatedCount s) (usedCount s) (heap s) s).
      - apply (update_same_heap s i e f Hwf H0 He Hf); try done; try lia.
        intros Hx. by apply (wf_indexed _ Hwf _ _ He).
      - transitivity (put_entry p e' (with_counts (associatedCount s) (usedCount s) (put_fd p f s))); [by destruct p|].
        by rewrite (put_fd_id s i), with_counts_id. }
    assert (Hok : (match p with InSide _ => if r then Ok (used e) else Ok true | InAccum _ => Ok true end : res bool) = Ok true)
      by (destruct p, r, (used e); done).
    rewrite Hok. by eexists.
Qed.

Lemma judged_unused : meets (judge_entry (OpUnused i) i e f s) (setUnused i s).
Proof.
  cbn [judge_entry]. destruct (at_place s i e f Hwf H0 He Hf) as (p & Hl & Hp & Hge & Hgf).
  pose proof (counts_bound _ Hwf). pose proof (used_bound _ Hwf Hfits).
  pose proof (e_good s i e f Hwf H0 He Hf) as Hg. unfold good in Hg.
  assert (Hix : indexed (heap s) i (entry_setUnused e)) by done.
  assert (Hgd : ∀ f', fd f' = INVALID_SOCKET → good (heap s) (entry_setUnused e) f') by done.
  destruct (state e) eqn:Hst.
  - assert (Hu : used e = false) by (by rewrite used_state, Hst). rewrite Hu in Hg.
    unfold setUnused. rewrite Hl. cbn [mbind res_bind]. rewrite Hge. cbn [mbind res_bind]. rewrite Hgf.
    cbn [mbind res_bind]. rewrite bool_decide_eq_false_2 by tauto. cbn [meets]. eexists; split; [done|].
    apply (repaired_wf s i e f Hwf H0 He Hf p _ _ f _ _ 0 1 (associatedCount s) (usedCount s)); try done.
    + rewrite Z.add_0_r, !u64_small; [done|lia|apply u64_range].
    + unfold u64. rewrite Zplus_mod_idemp_l. rewrite Z.sub_add. apply u64_small. lia.
    + rewrite Hu, used_state. cbn. lia.
    + rewrite !associated_state, Hst. cbn. lia.
  - assert (Hu : used e = true) by (by rewrite used_state, Hst). rewrite Hu in Hg.
    pose proof (used_pos _ _ _ Hwf He Hu).
    unfold setUnused. rewrite Hl. cbn [mbind res_bind]. rewrite Hge. cbn [mbind res_bind]. rewrite Hgf.
    cbn [mbind res_bind]. rewrite bool_decide_not. case_bool_decide as Hfd; cbn [negb meets].
    + eexists; split; [done|]. rewrite (heap_update s).
      apply (update_same_heap s i e f Hwf H0 He Hf); try done; try lia.
      * rewrite Hu, used_state. cbn. lia.
      * rewrite !associated_state, Hst. cbn. lia.
    + eexists; split; [done|].
      apply (repaired_wf s i e f Hwf H0 He Hf p _ _ _ _ _ 1 0 (associatedCount s) (usedCount s - 1)%Z); try done.
      * unfold u64. rewrite Zplus_mod_idemp_l. rewrite Z.sub_add. apply u64_small. lia.
      * rewrite Z.add_0_r, !u64_small; [done|lia|apply u64_range].
      * rewrite Hu, used_state. cbn. lia.
      * rewrite !associated_state, Hst. cbn. lia.
  - destruct (setUnused_spec grow s i e f Hwf Hfits H0 He Hf) as (s' & ? & ? & _); [by left|]. by exists s'.
  - destruct (setUnused_spec grow s i e f Hwf Hfits H0 He Hf) as (s' & ? & ? & _); [by right|]. by exists s'.
Qed.

Lemma judged_closed : meets (judge_entry (OpClosed i) i e f s) (setSocketClosed i s).
Proof.
  cbn [judge_entry]. case_bool_decide as Hst.
  - destruct (at_place s i e f Hwf H0 He Hf) as (p & Hl & Hp & Hge & Hgf). cbn [meets].
    unfold setSocketClosed. rewrite Hl. cbn [mbind res_bind]. rewrite Hge. cbn [mbind res_bind].
    rewrite (isUsed_ok _ _ _ Hwf H0 He). unfold used. by rewrite bool_decide_eq_false_2 by tauto.
  - destruct (setSocketClosed_spec s i e f Hwf Hfits H0 He Hf) as (s' & ? & ? & _);
      [by apply bool_decide_eq_true_2|]. by exists s'.
Qed.

Lemma judged_reset : meets (judge_entry (OpReset i) i e f s) (resetEntry i s).
Proof.
  cbn [judge_entry]. destruct (at_place s i e f Hwf H0 He Hf) as (p & Hl & Hp & Hge & Hgf).
  pose proof (counts_bound _ Hwf). pose proof (used_bound _ Hwf Hfits).
  pose proof (e_good s i e f Hwf H0 He Hf) as Hg. unfold good in Hg.
  assert (Hx : resetEntry i s = Ok (with_counts (associatedCount s) (usedCount s) (put_fd p f (put_entry p (empty_entry i) s)))).
  { unfold resetEntry. rewrite Hl. cbn [mbind res_bind]. rewrite <-(put_fd_id s i f p Hwf Hf Hp) at 1.
    rewrite <-(with_counts_id s Hwf Hfits) at 1. by destruct p. }
  rewrite Hx. assert (Hix : indexed (heap s) i (empty_entry i)) by done.
  assert (Hun : used (@empty_entry Ob i) = false ∧ associated (@empty_entry Ob i) = false) by done.
  assert (Hkeep : ∀ z, (0 ≤ z < 2 ^ 64)%Z → u64 (u64 z + 0) = z) by (intros; rewrite Z.add_0_r, !u64_small; [done|lia|apply u64_range]).
  assert (Hdec : ∀ z, (0 < z < 2 ^ 64)%Z → u64 (u64 z + (-1)) = (z - 1)%Z) by (intros; rewrite (u64_small z), u64_small by lia; lia).
  destruct (state e) eqn:Hst; cbn [meets]; eexists; (split; [done|]).
  - assert (Hu : used e = false) by (by rewrite used_state, Hst). rewrite Hu in Hg.
    rewrite (heap_update s). apply (update_same_heap s i e f Hwf H0 He Hf); try done; try lia; rewrite ?Hu; [done|].
    rewrite !associated_state, Hst. cbn. lia.
  - assert (Hu : used e = true) by (by rewrite used_state, Hst). pose proof (used_pos _ _ _ Hwf He Hu).
    apply (repaired_wf s i e f Hwf H0 He Hf p _ _ _ _ _ 0 (-1) (associatedCount s) (usedCount s - 1)%Z); try done.
    + apply Hkeep. lia.
    + apply Hdec. lia.
    + rewrite Hu, used_state. cbn. lia.
    + rewrite !associated_state, Hst. cbn. lia.
  - assert (Hu : used e = true) by (by rewrite used_state, Hst). pose proof (used_pos _ _ _ Hwf He Hu).
    pose proof (assoc_pos _ _ _ Hwf He Hst).
    apply (repaired_wf s i e f Hwf H0 He Hf p _ _ _ _ _ (-1) (-1) (associatedCount s - 1)%Z (usedCount s - 1)%Z); try done.
    + apply Hdec. lia.
    + apply Hdec. lia.
    + rewrite Hu, used_state. cbn. lia.
    + rewrite !associated_state, Hst. cbn. lia.
  - assert (Hu : used e = true) by (by rewrite used_state, Hst). pose proof (used_pos _ _ _ Hwf He Hu).
    apply (repaired_wf s i e f Hwf H0 He Hf p _ _ _ _ _ 0 (-1) (associatedCount s) (usedCount s - 1)%Z); try done.
    + apply Hkeep. lia.
    + apply Hdec. lia.
    + rewrite Hu, used_state. cbn. lia.
    + rewrite !associated_state, Hst. cbn. lia.
Qed.
End judged.

Lemma locate_out i (s : t Ob) : wf s → i = 0 ∨ length (all_entries s) ≤ i → locate i s = AssertFail.
Proof.
  intros Hwf Hi. unfold locate, reserved_capacity. unfold all_entries in Hi. rewrite length_app in Hi.
  case_bool_decide; [|done]. rewrite (bool_decide_eq_false_2 (i < _)) by lia.
  destruct (_ && _) eqn:Hc; [|done]. apply andb_true_iff in Hc as [Hc _]. apply bool_decide_eq_true_1 in Hc.
  by rewrite bool_decide_eq_false_2 by lia.
Qed.

Lemma judged_at (o : op) i (s : t Ob) (run : nat → t Ob → res (t Ob)) :
  wf s → (locate i s = AssertFail → run i s = AssertFail) →
  (∀ e f, 0 < i → all_entries s !! i = Some e → all_fds s !! i = Some f → meets (judge_entry o i e f s) (run i s)) →
  meets (match i, all_entries s !! i, all_fds s !! i with
         | S _, Some e, Some f => judge_entry o i e f s
         | _, _, _ => Stops
         end) (run i s).
Proof.
  intros Hwf Hout Hin. destruct i as [|i].
  - apply Hout, locate_out; [done|by left].
  - destruct (all_entries s !! S i) as [e|] eqn:He.
    + destruct (wf_fd_at _ _ _ Hwf He) as [f Hf]. rewrite Hf. apply Hin; [lia|done..].
    + apply Hout, locate_out; [done|]. right. by apply lookup_ge_None_1.
Qed.

Lemma judged_add ot o (s : t Ob) : wf s → fits s → pre (OpAdd ot o) s → meets (judge (OpAdd ot o) s) (addEntry grow ot o s).
Proof.
  intros Hwf Hfits (Hun & Hot & d & Ho). cbn [judge]. rewrite Ho. case_bool_decide as Hpos.
  - destruct (addEntry_spec grow ot o d s Hwf Hfits Hun Ho Hpos Hot) as (s' & i & ? & ? & _). by exists s'.
  - cbn [meets]. unfold addEntry. rewrite bool_decide_eq_true_2 by apply (wf_len _ Hwf). rewrite Ho.
    by rewrite bool_decide_eq_false_2.
Qed.

Lemma judged_sets g (s : t Ob) i e f :
  wf s → fits s → 0 < i → all_entries s !! i = Some e → all_fds s !! i = Some f → g 0%Z ≠ 0%Z →
  meets (if bool_decide (state e = SockIssued) then Needs i f 0 0 else Sound) (upd_events g i s).
Proof.
  intros Hwf Hfits H0 He Hf Hg. pose proof (judged_events s i e f Hwf Hfits H0 He Hf g) as Hj.
  by rewrite (bool_decide_ext _ (state e = SockIssued)) in Hj by tauto.
Qed.

Lemma judged_clears g (s : t Ob) i e f :
  wf s → fits s → 0 < i → all_entries s !! i = Some e → all_fds s !! i = Some f → g 0%Z = 0%Z →
  meets Sound (upd_events g i s).
Proof.
  intros Hwf Hfits H0 He Hf Hg. pose proof (judged_events s i e f Hwf Hfits H0 He Hf g) as Hj.
  by rewrite bool_decide_eq_false_2 in Hj by tauto.
Qed.

Lemma ops_judged (o : op) (s : t Ob) : wf s → fits s → pre o s → meets (judge o s) (exec o s).
Proof.
  intros Hwf Hfits Hpre.
  destruct o as [ot o| |i|i|i|i|i|i r|i|i|i]; [by apply judged_add| |..]; cbn [judge exec].
  { case_bool_decide as Hin; [|by apply rework_stops].
    destruct (rework_spec grow grow_gt s Hwf Hin) as (s' & ? & ? & _). by exists s'. }
  - apply (judged_at (OpAssociate i)); [done|unfold setAssociated; by intros ->|intros; by apply judged_associate].
  - apply (judged_at (OpPollin i)); [done|unfold setPollin, upd_events; by intros ->|intros; by apply judged_sets].
  - apply (judged_at (OpNoPollin i)); [done|unfold unsetPollin, upd_events; by intros ->|intros; by eapply judged_clears].
  - apply (judged_at (OpPollout i)); [done|unfold setPollout, upd_events; by intros ->|intros; by apply judged_sets].
  - apply (judged_at (OpNoPollout i)); [done|unfold unsetPollout, upd_events; by intros ->|intros; by eapply judged_clears].
  - apply (judged_at (OpRefed i r) i s (λ i, setRefed i r)); [done|unfold setRefed; by intros ->|intros; by apply judged_refed].
  - apply (judged_at (OpUnused i)); [done|unfold setUnused; by intros ->|intros; by apply judged_unused].
  - apply (judged_at (OpClosed i)); [done|unfold setSocketClosed; by intros ->|intros; by apply judged_closed].
  - apply (judged_at (OpReset i)); [done|unfold resetEntry; by intros ->|intros; by apply judged_reset].
Qed.

(** C10. What every operation makes of a table in order, on every index: the entries and
    descriptors parallel, the counts right, every entry in use and the object it is for agreeing on the
    index, and every descriptor matching the state of its entry. No operation goes
    outside of the vectors or follows a dangling pointer. [judge] tells from the
    table which of three things happens. (1) The operation runs and the table is in order again.
    (2) An assertion fails, and only then: an index out of range, a
    descriptor that is not positive, associating an entry that was not just issued, closing an unused one or setting its flag, and a rework while
    an accumulated entry does not have the index of its place, as after [setUnused].
    (3) It runs and leaves the table off by just this: [setUnused] of an entry that is unused already
    or was never associated, and the reset of an entry in use, get a count
    wrong by one (and the reset leaves the descriptor of a socket that was not closed); events
    set before the socket is associated. An object is added once. *)
Theorem registry_ops_safe (o : op) (s : t Ob) :
  wf s → fits s → pre o s → meets (judge o s) (exec o s).
Proof. apply ops_judged. Qed.

(** A run in which each operation is found [Sound], and the table it leaves. *)
Definition fresh_object (o : Ob) (s : t Ob) : bool :=
  forallb (λ e, negb (used e && bool_decide (ptr e = Some o))) (all_entries s).
Definition allowed (o : op) (s : t Ob) : bool :=
  bool_decide (Z.of_nat (length (all_entries s)) < 2 ^ 63)%Z &&
  match o with
  | OpAdd ot o => fresh_object o s && match ot with Undefined => false | _ => true end && bool_decide (is_Some (heap s !! o))
  | _ => true
  end &&
  match judge o s with Sound => true | _ => false end.
Fixpoint sound_run (os : list op) (s : t Ob) : option (t Ob) :=
  match os with
  | [] => Some s
  | o :: os =>
      if allowed o s then match exec o s with Ok s => sound_run os s | _ => None end else None
  end.

Lemma sound_run_wf os (s s' : t Ob) : wf s → sound_run os s = Some s' → wf s'.
Proof.
  revert s. induction os as [|o os IH]; intros s Hwf; cbn [sound_run]; [by intros [= <-]|].
  destruct (allowed o s) eqn:Ha; [|done]. unfold allowed in Ha.
  apply andb_true_iff in Ha as [[Hfits Hpre]%andb_true_iff Hj]. apply bool_decide_eq_true_1 in Hfits.
  pose proof (ops_judged o s Hwf Hfits) as Hm. destruct (judge o s); try done.
  destruct Hm as (s1 & -> & Hwf1); [|by apply IH].
  destruct o as [ot o| | | | | | | | | |]; try done.
  apply andb_true_iff in Hpre as [[Hfr Hot]%andb_true_iff Hh]. apply bool_decide_eq_true_1 in Hh.
  split_and!; [|by destruct ot|done].
  intros i e He Hu Hp. unfold fresh_object in Hfr. rewrite forallb_forall in Hfr.
  specialize (Hfr e). rewrite Hu, bool_decide_eq_true_2 in Hfr by done.
  discriminate Hfr. apply list_elem_of_In. by eapply list_elem_of_lookup_2.
Qed.

(** C29. Merging and compacting are invisible: [reworkIfNecessary] leaves no
    accumulated entries, and every object has the entry in use it had before
    (with its state, flag, type and descriptor) and no other, found under the
    index the object now has. It stops at a failing assertion when, and only
    when, an accumulated entry does not have the index of its place, as after [setUnused];
    those in use, and those that were reset, have it. *)
Theorem rework_preserves_view (s : t Ob) :
  wf s →
  if bool_decide (in_place s) then
    ∃ s', reworkIfNecessary grow s = Ok s' ∧ wf s' ∧ ourSideAccum s' = [] ∧
      ∀ o st r ot f, registered s' o st r ot f ↔ registered s o st r ot f
  else reworkIfNecessary grow s = AssertFail.
Proof.
  intros Hwf. case_bool_decide as Hin; [|by apply rework_stops].
  destruct (rework_spec grow grow_gt s Hwf Hin) as (s' & ? & ? & ? & Hv & _). eauto 8.
Qed.

(** The index kept in an object leads to its entry: [at(index)] succeeds for
    an object with an entry in use and returns the entry that points to it. *)
Theorem index_leads_to_entry (s : t Ob) (o : Ob) (st : State) (r : bool) (ot : ObjectType) (f : pollfd) :
  wf s → registered s o st r ot f →
  ∃ d, heap s !! o = Some d ∧ 0 < obj_index d ∧ fd_ok st d f ∧
    at_ (obj_index d) s = Ok (mkEntry st (obj_index d) r ot (Some o)).
Proof.
  intros Hwf (i & e & H0 & He & Hf & Hu & Hp & Hst & Hr & Hot).
  pose proof (wf_good _ Hwf _ _ _ H0 He Hf) as Hg. unfold good in Hg. rewrite Hu in Hg.
  destruct Hg as (_ & o' & d & Hp' & Ho & _ & Hfd). simplify_eq.
  destruct (wf_indexed _ Hwf _ _ He Hu) as [Hi Hobj]. specialize (Hobj _ _ Hp Ho).
  destruct (locate_spec i s Hwf H0) as (p & Hl & Hpl); [by eapply lookup_lt_Some|].
  exists d. rewrite Hobj. split_and!; try done.
  unfold at_. rewrite Hl. cbn [mbind res_bind]. rewrite (get_entry_at _ _ _ _ Hpl He).
  cbn [mbind res_bind]. rewrite (isUsed_ok _ _ _ Hwf H0 He), Hu. cbn [mbind res_bind].
  destruct e; simpl in *; by subst.
Qed.

(** [setUnused] takes an entry that was never associated for one that was:
    giving up a socket that was only issued (descriptor [- osSocket]) decrements
    [associatedCount] although nothing had incremented it. With no other
    socket the count wraps around to 2^64 - 1 and [wait] will block for ever
    instead of reporting that there is nothing to wait for. *)
Theorem setUnused_of_issued_underflows (s : t Ob) (i : nat) (e : NetSocketEntry Ob) (f : pollfd) :
  wf s → fits s → 0 < i → all_entries s !! i = Some e → all_fds s !! i = Some f →
  state e = SockIssued → fd f ≠ INVALID_SOCKET → associatedCount s = 0%Z →
  ∃ s', setUnused i s = Ok s' ∧ associatedCount s' = UINT64_MAX ∧
    ∀ poll timeout, (wait poll timeout s').2.1 = true.
Proof.
  intros Hwf Hfits H0 He Hf Hst Hfd Ha.
  destruct (at_place s i e f Hwf H0 He Hf) as (p & Hl & Hp & Hge & Hgf).
  unfold setUnused. rewrite Hl. cbn [mbind res_bind]. rewrite Hge. cbn [mbind res_bind]. rewrite Hgf.
  cbn [mbind res_bind]. rewrite bool_decide_eq_true_2 by done. rewrite Ha.
  eexists. split; [done|]. split; [done|]. intros poll timeout. unfold wait.
  rewrite bool_decide_eq_false_2 by done. by destruct (poll _ _).
Qed.

(** An entry that is given up before the table is next reworked breaks the
    rework: [setUnused] zeroes the index of an accumulated entry, and the
    assertion that the index is the place it moves to fails. *)
Theorem rework_fails_on_given_up_entry (s : t Ob) (e : NetSocketEntry Ob) (l : list (NetSocketEntry Ob)) :
  wf s → ourSideAccum s = entry_setUnused e :: l → reworkIfNecessary grow s = AssertFail.
Proof.
  intros Hwf Hacc. unfold reworkIfNecessary. rewrite Hacc. simpl length.
  rewrite bool_decide_eq_true_2 by done.
  pose proof (wf_len_accum _ Hwf) as Hla. rewrite Hacc in Hla. simpl in Hla.
  rewrite bool_decide_eq_true_2 by done.
  rewrite bool_decide_eq_true_2 by (apply (wf_full _ Hwf); by rewrite Hacc).
  rewrite bool_decide_eq_true_2 by (by rewrite (wf_len _ Hwf)).
  destruct (osSideAccum s) as [|f fs]; [done|]. cbn [merge].
  rewrite bool_decide_eq_false_2; [done|]. destruct (wf_zero _ Hwf) as (e0 & l0 & -> & _). simpl. lia.
Qed.

(** The table is compacted when it is at least half full and left alone when
    it is sparse, however long it has grown. *)
Theorem sparse_table_not_compacted (s : t Ob) :
  (usedCount s < Z.of_nat (length (ourSide s) / 2))%Z → makeCompactIfNecessary grow s = Ok s.
Proof.
  intros Hlt. unfold makeCompactIfNecessary. rewrite (bool_decide_eq_true_2 (_ < _)%Z) by done.
  by rewrite orb_true_r.
Qed.
End spec.

(** ** Concrete instances *)
Definition double (n : nat) : nat := n + n + 1.
Lemma double_gt n : n < double n.
Proof. unfold double. lia. Qed.

(** object 5 with socket 9, not yet in the table; and in it *)
Definition heap1 : gmap nat Obj := {[5 := mkObj 0 9]}.
Definition empty1 : t nat := init heap1.
Definition issued1 : t nat :=
  match addEntry double ClientSocket 5 empty1 with Ok s => s | _ => empty1 end.

Lemma issued1_wf : wf issued1.
Proof.
  destruct (addEntry_spec double ClientSocket 5 (mkObj 0 9) empty1) as (s' & i & Hadd & Hwf & _).
  - apply init_wf.
  - vm_compute. done.
  - intros [|i] e He Hu; [by simplify_eq/=|done].
  - done.
  - done.
  - done.
  - unfold issued1. by rewrite Hadd.
Qed.

(** a table whose only accumulated entry has been given up *)
Definition given_up : t nat :=
  mk [empty_entry 0; empty_entry 1] 2 [entry_setUnused (mkEntry SockClosed 2 false ClientSocket (Some 5))]
     [zero_fd; mkFd (-1) 0 0] 2 [mkFd (-1) 0 0] 0 0 heap1.

Lemma given_up_wf : wf given_up.
Proof.
  constructor; try done; cbn.
  - exists (@empty_entry nat 0), [@empty_entry nat 1]. split; reflexivity.
  - intros [|[|[|i]]] e f Hi He Hf; simplify_eq/=; try done; lia.
  - intros [|[|[|i]]] e He Hu; by simplify_eq/=.
Qed.

Lemma registry_ops_safe_witness :
  (∃ s', exec double (OpAssociate 1) issued1 = Ok s' ∧ wf s') ∧
  (∃ s', exec double (OpUnused 1) issued1 = Ok s' ∧ wf (repaired 1 (mkFd (-1) 0 0) 1 0 s')) ∧
  exec double OpRework given_up = AssertFail.
Proof.
  split; [|split].
  - apply (registry_ops_safe double double_gt (OpAssociate 1) issued1); [apply issued1_wf|vm_compute; reflexivity|done].
  - apply (registry_ops_safe double double_gt (OpUnused 1) issued1); [apply issued1_wf|vm_compute; reflexivity|done].
  - apply (registry_ops_safe double double_gt OpRework given_up); [apply given_up_wf|vm_compute; reflexivity|done].
Defined.

(** 48 sockets come, with reworks while the vectors grow; two are waiting to be
    merged when five of the others go *)
Definition heap48 : gmap nat Obj := list_to_map ((λ i, (i, mkObj 0 (Z.of_nat i + 3))) <$> seq 1 48).
Definition coming : list (op (Ob:=nat)) := flat_map (λ o, [OpAdd ClientSocket o; OpRework]) (seq 1 46).
Definition going : list (op (Ob:=nat)) := flat_map (λ i, [OpAssociate i; OpUnused i]) [3; 7; 8; 20; 41].
Definition crowded : t nat :=
  default (init heap48)
    (sound_run double (coming ++ [OpAdd ClientSocket 47; OpAdd ServerSocket 48] ++ going) (init heap48)).

Lemma crowded_wf : wf crowded.
Proof.
  unfold crowded. destruct (sound_run double _ (init heap48)) as [s|] eqn:Hs; [|apply init_wf].
  by apply (sound_run_wf double double_gt _ _ _ (init_wf heap48) Hs).
Qed.

Lemma rework_preserves_view_witness :
  (length (ourSide crowded) = 47 ∧ length (ourSideAccum crowded) = 2) ∧
  (∃ s', reworkIfNecessary double crowded = Ok s' ∧ length (ourSide s') = 44 ∧ wf s' ∧ ourSideAccum s' = [] ∧
    ∀ o st r ot f, registered s' o st r ot f ↔ registered crowded o st r ot f) ∧
  reworkIfNecessary double given_up = AssertFail.
Proof.
  split; [split; vm_compute; reflexivity|]. split.
  - pose proof (rework_preserves_view double double_gt crowded crowded_wf) as Hr.
    rewrite bool_decide_eq_true_2 in Hr by (vm_compute; reflexivity).
    destruct Hr as (s' & Hr & Hrest). exists s'. split; [exact Hr|]. split; [|exact Hrest].
    assert (Hl : match reworkIfNecessary double crowded with Ok s => length (ourSide s) | _ => 0 end = 44) by (vm_compute; reflexivity).
    by rewrite Hr in Hl.
  - apply (rework_preserves_view double double_gt given_up given_up_wf).
Defined.

Lemma index_leads_to_entry_witness :
  ∃ d, heap issued1 !! 5 = Some d ∧ 0 < obj_index d ∧ fd_ok SockIssued d (mkFd (-9) 0 0) ∧
    at_ (obj_index d) issued1 = Ok (mkEntry SockIssued (obj_index d) false ClientSocket (Some 5)).
Proof.
  apply (index_leads_to_entry issued1 5 SockIssued false ClientSocket (mkFd (-9) 0 0)).
  - apply issued1_wf.
  - exists 1. eexists. split_and!; try (vm_compute; reflexivity).
Defined.

Lemma setUnused_of_issued_underflows_witness :
  ∃ s', setUnused 1 issued1 = Ok s' ∧ associatedCount s' = UINT64_MAX ∧
    ∀ poll timeout, (wait poll timeout s').2.1 = true.
Proof.
  eapply (setUnused_of_issued_underflows issued1 1).
  - apply issued1_wf.
  - vm_compute. reflexivity.
  - lia.
  - vm_compute. reflexivity.
  - vm_compute. reflexivity.
  - reflexivity.
  - vm_compute. discriminate.
  - reflexivity.
Defined.

Lemma rework_fails_on_given_up_entry_witness : reworkIfNecessary double given_up = AssertFail.
Proof.
  apply (rework_fails_on_given_up_entry double given_up (mkEntry SockClosed 2 false ClientSocket (Some 5)) []).
  - apply given_up_wf.
  - reflexivity.
Defined.

Lemma sparse_table_not_compacted_witness : makeCompactIfNecessary double given_up = Ok given_up.
Proof. apply (sparse_table_not_compacted double given_up). vm_compute. reflexivity. Defined.
End NetRegistrySpec.
