(* ===== verification/BinLog.v ===== *)
(** * The binary log of recording and replaying (include/nodecpp/record_and_replay.h)

    While recording, every event and result that comes from outside is appended
    to a block of memory as a frame: a header with a type and a size, and the
    payload; the block is written to a file at the end and read back frame
    by frame for replaying. [Module BinLog] holds the operations on the block of
    memory as the code performs them, [Module BinLogSpec] the theorems: what
    was recorded is what is replayed. The allocator is a parameter: fresh pages
    are zero. *)

From S2P Require Import Prelude.
From Stdlib Require Import Lia.

Module BinLog.

Inductive Mode : Type := not_using | recording | replaying.
#[export] Instance mode_eq_dec : EqDecision Mode.
Proof. solve_decision. Defined.

(** [sizeof(LogHeader)], [sizeof(FrameHeader)] and the offsets of their fields;
    integers are stored little-endian *)
Definition sizeof_LogHeader : nat := 40.
Definition LogHeader_size : nat := 16.
Definition sizeof_FrameHeader : nat := 8.
Definition FrameHeader_size : nat := 4.

(** the block of memory: a null pointer, the block, or a pointer to a block that
    was given back *)
Inductive Block : Type := Null | Live (m : list cell) | Dangling.

(** the current frame while it is added in parts, or the next to read, is an
    offset into [mem]; [None] is a null pointer *)
Record t : Type := mk {
  mode_ : Mode;
  mem : Block;
  size : nat;
  fh : option nat;
  writePos : nat;
  currentFrameSize : nat;
  currentFrameType : Z;
  frameIdx : nat;
  pointerMap : gmap Z Z;
}.
Definition empty_log : t := mk not_using Null 0 None 0 0 0 0 ∅.

(** a frame as it is read *)
Definition FrameData : Type := (Z * list cell)%type.

Definition load_int (off n : nat) (m : list cell) : res Z :=
  cs ← load_cells off n m;
  match mapM id cs with Some bs => Ok (le_join bs) | None => UB end.
Definition store_int (off n : nat) (v : Z) (m : list cell) : res (list cell) :=
  store_cells off (Some <$> le_split n v) m.
Definition load_u32 (off : nat) := load_int off 4.
Definition store_u32 (off : nat) := store_int off 4.

Definition get_mem (s : t) : res (list cell) :=
  match mem s with Live m => Ok m | Null | Dangling => UB end.
Definition with_mem (m : list cell) (s : t) : t :=
  mk (mode_ s) (Live m) (size s) (fh s) (writePos s) (currentFrameSize s) (currentFrameType s) (frameIdx s) (pointerMap s).
Definition with_write (f : option nat) (w n : nat) (ty : Z) (s : t) : t :=
  mk (mode_ s) (mem s) (size s) f w n ty (frameIdx s) (pointerMap s).

(** ** Recording *)
Definition initForRecording (allocate : nat → option (list cell)) (szExp : nat) (s : t) : res t :=
  ASSERT bool_decide (mode_ s = not_using) ;;
  ASSERT bool_decide (16 ≤ szExp) ;;
  ASSERT bool_decide (szExp ≤ 48) ;;
  let size := 2 ^ szExp in
  match allocate size with
  | None => AssertFail
  | Some m =>
      m ← store_u32 sizeof_LogHeader 0 m;
      Ok (mk recording (Live m) size (fh s) sizeof_LogHeader (currentFrameSize s) (currentFrameType s)
             (frameIdx s) (pointerMap s))
  end.

(** the payload and the size of a frame at [h]; [data = None] is a null pointer
    with size 0 *)
Definition put_payload (h : nat) (data : option (list u8)) (size : nat) (m : list cell) : res (list cell) :=
  match data with
  | Some d =>
      ASSERT bool_decide (h + sizeof_FrameHeader + length d ≤ size) ;;
      m ← store_cells (h + sizeof_FrameHeader) (Some <$> d) m;
      store_u32 (h + FrameHeader_size) (Z.of_nat (length d)) m
  | None =>
      ASSERT bool_decide (h + 0 ≤ size) ;;
      store_u32 (h + FrameHeader_size) 0 m
  end.

Definition addFrame (frameType : Z) (data : option (list u8)) (s : t) : res t :=
  ASSERT bool_decide (mode_ s = recording) ;;
  ASSERT bool_decide (currentFrameSize s = 0) ;;
  ASSERT bool_decide (currentFrameType s = 0%Z) ;;
  ASSERT bool_decide (fh s = None) ;;
  ASSERT bool_decide (frameType ≠ 0%Z) ;;
  m ← get_mem s;
  let h := writePos s in
  ty ← load_u32 h m;
  ASSERT bool_decide (ty = 0%Z) ;;
  let sz := length (default [] data) in
  m ← put_payload h data (size s) m;
  let w := h + sizeof_FrameHeader + sz in
  m ← store_u32 w 0 m;
  m ← store_u32 h frameType m;
  Ok (with_write None w 0 0 (with_mem m s)).

Definition startAddingFrame (frameType : Z) (data : list u8) (s : t) : res t :=
  ASSERT bool_decide (mode_ s = recording) ;;
  ASSERT bool_decide (frameType ≠ 0%Z) ;;
  ASSERT bool_decide (writePos s + sizeof_FrameHeader + length data ≤ size s) ;;
  ASSERT bool_decide (currentFrameSize s = 0) ;;
  ASSERT bool_decide (currentFrameType s = 0%Z) ;;
  ASSERT bool_decide (fh s = None) ;;
  m ← get_mem s;
  let h := writePos s in
  ty ← load_u32 h m;
  ASSERT bool_decide (ty = 0%Z) ;;
  m ← store_cells (h + sizeof_FrameHeader) (Some <$> data) m;
  Ok (with_write (Some h) (h + sizeof_FrameHeader + length data) (length data) frameType (with_mem m s)).

Definition continueAddingFrame (data : list u8) (s : t) : res t :=
  ASSERT bool_decide (mode_ s = recording) ;;
  ASSERT bool_decide (writePos s + length data ≤ size s) ;;
  ASSERT bool_decide (currentFrameSize s ≠ 0) ;;
  ASSERT bool_decide (currentFrameType s ≠ 0%Z) ;;
  ASSERT bool_decide (fh s ≠ None) ;;
  m ← get_mem s;
  m ← store_cells (writePos s) (Some <$> data) m;
  Ok (with_write (fh s) (writePos s + length data) (currentFrameSize s + length data) (currentFrameType s)
        (with_mem m s)).

Definition addingFrameDone (s : t) : res t :=
  ASSERT bool_decide (mode_ s = recording) ;;
  ASSERT bool_decide (currentFrameSize s ≠ 0) ;;
  ASSERT bool_decide (currentFrameType s ≠ 0%Z) ;;
  match fh s with
  | None => AssertFail
  | Some h =>
      m ← get_mem s;
      m ← store_u32 (writePos s) 0 m;
      m ← store_u32 (h + FrameHeader_size) (Z.of_nat (currentFrameSize s)) m;
      m ← store_u32 h (currentFrameType s) m;
      Ok (with_write None (writePos s) 0 0 (with_mem m s))
  end.

(** [deinit]: the content of binlog.dat, if it can be opened. [mem] keeps
    pointing to the block given back: a second call gives it back again *)
Definition deinit (can_open : bool) (s : t) : res (t * option (list cell)) :=
  file ← (if bool_decide (mode_ s = recording) then
            match mem s with
            | Null => AssertFail
            | Live m => if can_open then c ← load_cells 0 (writePos s) m; Ok (Some c) else Ok None
            | Dangling => UB
            end
          else Ok None);
  b ← match mem s with Null => Ok Null | Live _ => Ok Dangling | Dangling => UB end;
  Ok (mk not_using b (size s) (fh s) (writePos s) (currentFrameSize s) (currentFrameType s)
         (frameIdx s) (pointerMap s), file).

(** ** Replaying *)
Definition maxBuffsize : Z := 2 ^ 26.

(** [fread]: the bytes read; they overwrite the start of the block *)
Definition fread (file : list cell) : list cell := take (Z.to_nat maxBuffsize) file.
Definition read_into (c page : list cell) : list cell := c ++ drop (length c) page.

(** is there a frame at [f]: the test of the readers *)
Definition frame_at (f : nat) (m : list cell) (size : nat) : res (option (Z * nat)) :=
  if bool_decide (f + sizeof_FrameHeader < size) then
    ty ← load_u32 f m;
    if bool_decide (ty ≠ 0%Z) then
      sz ← load_u32 (f + FrameHeader_size) m;
      if bool_decide (Z.of_nat (f + sizeof_FrameHeader) + sz ≤ Z.of_nat size)%Z
      then Ok (Some (ty, Z.to_nat sz))
      else Ok None
    else Ok None
  else Ok None.

Fixpoint walk (fuel : nat) (f : nat) (m : list cell) (size n : nat) : res nat :=
  match fuel with
  | O => NoFuel
  | S fuel =>
      fr ← frame_at f m size;
      match fr with
      | Some (_, sz) => walk fuel (f + sizeof_FrameHeader + sz) m size (S n)
      | None => Ok n
      end
  end.

Definition dbgWalkThrougFrames (s : t) : res nat :=
  ASSERT bool_decide (mode_ s = replaying) ;;
  match mem s with
  | Null => AssertFail
  | Dangling => UB
  | Live m =>
      lsz ← load_int LogHeader_size 8 m;
      ASSERT bool_decide (lsz ≤ Z.of_nat (size s))%Z ;;
      walk (S (size s)) sizeof_LogHeader m (size s) 0
  end.

(** [initForReplaying] with the content of binlog.dat; [None]: it is not there *)
Definition initForReplaying (allocate : nat → option (list cell)) (file : option (list cell)) (s : t) : res t :=
  ASSERT bool_decide (mode_ s = not_using) ;;
  match file, allocate (Z.to_nat maxBuffsize) with
  | None, _ => AssertFail
  | Some _, None => UB
  | Some file, Some page =>
      let c := fread file in
      let m := read_into c page in
      ASSERT bool_decide (0 < length c) ;;
      lsz ← load_int LogHeader_size 8 m;
      ASSERT bool_decide (lsz ≤ Z.of_nat (length c))%Z ;;
      let s' := mk replaying (Live m) (length c) (Some sizeof_LogHeader) (writePos s)
                   (currentFrameSize s) (currentFrameType s) (frameIdx s) (pointerMap s) in
      _ ← dbgWalkThrougFrames s';
      Ok s'
  end.

Definition readNextFrame (s : t) : res (t * FrameData) :=
  ASSERT bool_decide (mode_ s = replaying) ;;
  m ← get_mem s;
  match fh s with
  | None => UB
  | Some f =>
      fr ← frame_at f m (size s);
      match fr with
      | Some (ty, sz) =>
          d ← load_cells (f + sizeof_FrameHeader) sz m;
          Ok (mk (mode_ s) (mem s) (size s) (Some (f + sizeof_FrameHeader + sz)) (writePos s)
                 (currentFrameSize s) (currentFrameType s) (S (frameIdx s)) (pointerMap s), (ty, d))
      | None => AssertFail
      end
  end.

Definition nextFrameType (s : t) : res Z :=
  ASSERT bool_decide (mode_ s = replaying) ;;
  m ← get_mem s;
  match fh s with
  | None => UB
  | Some f => if bool_decide (f + sizeof_FrameHeader < size s) then load_u32 f m else Ok 0%Z
  end.

Definition addPointerMapping (oldValue newValue : Z) (s : t) : res t :=
  ASSERT bool_decide (mode_ s = replaying) ;;
  Ok (mk (mode_ s) (mem s) (size s) (fh s) (writePos s) (currentFrameSize s) (currentFrameType s)
         (frameIdx s) (<[oldValue := newValue]> (pointerMap s))).

Definition mapPointer (oldVal : Z) (s : t) : res Z :=
  ASSERT bool_decide (mode_ s = replaying) ;;
  Ok (match pointerMap s !! oldVal with Some v => v | None => oldVal end).

(** ** Frames in memory *)
Definition frame : Type := (Z * list u8)%type.
Definition enc (f : frame) : list cell :=
  Some <$> (le_split 4 f.1 ++ le_split 4 (Z.of_nat (length f.2)) ++ f.2).
Definition enc_all (fs : list frame) : list cell := concat (enc <$> fs).
Definition frame_ok (f : frame) : Prop := (0 < f.1 < 2 ^ 32)%Z ∧ (Z.of_nat (length f.2) < 2 ^ 32)%Z.
Definition zeros (n : nat) : list cell := replicate n (Some x00).
Arguments zeros _ : simpl never.

Lemma store_mid off x a y b m :
  m = a ++ y ++ b → off = length a → length x = length y → store_cells off x m = Ok (a ++ x ++ b).
Proof.
  intros -> -> Hx. unfold store_cells. rewrite bool_decide_eq_true_2 by len. unfold blit.
  rewrite take_app_length, drop_app_ge by lia. do 3 f_equal.
  rewrite Hx. replace (length a + length y - length a) with (length y) by lia. by rewrite drop_app_length.
Qed.

Lemma load_mid off n x a b m :
  m = a ++ x ++ b → off = length a → n = length x → load_cells off n m = Ok x.
Proof.
  intros -> -> ->. unfold load_cells. rewrite bool_decide_eq_true_2 by len. unfold slice.
  by rewrite drop_app_length, take_app_length.
Qed.

Lemma load_int_mid off n v a b m :
  m = a ++ (Some <$> le_split n v) ++ b → off = length a → (0 ≤ v < 256 ^ Z.of_nat n)%Z →
  load_int off n m = Ok v.
Proof.
  intros Hm Ho Hv. unfold load_int.
  rewrite (load_mid off n (Some <$> le_split n v) a b m Hm Ho) by (by rewrite length_fmap, length_le_split).
  cbn [mbind res_bind]. rewrite mapM_id_Some, le_join_split. by rewrite Z.mod_small.
Qed.

Lemma load_u32_mid off v a b m :
  m = a ++ (Some <$> le_split 4 v) ++ b → off = length a → (0 ≤ v < 2 ^ 32)%Z → load_int off 4 m = Ok v.
Proof. intros Hm Ho Hv. by apply (load_int_mid off 4 v a b). Qed.

Lemma store_int_mid off n v a y b m :
  m = a ++ y ++ b → off = length a → length y = n → store_int off n v m = Ok (a ++ (Some <$> le_split n v) ++ b).
Proof. intros Hm Ho Hy. apply (store_mid _ _ a y b); [done..|]. by rewrite length_fmap, length_le_split. Qed.

Lemma zeros_le_split n : zeros n = Some <$> le_split n 0.
Proof. unfold zeros. induction n as [|n IH]; [done|]. cbn [replicate le_split fmap list_fmap]. by rewrite IH. Qed.

Lemma length_enc f : length (enc f) = 8 + length f.2.
Proof. unfold enc. rewrite length_fmap, !length_app, !length_le_split. lia. Qed.

Lemma enc_all_cons f fs : enc_all (f :: fs) = enc f ++ enc_all fs.
Proof. done. Qed.

Lemma enc_all_snoc fs f : enc_all (fs ++ [f]) = enc_all fs ++ enc f.
Proof. unfold enc_all. rewrite fmap_app, concat_app. cbn. by rewrite app_nil_r. Qed.

(** a block of memory holds one list of frames *)
Lemma le_split_inj n a b : (0 ≤ a < 256 ^ Z.of_nat n)%Z → (0 ≤ b < 256 ^ Z.of_nat n)%Z → le_split n a = le_split n b → a = b.
Proof. intros Ha Hb H. apply (f_equal le_join) in H. rewrite !le_join_split, !Z.mod_small in H; done. Qed.

Lemma enc_app_inj f g x y : frame_ok f → frame_ok g → enc f ++ x = enc g ++ y → f = g ∧ x = y.
Proof.
  intros [Hf1 Hf2] [Hg1 Hg2] H. unfold enc in H. rewrite !fmap_app, <-!app_assoc in H.
  apply app_inj_1 in H as [H1 H]; [|by rewrite !length_fmap, !length_le_split].
  apply app_inj_1 in H as [H2 H]; [|by rewrite !length_fmap, !length_le_split].
  apply (inj (fmap Some)) in H1, H2.
  apply (le_split_inj 4) in H1; [|cbn; lia..]. apply (le_split_inj 4) in H2; [|cbn; lia..].
  apply app_inj_1 in H as [H3 ->]; [|rewrite !length_fmap; lia]. apply (inj (fmap Some)) in H3.
  destruct f, g; cbn in *. by subst.
Qed.

Lemma enc_all_inj fs gs : Forall frame_ok fs → Forall frame_ok gs → enc_all fs = enc_all gs → fs = gs.
Proof.
  intros Hf. revert gs. induction Hf as [|f fs Hf Hfs IH]; intros gs Hg H; destruct Hg as [|g gs Hg Hgs].
  - done.
  - apply (f_equal length) in H. rewrite enc_all_cons, length_app, length_enc in H. simpl in H. lia.
  - apply (f_equal length) in H. rewrite enc_all_cons, length_app, length_enc in H. simpl in H. lia.
  - rewrite !enc_all_cons in H. apply enc_app_inj in H as [-> H]; [|done..]. f_equal. by apply IH.
Qed.

(** splitting the free space *)
Lemma split_at {A} n (l : list A) : n ≤ length l → ∃ a b, l = a ++ b ∧ length a = n.
Proof. exists (take n l), (drop n l). split; [by rewrite take_drop|rewrite length_take; lia]. Qed.

(** ** Recording: [frames] have been added *)
Record Rec (s : t) (fs : list frame) (room : nat) : Prop := {
  rec_mode : mode_ s = recording;
  rec_mem : ∃ rest, mem s = Live (zeros 40 ++ enc_all fs ++ zeros 4 ++ rest) ∧ room = length rest;
  rec_size : size s = 44 + length (enc_all fs) + room;
  rec_pos : writePos s = 40 + length (enc_all fs);
  rec_fh : fh s = None;
  rec_cur : currentFrameSize s = 0 ∧ currentFrameType s = 0%Z;
}.

(** ... and a frame with type [ty] is being added, with [d] so far *)
Record RecPart (s : t) (fs : list frame) (ty : Z) (d : list u8) (room : nat) : Prop := {
  rp_mode : mode_ s = recording;
  rp_mem : ∃ sz rest, mem s = Live (zeros 40 ++ enc_all fs ++ zeros 4 ++ sz ++ (Some <$> d) ++ rest) ∧
                      length sz = 4 ∧ room = length rest;
  rp_size : size s = 48 + length (enc_all fs) + length d + room;
  rp_pos : writePos s = 48 + length (enc_all fs) + length d;
  rp_fh : fh s = Some (40 + length (enc_all fs));
  rp_cur : currentFrameSize s = length d ∧ currentFrameType s = ty;
}.

Ltac mem_side := first [by rewrite <-?app_assoc | autorewrite with list_len; rewrite ?length_le_split, ?length_replicate; simpl; lia].

Lemma init_rec allocate szExp :
  16 ≤ szExp ≤ 48 → allocate (2 ^ szExp) = Some (zeros (2 ^ szExp)) → 44 ≤ 2 ^ szExp →
  ∃ s, initForRecording allocate szExp empty_log = Ok s ∧ Rec s [] (2 ^ szExp - 44).
Proof.
  intros Hsz Ha Hge. unfold initForRecording. cbn [mode_ empty_log].
  rewrite !bool_decide_eq_true_2 by (done || lia). rewrite Ha.
  assert (Hz : zeros (2 ^ szExp) = zeros 40 ++ zeros 4 ++ zeros (2 ^ szExp - 44)).
  { unfold zeros. rewrite <-!replicate_add. f_equal. lia. }
  unfold store_u32. rewrite (store_int_mid _ _ _ (zeros 40) (zeros 4) _ _ Hz) by done. cbn [mbind res_bind].
  rewrite <-zeros_le_split. eexists. split; [done|]. constructor; cbn; try done.
  - eexists. split; [done|]. unfold zeros. by rewrite length_replicate.
  - unfold enc_all. simpl. lia.
Qed.

Lemma put_payload_spec data h size pre s4 dd rest :
  let d := default [] data in
  h = length pre → length s4 = 4 → length dd = length d → h + 8 + length d ≤ size →
  put_payload h data size (pre ++ zeros 4 ++ s4 ++ dd ++ rest) =
    Ok (pre ++ zeros 4 ++ (Some <$> le_split 4 (Z.of_nat (length d))) ++ (Some <$> d) ++ rest).
Proof.
  intros d -> Hs4 Hdd Hfit. unfold put_payload, store_u32, sizeof_FrameHeader, FrameHeader_size.
  destruct data as [d0|]; cbn in d; subst d; rewrite bool_decide_eq_true_2 by lia.
  - rewrite (store_mid _ _ (pre ++ zeros 4 ++ s4) dd rest);
      [|by rewrite <-?app_assoc|rewrite !length_app; unfold zeros; len|len].
    cbn [mbind res_bind].
    rewrite (store_int_mid _ 4 _ (pre ++ zeros 4) s4 ((Some <$> d0) ++ rest));
      [by rewrite <-?app_assoc|by rewrite <-?app_assoc|rewrite !length_app; unfold zeros; len|done].
  - destruct dd; [|done].
    rewrite (store_int_mid _ 4 _ (pre ++ zeros 4) s4 rest);
      [by rewrite <-?app_assoc|by rewrite <-?app_assoc|rewrite !length_app; unfold zeros; len|done].
Qed.

(** the bytes of a frame whose type is still to be written *)
Lemma enc_cells ty d :
  enc (ty, d) = (Some <$> le_split 4 ty) ++ (Some <$> le_split 4 (Z.of_nat (length d))) ++ (Some <$> d).
Proof. unfold enc. by rewrite !fmap_app. Qed.

Lemma enc_fields (f : frame) :
  enc f = (Some <$> le_split 4 f.1) ++ (Some <$> le_split 4 (Z.of_nat (length f.2))) ++ (Some <$> f.2).
Proof. unfold enc. by rewrite !fmap_app. Qed.

Lemma addFrame_spec s fs room ty (data : option (list u8)) :
  let d := default [] data in
  Rec s fs room → frame_ok (ty, d) → 8 + length d ≤ room →
  ∃ s', addFrame ty data s = Ok s' ∧ Rec s' (fs ++ [(ty, d)]) (room - 8 - length d).
Proof.
  intros d [Hmo (rest & Hm & Hroom) Hsz Hpos Hfh [Hc1 Hc2]] [Hty Hlen] Hfit. cbn in Hty, Hlen.
  destruct (split_at 4 rest) as (s4 & r1 & -> & Hs4); [lia|]. rewrite length_app in Hroom.
  destruct (split_at (length d) r1) as (dd & r2 & -> & Hdd); [lia|]. rewrite length_app in Hroom.
  destruct (split_at 4 r2) as (n4 & r3 & -> & Hn4); [lia|]. rewrite length_app in Hroom.
  unfold addFrame. rewrite Hmo, Hc1, Hc2, Hfh. rewrite !bool_decide_eq_true_2 by (done || lia).
  unfold get_mem. rewrite Hm. cbn [mbind res_bind]. rewrite Hpos. unfold load_u32, store_u32.
  set (pre := zeros 40 ++ enc_all fs).
  assert (Hpre : length pre = 40 + length (enc_all fs)) by (subst pre; unfold zeros; len).
  rewrite <-Hpre, (app_assoc (zeros 40)). fold pre.
  rewrite (load_int_mid _ 4 0 pre (s4 ++ dd ++ n4 ++ r3)) by (done || lia || by rewrite <-zeros_le_split).
  cbn [mbind res_bind]. rewrite bool_decide_eq_true_2 by done. fold d.
  rewrite (put_payload_spec data (length pre) (size s) pre s4 dd (n4 ++ r3)) by (fold d; done || lia). fold d.
  cbn [mbind res_bind]. set (body := (Some <$> le_split 4 (Z.of_nat (length d))) ++ (Some <$> d)).
  assert (Hbody : length body = 4 + length d) by (subst body; rewrite length_app, !length_fmap, length_le_split; lia).
  rewrite (store_int_mid _ 4 0 (pre ++ zeros 4 ++ body) n4 r3);
    [|subst body; by rewrite <-?app_assoc|rewrite !length_app, Hbody; unfold sizeof_FrameHeader, zeros; len|done].
  cbn [mbind res_bind].
  rewrite (store_int_mid _ 4 ty pre (zeros 4) (body ++ zeros 4 ++ r3));
    [|rewrite <-zeros_le_split; by rewrite <-?app_assoc|done|done].
  cbn [mbind res_bind]. eexists. split; [done|].
  assert (He : length (enc_all (fs ++ [(ty, d)])) = length (enc_all fs) + 8 + length d)
    by (rewrite enc_all_snoc, length_app, length_enc; simpl; lia).
  constructor; cbn; rewrite ?He; try done.
  - exists r3. split; [|lia]. f_equal. rewrite enc_all_snoc, enc_cells. subst pre body. by rewrite <-?app_assoc.
  - lia.
Qed.

Lemma startAddingFrame_spec s fs room ty d :
  Rec s fs room → frame_ok (ty, d) → d ≠ [] → 4 + length d ≤ room →
  ∃ s', startAddingFrame ty d s = Ok s' ∧ RecPart s' fs ty d (room - 4 - length d).
Proof.
  intros [Hmo (rest & Hm & Hroom) Hsz Hpos Hfh [Hc1 Hc2]] [Hty Hlen] Hne Hfit. cbn in Hty, Hlen.
  destruct (split_at 4 rest) as (s4 & r1 & -> & Hs4); [lia|]. rewrite length_app in Hroom.
  destruct (split_at (length d) r1) as (dd & r2 & -> & Hdd); [lia|]. rewrite length_app in Hroom.
  unfold startAddingFrame, sizeof_FrameHeader. rewrite Hmo, Hc1, Hc2, Hfh, Hpos.
  rewrite !bool_decide_eq_true_2 by (done || lia).
  unfold get_mem. rewrite Hm. cbn [mbind res_bind]. unfold load_u32.
  set (pre := zeros 40 ++ enc_all fs).
  assert (Hpre : length pre = 40 + length (enc_all fs)) by (subst pre; unfold zeros; len).
  rewrite <-Hpre, (app_assoc (zeros 40)). fold pre.
  rewrite (load_int_mid _ 4 0 pre (s4 ++ dd ++ r2)) by (done || lia || by rewrite <-zeros_le_split).
  cbn [mbind res_bind]. rewrite bool_decide_eq_true_2 by done.
  rewrite (store_mid _ _ (pre ++ zeros 4 ++ s4) dd r2);
    [|by rewrite <-?app_assoc|rewrite !length_app; unfold zeros; len|len].
  cbn [mbind res_bind]. eexists. split; [done|]. constructor; cbn; try done.
  1: exists s4, r2; split; [|lia]; f_equal; subst pre; by rewrite <-?app_assoc.
  all: rewrite ?Hpre; done || lia.
Qed.

Lemma continueAddingFrame_spec s fs room ty d d' :
  RecPart s fs ty d room → ty ≠ 0%Z → d ≠ [] → length d' ≤ room →
  ∃ s', continueAddingFrame d' s = Ok s' ∧ RecPart s' fs ty (d ++ d') (room - length d').
Proof.
  intros [Hmo (s4 & rest & Hm & Hs4 & Hroom) Hsz Hpos Hfh [Hc1 Hc2]] Hty Hne Hfit.
  destruct (split_at (length d') rest) as (dd & r2 & -> & Hdd); [lia|]. rewrite length_app in Hroom.
  unfold continueAddingFrame. rewrite Hmo, Hc1, Hc2, Hfh, Hpos.
  assert (length d ≠ 0) by (by rewrite length_zero_iff_nil).
  rewrite !bool_decide_eq_true_2 by (done || lia).
  unfold get_mem. rewrite Hm. cbn [mbind res_bind].
  rewrite (store_mid _ _ (zeros 40 ++ enc_all fs ++ zeros 4 ++ s4 ++ (Some <$> d)) dd r2);
    [|by rewrite <-?app_assoc|rewrite !length_app; unfold zeros; len|len].
  cbn [mbind res_bind]. eexists. split; [done|]. constructor; cbn; rewrite ?length_app; try done; try lia.
  exists s4, r2. split; [|lia]. f_equal. rewrite fmap_app. by rewrite <-?app_assoc.
Qed.

Lemma addingFrameDone_spec s fs room ty d :
  RecPart s fs ty d room → ty ≠ 0%Z → d ≠ [] → 4 ≤ room →
  ∃ s', addingFrameDone s = Ok s' ∧ Rec s' (fs ++ [(ty, d)]) (room - 4).
Proof.
  intros [Hmo (s4 & rest & Hm & Hs4 & Hroom) Hsz Hpos Hfh [Hc1 Hc2]] Hty Hne Hfit.
  destruct (split_at 4 rest) as (n4 & r2 & -> & Hn4); [lia|]. rewrite length_app in Hroom.
  unfold addingFrameDone. rewrite Hmo, Hc1, Hc2, Hfh, Hpos.
  assert (length d ≠ 0) by (by rewrite length_zero_iff_nil).
  rewrite !bool_decide_eq_true_2 by (done || lia).
  unfold get_mem. rewrite Hm. cbn [mbind res_bind]. unfold store_u32, FrameHeader_size.
  set (pre := zeros 40 ++ enc_all fs).
  assert (Hpre : length pre = 40 + length (enc_all fs)) by (subst pre; unfold zeros; len).
  rewrite (store_int_mid _ 4 0 (pre ++ zeros 4 ++ s4 ++ (Some <$> d)) n4 r2);
    [|subst pre; by rewrite <-?app_assoc|rewrite !length_app; unfold zeros; len|done].
  cbn [mbind res_bind].
  rewrite (store_int_mid _ 4 _ (pre ++ zeros 4) s4 ((Some <$> d) ++ (Some <$> le_split 4 0) ++ r2));
    [|by rewrite <-?app_assoc|rewrite !length_app; unfold zeros; len|done].
  cbn [mbind res_bind]. rewrite <-!app_assoc.
  rewrite (store_int_mid _ 4 ty pre (zeros 4)
    ((Some <$> le_split 4 (Z.of_nat (length d))) ++ (Some <$> d) ++ (Some <$> le_split 4 0) ++ r2)) by (by rewrite ?Hpre).
  cbn [mbind res_bind]. eexists. split; [done|].
  assert (He : length (enc_all (fs ++ [(ty, d)])) = length (enc_all fs) + 8 + length d)
    by (rewrite enc_all_snoc, length_app, length_enc; simpl; lia).
  constructor; cbn; rewrite ?He; try done; try lia.
  exists r2. split; [|lia]. f_equal. rewrite enc_all_snoc, enc_cells. subst pre. rewrite <-?app_assoc. reflexivity.
Qed.

(** ** Replaying *)

(** the frames the readers see: a frame without payload at the very end of the
    file is not one of them *)
Fixpoint readable (fs : list frame) : list frame :=
  match fs with
  | [] => []
  | [f] => if bool_decide (f.2 = []) then [] else [f]
  | f :: fs => f :: readable fs
  end.

Lemma readable_cons f fs : fs ≠ [] ∨ f.2 ≠ [] → readable (f :: fs) = f :: readable fs.
Proof. intros Hor. destruct fs; [|done]. cbn. rewrite bool_decide_eq_false_2; [done|]. naive_solver. Qed.

Lemma frame_at_spec pre f fs tl :
  frame_ok f →
  frame_at (length pre) (pre ++ enc_all (f :: fs) ++ tl) (length (pre ++ enc_all (f :: fs))) =
    Ok (if bool_decide (readable (f :: fs) = []) then None else Some (f.1, length f.2)).
Proof.
  intros [Hty Hlen]. rewrite enc_all_cons.
  rewrite !length_app, length_enc. set (ty := f.1) in *. set (d := f.2) in *. unfold frame_at, sizeof_FrameHeader, FrameHeader_size.
  assert (Hfs : length (enc_all fs) = 0 ↔ fs = []).
  { destruct fs as [|f' fs]; [done|]. rewrite enc_all_cons, length_app, length_enc. split; [lia|done]. }
  destruct (decide (fs = [] ∧ d = [])) as [[-> Hd]|Hn].
  { rewrite Hd, bool_decide_eq_false_2 by (simpl; lia). cbn [readable]. fold d.
    by rewrite (bool_decide_eq_true_2 (d = [])). }
  assert (Hr : readable (f :: fs) = f :: readable fs).
  { apply readable_cons. destruct (decide (fs = [])); [|by left]. right. naive_solver. }
  rewrite Hr, (bool_decide_eq_false_2 (_ :: _ = [])) by done.
  rewrite bool_decide_eq_true_2.
  2:{ destruct (decide (d = [])) as [->|Hd]; [|rewrite <-length_zero_iff_nil in Hd; lia].
      destruct (decide (length (enc_all fs) = 0)) as [Hz|]; [|simpl; lia]. apply Hfs in Hz. naive_solver. }
  rewrite enc_fields. fold ty d. unfold load_u32.
  rewrite (load_u32_mid (length pre) ty pre
    ((Some <$> le_split 4 (Z.of_nat (length d))) ++ (Some <$> d) ++ enc_all fs ++ tl))  by (by rewrite <-?app_assoc || lia).
  cbn [mbind res_bind]. rewrite bool_decide_eq_true_2 by lia.
  rewrite (load_u32_mid _ (Z.of_nat (length d)) (pre ++ (Some <$> le_split 4 ty)) ((Some <$> d) ++ enc_all fs ++ tl));
    [|by rewrite <-?app_assoc|rewrite length_app, length_fmap, length_le_split; lia|lia].
  cbn [mbind res_bind]. rewrite bool_decide_eq_true_2 by lia. by rewrite Nat2Z.id.
Qed.

Lemma frame_at_end n m : frame_at n m n = Ok None.
Proof. unfold frame_at, sizeof_FrameHeader. by rewrite bool_decide_eq_false_2 by lia. Qed.

Lemma enc_all_length fs : 8 * length fs ≤ length (enc_all fs).
Proof.
  induction fs as [|f fs IH]; [done|]. change (enc_all (f :: fs)) with (enc f ++ enc_all fs).
  rewrite length_app, length_enc. simpl. lia.
Qed.

Lemma walk_spec fs pre tl fuel n :
  Forall frame_ok fs → length fs < fuel →
  walk fuel (length pre) (pre ++ enc_all fs ++ tl) (length (pre ++ enc_all fs)) n = Ok (n + length (readable fs)).
Proof.
  revert pre fuel n. induction fs as [|f fs IH]; intros pre [|fuel] n Hok Hf; try (simpl in Hf; lia); cbn [walk].
  - change (enc_all []) with (@nil cell). rewrite !app_nil_r, frame_at_end. cbn [mbind res_bind]. f_equal. simpl; lia.
  - inversion Hok; subst. rewrite frame_at_spec by done. cbn [mbind res_bind].
    case_bool_decide as Hr; [rewrite Hr; f_equal; simpl; lia|].
    assert (Hr' : readable (f :: fs) = f :: readable fs).
    { apply readable_cons. destruct fs; [|by left]. right. intros Hd. apply Hr. cbn. by rewrite bool_decide_eq_true_2. }
    rewrite enc_all_cons, <-app_assoc, !(app_assoc pre).
    replace (length pre + sizeof_FrameHeader + length f.2) with (length (pre ++ enc f))
      by (rewrite length_app, length_enc; unfold sizeof_FrameHeader; lia).
    rewrite IH by (done || simpl in Hf; lia). rewrite Hr'. f_equal. simpl. lia.
Qed.

(** [fs] is what is left to read; bytes of the block may follow the file *)
Record Rep (s : t) (done_ fs : list frame) : Prop := {
  rep_mode : mode_ s = replaying;
  rep_mem : ∃ tl, mem s = Live (zeros 40 ++ enc_all done_ ++ enc_all fs ++ tl);
  rep_size : size s = 40 + length (enc_all done_) + length (enc_all fs);
  rep_fh : fh s = Some (40 + length (enc_all done_));
}.

Definition payload (f : frame) : FrameData := (f.1, Some <$> f.2).

Lemma Rep_view s dn fs :
  Rep s dn fs → let pre := zeros 40 ++ enc_all dn in
  ∃ tl, get_mem s = Ok (pre ++ enc_all fs ++ tl) ∧ fh s = Some (length pre) ∧ size s = length (pre ++ enc_all fs).
Proof.
  intros [Hmo (tl & Hm) Hsz Hfh]. cbn zeta. exists tl. unfold get_mem. rewrite Hm, Hfh, Hsz.
  split; [by rewrite <-app_assoc|]. split; [f_equal|]; unfold zeros; len.
Qed.

Lemma Rep_advance s dn f fs s' :
  Rep s dn (f :: fs) → mode_ s' = mode_ s → mem s' = mem s → size s' = size s →
  fh s' = Some (length (zeros 40 ++ enc_all dn) + 8 + length f.2) → Rep s' (dn ++ [f]) fs.
Proof.
  intros [Hmo (tl & Hm) Hsz Hfh] H1 H2 H3 H4.
  assert (He : length (enc_all (dn ++ [f])) = length (enc_all dn) + 8 + length f.2)
    by (rewrite enc_all_snoc, length_app, length_enc; lia).
  assert (Hc : length (enc_all (f :: fs)) = 8 + length f.2 + length (enc_all fs))
    by (rewrite enc_all_cons, length_app, length_enc; lia).
  constructor.
  - congruence.
  - exists tl. rewrite H2, Hm, enc_all_cons, enc_all_snoc. by rewrite <-!app_assoc.
  - lia.
  - rewrite H4. f_equal. rewrite length_app. unfold zeros. rewrite length_replicate. lia.
Qed.

Lemma readNextFrame_spec s dn f fs :
  Rep s dn (f :: fs) → frame_ok f →
  if bool_decide (readable (f :: fs) = []) then readNextFrame s = AssertFail
  else nextFrameType s = Ok f.1 ∧ ∃ s', readNextFrame s = Ok (s', payload f) ∧ Rep s' (dn ++ [f]) fs.
Proof.
  intros Hrep Hok. pose proof (rep_mode _ _ _ Hrep) as Hmo.
  destruct (Rep_view _ _ _ Hrep) as (tl & Hm & Hfh & Hsz). set (pre := zeros 40 ++ enc_all dn) in *.
  pose proof (frame_at_spec pre f fs tl Hok) as Hfa.
  unfold readNextFrame, nextFrameType. rewrite Hmo, !(bool_decide_eq_true_2 (replaying = _)) by done.
  rewrite Hm, Hfh, Hsz. cbn [mbind res_bind]. rewrite Hfa. cbn [mbind res_bind].
  destruct (bool_decide_reflect (readable (f :: fs) = [])) as [Hr|Hr]; [done|]. split.
  - unfold frame_at in Hfa. destruct (bool_decide (_ < _)); [|done].
    apply bind_Ok_inv in Hfa as (ty0 & -> & Hfa). destruct (bool_decide (ty0 ≠ 0%Z)); [|done]. apply bind_Ok_inv in Hfa as (sz & _ & Hfa).
    destruct (bool_decide _); [|done]. by simplify_eq.
  - rewrite enc_all_cons, enc_fields.
    rewrite (load_mid _ _ (Some <$> f.2)
      (pre ++ (Some <$> le_split 4 f.1) ++ (Some <$> le_split 4 (Z.of_nat (length f.2)))) (enc_all fs ++ tl));
      [|by rewrite <-?app_assoc
       |rewrite !length_app, !length_fmap, !length_le_split; unfold sizeof_FrameHeader; simpl; lia
       |by rewrite length_fmap].
    cbn [mbind res_bind]. eexists. split; [done|]. apply (Rep_advance s); try done.
Qed.

Fixpoint readFrames (n : nat) (s : t) : res (t * list FrameData) :=
  match n with
  | O => Ok (s, [])
  | S n => '(s, f) ← readNextFrame s; '(s, fs) ← readFrames n s; Ok (s, f :: fs)
  end.

Lemma read_end s dn : Rep s dn [] → readNextFrame s = AssertFail.
Proof.
  intros Hrep. pose proof (rep_mode _ _ _ Hrep) as Hmo. destruct (Rep_view _ _ _ Hrep) as (tl & Hm & Hfh & Hsz).
  unfold readNextFrame. rewrite Hmo, bool_decide_eq_true_2, Hm, Hfh, Hsz by done. cbn [mbind res_bind].
  change (enc_all []) with (@nil cell). by rewrite !app_nil_r, frame_at_end.
Qed.

Lemma readFrames_spec fs s dn :
  Rep s dn fs → Forall frame_ok fs →
  ∃ s', readFrames (length (readable fs)) s = Ok (s', payload <$> readable fs) ∧
        readNextFrame s' = AssertFail.
Proof.
  revert s dn. induction fs as [|f fs IH]; intros s dn Hrep Hok.
  - exists s. split; [done|]. by eapply read_end.
  - inversion Hok; subst. pose proof (readNextFrame_spec s dn f fs Hrep) as Hn.
    destruct (bool_decide_reflect (readable (f :: fs) = [])) as [Hr|Hr].
    + rewrite Hr. exists s. split; [done|by apply Hn].
    + destruct Hn as (_ & s1 & Hs1 & Hrep1); [done|].
      assert (Hr' : readable (f :: fs) = f :: readable fs).
      { apply readable_cons. destruct fs; [|by left]. right. intros Hd. apply Hr. cbn. by rewrite bool_decide_eq_true_2. }
      destruct (IH s1 _ Hrep1) as (s2 & Hs2 & Hend); [done|].
      exists s2. rewrite Hr'. cbn [length readFrames]. rewrite Hs1. cbn [mbind res_bind]. rewrite Hs2. done.
Qed.

Lemma initForReplaying_spec allocate page fs s :
  mode_ s = not_using → Forall frame_ok fs → (Z.of_nat (40 + length (enc_all fs)) ≤ maxBuffsize)%Z →
  allocate (Z.to_nat maxBuffsize) = Some page →
  ∃ s', initForReplaying allocate (Some (zeros 40 ++ enc_all fs)) s = Ok s' ∧ Rep s' [] fs.
Proof.
  intros Hmo Hok Hmax Hpage. unfold initForReplaying. rewrite Hmo, Hpage. rewrite bool_decide_eq_true_2 by done.
  assert (Hlen : length (zeros 40 ++ enc_all fs) = 40 + length (enc_all fs)) by (unfold zeros; len).
  unfold fread, read_into. rewrite (take_ge (zeros 40 ++ enc_all fs)) by lia. cbn zeta.
  set (tl := drop _ page). rewrite Hlen, bool_decide_eq_true_2 by lia.
  assert (Hload : load_int LogHeader_size 8 ((zeros 40 ++ enc_all fs) ++ tl) = Ok 0%Z)
    by (by apply (load_int_mid _ 8 0 (zeros 16) (zeros 16 ++ enc_all fs ++ tl))).
  rewrite Hload. cbn [mbind res_bind]. rewrite bool_decide_eq_true_2 by lia.
  unfold dbgWalkThrougFrames. cbn [mode_ mem size]. rewrite bool_decide_eq_true_2 by done.
  rewrite Hload. cbn [mbind res_bind]. rewrite bool_decide_eq_true_2 by lia. rewrite <-app_assoc.
  pose proof (walk_spec fs (zeros 40) tl (S (40 + length (enc_all fs))) 0 Hok) as Hw.
  rewrite Hlen in Hw. change (length (zeros 40)) with sizeof_LogHeader in Hw.
  rewrite Hw by (pose proof (enc_all_length fs); lia). cbn [mbind res_bind].
  eexists. split; [done|]. constructor; cbn; try done. by exists tl.
Qed.

(** ** Recording a run *)

(** one frame as the code records it: in one call, or in parts *)
Inductive rec_op : Type :=
  | Whole (ty : Z) (data : option (list u8))
  | Parts (ty : Z) (d0 : list u8) (ds : list (list u8)).

Fixpoint continueAll (ds : list (list u8)) (s : t) : res t :=
  match ds with
  | [] => Ok s
  | d :: ds => s ← continueAddingFrame d s; continueAll ds s
  end.

Definition record_op (o : rec_op) (s : t) : res t :=
  match o with
  | Whole ty data => addFrame ty data s
  | Parts ty d0 ds => s ← startAddingFrame ty d0 s; s ← continueAll ds s; addingFrameDone s
  end.

Fixpoint record_all (os : list rec_op) (s : t) : res t :=
  match os with
  | [] => Ok s
  | o :: os => s ← record_op o s; record_all os s
  end.

Definition frame_of (o : rec_op) : frame :=
  match o with
  | Whole ty data => (ty, default [] data)
  | Parts ty d0 ds => (ty, d0 ++ concat ds)
  end.

(** a frame added in parts starts with a part that is not empty *)
Definition op_ok (o : rec_op) : Prop :=
  frame_ok (frame_of o) ∧ match o with Whole _ _ => True | Parts _ d0 _ => d0 ≠ [] end.

(** *** What has been added fits

    The converse of the lemmas above: when the code returned, there was room. *)
Lemma store_cells_Ok i d m m' : store_cells i d m = Ok m' → i + length d ≤ length m ∧ length m' = length m.
Proof.
  unfold store_cells. intros H. apply require_Ok in H as [H ?]. apply bool_decide_eq_true_1 in H. simplify_eq.
  split; [done|]. by apply length_blit.
Qed.

Lemma store_int_Ok off n v m m' : store_int off n v m = Ok m' → off + n ≤ length m ∧ length m' = length m.
Proof. unfold store_int. intros H. apply store_cells_Ok in H. by rewrite length_fmap, length_le_split in H. Qed.

Lemma Rec_mem s fs room : Rec s fs room → ∃ m, mem s = Live m ∧ length m = 44 + length (enc_all fs) + room.
Proof. intros [_ (rest & Hm & Hr) _ _ _ _]. eexists. split; [done|]. unfold zeros. len. Qed.

Lemma put_payload_Ok h data size m m' : put_payload h data size m = Ok m' → length m' = length m.
Proof.
  unfold put_payload, store_u32. intros H. destruct data; inv_res;
    repeat match goal with
    | E : store_cells _ _ _ = Ok _ |- _ => apply store_cells_Ok in E as [_ E]
    | E : store_int _ _ _ _ = Ok _ |- _ => apply store_int_Ok in E as [_ E]
    end; simplify_eq; congruence.
Qed.

Lemma Rec_unique s fs gs n k :
  Forall frame_ok fs → Forall frame_ok gs → Rec s fs n → Rec s gs k → fs = gs.
Proof.
  intros Hf Hg [_ (r1 & H1 & _) _ P1 _ _] [_ (r2 & H2 & _) _ P2 _ _]. rewrite H1 in H2. injection H2 as H2.
  apply app_inj_1 in H2 as [H2 _]; [|lia]. by apply enc_all_inj.
Qed.

Lemma addFrame_fits s fs room ty data s' :
  Rec s fs room → addFrame ty data s = Ok s' → 8 + length (default [] data) ≤ room.
Proof.
  intros Hrec H. destruct (Rec_mem _ _ _ Hrec) as (m & Hm & Hlen). pose proof (rec_pos _ _ _ Hrec) as Hpos.
  unfold addFrame, get_mem, store_u32 in H. rewrite Hm in H. inv_res.
  match goal with E : put_payload _ _ _ _ = Ok _, E' : store_int _ 4 0 _ = Ok _ |- _ =>
    apply put_payload_Ok in E; apply store_int_Ok in E' as [Hw _] end.
  unfold sizeof_FrameHeader in Hw. lia.
Qed.

Lemma addFrame_Rec s fs room ty data s' :
  Rec s fs room → (0 < ty < 2 ^ 32)%Z → (Z.of_nat (size s) < 2 ^ 32)%Z → addFrame ty data s = Ok s' →
  ∃ room', Rec s' (fs ++ [(ty, default [] data)]) room' ∧ size s' = size s.
Proof.
  intros Hrec Hty Hsz H. pose proof (addFrame_fits _ _ _ _ _ _ Hrec H) as Hfit.
  pose proof (rec_size _ _ _ Hrec) as Hsize.
  destruct (addFrame_spec s fs room ty data Hrec) as (s1 & Hs1 & Hrec1); [split; cbn; lia|done|].
  rewrite H in Hs1. simplify_eq. eexists. split; [done|].
  unfold addFrame in H. inv_res. done.
Qed.

Lemma adding_parts_Rec s fs room ty d1 d2 s1 s2 s3 :
  Rec s fs room → (0 < ty < 2 ^ 32)%Z → (Z.of_nat (size s) < 2 ^ 32)%Z → d1 ≠ [] →
  startAddingFrame ty d1 s = Ok s1 → continueAddingFrame d2 s1 = Ok s2 → addingFrameDone s2 = Ok s3 →
  ∃ room', Rec s3 (fs ++ [(ty, d1 ++ d2)]) room' ∧ size s3 = size s.
Proof.
  intros Hrec Hty Hsz Hne H1 H2 H3. pose proof (rec_size _ _ _ Hrec) as Hsize. pose proof (rec_pos _ _ _ Hrec) as Hpos.
  assert (Hfit1 : 4 + length d1 ≤ room) by (unfold startAddingFrame, sizeof_FrameHeader in H1; inv_res; lia).
  destruct (startAddingFrame_spec s fs room ty d1 Hrec) as (s1' & E1 & R1); [split; cbn; lia|done..|].
  rewrite H1 in E1. injection E1 as <-.
  assert (Hfit2 : length d2 ≤ room - 4 - length d1).
  { pose proof (rp_size _ _ _ _ _ R1). pose proof (rp_pos _ _ _ _ _ R1). unfold continueAddingFrame in H2. inv_res. lia. }
  destruct (continueAddingFrame_spec s1 fs _ ty d1 d2 R1) as (s2' & E2 & R2); [lia|done..|].
  rewrite H2 in E2. injection E2 as <-.
  assert (Hfit3 : 4 ≤ room - 4 - length d1 - length d2).
  { destruct R2 as [_ (sz & rest & Hm & Hl & Hr) _ Hp _ _]. unfold addingFrameDone in H3.
    inv_res. destruct (fh s2); [|done]. unfold get_mem, store_u32 in H3. rewrite Hm in H3. inv_res.
    match goal with E : store_int _ 4 0 _ = Ok _ |- _ => apply store_int_Ok in E as [E _] end.
    rewrite Hp in *. rewrite Hr. unfold zeros in *. len. }
  destruct (addingFrameDone_spec s2 fs _ ty (d1 ++ d2) R2) as (s3' & E3 & R3); [lia|by destruct d1|done|].
  rewrite H3 in E3. injection E3 as <-. eexists. split; [done|].
  assert (size s1 = size s) as <- by (unfold startAddingFrame in H1; inv_res; done).
  assert (size s2 = size s1) as <- by (unfold continueAddingFrame in H2; inv_res; done).
  unfold addingFrameDone in H3. inv_res. destruct (fh s2); [|done]. inv_res. done.
Qed.

Lemma continueAll_spec ds s fs ty d room :
  RecPart s fs ty d room → ty ≠ 0%Z → d ≠ [] → length (concat ds) ≤ room →
  ∃ s', continueAll ds s = Ok s' ∧ RecPart s' fs ty (d ++ concat ds) (room - length (concat ds)).
Proof.
  revert s d room. induction ds as [|d' ds IH]; intros s d room Hrec Hty Hne Hfit; cbn [continueAll concat].
  - exists s. split; [done|]. rewrite app_nil_r. cbn [length]. by rewrite Nat.sub_0_r.
  - cbn [concat] in Hfit. rewrite length_app in Hfit |- *.
    destruct (continueAddingFrame_spec s fs room ty d d' Hrec) as (s1 & Hs1 & Hrec1); [done..|lia|].
    rewrite Hs1. cbn [mbind res_bind].
    destruct (IH s1 _ _ Hrec1) as (s2 & Hs2 & Hrec2); [done|by destruct d|lia|].
    exists s2. split; [done|]. rewrite app_assoc, Nat.sub_add_distr. done.
Qed.

Lemma record_op_spec o s fs room :
  Rec s fs room → op_ok o → 8 + length (frame_of o).2 ≤ room →
  ∃ s', record_op o s = Ok s' ∧ Rec s' (fs ++ [frame_of o]) (room - (8 + length (frame_of o).2)).
Proof.
  intros Hrec [Hok Hne] Hfit. destruct o as [ty data|ty d0 ds]; cbn [record_op frame_of snd] in *.
  - destruct (addFrame_spec s fs room ty data Hrec) as (s' & Hs' & Hrec'); [done|lia|].
    exists s'. by rewrite Nat.sub_add_distr.
  - rewrite length_app in Hfit |- *. pose proof Hok as [Hty Hl]. cbn in Hty, Hl. rewrite length_app in Hl.
    destruct (startAddingFrame_spec s fs room ty d0 Hrec) as (s1 & -> & H1); [split; cbn; lia|done|lia|].
    cbn [mbind res_bind].
    destruct (continueAll_spec ds s1 _ _ _ _ H1) as (s2 & -> & H2); [lia|done|lia|]. cbn [mbind res_bind].
    destruct (addingFrameDone_spec s2 _ _ _ _ H2) as (s3 & -> & H3); [lia|by destruct d0|lia|].
    exists s3. split; [done|]. by replace (room - (8 + (length d0 + length (concat ds))))
      with (room - 4 - length d0 - length (concat ds) - 4) by lia.
Qed.

Lemma record_all_spec os s fs room :
  Rec s fs room → Forall op_ok os → length (enc_all (frame_of <$> os)) ≤ room →
  ∃ s', record_all os s = Ok s' ∧ Rec s' (fs ++ (frame_of <$> os)) (room - length (enc_all (frame_of <$> os))).
Proof.
  revert s fs room. induction os as [|o os IH]; intros s fs room Hrec Hok Hfit.
  - exists s. split; [done|]. cbn. by rewrite app_nil_r, Nat.sub_0_r.
  - inversion Hok as [|? ? Ho Hos]; subst.
    rewrite fmap_cons, enc_all_cons, length_app, length_enc in Hfit |- *. cbn [record_all].
    destruct (record_op_spec o s fs room Hrec) as (s1 & -> & H1); [done|lia|]. cbn [mbind res_bind].
    destruct (IH s1 _ _ H1) as (s2 & Hs2 & H2); [done|lia|].
    exists s2. split; [done|]. rewrite <-app_assoc in H2. cbn in H2. by rewrite Nat.sub_add_distr.
Qed.

Lemma deinit_spec s fs room :
  Rec s fs room →
  ∃ s', deinit true s = Ok (s', Some (zeros 40 ++ enc_all fs)) ∧ mode_ s' = not_using ∧ mem s' = Dangling.
Proof.
  intros [Hmo (rest & Hm & Hroom) Hsz Hpos Hfh Hc]. unfold deinit. rewrite Hmo, Hm, Hpos.
  rewrite bool_decide_eq_true_2 by done.
  rewrite (load_mid 0 _ (zeros 40 ++ enc_all fs) [] (zeros 4 ++ rest));
    [|by rewrite <-?app_assoc|done|unfold zeros; len].
  cbn [mbind res_bind]. eexists. done.
Qed.

(** a whole recorded run, and what a replaying process starts from *)
Definition recording_run (allocate : nat → option (list cell)) (szExp : nat) (os : list rec_op) :
    res (t * option (list cell)) :=
  s ← initForRecording allocate szExp empty_log; s ← record_all os s; deinit true s.
End BinLog.

Module BinLogSpec.
Import BinLog.

Lemma readable_snoc_empty fs ty : readable (fs ++ [(ty, [])]) = fs.
Proof. induction fs as [|f fs IH]; [done|]. change ((f :: fs) ++ [(ty, [])]) with (f :: (fs ++ [(ty, [])])).
  rewrite readable_cons, IH by (left; by destruct fs). done.
Qed.

Lemma readable_snoc fs f : f.2 ≠ [] → readable (fs ++ [f]) = fs ++ [f].
Proof.
  intros Hf. induction fs as [|g fs IH]; cbn [app].
  - cbn. by rewrite bool_decide_eq_false_2.
  - rewrite readable_cons, IH by (left; by destruct fs). done.
Qed.

Section Run.
(** the two calls of the allocator: the pages it returns are zero *)
Context (allocate : nat → option (list cell)) (szExp : nat) (page : list cell).
Context (Hexp : 16 ≤ szExp ≤ 48) (Hzero : allocate (2 ^ szExp) = Some (zeros (2 ^ szExp))).
Context (Hpage : allocate (Z.to_nat maxBuffsize) = Some page).

Lemma recording_run_spec os :
  Forall op_ok os → 44 + length (enc_all (frame_of <$> os)) ≤ 2 ^ szExp →
  ∃ s, recording_run allocate szExp os = Ok (s, Some (zeros 40 ++ enc_all (frame_of <$> os))) ∧
       mode_ s = not_using ∧ mem s = Dangling.
Proof.
  intros Hok Hfit. destruct (init_rec allocate szExp) as (s0 & Hs0 & H0); [done..|lia|].
  destruct (record_all_spec os s0 [] _ H0) as (s1 & Hs1 & H1); [done|lia|].
  destruct (deinit_spec s1 _ _ H1) as (s2 & Hs2 & Hmo & Hm).
  exists s2. unfold recording_run. rewrite Hs0. cbn [mbind res_bind]. rewrite Hs1. cbn [mbind res_bind].
  rewrite Hs2. done.
Qed.

Lemma replay_spec fs :
  Forall frame_ok fs → (Z.of_nat (40 + length (enc_all fs)) ≤ maxBuffsize)%Z →
  ∃ s s', initForReplaying allocate (Some (zeros 40 ++ enc_all fs)) empty_log = Ok s ∧
    readFrames (length (readable fs)) s = Ok (s', payload <$> readable fs) ∧ readNextFrame s' = AssertFail.
Proof.
  intros Hok Hmax. destruct (initForReplaying_spec allocate page fs empty_log) as (s & Hs & Hrep); [done..|].
  destruct (readFrames_spec fs s [] Hrep Hok) as (s' & Hr & He). by exists s, s'.
Qed.

Lemma op_frames_ok os : Forall op_ok os → Forall frame_ok (frame_of <$> os).
Proof. intros H. apply Forall_fmap. eapply Forall_impl; [exact H|]. by intros o [Ho _]. Qed.
End Run.

(** the file of [os] followed by [o], and what the readers get *)
Lemma run_replay allocate szExp page os :
  16 ≤ szExp ≤ 48 → allocate (2 ^ szExp) = Some (zeros (2 ^ szExp)) →
  allocate (Z.to_nat maxBuffsize) = Some page → Forall op_ok os →
  44 + length (enc_all (frame_of <$> os)) ≤ 2 ^ szExp →
  (Z.of_nat (40 + length (enc_all (frame_of <$> os))) ≤ maxBuffsize)%Z →
  ∃ s1 file s2 s3, recording_run allocate szExp os = Ok (s1, Some file) ∧
    initForReplaying allocate (Some file) empty_log = Ok s2 ∧
    readFrames (length (readable (frame_of <$> os))) s2 = Ok (s3, payload <$> readable (frame_of <$> os)) ∧
    readNextFrame s3 = AssertFail.
Proof.
  intros Hexp Hz Hp Hok Hfit Hmax.
  destruct (recording_run_spec allocate szExp Hexp Hz os Hok Hfit) as (s1 & Hr & _).
  destruct (replay_spec allocate page Hp (frame_of <$> os)) as (s2 & s3 & H2 & H3 & H4);
    [by apply op_frames_ok|done|]. by exists s1, (zeros 40 ++ enc_all (frame_of <$> os)), s2, s3.
Qed.

(** C21. Record and replay: let a process record the frames [os ++ [o]], each in one
    call or in parts, in a block of 2^szExp bytes they fit in, and close the log;
    let another process open the file. Reading frame after frame gives back the
    type and the payload of every frame, in the order they were recorded, and
    the read after the last one is refused. The last frame recorded must have
    a payload. *)
Theorem recorded_frames_replayed allocate szExp page os o :
  16 ≤ szExp ≤ 48 → allocate (2 ^ szExp) = Some (zeros (2 ^ szExp)) →
  allocate (Z.to_nat maxBuffsize) = Some page →
  Forall op_ok (os ++ [o]) → (frame_of o).2 ≠ [] →
  44 + length (enc_all (frame_of <$> (os ++ [o]))) ≤ 2 ^ szExp →
  (Z.of_nat (40 + length (enc_all (frame_of <$> (os ++ [o])))) ≤ maxBuffsize)%Z →
  ∃ s1 file s2 s3, recording_run allocate szExp (os ++ [o]) = Ok (s1, Some file) ∧
    initForReplaying allocate (Some file) empty_log = Ok s2 ∧
    readFrames (S (length os)) s2 = Ok (s3, payload ∘ frame_of <$> (os ++ [o])) ∧
    readNextFrame s3 = AssertFail.
Proof.
  intros Hexp Hz Hp Hok Hne Hfit Hmax.
  destruct (run_replay allocate szExp page (os ++ [o])) as (s1 & file & s2 & s3 & H1 & H2 & H3 & H4); [done..|].
  exists s1, file, s2, s3. split_and!; try done.
  rewrite fmap_app in H3. change (frame_of <$> [o]) with [frame_of o] in H3. rewrite readable_snoc in H3 by done.
  rewrite length_app, length_fmap, Nat.add_1_r in H3. rewrite H3.
  do 2 f_equal. rewrite (list_fmap_compose frame_of payload), (fmap_app frame_of). reflexivity.
Qed.

Definition ex_ops : list rec_op := [Whole 1 None; Parts 4 [xaa] [[]; [xbb; xcc]]].
Definition ex_allocate (n : nat) : option (list cell) := Some (zeros n).

Lemma recorded_frames_replayed_witness :
  ∃ s1 file s2 s3, recording_run ex_allocate 16 (ex_ops ++ [Whole 9 (Some [x01])]) = Ok (s1, Some file) ∧
    initForReplaying ex_allocate (Some file) empty_log = Ok s2 ∧
    readFrames (S (length ex_ops)) s2 =
      Ok (s3, payload ∘ frame_of <$> (ex_ops ++ [Whole 9 (Some [x01])])) ∧
    readNextFrame s3 = AssertFail.
Proof.
  apply (recorded_frames_replayed ex_allocate 16 (zeros (Z.to_nat maxBuffsize))); try done.
  - lia.
  - repeat constructor; done.
  - assert (44 + 28 ≤ 2 ^ 16) by (apply Nat.leb_le; reflexivity). done.
Defined.

(** The frames of a run whose last frame has no payload are all replayed except
    that last one: reading it is refused, because the test for a frame leaves
    out a header that ends where the file ends. *)
Theorem last_empty_frame_lost allocate szExp page os ty :
  16 ≤ szExp ≤ 48 → allocate (2 ^ szExp) = Some (zeros (2 ^ szExp)) →
  allocate (Z.to_nat maxBuffsize) = Some page →
  Forall op_ok os → (0 < ty < 2 ^ 32)%Z →
  52 + length (enc_all (frame_of <$> os)) ≤ 2 ^ szExp →
  (Z.of_nat (48 + length (enc_all (frame_of <$> os))) ≤ maxBuffsize)%Z →
  ∃ s1 file s2 s3, recording_run allocate szExp (os ++ [Whole ty None]) = Ok (s1, Some file) ∧
    initForReplaying allocate (Some file) empty_log = Ok s2 ∧
    readFrames (length os) s2 = Ok (s3, payload ∘ frame_of <$> os) ∧
    readNextFrame s3 = AssertFail.
Proof.
  intros Hexp Hz Hp Hok Hty Hfit Hmax.
  assert (Hl : length (enc_all (frame_of <$> (os ++ [Whole ty None]))) = 8 + length (enc_all (frame_of <$> os))).
  { rewrite fmap_app. change (frame_of <$> [Whole ty None]) with [frame_of (Whole ty None)].
    rewrite enc_all_snoc, length_app, length_enc. cbn [frame_of snd default length]. simpl. lia. }
  destruct (run_replay allocate szExp page (os ++ [Whole ty None])) as (s1 & file & s2 & s3 & H1 & H2 & H3 & H4);
    try done.
  - apply Forall_app. split; [done|]. constructor; [|done]. repeat split; cbn; lia.
  - rewrite Hl. lia.
  - rewrite Hl. lia.
  - exists s1, file, s2, s3. split_and!; try done.
    rewrite fmap_app in H3. change (frame_of <$> [Whole ty None]) with [(ty, [] : list u8)] in H3.
    rewrite readable_snoc_empty, length_fmap in H3. rewrite H3. by rewrite list_fmap_compose.
Qed.

Lemma last_empty_frame_lost_witness :
  ∃ s1 file s2 s3, recording_run ex_allocate 16 (ex_ops ++ [Whole 9 None]) = Ok (s1, Some file) ∧
    initForReplaying ex_allocate (Some file) empty_log = Ok s2 ∧
    readFrames (length ex_ops) s2 = Ok (s3, payload ∘ frame_of <$> ex_ops) ∧
    readNextFrame s3 = AssertFail.
Proof.
  apply (last_empty_frame_lost ex_allocate 16 (zeros (Z.to_nat maxBuffsize))); try done.
  - lia.
  - repeat constructor; done.
  - assert (52 + 19 ≤ 2 ^ 16) by (apply Nat.leb_le; reflexivity). done.
Defined.
End BinLogSpec.
