(* ===== verification/TcpSocket.v ===== *)
(** * Sockets of the event loop (src/tcp_socket/tcp_socket.cpp, tcp_socket.h)

    The state machine of a client or accepted socket and its manager:
    [OSLayer], [NetSocketManagerBase] and [NetSocketManager], with the part of
    [SocketBase] (include/nodecpp/socket_common.h) they call back. The table of
    sockets is used through the class [SockTable] (what NetRegistry.v provides),
    the operating system through the class [OS]; what the library relies on of
    either is stated in [SockTableLaws] and [OSLaws].

    Code of the user runs inside the handlers: [user o ev s] is the list of the
    calls on sockets that the listeners, the user handlers and the coroutines
    woken for the event [ev] of the object [o] make, and it may be any function. No
    such call runs user code again (closing only queues an event), so a list
    of calls is all a handler is. Recording and replaying are compiled out. *)

From S2P Require Import Prelude Buffers Circular NetRegistry.
From Stdlib Require Import Lia.

(** ** What the sockets rely on *)

(** The table of sockets: [ioSockets] and the fields [index] and [osSocket] that
    the objects keep for it. *)
Class SockTable (Ob T : Type) := {
  index_of : T → Ob → option nat;
  socket_of : T → Ob → option Z;
  t_set_socket : Ob → Z → T → T;
  t_addEntry : Ob → T → res T;
  t_size : T → nat;
  t_isValidId : nat → T → bool;
  t_isUsed : nat → T → res bool;
  t_object_at : nat → T → res Ob;
  t_setAssociated : nat → T → res T;
  t_setPollin : nat → T → res T;
  t_unsetPollin : nat → T → res T;
  t_setPollout : nat → T → res T;
  t_unsetPollout : nat → T → res T;
  t_setRefed : nat → bool → T → res T;
  t_setSocketClosed : nat → T → res T;
  t_resetEntry : nat → T → res T;
  t_setUnused : nat → T → res T;
  t_forget : Ob → T → T;
}.

(** The operating system: [W] is its state, a failed call of the [send] and
    [recv] family tells whether it would have blocked. *)
Inductive io_error : Type := WouldBlock | Broken.

Class OS (W : Type) := {
  sys_socket : W → W * Z;
  sys_ioctl_async : Z → W → W * bool;
  sys_connect : Z → string → Z → W → W * option io_error;
  sys_sendto : Z → list cell → W → W * (nat + io_error);
  sys_recvfrom : Z → nat → W → W * (list u8 + io_error);
  sys_so_error : Z → W → W * bool;
  sys_shutdown_send : Z → W → W;
  sys_linger_zero : Z → W → W;
  sys_keep_alive : Z → bool → W → W * bool;
  sys_no_delay : Z → bool → W → W * bool;
  sys_close : Z → W → W;
}.

Module Tcp.

(** ** Data *)
Definition INVALID_SOCKET : Z := (-1)%Z.
Definition POLLIN : Z := 1.
Definition POLLOUT : Z := 4.
Definition POLLERR : Z := 8.
Definition POLLHUP : Z := 16.
Definition POLLNVAL : Z := 32.

Inductive State : Type :=
  | Uninitialized | Connecting | Connected | LocalEnding | LocalEnded
  | Closing | ErrorClosing | Closed.
#[export] Instance state_eq_dec : EqDecision State.
Proof. solve_decision. Defined.

Inductive COMMLAYER_RET : Type := RET_OK | RET_PENDING | RET_FAILED.
#[export] Instance ret_eq_dec : EqDecision COMMLAYER_RET.
Proof. solve_decision. Defined.

Inductive ShouldEmit : Type := EmitNone | EmitConnect | EmitDrain.

(** a coroutine handle *)
Abbreviation coro := nat (only parsing).

(** [DataForCommandProcessing] of [SocketBase] ([index] and [osSocket] belong to
    the table) and whether the socket belongs to a server *)
Record sock : Type := mkSock {
  state : State;
  ahd_connect : option coro;
  ahd_accepted : option coro;
  ahd_read_h : option coro;
  ahd_read_min_bytes : nat;
  ahd_write_h : option coro;
  ahd_write_b : Buffer.t;
  ahd_drain : option coro;
  remoteEnded : bool;
  paused : bool;
  allowHalfOpen : bool;
  refed : bool;
  writeBuffer : Cbb.t;
  readBuffer : Cbb.t;
  of_server : bool;
}.

(** the buffers are made with the exponent 12: [Cbb.create 12 = Ok (Cbb.fresh_ring 12)] *)
Definition new_sock (half_open server : bool) : sock :=
  mkSock Uninitialized None None None 0 None Buffer.empty_buffer None false false half_open false
         (Cbb.fresh_ring 12) (Cbb.fresh_ring 12) server.

(** Field updates. *)
Definition with_state (x : State) (d : sock) : sock :=
  mkSock x (ahd_connect d) (ahd_accepted d) (ahd_read_h d) (ahd_read_min_bytes d) (ahd_write_h d) (ahd_write_b d)
    (ahd_drain d) (remoteEnded d) (paused d) (allowHalfOpen d) (refed d) (writeBuffer d) (readBuffer d) (of_server d).
Definition with_connect (x : option coro) (d : sock) : sock :=
  mkSock (state d) x (ahd_accepted d) (ahd_read_h d) (ahd_read_min_bytes d) (ahd_write_h d) (ahd_write_b d)
    (ahd_drain d) (remoteEnded d) (paused d) (allowHalfOpen d) (refed d) (writeBuffer d) (readBuffer d) (of_server d).
Definition with_accepted (x : option coro) (d : sock) : sock :=
  mkSock (state d) (ahd_connect d) x (ahd_read_h d) (ahd_read_min_bytes d) (ahd_write_h d) (ahd_write_b d)
    (ahd_drain d) (remoteEnded d) (paused d) (allowHalfOpen d) (refed d) (writeBuffer d) (readBuffer d) (of_server d).
Definition with_read (x : option coro) (n : nat) (d : sock) : sock :=
  mkSock (state d) (ahd_connect d) (ahd_accepted d) x n (ahd_write_h d) (ahd_write_b d)
    (ahd_drain d) (remoteEnded d) (paused d) (allowHalfOpen d) (refed d) (writeBuffer d) (readBuffer d) (of_server d).
Definition with_write_h (x : option coro) (d : sock) : sock :=
  mkSock (state d) (ahd_connect d) (ahd_accepted d) (ahd_read_h d) (ahd_read_min_bytes d) x (ahd_write_b d)
    (ahd_drain d) (remoteEnded d) (paused d) (allowHalfOpen d) (refed d) (writeBuffer d) (readBuffer d) (of_server d).
Definition with_write_b (x : Buffer.t) (d : sock) : sock :=
  mkSock (state d) (ahd_connect d) (ahd_accepted d) (ahd_read_h d) (ahd_read_min_bytes d) (ahd_write_h d) x
    (ahd_drain d) (remoteEnded d) (paused d) (allowHalfOpen d) (refed d) (writeBuffer d) (readBuffer d) (of_server d).
Definition with_drain (x : option coro) (d : sock) : sock :=
  mkSock (state d) (ahd_connect d) (ahd_accepted d) (ahd_read_h d) (ahd_read_min_bytes d) (ahd_write_h d) (ahd_write_b d)
    x (remoteEnded d) (paused d) (allowHalfOpen d) (refed d) (writeBuffer d) (readBuffer d) (of_server d).
Definition with_flags (re pa rf : bool) (d : sock) : sock :=
  mkSock (state d) (ahd_connect d) (ahd_accepted d) (ahd_read_h d) (ahd_read_min_bytes d) (ahd_write_h d) (ahd_write_b d)
    (ahd_drain d) re pa (allowHalfOpen d) rf (writeBuffer d) (readBuffer d) (of_server d).
Definition with_writeBuffer (x : Cbb.t) (d : sock) : sock :=
  mkSock (state d) (ahd_connect d) (ahd_accepted d) (ahd_read_h d) (ahd_read_min_bytes d) (ahd_write_h d) (ahd_write_b d)
    (ahd_drain d) (remoteEnded d) (paused d) (allowHalfOpen d) (refed d) x (readBuffer d) (of_server d).
Definition with_readBuffer (x : Cbb.t) (d : sock) : sock :=
  mkSock (state d) (ahd_connect d) (ahd_accepted d) (ahd_read_h d) (ahd_read_min_bytes d) (ahd_write_h d) (ahd_write_b d)
    (ahd_drain d) (remoteEnded d) (paused d) (allowHalfOpen d) (refed d) (writeBuffer d) x (of_server d).

(** [(int)size], and then the [size_t] of the call *)
Definition as_int (n : Z) : Z := ((n + 2 ^ 31) mod 2 ^ 32 - 2 ^ 31)%Z.
Definition call_len (size : Z) : Z := (as_int size mod 2 ^ 64)%Z.

Definition isValid (d : sock) : bool := bool_decide (state d ≠ Uninitialized).
Definition is_closing (d : sock) : bool :=
  bool_decide (state d = Closing ∨ state d = ErrorClosing ∨ state d = Closed).
Definition is_ending (d : sock) : bool := bool_decide (state d = LocalEnding ∨ state d = LocalEnded).

(** What a socket reports to its user: the calls of [emit...] together with
    the user handlers of the same name, and the coroutines resumed. *)
Inductive Event : Type :=
  | EvAccepted | EvConnect | EvData (bs : list cell) | EvDrain | EvEnd | EvError | EvClose (err : bool)
  | EvResumed (h : coro) (exn : bool).

Section defs.
Context {Ob T W : Type} `{Countable Ob}.
Context `{!SockTable Ob T, !OS W}.

(** The calls user code makes on a socket. [CWrite2], [CRead], [CDrain] and
    [CConnected] are the awaits of a coroutine [h] ([await_ready], then
    [await_suspend]); [CTake] is the [await_resume] of a read; [CRecvBuffer] is
    what a data handler does to its [Buffer&]; [CReadT] and [CDrainT] are awaits whose
    [await_suspend] also does [arm] (a timer for the time limit); [CHost] is anything
    done outside of the sockets (timers, files); [CDelete] ends the object. *)
Inductive Cmd : Type :=
  | CWrite (o : Ob) (data : list cell)
  | CWrite2 (o : Ob) (b : Buffer.t) (h : coro)
  | CRead (o : Ob) (min_bytes max_bytes : nat) (h : coro)
  | CTake (o : Ob) (max_bytes : nat)
  | CDrain (o : Ob) (h : coro)
  | CConnected (o : Ob) (h : coro)
  | CEnd (o : Ob) | CDestroy (o : Ob)
  | CSetKeepAlive (o : Ob) (b : bool) | CSetNoDelay (o : Ob) (b : bool)
  | CPause (o : Ob) | CResume (o : Ob) | CRef (o : Ob) | CUnref (o : Ob)
  | CRecvBuffer (f : Buffer.t → res Buffer.t)
  | CConnect (o : Ob) (ip : string) (port : Z)
  | CReadT (o : Ob) (min_bytes max_bytes : nat) (h : coro) (arm : W → res W)
  | CDrainT (o : Ob) (h : coro) (arm : W → res W)
  | CHost (f : W → res W)
  | CDelete (o : Ob).

(** [NetSocketManager] with its objects, the table and the operating system.
    [trace] lists what was reported; the code does not read it. *)
Record mgr : Type := mk {
  socks : gmap Ob sock;
  table : T;
  pendingCloseEvents : list (nat * bool);
  pendingAcceptedEvents : list nat;
  recvBuffer : Buffer.t;
  os : W;
  trace : list (Ob * Event);
}.

Definition recvBufferCapacity : nat := 64 * 1024.

Definition with_socks (x : gmap Ob sock) (s : mgr) : mgr :=
  mk x (table s) (pendingCloseEvents s) (pendingAcceptedEvents s) (recvBuffer s) (os s) (trace s).
Definition with_table (x : T) (s : mgr) : mgr :=
  mk (socks s) x (pendingCloseEvents s) (pendingAcceptedEvents s) (recvBuffer s) (os s) (trace s).
Definition with_pending (x : list (nat * bool)) (s : mgr) : mgr :=
  mk (socks s) (table s) x (pendingAcceptedEvents s) (recvBuffer s) (os s) (trace s).
Definition with_pending_accepted (x : list nat) (s : mgr) : mgr :=
  mk (socks s) (table s) (pendingCloseEvents s) x (recvBuffer s) (os s) (trace s).
Definition with_recv (x : Buffer.t) (s : mgr) : mgr :=
  mk (socks s) (table s) (pendingCloseEvents s) (pendingAcceptedEvents s) x (os s) (trace s).
Definition with_os (x : W) (s : mgr) : mgr :=
  mk (socks s) (table s) (pendingCloseEvents s) (pendingAcceptedEvents s) (recvBuffer s) x (trace s).
Definition log (o : Ob) (ev : Event) (s : mgr) : mgr :=
  mk (socks s) (table s) (pendingCloseEvents s) (pendingAcceptedEvents s) (recvBuffer s) (os s) (trace s ++ [(o, ev)]).

(** the object's data; an object that is gone is a dangling reference *)
Definition get (o : Ob) (s : mgr) : res sock :=
  match socks s !! o with Some d => Ok d | None => UB end.
Definition put (o : Ob) (d : sock) (s : mgr) : mgr := with_socks (<[o := d]> (socks s)) s.
Definition idx (o : Ob) (s : mgr) : res nat :=
  match index_of (table s) o with Some i => Ok i | None => UB end.
Definition fd (o : Ob) (s : mgr) : res Z :=
  match socket_of (table s) o with Some x => Ok x | None => UB end.

(** an operation of the table on the entry of [o] *)
Definition on_table (f : nat → T → res T) (o : Ob) (s : mgr) : res mgr :=
  i ← idx o s; t ← f i (table s); Ok (with_table t s).

(** ** OSLayer *)

(** [internal_send_packet]: the outcome and the number of bytes sent. The system
    reads [call_len] bytes from [data]. *)
Definition internal_send_packet (data : list cell) (sk : Z) (w : W) : res (W * (COMMLAYER_RET * nat)) :=
  let len := call_len (Z.of_nat (length data)) in
  REQUIRE bool_decide (len ≤ Z.of_nat (length data))%Z ;;
  let '(w, r) := sys_sendto sk (take (Z.to_nat len) data) w in
  match r with
  | inr WouldBlock => Ok (w, (RET_PENDING, 0))
  | inr Broken => Ok (w, (RET_FAILED, 0))
  | inl sentSize => Ok (w, (if bool_decide (sentSize = length data) then RET_OK else RET_PENDING, sentSize))
  end.

(** [internal_send_packet_object]: its [ret] is not initialised *)
Definition send_writer (sk : Z) (data : list cell) (x : W * option COMMLAYER_RET)
  : res (W * option COMMLAYER_RET * bool * nat) :=
  '(w, (ret, sentSize)) ← internal_send_packet data sk x.1;
  Ok ((w, Some ret), bool_decide (ret = RET_OK) && bool_decide (length data = sentSize), sentSize).

(** [internal_get_packet_bytes2]: the system may write [call_len] bytes to the buffer. *)
Definition internal_get_packet_bytes2 (sk : Z) (buffSz : nat) (w : W)
  : res (W * (COMMLAYER_RET * list u8)) :=
  ASSERT bool_decide (buffSz ≠ 0) ;;
  let len := call_len (Z.of_nat buffSz) in
  REQUIRE bool_decide (len ≤ Z.of_nat buffSz)%Z ;;
  let '(w, r) := sys_recvfrom sk (Z.to_nat len) w in
  match r with
  | inr WouldBlock => Ok (w, (RET_PENDING, []))
  | inr Broken => Ok (w, (RET_FAILED, []))
  | inl bs => Ok (w, (RET_OK, bs))
  end.

(** [internal_read_packet_object] *)
Definition recv_reader (sk : Z) (size : nat) (x : W * option COMMLAYER_RET)
  : res (W * option COMMLAYER_RET * bool * list u8) :=
  '(w, (ret, bs)) ← internal_get_packet_bytes2 sk size x.1;
  Ok ((w, Some ret), bool_decide (ret = RET_OK) && bool_decide (size = length bs), bs).

Definition get_ret_value (x : W * option COMMLAYER_RET) : res COMMLAYER_RET :=
  match x.2 with Some r => Ok r | None => UB end.

(** [infraGetPacketBytes(Buffer&, SOCKET)] *)
Definition infraGetPacketBytes (buff : Buffer.t) (sk : Z) (w : W) : res (Buffer.t * W * bool) :=
  ASSERT bool_decide (Buffer._data buff ≠ None) ;;
  '(w, (ret, bs)) ← internal_get_packet_bytes2 sk (Buffer.capacity buff) w;
  m ← Buffer.memcpy_at 0 (Some <$> bs) buff;
  b ← Buffer.set_size (length bs) (Buffer.mk (Buffer._size buff) (Buffer._capacity buff) (Some m));
  Ok (b, w, bool_decide (ret = RET_OK)).

Definition infraGetPacketBytes2 (buff : Cbb.t) (sk : Z) (target_sz : nat) (w : W) : res (Cbb.t * W * bool) :=
  '(cb, x, _) ← Cbb.read (recv_reader sk) target_sz buff (w, None);
  ret ← get_ret_value x;
  Ok (cb, x.1, bool_decide (ret = RET_OK ∨ ret = RET_PENDING)).

(** [closeSocket] and [errorCloseSocket], of [OSLayer] and of the manager *)
Definition closeSocket (o : Ob) (s : mgr) : res mgr :=
  d ← get o s;
  if is_closing d then Ok s
  else
    i ← idx o s;
    Ok (with_pending (pendingCloseEvents s ++ [(i, false)]) (put o (with_state Closing d) s)).

Definition errorCloseSocket (o : Ob) (s : mgr) : res mgr :=
  d ← get o s;
  if is_closing d then Ok s
  else
    i ← idx o s;
    Ok (with_pending (pendingCloseEvents s ++ [(i, true)]) (put o (with_state ErrorClosing d) s)).

Definition appDestroy (o : Ob) (s : mgr) : res mgr :=
  d ← get o s;
  if negb (isValid d) then Thrown
  else
    sk ← fd o s;
    closeSocket o (with_os (sys_linger_zero sk (os s)) s).

Definition appEnd (o : Ob) (s : mgr) : res mgr :=
  d ← get o s;
  if negb (isValid d) then Thrown
  else if Cbb.empty (writeBuffer d) then
    sk ← fd o s;
    let s := with_os (sys_shutdown_send sk (os s)) s in
    if remoteEnded d then closeSocket o s
    else Ok (put o (with_state LocalEnded d) s)
  else Ok (put o (with_state LocalEnding d) s).

(** [appSetKeepAlive] and [appSetNoDelay] differ in the call they make. *)
Definition appSetOption (sys : Z → bool → W → W * bool) (o : Ob) (enable : bool) (s : mgr) : res mgr :=
  d ← get o s;
  if negb (isValid d) then Thrown
  else
    sk ← fd o s;
    let '(w, succ) := sys sk enable (os s) in
    if (succ : bool) then Ok (with_os w s) else errorCloseSocket o (with_os w s).
Definition appSetKeepAlive := appSetOption sys_keep_alive.
Definition appSetNoDelay := appSetOption sys_no_delay.

(** ** Writing *)
Definition appWrite (o : Ob) (data : list cell) (s : mgr) : res (mgr * bool) :=
  d ← get o s;
  if negb (isValid d) then Thrown
  else if is_ending d then s ← errorCloseSocket o s; Ok (s, false)
  else if bool_decide (Cbb.used_size (writeBuffer d) = 0) then
    sk ← fd o s;
    '(w, (res, sentSize)) ← internal_send_packet data sk (os s);
    let s := with_os w s in
    if bool_decide (res = RET_FAILED) then s ← errorCloseSocket o s; Ok (s, false)
    else if bool_decide (sentSize = length data) then Ok (s, true)
    else
      ASSERT bool_decide (sentSize < length data) ;;
      '(wb, _) ← Cbb.append (drop sentSize data) (writeBuffer d);
      s ← on_table t_setPollout o (put o (with_writeBuffer wb d) s);
      Ok (s, false)
  else
    '(wb, _) ← Cbb.append data (writeBuffer d);
    Ok (put o (with_writeBuffer wb d) s, false).

Definition appWrite2 (o : Ob) (buff : Buffer.t) (s : mgr) : res (mgr * bool) :=
  d ← get o s;
  if negb (isValid d) then Thrown
  else if is_ending d then s ← errorCloseSocket o s; Ok (s, false)
  else
    let data := Buffer.contents buff in
    if bool_decide (Cbb.used_size (writeBuffer d) = 0) then
      sk ← fd o s;
      '(w, (res, sentSize)) ← internal_send_packet data sk (os s);
      let s := with_os w s in
      if bool_decide (res = RET_FAILED) then s ← errorCloseSocket o s; Ok (s, false)
      else if bool_decide (sentSize = Buffer.size buff) then Ok (s, true)
      else
        ASSERT bool_decide (sentSize < Buffer.size buff) ;;
        '(wb, _) ← Cbb.append (drop sentSize data) (writeBuffer d);
        s ← on_table t_setPollout o (put o (with_writeBuffer wb d) s);
        Ok (s, false)
    else if bool_decide (Buffer.size buff ≤ Cbb.remaining_capacity (writeBuffer d)) then
      '(wb, _) ← Cbb.append data (writeBuffer d);
      Ok (put o (with_writeBuffer wb d) s, true)
    else
      ASSERT bool_decide (Buffer.size (ahd_write_b d) = 0) ;;
      Ok (put o (with_write_b (Buffer.move_assign (ahd_write_b d) buff).1 d) s, false).

(** the part of [_infraProcessWriteEvent] after [writeBuffer] was emptied *)
Definition write_done (o : Ob) (s : mgr) : res (mgr * ShouldEmit) :=
  d ← get o s;
  sk ← fd o s;
  '(s, all_done) ←
    (if bool_decide (Buffer.size (ahd_write_b d) ≠ 0) then
       '(w, (res, sentSize)) ← internal_send_packet (Buffer.contents (ahd_write_b d)) sk (os s);
       let s := with_os w s in
       if bool_decide (res = RET_FAILED) then s ← errorCloseSocket o s; Ok (s, true)
       else if bool_decide (sentSize = Buffer.size (ahd_write_b d)) then
         b ← Buffer.clear (ahd_write_b d); Ok (put o (with_write_b b d) s, true)
       else Ok (s, false)
     else Ok (s, true));
  if (all_done : bool) then
    d ← get o s;
    s ← (if bool_decide (state d = LocalEnding) then
           let s := with_os (sys_shutdown_send sk (os s)) s in
           if remoteEnded d then closeSocket o s
           else Ok (put o (with_state LocalEnded d) s)
         else Ok s);
    s ← on_table t_unsetPollout o s;
    Ok (s, EmitDrain)
  else Ok (s, EmitNone).

Definition _infraProcessWriteEvent (o : Ob) (s : mgr) : res (mgr * ShouldEmit) :=
  d ← get o s;
  sk ← fd o s;
  if bool_decide (state d = Connecting) then
    let '(w, success) := sys_so_error sk (os s) in
    let s := with_os w s in
    if (success : bool) then
      let s := put o (with_state Connected d) s in
      ASSERT Cbb.empty (writeBuffer d) ;;
      s ← on_table t_unsetPollout o s;
      Ok (s, EmitConnect)
    else s ← errorCloseSocket o s; Ok (s, EmitNone)
  else if negb (Cbb.empty (writeBuffer d)) then
    '(wb, x, sentSize) ← Cbb.write (send_writer sk) (writeBuffer d) (os s, None);
    let s := with_os x.1 (put o (with_writeBuffer wb d) s) in
    ret ← get_ret_value x;
    if bool_decide (ret = RET_FAILED) then s ← errorCloseSocket o s; Ok (s, EmitNone)
    else if Cbb.empty wb then write_done o s
    else ASSERT bool_decide (sentSize < Cbb.used_size wb) ;; Ok (s, EmitNone)
  else AssertFail.

(** ** Calls of the user *)

(** [~SocketBase] and the end of the object *)
Definition destruct (o : Ob) (s : mgr) : res mgr :=
  d ← get o s;
  s ← (if bool_decide (state d = Connecting ∨ state d = Connected) then appDestroy o s else Ok s);
  s ← on_table (λ i, t_setRefed i false) o s;
  s ← on_table t_setUnused o s;
  Ok (with_table (t_forget o (table s)) (with_socks (delete o (socks s)) s)).

(** [appPause] and [appResume] go through the entry of the object's index. *)
Definition appPause (pause : bool) (o : Ob) (s : mgr) : res mgr :=
  i ← idx o s;
  o' ← t_object_at i (table s);
  d ← get o' s;
  Ok (put o' (with_flags (remoteEnded d) pause (refed d) d) s).

(** [await_resume] of a read: the data goes to a buffer of the user *)
Definition take_read (o : Ob) (min_bytes max_bytes : nat) (s : mgr) : res mgr :=
  d ← get o s;
  out ← Buffer.with_reserve max_bytes;
  '(cb, out) ← Cbb.get_ready_data max_bytes out (readBuffer d);
  ASSERT bool_decide (min_bytes ≤ Buffer.size out) ;;
  Ok (put o (with_readBuffer cb d) s).

(** [OSLayer::appConnectSocket] *)
Definition os_connect (sk : Z) (ip : string) (port : Z) (s : mgr) : res mgr :=
  let '(w, r) := sys_connect sk ip port (os s) in
  match r with
  | None | Some WouldBlock => Ok (with_os w s)
  | Some Broken => Thrown
  end.

Definition appConnectSocket (o : Ob) (ip : string) (port : Z) (s : mgr) : res mgr :=
  d ← get o s;
  sk ← fd o s;
  ASSERT bool_decide (sk ≠ INVALID_SOCKET) ;;
  ASSERT bool_decide (state d = Uninitialized) ;;
  s ← os_connect sk ip port s;
  s ← on_table (λ i, t_setRefed i true) o s;
  s ← on_table t_setAssociated o s;
  s ← on_table t_setPollin o s;
  s ← on_table t_setPollout o s;
  Ok (put o (with_flags (remoteEnded d) (paused d) true (with_state Connecting d)) s).

(** what is done outside of the sockets *)
Definition on_host (f : W → res W) (s : mgr) : res mgr := w ← f (os s); Ok (with_os w s).

Definition run_cmd (c : Cmd) (s : mgr) : res mgr :=
  match c with
  | CWrite o data => '(s, _) ← appWrite o data s; Ok s
  | CWrite2 o b h =>
      '(s, write_ok) ← appWrite2 o b s;
      if (write_ok : bool) then Ok s else d ← get o s; Ok (put o (with_write_h (Some h) d) s)
  | CRead o min_bytes max_bytes h =>
      d ← get o s;
      if bool_decide (min_bytes ≤ Cbb.used_size (readBuffer d)) then take_read o min_bytes max_bytes s
      else Ok (put o (with_read (Some h) min_bytes d) s)
  | CTake o max_bytes => take_read o 0 max_bytes s
  | CDrain o h =>
      d ← get o s;
      if Cbb.empty (writeBuffer d) then Ok s else Ok (put o (with_drain (Some h) d) s)
  | CConnected o h => d ← get o s; Ok (put o (with_connect (Some h) d) s)
  | CEnd o => appEnd o s
  | CDestroy o => appDestroy o s
  | CSetKeepAlive o b => appSetKeepAlive o b s
  | CSetNoDelay o b => appSetNoDelay o b s
  | CPause o => appPause true o s
  | CResume o => appPause false o s
  | CRef o => on_table (λ i, t_setRefed i true) o s
  | CUnref o => on_table (λ i, t_setRefed i false) o s
  | CRecvBuffer f => b ← f (recvBuffer s); Ok (with_recv b s)
  | CConnect o ip port => appConnectSocket o ip port s
  | CReadT o min_bytes max_bytes h arm =>
      d ← get o s;
      if bool_decide (min_bytes ≤ Cbb.used_size (readBuffer d)) then take_read o min_bytes max_bytes s
      else on_host arm (put o (with_read (Some h) min_bytes d) s)
  | CDrainT o h arm =>
      d ← get o s;
      if Cbb.empty (writeBuffer d) then Ok s else on_host arm (put o (with_drain (Some h) d) s)
  | CHost f => on_host f s
  | CDelete o => destruct o s
  end.

Fixpoint run_cmds (cs : list Cmd) (s : mgr) : res mgr :=
  match cs with
  | [] => Ok s
  | c :: cs => s ← run_cmd c s; run_cmds cs s
  end.

(** ** Registering *)
Definition internal_make_tcp_socket (w : W) : W * Z :=
  let '(w, sk) := sys_socket w in
  if bool_decide (sk = INVALID_SOCKET) then (w, INVALID_SOCKET)
  else
    let '(w, async) := sys_ioctl_async sk w in
    if (async : bool) then (w, sk) else (sys_close sk w, INVALID_SOCKET).

Definition registerAndAssignSocket (o : Ob) (sk : Z) (s : mgr) : res mgr :=
  d ← get o s;
  ASSERT bool_decide (state d = Uninitialized) ;;
  t ← t_addEntry o (t_set_socket o sk (table s));
  Ok (with_table t s).

(** [NetSocketManagerBase::appAcquireSocket] *)
Definition appAcquireSocket (o : Ob) (s : mgr) : res mgr :=
  let '(w, sk) := internal_make_tcp_socket (os s) in
  if bool_decide (sk = INVALID_SOCKET) then Thrown
  else registerAndAssignSocket o sk (with_os w s).

Definition infraAddAccepted (o : Ob) (s : mgr) : res mgr :=
  d ← get o s;
  i ← idx o s;
  let s := with_pending_accepted (pendingAcceptedEvents s ++ [i]) (put o (with_state Connected d) s) in
  ASSERT bool_decide (Cbb.used_size (writeBuffer d) = 0) ;;
  s ← on_table t_unsetPollout o s;
  let d := with_flags (remoteEnded d) (paused d) true (with_state Connected d) in
  let s := put o d s in
  _ ← t_object_at i (table s);
  s ← on_table (λ i, t_setRefed i true) o s;
  s ← on_table t_setAssociated o s;
  ASSERT negb (remoteEnded d) ;;
  ASSERT negb (paused d) ;;
  ASSERT bool_decide (state d ≠ Connecting) ;;
  ASSERT Cbb.empty (writeBuffer d) ;;
  on_table t_setPollin o s.

(** ** Events *)
Context (user : Ob → Event → mgr → list Cmd).

Definition emit (o : Ob) (ev : Event) (s : mgr) : res mgr :=
  let s := log o ev s in run_cmds (user o ev s) s.

(** the object of an entry: its pointer is checked *)
Definition get_entry (o : Ob) (s : mgr) : res sock :=
  match socks s !! o with Some d => Ok d | None => AssertFail end.

Definition rrOnAccepted (o : Ob) (s : mgr) : res mgr :=
  d ← get_entry o s;
  match ahd_accepted d with
  | Some h => emit o (EvResumed h false) (put o (with_accepted None d) s)
  | None => emit o EvAccepted s
  end.

Definition rrOnConnected (o : Ob) (s : mgr) : res mgr :=
  d ← get_entry o s;
  match ahd_connect d with
  | Some h => emit o (EvResumed h false) (put o (with_connect None d) s)
  | None => emit o EvConnect s
  end.

Definition rrOnDrain (o : Ob) (s : mgr) : res mgr :=
  d ← get_entry o s;
  match ahd_drain d with
  | Some h => emit o (EvResumed h false) (put o (with_drain None d) s)
  | None => emit o EvDrain s
  end.

Definition rrOnRemoteEnded (o : Ob) (s : mgr) : res mgr :=
  d ← get_entry o s;
  emit o EvEnd (put o (with_flags true (paused d) (refed d) d) s).

Definition infraProcessRemoteEnded (o : Ob) (s : mgr) : res mgr :=
  d ← get_entry o s;
  if negb (remoteEnded d) then
    s ← on_table t_unsetPollin o s;
    s ← rrOnRemoteEnded o s;
    d ← get_entry o s;
    if bool_decide (state d = LocalEnded) then closeSocket o s
    else if negb (allowHalfOpen d) && bool_decide (state d ≠ LocalEnding) then
      if negb (Cbb.empty (writeBuffer d)) then Ok (put o (with_state LocalEnding d) s)
      else
        sk ← fd o s;
        let s := with_os (sys_shutdown_send sk (os s)) s in
        closeSocket o (put o (with_state LocalEnded d) s)
    else Ok s
  else Ok s.

(** the coroutine waiting for data is resumed, with an exception if [exn] *)
Definition resume_reader (o : Ob) (h : coro) (exn : bool) (s : mgr) : res mgr :=
  d ← get_entry o s;
  emit o (EvResumed h exn) (put o (with_read None (ahd_read_min_bytes d) d) s).

Definition infraProcessReadEvent (o : Ob) (s : mgr) : res mgr :=
  d ← get_entry o s;
  sk ← fd o s;
  match ahd_read_h d with
  | Some hr =>
      let required_min_sz := ahd_read_min_bytes d in
      let current_sz := Cbb.used_size (readBuffer d) in
      '(cb, w, read_ok) ← infraGetPacketBytes2 (readBuffer d) sk required_min_sz (os s);
      let s := with_os w (put o (with_readBuffer cb d) s) in
      if negb read_ok then
        let s := with_os (sys_so_error sk (os s)).1 s in
        s ← errorCloseSocket o s;
        resume_reader o hr true s
      else
        let total_received_sz := Cbb.used_size cb in
        if bool_decide (0 < total_received_sz - current_sz) then
          if bool_decide (required_min_sz ≤ total_received_sz) then resume_reader o hr false s else Ok s
        else
          s ← resume_reader o hr (bool_decide (total_received_sz < required_min_sz)) s;
          infraProcessRemoteEnded o s
  | None =>
      b ← Buffer.clear (recvBuffer s);
      '(b, w, res) ← infraGetPacketBytes b sk (os s);
      let s := with_os w (with_recv b s) in
      if (res : bool) then
        if bool_decide (Buffer.size b ≠ 0) then
          s ← emit o (EvData (Buffer.contents b)) s;
          ASSERT bool_decide (Buffer.capacity (recvBuffer s) = recvBufferCapacity) ;;
          Ok s
        else infraProcessRemoteEnded o s
      else
        errorCloseSocket o (with_os (sys_so_error sk (os s)).1 s)
  end.

Definition infraProcessWriteEvent (o : Ob) (s : mgr) : res mgr :=
  _ ← get_entry o s;
  '(s, status) ← _infraProcessWriteEvent o s;
  match status with
  | EmitConnect => rrOnConnected o s
  | EmitDrain => rrOnDrain o s
  | EmitNone => Ok s
  end.

Definition has (revents mask : Z) : bool := bool_decide (Z.land revents mask ≠ 0%Z).

Definition infraCheckPollFdSet (o : Ob) (revents : Z) (s : mgr) : res mgr :=
  d ← get_entry o s;
  if has revents (Z.lor POLLERR POLLNVAL) then
    sk ← fd o s;
    errorCloseSocket o (with_os (sys_so_error sk (os s)).1 s)
  else
    s ← (if has revents POLLIN then
           if negb (paused d) then infraProcessReadEvent o s else Ok s
         else if has revents POLLHUP then infraProcessRemoteEnded o s
         else Ok s);
    if has revents POLLOUT then infraProcessWriteEvent o s else Ok s.

(** [forceReleasingAllCoroHandles] *)
Definition release (handle : sock → option coro) (clear : sock → sock) (o : Ob) (s : mgr) : res mgr :=
  d ← get_entry o s;
  match handle d with
  | Some h => emit o (EvResumed h true) (put o (clear d) s)
  | None => Ok s
  end.

Definition forceReleasingAllCoroHandles (o : Ob) (s : mgr) : res mgr :=
  s ← release ahd_accepted (with_accepted None) o s;
  s ← release ahd_connect (with_connect None) o s;
  s ← release ahd_read_h (λ d, with_read None (ahd_read_min_bytes d) d) o s;
  s ← release ahd_write_h (with_write_h None) o s;
  release ahd_drain (with_drain None) o s.

(** a server deletes its sockets when they are closed *)
Definition onFinalCleanup (o : Ob) (s : mgr) : res mgr :=
  s ← forceReleasingAllCoroHandles o s;
  d ← get_entry o s;
  if of_server d then destruct o s else Ok s.

(** the body of the loop of [infraGetCloseEvent] *)
Definition close_one (i : nat) (s : mgr) : res mgr :=
  if t_isValidId i (table s) then
    u ← t_isUsed i (table s);
    if (u : bool) then
      o ← t_object_at i (table s);
      d ← get_entry o s;
      sk ← fd o s;
      let err := bool_decide (state d = ErrorClosing) in
      s ← (if bool_decide (sk ≠ INVALID_SOCKET) then
             let w := if err then sys_linger_zero sk (os s) else os s in
             t ← t_setSocketClosed i (table s);
             Ok (with_table t (with_os (sys_close sk w) s))
           else Ok s);
      u ← t_isUsed i (table s);
      s ← (if err && u then emit o EvError s else Ok s);
      u ← t_isUsed i (table s);
      s ← (if (u : bool) then emit o (EvClose err) s else Ok s);
      d ← get_entry o s;
      u ← t_isUsed i (table s);
      let s := if (u : bool) then put o (with_state Closed d) s else s in
      s ← onFinalCleanup o s;
      t ← t_resetEntry i (table s);
      Ok (with_table t s)
    else Ok s
  else Ok s.

(** the loop runs over the vector itself: a handler that queues a close event
    invalidates its iterators *)
Fixpoint close_all (es : list (nat * bool)) (s : mgr) : res mgr :=
  match es with
  | [] => Ok s
  | (i, _) :: es =>
      s' ← close_one i s;
      REQUIRE bool_decide (length (pendingCloseEvents s') = length (pendingCloseEvents s)) ;;
      close_all es s'
  end.

Definition infraGetCloseEvent (s : mgr) : res mgr :=
  s ← close_all (pendingCloseEvents s) s;
  Ok (with_pending [] s).

Fixpoint accepted_loop (ids : list nat) (s : mgr) : res mgr :=
  match ids with
  | [] => Ok s
  | i :: ids =>
      s ← (if bool_decide (i < t_size (table s)) then
             o ← t_object_at i (table s);
             u ← t_isUsed i (table s);
             if (u : bool) then rrOnAccepted o s else Ok s
           else Ok s);
      accepted_loop ids s
  end.

Definition infraProcessSockAcceptedEvents (s : mgr) : res mgr :=
  let inisz := length (pendingAcceptedEvents s) in
  s ← accepted_loop (pendingAcceptedEvents s) s;
  Ok (with_pending_accepted (drop inisz (pendingAcceptedEvents s)) s).
End defs.

Arguments Cmd _ _ : clear implicits.
Arguments mgr _ _ _ {_} {_}.
End Tcp.
