(* ===== verification/TcpSocketSpec.v ===== *)
(** * Theorems about the sockets of the event loop

    [Module TcpLaws] states what the socket code relies on: the laws of the
    table of sockets, discharged here for the table of NetRegistry.v, and the
    documented behaviour of the system calls. [Module TcpSpec] holds the theorems:
    the order of the bytes written and read, the life of a socket up to its
    close event, and the cases in which the code fails an assertion or loses
    what it was told. *)

From S2P Require Import Prelude Buffers Circular NetRegistry TcpSocket.
From Stdlib Require Import Lia.

(** ** The laws *)
Module TcpLaws.

(** What the table promises: a live object has an index and a socket; the flags
    of an entry can be changed without disturbing any other live entry. *)
Class SockTableLaws (Ob T : Type) `{!SockTable Ob T} := {
  live : T → Ob → Prop;
  polls_out : T → Ob → bool;
  live_addr t o k : live t o → socket_of t o = Some k → (0 < k)%Z;
  setPollout_law t o i : live t o → index_of t o = Some i →
    ∃ t', t_setPollout i t = Ok t' ∧ polls_out t' o = true ∧
      (∀ o', live t o' → live t' o' ∧ (o' ≠ o → polls_out t' o' = polls_out t o')) ∧
      index_of t' = index_of t ∧ socket_of t' = socket_of t;
  unsetPollout_law t o i : live t o → index_of t o = Some i →
    ∃ t', t_unsetPollout i t = Ok t' ∧ polls_out t' o = false ∧
      (∀ o', live t o' → live t' o' ∧ (o' ≠ o → polls_out t' o' = polls_out t o')) ∧
      index_of t' = index_of t ∧ socket_of t' = socket_of t;
  unsetPollin_law t o i : live t o → index_of t o = Some i →
    ∃ t', t_unsetPollin i t = Ok t' ∧
      (∀ o', live t o' → live t' o' ∧ polls_out t' o' = polls_out t o') ∧
      index_of t' = index_of t ∧ socket_of t' = socket_of t;
  index_kept i t t' o :
    t_setPollout i t = Ok t' ∨ t_unsetPollout i t = Ok t' ∨ t_setPollin i t = Ok t' ∨
    t_unsetPollin i t = Ok t' ∨ t_setAssociated i t = Ok t' ∨ (∃ r, t_setRefed i r t = Ok t') ∨
    t_setUnused i t = Ok t' ∨ t_resetEntry i t = Ok t' →
    index_of t' o = index_of t o;
  index_kept_others t t' o o' : t_addEntry o t = Ok t' ∨ t_forget o t = t' →
    o' ≠ o → index_of t' o' = index_of t o';
  index_kept_socket t o o' k : index_of (t_set_socket o k t) o' = index_of t o';
  unused_law t o a i : live t o → index_of t o = Some i →
    ∃ t1 t2, t_setRefed i false t = Ok t1 ∧ t_setUnused i t1 = Ok t2 ∧ t_isUsed i (t_forget a t2) = Ok false;
  close_law t o i : live t o → index_of t o = Some i →
    t_isValidId i t = true ∧ t_isUsed i t = Ok true ∧ t_object_at i t = Ok o ∧
    ∃ t', t_setSocketClosed i t = Ok t' ∧ t_isUsed i t' = Ok true ∧
      index_of t' = index_of t ∧ socket_of t' = socket_of t ∧
      ∃ t'', t_resetEntry i t' = Ok t'' ∧ t_isUsed i t'' = Ok false;
}.

(** What the system calls promise: [sent] is the stream of bytes a socket has
    accepted, [fin] whether its sending side was shut down, [incoming] what its
    peer has sent and it has not yet delivered. [sendto] takes a prefix of what
    it is offered, [recvfrom] delivers in order and no more than there is room for. *)
Class OSLaws (W : Type) `{!OS W} := {
  sent : Z → W → list cell;
  fin : Z → W → bool;
  incoming : Z → W → list u8;
  sendto_law k d w : let '(w', r) := sys_sendto k d w in
    match r with
    | inl n => n ≤ length d ∧ sent k w' = sent k w ++ take n d
    | inr _ => sent k w' = sent k w
    end ∧ fin k w' = fin k w ∧ incoming k w' = incoming k w;
  recvfrom_law k n w : let '(w', r) := sys_recvfrom k n w in
    match r with
    | inl bs => length bs ≤ n ∧ incoming k w = bs ++ incoming k w'
    | inr _ => incoming k w' = incoming k w
    end ∧ sent k w' = sent k w ∧ fin k w' = fin k w;
  so_error_law k w :
    sent k (sys_so_error k w).1 = sent k w ∧ fin k (sys_so_error k w).1 = fin k w ∧
    incoming k (sys_so_error k w).1 = incoming k w;
  shutdown_law k w :
    sent k (sys_shutdown_send k w) = sent k w ∧ fin k (sys_shutdown_send k w) = true ∧
    incoming k (sys_shutdown_send k w) = incoming k w;
}.
End TcpLaws.

(** ** The cast of a length to [int] *)
Module Casts.
Import Tcp.

Lemma call_len_small n : (0 ≤ n < 2 ^ 31)%Z → call_len n = n.
Proof.
  intros Hn. unfold call_len, as_int. rewrite (Z.mod_small (n + 2 ^ 31)) by lia. rewrite Z.mod_small; lia.
Qed.

Lemma call_len_nonneg n : (0 ≤ call_len n)%Z.
Proof. apply Z.mod_pos_bound. lia. Qed.

(** from 2 GB on the call is given more than there is *)
Lemma call_len_beyond n : (2 ^ 31 ≤ n < 2 ^ 32)%Z → (n < call_len n)%Z.
Proof.
  intros Hn. unfold call_len, as_int.
  replace ((n + 2 ^ 31) mod 2 ^ 32)%Z with (n - 2 ^ 31)%Z.
  - rewrite <-(Z.mod_add _ 1), Z.mod_small; lia.
  - rewrite <-(Z.mod_add _ (-1)), Z.mod_small; lia.
Qed.

Section casts.
Context {W : Type} `{!OS W}.

Lemma internal_send_packet_small data k (w : W) :
  (Z.of_nat (length data) < 2 ^ 31)%Z →
  internal_send_packet data k w =
    let '(w, r) := sys_sendto k data w in
    match r with
    | inr WouldBlock => Ok (w, (RET_PENDING, 0))
    | inr Broken => Ok (w, (RET_FAILED, 0))
    | inl n => Ok (w, (if bool_decide (n = length data) then RET_OK else RET_PENDING, n))
    end.
Proof.
  intros Hl. unfold internal_send_packet. rewrite call_len_small, bool_decide_eq_true_2 by lia.
  by rewrite Nat2Z.id, firstn_all.
Qed.

Lemma internal_send_packet_beyond data k (w : W) :
  (2 ^ 31 ≤ Z.of_nat (length data) < 2 ^ 32)%Z → internal_send_packet data k w = UB.
Proof.
  intros Hl. pose proof (call_len_beyond _ Hl). unfold internal_send_packet.
  rewrite bool_decide_eq_false_2; [done|lia].
Qed.

Lemma internal_get_packet_bytes2_small n k (w : W) :
  0 < n → (Z.of_nat n < 2 ^ 31)%Z →
  internal_get_packet_bytes2 k n w =
    let '(w, r) := sys_recvfrom k n w in
    match r with
    | inr WouldBlock => Ok (w, (RET_PENDING, []))
    | inr Broken => Ok (w, (RET_FAILED, []))
    | inl bs => Ok (w, (RET_OK, bs))
    end.
Proof.
  intros H0 Hl. unfold internal_get_packet_bytes2. rewrite bool_decide_eq_true_2 by lia.
  by rewrite call_len_small, bool_decide_eq_true_2, Nat2Z.id by lia.
Qed.
End casts.
End Casts.

(** ** The table of NetRegistry.v as the table of the sockets *)
Module NetTable.
Import TcpLaws.
Module N := NetRegistry.NetRegistry.
Module NS := NetRegistry.NetRegistrySpec.

Section table.
Context {Ob : Type} `{Countable Ob} (grow : nat → nat).
Implicit Types (t : N.t Ob) (o : Ob) (i : nat).

Definition lookup_entry (i : nat) (t : N.t Ob) : res (N.NetSocketEntry Ob) :=
  p ← N.locate i t; N.get_entry p t.

(** [at(i).getClientSocket()] *)
Definition object_at (i : nat) (t : N.t Ob) : res Ob :=
  e ← N.at_ i t;
  ASSERT N.isValid (N.heap t) e ;;
  ASSERT (match N.objectType e with N.ClientSocket => true | _ => false end) ;;
  match N.ptr e with Some o => Ok o | None => AssertFail end.

#[local] Instance net_table : SockTable Ob (N.t Ob) := {|
  index_of t o := N.obj_index <$> N.heap t !! o;
  socket_of t o := N.osSocket <$> N.heap t !! o;
  t_set_socket o k t := N.with_heap (alter (λ d, N.mkObj (N.obj_index d) k) o (N.heap t)) t;
  t_addEntry o t := N.addEntry grow N.ClientSocket o t;
  t_size t := N.size t;
  t_isValidId i t := N.isValidId i t;
  t_isUsed i t := e ← lookup_entry i t; N.isUsed (N.heap t) e;
  t_object_at i t := object_at i t;
  t_setAssociated i t := N.setAssociated i t;
  t_setPollin i t := N.setPollin i t;
  t_unsetPollin i t := N.unsetPollin i t;
  t_setPollout i t := N.setPollout i t;
  t_unsetPollout i t := N.unsetPollout i t;
  t_setRefed i r t := N.setRefed i r t;
  t_setSocketClosed i t := N.setSocketClosed i t;
  t_resetEntry i t := N.resetEntry i t;
  t_setUnused i t := N.setUnused i t;
  t_forget o t := N.with_heap (delete o (N.heap t)) t;
|}.

(** an object with an entry that is associated or closed, in a table in order *)
Definition live_in (t : N.t Ob) (o : Ob) : Prop :=
  N.wf t ∧ N.fits t ∧ ∃ st r ot f, N.registered t o st r ot f ∧ ot = N.ClientSocket ∧ (st = N.SockAssociated ∨ st = N.SockClosed).

Definition out_flag (f : N.pollfd) : bool := Z.testbit (N.events f) 2.
Definition polls_out_in (t : N.t Ob) (o : Ob) : bool :=
  match N.heap t !! o with
  | Some d => match N.all_fds t !! N.obj_index d with Some f => out_flag f | None => false end
  | None => false
  end.

Lemma live_entry t o : live_in t o →
  ∃ d e f, N.heap t !! o = Some d ∧ 0 < N.obj_index d ∧ N.all_entries t !! N.obj_index d = Some e ∧
    N.all_fds t !! N.obj_index d = Some f ∧ N.ptr e = Some o ∧
    N.objectType e = N.ClientSocket ∧ (N.state e = N.SockAssociated ∨ N.state e = N.SockClosed).
Proof.
  intros (Hwf & Hfits & st & r & ot & f & (i & e & H0 & He & Hf & Hu & Hp & Hs & Hr & Ho) & Hot & Hst).
  destruct (N.wf_indexed _ Hwf _ _ He Hu) as [_ Hix].
  pose proof (N.wf_good _ Hwf _ _ _ H0 He Hf) as Hg. unfold N.good in Hg. rewrite Hu in Hg.
  destruct Hg as (_ & o' & d & Hp' & Hd & _). simplify_eq. specialize (Hix _ _ Hp Hd).
  exists d, e, f. rewrite Hix. split_and!; done.
Qed.

(** changing the events of the entry of a live object *)
Lemma upd_law (g : Z → Z) t o i : live_in t o → N.obj_index <$> N.heap t !! o = Some i →
  ∃ t' f, N.upd_events g i t = Ok t' ∧ N.all_fds t !! i = Some f ∧
    polls_out_in t' o = Z.testbit (g (N.events f)) 2 ∧ polls_out_in t o = out_flag f ∧
    (∀ o', live_in t o' → live_in t' o' ∧ (o' ≠ o → polls_out_in t' o' = polls_out_in t o')) ∧
    N.heap t' = N.heap t.
Proof.
  intros Hl Hi. pose proof Hl as (Hwf & Hfits & _).
  destruct (live_entry t o Hl) as (d & e & f & Hd & H0 & He & Hf & Hp & Hot & Hst).
  rewrite Hd in Hi. simplify_eq/=.
  destruct (N.upd_events_spec t _ e f Hwf Hfits H0 He Hf g Hst) as (t' & Hu & Hwf' & Hh & Hent & Hfds).
  exists t', f. split; [done|]. split; [done|].
  unfold polls_out_in. rewrite Hh, Hd, Hfds. split.
  { rewrite list_lookup_insert_eq; [done|]. by eapply lookup_lt_Some. }
  split; [by rewrite Hf|]. split; [|done]. intros o' Hl'.
  destruct (live_entry t o' Hl') as (d' & e' & f' & Hd' & H0' & He' & Hf' & Hp' & Hot' & Hst').
  assert (Hfits' : N.fits t') by (unfold N.fits in *; by rewrite Hent).
  split.
  - destruct Hl' as (_ & _ & st & r & ot & f0 & (j & e0 & Hj0 & Hej & Hfj & Hrest) & Hs).
    split; [done|]. split; [done|]. exists st, r, ot.
    destruct (decide (j = N.obj_index d)) as [->|Hne].
    + eexists. split; [|exact Hs]. exists (N.obj_index d), e0. rewrite Hent, Hfds. split; [done|].
      split; [done|]. split; [|exact Hrest]. apply list_lookup_insert_eq. by eapply lookup_lt_Some.
    + exists f0. split; [|exact Hs]. exists j, e0. rewrite Hent, Hfds. split; [done|].
      split; [done|]. split; [|exact Hrest]. by rewrite list_lookup_insert_ne.
  - intros Hne. rewrite Hd'. rewrite list_lookup_insert_ne; [done|]. intros Heq. rewrite Heq in He.
    simplify_eq.
Qed.

Lemma lookup_entry_at t i e : N.wf t → 0 < i → N.all_entries t !! i = Some e →
  ∃ p, N.locate i t = Ok p ∧ N.place_at t p i ∧ N.get_entry p t = Ok e ∧ N.isUsed (N.heap t) e = Ok (N.used e).
Proof.
  intros Hwf H0 He. destruct (N.locate_spec i t Hwf H0) as (p & Hl & Hpl); [by eapply lookup_lt_Some|].
  exists p. split_and!; [done..| |].
  - by eapply N.get_entry_at.
  - by apply (N.isUsed_ok _ _ _ Hwf H0 He).
Qed.

Lemma put_entry_locate t p i e e0 : N.locate i t = Ok p → N.get_entry p t = Ok e0 →
  N.locate i (N.put_entry p e t) = Ok p ∧ N.get_entry p (N.put_entry p e t) = Ok e.
Proof.
  intros Hl Hg. split.
  - rewrite <-Hl. unfold N.locate. destruct p; cbn; by rewrite ?length_insert.
  - destruct p as [j|j]; unfold N.get_entry in *; cbn in *.
    + destruct (N.ourSide t !! j) eqn:Hj; [|done]. rewrite list_lookup_insert_eq; [done|].
      by eapply lookup_lt_Some.
    + destruct (N.ourSideAccum t !! j) eqn:Hj; [|done]. rewrite list_lookup_insert_eq; [done|].
      by eapply lookup_lt_Some.
Qed.

(** the life of the entry of a live object from [at] to its reset *)
Lemma closing_entry t o i : live_in t o → index_of t o = Some i →
  t_isValidId i t = true ∧ t_isUsed i t = Ok true ∧ t_object_at i t = Ok o ∧
  ∃ t', t_setSocketClosed i t = Ok t' ∧ t_isUsed i t' = Ok true ∧
    index_of t' = index_of t ∧ socket_of t' = socket_of t ∧
    ∃ t'', t_resetEntry i t' = Ok t'' ∧ t_isUsed i t'' = Ok false.
Proof.
  intros Hl Hi. destruct (live_entry t o Hl) as (d & e & f & Hd & H0 & He & Hf & Hp & Hot & Hst).
  cbn in Hi. rewrite Hd in Hi. simplify_eq/=. set (i := N.obj_index d) in *.
  destruct Hl as (Hwf & Hfits & _).
  assert (Hu : N.used e = true) by (apply bool_decide_eq_true_2; by destruct Hst as [-> | ->]).
  pose proof (lookup_lt_Some _ _ _ He) as Hlt. unfold N.all_entries in Hlt. rewrite length_app in Hlt.
  destruct (lookup_entry_at t i e Hwf H0 He) as (p & Hloc & _ & Hge & Hus).
  destruct (N.setSocketClosed_spec t i e f Hwf Hfits H0 He Hf Hu) as (t' & Hsc & Hwf' & Hh & Hent).
  assert (He' : N.all_entries t' !! i = Some (N.with_state N.SockClosed e)).
  { rewrite Hent. apply list_lookup_insert_eq. unfold N.all_entries. rewrite length_app. lia. }
  destruct (lookup_entry_at t' i _ Hwf' H0 He') as (p' & Hloc' & _ & Hge' & Hus').
  split. { unfold N.isValidId. apply andb_true_iff. split; apply bool_decide_eq_true_2; unfold N.reserved_capacity; lia. }
  unfold lookup_entry. rewrite Hloc. cbn [mbind res_bind]. rewrite Hge. cbn [mbind res_bind].
  rewrite Hus, Hu. split; [done|]. split.
  { unfold object_at, N.at_. rewrite Hloc. cbn [mbind res_bind]. rewrite Hge. cbn [mbind res_bind].
    rewrite Hus, Hu. cbn [mbind res_bind]. rewrite Hot, Hp.
    unfold N.isValid. rewrite Hp. by rewrite bool_decide_eq_true_2. }
  exists t'. split; [done|]. rewrite Hloc'. cbn [mbind res_bind]. rewrite Hge'. cbn [mbind res_bind].
  rewrite Hus', Hh. split; [done|]. split; [done|]. split; [done|].
  destruct (put_entry_locate t' p' i (N.empty_entry i) _ Hloc' Hge') as [Hl2 Hg2].
  exists (N.put_entry p' (N.empty_entry i) t'). unfold N.resetEntry. rewrite Hloc'. split; [done|].
  rewrite Hl2. cbn [mbind res_bind]. by rewrite Hg2.
Qed.

Ltac keep_heap :=
  repeat match goal with
  | H : (_ ≫= _) = Ok _ |- _ => apply bind_Ok_inv in H as (? & _ & H)
  | H : (if ?b then _ else _) = Ok _ |- _ => destruct b; [|done]
  | H : (let '(_, _) := ?x in _) = Ok _ |- _ => destruct x
  | H : Ok _ = Ok _ |- _ => injection H as <-
  end; repeat match goal with p : N.place |- _ => destruct p end; done.

Lemma upd_events_heap g i t t' : N.upd_events g i t = Ok t' → N.heap t' = N.heap t.
Proof. intros Ht. unfold N.upd_events in Ht. keep_heap. Qed.

Lemma new_entry_heap i ot o h e h' o' :
  N.new_entry i ot o h = Ok (e, h') → o' ≠ o → h' !! o' = h !! o'.
Proof.
  unfold N.new_entry. destruct (h !! o); [|done]. case_bool_decide; [|done]. intros [= <- <-] ?.
  by rewrite lookup_insert_ne.
Qed.

Lemma addEntry_heap ot o t t' o' :
  N.addEntry grow ot o t = Ok t' → o' ≠ o → N.heap t' !! o' = N.heap t !! o'.
Proof.
  unfold N.addEntry. intros Ht Hne. case_bool_decide; [|done]. destruct (N.heap t !! o); [|done].
  case_bool_decide; [|done]. apply bind_Ok_inv in Ht as ([j|] & _ & Ht).
  - apply bind_Ok_inv in Ht as ([e h] & He & [= <-]). by rewrite <-(new_entry_heap _ _ _ _ _ _ _ He Hne).
  - case_bool_decide;
      apply bind_Ok_inv in Ht as ([e h] & He & [= <-]); by rewrite <-(new_entry_heap _ _ _ _ _ _ _ He Hne).
Qed.

Lemma wf_other_object t o d : N.wf t → N.heap t !! o = None → N.wf (N.with_heap (<[o := d]> (N.heap t)) t).
Proof.
  intros Hwf Ho. destruct Hwf as [H1 H2 H3 H4 H5 Hgood Hix H8 H9]. constructor; try done.
  - intros i e f Hi He Hf. specialize (Hgood i e f Hi He Hf). unfold N.good in *. destruct (N.used e); [|done].
    destruct Hgood as (Hot & o' & d' & Hp & Hd' & Hrest). split; [done|]. exists o', d'. split; [done|].
    split; [|done]. cbn. rewrite lookup_insert_ne; [done|]. intros ->. congruence.
  - intros i e He Hu. destruct (Hix i e He Hu) as [Hi Hobj]. split; [done|]. intros o' d' Hp Hd'. cbn in Hd'.
    apply (Hobj o' d' Hp). rewrite lookup_insert_ne in Hd'; [done|]. intros ->.
    destruct i as [|i]; [destruct H5 as (e0 & l & Hz & Hz0); unfold N.all_entries in He;
                         change (N.ourSide (N.with_heap _ t)) with (N.ourSide t) in He; rewrite Hz in He; simplify_eq/=; congruence|].
    destruct (N.all_fds t !! S i) as [f|] eqn:Hf.
    + specialize (Hgood (S i) e f ltac:(lia) He Hf). unfold N.good in Hgood. rewrite Hu in Hgood.
      destruct Hgood as (_ & o2 & d2 & Hp2 & Hd2 & _). congruence.
    + apply lookup_ge_None_1 in Hf. apply lookup_lt_Some in He. unfold N.all_fds, N.all_entries in *.
      rewrite length_app in *. cbn in *. lia.
Qed.

Lemma unused_entry t o a i : live_in t o → index_of t o = Some i →
  ∃ t1 t2, t_setRefed i false t = Ok t1 ∧ t_setUnused i t1 = Ok t2 ∧ t_isUsed i (t_forget a t2) = Ok false.
Proof.
  intros Hl Hi. destruct (live_entry t o Hl) as (d & e & f & Hd & H0 & He & Hf & Hp & Hot & Hst).
  cbn in Hi. rewrite Hd in Hi. simplify_eq/=. set (i := N.obj_index d) in *.
  destruct Hl as (Hwf & Hfits & _).
  destruct (N.setRefed_spec t i e f Hwf Hfits H0 He Hf false) as (t1 & Ht1).
  destruct Ht1 as (Hr & Hwf1 & Hh1 & Hfd1 & Hen1); [done|].
  assert (Hlt : i < length (N.all_entries t)) by (by eapply lookup_lt_Some).
  assert (Hfits1 : N.fits t1) by (unfold N.fits in *; by rewrite Hen1, length_insert).
  assert (He1 : N.all_entries t1 !! i = Some (N.mkEntry (N.state e) (N.index e) false (N.objectType e) (N.ptr e)))
    by (rewrite Hen1; by apply list_lookup_insert_eq).
  destruct (N.setUnused_spec grow t1 i _ f Hwf1 Hfits1 H0 He1 (eq_trans (f_equal (.!! i) Hfd1) Hf) Hst)
    as (t2 & Hu & Hwf2 & Hh2 & Hen2).
  exists t1, t2. split; [done|]. split; [done|].
  destruct (lookup_entry_at t2 i (N.entry_setUnused (N.mkEntry (N.state e) (N.index e) false (N.objectType e) (N.ptr e))))
    as (p & Hloc & _ & Hge & _); [done|done| |].
  { rewrite Hen2. apply list_lookup_insert_eq. by rewrite Hen1, length_insert. }
  unfold lookup_entry. change (N.locate i (N.with_heap _ t2)) with (N.locate i t2). rewrite Hloc.
  cbn [mbind res_bind]. change (N.get_entry p (N.with_heap _ t2)) with (N.get_entry p t2). by rewrite Hge.
Qed.

#[local] Instance net_table_laws : SockTableLaws Ob (N.t Ob).
Proof.
  refine {| live := live_in; polls_out := polls_out_in |}.
  - intros t o k Hl Hk. destruct (live_entry t o Hl) as (d & e & f & Hd & H0 & He & Hf & Hp & Hot & Hst).
    cbn in Hk. rewrite Hd in Hk. simplify_eq/=. destruct Hl as (Hwf & _).
    pose proof (N.wf_good _ Hwf _ _ _ H0 He Hf) as Hg. unfold N.good, N.used in Hg.
    rewrite bool_decide_eq_true_2 in Hg by (destruct Hst as [-> | ->]; done).
    destruct Hg as (_ & o' & d' & ? & ? & ? & _). by simplify_eq.
  - intros t o i Hl Hi. destruct (upd_law (λ e, Z.lor e N.POLLOUT) t o i Hl Hi) as (t' & f & ? & ? & Hp & _ & ? & Hh).
    exists t'. cbn. rewrite Hh. split_and!; try done. rewrite Hp. by rewrite Z.lor_spec, orb_true_r.
  - intros t o i Hl Hi.
    destruct (upd_law (λ e, Z.land e (Z.lnot N.POLLOUT)) t o i Hl Hi) as (t' & f & ? & ? & Hp & _ & ? & Hh).
    exists t'. cbn. rewrite Hh. split_and!; try done. rewrite Hp. by rewrite Z.land_spec, andb_false_r.
  - intros t o i Hl Hi.
    destruct (upd_law (λ e, Z.land e (Z.lnot N.POLLIN)) t o i Hl Hi) as (t' & f & ? & ? & Hp & Hp0 & Ho & Hh).
    exists t'. cbn. rewrite Hh. split_and!; try done. intros o' Hl'. destruct (Ho o' Hl') as [Hl2 Hne].
    split; [done|]. destruct (decide (o' = o)) as [->|]; [|by apply Hne].
    rewrite Hp, Hp0. unfold out_flag. rewrite Z.land_spec. by rewrite andb_true_r.
  - intros i t t' o Ht. cbn. assert (N.heap t' = N.heap t) as ->; [|done].
    destruct Ht as [Ht|[Ht|[Ht|[Ht|[Ht|[[r Ht]|[Ht|Ht]]]]]]]; cbn in Ht; [by eapply upd_events_heap..| | | |];
      unfold N.setAssociated, N.setRefed, N.setUnused, N.resetEntry in Ht; keep_heap.
  - intros t t' o o' [Ht| <-] Hne; cbn in *; [|by rewrite lookup_delete_ne].
    by rewrite (addEntry_heap _ _ _ _ _ Ht Hne).
  - intros t o o' k. cbn. destruct (decide (o = o')) as [->|Hne].
    + rewrite lookup_alter_eq. by destruct (N.heap t !! o').
    + by rewrite lookup_alter_ne.
  - apply unused_entry.
  - apply closing_entry.
Defined.
End table.
End NetTable.

(** ** A small system and a table with one socket, for the concrete instances *)
Module TcpExample.
Import Tcp TcpLaws NetTable.

(** a system with one connection: the answers of its next sends are given *)
Record net : Type := mkNet {
  n_sent : list cell; n_fin : bool; n_in : list u8; n_answers : list (nat + io_error); n_ok : bool;
}.
Definition answer (d : list cell) (w : net) : net * (nat + io_error) :=
  match n_answers w with
  | [] => (w, inr WouldBlock)
  | inl q :: qs => let n := q `min` length d in
                   (mkNet (n_sent w ++ take n d) (n_fin w) (n_in w) qs (n_ok w), inl n)
  | inr e :: qs => (mkNet (n_sent w) (n_fin w) (n_in w) qs (n_ok w), inr e)
  end.
Definition deliver (n : nat) (w : net) : net * (list u8 + io_error) :=
  (mkNet (n_sent w) (n_fin w) (drop n (n_in w)) (n_answers w) (n_ok w), inl (take n (n_in w))).

#[export] Instance net_os : OS net := {|
  sys_socket w := (w, 9%Z);
  sys_ioctl_async _ w := (w, true);
  sys_connect _ _ _ w := (w, Some WouldBlock);
  sys_sendto _ d w := answer d w;
  sys_recvfrom _ n w := deliver n w;
  sys_so_error _ w := (w, n_ok w);
  sys_shutdown_send _ w := mkNet (n_sent w) true (n_in w) (n_answers w) (n_ok w);
  sys_linger_zero _ w := w;
  sys_keep_alive _ _ w := (w, true);
  sys_no_delay _ _ w := (w, true);
  sys_close _ w := w;
|}.

#[export] Instance net_os_laws : OSLaws net.
Proof.
  refine {| sent _ w := n_sent w; fin _ w := n_fin w; incoming _ w := n_in w |}.
  - intros k d w. cbn. unfold answer. destruct (n_answers w) as [|[q|e] qs]; cbn; try done.
    split; [|done]. split; [lia|done].
  - intros k n w. cbn. split; [|done]. split; [rewrite length_take; lia|by rewrite take_drop].
  - done.
  - done.
Defined.

(** object 5 with socket 9 at index 1, associated and polled for writing *)
Definition assoc1 : N.t nat :=
  match (t ← N.setAssociated 1 NS.issued1; N.setPollout 1 t) with Ok t => t | _ => NS.empty1 end.

Lemma assoc1_wf : N.wf assoc1.
Proof.
  destruct (N.setAssociated_spec NS.issued1 1 (N.mkEntry N.SockIssued 1 false N.ClientSocket (Some 5))
              (N.mkFd (-9) 0 0)) as (t1 & Hs & Hwf & _).
  { apply NS.issued1_wf. }
  1-5: by vm_compute.
  assert (Ht1 : match N.setAssociated 1 NS.issued1 with Ok t => t | _ => NS.empty1 end = t1) by (by rewrite Hs).
  vm_compute in Ht1.
  destruct (N.upd_events_spec t1 1 (N.mkEntry N.SockAssociated 1 false N.ClientSocket (Some 5)) (N.mkFd 9 0 0))
    with (g := λ e, Z.lor e N.POLLOUT) as (t2 & Hs2 & Hwf2 & _); [done|rewrite <-Ht1; by vm_compute|lia|rewrite <-Ht1; by vm_compute..|by left|].
  unfold assoc1. rewrite Hs. cbn [mbind res_bind]. unfold N.setPollout. by rewrite Hs2.
Qed.

#[export] Instance table1 : SockTable nat (N.t nat) := net_table NS.double.
#[export] Instance table1_laws : SockTableLaws nat (N.t nat) := net_table_laws NS.double.

Lemma assoc1_live : live assoc1 5.
Proof.
  split; [apply assoc1_wf|]. split; [vm_compute; done|].
  exists N.SockAssociated, false, N.ClientSocket, (N.mkFd 9 4 0). split; [|by split; [|left]].
  exists 1. eexists. split_and!; try (vm_compute; reflexivity).
Qed.

(** a manager with the data [d] for object 5, and what it has sent and received *)
Definition mgr1 (d : sock) (w : net) : mgr nat (N.t nat) net :=
  mk {[5 := d]} assoc1 [] [] Buffer.empty_buffer w [].
Definition connected1 : sock := with_state Connected (new_sock false false).
End TcpExample.

Module TcpSpec.
Import Tcp TcpLaws Casts.

Section spec.
Context {Ob T W : Type} `{Countable Ob}.
Context `{!SockTable Ob T, !OS W, !SockTableLaws Ob T, !OSLaws W}.
Implicit Types (s : mgr Ob T W) (o : Ob) (d : sock) (i : nat) (k : Z) (w : W).

(** a read buffer, whose array stays at [2 ^ 12] bytes in the program: a length below 2 GB fits an [int] *)
Definition readable (cb : Cbb.t) : Prop := Cbb.wf cb ∧ Cbb.size_exp cb < 32.

Lemma readable_new : readable (Cbb.fresh_ring 12).
Proof. split; [apply Cbb.create_spec|cbn; lia]. Qed.

(** A socket with its data, its index and its number: what every handler of
    the manager starts from. *)
Record ready (s : mgr Ob T W) (o : Ob) (d : sock) (i : nat) (k : Z) : Prop := {
  r_sock : socks s !! o = Some d;
  r_live : live (table s) o;
  r_index : index_of (table s) o = Some i;
  r_socket : socket_of (table s) o = Some k;
  r_wbuf : Cbb.wf (writeBuffer d);
  r_rbuf : readable (readBuffer d);
}.

(** the bytes of [o] that were accepted by [write] and are not lost: sent, then
    buffered, then waiting for room in the buffer *)
Definition stream (k : Z) (d : sock) (w : W) : list cell :=
  sent k w ++ Cbb.contents (writeBuffer d) ++ Buffer.contents (ahd_write_b d).

(** data waits to be sent only while the socket polls for writing *)
Definition out_inv (s : mgr Ob T W) (o : Ob) (d : sock) : Prop :=
  Cbb.contents (writeBuffer d) ≠ [] → polls_out (table s) o = true.

(** [o] was not closing and now waits for its error to be reported, or was
    closing already *)
Definition error_closing (s s' : mgr Ob T W) (o : Ob) (d : sock) (i : nat) : Prop :=
  if is_closing d then socks s' = socks s ∧ pendingCloseEvents s' = pendingCloseEvents s
  else socks s' = <[o := with_state ErrorClosing d]> (socks s) ∧
       pendingCloseEvents s' = pendingCloseEvents s ++ [(i, true)].

Lemma ready_get s o d i k : ready s o d i k → get o s = Ok d ∧ get_entry o s = Ok d ∧ idx o s = Ok i ∧ fd o s = Ok k.
Proof. intros [Hs _ Hi Hk _ _]. unfold get, get_entry, idx, fd. by rewrite Hs, Hi, Hk. Qed.

Lemma ready_os s o d i k w : ready s o d i k → ready (with_os w s) o d i k.
Proof. intros []. by constructor. Qed.

Lemma ready_put s o d d' i k :
  ready s o d i k → Cbb.wf (writeBuffer d') → readable (readBuffer d') → ready (put o d' s) o d' i k.
Proof. intros [] ??. constructor; try done. unfold put, with_socks; cbn [socks]. apply lookup_insert_eq. Qed.

Lemma used_size_contents cb : Cbb.wf cb → Cbb.used_size cb = length (Cbb.contents cb).
Proof. intros. symmetry. by apply Cbb.length_ring_contents. Qed.

Lemma empty_contents cb : Cbb.wf cb → Cbb.empty cb = bool_decide (Cbb.contents cb = []).
Proof.
  intros Hwf. pose proof (used_size_contents cb Hwf) as Hu. pose proof Hwf as (Hl & Hb & He).
  unfold Cbb.used_size in Hu. unfold Cbb.empty. apply bool_decide_ext.
  rewrite <-length_zero_iff_nil, <-Hu. case_bool_decide; lia.
Qed.

Lemma errorCloseSocket_spec s o d i k :
  ready s o d i k → ∃ s', errorCloseSocket o s = Ok s' ∧ error_closing s s' o d i ∧
    table s' = table s ∧ os s' = os s ∧ trace s' = trace s.
Proof.
  intros Hr. destruct (ready_get _ _ _ _ _ Hr) as (Hg & _ & Hi & _).
  unfold errorCloseSocket, error_closing. rewrite Hg. cbn [mbind res_bind].
  destruct (is_closing d); [by eexists|]. rewrite Hi. cbn [mbind res_bind]. by eexists.
Qed.

Lemma on_table_setPollout s o d i k :
  ready s o d i k → ∃ s', on_table t_setPollout o s = Ok s' ∧ ready s' o d i k ∧
    polls_out (table s') o = true ∧ s' = with_table (table s') s.
Proof.
  intros Hr. pose proof Hr as [Hs Hl Hi Hk ? ?]. destruct (ready_get _ _ _ _ _ Hr) as (_ & _ & Hx & _).
  destruct (setPollout_law _ _ _ Hl Hi) as (t' & Ht & Ho & Hlv & Hix & Hsk).
  unfold on_table. rewrite Hx. cbn [mbind res_bind]. rewrite Ht. cbn [mbind res_bind].
  eexists. split; [done|]. split; [|done]. destruct (Hlv o Hl). constructor; cbn; congruence || done.
Qed.

Lemma on_table_unsetPollout s o d i k :
  ready s o d i k → ∃ s', on_table t_unsetPollout o s = Ok s' ∧ ready s' o d i k ∧
    polls_out (table s') o = false ∧ s' = with_table (table s') s.
Proof.
  intros Hr. pose proof Hr as [Hs Hl Hi Hk ? ?]. destruct (ready_get _ _ _ _ _ Hr) as (_ & _ & Hx & _).
  destruct (unsetPollout_law _ _ _ Hl Hi) as (t' & Ht & Ho & Hlv & Hix & Hsk).
  unfold on_table. rewrite Hx. cbn [mbind res_bind]. rewrite Ht. cbn [mbind res_bind].
  eexists. split; [done|]. split; [|done]. destruct (Hlv o Hl). constructor; cbn; congruence || done.
Qed.

(** the outcomes of [internal_send_packet] *)
Inductive send_outcome (k : Z) (data : list cell) (w w' : W) : COMMLAYER_RET → nat → Prop :=
  | send_failed : sent k w' = sent k w → send_outcome k data w w' RET_FAILED 0
  | send_some r n : r ≠ RET_FAILED → n ≤ length data → (r = RET_OK ↔ n = length data) ∨ n = 0 →
      sent k w' = sent k w ++ take n data → send_outcome k data w w' r n.

Lemma internal_send_packet_spec k data w :
  (Z.of_nat (length data) < 2 ^ 31)%Z →
  ∃ w' r n, internal_send_packet data k w = Ok (w', (r, n)) ∧ send_outcome k data w w' r n ∧
            fin k w' = fin k w ∧ incoming k w' = incoming k w.
Proof.
  intros Hlen. rewrite internal_send_packet_small by done. pose proof (sendto_law k data w) as Hl.
  destruct (sys_sendto k data w) as [w' [n|[|]]]; destruct Hl as (Hs & ? & ?).
  - destruct Hs as [Hn Hs]. eexists _, _, _. split; [done|]. split; [|done].
    apply send_some; [by case_bool_decide|done| |done]. left. case_bool_decide; split; congruence.
  - eexists _, _, _. split; [done|]. split; [|done]. apply send_some; [done|lia|by right|].
    by rewrite take_0, app_nil_r.
  - eexists _, _, _. split; [done|]. split; [|done]. by apply send_failed.
Qed.

(** C13. [write] of less than 2^31 bytes, which the system counts in an [int],
    keeps the bytes in order and loses none: either the system refuses
    and the socket starts closing with an error, or the bytes sent followed by
    the bytes buffered are those of before followed by the new data, whatever
    part of it the system takes; bytes that are left in the buffer have the
    socket poll for writing, and [true] is returned when none are. *)
Theorem appWrite_in_order s o d i k (data : list cell) :
  ready s o d i k → isValid d = true → is_ending d = false → out_inv s o d →
  Buffer.contents (ahd_write_b d) = [] →
  Cbb.used_size (writeBuffer d) + length data < 2 ^ Cbb.max_allowed_size_exp →
  (Z.of_nat (length data) < 2 ^ 31)%Z →
  ∃ s' r, appWrite o data s = Ok (s', r) ∧
    ((r = false ∧ error_closing s s' o d i ∧ sent k (os s') = sent k (os s)) ∨
     ∃ d', ready s' o d' i k ∧ stream k d' (os s') = stream k d (os s) ++ data ∧
       out_inv s' o d' ∧ (r = true → Cbb.contents (writeBuffer d') = []) ∧
       d' = with_writeBuffer (writeBuffer d') d ∧ fin k (os s') = fin k (os s) ∧
       pendingCloseEvents s' = pendingCloseEvents s).
Proof.
  intros Hr Hv He Hout Hb Hfit Hint. pose proof Hr as [_ _ _ _ Hw Hrb].
  destruct (ready_get _ _ _ _ _ Hr) as (Hg & _ & _ & Hk).
  unfold appWrite. rewrite Hg. cbn [mbind res_bind]. rewrite Hv, He. cbn [negb].
  destruct (bool_decide_reflect (Cbb.used_size (writeBuffer d) = 0)) as [Hz|Hz].
  - rewrite Hk. cbn [mbind res_bind].
    destruct (internal_send_packet_spec k data (os s) Hint) as (w' & r & n & -> & Hso & Hfin & _).
    cbn [mbind res_bind].
    assert (Hc : Cbb.contents (writeBuffer d) = []).
    { apply length_zero_iff_nil. by rewrite <-used_size_contents. }
    destruct Hso as [Hsent|r n Hrf Hn Hrn Hsent].
    { cbn [bool_decide]. rewrite bool_decide_eq_true_2 by done.
      destruct (errorCloseSocket_spec _ _ _ _ _ (ready_os _ _ _ _ _ w' Hr)) as (s' & -> & Hec & _ & Hos & _).
      cbn [mbind res_bind]. eexists _, _. split; [done|]. left. by rewrite Hos. }
    rewrite bool_decide_eq_false_2 by done.
    destruct (bool_decide_reflect (n = length data)) as [->|Hne].
    + eexists _, _. split; [done|]. right. exists d. split; [by apply ready_os|].
      unfold stream; cbn [os with_os]. rewrite Hsent, Hc, Hb, firstn_all. simpl. rewrite !app_nil_r.
      split_and!; try done; by destruct d.
    + rewrite bool_decide_eq_true_2 by lia.
      destruct (Cbb.ring_append_spec (drop n data) (writeBuffer d) Hw) as [[_ Hbig]|(cb' & -> & Hw' & Hc')].
      { exfalso. eapply Nat.lt_irrefl, Nat.lt_le_trans; [exact Hfit|]. etrans; [exact Hbig|].
        rewrite length_drop. lia. }
      cbn [mbind res_bind].
      pose proof (ready_put _ _ _ (with_writeBuffer cb' d) _ _ (ready_os _ _ _ _ _ w' Hr) Hw' Hrb) as Hr2.
      destruct (on_table_setPollout _ _ _ _ _ Hr2) as (s' & -> & Hr3 & Hpo & Heq). cbn [mbind res_bind].
      eexists _, _. split; [done|]. right. exists (with_writeBuffer cb' d). split; [done|].
      unfold stream, out_inv. rewrite Heq; cbn.
      rewrite Hsent, Hc', Hc, Hb. simpl. rewrite !app_nil_r, <-app_assoc, take_drop. split_and!; try done.
  - destruct (Cbb.ring_append_spec data (writeBuffer d) Hw) as [[_ Hbig]|(cb' & -> & Hw' & Hc')].
    { exfalso. eapply Nat.lt_irrefl, Nat.lt_le_trans; [exact Hfit|exact Hbig]. }
    cbn [mbind res_bind]. eexists _, _. split; [done|]. right. exists (with_writeBuffer cb' d).
    split; [by eapply ready_put|]. unfold stream, out_inv; cbn. rewrite Hc', Hb, !app_nil_r, app_assoc.
    split_and!; try done. intros _. apply Hout. intros Hc. apply Hz.
    by rewrite used_size_contents, Hc.
Qed.

(** ** The write event *)

(** data that does not wrap is offered to the system in one piece *)
Lemma write_contiguous k (cb : Cbb.t) w :
  Cbb.wf cb → Cbb.begin_ cb < Cbb.end_ cb → (Z.of_nat (Cbb.used_size cb) < 2 ^ 31)%Z →
  ∃ w' r n cb', internal_send_packet (Cbb.contents cb) k w = Ok (w', (r, n)) ∧
    send_outcome k (Cbb.contents cb) w w' r n ∧ fin k w' = fin k w ∧ Cbb.wf cb' ∧
    Cbb.write (send_writer k) cb (w, None) = Ok (cb', (w', Some r), n) ∧
    Cbb.contents cb' = drop n (Cbb.contents cb) ∧ Cbb.begin_ cb' ≤ Cbb.end_ cb'.
Proof.
  intros Hwf Hlt Hint. pose proof Hwf as (Hm & Hb & He).
  pose proof (used_size_contents cb Hwf) as Hu. rewrite Hu in Hint. unfold Cbb.used_size in Hu.
  rewrite bool_decide_eq_true_2 in Hu by lia.
  destruct (internal_send_packet_spec k (Cbb.contents cb) w Hint) as (w' & r & n & Hs & Hso & Hf & _).
  assert (Hn : n ≤ length (Cbb.contents cb)) by (destruct Hso; lia).
  destruct (Cbb.pop_spec n cb Hwf Hn) as [Hw' Hc']; [lia|].
  eexists w', r, n, _. split; [done|]. split; [done|]. split; [done|]. split; [exact Hw'|].
  split; [|split; [exact Hc'|cbn; lia]].
  unfold Cbb.write. rewrite bool_decide_eq_true_2 by done. rewrite Hu.
  rewrite Cbb.peek_spec by (done || lia). cbn [mbind res_bind]. rewrite firstn_all.
  unfold send_writer. cbn [fst]. by rewrite Hs.
Qed.

(** [o] after everything was sent: a socket that was ending has shut down its
    sending side, and is closing if its peer has ended too *)
Definition drained (s s' : mgr Ob T W) (o : Ob) (d : sock) (i : nat) (k : Z) (wb : Cbb.t) : Prop :=
  ∃ d', ready s' o d' i k ∧ writeBuffer d' = wb ∧ polls_out (table s') o = false ∧
    if bool_decide (state d = LocalEnding)
    then fin k (os s') = true ∧ state d' = (if remoteEnded d then Closing else LocalEnded) ∧
         pendingCloseEvents s' = pendingCloseEvents s ++ (if remoteEnded d then [(i, false)] else [])
    else fin k (os s') = fin k (os s) ∧ state d' = state d ∧
         pendingCloseEvents s' = pendingCloseEvents s.

Lemma write_done_spec s o d i k :
  ready s o d i k → Buffer.size (ahd_write_b d) = 0 →
  ∃ s', write_done o s = Ok (s', EmitDrain) ∧ drained s s' o d i k (writeBuffer d) ∧
        sent k (os s') = sent k (os s).
Proof.
  intros Hr Hb. pose proof Hr as [_ _ _ _ Hw Hrb]. destruct (ready_get _ _ _ _ _ Hr) as (Hg & _ & _ & Hk).
  unfold write_done. rewrite Hg. cbn [mbind res_bind]. rewrite Hk. cbn [mbind res_bind].
  rewrite bool_decide_eq_false_2 by (intros Hn; by apply Hn). cbn [mbind res_bind]. rewrite Hg. cbn [mbind res_bind].
  destruct (shutdown_law k (os s)) as (Hss & Hsf & _).
  destruct (bool_decide_reflect (state d = LocalEnding)) as [Hst|Hst].
  - set (s1 := with_os _ s).
    assert (Hr1 : ready s1 o d i k) by (by apply ready_os).
    destruct (ready_get _ _ _ _ _ Hr1) as (Hg1 & _ & Hi1 & _).
    destruct (remoteEnded d) eqn:Hre; cbn [mbind res_bind].
    + unfold closeSocket. rewrite Hg1. cbn [mbind res_bind].
      assert (is_closing d = false) as -> by (apply bool_decide_eq_false_2; rewrite Hst; naive_solver).
      rewrite Hi1. cbn [mbind res_bind].
      assert (Hr2 : ready (with_pending (pendingCloseEvents s1 ++ [(i, false)]) (put o (with_state Closing d) s1))
                      o (with_state Closing d) i k).
      { pose proof (ready_put s1 o d (with_state Closing d) i k Hr1 Hw Hrb) as []. by constructor. }
      destruct (on_table_unsetPollout _ _ _ _ _ Hr2) as (s' & -> & Hr3 & Hpo & Heq). cbn [mbind res_bind].
      eexists. split; [done|]. split; [|rewrite Heq; exact Hss].
      exists (with_state Closing d). rewrite bool_decide_eq_true_2, Hre by done. split_and!; try done; rewrite Heq; done.
    + pose proof (ready_put s1 o d (with_state LocalEnded d) i k Hr1 Hw Hrb) as Hr2.
      destruct (on_table_unsetPollout _ _ _ _ _ Hr2) as (s' & -> & Hr3 & Hpo & Heq). cbn [mbind res_bind].
      eexists. split; [done|]. split; [|rewrite Heq; exact Hss].
      exists (with_state LocalEnded d). rewrite bool_decide_eq_true_2, Hre, app_nil_r by done.
      split_and!; try done; rewrite Heq; done.
  - cbn [mbind res_bind].
    destruct (on_table_unsetPollout _ _ _ _ _ Hr) as (s' & -> & Hr3 & Hpo & Heq). cbn [mbind res_bind].
    eexists. split; [done|]. split; [|by rewrite Heq].
    exists d. rewrite bool_decide_eq_false_2 by done. split_and!; try done; rewrite Heq; done.
Qed.

(** C14. What a write event of a connected socket does with less than 2^31 bytes of
    data that do not wrap around and no write waiting behind them: (1) the system refuses and the socket starts closing
    with an error; (2) everything is sent, in order: the socket stops polling
    for writing, the drain is reported, and only now a socket that was ending
    shuts down its sending side (and closes if its peer has ended);
    (3) less than half is sent: the rest stays, in order, to be sent later;
    (4) half or more but not all is sent, and the assertion at the end fails,
    since it compares what was sent with what is left. *)
Theorem write_event_in_order s o d i k :
  ready s o d i k → state d ≠ Connecting → out_inv s o d →
  Cbb.begin_ (writeBuffer d) < Cbb.end_ (writeBuffer d) → Buffer.size (ahd_write_b d) = 0 →
  (Z.of_nat (Cbb.used_size (writeBuffer d)) < 2 ^ 31)%Z →
  let queued := Cbb.contents (writeBuffer d) in
  ∃ w' r n, internal_send_packet queued k (os s) = Ok (w', (r, n)) ∧ n ≤ length queued ∧
  match _infraProcessWriteEvent o s with
  | Ok (s', EmitNone) =>
      r = RET_FAILED ∧ sent k (os s') = sent k (os s) ∧
        (∃ wb, Cbb.contents wb = queued ∧
               error_closing (put o (with_writeBuffer wb d) s) s' o (with_writeBuffer wb d) i) ∨
      r ≠ RET_FAILED ∧ 2 * n < length queued ∧
        (∃ d', ready s' o d' i k ∧ sent k (os s') ++ Cbb.contents (writeBuffer d') = sent k (os s) ++ queued ∧
               length (Cbb.contents (writeBuffer d')) = length queued - n ∧ out_inv s' o d' ∧
               d' = with_writeBuffer (writeBuffer d') d)
  | Ok (s', EmitDrain) =>
      n = length queued ∧ sent k (os s') = sent k (os s) ++ queued ∧
      ∃ wb, Cbb.contents wb = [] ∧ drained s s' o d i k wb
  | AssertFail => r ≠ RET_FAILED ∧ length queued ≤ 2 * n ∧ n < length queued
  | _ => False
  end.
Proof.
  intros Hr Hst Hout Hlt Hb Hint queued. pose proof Hr as [_ _ _ _ Hw Hrb].
  destruct (ready_get _ _ _ _ _ Hr) as (Hg & _ & _ & Hk).
  destruct (write_contiguous k _ (os s) Hw Hlt Hint) as (w' & r & n & wb & Hs & Hso & Hfin & Hw' & Hwr & Hc' & _).
  fold queued in Hs, Hso, Hc'.
  assert (Hn : n ≤ length queued) by (destruct Hso; lia).
  exists w', r, n. split; [done|]. split; [done|].
  unfold _infraProcessWriteEvent. rewrite Hg. cbn [mbind res_bind]. rewrite Hk. cbn [mbind res_bind].
  rewrite bool_decide_eq_false_2 by done.
  assert (Cbb.empty (writeBuffer d) = false) as ->.
  { unfold Cbb.empty. apply bool_decide_eq_false_2. lia. }
  cbn [negb]. rewrite Hwr. cbn [mbind res_bind fst]. unfold get_ret_value. cbn [snd mbind res_bind].
  set (d1 := with_writeBuffer wb d).
  assert (Hr1 : ready (with_os w' (put o d1 s)) o d1 i k) by (apply ready_os; by eapply ready_put).
  destruct Hso as [Hsent|r n Hrf Hn' Hrn Hsent].
  - rewrite bool_decide_eq_true_2 by done.
    destruct (errorCloseSocket_spec _ _ _ _ _ Hr1) as (s' & -> & Hec & _ & Hos & _). cbn [mbind res_bind].
    left. split_and!; [done|by rewrite Hos|]. exists wb. split; [by rewrite Hc', drop_0|exact Hec].
  - rewrite bool_decide_eq_false_2 by done. rewrite empty_contents by done. rewrite Hc'.
    destruct (bool_decide_reflect (drop n queued = [])) as [Hd|Hd].
    + assert (n = length queued) as ->.
      { apply (f_equal length) in Hd. rewrite length_drop in Hd. simpl in Hd. lia. }
      destruct (write_done_spec _ _ _ _ _ Hr1 Hb) as (s' & -> & Hdr & Hs').
      split; [done|]. split.
      { rewrite Hs'. cbn [os with_os]. rewrite Hsent. by rewrite firstn_all. }
      exists wb. split; [by rewrite Hc'|]. destruct Hdr as (d' & Hr' & Hwb & Hpo & Hcase).
      exists d'. split_and!; try done. cbn in Hcase. rewrite Hfin in Hcase. exact Hcase.
    + assert (Hlt' : n < length queued).
      { destruct (decide (n = length queued)) as [->|]; [|lia]. by rewrite drop_all in Hd. }
      rewrite used_size_contents by done. rewrite Hc', length_drop.
      destruct (bool_decide_reflect (n < length queued - n)) as [Hh|Hh]; [|split_and!; done || lia].
      right. split_and!; [done|lia|]. exists d1. split; [done|]. unfold d1; cbn [writeBuffer with_writeBuffer].
      rewrite Hc', length_drop. split_and!; try done.
      * cbn. by rewrite Hsent, <-app_assoc, take_drop.
      * intros _. cbn. apply Hout. intros Hq. fold queued in Hq. rewrite Hq in Hlt'. simpl in Hlt'. lia.
Qed.

(** ** The read event *)
Lemma below_int (cb : Cbb.t) n : readable cb → n < Cbb.alloc_size cb → (Z.of_nat n < 2 ^ 31)%Z.
Proof.
  intros [_ He] Hn. unfold Cbb.alloc_size in Hn.
  apply Nat2Z.inj_lt in Hn. rewrite Nat2Z.inj_pow in Hn. eapply Z.lt_le_trans; [exact Hn|].
  change (Z.of_nat 2) with 2%Z. apply Z.pow_le_mono_r; lia.
Qed.

Lemma recv_reader_law k n : (Z.of_nat n < 2 ^ 31)%Z →
  CbbSpec.reader_law_at (recv_reader k) (λ x : W * option COMMLAYER_RET, incoming k x.1) n.
Proof.
  intros Hn [w r]. unfold recv_reader. cbn [fst]. destruct (decide (n = 0)) as [->|H0]; [done|].
  rewrite internal_get_packet_bytes2_small by lia. pose proof (recvfrom_law k n w) as Hl.
  destruct (sys_recvfrom k n w) as [w' [bs|[|]]]; destruct Hl as (Hl & _); cbn; split_and!; try done; try lia.
  - intros Hb. by apply bool_decide_eq_true_1 in Hb.
  - by destruct Hl.
Qed.

Lemma recv_reader_returns k n (x : W * option COMMLAYER_RET) :
  0 < n → (Z.of_nat n < 2 ^ 31)%Z → is_ok (recv_reader k n x) = true.
Proof.
  intros H0 Hn. unfold recv_reader. rewrite internal_get_packet_bytes2_small by done.
  by destruct (sys_recvfrom k n x.1) as [w' [bs|[|]]].
Qed.

(** every call of the reader leaves an outcome to look at *)
Lemma read_leaves_outcome k target cb (w : W) cb' x n :
  Cbb.read (recv_reader k) target cb (w, None) = Ok (cb', x, n) →
  ∃ r, x.2 = Some r ∧ sent k x.1 = sent k w ∧ fin k x.1 = fin k w.
Proof.
  assert (Hone : ∀ m (y y' : W * option COMMLAYER_RET) can bs, recv_reader k m y = Ok (y', can, bs) →
    ∃ r, y'.2 = Some r ∧ sent k y'.1 = sent k y.1 ∧ fin k y'.1 = fin k y.1).
  { intros m y y' can bs. unfold recv_reader, internal_get_packet_bytes2. do 2 (case_bool_decide; [|done]).
    pose proof (recvfrom_law k (Z.to_nat (call_len (Z.of_nat m))) y.1) as Hl. destruct (sys_recvfrom k _ y.1) as [w' [b|[|]]];
      destruct Hl as (_ & ? & ?); cbn; intros [= <- <- <-]; eauto. }
  unfold Cbb.read. case_bool_decide.
  - intros Hr. apply bind_Ok_inv in Hr as ([[y can] bs] & Hy & Hr). apply Hone in Hy.
    apply bind_Ok_inv in Hr as (m & _ & [= <- <- <-]). exact Hy.
  - intros Hr. apply bind_Ok_inv in Hr as ([[y can] bs] & Hy & Hr). apply Hone in Hy as (r & Hr0 & Hs0 & Hf0).
    apply bind_Ok_inv in Hr as (m & _ & Hr).
    repeat match type of Hr with context [if ?b then _ else _] => destruct b end; try done;
      try (injection Hr as <- <- <-; eauto; fail).
    all: apply bind_Ok_inv in Hr as ([[y2 can2] bs2] & Hy2 & Hr); apply Hone in Hy2 as (r2 & Hr2 & Hs2 & Hf2);
      apply bind_Ok_inv in Hr as (m2 & _ & [= <- <- <-]); exists r2; rewrite Hs2, Hf2; eauto.
Qed.

Lemma infraGetPacketBytes2_spec k target cb w :
  readable cb → 0 < Cbb.remaining_capacity cb →
  ∃ cb' w' bs ret, infraGetPacketBytes2 cb k target w = Ok (cb', w', ret) ∧ readable cb' ∧
    Cbb.contents cb' = Cbb.contents cb ++ (Some <$> bs) ∧ incoming k w = bs ++ incoming k w' ∧
    sent k w' = sent k w ∧ fin k w' = fin k w.
Proof.
  intros Hrd Hroom. pose proof Hrd as [Hwf Hexp].
  pose proof (CbbSpec.read_lossless (recv_reader k) _ target cb (w, None)
                (λ n Hn, recv_reader_law k n (below_int cb n Hrd Hn)) Hwf) as Hl.
  pose proof (CbbSpec.read_returns (recv_reader k) _ target cb (w, None)
                (λ n Hn, recv_reader_law k n (below_int cb n Hrd Hn))
                (λ n x H0 Hn, recv_reader_returns k n x H0 (below_int cb n Hrd Hn)) Hwf Hroom) as Hr.
  destruct (Cbb.read (recv_reader k) target cb (w, None)) as [[[cb' x] n]| | | |] eqn:Hread; try done.
  destruct Hl as (Hwf' & Hlen & Hall). pose proof (CbbSpec.read_keeps_size _ _ _ _ _ _ _ Hread) as Hexp'.
  destruct (read_leaves_outcome _ _ _ _ _ _ _ Hread) as (r & Hx & Hs & Hf).
  assert (Hsplit : ∃ bs, incoming k w = bs ++ incoming k x.1 ∧
                         Cbb.contents cb' = Cbb.contents cb ++ (Some <$> bs)).
  { cbn in Hall.
    exists (take (length (incoming k w) - length (incoming k x.1)) (incoming k w)).
    assert (Hle : length (incoming k w) = length (incoming k x.1) + n).
    { apply (f_equal length) in Hall. rewrite !length_app, !length_fmap in Hall. lia. }
    assert (Hc : Cbb.contents cb' = Cbb.contents cb ++ (Some <$> take n (incoming k w)) ∧
                 incoming k x.1 = drop n (incoming k w)).
    { rewrite <-(take_drop n (incoming k w)), fmap_app, app_assoc in Hall.
      apply app_inj_1 in Hall as [Ha Hb]; [|rewrite length_app, length_fmap, length_take; lia].
      split; [done|]. by apply (inj (fmap Some)) in Hb. }
    destruct Hc as [Hc1 Hc2]. replace (length (incoming k w) - length (incoming k x.1)) with n by lia.
    split; [|done]. by rewrite Hc2, take_drop. }
  destruct Hsplit as (bs & Hin & Hc).
  unfold infraGetPacketBytes2. rewrite Hread. cbn [mbind res_bind]. unfold get_ret_value. rewrite Hx.
  cbn [mbind res_bind]. eexists _, _, bs, _. split; [done|]. split_and!; done || by split; congruence.
Qed.

(** C15. What a read event does for a coroutine that waits for at least
    [min_bytes], with a read buffer whose array is below 2^32 bytes: unless the buffer is already full (then an assertion fails),
    what arrived is appended in order and nothing of it is lost; the coroutine is
    resumed with an exception when the system reports an error (and the socket
    starts closing), resumed once there is enough, left waiting when bytes
    came but too few, and when none came it is resumed (with an exception if it
    has too few) and the connection is taken to have been ended by the peer. *)
Theorem read_event_resumes_reader (user : Ob → Event → mgr Ob T W → list (Cmd Ob W)) s o d i k (h : coro) :
  ready s o d i k → ahd_read_h d = Some h →
  (Cbb.remaining_capacity (readBuffer d) = 0 → infraProcessReadEvent user o s = AssertFail) ∧
  (0 < Cbb.remaining_capacity (readBuffer d) →
   ∃ cb w' bs read_ok,
     let s' := with_os w' (put o (with_readBuffer cb d) s) in
     infraGetPacketBytes2 (readBuffer d) k (ahd_read_min_bytes d) (os s) = Ok (cb, w', read_ok) ∧
     ready s' o (with_readBuffer cb d) i k ∧
     Cbb.contents cb = Cbb.contents (readBuffer d) ++ (Some <$> bs) ∧
     incoming k (os s) = bs ++ incoming k w' ∧ stream k (with_readBuffer cb d) w' = stream k d (os s) ∧
     let enough := bool_decide (ahd_read_min_bytes d ≤ length (Cbb.contents cb)) in
     infraProcessReadEvent user o s =
       if negb read_ok then
         s ← errorCloseSocket o (with_os (sys_so_error k w').1 s'); resume_reader user o h true s
       else if bool_decide (bs = []) then
         s ← resume_reader user o h (negb enough) s'; infraProcessRemoteEnded user o s
       else if enough then resume_reader user o h false s'
       else Ok s').
Proof.
  intros Hr Hh. pose proof Hr as [_ _ _ _ Hw Hrb].
  destruct (ready_get _ _ _ _ _ Hr) as (_ & Hg & _ & Hk).
  unfold infraProcessReadEvent. rewrite Hg. cbn [mbind res_bind]. rewrite Hk. cbn [mbind res_bind].
  rewrite Hh. split.
  - intros Hfull. pose proof Hrb as [(Hm & Hb & He) _]. pose proof (Cbb.used_size_lt _ (proj1 Hrb)).
    unfold Cbb.remaining_capacity, Cbb.used_size in Hfull.
    unfold infraGetPacketBytes2, Cbb.read, recv_reader, internal_get_packet_bytes2.
    destruct (bool_decide_reflect (Cbb.begin_ (readBuffer d) ≤ Cbb.end_ (readBuffer d))) as [Hle|Hle].
    + rewrite (bool_decide_eq_false_2 (Cbb.end_ _ < _)) by lia.
      rewrite (bool_decide_eq_false_2 (Cbb.begin_ (readBuffer d) ≠ 0)) by lia.
      rewrite (bool_decide_eq_false_2 (_ ≠ 0)) by lia. done.
    + rewrite (bool_decide_eq_true_2 (Cbb.end_ _ < _)) by lia.
      rewrite (bool_decide_eq_false_2 (_ ≠ 0)) by lia. done.
  - intros Hroom.
    destruct (infraGetPacketBytes2_spec k (ahd_read_min_bytes d) _ (os s) Hrb Hroom)
      as (cb & w' & bs & read_ok & Hrd & Hw' & Hc & Hin & Hs & _).
    exists cb, w', bs, read_ok. cbn zeta. split; [done|].
    split; [apply ready_os; by eapply ready_put|]. split; [done|]. split; [done|].
    split; [unfold stream; cbn; by rewrite Hs|].
    rewrite Hrd. cbn [mbind res_bind]. destruct read_ok; cbn [negb]; [|done].
    rewrite !used_size_contents by (apply (proj1 Hrb) || apply (proj1 Hw')). rewrite Hc, length_app, length_fmap.
    destruct bs as [|b bs].
    + rewrite (bool_decide_eq_false_2 (0 < _)), (bool_decide_eq_true_2 ([] = [])) by (done || simpl; lia).
      f_equal. f_equal. rewrite <-bool_decide_not. apply bool_decide_ext. simpl. lia.
    + rewrite (bool_decide_eq_true_2 (0 < _)), (bool_decide_eq_false_2 (_ :: _ = [])) by (done || simpl; lia).
      done.
Qed.

(** ** Where the code stops or loses what it was told *)

(** Writing to a socket before it is connected breaks the connection: the
    data the system does not take yet is buffered, and when the connection is
    established the assertion that the buffer is empty fails. *)
Theorem write_before_connected_fails s o d i k (data : list cell) w' :
  ready s o d i k → state d = Connecting → Cbb.contents (writeBuffer d) = [] →
  data ≠ [] → length data < 2 ^ Cbb.max_allowed_size_exp →
  internal_send_packet data k (os s) = Ok (w', (RET_PENDING, 0)) →
  ∃ s', appWrite o data s = Ok (s', false) ∧
    ((sys_so_error k (os s')).2 = true → _infraProcessWriteEvent o s' = AssertFail).
Proof.
  intros Hr Hst Hc Hne Hfit Hsend. pose proof Hr as [_ _ _ _ Hw Hrb].
  destruct (ready_get _ _ _ _ _ Hr) as (Hg & _ & _ & Hk).
  assert (Hlen : length data ≠ 0) by (by rewrite length_zero_iff_nil).
  unfold appWrite. rewrite Hg. cbn [mbind res_bind].
  unfold isValid, is_ending. rewrite Hst. rewrite bool_decide_eq_true_2 by discriminate.
  rewrite bool_decide_eq_false_2 by (intros [|]; discriminate).
  cbn [negb]. rewrite bool_decide_eq_true_2 by (by rewrite used_size_contents, Hc).
  rewrite Hk. cbn [mbind res_bind]. rewrite Hsend. cbn [mbind res_bind].
  rewrite bool_decide_eq_false_2 by discriminate.
  rewrite bool_decide_eq_false_2, bool_decide_eq_true_2 by lia.
  destruct (Cbb.ring_append_spec (drop 0 data) (writeBuffer d) Hw) as [[_ Hbig]|(cb' & -> & Hw' & Hc')].
  { exfalso. rewrite used_size_contents, Hc, drop_0 in Hbig by done.
    eapply Nat.lt_irrefl, Nat.lt_le_trans; [exact Hfit|exact Hbig]. }
  cbn [mbind res_bind].
  pose proof (ready_put _ _ _ (with_writeBuffer cb' d) _ _ (ready_os _ _ _ _ _ w' Hr) Hw' Hrb) as Hr2.
  destruct (on_table_setPollout _ _ _ _ _ Hr2) as (s' & -> & Hr3 & _ & Heq). cbn [mbind res_bind].
  eexists. split; [done|]. intros Hok. destruct (ready_get _ _ _ _ _ Hr3) as (Hg3 & _ & _ & Hk3).
  unfold _infraProcessWriteEvent. rewrite Hg3. cbn [mbind res_bind]. rewrite Hk3. cbn [mbind res_bind].
  rewrite bool_decide_eq_true_2 by done. destruct (sys_so_error k (os s')) as [w2 b]. cbn in Hok. subst b.
  rewrite empty_contents by done. cbn [writeBuffer with_writeBuffer]. rewrite Hc', Hc, drop_0.
  by rewrite bool_decide_eq_false_2.
Qed.

(** A write that waited for room ([a_write] with a full buffer) is not taken
    off when it is sent in part: the buffer is kept whole, so the bytes already
    sent would go out again, and the next write event fails an assertion
    because the ring it looks at is empty. *)
Theorem waiting_write_sent_in_part_fails s o d i k w1 w2 n :
  ready s o d i k → state d ≠ Connecting →
  Cbb.begin_ (writeBuffer d) < Cbb.end_ (writeBuffer d) → Buffer.size (ahd_write_b d) ≠ 0 →
  (Z.of_nat (Cbb.used_size (writeBuffer d)) < 2 ^ 31)%Z →
  internal_send_packet (Cbb.contents (writeBuffer d)) k (os s)
    = Ok (w1, (RET_OK, length (Cbb.contents (writeBuffer d)))) →
  internal_send_packet (Buffer.contents (ahd_write_b d)) k w1 = Ok (w2, (RET_PENDING, n)) →
  n < Buffer.size (ahd_write_b d) →
  ∃ s', _infraProcessWriteEvent o s = Ok (s', EmitNone) ∧
    (∃ d', socks s' !! o = Some d' ∧ ahd_write_b d' = ahd_write_b d) ∧
    _infraProcessWriteEvent o s' = AssertFail.
Proof.
  intros Hr Hst Hlt Hb Hint Hsend1 Hsend2 Hn. pose proof Hr as [_ _ _ _ Hw Hrb].
  destruct (ready_get _ _ _ _ _ Hr) as (Hg & _ & _ & Hk).
  destruct (write_contiguous k _ (os s) Hw Hlt Hint) as (w' & r & m & wb & Hs & _ & _ & Hw' & Hwr & Hc' & _).
  rewrite Hsend1 in Hs. simplify_eq. rewrite drop_all in Hc'.
  unfold _infraProcessWriteEvent at 1. rewrite Hg. cbn [mbind res_bind]. rewrite Hk. cbn [mbind res_bind].
  rewrite bool_decide_eq_false_2 by done.
  assert (Cbb.empty (writeBuffer d) = false) as -> by (apply bool_decide_eq_false_2; lia).
  cbn [negb]. rewrite Hwr. cbn [mbind res_bind fst]. unfold get_ret_value. cbn [snd mbind res_bind].
  set (d1 := with_writeBuffer wb d).
  assert (Hr1 : ready (with_os w' (put o d1 s)) o d1 i k) by (apply ready_os; by eapply ready_put).
  destruct (ready_get _ _ _ _ _ Hr1) as (Hg1 & _ & _ & Hk1).
  assert (Hemp : Cbb.empty wb = true) by (rewrite empty_contents by done; by apply bool_decide_eq_true_2).
  rewrite (bool_decide_eq_false_2 (RET_OK = _)), Hemp by done.
  unfold write_done. rewrite Hg1. cbn [mbind res_bind]. rewrite Hk1. cbn [mbind res_bind].
  rewrite (bool_decide_eq_true_2 (Buffer.size (ahd_write_b d1) ≠ 0)) by done.
  cbn [os with_os]. change (ahd_write_b d1) with (ahd_write_b d). rewrite Hsend2. cbn [mbind res_bind].
  rewrite (bool_decide_eq_false_2 (RET_PENDING = _)), (bool_decide_eq_false_2 (n = _)) by (done || lia).
  cbn [mbind res_bind]. eexists. split; [done|].
  assert (Hr2 : ready (with_os w2 (with_os w' (put o d1 s))) o d1 i k) by (by apply ready_os).
  split; [exists d1; split; [by destruct Hr2|done]|].
  destruct (ready_get _ _ _ _ _ Hr2) as (Hg2 & _ & _ & Hk2).
  unfold _infraProcessWriteEvent. rewrite Hg2. cbn [mbind res_bind]. rewrite Hk2. cbn [mbind res_bind].
  rewrite bool_decide_eq_false_2 by done. change (writeBuffer d1) with wb. by rewrite Hemp.
Qed.


(** ** Closing *)

(** user code that makes no calls: what is left is what the library does *)
Definition quiet : Ob → Event → mgr Ob T W → list (Cmd Ob W) := λ _ _ _, [].

(** the coroutines that [forceReleasingAllCoroHandles] resumes, with an exception *)
Definition released (d : sock) : list coro :=
  option_list (ahd_accepted d) ++ option_list (ahd_connect d) ++ option_list (ahd_read_h d) ++
  option_list (ahd_write_h d) ++ option_list (ahd_drain d).
Definition no_handles (d : sock) : sock :=
  with_drain None (with_write_h None (with_read None (ahd_read_min_bytes d)
    (with_connect None (with_accepted None d)))).
Definition logged (o : Ob) (evs : list Event) (s : mgr Ob T W) : mgr Ob T W :=
  mk (socks s) (table s) (pendingCloseEvents s) (pendingAcceptedEvents s) (recvBuffer s) (os s)
     (trace s ++ ((o,.) <$> evs)).

Lemma emit_quiet o ev s : emit quiet o ev s = Ok (log o ev s).
Proof. done. Qed.

Lemma release_quiet handle (clear : sock → sock) s o d :
  socks s !! o = Some d → (handle d = None → clear d = d) →
  release quiet handle clear o s =
    Ok (logged o ((λ h, EvResumed h true) <$> option_list (handle d)) (put o (clear d) s)).
Proof.
  intros Hs Hid. unfold release, get_entry. rewrite Hs. cbn [mbind res_bind].
  destruct (handle d) as [h|] eqn:Hh; [done|]. rewrite Hid by done.
  unfold logged, put, with_socks; cbn. rewrite app_nil_r, insert_id by done. by destruct s.
Qed.

Lemma logged_put o evs evs' d d' (s : mgr Ob T W) :
  logged o evs' (put o d' (logged o evs (put o d s))) = logged o (evs ++ evs') (put o d' s).
Proof. unfold logged, put, with_socks; cbn. by rewrite insert_insert_eq, fmap_app, app_assoc. Qed.

Lemma force_release_quiet s o d :
  socks s !! o = Some d →
  forceReleasingAllCoroHandles quiet o s =
    Ok (logged o ((λ h, EvResumed h true) <$> released d) (put o (no_handles d) s)).
Proof.
  intros Hs. unfold forceReleasingAllCoroHandles.
  assert (Hput : ∀ d' evs (s' : mgr Ob T W), socks (logged o evs (put o d' s')) !! o = Some d')
    by (intros; apply lookup_insert_eq).
  rewrite (release_quiet _ _ _ _ d) by (done || by destruct d; cbn; intros ->). cbn [mbind res_bind].
  do 4 (erewrite release_quiet; [|apply Hput|by destruct d; cbn; intros ->]; cbn [mbind res_bind];
        rewrite logged_put).
  unfold released, no_handles. rewrite !fmap_app. destruct d; cbn. by rewrite <-!app_assoc.
Qed.

(** what the close event of [o] reports *)
Definition close_report (d : sock) : list Event :=
  let err := bool_decide (state d = ErrorClosing) in
  (if err then [EvError] else []) ++ [EvClose err] ++ ((λ h, EvResumed h true) <$> released d).

Lemma close_one_quiet s o d i k :
  ready s o d i k → of_server d = false →
  ∃ s', close_one quiet i s = Ok s' ∧ t_isUsed i (table s') = Ok false ∧
    socks s' = <[o := no_handles (with_state Closed d)]> (socks s) ∧
    trace s' = trace s ++ ((o,.) <$> close_report d) ∧ pendingCloseEvents s' = pendingCloseEvents s.
Proof.
  intros Hr Hsrv. pose proof Hr as [Hs Hl Hi Hk _ _].
  destruct (ready_get _ _ _ _ _ Hr) as (_ & Hg & _ & Hf).
  destruct (close_law _ _ _ Hl Hi) as (Hval & Hus & Hat & t' & Hsc & Hus' & _ & _ & t'' & Hre & Hus'').
  unfold close_one. rewrite Hval, Hus. cbn [mbind res_bind]. rewrite Hat. cbn [mbind res_bind].
  rewrite Hg. cbn [mbind res_bind]. rewrite Hf. cbn [mbind res_bind].
  assert (Hkv : k ≠ INVALID_SOCKET) by (pose proof (live_addr _ _ _ Hl Hk); unfold INVALID_SOCKET; lia).
  rewrite (bool_decide_eq_true_2 (k ≠ _)) by done. rewrite Hsc. cbn [mbind res_bind table with_table].
  rewrite Hus'. cbn [mbind res_bind]. rewrite andb_true_r.
  set (s1 := with_table t' _).
  assert (Hemit : (if bool_decide (state d = ErrorClosing) then emit quiet o EvError s1 else Ok s1) =
                  Ok (logged o (if bool_decide (state d = ErrorClosing) then [EvError] else []) s1)).
  { case_bool_decide; [done|]. unfold logged; cbn. by rewrite app_nil_r. }
  rewrite Hemit. cbn [mbind res_bind table logged]. change (table s1) with t'. rewrite Hus'. cbn [mbind res_bind].
  rewrite emit_quiet. cbn [mbind res_bind].
  unfold get_entry at 1. cbn [socks log logged s1 with_table with_os]. rewrite Hs. cbn [mbind res_bind table log logged].
  change (table s1) with t'. rewrite Hus'. cbn [mbind res_bind].
  unfold onFinalCleanup. erewrite force_release_quiet by apply lookup_insert_eq. cbn [mbind res_bind].
  unfold get_entry. cbn [socks logged put with_socks]. rewrite lookup_insert_eq. cbn [mbind res_bind].
  assert (of_server (no_handles (with_state Closed d)) = false) as -> by (by destruct d). cbn [mbind res_bind].
  unfold s1. cbn [table logged put with_socks log with_table]. rewrite Hre. cbn [mbind res_bind].
  eexists. split; [done|]. cbn. split; [done|]. split; [by rewrite insert_insert_eq|]. split; [|done].
  unfold close_report. rewrite !fmap_app, <-!app_assoc. by destruct d.
Qed.

(** C16. A queued close event closes the socket: the object learns of the error
    first if there was one, then of the close, then every coroutine that still
    waits on it is resumed with an exception; it is [Closed], holds no coroutine
    any more, its entry is free and the queue is empty. *)
Theorem close_event_reports s o d i k (err : bool) :
  ready s o d i k → of_server d = false → pendingCloseEvents s = [(i, err)] →
  ∃ s', infraGetCloseEvent quiet s = Ok s' ∧ pendingCloseEvents s' = [] ∧
    t_isUsed i (table s') = Ok false ∧
    socks s' = <[o := no_handles (with_state Closed d)]> (socks s) ∧
    trace s' = trace s ++ ((o,.) <$> close_report d).
Proof.
  intros Hr Hsrv Hp. destruct (close_one_quiet s o d i k Hr Hsrv) as (s' & Hc & Hu & Hs & Ht & Hpe).
  unfold infraGetCloseEvent. rewrite Hp. cbn [close_all]. rewrite Hc. cbn [mbind res_bind].
  rewrite Hpe, bool_decide_eq_true_2 by done. cbn [mbind res_bind]. by eexists.
Qed.

(** Calling [end] on a socket that waits for its error to be reported puts it
    back among the ending sockets (unless it has nothing to send and the peer
    has ended): when the close event comes there is no error event, and the
    close event says there was no error. *)
Theorem end_hides_error s o d i k (err : bool) :
  ready s o d i k → of_server d = false → state d = ErrorClosing →
  Cbb.contents (writeBuffer d) ≠ [] ∨ remoteEnded d = false → pendingCloseEvents s = [(i, err)] →
  ∃ s1 s2, appEnd o s = Ok s1 ∧ infraGetCloseEvent quiet s1 = Ok s2 ∧
    trace s2 = trace s ++ (o, EvClose false) :: ((o,.) <$> ((λ h, EvResumed h true) <$> released d)).
Proof.
  intros Hr Hsrv Hst Hor Hp. pose proof Hr as [_ _ _ _ Hw Hrb].
  destruct (ready_get _ _ _ _ _ Hr) as (Hg & _ & _ & Hk).
  assert (Hend : ∃ s1 d1, appEnd o s = Ok s1 ∧ ready s1 o d1 i k ∧ trace s1 = trace s ∧
    pendingCloseEvents s1 = [(i, err)] ∧ released d1 = released d ∧ of_server d1 = false ∧
    state d1 ≠ ErrorClosing).
  { unfold appEnd. rewrite Hg. cbn [mbind res_bind]. unfold isValid. rewrite Hst.
    rewrite bool_decide_eq_true_2 by done. cbn [negb]. rewrite empty_contents by done.
    case_bool_decide as Hc.
    - rewrite Hk. cbn [mbind res_bind]. destruct Hor as [| ->]; [done|].
      eexists _, (with_state LocalEnded d). split; [done|]. split; [eapply ready_put; [by apply ready_os|done..]|].
      by destruct d.
    - eexists _, (with_state LocalEnding d). split; [done|]. split; [by eapply ready_put|]. by destruct d. }
  destruct Hend as (s1 & d1 & He & Hr1 & Ht1 & Hp1 & Hrel & Hsrv1 & Hst1).
  destruct (close_one_quiet s1 o d1 i k Hr1 Hsrv1) as (s2 & Hc & _ & _ & Ht & Hpe).
  eexists s1, _. split; [done|]. split.
  { unfold infraGetCloseEvent. rewrite Hp1. cbn [close_all]. rewrite Hc. cbn [mbind res_bind].
    rewrite Hpe, bool_decide_eq_true_2 by done. cbn [mbind res_bind]. done. }
  cbn. rewrite Ht, Ht1. unfold close_report. rewrite bool_decide_eq_false_2, Hrel by done. done.
Qed.

(** The event of an accepted connection is dropped when its entry is the last
    of the table or was only accumulated: the index is compared with [size()],
    which does not count the reserved entry, and the queue is cleared all the same. *)
Theorem accepted_event_dropped (user : Ob → Event → mgr Ob T W → list (Cmd Ob W)) s i :
  pendingAcceptedEvents s = [i] → t_size (table s) ≤ i →
  infraProcessSockAcceptedEvents user s = Ok (with_pending_accepted [] s).
Proof.
  intros Hp Hi. unfold infraProcessSockAcceptedEvents. rewrite Hp. cbn [accepted_loop].
  rewrite bool_decide_eq_false_2 by lia. cbn [mbind res_bind]. by rewrite Hp.
Qed.

(** ** What no handler changes

    [P] is a property of the manager that the elementary updates preserve: then
    the handlers of [poll] events and the calls of the user preserve it, on
    every path. [N] tells which updates of a socket are allowed, [R] what those
    of the table do. *)
Section preserve.
Context (user : Ob → Event → mgr Ob T W → list (Cmd Ob W)).
Context (P : mgr Ob T W → Prop) (N : sock → sock → Prop).
Context (N_fields : ∀ d d', state d' = state d → ahd_write_h d' = ahd_write_h d → N d d').
Context (N_state : ∀ d st, st = Connected ∨ st = LocalEnding ∨ st = LocalEnded → N d (with_state st d)).
Context (P_os : ∀ s w, P s → P (with_os w s)).
Context (P_recv : ∀ s b, P s → P (with_recv b s)).
Context (P_log : ∀ s o ev, P s → P (log o ev s)).
Context (R : T → T → Prop).
Context (R_ops : ∀ i t t', t_setPollout i t = Ok t' ∨ t_unsetPollout i t = Ok t' ∨ t_unsetPollin i t = Ok t' → R t t').
Context (P_table : ∀ s t', R (table s) t' → P s → P (with_table t' s)).
Context (P_put : ∀ s o d d', socks s !! o = Some d → N d d' → P s → P (put o d' s)).
Context (P_close : ∀ s s' o, closeSocket o s = Ok s' → P s → P s').
Context (P_error : ∀ s s' o, errorCloseSocket o s = Ok s' → P s → P s').
Context (P_user : ∀ s s' o ev, run_cmds (user o ev s) s = Ok s' → P s → P s').

Lemma get_inv s o d : get o s = Ok d → socks s !! o = Some d.
Proof. unfold get. destruct (socks s !! o); by intros [=->]. Qed.
Lemma get_entry_inv s o d : get_entry o s = Ok d → socks s !! o = Some d.
Proof. unfold get_entry. destruct (socks s !! o); by intros [=->]. Qed.

Lemma P_emit s s' o ev : emit user o ev s = Ok s' → P s → P s'.
Proof. unfold emit. intros Hc Hs. eapply P_user; [exact Hc|by apply P_log]. Qed.

Lemma P_on_table f s s' o :
  (∀ i t t', f i t = Ok t' → R t t') → on_table f o s = Ok s' → P s → P s'.
Proof.
  intros Hf Hc Hs. unfold on_table in Hc. apply bind_Ok_inv in Hc as (i & _ & Hc).
  apply bind_Ok_inv in Hc as (t' & Ht & [= <-]). apply P_table; eauto.
Qed.

(** the updates allowed in a handler *)
Ltac pres_N := first [apply N_fields; done | apply N_state; by intuition].
Ltac pres :=
  lazymatch goal with
  | |- P (with_os _ _) => apply P_os; pres
  | |- P (with_recv _ _) => apply P_recv; pres
  | |- P (log _ _ _) => apply P_log; pres
  | |- P (put _ _ _) =>
      eapply P_put; [first [eapply get_inv; eassumption | eapply get_entry_inv; eassumption]|pres_N|pres]
  | H : errorCloseSocket _ _ = Ok ?s |- P ?s => eapply P_error; [exact H|pres]
  | H : closeSocket _ _ = Ok ?s |- P ?s => eapply P_close; [exact H|pres]
  | H : emit _ _ _ _ = Ok ?s |- P ?s => eapply P_emit; [exact H|pres]
  | H : on_table _ _ _ = Ok ?s |- P ?s =>
      refine (P_on_table _ _ _ _ _ H _); [intros; eapply R_ops; by eauto|pres]
  | |- P _ => try eassumption
  end.

Lemma P_write_event s s' o e : _infraProcessWriteEvent o s = Ok (s', e) → P s → P s'.
Proof. intros Hc Hs. unfold _infraProcessWriteEvent, write_done in Hc. open_eq; pres. Qed.

Lemma P_resumed s s' o : infraProcessWriteEvent user o s = Ok s' → P s → P s'.
Proof.
  intros Hc Hs. unfold infraProcessWriteEvent in Hc. apply bind_Ok_inv in Hc as (d & _ & Hc).
  apply bind_Ok_inv in Hc as ([s1 e] & Hw & Hc). apply (P_write_event _ _ _ _ Hw) in Hs.
  unfold rrOnConnected, rrOnDrain in Hc. open_eq; pres.
Qed.

Lemma P_remote_ended s s' o : infraProcessRemoteEnded user o s = Ok s' → P s → P s'.
Proof. intros Hc Hs. unfold infraProcessRemoteEnded, rrOnRemoteEnded in Hc. open_eq; pres. Qed.

Lemma P_read_event s s' o : infraProcessReadEvent user o s = Ok s' → P s → P s'.
Proof.
  intros Hc Hs. unfold infraProcessReadEvent, resume_reader in Hc.
  open_eq; try (eapply P_remote_ended; [eassumption|]); pres.
Qed.

Lemma P_poll_event s s' o revents : infraCheckPollFdSet user o revents s = Ok s' → P s → P s'.
Proof.
  intros Hc Hs. unfold infraCheckPollFdSet in Hc. apply bind_Ok_inv in Hc as (d & _ & Hc).
  destruct (has revents (Z.lor POLLERR POLLNVAL)); [open_eq; pres|].
  apply bind_Ok_inv in Hc as (s1 & Hr & Hc).
  assert (P s1).
  { destruct (has revents POLLIN); [destruct (negb _)|destruct (has revents POLLHUP)];
      [by eapply P_read_event|by simplify_eq|by eapply P_remote_ended|by simplify_eq]. }
  destruct (has revents POLLOUT); [by eapply P_resumed|by simplify_eq].
Qed.
End preserve.

(** *** A closing socket is not forgotten *)
Definition awaits_close (d : sock) : bool := bool_decide (state d = Closing ∨ state d = ErrorClosing).
Definition close_inv (s : mgr Ob T W) : Prop :=
  ∀ o d, socks s !! o = Some d → awaits_close d = true →
    ∃ i b, index_of (table s) o = Some i ∧ (i, b) ∈ pendingCloseEvents s.

(** an update that does not start a close *)
Definition no_new_close (d d' : sock) : Prop := awaits_close d' = true → awaits_close d = true.

Lemma close_inv_table s t' :
  (∀ o, index_of t' o = index_of (table s) o) → close_inv s → close_inv (with_table t' s).
Proof. intros Ht Hs o d Ho Hd. destruct (Hs o d Ho Hd) as (i & b & Hi & Hb). exists i, b. by rewrite <-Hi. Qed.

Lemma close_inv_put s o d d' :
  socks s !! o = Some d → no_new_close d d' → close_inv s → close_inv (put o d' s).
Proof.
  intros Ho Hn Hs o' d0 Hd0 Hc. unfold put, with_socks in Hd0; cbn in Hd0.
  destruct (decide (o = o')) as [<-|Hne].
  - rewrite lookup_insert_eq in Hd0. simplify_eq. by apply (Hs o d); [|apply Hn].
  - rewrite lookup_insert_ne in Hd0 by done. by apply (Hs o' d0).
Qed.

Lemma close_inv_push s o d d' i b :
  socks s !! o = Some d → index_of (table s) o = Some i → close_inv s →
  close_inv (with_pending (pendingCloseEvents s ++ [(i, b)]) (put o d' s)).
Proof.
  intros Ho Hi Hs o' d0 Hd0 Hc. unfold put, with_socks, with_pending in *; cbn in *.
  destruct (decide (o = o')) as [<-|Hne].
  - exists i, b. split; [done|]. apply elem_of_app. right. by apply list_elem_of_singleton.
  - rewrite lookup_insert_ne in Hd0 by done. destruct (Hs o' d0 Hd0 Hc) as (j & c & ? & ?).
    exists j, c. split; [done|]. apply elem_of_app. by left.
Qed.

Lemma close_inv_close s s' o : closeSocket o s = Ok s' → close_inv s → close_inv s'.
Proof.
  unfold closeSocket. intros Hc Hs. apply bind_Ok_inv in Hc as (d & Hg & Hc).
  destruct (is_closing d); [by simplify_eq|]. apply bind_Ok_inv in Hc as (i & Hi & [= <-]).
  apply get_inv in Hg. unfold idx in Hi. destruct (index_of (table s) o) eqn:Hx; simplify_eq.
  by eapply close_inv_push.
Qed.

Lemma close_inv_error s s' o : errorCloseSocket o s = Ok s' → close_inv s → close_inv s'.
Proof.
  unfold errorCloseSocket. intros Hc Hs. apply bind_Ok_inv in Hc as (d & Hg & Hc).
  destruct (is_closing d); [by simplify_eq|]. apply bind_Ok_inv in Hc as (i & Hi & [= <-]).
  apply get_inv in Hg. unfold idx in Hi. destruct (index_of (table s) o) eqn:Hx; simplify_eq.
  by eapply close_inv_push.
Qed.

Lemma close_inv_on_table f s s' o :
  (∀ i t t' o', f i t = Ok t' → index_of t' o' = index_of t o') →
  on_table f o s = Ok s' → close_inv s → close_inv s'.
Proof.
  intros Hf. apply (P_on_table close_inv (λ t t', ∀ o', index_of t' o' = index_of t o')); [apply close_inv_table|eauto].
Qed.

Lemma no_new_close_fields d d' : state d' = state d → no_new_close d d'.
Proof. unfold no_new_close, awaits_close. by intros ->. Qed.
Lemma no_new_close_state d st : st ≠ Closing → st ≠ ErrorClosing → no_new_close d (with_state st d).
Proof. intros ?? Hc. apply bool_decide_eq_true_1 in Hc. cbn in Hc. naive_solver. Qed.

Lemma close_inv_delete s o t' :
  (∀ o', o' ≠ o → index_of t' o' = index_of (table s) o') → close_inv s →
  close_inv (with_table t' (with_socks (delete o (socks s)) s)).
Proof.
  intros Ht Hs o' d Ho Hd. unfold with_socks, with_table in *; cbn in *.
  rewrite lookup_delete_Some in Ho. destruct Ho as [Hne Ho].
  destruct (Hs o' d Ho Hd) as (i & b & Hi & Hb). exists i, b. by rewrite Ht, Hi by done.
Qed.

(** updates of a socket fetched before other updates of the same socket *)
Lemma close_inv_put_again s o d' :
  awaits_close d' = false → close_inv s → close_inv (put o d' s).
Proof.
  intros Hd Hs o' d0 Hd0 Hc. unfold put, with_socks in Hd0; cbn in Hd0.
  destruct (decide (o = o')) as [<-|Hne].
  - rewrite lookup_insert_eq in Hd0. simplify_eq. congruence.
  - rewrite lookup_insert_ne in Hd0 by done. by apply (Hs o' d0).
Qed.

(** what the calls of the user are made of *)
Ltac pres_call :=
  lazymatch goal with
  | |- close_inv (with_os ?w ?s) => change (close_inv s); pres_call
  | |- close_inv (with_recv ?w ?s) => change (close_inv s); pres_call
  | |- close_inv (with_pending_accepted ?w ?s) => change (close_inv s); pres_call
  | |- close_inv (log ?o ?ev ?s) => change (close_inv s); pres_call
  | |- close_inv (put _ _ _) =>
      first [ eapply close_inv_put;
                [eapply get_inv; eassumption|first [by apply no_new_close_fields|by apply no_new_close_state]|]
            | apply close_inv_put_again; [done|] ]; pres_call
  | H : errorCloseSocket _ _ = Ok ?s |- close_inv ?s => eapply close_inv_error; [exact H|pres_call]
  | H : closeSocket _ _ = Ok ?s |- close_inv ?s => eapply close_inv_close; [exact H|pres_call]
  | H : on_table _ _ _ = Ok ?s |- close_inv ?s =>
      refine (close_inv_on_table _ _ _ _ _ H _); [intros; eapply index_kept; by eauto 10|pres_call]
  | |- close_inv _ => try eassumption
  end.

Lemma close_inv_appDestroy s s' o : appDestroy o s = Ok s' → close_inv s → close_inv s'.
Proof. intros Hc Hs. unfold appDestroy in Hc. open_eq; pres_call. Qed.

Lemma close_inv_destruct s s' o : destruct o s = Ok s' → close_inv s → close_inv s'.
Proof.
  intros Hc Hs. unfold Tcp.destruct in Hc. apply bind_Ok_inv in Hc as (d & _ & Hc).
  apply bind_Ok_inv in Hc as (s1 & Hd & Hc). apply bind_Ok_inv in Hc as (s2 & H2 & Hc).
  apply bind_Ok_inv in Hc as (s3 & H3 & [= <-]).
  apply (close_inv_delete s3 o (t_forget o (table s3))).
  - intros o' Hne. apply (index_kept_others _ _ o); [by right|done].
  - assert (close_inv s1) by (case_bool_decide; [by eapply close_inv_appDestroy|by simplify_eq]). pres_call.
Qed.

Lemma close_inv_connect s s' o ip port : appConnectSocket o ip port s = Ok s' → close_inv s → close_inv s'.
Proof.
  intros Hc Hs. unfold appConnectSocket, os_connect in Hc. open_eq; pres_call.
Qed.

Lemma close_inv_write s s' o data b : appWrite o data s = Ok (s', b) → close_inv s → close_inv s'.
Proof. intros Hc Hs. unfold appWrite in Hc. open_eq; pres_call. Qed.
Lemma close_inv_write2 s s' o buff b : appWrite2 o buff s = Ok (s', b) → close_inv s → close_inv s'.
Proof. intros Hc Hs. unfold appWrite2 in Hc. open_eq; pres_call. Qed.

Lemma close_inv_cmd s s' c : run_cmd c s = Ok s' → close_inv s → close_inv s'.
Proof.
  intros Hc Hs. destruct c as [o data|o b h|o m n h|o n|o h|o h|o|o|o b|o b|o|o|o|o|f|o ip port|o m n h f|o h f|f|o]; cbn in Hc.
  - apply bind_Ok_inv in Hc as ([s1 b] & Hw & [= <-]). by eapply close_inv_write.
  - apply bind_Ok_inv in Hc as ([s1 ok] & Hw & Hc). apply (close_inv_write2 _ _ _ _ _ Hw) in Hs.
    open_eq; pres_call.
  - unfold take_read in Hc. open_eq; pres_call.
  - unfold take_read in Hc. open_eq; pres_call.
  - open_eq; pres_call.
  - open_eq; pres_call.
  - unfold appEnd in Hc. open_eq; pres_call.
  - by eapply close_inv_appDestroy.
  - unfold appSetKeepAlive, appSetOption in Hc. open_eq; pres_call.
  - unfold appSetNoDelay, appSetOption in Hc. open_eq; pres_call.
  - unfold appPause in Hc. open_eq; pres_call.
  - unfold appPause in Hc. open_eq; pres_call.
  - pres_call.
  - pres_call.
  - open_eq; pres_call.
  - by eapply close_inv_connect.
  - unfold take_read, on_host in Hc. open_eq; pres_call.
  - unfold on_host in Hc. open_eq; pres_call.
  - unfold on_host in Hc. open_eq; pres_call.
  - by eapply close_inv_destruct.
Qed.

Lemma close_inv_cmds cs s s' : run_cmds cs s = Ok s' → close_inv s → close_inv s'.
Proof.
  revert s. induction cs as [|c cs IH]; intros s Hc Hs; cbn in Hc; [by simplify_eq|].
  apply bind_Ok_inv in Hc as (s1 & H1 & Hc). eapply IH; [exact Hc|]. by eapply close_inv_cmd.
Qed.

(** *** The queue of close events only grows *)
Definition grows (l : list (nat * bool)) (s : mgr Ob T W) : Prop := l `prefix_of` pendingCloseEvents s.

Lemma grows_close l s s' o : closeSocket o s = Ok s' → grows l s → grows l s'.
Proof. unfold closeSocket. intros Hc Hs. open_eq; [done|]. by apply prefix_app_r. Qed.
Lemma grows_error l s s' o : errorCloseSocket o s = Ok s' → grows l s → grows l s'.
Proof. unfold errorCloseSocket. intros Hc Hs. open_eq; [done|]. by apply prefix_app_r. Qed.
Lemma grows_on_table l f s s' o : on_table f o s = Ok s' → grows l s → grows l s'.
Proof. unfold on_table. intros Hc Hs. by open_eq. Qed.

Ltac growing :=
  lazymatch goal with
  | |- grows ?l (with_os ?w ?s) => change (grows l s); growing
  | |- grows ?l (with_recv ?w ?s) => change (grows l s); growing
  | |- grows ?l (with_pending_accepted ?w ?s) => change (grows l s); growing
  | |- grows ?l (with_table ?w ?s) => change (grows l s); growing
  | |- grows ?l (with_socks ?w ?s) => change (grows l s); growing
  | |- grows ?l (log ?o ?ev ?s) => change (grows l s); growing
  | |- grows ?l (put ?o ?d ?s) => change (grows l s); growing
  | H : errorCloseSocket _ _ = Ok ?s |- grows _ ?s => eapply grows_error; [exact H|growing]
  | H : closeSocket _ _ = Ok ?s |- grows _ ?s => eapply grows_close; [exact H|growing]
  | H : on_table _ _ _ = Ok ?s |- grows _ ?s => eapply grows_on_table; [exact H|growing]
  | |- grows _ _ => try eassumption
  end.

Lemma grows_appDestroy l s s' o : appDestroy o s = Ok s' → grows l s → grows l s'.
Proof. intros Hc Hs. unfold appDestroy in Hc. open_eq; growing. Qed.

Lemma grows_destruct l s s' o : destruct o s = Ok s' → grows l s → grows l s'.
Proof.
  intros Hc Hs. unfold Tcp.destruct in Hc. apply bind_Ok_inv in Hc as (d & _ & Hc).
  apply bind_Ok_inv in Hc as (s1 & Hd & Hc).
  assert (grows l s1) by (case_bool_decide; [by eapply grows_appDestroy|by simplify_eq]). open_eq; growing.
Qed.

Lemma grows_cmd l s s' c : run_cmd c s = Ok s' → grows l s → grows l s'.
Proof.
  intros Hc Hs. destruct c as [o data|o b h|o m n h|o n|o h|o h|o|o|o b|o b|o|o|o|o|f|o ip port|o m n h f|o h f|f|o]; cbn in Hc;
    try (by eapply grows_destruct; eassumption); try (by eapply grows_appDestroy; eassumption);
    unfold appWrite, appWrite2, take_read, appEnd, appSetKeepAlive, appSetNoDelay, appSetOption, appPause,
      appConnectSocket, os_connect, on_host in Hc; open_eq; growing.
Qed.

Lemma grows_cmds l cs s s' : run_cmds cs s = Ok s' → grows l s → grows l s'.
Proof.
  revert s. induction cs as [|c cs IH]; intros s Hc Hs; cbn in Hc; [by simplify_eq|].
  apply bind_Ok_inv in Hc as (s1 & H1 & Hc). eapply IH; [exact Hc|]. by eapply grows_cmd.
Qed.

Lemma grows_emit user l s s' o ev : emit user o ev s = Ok s' → grows l s → grows l s'.
Proof. unfold emit. intros Hc Hs. by eapply grows_cmds. Qed.

Lemma grows_release user l f g s s' o : release user f g o s = Ok s' → grows l s → grows l s'.
Proof. unfold release. intros Hc Hs. open_eq; [by eapply grows_emit|done]. Qed.

Lemma grows_cleanup user l s s' o : onFinalCleanup user o s = Ok s' → grows l s → grows l s'.
Proof.
  intros Hc Hs. unfold onFinalCleanup, forceReleasingAllCoroHandles in Hc.
  apply bind_Ok_inv in Hc as (s1 & Hr & Hc).
  assert (Hs1 : grows l s1).
  { do 4 (let x := fresh "x" in let E := fresh "E" in apply bind_Ok_inv in Hr as (x & E & Hr)).
    do 5 (eapply grows_release; [eassumption|]). done. }
  apply bind_Ok_inv in Hc as (d & _ & Hc). destruct (of_server d); [by eapply grows_destruct|by simplify_eq].
Qed.

Lemma grows_close_one user l i s s' : close_one user i s = Ok s' → grows l s → grows l s'.
Proof.
  intros Hc Hs. unfold close_one in Hc. destruct (t_isValidId _ _); [|by simplify_eq].
  apply bind_Ok_inv in Hc as ([] & _ & Hc); [|by simplify_eq].
  apply bind_Ok_inv in Hc as (o & _ & Hc). apply bind_Ok_inv in Hc as (d & _ & Hc).
  apply bind_Ok_inv in Hc as (sk & _ & Hc). apply bind_Ok_inv in Hc as (s1 & Hs1 & Hc).
  assert (G1 : grows l s1) by (open_eq; growing).
  apply bind_Ok_inv in Hc as (u1 & _ & Hc). apply bind_Ok_inv in Hc as (s2 & Hs2 & Hc).
  assert (G2 : grows l s2) by (destruct (_ && u1); [by eapply grows_emit|by simplify_eq]).
  apply bind_Ok_inv in Hc as (u2 & _ & Hc). apply bind_Ok_inv in Hc as (s3 & Hs3 & Hc).
  assert (G3 : grows l s3) by (destruct u2; [by eapply grows_emit|by simplify_eq]).
  apply bind_Ok_inv in Hc as (d2 & _ & Hc). apply bind_Ok_inv in Hc as (u3 & _ & Hc).
  apply bind_Ok_inv in Hc as (s4 & Hs4 & Hc). apply bind_Ok_inv in Hc as (t' & _ & [= <-]).
  change (grows l s4). eapply grows_cleanup; [exact Hs4|]. by destruct u3; growing.
Qed.

(** A round of close events: each is handled in turn, and no handler queues another
    one, which would be lost when the queue is cleared at the end. *)
Inductive closes (user : Ob → Event → mgr Ob T W → list (Cmd Ob W)) :
    list (nat * bool) → mgr Ob T W → mgr Ob T W → Prop :=
  | closes_nil s : closes user [] s s
  | closes_cons i b es s s1 s2 :
      close_one user i s = Ok s1 → pendingCloseEvents s1 = pendingCloseEvents s →
      closes user es s1 s2 → closes user ((i, b) :: es) s s2.

Lemma close_all_closes user es s s' : close_all user es s = Ok s' ↔ closes user es s s'.
Proof.
  split.
  - revert s. induction es as [|[i b] es IH]; intros s Hc; cbn [close_all] in Hc; [simplify_eq; constructor|].
    apply bind_Ok_inv in Hc as (s1 & H1 & Hc). apply require_Ok in Hc as [Hlen Hc].
    apply bool_decide_eq_true_1 in Hlen. econstructor; [exact H1| |by apply IH].
    destruct (grows_close_one _ (pendingCloseEvents s) _ _ _ H1) as [k Hk]; [by exists []; rewrite app_nil_r|].
    rewrite Hk, length_app in Hlen. rewrite Hk, (nil_length_inv k) by lia. by rewrite app_nil_r.
  - induction 1 as [|i b es s s1 s2 H1 Hp _ IH]; [done|]. cbn [close_all]. rewrite H1. cbn [mbind res_bind].
    by rewrite Hp, bool_decide_eq_true_2.
Qed.

(** one step of the program between two rounds of close events *)
Inductive action : Type :=
  | ACall (c : Cmd Ob W)
  | APoll (o : Ob) (revents : Z)
  | AAcquire (o : Ob)
  | AAccepted (o : Ob)
  | AAccepteds.
Definition act (user : Ob → Event → mgr Ob T W → list (Cmd Ob W)) (a : action) (s : mgr Ob T W) : res (mgr Ob T W) :=
  match a with
  | ACall c => run_cmd c s
  | APoll o revents => infraCheckPollFdSet user o revents s
  | AAcquire o => appAcquireSocket o s
  | AAccepted o => infraAddAccepted o s
  | AAccepteds => infraProcessSockAcceptedEvents user s
  end.
Fixpoint acts (user : Ob → Event → mgr Ob T W → list (Cmd Ob W)) (l : list action) (s : mgr Ob T W) : res (mgr Ob T W) :=
  match l with
  | [] => Ok s
  | a :: l => s ← act user a s; acts user l s
  end.

Lemma close_inv_emit user s s' o ev : emit user o ev s = Ok s' → close_inv s → close_inv s'.
Proof. unfold emit. intros Hc Hs. by eapply close_inv_cmds. Qed.

Lemma close_inv_accepted user ids s s' : accepted_loop user ids s = Ok s' → close_inv s → close_inv s'.
Proof.
  revert s. induction ids as [|i ids IH]; intros s Hc Hs; cbn [accepted_loop] in Hc; [by simplify_eq|].
  apply bind_Ok_inv in Hc as (s1 & H1 & Hc). eapply IH; [exact Hc|]. unfold rrOnAccepted in H1.
  case_bool_decide; [|by simplify_eq]. apply bind_Ok_inv in H1 as (o & _ & H1).
  apply bind_Ok_inv in H1 as ([] & _ & H1); [|by simplify_eq]. apply bind_Ok_inv in H1 as (d & Hd & H1).
  destruct (ahd_accepted d); (eapply close_inv_emit; [exact H1|]); [|done].
  eapply close_inv_put; [by apply get_entry_inv|by apply no_new_close_fields|done].
Qed.

Lemma close_inv_act user a s s' : act user a s = Ok s' → close_inv s → close_inv s'.
Proof.
  intros Hc Hs. destruct a as [c|o revents|o|o|]; cbn in Hc.
  - by eapply close_inv_cmd.
  - revert Hc Hs. apply (P_poll_event user close_inv no_new_close) with (R := λ t t', ∀ o', index_of t' o' = index_of t o');
      intros; try done.
    + by apply no_new_close_fields.
    + apply no_new_close_state; intuition congruence.
    + eapply index_kept; intuition eauto 10.
    + by apply close_inv_table.
    + by eapply close_inv_put.
    + by eapply close_inv_close.
    + by eapply close_inv_error.
    + by eapply close_inv_cmds.
  - unfold appAcquireSocket, registerAndAssignSocket in Hc.
    destruct (internal_make_tcp_socket _) as [w sk]. case_bool_decide; [done|].
    apply bind_Ok_inv in Hc as (d & Hg & Hc). case_bool_decide as Hst; [|done].
    apply bind_Ok_inv in Hc as (t' & Ht & [= <-]).
    intros o' d' Ho' Hd'. cbn in *. destruct (decide (o' = o)) as [->|Hne].
    + apply get_inv in Hg. cbn in Hg. simplify_eq. unfold awaits_close in Hd'. by rewrite Hst in Hd'.
    + destruct (Hs o' d' Ho' Hd') as (i & b & Hi & Hb). exists i, b.
      rewrite (index_kept_others _ _ _ o' (or_introl Ht) Hne), index_kept_socket. done.
  - unfold infraAddAccepted in Hc. open_eq; pres_call.
  - unfold infraProcessSockAcceptedEvents in Hc. apply bind_Ok_inv in Hc as (s1 & Hl & [= <-]).
    change (close_inv s1). by eapply close_inv_accepted.
Qed.

Lemma close_inv_acts user l s s' : close_inv s → acts user l s = Ok s' → close_inv s'.
Proof.
  revert s. induction l as [|a l IH]; intros s Hs Hc; cbn in Hc; [by simplify_eq|].
  apply bind_Ok_inv in Hc as (s1 & H1 & Hc). eapply IH; [|exact Hc]. by eapply close_inv_act.
Qed.

(** C1. A socket that has started to close is not forgotten. Between two rounds of close
    events, whatever the user calls and whatever sockets are polled, acquired and
    accepted, with arbitrary user code in the handlers,
    a socket in state [Closing] or [ErrorClosing] has an event queued under its
    index that will close it. The round that comes next returns exactly when every event of
    the queue was handled in turn and no handler queued another one (pushing to the vector
    that is iterated is undefined); so nothing is lost when the queue is cleared. While
    nothing is queued the table may be reworked, in any way; a rework that moves the
    entries while something is queued is not covered. *)
Theorem closing_is_queued (user : Ob → Event → mgr Ob T W → list (Cmd Ob W)) (l : list action) s s' :
  close_inv s → acts user l s = Ok s' →
  close_inv s' ∧
  (∀ s2, infraGetCloseEvent user s' = Ok s2 ↔
         ∃ s1, closes user (pendingCloseEvents s') s' s1 ∧ s2 = with_pending [] s1) ∧
  (pendingCloseEvents s' = [] → ∀ t', close_inv (with_table t' s')).
Proof.
  intros Hs Hc. pose proof (close_inv_acts _ _ _ _ Hs Hc) as Hs'. split; [done|]. split.
  - intros s2. unfold infraGetCloseEvent. split.
    + intros (s1 & H1 & [= <-])%bind_Ok_inv. exists s1. split; [|done]. by apply close_all_closes.
    + intros (s1 & H1%close_all_closes & ->). by rewrite H1.
  - intros Hp t' o d Ho Hd. destruct (Hs' o d Ho Hd) as (i & b & _ & Hin).
    rewrite Hp in Hin. by apply not_elem_of_nil in Hin.
Qed.

(** *** A coroutine that waits for a write *)
Definition waits_write (o : Ob) (h : coro) (s : mgr Ob T W) : Prop :=
  ∃ d, socks s !! o = Some d ∧ ahd_write_h d = Some h.

Lemma waits_write_put o h s o' d d' :
  socks s !! o' = Some d → ahd_write_h d' = ahd_write_h d → waits_write o h s → waits_write o h (put o' d' s).
Proof.
  intros Ho Hd (d0 & Hd0 & Hh). unfold waits_write, put, with_socks; cbn.
  destruct (decide (o' = o)) as [->|Hne].
  - exists d'. rewrite lookup_insert_eq. simplify_eq. split; [done|congruence].
  - exists d0. by rewrite lookup_insert_ne.
Qed.

Lemma waits_write_close o h s s' o' : closeSocket o' s = Ok s' → waits_write o h s → waits_write o h s'.
Proof.
  unfold closeSocket. intros Hc Hs. apply bind_Ok_inv in Hc as (d & Hg & Hc).
  destruct (is_closing d); [by simplify_eq|]. apply bind_Ok_inv in Hc as (i & Hi & [= <-]).
  eapply (waits_write_put o h s o' d); [by apply get_inv|done..].
Qed.
Lemma waits_write_error o h s s' o' : errorCloseSocket o' s = Ok s' → waits_write o h s → waits_write o h s'.
Proof.
  unfold errorCloseSocket. intros Hc Hs. apply bind_Ok_inv in Hc as (d & Hg & Hc).
  destruct (is_closing d); [by simplify_eq|]. apply bind_Ok_inv in Hc as (i & Hi & [= <-]).
  eapply (waits_write_put o h s o' d); [by apply get_inv|done..].
Qed.

(** A coroutine suspended in [a_write] is not resumed by any event: however
    much is sent and drained afterwards, through any number of [poll] events, it
    is still registered as waiting (only closing the socket releases it, with
    an exception). *)
Theorem awaited_write_never_resumed (o : Ob) (h : coro) (evs : list (Ob * Z)) s s' :
  waits_write o h s → acts quiet ((λ e, APoll e.1 e.2) <$> evs) s = Ok s' → waits_write o h s'.
Proof.
  revert s. induction evs as [|[o' revents] evs IH]; intros s Hs Hc; cbn in Hc; [by simplify_eq|].
  apply bind_Ok_inv in Hc as (s1 & H1 & Hc). eapply IH; [|exact Hc]. revert H1 Hs.
  apply (P_poll_event quiet (waits_write o h) (λ d d', ahd_write_h d' = ahd_write_h d)) with (R := λ _ _, True); try done.
  - intros ???????. by eapply waits_write_put.
  - intros ???. apply waits_write_close.
  - intros ???. apply waits_write_error.
  - intros s0 s2 o0 ev Hq. cbn in Hq. by simplify_eq.
Qed.

(** A closed socket that is destructed late takes another socket off the
    table: its entry was released by the close event and may be another's by
    now, but the destructor marks the entry of its old index unused; the new
    owner keeps its state and is not polled any more. *)
Theorem destructor_frees_reused_entry s (a b : Ob) da db i k :
  ready s b db i k → a ≠ b → socks s !! a = Some da → state da = Closed →
  index_of (table s) a = Some i →
  ∃ s', destruct a s = Ok s' ∧ socks s' !! b = Some db ∧ t_isUsed i (table s') = Ok false.
Proof.
  intros Hr Hne Ha Hst Hi. pose proof Hr as [Hb Hl Hib _ _ _].
  destruct (unused_law _ _ a _ Hl Hib) as (t1 & t2 & H1 & H2 & Hu).
  unfold Tcp.destruct, get. rewrite Ha. cbn [mbind res_bind].
  rewrite bool_decide_eq_false_2 by (rewrite Hst; intuition congruence). cbn [mbind res_bind].
  unfold on_table, idx. rewrite Hi. cbn [mbind res_bind]. rewrite H1. cbn [mbind res_bind].
  assert (Hi1 : index_of (table (with_table t1 s)) a = Some i).
  { cbn. etrans; [|exact Hi]. apply (index_kept i). right; right; right; right; right; left. by exists false. }
  rewrite Hi1. cbn [mbind res_bind table with_table]. rewrite H2. cbn [mbind res_bind].
  eexists. split; [done|]. cbn. split; [by rewrite lookup_delete_ne|exact Hu].
Qed.
End spec.

(** ** Concrete instances *)
Import TcpExample.

Lemma mgr1_ready d w : Cbb.wf (writeBuffer d) → readable (readBuffer d) → ready (mgr1 d w) 5 d 1 9%Z.
Proof. intros. constructor; try done. apply assoc1_live. Qed.

Definition five : list cell := Some <$> [x01; x02; x03; x04; x05].
(** a socket with four bytes to send, in state [st] *)
Definition sending1 (st : State) : sock := with_writeBuffer CbbSpec.straight (with_state st (new_sock false false)).
Definition sends (l : list (nat + io_error)) : net := mkNet [] false [] l true.

Lemma small_fits n m : n + m < 64 → n + m < 2 ^ Cbb.max_allowed_size_exp.
Proof.
  intros Hlt. apply (Nat.lt_le_trans _ (2 ^ 6)); [vm_compute; vm_compute in Hlt; lia|].
  apply Nat.pow_le_mono_r; vm_compute; lia.
Qed.

Lemma appWrite_in_order_witness :
  ∃ s' r, appWrite 5 five (mgr1 connected1 (sends [inl 2])) = Ok (s', r) ∧
    ((r = false ∧ error_closing (mgr1 connected1 (sends [inl 2])) s' 5 connected1 1 ∧
      sent 9%Z (os s') = sent 9%Z (sends [inl 2])) ∨
     ∃ d', ready s' 5 d' 1 9%Z ∧ stream 9%Z d' (os s') = stream 9%Z connected1 (sends [inl 2]) ++ five ∧
       out_inv s' 5 d' ∧ (r = true → Cbb.contents (writeBuffer d') = []) ∧
       d' = with_writeBuffer (writeBuffer d') connected1 ∧ fin 9%Z (os s') = fin 9%Z (sends [inl 2]) ∧
       pendingCloseEvents s' = []).
Proof.
  apply (appWrite_in_order (mgr1 connected1 (sends [inl 2])) 5 connected1 1 9%Z five).
  - apply mgr1_ready; [apply Cbb.create_spec|apply readable_new].
  - reflexivity.
  - reflexivity.
  - intros _. vm_compute. reflexivity.
  - reflexivity.
  - apply small_fits. vm_compute. lia.
  - vm_compute. reflexivity.
Defined.

Lemma straight_wf : Cbb.wf CbbSpec.straight.
Proof. vm_compute. lia. Qed.

Lemma sending1_ready st l : ready (mgr1 (sending1 st) (sends l)) 5 (sending1 st) 1 9%Z.
Proof. apply mgr1_ready; [apply straight_wf|apply readable_new]. Qed.

Lemma write_event_in_order_witness :
  ∃ w' r n, internal_send_packet (Cbb.contents CbbSpec.straight) 9 (sends [inl 3]) = Ok (w', (r, n)) ∧
    n ≤ length (Cbb.contents CbbSpec.straight) ∧
    _infraProcessWriteEvent 5 (mgr1 (sending1 Connected) (sends [inl 3])) = AssertFail.
Proof.
  destruct (write_event_in_order (mgr1 (sending1 Connected) (sends [inl 3])) 5 (sending1 Connected) 1 9%Z)
    as (w' & r & n & Hs & Hn & _).
  - apply sending1_ready.
  - discriminate.
  - intros _. vm_compute. reflexivity.
  - vm_compute. lia.
  - reflexivity.
  - vm_compute. reflexivity.
  - exists w', r, n. split; [exact Hs|]. split; [exact Hn|]. vm_compute. reflexivity.
Defined.

Definition reading1 : sock := with_read (Some 7) 3 connected1.
Definition receives (bs : list u8) : net := mkNet [] false bs [] true.
Lemma read_event_resumes_reader_witness :
  0 < Cbb.remaining_capacity (readBuffer reading1) ∧
  ∃ s', infraProcessReadEvent quiet 5 (mgr1 reading1 (receives [x0a; x0b; x0c; x0d])) = Ok s' ∧
        trace s' = [(5, EvResumed 7 false)].
Proof.
  destruct (read_event_resumes_reader quiet (mgr1 reading1 (receives [x0a; x0b; x0c; x0d])) 5 reading1 1 9%Z 7)
    as [_ _].
  - apply mgr1_ready; [apply Cbb.create_spec|apply readable_new].
  - reflexivity.
  - split; [apply Nat.ltb_lt; vm_compute; reflexivity|].
    eexists. split; [vm_compute; reflexivity|]. vm_compute. reflexivity.
Defined.

Definition connecting1 : sock := with_state Connecting (new_sock false false).
Lemma write_before_connected_fails_witness :
  ∃ s', appWrite 5 five (mgr1 connecting1 (sends [])) = Ok (s', false) ∧
    ((sys_so_error 9 (os s')).2 = true → _infraProcessWriteEvent 5 s' = AssertFail).
Proof.
  eapply (write_before_connected_fails (mgr1 connecting1 (sends [])) 5 connecting1 1 9%Z five).
  - apply mgr1_ready; [apply Cbb.create_spec|apply readable_new].
  - reflexivity.
  - reflexivity.
  - discriminate.
  - apply (small_fits 0). vm_compute. lia.
  - vm_compute. reflexivity.
Defined.

(** ... and three more bytes waiting behind them *)
Definition waiting1 : sock := with_write_b (Buffer.mk 3 3 (Some (Some <$> [x0e; x0f; x10]))) (sending1 Connected).
Lemma waiting_write_sent_in_part_fails_witness :
  ∃ s', _infraProcessWriteEvent 5 (mgr1 waiting1 (sends [inl 4; inl 1])) = Ok (s', EmitNone) ∧
    (∃ d', socks s' !! 5 = Some d' ∧ ahd_write_b d' = ahd_write_b waiting1) ∧
    _infraProcessWriteEvent 5 s' = AssertFail.
Proof.
  eapply (waiting_write_sent_in_part_fails (mgr1 waiting1 (sends [inl 4; inl 1])) 5 waiting1 1 9%Z _ _ 1).
  - apply mgr1_ready; [apply straight_wf|apply readable_new].
  - discriminate.
  - vm_compute. lia.
  - discriminate.
  - vm_compute. reflexivity.
  - vm_compute. reflexivity.
  - vm_compute. reflexivity.
  - vm_compute. lia.
Defined.

Definition failed1 : sock := with_drain (Some 3) (with_state ErrorClosing (new_sock false false)).
Definition mgr_failed1 : mgr nat (NetTable.N.t nat) net :=
  mk {[5 := failed1]} assoc1 [(1, true)] [] Buffer.empty_buffer (sends []) [].
Lemma mgr_failed1_ready : ready mgr_failed1 5 failed1 1 9%Z.
Proof. constructor; try done; try apply Cbb.create_spec; try apply readable_new. apply assoc1_live. Qed.

Lemma close_event_reports_witness :
  ∃ s', infraGetCloseEvent quiet mgr_failed1 = Ok s' ∧ pendingCloseEvents s' = [] ∧
    t_isUsed 1 (table s') = Ok false ∧
    socks s' = <[5 := no_handles (with_state Closed failed1)]> (socks mgr_failed1) ∧
    trace s' = [(5, EvError); (5, EvClose true); (5, EvResumed 3 true)].
Proof.
  apply (close_event_reports mgr_failed1 5 failed1 1 9%Z true).
  - apply mgr_failed1_ready.
  - reflexivity.
  - reflexivity.
Defined.

Lemma end_hides_error_witness :
  ∃ s1 s2, appEnd 5 mgr_failed1 = Ok s1 ∧ infraGetCloseEvent quiet s1 = Ok s2 ∧
    trace s2 = [(5, EvClose false); (5, EvResumed 3 true)].
Proof.
  apply (end_hides_error mgr_failed1 5 failed1 1 9%Z true).
  - apply mgr_failed1_ready.
  - reflexivity.
  - reflexivity.
  - right. reflexivity.
  - reflexivity.
Defined.

Definition mgr_accepted1 : mgr nat (NetTable.N.t nat) net :=
  mk {[5 := connected1]} assoc1 [] [1] Buffer.empty_buffer (sends []) [].
Lemma accepted_event_dropped_witness :
  infraProcessSockAcceptedEvents quiet mgr_accepted1 = Ok (with_pending_accepted [] mgr_accepted1).
Proof. apply (accepted_event_dropped quiet mgr_accepted1 1); [reflexivity|vm_compute; lia]. Defined.

Lemma closing_is_queued_witness :
  ∃ s', acts quiet [ACall (CWrite 5 five); APoll 5 POLLOUT; ACall (CDestroy 5)] (mgr1 connected1 (sends [inl 2; inl 3]))
    = Ok s' ∧ awaits_close <$> socks s' !! 5 = Some true ∧ pendingCloseEvents s' = [(1, false)] ∧
    is_ok (infraGetCloseEvent quiet s') = true ∧
    close_inv s' ∧
    (∀ s2, infraGetCloseEvent quiet s' = Ok s2 ↔
           ∃ s1, closes quiet (pendingCloseEvents s') s' s1 ∧ s2 = with_pending [] s1) ∧
    (pendingCloseEvents s' = [] → ∀ t', close_inv (with_table t' s')).
Proof.
  eexists. split; [vm_compute; reflexivity|]. do 3 (split; [vm_compute; reflexivity|]).
  eapply (closing_is_queued quiet [ACall (CWrite 5 five); APoll 5 POLLOUT; ACall (CDestroy 5)]
            (mgr1 connected1 (sends [inl 2; inl 3]))).
  - intros o d Ho Hd. unfold mgr1 in Ho. cbn [socks] in Ho. apply lookup_singleton_Some in Ho as [_ <-]. discriminate Hd.
  - vm_compute. reflexivity.
Defined.

(** socket 4 is closed, its entry 1 belongs to socket 5 now *)
Definition mgr_reused1 : mgr nat (NetTable.N.t nat) net :=
  mk {[4 := with_state Closed (new_sock false false); 5 := connected1]}
     (NetTable.N.with_heap (<[4 := NetTable.N.mkObj 1 8]> (NetTable.N.heap assoc1)) assoc1) [] []
     Buffer.empty_buffer (sends []) [].
Lemma reused1_live : live (table mgr_reused1) 5.
Proof.
  destruct assoc1_live as (Hwf & Hfits & st & r & ot & f & Hreg & Hrest).
  split; [by apply NetTable.wf_other_object|]. split; [exact Hfits|].
  exists st, r, ot, f. split; [exact Hreg|exact Hrest].
Qed.
Lemma destructor_frees_reused_entry_witness :
  ∃ s', destruct 4 mgr_reused1 = Ok s' ∧ socks s' !! 5 = Some connected1 ∧ t_isUsed 1 (table s') = Ok false.
Proof.
  eapply (destructor_frees_reused_entry mgr_reused1 4 5 (with_state Closed (new_sock false false)) connected1 1 9%Z).
  - constructor; try done; try apply Cbb.create_spec; try apply readable_new. apply reused1_live.
  - done.
  - done.
  - done.
  - done.
Defined.

Definition awaiting1 : sock := with_write_h (Some 7) (sending1 Connected).
Lemma awaited_write_never_resumed_witness :
  ∃ s', acts quiet ((λ e, APoll e.1 e.2) <$> [(5, POLLOUT)]) (mgr1 awaiting1 (sends [inl 4])) = Ok s' ∧
        waits_write 5 7 s'.
Proof.
  eexists. split; [vm_compute; reflexivity|].
  eapply (awaited_write_never_resumed 5 7 [(5, POLLOUT)] (mgr1 awaiting1 (sends [inl 4]))).
  - exists awaiting1. split; reflexivity.
  - vm_compute. reflexivity.
Defined.
End TcpSpec.
