(* ===== verification/Awaits.v ===== *)
(** * Waits with a time limit (include/nodecpp/socket_common.h, src/infrastructure.h)

    A coroutine that awaits a socket under a time limit is registered twice: with
    the socket, in a field such as [ahd_read.h], and with the timers, through the
    [Timeout] its awaiter keeps. Whichever comes first resumes it. This file puts
    the sockets of TcpSocket.v, the timers of Timers.v and the promises of Coro.v
    together: the timers, the frames and the clock belong to the world the sockets
    run in ([host], on top of any operating system), the [await_suspend] of the
    awaiters is what [CReadT], [CDrainT] and [CHost] run on it, and the code of a
    coroutine is a function from what its [co_await] gives to the calls it makes.
    The [await_resume] of an awaiter with a time limit is a coroutine: what [co_await]
    gives is an [awaitable], of a coroutine that has ended.
    [Until] is [a_readUntil]. *)

From S2P Require Import Prelude.
From S2P Require Import Buffers.
From S2P Require Import Circular.
From S2P Require Import Timers.
From S2P Require Import NetRegistry.
From S2P Require Import Coro.
From S2P Require Import TcpSocket.
From S2P Require Import TcpSocketSpec.
From Stdlib Require Import Lia.

Module Awaits.
Import Tcp.

(** the [uint32_t] of an awaiter is the [int32_t ms] of [setTimeoutForAction] *)
Definition i32 (z : Z) : Z := let z := u32 z in if bool_decide (z ≤ INT32_MAX)%Z then z else (z - 2 ^ 32)%Z.

(** the numbers of [enum CoroStandardOutcomes] *)
Definition code_of (r : CoroStandardOutcomes) : Z :=
  match r with ok => 0 | timeout => 1 | insufficient_buffer => 2 | in_progress => 3 | failed => 4 end.

(** what a status other than [timeout] stands for *)
Definition outcome_of (n : Z) : CoroStandardOutcomes := if bool_decide (n = code_of timeout) then timeout else ok.

(** ** The world *)
Section host.
Context {W V X CB : Type}.

(** [awaiters] holds the [Timeout] of the awaiter of each waiting coroutine *)
Record host : Type := mkHost {
  hos : W;
  htimers : Timers.t CB coro;
  hcoros : Coro.t V X;
  awaiters : gmap coro Z;
  clock : Z;
}.
Definition with_hos (x : W) (w : host) : host := mkHost x (htimers w) (hcoros w) (awaiters w) (clock w).
Definition with_htimers (x : Timers.t CB coro) (w : host) : host := mkHost (hos w) x (hcoros w) (awaiters w) (clock w).
Definition with_hcoros (x : Coro.t V X) (w : host) : host := mkHost (hos w) (htimers w) x (awaiters w) (clock w).
Definition with_awaiters (x : gmap coro Z) (w : host) : host := mkHost (hos w) (htimers w) (hcoros w) x (clock w).

(** a call of the operating system *)
Definition lift {A : Type} (f : W → W * A) (w : host) : host * A :=
  let '(x, a) := f (hos w) in (with_hos x w, a).

#[export] Instance host_os `{!OS W} : OS host := {|
  sys_socket := lift sys_socket;
  sys_ioctl_async k := lift (sys_ioctl_async k);
  sys_connect k ip port := lift (sys_connect k ip port);
  sys_sendto k d := lift (sys_sendto k d);
  sys_recvfrom k n := lift (sys_recvfrom k n);
  sys_so_error k := lift (sys_so_error k);
  sys_shutdown_send k w := with_hos (sys_shutdown_send k (hos w)) w;
  sys_linger_zero k w := with_hos (sys_linger_zero k (hos w)) w;
  sys_keep_alive k b := lift (sys_keep_alive k b);
  sys_no_delay k b := lift (sys_no_delay k b);
  sys_close k w := with_hos (sys_close k (hos w)) w;
|}.

(** ** The awaiters *)

(** what the [await_suspend] of an awaiter with a time limit does outside of its
    socket: [initCoroData] and [to = setTimeoutForAction(awaiting, period)]. The
    move assignment swaps the handles; the one that goes is 0, the default. *)
Definition timed_suspend (h : coro) (period : Z) (w : host) : res host :=
  c ← Coro.initCoroData h (hcoros w);
  '(m, to) ← Timers.setTimeoutForAction h (i32 period) (clock w) (htimers w);
  Ok (with_awaiters (<[h := to]> (awaiters w)) (with_htimers m (with_hcoros c w))).

(** and [await_suspend] without one *)
Definition untimed_suspend (h : coro) (w : host) : res host :=
  c ← Coro.initCoroData h (hcoros w); Ok (with_hcoros c w).

(** the values of the [awaitable<CoroStandardOutcomes>] of [await_resume] *)
Context (of_outcome : CoroStandardOutcomes → V).

(** [await_resume] with a time limit, then the end of the awaiter: [clearTimeout(to)],
    the exception that was set, the status, [~Timeout]. It is a call of a coroutine that does
    not suspend (so that no fuel is needed), and gives the name of its object. *)
Definition timed_resume (h : coro) (w : host) : res (host * nat) :=
  match awaiters w !! h with
  | Some to =>
      m ← Timers.clearTimeout to (htimers w);
      r ← Coro.leaf_resume h (hcoros w);
      '(c, a) ← Coro.call 0 (match r with inl n => Coro.Return (of_outcome (outcome_of n)) | inr x => Coro.Throw x end)
                  (hcoros w);
      Ok (with_awaiters (delete h (awaiters w)) (with_htimers (Timers.Timeout_destroy to m) (with_hcoros c w)), a)
  | None => UB
  end.

(** [~awaitable], at the end of the expression or of the scope of the variable *)
Definition discard (a : nat) (w : host) : res host :=
  c ← Coro.destroy_awaitable a (hcoros w); Ok (with_hcoros c w).

(** the [await_resume] of [a_request] of an HTTP server (http_server_common.h), with and
    without a time limit: the status is not looked at. [ahd] is the request and the
    response that [ahd_request] holds. *)
Definition a_request_resume {R : Type} (timed : bool) (ahd : option R * option R) (h : coro) (w : host)
  : res (host * ((R * R) + X)) :=
  match awaiters w !! h with
  | Some to =>
      m ← (if timed then Timers.clearTimeout to (htimers w) else Ok (htimers w));
      b ← Coro.isCoroException h (hcoros w);
      r ← (if (b : bool) then x ← Coro.getCoroException h (hcoros w); Ok (inr x)
           else match ahd with (Some request, Some response) => Ok (inl (request, response)) | _ => AssertFail end);
      Ok (with_awaiters (delete h (awaiters w)) (with_htimers (Timers.Timeout_destroy to m) w), r)
  | None => UB
  end.

(** [nodecpp::setCoroException(hr, ...)] before a handle is called *)
Definition throw_into (h : coro) (x : X) (w : host) : res host :=
  c ← Coro.setCoroException h x (hcoros w); Ok (with_hcoros c w).

(** a coroutine that returns: its frame is freed *)
Definition finish (h : coro) (w : host) : res host :=
  _ ← Coro.frame_of h (hcoros w); Ok (with_hcoros (Coro.drop_frame h (hcoros w)) w).

(** [a_timeout_impl]: its awaiter has no socket, and its [await_resume] leaves the
    timer to [~Timeout] *)
Definition a_timeout_suspend (h : coro) (ms : Z) (w : host) : res host :=
  c ← Coro.initCoroData h (hcoros w);
  '(m, to) ← Timers.appSetTimeout_h h (i32 ms) (clock w) (htimers w);
  Ok (with_awaiters (<[h := to]> (awaiters w)) (with_htimers m (with_hcoros c w))).
Definition a_timeout_resume (h : coro) (w : host) : res (host * (unit + X)) :=
  match awaiters w !! h with
  | Some to =>
      b ← Coro.isCoroException h (hcoros w);
      r ← (if (b : bool) then x ← Coro.getCoroException h (hcoros w); Ok (inr x) else Ok (inl ()));
      Ok (with_awaiters (delete h (awaiters w))
            (with_htimers (Timers.Timeout_destroy to (htimers w)) w), r)
  | None => UB
  end.
End host.
Arguments host : clear implicits.

(** ** Coroutines, sockets and timers together *)
Section node.
Context {Ob T W V X CB : Type} `{Countable Ob} `{!SockTable Ob T, !OS W}.
(** the exception of [forceReleasingAllCoroHandles] and of a failed read *)
Context (of_outcome : CoroStandardOutcomes → V) (exc : X).
(** the code of a coroutine after its [co_await], which gave it an object, that of the
    callbacks of timers, that of the other handlers *)
Context (code : coro → nat → mgr Ob T (host W V X CB) → list (Cmd Ob (host W V X CB))).
Context (callback : CB → mgr Ob T (host W V X CB) → list (Cmd Ob (host W V X CB))).
Context (others : Ob → Event → mgr Ob T (host W V X CB) → list (Cmd Ob (host W V X CB))).

(** the calls with which a coroutine waits *)
Definition a_connect_timed (o : Ob) (port : Z) (ip : string) (period : Z) (h : coro) : list (Cmd Ob (host W V X CB)) :=
  [CConnect o ip port; CConnected o h; CHost (timed_suspend h period)].
Definition a_read_timed (o : Ob) (period : Z) (min_bytes max_bytes : nat) (h : coro) : list (Cmd Ob (host W V X CB)) :=
  [CReadT o min_bytes max_bytes h (timed_suspend h period)].
Definition a_drain_timed (o : Ob) (period : Z) (h : coro) : list (Cmd Ob (host W V X CB)) :=
  [CDrainT o h (timed_suspend h period)].

(** [hr()] for a coroutine that waits under a time limit *)
Definition woken (h : coro) (exn : bool) (w : host W V X CB) : res (host W V X CB * nat) :=
  w ← (if exn then throw_into h exc w else Ok w); timed_resume of_outcome h w.

Definition wake (h : coro) (exn : bool) (s : mgr Ob T (host W V X CB)) : list (Cmd Ob (host W V X CB)) :=
  CHost (λ w, '(w, _) ← woken h exn w; Ok w) ::
  match woken h exn (os s) with Ok (w, a) => code h a (with_os w s) | _ => [] end.

Definition user (o : Ob) (ev : Event) (s : mgr Ob T (host W V X CB)) : list (Cmd Ob (host W V X CB)) :=
  match ev with EvResumed h exn => wake h exn s | _ => others o ev s end.

(** [TimeoutManager::infraTimeoutEvents] on the node. A frame that is gone makes
    [setCoroStatus] undefined, as it makes the call of the handle that follows. *)
Definition put_timers (m : Timers.t CB coro) (s : mgr Ob T (host W V X CB)) : mgr Ob T (host W V X CB) :=
  with_os (with_htimers m (os s)) s.
Definition on_timers (cs : mgr Ob T (host W V X CB) → list (Cmd Ob (host W V X CB)))
    (x : Timers.t CB coro * mgr Ob T (host W V X CB)) : res (Timers.t CB coro * mgr Ob T (host W V X CB)) :=
  let s := put_timers x.1 x.2 in s ← run_cmds (cs s) s; Ok (htimers (os s), s).
Definition setCoroStatus (h : coro) (r : CoroStandardOutcomes) (s : mgr Ob T (host W V X CB)) : mgr Ob T (host W V X CB) :=
  match Coro.setCoroStatus h (code_of r) (hcoros (os s)) with
  | Ok c => with_os (with_hcoros c (os s)) s
  | _ => s
  end.
Definition infraTimeoutEvents (now : Z) (s : mgr Ob T (host W V X CB)) : res (mgr Ob T (host W V X CB)) :=
  '(m, s) ← Timers.infraTimeoutEvents (λ f, on_timers (callback f)) (λ h, on_timers (wake h false)) setCoroStatus
              now (htimers (os s), s);
  Ok (put_timers m s).
End node.
End Awaits.

(** ** [a_readUntil] *)
Module Until.

(** what the coroutine has when it suspends or returns *)
Inductive progress : Type := Waiting | Returned (r : CoroStandardOutcomes).

(** one pass of the loop, up to [co_await a_someDataAvailable()] or [CO_RETURN] *)
Definition pass (what : u8) (b : Buffer.t) (cb : Cbb.t) : res (Cbb.t * Buffer.t * progress) :=
  '(cb, b, rus) ← Cbb.read_ready_data_until what b cb;
  match rus with
  | ok => Ok (cb, b, Returned ok)
  | in_progress => Ok (cb, b, Waiting)
  | insufficient_buffer => Ok (cb, b, Returned insufficient_buffer)
  | _ => AssertFail
  end.

(** after [co_await]: there is data *)
Definition resumed (what : u8) (b : Buffer.t) (cb : Cbb.t) : res (Cbb.t * Buffer.t * progress) :=
  ASSERT bool_decide (1 ≤ Cbb.used_size cb) ;; pass what b cb.

(** [a_readUntil], resumed after each of [arrivals] was appended to what the socket
    has received *)
Fixpoint resumptions (what : u8) (arrivals : list (list cell)) (b : Buffer.t) (cb : Cbb.t)
  : res (Cbb.t * Buffer.t * progress) :=
  match arrivals with
  | [] => Ok (cb, b, Waiting)
  | x :: arrivals =>
      '(cb, _) ← Cbb.append x cb;
      '(cb, b, p) ← resumed what b cb;
      match p with
      | Waiting => resumptions what arrivals b cb
      | Returned r => Ok (cb, b, Returned r)
      end
  end.
Definition a_readUntil (what : u8) (arrivals : list (list cell)) (b : Buffer.t) (cb : Cbb.t)
  : res (Cbb.t * Buffer.t * progress) :=
  '(cb, b, p) ← pass what b cb;
  match p with
  | Waiting => resumptions what arrivals b cb
  | Returned r => Ok (cb, b, Returned r)
  end.
End Until.

(** ** Theorems *)
Module UntilSpec.
Import Until CbbSpec.

(** the first pass over [q], the bytes received so far *)
Lemma pass_spec what b cb q :
  Represents cb q → Buffer.wf b → Buffer.size b = 0 → Buffer.capacity b ≠ 0 →
  ∃ p rest cb' b' r, q = p ++ rest ∧ Cbb.until_outcome what (Buffer.capacity b) q p r ∧
    Represents cb' rest ∧ Buffer.contents b' = (Some <$> p) ∧
    pass what b cb = Ok (cb', b', match r with in_progress => Waiting | r => Returned r end).
Proof.
  intros Hq Hb Hs Hc. destruct (until_spec what b cb q Hq Hb Hs Hc)
    as (p & rest & cb' & b' & r & Hr & Hpr & Hq' & Hp & Ho).
  exists p, rest, cb', b', r. split_and!; [done..|]. unfold pass. rewrite Hr. cbn [mbind res_bind].
  by destruct r.
Qed.

(** a pass into a buffer that holds something fails *)
Lemma pass_again what b cb : Buffer.size b ≠ 0 → pass what b cb = AssertFail.
Proof. intros Hb. unfold pass, Cbb.read_ready_data_until. by rewrite bool_decide_eq_false_2 by done. Qed.

Lemma contents_size b q : Buffer.wf b → Buffer.contents b = (Some <$> q) → Buffer.size b = length q.
Proof.
  intros Hb Hq. apply (f_equal length) in Hq. rewrite length_fmap in Hq. by rewrite <-Hq, Buffer.length_buffer_contents.
Qed.

(** C36. [a_readUntil] decides on the first bytes it sees. If they hold the byte it
    looks for, it returns them up to that byte, and if they fill the buffer first it
    reports so, whatever arrives later; but if they do neither, they are taken into
    the buffer and the next data to arrive, even with the missing byte, makes the
    assertion at the top of [read_ready_data_until] fail: a line that comes in two
    pieces ends the process. *)
Theorem readUntil_first_data (what : u8) (b : Buffer.t) (cb : Cbb.t) (q : list u8) :
  Represents cb q → q ≠ [] → Buffer.wf b → Buffer.size b = 0 → Buffer.capacity b ≠ 0 →
  ∃ p rest r, q = p ++ rest ∧ Cbb.until_outcome what (Buffer.capacity b) q p r ∧
    match r with
    | in_progress => ∀ x xs arrivals, length (x :: xs) + Cbb.used_size cb < 2 ^ Cbb.max_allowed_size_exp →
        a_readUntil what ((Some <$> x :: xs) :: arrivals) b cb = AssertFail
    | r => ∃ cb' b', Represents cb' rest ∧ Buffer.contents b' = (Some <$> p) ∧
        ∀ arrivals, a_readUntil what arrivals b cb = Ok (cb', b', Returned r)
    end.
Proof.
  intros Hq Hne Hb Hs Hc. destruct (pass_spec what b cb q Hq Hb Hs Hc)
    as (p & rest & cb' & b' & r & -> & Ho & Hq' & Hp & Hr).
  exists p, rest, r. split; [done|]. split; [done|].
  destruct r; try (exists cb', b'; split_and!; [done..|]; intros arrivals; unfold a_readUntil; by rewrite Hr).
  intros x xs arrivals Hfit. destruct Ho as [Hall _].
  assert (rest = []) as -> by (apply (f_equal length) in Hall; rewrite length_app in Hall; apply length_zero_iff_nil; lia).
  unfold a_readUntil. rewrite Hr. cbn [mbind res_bind resumptions].
  destruct Hq' as [Hwf' Hce]. rewrite fmap_nil in Hce.
  pose proof (Cbb.length_ring_contents _ Hwf') as Hu'. rewrite Hce in Hu'. cbn [length] in Hu'.
  destruct (Cbb.ring_append_spec (Some <$> x :: xs) cb' Hwf') as [[_ Hbig]|(cb2 & -> & Hwf2 & Hc2)].
  { exfalso. rewrite length_fmap, <-Hu' in Hbig. lia. }
  rewrite bind_Ok. unfold resumed. case_bool_decide; [|done]. rewrite pass_again; [done|].
  assert (Hbs : Buffer.size b' = length (p ++ [])).
  { rewrite app_nil_r. unfold pass in Hr.
    destruct (Cbb.read_ready_data_until what b cb) as [[[c1 b1] r1]| | | |] eqn:Hu; try discriminate Hr.
    pose proof (Cbb.until_grows _ _ _ _ _ _ Hb Hu) as [Hwb _].
    assert (b' = b1) as -> by (cbn [mbind res_bind] in Hr; destruct r1; congruence).
    by apply contents_size. }
  rewrite Hbs. destruct (p ++ []); [done|discriminate].
Qed.
End UntilSpec.

Module AwaitsSpec.
Import Tcp Awaits.
Section spec.
Context {Ob T W V X CB : Type} `{Countable Ob} `{!SockTable Ob T, !OS W}.
Context (of_outcome : CoroStandardOutcomes → V) (exc : X).
Context (code : coro → nat → mgr Ob T (host W V X CB) → list (Cmd Ob (host W V X CB))).
Context (callback : CB → mgr Ob T (host W V X CB) → list (Cmd Ob (host W V X CB))).
Context (others : Ob → Event → mgr Ob T (host W V X CB) → list (Cmd Ob (host W V X CB))).
Abbreviation state := (mgr Ob T (host W V X CB)).
Abbreviation user := (user of_outcome exc code others).

(** what a timer set for coroutine [h] holds *)
Definition wakes (h : coro) : Timers.TimeoutEntryHandlerData CB coro := Timers.mkHandler None (Some h).

Definition only_timer (h : coro) (to : Z) (m : Timers.t CB coro) : Prop :=
  ∀ i e, Timers.timers m !! i = Some e → Timers.handler e = wakes h → i = to.

(** [h] waits under a time limit: its awaiter holds the handle [to] of the only timer
    for it, and nothing has been reported to its promise yet *)
Record waiting (h : coro) (to : Z) (w : host W V X CB) : Prop := {
  w_wf : Timers.wf (htimers w);
  w_awaiter : awaiters w !! h = Some to;
  w_to : to ≠ 0%Z;
  w_entry : ∃ e, Timers.timers (htimers w) !! to = Some e ∧ Timers.handler e = wakes h ∧
    Timers.handleDestroyed e = false;
  w_only : only_timer h to (htimers w);
  w_frame : ∃ f, Coro.frames (hcoros w) !! h = Some f ∧ Coro.isException (Coro.prom f) = false ∧
    Coro.status (Coro.prom f) = code_of ok;
  w_fresh : Coro.frames (hcoros w) !! Coro.next (hcoros w) = None;
}.

Lemma waiting_other h to w w' : htimers w' = htimers w → hcoros w' = hcoros w → awaiters w' = awaiters w →
  waiting h to w → waiting h to w'.
Proof. intros Ht Hc Ha [? ? ? ? ? ? ?]. constructor; rewrite ?Ht, ?Hc, ?Ha; done. Qed.

(** the world after the wait of [h] ended, and with the object [a] its coroutine was given *)
Definition unarmed (h : coro) (to : Z) (w w' : host W V X CB) : Prop :=
  Timers.wf (htimers w') ∧ Timers.timers (htimers w') = delete to (Timers.timers (htimers w)) ∧
  awaiters w' = delete h (awaiters w) ∧ hos w' = hos w.
Definition ended (h : coro) (to : Z) (w w' : host W V X CB) : Prop := unarmed h to w w' ∧ hcoros w' = hcoros w.

(** the object of a coroutine that has returned [r] or thrown: its frame, of the same name, is gone *)
Definition over (a : nat) (r : V + X) : Coro.awaitable V X :=
  match r with
  | inl v => Coro.mkAwaitable (Some v) true None (Some a) false
  | inr x => Coro.mkAwaitable None false (Some x) (Some a) false
  end.
Definition handed (h : coro) (to : Z) (w w' : host W V X CB) (a : nat) (r : V + X) : Prop :=
  unarmed h to w w' ∧ a = Coro.next (hcoros w) ∧ Coro.frames (hcoros w') = Coro.frames (hcoros w) ∧
  Coro.objects (hcoros w') = <[a := over a r]> (Coro.objects (hcoros w)).

(** the object gives its result when it is awaited, and cannot be destroyed *)
Definition dangles (a : nat) (v : V) (w : host W V X CB) : Prop :=
  Coro.await_resume a (hcoros w) = Ok (hcoros w, inl v) ∧ discard a w = UB.

Lemma handed_dangles h to w w' a v :
  Coro.frames (hcoros w) !! Coro.next (hcoros w) = None → handed h to w w' a (inl v) → dangles a v w'.
Proof.
  intros Hn (_ & Ha & Hf & Ho). unfold dangles, discard, Coro.await_resume, Coro.destroy_awaitable, Coro.object.
  rewrite Ho, lookup_insert_eq, !bind_Ok. cbn. split; [done|].
  unfold Coro.on_promise, Coro.frame_of. by rewrite Hf, Ha, Hn.
Qed.

(** a call of a coroutine that returns or throws at once *)
Lemma call_over (c : Coro.t V X) r :
  Coro.frames c !! Coro.next c = None →
  ∃ c', Coro.call 0 (match r with inl v => Coro.Return v | inr x => Coro.Throw x end) c = Ok (c', Coro.next c) ∧
    Coro.frames c' = Coro.frames c ∧ Coro.objects c' = <[Coro.next c := over (Coro.next c) r]> (Coro.objects c).
Proof.
  intros Hn. unfold Coro.call, Coro.get_return_object. cbn zeta.
  destruct r as [v|x]; cbn [Coro.run]; unfold Coro.return_value, Coro.unhandled_exception, Coro.final_suspend, Coro.frame_of, Coro.object;
    cbn [Coro.frames Coro.objects]; rewrite !lookup_insert_eq, !bind_Ok; cbn [Coro.prom Coro.myRetObject Coro.new_promise];
    rewrite !lookup_insert_eq, !bind_Ok; cbn [Coro.frames Coro.with_object]; rewrite !lookup_insert_eq, !bind_Ok;
    cbn [Coro.prom Coro.hr Coro.new_promise]; rewrite !bind_Ok; cbn [Coro.frames Coro.with_object]; rewrite !lookup_insert_eq, !bind_Ok;
    (eexists; split; [reflexivity|]); cbn; rewrite delete_insert_id, insert_insert_eq by done; done.
Qed.

(** no timer wakes [h] any more *)
Lemma ended_never_woken h to w w' now m hs : only_timer h to (htimers w) → unarmed h to w w' →
  Timers.take_due now (htimers w') = Ok (m, hs) → wakes h ∉ hs.
Proof.
  intros Hw (Hwf & Hts & _) Hd Hin.
  destruct (Timers.take_due_spec now _ Hwf) as (m1 & hs1 & due & Hd1 & _ & _ & _ & _ & _ & _ & Hhs).
  assert (hs1 = hs) as -> by congruence.
  apply list_elem_of_lookup in Hin as [n Hn].
  destruct (Forall2_lookup_r _ _ _ _ _ Hhs Hn) as ([k i] & _ & e & He & Hh). cbn in He.
  rewrite Hts in He. apply lookup_delete_Some in He as [Hne He]. apply Hne. symmetry.
  by apply (Hw i e).
Qed.

(** [clearTimeout], then [~Timeout] of the awaiter *)
Lemma ended_after_clear h to (w : host W V X CB) m :
  Timers.wf m → Timers.timers m = delete to (Timers.timers (htimers w)) →
  unarmed h to w (with_awaiters (delete h (awaiters w)) (with_htimers (Timers.Timeout_destroy to m) w)).
Proof.
  intros Hm Hts. split_and!; cbn [htimers hcoros hos awaiters with_awaiters with_htimers]; try done.
  - by apply TimersSpec.Timeout_destroy_wf.
  - unfold Timers.Timeout_destroy, Timers.appTimeoutDestructor. case_bool_decide; [|done].
    by rewrite Hts, lookup_delete_eq.
Qed.

(** [await_resume] once the wait is over, whatever it ends with *)
Definition result_of (f : Coro.frame V X) (r : V + X) : Prop :=
  if Coro.isException (Coro.prom f) then ∃ x, Coro.e (Coro.prom f) = Some x ∧ r = inr x
  else r = inl (of_outcome (outcome_of (Coro.status (Coro.prom f)))).

Lemma timed_resume_ends h to w f r : Timers.wf (htimers w) → awaiters w !! h = Some to → to ≠ 0%Z →
  Coro.frames (hcoros w) !! Coro.next (hcoros w) = None →
  Coro.frames (hcoros w) !! h = Some f → result_of f r →
  ∃ w' a, timed_resume of_outcome h w = Ok (w', a) ∧ handed h to w w' a r.
Proof.
  intros Hwf Ha Hto Hn Hf Hx. unfold timed_resume. rewrite Ha.
  destruct (TimersSpec.clearTimeout_deletes to _ Hwf Hto) as (m & -> & Hm & Hts).
  rewrite bind_Ok. unfold Coro.leaf_resume, Coro.isCoroException, Coro.getCoroException, Coro.getCoroStatus, Coro.frame_of.
  rewrite Hf, !bind_Ok.
  destruct (call_over (hcoros w) r Hn) as (c & Hc & Hcf & Hco).
  assert (Hh : ∀ c', c' = c → handed h to w
    (with_awaiters (delete h (awaiters w)) (with_htimers (Timers.Timeout_destroy to m) (with_hcoros c' w))) (Coro.next (hcoros w)) r).
  { intros c' ->. split; [|done]. by apply (ended_after_clear h to w). }
  unfold result_of in Hx. destruct (Coro.isException _).
  - destruct Hx as (x & He & ->). rewrite He, !bind_Ok. cbv match in Hc. rewrite Hc, bind_Ok. eauto.
  - subst r. rewrite !bind_Ok. cbv match in Hc. rewrite Hc, bind_Ok. eauto.
Qed.

Lemma wake_runs h exn (s : state) w a : woken of_outcome exc h exn (os s) = Ok (w, a) →
  run_cmds (wake of_outcome exc code h exn s) s = run_cmds (code h a (with_os w s)) (with_os w s).
Proof. intros Hw. unfold wake. cbn [run_cmds run_cmd]. unfold on_host. by rewrite !Hw. Qed.

(** reading from a socket leaves the timers and the coroutines alone *)
Lemma reads_leave_host (P : host W V X CB → Prop) k target cb w cb' w' b :
  (∀ w x, P w → P (with_hos x w)) → infraGetPacketBytes2 cb k target w = Ok (cb', w', b) → P w → P w'.
Proof.
  intros HP Hr Hw. unfold infraGetPacketBytes2 in Hr.
  assert (Hrd : ∀ n x x' c l, recv_reader k n x = Ok (x', c, l) → P x.1 → P x'.1).
  { intros n x x' c l Hx Hp. unfold recv_reader, internal_get_packet_bytes2 in Hx. cbn in Hx. unfold lift in Hx.
    destruct (sys_recvfrom k _ (hos x.1)) as [y [bs|[]]]; repeat case_bool_decide; cbn in Hx;
      simplify_eq/=; by apply HP. }
  apply bind_Ok_inv in Hr as ([[c1 x1] n1] & Hread & Hr). apply bind_Ok_inv in Hr as (ret & _ & Hr).
  injection Hr as _ <- _. unfold Cbb.read in Hread.
  open_eq; repeat match goal with
    | E : recv_reader _ _ _ = Ok ((_, _), _) |- _ => apply Hrd in E; [|done || (cbn; assumption)]
    | x : (_ * _)%type |- _ => destruct x end; simplify_eq/=; try done.
Qed.

(** code that lets the object [a] end *)
Definition lets_go (a : nat) (cs : list (Cmd Ob (host W V X CB))) : Prop :=
  ∃ cs1, cs = CHost (discard a) :: cs1.

Lemma lets_go_fails a v (s : state) cs : dangles a v (os s) → lets_go a cs → run_cmds cs s = UB.
Proof. intros [_ Hd] [cs1 ->]. cbn [run_cmds run_cmd]. unfold on_host. by rewrite Hd. Qed.

(** C33. A wait for data that is served before its time limit. When the poll reports
    the socket readable and enough bytes come in, the coroutine is resumed, with
    its handle gone from the socket and its timer gone from the table:
    whatever it does next, that timer cannot resume it again. What it is given is not
    [ok] but an object that holds [ok]: [await_resume] is a coroutine, and its frame is
    gone. Awaiting the object gives [ok]; its destructor writes to the frame, so that a coroutine that
    lets it end, as at the end of the statement, is undefined. *)
Theorem timed_wait_served (s : state) o d k h to cb w :
  waiting h to (os s) → socks s !! o = Some d → ahd_read_h d = Some h → fd o s = Ok k →
  infraGetPacketBytes2 (readBuffer d) k (ahd_read_min_bytes d) (os s) = Ok (cb, w, true) →
  Cbb.used_size (readBuffer d) < Cbb.used_size cb → ahd_read_min_bytes d ≤ Cbb.used_size cb →
  ∃ s1 a, infraProcessReadEvent user o s = run_cmds (code h a s1) s1 ∧
    socks s1 = <[o := with_read None (ahd_read_min_bytes d) (with_readBuffer cb d)]> (socks s) ∧
    handed h to w (os s1) a (inl (of_outcome ok)) ∧ dangles a (of_outcome ok) (os s1) ∧
    (lets_go a (code h a s1) → infraProcessReadEvent user o s = UB) ∧
    ∀ now m hs, Timers.take_due now (htimers (os s1)) = Ok (m, hs) → wakes h ∉ hs.
Proof.
  intros Hw Hd Hh Hk Hr Hgrow Hmin.
  assert (Hw' : waiting h to w).
  { eapply (reads_leave_host (waiting h to)); [|exact Hr|exact Hw]. intros w0 x. by apply waiting_other. }
  destruct (w_frame _ _ _ Hw') as (f & Hf & Hx & Hst).
  destruct (timed_resume_ends h to w f (inl (of_outcome ok)) (w_wf _ _ _ Hw') (w_awaiter _ _ _ Hw') (w_to _ _ _ Hw')
    (w_fresh _ _ _ Hw') Hf) as (w1 & a & Hw1 & He); [by unfold result_of; rewrite Hx, Hst|].
  pose proof (handed_dangles _ _ _ _ _ _ (w_fresh _ _ _ Hw') He) as Hdg.
  assert (Hrun : ∃ s1, infraProcessReadEvent user o s = run_cmds (code h a s1) s1 ∧
    socks s1 = <[o := with_read None (ahd_read_min_bytes d) (with_readBuffer cb d)]> (socks s) ∧ os s1 = w1).
  { eexists. unfold infraProcessReadEvent, get_entry.
    rewrite Hd, bind_Ok, Hk, bind_Ok, Hh, Hr, bind_Ok. cbn [negb].
    rewrite !bool_decide_eq_true_2 by lia. unfold resume_reader, get_entry, emit.
    cbn [socks with_os put with_socks]. rewrite lookup_insert_eq, bind_Ok. cbn [Awaits.user].
    rewrite (wake_runs h false _ w1 a) by exact Hw1. split; [reflexivity|]. split; [|done].
    cbn [socks with_os put with_socks log]. by rewrite insert_insert_eq. }
  destruct Hrun as (s1 & Hrun & Hs1 & Ho). exists s1, a. rewrite Ho. split_and!; try done.
  - intros Hlet. rewrite Hrun. eapply lets_go_fails; [rewrite Ho; exact Hdg|done].
  - intros now m hs. eapply ended_never_woken; [apply Hw'|apply He].
Qed.

Lemma put_timers_same (s : state) : put_timers (htimers (os s)) s = s.
Proof. by destruct s as [? ? ? ? ? [] ?]. Qed.

Lemma on_timers_run cs m (s : state) :
  on_timers cs (m, s) = (s' ← run_cmds (cs (put_timers m s)) (put_timers m s); Ok (htimers (os s'), s')).
Proof. done. Qed.

(** the time limit of [h] passes: the status is set and the coroutine resumed *)
Lemma host_expires h to w now m :
  waiting h to w → Timers.take_due now (htimers w) = Ok (m, [wakes h]) →
  ∃ c w1 a, Coro.setCoroStatus h (code_of timeout) (hcoros w) = Ok c ∧
    timed_resume of_outcome h (with_htimers m (with_hcoros c w)) = Ok (w1, a) ∧
    dangles a (of_outcome timeout) w1 ∧ Timers.timers (htimers w1) !! to = None ∧
    (∀ now' m' hs, Timers.take_due now' (htimers w1) = Ok (m', hs) → wakes h ∉ hs).
Proof.
  intros Hw Hd. destruct (w_frame _ _ _ Hw) as (f & Hf & Hx & _).
  destruct (Timers.take_due_spec now _ (w_wf _ _ _ Hw)) as (m1 & hs1 & due & Hd1 & Hm & _ & _ & _ & Hts & Hno & _).
  assert (m1 = m) as -> by congruence.
  set (f' := Coro.mkFrame (Coro.set_edata (code_of timeout) (Coro.isException (Coro.prom f)) (Coro.e (Coro.prom f)) (Coro.prom f)) (Coro.at_ f)).
  set (w0 := with_htimers m (with_hcoros (Coro.with_frame h f' (hcoros w)) w)).
  assert (Hn : Coro.frames (hcoros w0) !! Coro.next (hcoros w0) = None).
  { cbn. pose proof (w_fresh _ _ _ Hw) as Hn. rewrite lookup_insert_ne; [done|]. congruence. }
  destruct (timed_resume_ends h to w0 f' (inl (of_outcome timeout))) as (w1 & a & Hw1 & He).
  { exact Hm. } { apply Hw. } { apply Hw. } { exact Hn. } { cbn. apply lookup_insert_eq. } { unfold result_of. cbn. by rewrite Hx. }
  assert (Hs : only_timer h to m).
  { intros i e' He' Hh. destruct (Timers.timers (htimers w) !! i) as [e|] eqn:Hi; [|by rewrite (Hno _ Hi) in He'].
    apply (w_only _ _ _ Hw i e Hi). rewrite (Hts _ _ Hi) in He'. unfold Timers.fired in He'.
    destruct (Timers.is_due now e), (Timers.handleDestroyed e); by simplify_eq/=. }
  exists (Coro.with_frame h f' (hcoros w)), w1, a. split.
  { unfold Coro.setCoroStatus, Coro.on_promise, Coro.frame_of. by rewrite Hf. }
  split; [exact Hw1|]. split; [by eapply handed_dangles|]. pose proof He as [(_ & Hto & _) _]. split.
  - rewrite Hto. apply lookup_delete_eq.
  - intros now' m' hs. apply (ended_never_woken h to w0 w1); [done|apply He].
Qed.

(** C34. A wait that nothing serves ends with its time limit: when the timer of the
    coroutine is the one that is due, the coroutine is resumed and the timer is
    gone. The sockets are as they were: the handle of the coroutine is still where
    it waited. As for a wait that is served, it is given an object that holds [timeout], of a
    coroutine whose frame is gone: letting it end is undefined. *)
Theorem timed_wait_expires (s : state) h to now m :
  waiting h to (os s) → Timers.take_due now (htimers (os s)) = Ok (m, [wakes h]) →
  ∃ s1 a, Awaits.infraTimeoutEvents of_outcome exc code callback now s = run_cmds (code h a s1) s1 ∧
    socks s1 = socks s ∧ table s1 = table s ∧ dangles a (of_outcome timeout) (os s1) ∧
    (lets_go a (code h a s1) → Awaits.infraTimeoutEvents of_outcome exc code callback now s = UB) ∧
    Timers.timers (htimers (os s1)) !! to = None ∧
    (∀ now' m' hs, Timers.take_due now' (htimers (os s1)) = Ok (m', hs) → wakes h ∉ hs).
Proof.
  intros Hw Hd. destruct (host_expires h to _ now m Hw Hd) as (c & w1 & a & Hc & Hw1 & Hdg & Hto & Hn).
  set (w0 := with_htimers m (with_hcoros c (os s))) in *. set (s1 := with_os w1 (with_os w0 s)).
  assert (Hrun : Awaits.infraTimeoutEvents of_outcome exc code callback now s = run_cmds (code h a s1) s1).
  { unfold Awaits.infraTimeoutEvents, Timers.infraTimeoutEvents.
    cbn [fst snd]. rewrite Hd, bind_Ok. cbn [Timers.run_handlers wakes Timers.cb Timers.h fst snd].
    rewrite on_timers_run. unfold setCoroStatus. rewrite Hc.
    change (put_timers m _) with (with_os w0 s).
    rewrite (wake_runs h false (with_os w0 s) w1 a) by exact Hw1. fold s1.
    destruct (run_cmds _ _) as [s2| | | |]; [|done..]. rewrite !bind_Ok. cbn [snd fst].
    by rewrite put_timers_same. }
  exists s1, a. split_and!; try done.
  intros Hlet. rewrite Hrun. by eapply lets_go_fails.
Qed.

(** The time limit of [a_request] is not noticed. When it passes and no request has
    come in since the server started, an assertion fails; when one has, the coroutine
    is given that one again, with its response, as if it were new. *)
Theorem timed_out_request {R : Type} (w : host W V X CB) h to f (ahd : option R * option R) :
  Timers.wf (htimers w) → awaiters w !! h = Some to → to ≠ 0%Z →
  Coro.frames (hcoros w) !! h = Some f → Coro.isException (Coro.prom f) = false →
  Coro.status (Coro.prom f) = code_of timeout →
  match ahd with
  | (Some request, Some response) => ∃ w', a_request_resume true ahd h w = Ok (w', inl (request, response)) ∧ ended h to w w'
  | _ => a_request_resume true ahd h w = AssertFail
  end.
Proof.
  intros Hwf Ha Hto Hf Hx _. unfold a_request_resume. rewrite Ha.
  destruct (TimersSpec.clearTimeout_deletes to _ Hwf Hto) as (m & -> & Hm & Hts).
  rewrite bind_Ok. unfold Coro.isCoroException, Coro.frame_of. rewrite Hf, !bind_Ok, Hx.
  destruct ahd as [[rq|] [rs|]]; [|done..]. rewrite bind_Ok. eexists; split; [reflexivity|].
  split; [by apply ended_after_clear|done].
Qed.

Lemma i32_small z : (0 ≤ z ≤ INT32_MAX)%Z → i32 z = z.
Proof.
  intros Hz. unfold i32, u32, INT32_MAX in *. rewrite Z.mod_small by lia. by rewrite bool_decide_eq_true_2 by lia.
Qed.
Lemma i32_large z : (INT32_MAX < z < 2 ^ 32)%Z → (i32 z < 0)%Z.
Proof.
  intros Hz. unfold i32, u32, INT32_MAX in *. rewrite Z.mod_small by lia. rewrite bool_decide_eq_false_2 by lia. lia.
Qed.

(** A read with a time limit that has to wait is armed at once: the coroutine is
    registered with the socket and with one timer, due exactly [period] milliseconds
    from now (one, if it is 0). The limit is an [uint32_t] but goes through an
    [int32_t] and a product in [int]: from 2147484 milliseconds on, 36 minutes, the
    call is undefined. *)
Theorem timed_read_armed (s : state) o d h period min_bytes max_bytes :
  Timers.wf (htimers (os s)) → (0 ≤ clock (os s) < 2 ^ 63)%Z → (0 ≤ period < 2 ^ 32)%Z →
  (0 ≤ Timers.lastId (htimers (os s)) < 2 ^ 63)%Z →
  (∀ i, Timers.timers (htimers (os s)) !! i ≠ None → i ≤ Timers.lastId (htimers (os s)))%Z →
  (∀ i e, Timers.timers (htimers (os s)) !! i = Some e → Timers.handler e ≠ wakes h) →
  (∃ f, Coro.frames (hcoros (os s)) !! h = Some f ∧ Coro.isException (Coro.prom f) = false) →
  Coro.frames (hcoros (os s)) !! Coro.next (hcoros (os s)) = None →
  socks s !! o = Some d → Cbb.used_size (readBuffer d) < min_bytes →
  if bool_decide (period ≤ 2147483)%Z
  then ∃ s' to e, run_cmds (a_read_timed o period min_bytes max_bytes h) s = Ok s' ∧ waiting h to (os s') ∧
    socks s' = <[o := with_read (Some h) min_bytes d]> (socks s) ∧
    Timers.timers (htimers (os s')) !! to = Some e ∧ Timers.active e = true ∧
    Timers.nextTimeout e = Some (clock (os s) + Z.max 1 period * 1000)%Z
  else run_cmds (a_read_timed o period min_bytes max_bytes h) s = UB.
Proof.
  intros Hwf Hclk Hper Hlast Hids Hother (f & Hf & Hx) Hn Hd Hmin.
  unfold a_read_timed. cbn [run_cmds run_cmd]. unfold get. rewrite Hd, !bind_Ok, (bool_decide_eq_false_2 (min_bytes ≤ _)) by lia.
  unfold on_host, timed_suspend, Coro.initCoroData, Coro.on_promise, Coro.frame_of.
  cbn [os put with_socks]. rewrite Hf, !bind_Ok. unfold Timers.setTimeoutForAction, Timers.appSetTimeout_h.
  destruct (bool_decide_reflect (period ≤ 2147483)%Z) as [Hle|Hgt].
  - rewrite i32_small by (unfold INT32_MAX; lia).
    assert (Hok : TimersSpec.ms_ok period) by (unfold TimersSpec.ms_ok; lia).
    destruct (TimersSpec.appSetTimeoutImpl_spec (wakes h) period (clock (os s)) _ Hwf Hok) as (m & to & Hm & Hwf' & Hres).
    destruct Hres as [-> Hts].
    { apply eq_None_not_Some. intros [e He]. rewrite u64_small in He by lia.
      specialize (Hids (Timers.lastId (htimers (os s)) + 1)%Z). rewrite He in Hids. specialize (Hids ltac:(done)). lia. }
    fold (wakes h). rewrite Hm, !bind_Ok.
    assert (Hthe : (TimersSpec.the_ms period = Z.max 1 period)%Z) by (unfold TimersSpec.the_ms; case_bool_decide; lia).
    rewrite Hthe, !u64_small in Hts by lia. rewrite u64_small by lia.
    eexists _, _, _; split; [reflexivity|]. split; [|split; [done|]].
    + constructor; cbn [htimers hcoros awaiters os with_os with_awaiters with_htimers with_hcoros].
      * done.
      * apply lookup_insert_eq.
      * lia.
      * eexists; rewrite Hts, lookup_insert_eq. split; [done|]. done.
      * intros i e He Hh. rewrite Hts in He. apply lookup_insert_Some in He as [[<- _]|[_ He]]; [done|].
        by apply Hother in He.
      * eexists; cbn; rewrite lookup_insert_eq. split; [done|]. done.
      * cbn. rewrite lookup_insert_ne; [done|]. congruence.
    + cbn. rewrite Hts, lookup_insert_eq. split; [done|]. done.
  - assert (Hov : ∀ z m, (z < 0 ∨ 2147483 < z)%Z →
      Timers.appSetTimeoutImpl (CB:=CB) (wakes h) z (clock (os s)) m = UB).
    { intros z m Hz. unfold Timers.appSetTimeoutImpl, INT32_MAX, in_i32. rewrite (bool_decide_eq_false_2 (z = 0)%Z) by lia.
      destruct (bool_decide_reflect (z < 0)%Z); by rewrite bool_decide_eq_false_2 by lia. }
    fold (wakes h). rewrite Hov; [done|].
    destruct (decide (period ≤ INT32_MAX)%Z) as [Hi|Hi].
    + rewrite i32_small by lia. lia.
    + left. apply i32_large. lia.
Qed.
End spec.
End AwaitsSpec.

(** ** Concrete instances *)
Module AwaitsExample.
Import Tcp Awaits AwaitsSpec TcpExample.
Abbreviation host1 := (host net nat nat nat).
Abbreviation mgr_host := (mgr nat (NetTable.N.t nat) host1).

(** coroutine 7, no timer yet, and the data that is to come in *)
Definition coros1 : Coro.t nat nat := Coro.mk {[7 := Coro.mkFrame (Coro.new_promise 0) None]} ∅ 8.
Definition calm (bs : list u8) : host1 := mkHost (TcpSpec.receives bs) Timers.init coros1 ∅ 1000.
Definition idle1 : mgr_host := mk {[5 := connected1]} assoc1 [] [] Buffer.empty_buffer (calm [x0a; x0b; x0c]) [].

(** 7 waits for three bytes of socket 5 for at most 50 milliseconds *)
Definition timers7 : Timers.t nat nat :=
  match Timers.setTimeoutForAction 7 50 1000 Timers.init with Ok (m, _) => m | _ => Timers.init end.
Definition waiting_host : host1 := mkHost (TcpSpec.receives [x0a; x0b; x0c]) timers7 coros1 {[7 := 1%Z]} 1000.
Definition waiting1 : mgr_host :=
  mk {[5 := with_read (Some 7) 3 connected1]} assoc1 [] [] Buffer.empty_buffer waiting_host [].

(** the values are the numbers of the outcomes *)
Definition numbered (r : CoroStandardOutcomes) : nat := Z.to_nat (code_of r).

(** the coroutine lets the object it is given end; or it keeps it, in a variable, and waits for something else *)
Definition discards (h : coro) (a : nat) (_ : mgr_host) : list (Cmd nat host1) := [CHost (discard a); CHost (finish h)].
Definition keeps (h : coro) (a : nat) (_ : mgr_host) : list (Cmd nat host1) := [].
Definition nothing {A : Type} (_ : A) (_ : mgr_host) : list (Cmd nat host1) := [].
Definition nobody (_ : nat) (_ : Event) (_ : mgr_host) : list (Cmd nat host1) := [].

Lemma timers7_wf : Timers.wf timers7.
Proof.
  unfold timers7, Timers.setTimeoutForAction, Timers.appSetTimeout_h.
  destruct (TimersSpec.appSetTimeoutImpl_spec (Timers.mkHandler None (Some 7)) 50 1000 (Timers.init (CB:=nat) (H:=nat)))
    as (m & i & -> & Hwf & _); [apply Timers.wf_init|vm_compute; split; discriminate|done].
Qed.

Lemma waiting1_waits : waiting 7 1 (os waiting1).
Proof.
  constructor; [| |discriminate|..]; try (vm_compute; reflexivity).
  - apply timers7_wf.
  - eexists; vm_compute; split; [reflexivity|]. split; reflexivity.
  - intros i e He _. revert He. change (Timers.timers (htimers (os waiting1))) with
      (Timers.timers timers7). replace (Timers.timers timers7) with ({[1%Z := default (Timers.mkEntry (wakes 7) 0 None 0 None false false) (Timers.timers timers7 !! 1%Z)]} : gmap Z (Timers.TimeoutEntry nat nat)) by (vm_compute; reflexivity).
    rewrite lookup_singleton_Some. by intros [<- _].
  - eexists; vm_compute; split; [reflexivity|]. split; reflexivity.
Qed.

(** the whole wait, computed: the data wins, the timer wins *)
Example data_in_time :
  match infraProcessReadEvent (user numbered 9 keeps nobody) 5 waiting1 with
  | Ok s => (trace s, map_to_list (Timers.timers (htimers (os s))), Coro.objects (hcoros (os s)) !! 8)
  | _ => ([], [], None)
  end = ([(5, EvResumed 7 false)], [], Some (over 8 (inl 0))).
Proof. vm_compute. reflexivity. Qed.
Example time_out :
  match Awaits.infraTimeoutEvents numbered 9 keeps nothing 51000 waiting1 with
  | Ok s => (map_to_list (Timers.timers (htimers (os s))), Coro.objects (hcoros (os s)) !! 8)
  | _ => ([], None)
  end = ([], Some (over 8 (inl 1))).
Proof. vm_compute. reflexivity. Qed.

Lemma timed_wait_served_witness :
  (∃ cb w s1 a, infraProcessReadEvent (user numbered 9 keeps nobody) 5 waiting1 = run_cmds (keeps 7 a s1) s1 ∧
    handed 7 1 w (os s1) a (inl 0) ∧ Cbb.used_size cb = 3) ∧
  infraProcessReadEvent (user numbered 9 discards nobody) 5 waiting1 = UB.
Proof.
  assert (Hb : match infraGetPacketBytes2 (readBuffer connected1) 9 3 (os waiting1) with
               | Ok (cb, _, b) => (Cbb.used_size cb, b) | _ => (0, false) end = (3, true)) by (vm_compute; reflexivity).
  destruct (infraGetPacketBytes2 (readBuffer connected1) 9 3 (os waiting1)) as [[[cb w] b]| | | |] eqn:Hr; try discriminate Hb.
  injection Hb as Hu ->. split.
  - destruct (timed_wait_served numbered 9 keeps nobody waiting1 5 (with_read (Some 7) 3 connected1) 9%Z 7 1%Z cb w)
      as (s1 & a & He & _ & Hend & _).
    + apply waiting1_waits.
    + reflexivity.
    + reflexivity.
    + vm_compute. reflexivity.
    + exact Hr.
    + rewrite Hu. apply Nat.ltb_lt. vm_compute. reflexivity.
    + rewrite Hu. apply Nat.leb_le. reflexivity.
    + exists cb, w, s1, a. split_and!; done.
  - destruct (timed_wait_served numbered 9 discards nobody waiting1 5 (with_read (Some 7) 3 connected1) 9%Z 7 1%Z cb w)
      as (s1 & a & _ & _ & _ & _ & Hub & _).
    + apply waiting1_waits.
    + reflexivity.
    + reflexivity.
    + vm_compute. reflexivity.
    + exact Hr.
    + rewrite Hu. apply Nat.ltb_lt. vm_compute. reflexivity.
    + rewrite Hu. apply Nat.leb_le. reflexivity.
    + apply Hub. by eexists.
Defined.

Lemma due_51000 : ∃ m, Timers.take_due 51000 (htimers (os waiting1)) = Ok (m, [wakes 7]).
Proof.
  destruct (Timers.take_due 51000 (htimers (os waiting1))) as [[m hs]| | | |] eqn:Hd.
  2-5: exfalso; revert Hd; vm_compute; discriminate.
  exists m. f_equal. f_equal. revert Hd. vm_compute. intros; by simplify_eq/=.
Qed.

Lemma timed_wait_expires_witness :
  (∃ s1 a, Awaits.infraTimeoutEvents numbered 9 keeps nothing 51000 waiting1 = run_cmds (keeps 7 a s1) s1 ∧
    socks s1 = socks waiting1 ∧ dangles a 1 (os s1)) ∧
  Awaits.infraTimeoutEvents numbered 9 discards nothing 51000 waiting1 = UB.
Proof.
  destruct due_51000 as [m Hd]. split.
  - destruct (timed_wait_expires numbered 9 keeps nothing waiting1 7 1%Z 51000 m waiting1_waits Hd)
      as (s1 & a & He & Hs & _ & Hdg & _). exists s1, a. split; [exact He|]. split; [exact Hs|exact Hdg].
  - destruct (timed_wait_expires numbered 9 discards nothing waiting1 7 1%Z 51000 m waiting1_waits Hd)
      as (s1 & a & _ & _ & _ & _ & Hub & _). apply Hub. by eexists.
Defined.

Lemma timed_read_armed_witness :
  (∃ s' to e, run_cmds (a_read_timed 5 50 3 8 7) idle1 = Ok s' ∧ waiting 7 to (os s') ∧
    Timers.timers (htimers (os s')) !! to = Some e ∧ Timers.nextTimeout e = Some 51000%Z) ∧
  run_cmds (a_read_timed 5 2147484 3 8 7) idle1 = UB.
Proof.
  assert (Hf : ∃ f, Coro.frames (hcoros (os idle1)) !! 7 = Some f ∧ Coro.isException (Coro.prom f) = false)
    by (eexists; vm_compute; split; reflexivity).
  assert (Hu : Cbb.used_size (readBuffer connected1) < 3) by (apply Nat.ltb_lt; vm_compute; reflexivity).
  assert (Hno : ∀ i, Timers.timers (htimers (os idle1)) !! i = None) by (intros i; apply lookup_empty).
  assert (Hwf : Timers.wf (htimers (os idle1))) by apply Timers.wf_init.
  assert (Hids : ∀ i, Timers.timers (htimers (os idle1)) !! i ≠ None → (i ≤ 0)%Z) by (intros i Hi; by rewrite Hno in Hi).
  assert (Hother : ∀ i e, Timers.timers (htimers (os idle1)) !! i = Some e → Timers.handler e ≠ wakes 7)
    by (intros i e He; by rewrite Hno in He).
  split.
  - destruct (timed_read_armed idle1 5 connected1 7 50 3 8) as (s' & to & e & ? & ? & ? & ? & ? & ?); try done.
    by exists s', to, e.
  - by apply (timed_read_armed idle1 5 connected1 7 2147484 3 8).
Defined.

(** the time limit of 7 has passed while it waited for a request *)
Definition expired_host : host1 :=
  mkHost (hos waiting_host) timers7
    (match Coro.setCoroStatus 7 (code_of timeout) coros1 with Ok c => c | _ => coros1 end) (awaiters waiting_host) 51000.
Lemma timed_out_request_witness :
  a_request_resume (R:=nat) true (None, None) 7 expired_host = AssertFail ∧
  ∃ w', a_request_resume true (Some 3, Some 4) 7 expired_host = Ok (w', inl (3, 4)).
Proof.
  assert (Hf : ∃ f, Coro.frames (hcoros expired_host) !! 7 = Some f ∧ Coro.isException (Coro.prom f) = false ∧
    Coro.status (Coro.prom f) = code_of timeout) by (eexists; vm_compute; split_and!; reflexivity).
  destruct Hf as (f & Hf & Hx & Hs).
  split.
  - apply (timed_out_request expired_host 7 1%Z f (None, None)); [apply timers7_wf|reflexivity|discriminate|done..].
  - destruct (timed_out_request expired_host 7 1%Z f (Some 3, Some 4)) as (w' & Hw & _);
      [apply timers7_wf|reflexivity|discriminate|done..|]. by exists w'.
Defined.

Definition line1 : Buffer.t := Buffer.mk 0 Buffer.MIN_BUFFER (Some (uninit Buffer.MIN_BUFFER)).
Lemma readUntil_first_data_witness :
  (∃ cb' b', Until.a_readUntil x0b [] line1 CbbSpec.straight = Ok (cb', b', Until.Returned ok) ∧
    Buffer.contents b' = (Some <$> [x0a; x0b])) ∧
  Until.a_readUntil x0f [Some <$> [x0e; x0f]] line1 CbbSpec.straight = AssertFail.
Proof.
  split; [eexists _, _; split; vm_compute; reflexivity|].
  assert (Hq : CbbSpec.Represents CbbSpec.straight [x0a; x0b; x0c; x0d]) by (split; [apply TcpSpec.straight_wf|reflexivity]).
  destruct (UntilSpec.readUntil_first_data x0f line1 CbbSpec.straight [x0a; x0b; x0c; x0d])
    as (p & rest & r & Hp & Ho & Hr); [done|done|split_and!; [reflexivity|apply Nat.leb_le; reflexivity..]|reflexivity|discriminate|].
  destruct r.
  1: { destruct Ho as (p' & -> & _ & _). exfalso. apply (f_equal (λ l, bool_decide (x0f ∈ l))) in Hp. revert Hp.
       rewrite (bool_decide_eq_true_2 (x0f ∈ (p' ++ [x0f]) ++ rest)) by set_solver. vm_compute. discriminate. }
  1: done.
  1: { destruct Ho as [_ Hl]. apply (f_equal length) in Hp. rewrite length_app, Hl in Hp. vm_compute in Hp. lia. }
  2: done.
  apply Hr. apply TcpSpec.small_fits. apply Nat.ltb_lt. vm_compute. reflexivity.
Defined.
End AwaitsExample.
