(* ===== verification/Emitting.v ===== *)
(** * What sockets and servers tell their users (include/nodecpp/socket_common.h, server_common.h)

    A socket or server has an emitter ([ListenerEmitter]) and a list of
    user-defined handlers ([Handlers]) for each kind of event; both classes repeat
    the same code for their kinds. [Emitting] is that code for any set of kinds,
    [SocketEvents] and [ServerEvents] are the two classes. [SocketEvents.user]
    makes what a socket reports of it, and so completes the sockets of TcpSocket.v:
    the callbacks and handlers are arbitrary lists of calls. [EmittingSpec] shows
    what is called and what is not. *)

From S2P Require Import Prelude.
From S2P Require Import Events.
From S2P Require Import Handlers.
From S2P Require Import NetRegistry.
From S2P Require Import TcpSocket.
From S2P Require Import TcpSocketSpec.
From Stdlib Require Import Lia.
From Stdlib Require Import FunctionalExtensionality.

Module Emitting.
Module LE := Events.ListenerEmitter.
Module H := Handlers.Handlers.

Section defs.
(** kinds of event, callbacks, listeners, member functions, objects, sockets *)
Context {K CB L F Obj Ob : Type} `{EqDecision K, EqDecision F, EqDecision Obj}.

(** the wrappers of a member function of the class itself ([connectHandler] and its
    like) and of one of the node ([connectHandlerFromNode] ...) *)
Inductive handlerFn : Type := OwnMember (f : F) | NodeMember (f : F).
#[export] Instance handlerFn_eq_dec : EqDecision handlerFn.
Proof. solve_decision. Defined.

(** one member for each kind: [eClose], [eConnect] ...; [userDefCloseHandlers] ... *)
Definition put {A : Type} (k : K) (x : A) (f : K → A) : K → A := λ k', if decide (k' = k) then x else f k'.

(** ** [UserHandlersForDataCollecting] *)
Definition collecting : Type := K → H.base handlerFn Obj.
Definition addHandler (k : K) (f : F) (c : collecting) : res collecting :=
  b ← H.add (OwnMember f) None (c k); Ok (put k b c).
Definition addHandlerFromNode (k : K) (f : F) (object : Obj) (c : collecting) : res collecting :=
  b ← H.add (NodeMember f) (Some object) (c k); Ok (put k b c).

(** ** [UserHandlers], the emitters *)
Record t : Type := mk {
  emitters : K → LE.t CB L;
  ownedListeners : list L;
  initialized : bool;
  handlers : K → H.opt handlerFn Obj;
}.
Definition fresh : t := mk (λ _, []) [] false (λ _, H.opt_init).
Definition with_emitters (x : K → LE.t CB L) (s : t) : t := mk x (ownedListeners s) (initialized s) (handlers s).
Definition with_emitter (k : K) (x : LE.t CB L) (s : t) : t := with_emitters (put k x (emitters s)) s.

Fixpoint from_each (ks : list K) (pattern : collecting) (dflt : option Obj) (h : K → H.opt handlerFn Obj)
  : res (K → H.opt handlerFn Obj) :=
  match ks with
  | [] => Ok h
  | k :: ks => x ← H.from (pattern k) dflt (h k); from_each ks pattern dflt (put k x h)
  end.
Definition from (ks : list K) (pattern : collecting) (defaultObjPtr : option Obj) (s : t) : res t :=
  if initialized s then Ok s
  else
    ASSERT bool_decide (is_Some defaultObjPtr) ;;
    h ← from_each ks pattern defaultObjPtr (handlers s);
    Ok (mk (emitters s) (ownedListeners s) true h).

Definition on (k : K) (cb : CB) (s : t) : t := with_emitter k (LE.on cb (emitters s k)) s.
Definition once (k : K) (cb : CB) (s : t) : t := with_emitter k (LE.once cb (emitters s k)) s.

(** a listener is registered with every emitter *)
Fixpoint each_emitter (f : LE.t CB L → res (LE.t CB L)) (ks : list K) (s : t) : res t :=
  match ks with
  | [] => Ok s
  | k :: ks => x ← f (emitters s k); each_emitter f ks (with_emitter k x s)
  end.
Definition on_ (ks : list K) (p : option L) (s : t) : res t := each_emitter (LE.on_listener p) ks s.
Definition once_ (ks : list K) (p : option L) (s : t) : res t := each_emitter (LE.once_listener p) ks s.
Definition own (l : L) (s : t) : t := mk (emitters s) (ownedListeners s ++ [l]) (initialized s) (handlers s).
Definition on_owned (ks : list K) (l : L) (s : t) : res t := on_ ks (Some l) (own l s).
Definition once_owned (ks : list K) (l : L) (s : t) : res t := once_ ks (Some l) (own l s).

(** ** Reporting an event

    Code of the user is the calls it makes, and whether it registers with the emitter
    that runs it. [address o] is the address of the object [o]; a member function of
    the object's own class is asserted to be called on it. *)
Context {C A : Type} (address : Ob → Obj).
Context (callback : CB → A → list C * bool) (listener : L → K → A → list C * bool).
Context (member : F → Obj → Ob → A → list C).

Definition emit (k : K) (a : A) (s : t) : res (t * list C) :=
  '(l, cs) ← LE.emit (λ cb cs, Ok (cs ++ (callback cb a).1, (callback cb a).2))
               (λ p cs, Ok (cs ++ (listener p k a).1, (listener p k a).2)) (emitters s k, []);
  Ok (with_emitter k l s, cs).

Definition run_handler (o : Ob) (a : A) (f : handlerFn) (obj : Obj) (cs : list C) : res (list C) :=
  match f with
  | OwnMember f => ASSERT bool_decide (obj = address o) ;; Ok (cs ++ member f obj o a)
  | NodeMember f => Ok (cs ++ member f obj o a)
  end.

(** [emitConnect(); if (isConnectEventHandler()) handleConnectEvent(...)] and its like *)
Definition report (k : K) (o : Ob) (a : A) (s : t) : res (t * list C) :=
  '(s, cs) ← emit k a s;
  if H.willHandle (handlers s k) then
    cs' ← H.execute (run_handler o a) (handlers s k) []; Ok (s, cs ++ cs')
  else Ok (s, cs).
End defs.
Arguments handlerFn : clear implicits.
Arguments collecting : clear implicits.
Arguments t : clear implicits.
End Emitting.

(** ** Sockets *)
Module SocketEvents.
Import Tcp.
Module E := Emitting.

Inductive kind : Type := KAccepted | KConnect | KData | KDrain | KEnd | KClose | KError.
#[export] Instance kind_eq_dec : EqDecision kind.
Proof. solve_decision. Defined.

(** the orders in which [UserHandlers::from] and [on_] go through the members *)
Definition handler_order : list kind := [KAccepted; KConnect; KData; KDrain; KEnd; KClose; KError].
Definition emitter_order : list kind := [KClose; KConnect; KData; KDrain; KError; KEnd; KAccepted].

Definition name (k : kind) : string :=
  match k with
  | KAccepted => "accepted" | KConnect => "connect" | KData => "data" | KDrain => "drain"
  | KEnd => "end" | KClose => "close" | KError => "error"
  end.

(** the type of a callback chooses the overload of [on( string_literal, ...)] *)
Inductive signature : Type := WithFlag | WithBuffer | WithError | NoArgument.
(** [string_literal] is not part of the repository: [same] is its equality *)
Definition by_name (same : string → string → bool) (n : string) (g : signature) : res kind :=
  match g with
  | WithFlag => ASSERT same n (name KClose) ;; Ok KClose
  | WithBuffer => ASSERT same n (name KData) ;; Ok KData
  | WithError => ASSERT same n (name KError) ;; Ok KError
  | NoArgument =>
      if same n (name KDrain) then Ok KDrain
      else if same n (name KConnect) then Ok KConnect
      else if same n (name KEnd) then Ok KEnd
      else if same n (name KAccepted) then Ok KAccepted
      else AssertFail
  end.

Section world.
Context {Ob T W CB L F Obj : Type} `{Countable Ob} `{EqDecision F, EqDecision Obj}.
Context `{!SockTable Ob T, !OS W}.
Abbreviation events := (E.t kind CB L F Obj).

(** the code of [Emitting] for the kinds of a socket *)
Definition from : E.collecting kind F Obj → option Obj → events → res events := E.from handler_order.
Definition on_ : option L → events → res events := E.on_ emitter_order.
Definition once_ : option L → events → res events := E.once_ emitter_order.
Definition on_owned : L → events → res events := E.on_owned emitter_order.
Definition once_owned : L → events → res events := E.once_owned emitter_order.

Definition on_named same (n : string) (g : signature) (cb : CB) (s : events) : res events :=
  k ← by_name same n g; Ok (E.on k cb s).
Definition once_named same (n : string) (g : signature) (cb : CB) (s : events) : res events :=
  k ← by_name same n g; Ok (E.once k cb s).

(** the world of the sockets with what their users have registered *)
Record host : Type := mkHost { hos : W; hevents : gmap Ob events; _bytesRead : gmap Ob nat }.
Definition with_hos (x : W) (w : host) : host := mkHost x (hevents w) (_bytesRead w).
Definition with_events (x : gmap Ob events) (w : host) : host := mkHost (hos w) x (_bytesRead w).
Definition lift {A : Type} (f : W → W * A) (w : host) : host * A :=
  let '(x, a) := f (hos w) in (with_hos x w, a).

#[export] Instance host_os : OS host := {|
  sys_socket := lift sys_socket;
  sys_ioctl_async k := lift (sys_ioctl_async k);
  sys_connect k ip port := lift (sys_connect k ip port);
  sys_sendto k d := lift (sys_sendto k d);
  sys_recvfrom k n := lift (sys_recvfrom k n);
  sys_so_error k := lift (sys_so_error k);
  sys_shutdown_send k w := with_hos (sys_shutdown_send k (hos w)) w;
  sys_linger_zero k w := with_hos (sys_linger_zero k (hos w)) w;
  sys_keep_alive k b := lift (sys_keep_alive k b);
  sys_no_delay k b := lift (sys_no_delay k b);
  sys_close k w := with_hos (sys_close k (hos w)) w;
|}.

Definition registered (o : Ob) (w : host) : res events :=
  match hevents w !! o with Some e => Ok e | None => UB end.
Definition on_events (o : Ob) (f : events → res events) (w : host) : res host :=
  e ← registered o w; e ← f e; Ok (with_events (<[o := e]> (hevents w)) w).
Definition count_read (o : Ob) (n : nat) (w : host) : res host :=
  Ok (mkHost (hos w) (hevents w) (<[o := default 0 (_bytesRead w !! o) + n]> (_bytesRead w))).

Context (address : Ob → Obj).
Context (callback : CB → Event → list (Cmd Ob host) * bool) (listener : L → kind → Event → list (Cmd Ob host) * bool).
Context (member : F → Obj → Ob → Event → list (Cmd Ob host)).
(** the code of a coroutine that is resumed *)
Context (coroutine : Ob → Event → mgr Ob T host → list (Cmd Ob host)).

(** the calls an event leads to; what the code does to the emitter and whether it fails
    is done as its first step *)
Definition reported (k : kind) (o : Ob) (ev : Event) (s : mgr Ob T host) : list (Cmd Ob host) :=
  CHost (on_events o (λ e, '(e, _) ← E.report address callback listener member k o ev e; Ok e)) ::
  match registered o (os s) with
  | Ok e => match E.report address callback listener member k o ev e with Ok (_, cs) => cs | _ => [] end
  | _ => []
  end.

(** [emitClose] unrefs the socket first, [emitData] counts the bytes *)
Definition user (o : Ob) (ev : Event) (s : mgr Ob T host) : list (Cmd Ob host) :=
  match ev with
  | EvAccepted => reported KAccepted o ev s
  | EvConnect => reported KConnect o ev s
  | EvData bs => CHost (count_read o (length bs)) :: reported KData o ev s
  | EvDrain => reported KDrain o ev s
  | EvEnd => reported KEnd o ev s
  | EvError => reported KError o ev s
  | EvClose _ => CUnref o :: reported KClose o ev s
  | EvResumed _ _ => coroutine o ev s
  end.

(** [connect(port, ip, cb)] and [write(buff, cb)] *)
Definition connect_cb (o : Ob) (port : Z) (ip : string) (cb : CB) : list (Cmd Ob host) :=
  [CHost (on_events o (λ e, Ok (E.once KConnect cb e))); CConnect o ip port].
Definition write_cb (o : Ob) (data : list cell) (cb : CB) (s : mgr Ob T host) : res (mgr Ob T host * bool) :=
  '(s, b) ← appWrite o data s;
  if (b : bool) then Ok (s, b)
  else s ← on_host (on_events o (λ e, Ok (E.once KDrain cb e))) s; Ok (s, b).
End world.
Arguments host : clear implicits.
Arguments host _ _ _ _ _ _ {_ _}.
End SocketEvents.

(** ** Servers *)
Module ServerEvents.
Module E := Emitting.

Inductive kind : Type := KListen | KConnection | KClose | KError.
#[export] Instance kind_eq_dec : EqDecision kind.
Proof. solve_decision. Defined.
Definition handler_order : list kind := [KListen; KConnection; KClose; KError].
Definition emitter_order : list kind := [KClose; KConnection; KListen; KError].

Definition name (k : kind) : string :=
  match k with KListen => "listening" | KConnection => "connection" | KClose => "close" | KError => "error" end.
(** the overload is chosen by the type of the callback, so the name can only be right *)
Definition by_name (same : string → string → bool) (n : string) (k : kind) : res kind :=
  ASSERT same n (name k) ;; Ok k.

Section defs.
Context {CB L F Obj : Type}.
Abbreviation events := (E.t kind CB L F Obj).

(** the code of [Emitting] for the kinds of a server *)
Definition collecting : Type := E.collecting kind F Obj.
Definition addHandler `{EqDecision F, EqDecision Obj} : kind → F → collecting → res collecting := E.addHandler.
Definition addHandlerFromNode `{EqDecision F, EqDecision Obj} : kind → F → Obj → collecting → res collecting :=
  E.addHandlerFromNode.
Definition from : collecting → option Obj → events → res events := E.from handler_order.
Definition on_ : option L → events → res events := E.on_ emitter_order.
Definition once_ : option L → events → res events := E.once_ emitter_order.
Definition on_owned : L → events → res events := E.on_owned emitter_order.
Definition once_owned : L → events → res events := E.once_owned emitter_order.
Definition report {Ob C A : Type} `{EqDecision Obj} (address : Ob → Obj) callback listener (member : F → Obj → Ob → A → list C)
  : kind → Ob → A → events → res (events * list C) := E.report address callback listener member.

Definition on_named same (n : string) (g : kind) (cb : CB) (s : events) : res events :=
  k ← by_name same n g; Ok (E.on k cb s).
Definition once_named same (n : string) (g : kind) (cb : CB) (s : events) : res events :=
  k ← by_name same n g; Ok (E.once k cb s).
(** [close(cb)] and [listen(port, ip, backlog, cb)] before they call the function
    without a callback *)
Definition close_cb (cb : CB) (s : events) : events := E.once KClose cb s.
Definition listen_cb (cb : CB) (s : events) : events := E.once KListen cb s.
End defs.
End ServerEvents.

(** ** HTTP servers (http_server_common.h), over and above those of a server *)
Module HttpEvents.
Module E := Emitting.
Module H := Handlers.Handlers.

Inductive kind : Type := KIncomingRequest | KClose | KError.
#[export] Instance kind_eq_dec : EqDecision kind.
Proof. solve_decision. Defined.
Definition handler_order : list kind := [KIncomingRequest; KClose; KError].

Section defs.
Context {CB F Obj Ob C A : Type} `{EqDecision F, EqDecision Obj}.
Definition collecting : Type := E.collecting kind F Obj.
Definition addHandler : kind → F → collecting → res collecting := E.addHandler.
Definition addHandlerFromNode : kind → F → Obj → collecting → res collecting := E.addHandlerFromNode.

(** [UserHandlers] of [DataForHttpCommandProcessing], [eHttpRequest] *)
Record t : Type := mk { initialized : bool; handlers : kind → H.opt (E.handlerFn F) Obj; eHttpRequest : list (bool * CB) }.
Definition from (pattern : collecting) (defaultObjPtr : option Obj) (s : t) : res t :=
  if initialized s then Ok s
  else
    ASSERT bool_decide (is_Some defaultObjPtr) ;;
    h ← E.from_each handler_order pattern defaultObjPtr (handlers s);
    Ok (mk true h (eHttpRequest s)).
Definition on_named (same : string → string → bool) (n : string) (cb : CB) (s : t) : res t :=
  ASSERT same n "HttpRequest" ;; Ok (mk (initialized s) (handlers s) (eHttpRequest s ++ [(false, cb)])).

(** [handleIncomingRequesEvent]: here the wrappers of own members do not compare objects *)
Context (member : F → Obj → Ob → A → list C).
Definition run_handler (o : Ob) (a : A) (f : E.handlerFn F) (obj : Obj) (cs : list C) : res (list C) :=
  match f with E.OwnMember f | E.NodeMember f => Ok (cs ++ member f obj o a) end.
Definition handleIncomingRequesEvent (o : Ob) (a : A) (s : t) : res (list C) :=
  H.execute (run_handler o a) (handlers s KIncomingRequest) [].
End defs.
Arguments t : clear implicits.
End HttpEvents.

(** ** Theorems *)
Module EmittingSpec.
Import Emitting.

Section spec.
Context {K CB L F Obj Ob : Type} `{EqDecision K, EqDecision F, EqDecision Obj}.
Context {C A : Type} (address : Ob → Obj).
Context (callback : CB → A → list C * bool) (listener : L → K → A → list C * bool).
Context (member : F → Obj → Ob → A → list C).
Abbreviation report := (report address callback listener member).
Abbreviation events := (t K CB L F Obj).

Lemma put_same {X : Type} (k : K) (x : X) f : put k x f k = x.
Proof. unfold put. by rewrite decide_True. Qed.
Lemma put_other {X : Type} (k k' : K) (x : X) f : k' ≠ k → put k x f k' = f k'.
Proof. intros. unfold put. by rewrite decide_False. Qed.
Lemma update_update {X : Type} (k : K) (x y : X) f : put k x (put k y f) = put k x f.
Proof. apply functional_extensionality. intros k'. unfold put. by destruct (decide _). Qed.

(** *** Registering *)
Lemma from_each_spec ks pattern (dflt : option Obj) (h : K → H.opt (handlerFn F) Obj) :
  NoDup ks → (∀ k, k ∈ ks → h k = H.opt_init) →
  ∃ h', from_each ks pattern dflt h = Ok h' ∧ (∀ k, k ∉ ks → h' k = h k) ∧
    ∀ k, k ∈ ks → H.from (pattern k) dflt H.opt_init = Ok (h' k).
Proof.
  intros Hnd. revert h. induction Hnd as [|k ks Hk Hnd IH]; intros h Hh; cbn [from_each].
  { exists h. split_and!; [done..|]. by intros k []%elem_of_nil. }
  rewrite (Hh k) by left. destruct (Handlers.HandlersSpec.optimized_storage_refines (W:=unit) (λ _ _ _, UB) (pattern k) dflt)
    as (x & _ & Hx & _). rewrite Hx, bind_Ok.
  destruct (IH (put k x h)) as (h' & -> & Hout & Hin).
  { intros k' Hk'. rewrite put_other by (by intros ->). apply Hh. by right. }
  exists h'. split_and!; [done| |].
  - intros k' [Hne Hk']%not_elem_of_cons. rewrite Hout by done. by apply put_other.
  - intros k' [->|Hk']%elem_of_cons; [|by apply Hin]. by rewrite Hout, put_same by done.
Qed.

(** what [addHandler] and [addHandlerFromNode] put into a pattern *)
Definition own_or_node (i : H.HandlerInstance (handlerFn F) Obj) : Prop :=
  match H.handler i with
  | Some (OwnMember _) => H.object i = None
  | Some (NodeMember _) => is_Some (H.object i)
  | None => False
  end.
Definition pattern_wf (c : collecting K F Obj) : Prop := ∀ k, Forall own_or_node (c k).

Lemma addHandler_wf k f c c' : addHandler k f c = Ok c' → pattern_wf c → pattern_wf c'.
Proof.
  intros Ha Hwf k'. unfold addHandler, H.add in Ha. inv_res. unfold put.
  destruct (decide (k' = k)) as [->|]; [|apply Hwf]. apply Forall_app. split; [apply Hwf|]. by repeat constructor.
Qed.
Lemma addHandlerFromNode_wf k f p c c' : addHandlerFromNode k f p c = Ok c' → pattern_wf c → pattern_wf c'.
Proof.
  intros Ha Hwf k'. unfold addHandlerFromNode, H.add in Ha. inv_res. unfold put.
  destruct (decide (k' = k)) as [->|]; [|apply Hwf]. apply Forall_app. split; [apply Hwf|].
  repeat constructor. by eexists.
Qed.

(** *** Reporting *)

(** the calls of an entry of an emitter, of a handler *)
Definition entry_code (k : K) (a : A) (e : LE.Element CB L) : list C * bool :=
  match LE.what e with
  | LE.lambda cb => callback cb a
  | LE.listener (Some p) => listener p k a
  | LE.listener None => ([], false)
  end.
Definition handler_code (o : Ob) (a : A) (i : H.HandlerInstance (handlerFn F) Obj) : list C :=
  match H.handler i with
  | Some (OwnMember f) => member f (address o) o a
  | Some (NodeMember f) => member f (default (address o) (H.object i)) o a
  | None => []
  end.

Abbreviation kept l := (filter (λ e : LE.Element CB L, LE.once_ e = false) l).

Lemma fire_all_code k a l cs :
  Forall (λ e, LE.alive e = true) l → Forall (λ e, (entry_code k a e).2 = false) l →
  LE.fire_all (λ cb cs, Ok (cs ++ (callback cb a).1, (callback cb a).2))
    (λ p cs, Ok (cs ++ (listener p k a).1, (listener p k a).2)) l cs
  = Ok (cs ++ concat (map (λ e, (entry_code k a e).1) l)).
Proof.
  intros Hl. revert cs. induction Hl as [|e l He _ IH]; intros cs Hc; cbn [LE.fire_all map concat].
  { by rewrite app_nil_r. }
  inversion Hc as [|? ? Hce Hcl]; subst. unfold LE.fire, LE.alive, entry_code in *.
  destruct (LE.what e) as [cb|[p|]]; [| |done]; rewrite bind_Ok, Hce; cbn [negb]; rewrite IH by done; by rewrite <-app_assoc.
Qed.

Lemma call_each_code o a l cs :
  Forall own_or_node l →
  H.call_each (run_handler address member o a) (H.with_default (Some (address o)) <$> l) cs
  = Ok (cs ++ concat (map (handler_code o a) l)).
Proof.
  intros Hl. revert cs. induction Hl as [|[f p] l Hi _ IH]; intros cs; cbn [H.call_each fmap list_fmap map concat].
  { by rewrite app_nil_r. }
  unfold own_or_node, H.with_default, H.call, handler_code, run_handler in *. cbn [H.handler H.object] in *.
  destruct f as [[f|f]|]; [subst p| |done].
  - cbn [H.handler H.object]. rewrite !bool_decide_eq_true_2 by (done || by eexists). rewrite bind_Ok, IH. by rewrite <-app_assoc.
  - destruct Hi as [q ->]. cbn [H.handler H.object default]. rewrite bool_decide_eq_true_2 by (by eexists).
    rewrite bind_Ok, IH. by rewrite <-app_assoc.
Qed.

(** C32. What an event leads to. For an object whose handlers were set up from the
    pattern of its class, an event of kind [k] runs the code of the callbacks and
    listeners registered with [on], in the order they were, then that of the
    handlers of the pattern in theirs, each on the object it was registered for, or
    on the socket itself. Nothing registered with [once] is run: it is dropped. *)
Theorem report_in_order ks (pattern : collecting K F Obj) (s0 s1 s : events) k o a :
  NoDup ks → k ∈ ks → pattern_wf pattern →
  initialized s0 = false → (∀ k, handlers s0 k = H.opt_init) →
  from ks pattern (Some (address o)) s0 = Ok s1 → handlers s = handlers s1 →
  Forall (λ e, LE.alive e = true) (emitters s k) →
  Forall (λ e, (entry_code k a e).2 = false) (kept (emitters s k)) →
  report k o a s = Ok (with_emitter k (kept (emitters s k)) s,
    concat (map (λ e, (entry_code k a e).1) (kept (emitters s k))) ++ concat (map (handler_code o a) (pattern k))).
Proof.
  intros Hnd Hk Hp Hi0 Hh0 Hfrom Hh Hal Hch.
  unfold from in Hfrom. rewrite Hi0 in Hfrom. inv_res.
  destruct (from_each_spec ks pattern (Some (address o)) (handlers s0) Hnd) as (h' & He & _ & Hin); [by intros; apply Hh0|].
  assert (Hk' : H.from (pattern k) (Some (address o)) H.opt_init = Ok (handlers s k)).
  { rewrite Hh. cbn [handlers]. rewrite (Hin k Hk). f_equal. congruence. }
  destruct (LE.keep_alive _ Hal) as (l & Hl & Hla). pose proof (LE.keep_spec _ _ Hl) as Heq.
  unfold Emitting.report, emit, LE.emit. cbn [fst snd]. rewrite Hl, bind_Ok, Heq.
  rewrite fire_all_code; [|by rewrite <-Heq|done]. rewrite !bind_Ok. cbn [with_emitter with_emitters handlers].
  destruct (Handlers.HandlersSpec.optimized_storage_refines (run_handler address member o a) (pattern k) (Some (address o)))
    as (x0 & b & Hx & Hb & Hw & Hex & _).
  assert (x0 = handlers s k) as -> by congruence.
  unfold H.base_from in Hb. cbn in Hb. injection Hb as <-. cbn [app].
  destruct (H.willHandle (handlers s k)) eqn:Hwill.
  - rewrite Hex by done. by rewrite (call_each_code o a _ [] (Hp k)).
  - symmetry in Hw. unfold H.base_willHandle in Hw. apply bool_decide_eq_false_1 in Hw.
    rewrite length_fmap in Hw. destruct (pattern k); [cbn; by rewrite app_nil_r|by destruct Hw].
Qed.

(** a callback registered with [once] makes no difference to what is reported *)
Lemma once_makes_no_difference k o a cb (s : events) : report k o a (once k cb s) = report k o a s.
Proof.
  assert (Hk : ∀ l : LE.t CB L, LE.keep (LE.once cb l) = LE.keep l).
  { intros l. unfold LE.once. induction l as [|e l IH]; cbn [app LE.keep LE.once_]; [done|].
    destruct (LE.once_ e); [done|]. by rewrite IH. }
  unfold Emitting.report, emit, LE.emit, once, with_emitter, with_emitters.
  cbn [emitters handlers ownedListeners initialized fst snd]. rewrite put_same, Hk.
  destruct (LE.keep (emitters s k)); [|done..]. rewrite !bind_Ok.
  destruct (LE.fire_all _ _ _ _); [|done..]. rewrite !bind_Ok. by rewrite update_update.
Qed.
End spec.
End EmittingSpec.

Module SocketEventsSpec.
Import Tcp SocketEvents.

Section spec.
Context {Ob T W CB L F Obj : Type} `{Countable Ob} `{EqDecision F, EqDecision Obj}.
Context `{!SockTable Ob T, !OS W}.
Abbreviation world := (host Ob W CB L F Obj).
Abbreviation state := (mgr Ob T world).
Context (address : Ob → Obj).
Context (callback : CB → Event → list (Cmd Ob world) * bool) (listener : L → kind → Event → list (Cmd Ob world) * bool).
Context (member : F → Obj → Ob → Event → list (Cmd Ob world)).
Context (coroutine : Ob → Event → state → list (Cmd Ob world)).
Abbreviation user := (user address callback listener member coroutine).

(** the socket as it was before [once] was called *)
Lemma reported_once k o ev cb (s s' : state) :
  on_host (on_events o (λ e, Ok (E.once k cb e))) s = Ok s' →
  run_cmds (reported address callback listener member k o ev (log o ev s')) (log o ev s') =
  run_cmds (reported address callback listener member k o ev (log o ev s)) (log o ev s).
Proof.
  intros Hs. unfold on_host, on_events, registered in Hs.
  destruct (hevents (os s) !! o) as [e|] eqn:He; [|done]. rewrite !bind_Ok in Hs. injection Hs as <-.
  unfold reported. cbn [run_cmds run_cmd]. unfold on_host, on_events, registered.
  cbn [os with_os log hevents with_events]. rewrite lookup_insert_eq, He, !bind_Ok.
  rewrite EmittingSpec.once_makes_no_difference.
  destruct (E.report _ _ _ _ k o ev e) as [[e' cs]| | | |]; [|done..]. rewrite !bind_Ok. f_equal.
  unfold with_os, log, with_events. cbn. by rewrite insert_insert_eq.
Qed.

(** [connect(port, ip, cb)] and [write(buff, cb)] never call [cb]: they register it
    with [once], and what was registered with [once] is dropped when the event comes,
    so that the connect event and the drain event have exactly the effect they have
    without the callback. *)
Theorem callback_argument_ignored o d cb (s s' : state) :
  socks s !! o = Some d →
  (ahd_connect d = None → on_host (on_events o (λ e, Ok (E.once KConnect cb e))) s = Ok s' →
   rrOnConnected user o s' = rrOnConnected user o s) ∧
  (ahd_drain d = None → on_host (on_events o (λ e, Ok (E.once KDrain cb e))) s = Ok s' →
   rrOnDrain user o s' = rrOnDrain user o s).
Proof.
  intros Hd. split; intros Hh Hs; unfold rrOnConnected, rrOnDrain, get_entry, emit.
  all: assert (socks s' = socks s) as -> by (unfold on_host in Hs; inv_res; done).
  all: rewrite Hd, !bind_Ok, Hh; cbn [SocketEvents.user]; by apply (reported_once _ o _ cb).
Qed.

(** the callback of [write] is registered only if the socket could not take everything *)
Lemma write_cb_registers o data cb (s s1 s' : state) b :
  appWrite o data s = Ok (s1, b) → write_cb o data cb s = Ok (s', b) →
  if (b : bool) then s' = s1 else on_host (on_events o (λ e, Ok (E.once KDrain cb e))) s1 = Ok s'.
Proof.
  intros Hw Hc. unfold write_cb in Hc. rewrite Hw, bind_Ok in Hc. destruct b; [congruence|].
  apply bind_Ok_inv in Hc as (x & Hx & Hc). congruence.
Qed.
(** The same for a server: [close(cb)] and [listen(port, ip, backlog, cb)] never
    call [cb]. *)
Theorem server_callback_ignored {A C : Type} (address' : Ob → Obj) (callback' : CB → A → list C * bool)
    (listener' : L → ServerEvents.kind → A → list C * bool) (member' : F → Obj → Ob → A → list C) (cb : CB)
    (o : Ob) (a : A) (s : E.t ServerEvents.kind CB L F Obj) :
  ServerEvents.report address' callback' listener' member' ServerEvents.KClose o a (ServerEvents.close_cb cb s)
    = ServerEvents.report address' callback' listener' member' ServerEvents.KClose o a s ∧
  ServerEvents.report address' callback' listener' member' ServerEvents.KListen o a (ServerEvents.listen_cb cb s)
    = ServerEvents.report address' callback' listener' member' ServerEvents.KListen o a s.
Proof. split; apply EmittingSpec.once_makes_no_difference. Qed.
End spec.

(** ** A concrete socket *)
Module EventsExample.
Import TcpExample.
Abbreviation world1 := (host nat net nat nat nat nat).
Abbreviation mgr_world := (mgr nat (NetTable.N.t nat) world1).

(** callback [n] sends [n] bytes; member function [n] ends the socket *)
Definition callback1 (n : nat) (_ : Event) : list (Cmd nat world1) * bool := ([CWrite 5 (replicate n None)], false).
Definition listener1 (_ : nat) (_ : kind) (_ : Event) : list (Cmd nat world1) * bool := ([], false).
Definition member1 (_ _ : nat) (o : nat) (_ : Event) : list (Cmd nat world1) := [CEnd o].
Definition coroutine1 (_ : nat) (_ : Event) (_ : mgr_world) : list (Cmd nat world1) := [].

Definition pattern1 : E.collecting kind nat nat :=
  match E.addHandler KConnect 3 (λ _, []) with Ok c => c | _ => λ _, [] end.
Definition created1 : E.t kind nat nat nat nat :=
  match E.from handler_order pattern1 (Some 5) E.fresh with Ok e => e | _ => E.fresh end.
Definition events1 : E.t kind nat nat nat nat := E.once KConnect 1 (E.on KConnect 2 created1).
Definition connecting1 : mgr_world :=
  mk {[5 := with_state Connected (new_sock false false)]} assoc1 [] [] Buffers.Buffer.empty_buffer
     (mkHost (TcpSpec.sends [inl 2]) {[5 := created1]} ∅) [].

Lemma report_in_order_witness :
  E.report (λ o, o) callback1 listener1 member1 KConnect 5 EvConnect events1 =
    Ok (E.with_emitter KConnect [Events.ListenerEmitter.mkElement false (Events.ListenerEmitter.lambda 2)] events1,
        [CWrite 5 [None; None]; CEnd 5]).
Proof.
  destruct (EmittingSpec.from_each_spec handler_order pattern1 (Some 5) (λ _, Handlers.Handlers.opt_init (Fn:=E.handlerFn nat) (Obj:=nat)))
    as (h & Hh & _ & _); [unfold handler_order; repeat constructor; set_solver|done|].
  assert (Hc : E.from handler_order pattern1 (Some 5) (E.fresh (CB:=nat) (L:=nat)) = Ok created1).
  { unfold created1. unfold E.from. cbn [E.initialized E.fresh]. rewrite bool_decide_eq_true_2 by (by eexists).
    cbn [E.handlers E.fresh]. by rewrite Hh. }
  rewrite (EmittingSpec.report_in_order (λ o, o) callback1 listener1 member1 handler_order pattern1 E.fresh created1 events1 KConnect 5 EvConnect).
  - vm_compute. reflexivity.
  - unfold handler_order. repeat constructor; set_solver.
  - unfold handler_order. set_solver.
  - refine (EmittingSpec.addHandler_wf KConnect 3 (λ _, []) pattern1 _ _); [reflexivity|intros k; constructor].
  - reflexivity.
  - reflexivity.
  - exact Hc.
  - reflexivity.
  - repeat constructor.
  - repeat constructor.
Defined.

Lemma callback_argument_ignored_witness :
  ∃ s' s1, on_host (on_events 5 (λ e, Ok (E.once KConnect 9 e))) connecting1 = Ok s' ∧
    rrOnConnected (user (λ o, o) callback1 listener1 member1 coroutine1) 5 s' = Ok s1 ∧
    rrOnConnected (user (λ o, o) callback1 listener1 member1 coroutine1) 5 connecting1 = Ok s1.
Proof.
  assert (Hs : ∃ s', on_host (on_events 5 (λ e, Ok (E.once KConnect 9 e))) connecting1 = Ok s') by (eexists; reflexivity).
  destruct Hs as [s' Hs]. exists s'.
  destruct (rrOnConnected (user (λ o, o) callback1 listener1 member1 coroutine1) 5 connecting1) as [s1| | | |] eqn:Hr.
  2-5: exfalso; revert Hr; vm_compute; discriminate.
  exists s1. split_and!; [done| |done]. rewrite <-Hr.
  by apply (callback_argument_ignored (λ o, o) callback1 listener1 member1 coroutine1 5 (with_state Connected (new_sock false false)) 9).
Defined.
End EventsExample.
End SocketEventsSpec.
