(* ===== verification/HttpMessage.v ===== *)
(** * HTTP messages (include/nodecpp/http_server_common.h, http_socket_at_server.h)

    [Module Str] has the operations of [std::string] the parser uses, [npos]
    being [None]; [Module HttpMessage] models [HttpMessageBase],
    [IncomingHttpMessageAtServer] with its parser and [HttpServerResponse] with
    its serializer, up to the calls that touch the socket (HttpServer.v).
    [HttpMessageSpec] shows that the parser inverts the printing of a request
    and what becomes of the headers that matter to the connection. *)

From S2P Require Import Prelude.
From stdpp Require Import pretty.
From Stdlib Require Import Lia.

Module Str.

Definition str (s : string) : list u8 := String.list_byte_of_string s.

(** [find_first_of], [find_first_not_of] from a position, [npos] included *)
Definition find_from (P : u8 → Prop) `{∀ c, Decision (P c)} (s : list u8) (pos : option nat) : option nat :=
  match pos with
  | None => None
  | Some p => match list_find P (drop p s) with Some (i, _) => Some (p + i) | None => None end
  end.
Definition find_first_of (set s : list u8) := find_from (λ c, c ∈ set) s.
Definition find_first_not_of (set s : list u8) := find_from (λ c, c ∉ set) s.
Definition find_last_not_of (set s : list u8) : option nat :=
  match list_find (λ c, c ∉ set) (reverse s) with
  | Some (i, _) => Some (length s - 1 - i)
  | None => None
  end.

(** [pos + n] and [e - b] in [size_t]; [None] is a value not smaller than any
    length *)
Definition add_pos (p : option nat) (n : nat) : option nat :=
  match p with
  | Some p => Some (p + n)
  | None => match n with O => None | S n => Some n end
  end.
Definition distance (b : nat) (e : option nat) : option nat :=
  match e with
  | Some e => if bool_decide (b ≤ e) then Some (e - b) else None
  | None => None
  end.

Definition substr (s : list u8) (pos : nat) (n : option nat) : res (list u8) :=
  if bool_decide (pos ≤ length s) then
    Ok (match n with Some n => take n (drop pos s) | None => drop pos s end)
  else Thrown.

(** [memcmp( s.c_str() + pos, lit, strlen( lit ) ) == 0]: the characters of the
    string and its terminator can be read *)
Definition memcmp_eq (s : list u8) (pos : nat) (lit : list u8) : res bool :=
  REQUIRE bool_decide (pos + length lit ≤ S (length s)) ;;
  Ok (bool_decide (take (length lit) (drop pos (s ++ [x00])) = lit)).

Fixpoint bytes_ltb (a b : list u8) : bool :=
  match a, b with
  | _, [] => false
  | [], _ :: _ => true
  | x :: a, y :: b => (Z_of_u8 x <? Z_of_u8 y)%Z || (bool_decide (x = y) && bytes_ltb a b)
  end.

(** [std::map<string, string>] in iteration order *)
Definition smap : Type := list (list u8 * list u8).
Fixpoint map_insert (k v : list u8) (m : smap) : smap :=
  match m with
  | [] => [(k, v)]
  | (k', v') :: m' =>
      if bool_decide (k = k') then m
      else if bytes_ltb k k' then (k, v) :: m
      else (k', v') :: map_insert k v m'
  end.
Fixpoint map_find (k : list u8) (m : smap) : option (list u8) :=
  match m with
  | [] => None
  | (k', v') :: m' => if bool_decide (k = k') then Some v' else map_find k m'
  end.

(** [atol]: spaces, a sign, digits, as [strtol] does *)
Definition is_digit (c : u8) : bool := bool_decide (48 ≤ Z_of_u8 c ≤ 57)%Z.
Fixpoint atol_digits (s : list u8) (acc : Z) : Z :=
  match s with
  | c :: s => if is_digit c then atol_digits s (10 * acc + (Z_of_u8 c - 48)) else acc
  | [] => acc
  end.
Fixpoint skip (P : u8 → bool) (s : list u8) : list u8 :=
  match s with c :: s' => if P c then skip P s' else s | [] => [] end.
Definition atol (s : list u8) : Z :=
  let s := skip (λ c, bool_decide (Z_of_u8 c = 32 ∨ (9 ≤ Z_of_u8 c ≤ 13))%Z) s in
  let z := match s with
           | x2d :: s => (- atol_digits s 0)%Z
           | x2b :: s => atol_digits s 0
           | s => atol_digits s 0
           end in
  Z.max (- 2 ^ 63) (Z.min (2 ^ 63 - 1) z).

Definition tolower (c : u8) : u8 :=
  if bool_decide (65 ≤ Z_of_u8 c ≤ 90)%Z then u8_of_Z (Z_of_u8 c + 32) else c.

(** the decimal digits of a [size_t] *)
Definition decimal (n : N) : list u8 := str (pretty n).

(** ** Lemmas *)
Lemma find_from_app (P : u8 → Prop) `{∀ c, Decision (P c)} s p pre a c b :
  s = pre ++ a ++ c :: b → p = length pre → Forall (λ c, ¬ P c) a → P c →
  find_from P s (Some p) = Some (p + length a).
Proof.
  intros -> -> Ha Hc. unfold find_from. rewrite drop_app_length.
  rewrite list_find_app_r by (by apply list_find_None). cbn. rewrite decide_True by done. cbn. f_equal.
Qed.

Lemma find_from_none (P : u8 → Prop) `{∀ c, Decision (P c)} s p :
  Forall (λ c, ¬ P c) (drop p s) → find_from P s (Some p) = None.
Proof. intros Hf. unfold find_from. by rewrite (proj2 (list_find_None P _)). Qed.

Lemma find_last_not_of_app set s a c b :
  s = a ++ c :: b → c ∉ set → Forall (λ c, c ∈ set) b → find_last_not_of set s = Some (length a).
Proof.
  intros -> Hc Hb. unfold find_last_not_of. rewrite reverse_app, reverse_cons, <-app_assoc.
  rewrite list_find_app_r.
  - cbn. rewrite decide_True by done. cbn. rewrite length_reverse, length_app. simpl. f_equal. lia.
  - apply list_find_None, Forall_reverse. eapply Forall_impl; [exact Hb|]. by intros x Hx Hn.
Qed.

Lemma find_last_not_of_none set s : Forall (λ c, c ∈ set) s → find_last_not_of set s = None.
Proof.
  intros Hs. unfold find_last_not_of. rewrite (proj2 (list_find_None _ _)); [done|].
  apply Forall_reverse. eapply Forall_impl; [exact Hs|]. by intros x Hx Hn.
Qed.

Lemma distance_add b n : distance b (Some (b + n)) = Some n.
Proof. unfold distance. rewrite bool_decide_eq_true_2 by lia. f_equal. lia. Qed.

Lemma substr_mid s a x b p n : s = a ++ x ++ b → p = length a → n = Some (length x) → substr s p n = Ok x.
Proof.
  intros -> -> ->. unfold substr. rewrite bool_decide_eq_true_2 by (rewrite length_app; lia).
  by rewrite drop_app_length, take_app_length.
Qed.

Lemma memcmp_mid s a lit b p : s = a ++ lit ++ b → p = length a → memcmp_eq s p lit = Ok true.
Proof.
  intros -> ->. unfold memcmp_eq. rewrite bool_decide_eq_true_2 by (rewrite !length_app; lia).
  by rewrite <-!app_assoc, drop_app_length, take_app_length, bool_decide_eq_true_2.
Qed.

Lemma map_find_insert_ne k k' v m : k' ≠ k → map_find k' (map_insert k v m) = map_find k' m.
Proof.
  intros Hne. induction m as [|[k1 v1] m IH]; cbn; [by rewrite bool_decide_eq_false_2|].
  case_bool_decide; [done|]. destruct (bytes_ltb k k1); cbn.
  - by rewrite (bool_decide_eq_false_2 (k' = k)).
  - by rewrite IH.
Qed.

Lemma map_find_insert k v m : map_find k m = None → map_find k (map_insert k v m) = Some v.
Proof.
  induction m as [|[k1 v1] m IH]; cbn; intros Hm; [by rewrite bool_decide_eq_true_2|].
  case_bool_decide; [done|]. destruct (bytes_ltb k k1); cbn.
  - by rewrite bool_decide_eq_true_2.
  - rewrite bool_decide_eq_false_2 by done. by apply IH.
Qed.
End Str.

Module HttpMessage.
Import Str.

Inductive ConnStatus : Type := close | keep_alive.
#[export] Instance ConnStatus_eq_dec : EqDecision ConnStatus.
Proof. solve_decision. Defined.
Inductive ReadStatus : Type := noinit | in_hdr | in_body | completed.
#[export] Instance ReadStatus_eq_dec : EqDecision ReadStatus.
Proof. solve_decision. Defined.
Inductive WriteStatus : Type := notyet | hdr_serialized | hdr_flushed | writing_body | write_completed.
#[export] Instance WriteStatus_eq_dec : EqDecision WriteStatus.
Proof. solve_decision. Defined.

Definition MethodNames : list (list u8) :=
  str <$> ["GET"; "HEAD"; "POST"; "PUT"; "DELETE"; "TRACE"; "OPTIONS"; "CONNECT"; "PATCH"]%string.

(** ** [HttpMessageBase] *)
Record base : Type := mkBase {
  idx : N;
  connStatus : ConnStatus;
  contentLength : Z;
  header : smap;
}.
(** [idx] starts as [(uint64_t)(-1)] *)
Definition new_base : base := mkBase (2 ^ 64 - 1) keep_alive 0 [].
Definition with_idx (i : N) (b : base) : base := mkBase i (connStatus b) (contentLength b) (header b).
Definition with_connStatus (c : ConnStatus) (b : base) : base := mkBase (idx b) c (contentLength b) (header b).
Definition with_contentLength (n : Z) (b : base) : base := mkBase (idx b) (connStatus b) n (header b).
Definition with_header (h : smap) (b : base) : base := mkBase (idx b) (connStatus b) (contentLength b) h.

Definition makeLower (s : list u8) : list u8 := tolower <$> s.

(** the last assignment of the code is not conditional *)
Definition parseContentLength (b : base) : base :=
  let b := match map_find (str "content-length") (header b) with
           | Some v => with_contentLength (u64 (atol v)) b
           | None => b
           end in
  with_contentLength 0 b.

Definition parseConnStatus (b : base) : base :=
  match map_find (str "connection") (header b) with
  | Some v =>
      let val := makeLower v in
      if bool_decide (val = str "keep alive") then with_connStatus keep_alive b
      else if bool_decide (val = str "close") then with_connStatus close b
      else b
  | None => with_connStatus close b
  end.

(** ** [IncomingHttpMessageAtServer] *)
Record Incoming : Type := mkIncoming {
  inbase : base;
  method_name : list u8;
  method_url : list u8;
  method_version : list u8;
  readStatus : ReadStatus;
  bodyBytesRetrieved : Z;
}.
Definition new_incoming : Incoming := mkIncoming new_base [] [] [] noinit 0.
Definition with_inbase (b : base) (m : Incoming) : Incoming :=
  mkIncoming b (method_name m) (method_url m) (method_version m) (readStatus m) (bodyBytesRetrieved m).
Definition with_name (n : list u8) (m : Incoming) : Incoming :=
  mkIncoming (inbase m) n (method_url m) (method_version m) (readStatus m) (bodyBytesRetrieved m).
Definition with_url (u : list u8) (m : Incoming) : Incoming :=
  mkIncoming (inbase m) (method_name m) u (method_version m) (readStatus m) (bodyBytesRetrieved m).
Definition with_version (v : list u8) (m : Incoming) : Incoming :=
  mkIncoming (inbase m) (method_name m) (method_url m) v (readStatus m) (bodyBytesRetrieved m).
Definition with_readStatus (r : ReadStatus) (m : Incoming) : Incoming :=
  mkIncoming (inbase m) (method_name m) (method_url m) (method_version m) r (bodyBytesRetrieved m).

Definition getMethod (m : Incoming) : list u8 := method_name m.
Definition getUrl (m : Incoming) : list u8 := method_url m.
Definition getHttpVersion (m : Incoming) : list u8 := method_version m.
Definition getContentLength (m : Incoming) : Z := contentLength (inbase m).

Definition clear_incoming (m : Incoming) : Incoming :=
  mkIncoming (with_contentLength 0 (with_header [] (inbase m))) [] [] [] noinit 0.

Definition SPACE : u8 := x20.
Definition TAB : u8 := x09.
Definition CR : u8 := x0d.
Definition LF : u8 := x0a.
Definition blanks : list u8 := [SPACE; TAB].
Definition white : list u8 := [SPACE; TAB; CR; LF].

(** the loop over the method names *)
Fixpoint find_method (names : list (list u8)) (line : list u8) (start : nat) : res (option (list u8)) :=
  match names with
  | [] => Ok None
  | n :: names =>
      found ← (if bool_decide (length n + start < length line) then
                 eq ← memcmp_eq line start n;
                 Ok (eq && bool_decide (line !! length n = Some SPACE))
               else Ok false);
      if (found : bool) then Ok (Some n) else find_method names line start
  end.

Definition parseMethod (line : list u8) (m : Incoming) : res (Incoming * bool) :=
  ASSERT bool_decide (readStatus m = noinit) ;;
  match find_first_not_of blanks line (Some 0) with
  | None => Ok (m, false)
  | Some start =>
      if bool_decide (line !! start = Some CR ∨ line !! start = Some LF) then Ok (m, false)
      else
        found ← find_method MethodNames line start;
        match found with
        | None => Ok (m, false)
        | Some n =>
            let m := with_name n m in
            let start := find_first_not_of blanks line (Some (start + (length n + 1))) in
            let endOfURI := find_first_of white line (add_pos start 1) in
            match start with
            | None => Thrown
            | Some st =>
                url ← substr line st (distance st endOfURI);
                let m := with_url url m in
                if bool_decide (url = []) then Ok (m, false)
                else
                  let end_ := find_last_not_of white line in
                  match find_first_not_of blanks line endOfURI with
                  | None => UB
                  | Some st =>
                      eq ← memcmp_eq line st (str "HTTP/");
                      if negb eq then Ok (m, false)
                      else
                        let st := st + 5 in
                        version ← substr line st (match end_ with Some e => distance st (Some (S e)) | None => None end);
                        Ok (with_readStatus in_hdr (with_version version m), true)
                  end
            end
        end
  end.

Definition parseHeaderEntry (line : list u8) (m : Incoming) : res (Incoming * bool) :=
  ASSERT bool_decide (readStatus m = in_hdr) ;;
  match find_last_not_of white line with
  | None =>
      if negb (bool_decide (line = [CR; LF])) then Ok (m, true)
      else
        let m := with_inbase (parseContentLength (inbase m)) m in
        Ok (with_readStatus (if bool_decide (getContentLength m ≠ 0%Z) then in_body else completed) m, false)
  | Some end_ =>
      let start := find_first_not_of blanks line (Some 0) in
      match find_from (λ c, c = x3a) line start with
      | None => Ok (m, false)
      | Some ix =>
          if bool_decide (end_ ≤ ix) then Ok (m, false)
          else
            match start, find_first_not_of blanks line (Some (S ix)) with
            | Some start, Some valStart =>
                key ← substr line start (distance start (Some ix));
                val ← substr line valStart (distance valStart (Some (S end_)));
                Ok (with_inbase (with_header (map_insert (makeLower key) val (header (inbase m))) (inbase m)) m, true)
            | _, _ => Thrown
            end
      end
  end.

(** ** [HttpServerResponse]

    The class declares [header], [contentLength] and [connStatus] again: its
    own are [r_header], [r_contentLength] and [r_connStatus], and the functions
    of the base class work on the ones of the base class. *)
Record Response : Type := mkResponse {
  rbase : base;
  headerBuff : list u8;
  r_header : smap;
  r_contentLength : Z;
  r_connStatus : ConnStatus;
  writeStatus : WriteStatus;
  replyStatus : list u8;
}.
Definition new_response : Response := mkResponse new_base [] [] 0 keep_alive notyet [].
Definition with_rbase (b : base) (r : Response) : Response :=
  mkResponse b (headerBuff r) (r_header r) (r_contentLength r) (r_connStatus r) (writeStatus r) (replyStatus r).
Definition with_headerBuff (h : list u8) (r : Response) : Response :=
  mkResponse (rbase r) h (r_header r) (r_contentLength r) (r_connStatus r) (writeStatus r) (replyStatus r).
Definition with_r_header (h : smap) (r : Response) : Response :=
  mkResponse (rbase r) (headerBuff r) h (r_contentLength r) (r_connStatus r) (writeStatus r) (replyStatus r).
Definition with_writeStatus (w : WriteStatus) (r : Response) : Response :=
  mkResponse (rbase r) (headerBuff r) (r_header r) (r_contentLength r) (r_connStatus r) w (replyStatus r).

Definition setStatus (st : list u8) (r : Response) : Response :=
  mkResponse (rbase r) (headerBuff r) (r_header r) (r_contentLength r) (r_connStatus r) (writeStatus r) st.

Definition clear_response (r : Response) : Response :=
  mkResponse (rbase r) [] [] 0 (r_connStatus r) notyet [].

Definition CRLF : list u8 := [CR; LF].

(** a header line: [HeaderHolder], whose value is a string or a number *)
Inductive HeaderHolder : Type := HStr (key val : list u8) | HNum (key : list u8) (val : N).
Definition holder_key (h : HeaderHolder) : list u8 := match h with HStr k _ | HNum k _ => k end.
Definition toStr (h : HeaderHolder) : list u8 :=
  match h with
  | HStr k v => k ++ str ": " ++ v ++ CRLF
  | HNum k n => k ++ str ": " ++ decimal n ++ CRLF
  end.

(** [strncmp( h.key, "Content-Length", 14 ) != 0] *)
Definition not_content_length (h : HeaderHolder) : bool :=
  bool_decide (take 14 (holder_key h) ≠ str "Content-Length").
Definition append_holders (hs : list HeaderHolder) (st : list u8) : list u8 :=
  st ++ concat (toStr <$> filter (λ h, not_content_length h) hs).

(** [replyStatus.erase( end() - 2, end() )] *)
Definition erase2 (s : list u8) : list u8 := take (length s - 2) s.

Definition status_line (version : list u8) (statusCode : N) (msg : option (list u8)) : list u8 :=
  str "HTTP/" ++ version ++ [SPACE] ++ decimal statusCode ++
  match msg with Some s => [SPACE] ++ s | None => [] end.

(** the four [writeHead]s: with and without a message, with and without a
    list of headers; [version] is the one of the request *)
Definition writeHead (version : list u8) (statusCode : N) (msg : option (list u8))
    (headers : option (list HeaderHolder)) (r : Response) : Response :=
  match headers with
  | Some hs => setStatus (erase2 (append_holders hs (status_line version statusCode msg ++ CRLF))) r
  | None => setStatus (status_line version statusCode msg) r
  end.

Definition addHeader (key value : list u8) (r : Response) : res Response :=
  ASSERT bool_decide (writeStatus r = notyet) ;;
  if bool_decide (key ≠ str "Content-Length") then Ok (with_r_header (map_insert key value (r_header r)) r)
  else Ok r.

Definition header_lines (h : smap) : list u8 :=
  concat ((λ e, e.1 ++ str ": " ++ e.2 ++ CRLF) <$> h).

Definition serializeHeaders (r : Response) : res Response :=
  ASSERT bool_decide (writeStatus r = notyet) ;;
  let buff := headerBuff r ++ replyStatus r ++ CRLF ++ header_lines (r_header r) ++ CRLF in
  let r := with_headerBuff buff r in
  let r := with_rbase (parseConnStatus (parseContentLength (rbase r))) r in
  Ok (with_r_header [] (with_writeStatus hdr_serialized r)).
End HttpMessage.

Module HttpMessageSpec.
Import Str HttpMessage.

Definition no_white (s : list u8) : Prop := Forall (λ c, c ∉ white) s.

(** how a client prints the parts of a request *)
Definition print_request_line (n url version : list u8) : list u8 :=
  n ++ [SPACE] ++ url ++ [SPACE] ++ str "HTTP/" ++ version ++ CRLF.
Definition print_header (key val : list u8) : list u8 := key ++ [x3a; SPACE] ++ val ++ CRLF.

(** a value starts and ends with a character that is not white *)
Definition trimmed (s : list u8) : Prop :=
  (∃ c, head s = Some c ∧ (c ∉ white)) ∧ (∃ d, last s = Some d ∧ (d ∉ white)).

Lemma no_white_space s : no_white s → Forall (λ c, c ≠ SPACE) s.
Proof. intros Hs. eapply Forall_impl; [exact Hs|]. intros c Hc ->. apply Hc. by left. Qed.

Lemma method_names_no_space : Forall (Forall (λ c, c ≠ SPACE)) MethodNames.
Proof. by apply (bool_decide_eq_true_1 _). Qed.

Lemma method_names_first : Forall (λ n, ∃ c n', n = c :: n' ∧ c ∉ white) MethodNames.
Proof. repeat constructor; eexists _, _; (split; [reflexivity|by apply (bool_decide_eq_true_1 _)]). Qed.

Lemma prefix_up_to_space (a b r r' : list u8) :
  Forall (λ c, c ≠ SPACE) a → Forall (λ c, c ≠ SPACE) b → a ++ SPACE :: r = b ++ SPACE :: r' → a = b.
Proof.
  revert b. induction a as [|x a IH]; intros [|y b] Ha Hb Heq; simplify_eq/=; [done| | |].
  - inversion Hb; subst. done.
  - inversion Ha; subst. done.
  - inversion Ha; inversion Hb; subst. f_equal. by apply IH.
Qed.

Lemma find_method_spec names n rest :
  n ∈ names → Forall (Forall (λ c, c ≠ SPACE)) names →
  find_method names (n ++ SPACE :: rest) 0 = Ok (Some n).
Proof.
  intros Hn Hns. pose proof (proj1 (Forall_forall _ _) Hns _ Hn) as Hn0.
  induction names as [|k names IH]; [by apply not_elem_of_nil in Hn|].
  inversion Hns as [|? ? Hk Hks]; subst. cbn [find_method].
  destruct (decide (k = n)) as [->|Hne].
  - rewrite bool_decide_eq_true_2 by (rewrite length_app; simpl; lia).
    rewrite (memcmp_mid _ [] n (SPACE :: rest) 0) by done. cbn [mbind res_bind].
    by rewrite lookup_app_r, Nat.sub_diag by lia.
  - apply elem_of_cons in Hn as [?|Hn]; [congruence|]. specialize (IH Hn Hks).
    case_bool_decide as Hl; cbn [mbind res_bind]; [|exact IH].
    unfold memcmp_eq. rewrite (bool_decide_eq_true_2 (0 + length k ≤ _)) by (simpl; lia). cbn [mbind res_bind].
    case_bool_decide as Ht; [|exact IH]. cbn [andb].
    case_bool_decide as Hs; [|exact IH]. exfalso. apply Hne.
    rewrite drop_0, take_app_le in Ht by lia.
    apply (prefix_up_to_space k n (drop (S (length k)) (n ++ SPACE :: rest)) rest); [done..|].
    rewrite <-(take_drop_middle _ _ _ Hs) at 2. by rewrite Ht.
Qed.

Lemma white_blank c : c ∉ white → c ∉ blanks.
Proof. unfold white, blanks. set_solver. Qed.

Lemma first_not_blank s p pre c b :
  s = pre ++ c :: b → p = length pre → (c ∉ white) → find_first_not_of blanks s (Some p) = Some p.
Proof.
  intros Hs Hp Hc. unfold find_first_not_of. rewrite (find_from_app _ s p pre [] c b) by (done || by apply white_blank).
  simpl. f_equal. lia.
Qed.

(** the last character that is not white *)
Lemma last_not_white s pre x :
  s = pre ++ x ++ CRLF → no_white x → x ≠ [] → ∃ e, find_last_not_of white s = Some e ∧ S e = length (pre ++ x).
Proof.
  intros -> Hx Hne. destruct x as [|c x _] using rev_ind; [done|].
  exists (length (pre ++ x)). split; [|rewrite !length_app; simpl; lia].
  apply Forall_app in Hx as [_ Hc]. inversion Hc; subst.
  apply (find_last_not_of_app white _ (pre ++ x) c CRLF); [by rewrite <-!app_assoc|done|].
  by apply (bool_decide_eq_true_1 _).
Qed.

(** the parser up to the end of the address, whatever follows it *)
Lemma parseMethod_prefix n u url' c rest m line :
  line = n ++ SPACE :: (u :: url') ++ c :: rest → n ∈ MethodNames → no_white (u :: url') → c ∈ white →
  readStatus m = noinit →
  parseMethod line m =
    match find_first_not_of blanks line (Some (S (length n) + length (u :: url'))) with
    | None => UB
    | Some st =>
        eq ← memcmp_eq line st (str "HTTP/");
        if negb eq then Ok (with_url (u :: url') (with_name n m), false)
        else
          version ← substr line (st + 5)
            (match find_last_not_of white line with Some e => distance (st + 5) (Some (S e)) | None => None end);
          Ok (with_readStatus in_hdr (with_version version (with_url (u :: url') (with_name n m))), true)
    end.
Proof.
  intros Hl Hn Hu Hcw Hr. unfold parseMethod. rewrite Hr, bool_decide_eq_true_2 by done.
  destruct (proj1 (Forall_forall _ _) method_names_first _ Hn) as (c0 & n' & Hcn & Hc).
  set (url := u :: url') in *. assert (Hu0 : u ∉ white) by apply (Forall_inv Hu).
  rewrite (first_not_blank line 0 [] c0 (n' ++ SPACE :: url ++ c :: rest)) by (done || by rewrite Hl, Hcn).
  rewrite bool_decide_eq_false_2.
  2:{ rewrite Hl, Hcn. simpl. intros [[= ->]|[= ->]]; apply Hc; by apply (bool_decide_eq_true_1 _). }
  assert (Hfm : find_method MethodNames line 0 = Ok (Some n))
    by (rewrite Hl; apply find_method_spec; [done|apply method_names_no_space]).
  rewrite Hfm. cbn [mbind res_bind]. replace (0 + (length n + 1)) with (S (length n)) by lia. set (st := S (length n)).
  rewrite (first_not_blank line st (n ++ [SPACE]) u (url' ++ c :: rest));
    [|by rewrite Hl, <-app_assoc|subst st; rewrite length_app; simpl; lia|done]. cbn [add_pos].
  unfold find_first_of.
  rewrite (find_from_app _ line (st + 1) (n ++ [SPACE; u]) url' c rest);
    [|by rewrite Hl, <-app_assoc|subst st; rewrite !length_app; simpl; lia|apply (Forall_inv_tail Hu)|done].
  replace (st + 1 + length url') with (st + length url) by (subst url; simpl; lia).
  rewrite distance_add, (substr_mid line (n ++ [SPACE]) url (c :: rest));
    [|by rewrite Hl, <-app_assoc|subst st; rewrite length_app; simpl; lia|done]. cbn [mbind res_bind].
  by rewrite bool_decide_eq_false_2.
Qed.

Lemma parse_request_line_spec (n url version : list u8) (m : Incoming) :
  n ∈ MethodNames → url ≠ [] → no_white url → no_white version → readStatus m = noinit →
  parseMethod (print_request_line n url version) m =
    Ok (with_readStatus in_hdr (with_version version (with_url url (with_name n m))), true).
Proof.
  intros Hn Hne Hu Hv Hr. set (line := print_request_line n url version).
  destruct url as [|u url']; [done|].
  rewrite (parseMethod_prefix n u url' SPACE (str "HTTP/" ++ version ++ CRLF) m line) by (done || by left).
  set (url := u :: url') in *. set (st := S (length n)).
  unfold find_first_not_of.
  rewrite (find_from_app _ line (st + length url) (n ++ [SPACE] ++ url) [SPACE] x48 (str "TTP/" ++ version ++ CRLF));
    [|by subst line; rewrite <-!app_assoc|subst st; rewrite !length_app; simpl; lia
     |by apply (bool_decide_eq_true_1 _)|by apply (bool_decide_eq_true_1 _)].
  set (st2 := st + length url + _).
  assert (Hst2 : st2 = length (n ++ [SPACE] ++ url ++ [SPACE])) by (subst st2 st; rewrite !length_app; simpl; lia).
  rewrite (memcmp_mid line (n ++ [SPACE] ++ url ++ [SPACE]) (str "HTTP/") (version ++ CRLF));
    [|by subst line; rewrite <-!app_assoc|done]. cbn [mbind res_bind negb].
  destruct (last_not_white line (n ++ [SPACE] ++ url ++ [SPACE]) (str "HTTP/" ++ version)) as (e & -> & He).
  { subst line. by rewrite <-!app_assoc. }
  { apply Forall_app. split; [by apply (bool_decide_eq_true_1 _)|done]. }
  { done. }
  assert (He' : S e = st2 + 5 + length version) by (rewrite He, Hst2, !length_app; simpl; lia).
  rewrite He', distance_add.
  rewrite (substr_mid line (n ++ [SPACE] ++ url ++ [SPACE] ++ str "HTTP/") version CRLF); [done| |rewrite Hst2|done].
  - subst line. by rewrite <-!app_assoc.
  - rewrite !length_app. simpl. lia.
Qed.

(** C31. The parser of the first line of a request inverts its printing, for each of
    the methods of HTTP, any address and any version without white space. *)
Theorem parse_request_line (n url version : list u8) (m : Incoming) :
  n ∈ MethodNames → url ≠ [] → no_white url → no_white version → readStatus m = noinit →
  parseMethod (print_request_line n url version) m =
    Ok (with_readStatus in_hdr (with_version version (with_url url (with_name n m))), true).
Proof.
  apply parse_request_line_spec.
Qed.

Lemma parse_request_line_witness :
  parseMethod (print_request_line (str "POST") (str "/a?b=c") (str "1.1")) new_incoming =
    Ok (with_readStatus in_hdr (with_version (str "1.1") (with_url (str "/a?b=c") (with_name (str "POST") new_incoming))), true).
Proof. apply parse_request_line; by apply (bool_decide_eq_true_1 _). Defined.

Definition header_ok (h : list u8 * list u8) : Prop :=
  h.1 ≠ [] ∧ no_white h.1 ∧ Forall (λ c, c ≠ x3a) h.1 ∧ trimmed h.2.

Definition add_header (h : list u8 * list u8) (m : Incoming) : Incoming :=
  with_inbase (with_header (map_insert (makeLower h.1) h.2 (header (inbase m))) (inbase m)) m.

Lemma parse_header_spec (key val : list u8) (m : Incoming) :
  header_ok (key, val) → readStatus m = in_hdr →
  parseHeaderEntry (print_header key val) m = Ok (add_header (key, val) m, true).
Proof.
  intros (Hne & Hk & Hc & (v0 & Hv0 & Hv0w) & v1 & Hv1 & Hv1w) Hr. cbn in Hne, Hk, Hc, Hv0, Hv1.
  unfold parseHeaderEntry. rewrite Hr, bool_decide_eq_true_2 by done.
  set (line := print_header key val).
  assert (∃ w, val = w ++ [v1]) as [w Hw] by (by apply last_Some).
  assert (∃ w, val = v0 :: w) as [w0 Hw0] by (destruct val; naive_solver).
  rewrite (find_last_not_of_app white line (key ++ [x3a; SPACE] ++ w) v1 CRLF);
    [|by subst line; unfold print_header; rewrite Hw, <-!app_assoc|done|by apply (bool_decide_eq_true_1 _)].
  destruct key as [|k0 key']; [done|]. set (key := k0 :: key') in *.
  rewrite (first_not_blank line 0 [] k0 (key' ++ [x3a; SPACE] ++ val ++ CRLF)) by (done || by inversion Hk).
  rewrite (find_from_app _ line 0 [] key x3a ([SPACE] ++ val ++ CRLF));
    [|done|done|by eapply Forall_impl; [exact Hc|]; intros|done].
  rewrite bool_decide_eq_false_2 by (rewrite !length_app; simpl; lia).
  replace (S (0 + length key)) with (length (key ++ [x3a])) by (rewrite length_app; simpl; lia).
  unfold find_first_not_of.
  rewrite (find_from_app _ line (length (key ++ [x3a])) (key ++ [x3a]) [SPACE] v0 (w0 ++ CRLF));
    [|by subst line; unfold print_header; rewrite Hw0, <-app_assoc|done
     |by apply (bool_decide_eq_true_1 _)|by apply white_blank].
  rewrite distance_add.
  rewrite (substr_mid line [] key ([x3a; SPACE] ++ val ++ CRLF) 0 (Some (length key))) by done. cbn [mbind res_bind].
  assert (Hend : S (length (key ++ [x3a; SPACE] ++ w)) = length (key ++ [x3a]) + length [SPACE] + length val).
  { rewrite Hw, !length_app. simpl. lia. }
  rewrite Hend, distance_add, (substr_mid line (key ++ [x3a; SPACE]) val CRLF);
    [|by subst line; rewrite <-app_assoc|rewrite !length_app; simpl; lia|done].
  done.
Qed.

(** The parser of a header line inverts its printing: the value is stored under
    the name in lower case, unless that name was there before. *)
Theorem parse_header_line (key val : list u8) (m : Incoming) :
  header_ok (key, val) → readStatus m = in_hdr → map_find (makeLower key) (header (inbase m)) = None →
  ∃ m', parseHeaderEntry (print_header key val) m = Ok (m', true) ∧
    header (inbase m') = map_insert (makeLower key) val (header (inbase m)) ∧
    map_find (makeLower key) (header (inbase m')) = Some val.
Proof.
  intros Hok Hr Hm. rewrite parse_header_spec by done. eexists. split; [done|]. split; [done|].
  by apply map_find_insert.
Qed.

Lemma parse_header_line_witness :
  ∃ m', parseHeaderEntry (print_header (str "Host") (str "a b")) (with_readStatus in_hdr new_incoming) = Ok (m', true) ∧
    header (inbase m') = map_insert (makeLower (str "Host")) (str "a b") [] ∧
    map_find (makeLower (str "Host")) (header (inbase m')) = Some (str "a b").
Proof.
  apply (parse_header_line (str "Host") (str "a b") (with_readStatus in_hdr new_incoming)); [|reflexivity..].
  repeat split; try by apply (bool_decide_eq_true_1 _).
  all: eexists; (split; [reflexivity|by apply (bool_decide_eq_true_1 _)]).
Defined.

Lemma parse_end (m : Incoming) :
  readStatus m = in_hdr →
  parseHeaderEntry CRLF m = Ok (with_readStatus completed (with_inbase (parseContentLength (inbase m)) m), false).
Proof.
  intros Hr. unfold parseHeaderEntry. rewrite Hr, bool_decide_eq_true_2 by done.
  rewrite find_last_not_of_none by (by apply (bool_decide_eq_true_1 _)).
  rewrite bool_decide_eq_true_2 by done. cbn [negb].
  rewrite (bool_decide_eq_false_2 (_ ≠ 0%Z)); [done|].
  intros H. apply H. unfold parseContentLength. by destruct (map_find _ _).
Qed.

Lemma parse_end_spec (m : Incoming) :
  readStatus m = in_hdr → contentLength (inbase m) = 0%Z → parseHeaderEntry CRLF m = Ok (with_readStatus completed m, false).
Proof.
  intros Hr Hc. rewrite parse_end by done. do 2 f_equal. destruct m as [[ix cs cl h] ? ? ? ? ?]. cbn in Hc. subst cl.
  unfold parseContentLength. by destruct (map_find _ _).
Qed.

(** Whatever a request said about the length of its body, it is complete at the
    end of its headers with a content length of 0: the body that follows is
    never read as such, but as the first line of another request. *)
Theorem body_never_expected (m : Incoming) :
  readStatus m = in_hdr →
  ∃ m', parseHeaderEntry CRLF m = Ok (m', false) ∧ readStatus m' = completed ∧ getContentLength m' = 0%Z ∧
        header (inbase m') = header (inbase m).
Proof.
  intros Hr. rewrite parse_end by done. eexists. split; [done|]. unfold parseContentLength. by destruct (map_find _ _).
Qed.

Definition ex_post : Incoming :=
  with_inbase (with_header [(str "content-length", str "12")] new_base) (with_readStatus in_hdr new_incoming).

Lemma body_never_expected_witness :
  ∃ m', parseHeaderEntry CRLF ex_post = Ok (m', false) ∧ readStatus m' = completed ∧ getContentLength m' = 0%Z ∧
        header (inbase m') = [(str "content-length", str "12")].
Proof. apply (body_never_expected ex_post). reflexivity. Defined.

(** A first line that ends after the address, as HTTP/0.9 allows, makes the
    parser compare five bytes at its end, beyond the terminator of the string. *)
Theorem request_without_version_reads_out_of_bounds (n url : list u8) (m : Incoming) :
  n ∈ MethodNames → url ≠ [] → no_white url → readStatus m = noinit →
  parseMethod (n ++ [SPACE] ++ url ++ CRLF) m = UB.
Proof.
  intros Hn Hne Hu Hr. set (line := n ++ [SPACE] ++ url ++ CRLF).
  destruct url as [|u url']; [done|].
  rewrite (parseMethod_prefix n u url' CR [LF] m line) by (done || by apply (bool_decide_eq_true_1 _)).
  set (url := u :: url') in *. unfold find_first_not_of.
  rewrite (find_from_app _ line _ (n ++ [SPACE] ++ url) [] CR [LF]);
    [|by subst line; rewrite <-!app_assoc|rewrite !length_app; simpl; lia|done|by apply (bool_decide_eq_true_1 _)].
  unfold memcmp_eq. rewrite bool_decide_eq_false_2; [done|].
  subst line. rewrite !length_app. simpl. lia.
Qed.

Lemma request_without_version_reads_out_of_bounds_witness :
  parseMethod (str "GET" ++ [SPACE] ++ str "/" ++ CRLF) new_incoming = UB.
Proof. apply request_without_version_reads_out_of_bounds; by apply (bool_decide_eq_true_1 _). Defined.

(** the parser always comes to an end *)
Lemma substr_halts s p n : halts (λ _, True) (substr s p n).
Proof. unfold substr. by destruct (bool_decide _). Qed.
Lemma memcmp_halts s p l : halts (λ _, True) (memcmp_eq s p l).
Proof. unfold memcmp_eq. by destruct (bool_decide (p + _ ≤ _)). Qed.
Lemma find_method_halts names line start : halts (λ _, True) (find_method names line start).
Proof.
  induction names as [|n names IH]; [done|]. cbn [find_method].
  apply (halts_bind (λ _, True)); [|by intros []].
  destruct (bool_decide _); [|done]. unfold memcmp_eq. by destruct (bool_decide (start + _ ≤ _)).
Qed.

Lemma parseMethod_halts line m : halts (λ _, True) (parseMethod line m).
Proof.
  unfold parseMethod. destruct (bool_decide (readStatus m = _)); [|done]. destruct (find_first_not_of _ _ _); [|done].
  destruct (bool_decide (_ ∨ _)); [done|]. apply (halts_bind (λ _, True)); [apply find_method_halts|]. intros [k|] _; [|done].
  destruct (find_first_not_of _ _ _); [|done]. apply (halts_bind (λ _, True)); [apply substr_halts|]. intros url _.
  destruct (bool_decide (url = [])); [done|]. destruct (find_first_not_of _ _ _); [|done].
  apply (halts_bind (λ _, True)); [apply memcmp_halts|]. intros eq _. destruct (negb eq); [done|].
  by apply (halts_bind (λ _, True)); [apply substr_halts|].
Qed.

Lemma parseHeaderEntry_halts line m : halts (λ _, True) (parseHeaderEntry line m).
Proof.
  unfold parseHeaderEntry. destruct (bool_decide (readStatus m = _)); [|done].
  destruct (find_last_not_of _ _) as [e|]; [|by destruct (negb _)].
  destruct (find_from _ _ _) as [ix|]; [|done]. destruct (bool_decide (e ≤ ix)); [done|].
  destruct (find_first_not_of _ _ _); [|done]. destruct (find_first_not_of _ _ _); [|done].
  apply (halts_bind (λ _, True)); [apply substr_halts|]. intros key _.
  by apply (halts_bind (λ _, True)); [apply substr_halts|].
Qed.
End HttpMessageSpec.
