(* ===== verification/HttpServer.v ===== *)
(** * The HTTP server (include/nodecpp/http_socket_at_server.h, http_server_common.h)

    [Module RRQueue] models the window of pipelined requests and responses of a
    connection, [Module Http] the connection: the coroutine [run] that reads
    the lines of one request after another from the read buffer of the socket,
    the way a request gets to the user, and the calls of the user on a response,
    with every place where one of them resumes the other, and every place where
    the object of a call is destroyed after the frame it points to was freed
    ([FreedFrames]). [HttpSpec] has the theorems: requests are served in the
    order they arrive where that store is harmless, and what the code does with
    a line in two pieces, a response in parts and a failed write. *)

From S2P Require Import Prelude Buffers Circular HttpMessage.
From Stdlib Require Import Lia.

Module RRQueue.

(** [P] stands for the pair of messages in a slot; [set_idx] gives both their
    index. The counters count requests, 2^64 of which are out of reach. *)
Section RRQueue.
Context {P : Type} (set_idx : N → P → P) (sizeExp : N).

Record t : Type := mk {
  cbuff : list (P * bool);   (* the pair and [active] *)
  head : N;
  tail : N;
}.

Definition capacity : N := N.shiftl 1 sizeExp.
Definition idxToStorageIdx (idx : N) : nat := N.to_nat (N.land idx (capacity - 1)).

Definition init (mk_pair : P) : t := mk (replicate (N.to_nat capacity) (mk_pair, false)) 0 0.

Definition canPush (q : t) : bool := bool_decide (head q - tail q < capacity)%N.

Definition active_at (cb : list (P * bool)) (idx : N) : res bool :=
  match cb !! idxToStorageIdx idx with Some (_, a) => Ok a | None => UB end.

(** [do ++tail while ( tail < head && !active )] *)
Fixpoint advance (fuel : nat) (cb : list (P * bool)) (hd tl : N) : res N :=
  match fuel with
  | O => NoFuel
  | S fuel =>
      let tl := (tl + 1)%N in
      if bool_decide (tl < hd)%N then
        a ← active_at cb tl;
        if (a : bool) then Ok tl else advance fuel cb hd tl
      else Ok tl
  end.

Definition release (idx : N) (q : t) : res (t * bool) :=
  ASSERT bool_decide (tail q ≤ idx)%N ;;
  ASSERT bool_decide (idx < head q)%N ;;
  let storageIdx := idxToStorageIdx idx in
  ASSERT bool_decide (N.of_nat storageIdx < capacity)%N ;;
  match cbuff q !! storageIdx with
  | None => UB
  | Some (p, _) =>
      let cb := <[storageIdx := (p, false)]> (cbuff q) in
      tl ← (if bool_decide (idx = tail q) then advance (N.to_nat (head q - tail q)) cb (head q) (tail q)
            else Ok (tail q));
      let q := mk cb (head q) tl in
      Ok (q, canPush q)
  end.

(** [getHead]: the slot handed out *)
Definition getHead (q : t) : res (t * nat) :=
  ASSERT canPush q ;;
  let k := idxToStorageIdx (head q) in
  match cbuff q !! k with
  | None => UB
  | Some (p, _) => Ok (mk (<[k := (set_idx (head q) p, true)]> (cbuff q)) (head q + 1) (tail q), k)
  end.

(** ** The window: [h] pairs were handed out, those in [R] were released *)
Record Window (q : t) (h : N) (R : gset N) : Prop := {
  w_len : length (cbuff q) = N.to_nat capacity;
  w_head : head q = h;
  w_tail : (tail q ≤ h)%N;
  w_size : (h - tail q ≤ capacity)%N;
  w_active : ∀ i, (tail q ≤ i < h)%N → active_at (cbuff q) i = Ok (bool_decide (i ∉ R));
  w_done : ∀ i, (i < tail q)%N → i ∈ R;
  w_first : tail q = h ∨ tail q ∉ R;
  w_issued : ∀ i, i ∈ R → (i < h)%N;
}.

Lemma capacity_pow : capacity = (2 ^ sizeExp)%N.
Proof. unfold capacity. by rewrite N.shiftl_1_l. Qed.

Lemma capacity_pos : (0 < capacity)%N.
Proof. rewrite capacity_pow. apply N.neq_0_lt_0, N.pow_nonzero. lia. Qed.

Lemma storage_mod i : idxToStorageIdx i = N.to_nat (i mod capacity).
Proof.
  unfold idxToStorageIdx. f_equal. rewrite <-N.pred_sub, capacity_pow, <-N.ones_equiv. apply N.land_ones.
Qed.

Lemma storage_lt i : idxToStorageIdx i < N.to_nat capacity.
Proof. rewrite storage_mod. pose proof (N.mod_lt i capacity). pose proof capacity_pos. lia. Qed.

Lemma storage_inj i j :
  (i < j + capacity)%N → (j < i + capacity)%N → idxToStorageIdx i = idxToStorageIdx j → i = j.
Proof.
  rewrite !storage_mod. pose proof capacity_pos as Hc. intros H1 H2 Heq.
  assert (Hm : (i mod capacity = j mod capacity)%N) by lia.
  pose proof (N.div_mod i capacity) as Hi. pose proof (N.div_mod j capacity) as Hj.
  assert ((i / capacity = j / capacity)%N) by nia. nia.
Qed.

Lemma slot_exists q i : length (cbuff q) = N.to_nat capacity → ∃ p, cbuff q !! idxToStorageIdx i = Some p.
Proof. intros Hl. apply lookup_lt_is_Some. rewrite Hl. apply storage_lt. Qed.

Lemma active_insert_eq cb i p a :
  length cb = N.to_nat capacity → active_at (<[idxToStorageIdx i := (p, a)]> cb) i = Ok a.
Proof. intros Hl. unfold active_at. rewrite list_lookup_insert_eq; [done|]. rewrite Hl. apply storage_lt. Qed.

Lemma active_insert_ne cb i j p a :
  idxToStorageIdx i ≠ idxToStorageIdx j → active_at (<[idxToStorageIdx i := (p, a)]> cb) j = active_at cb j.
Proof. intros Hne. unfold active_at. by rewrite list_lookup_insert_ne. Qed.

Lemma init_window p : Window (init p) 0 ∅.
Proof.
  constructor; cbn; try lia; try set_solver. apply length_replicate.
Qed.

Lemma rr_advance_spec fuel cb hd tl (R : gset N) :
  (tl < hd)%N → N.to_nat (hd - tl) ≤ fuel →
  (∀ i, (tl < i < hd)%N → active_at cb i = Ok (bool_decide (i ∉ R))) →
  ∃ tl', advance fuel cb hd tl = Ok tl' ∧ (tl < tl' ≤ hd)%N ∧ (∀ i, (tl < i < tl')%N → i ∈ R) ∧
         (tl' = hd ∨ tl' ∉ R).
Proof.
  revert tl. induction fuel as [|fuel IH]; intros tl Hlt Hf Ha; [lia|]. cbn [advance].
  case_bool_decide as H1.
  - rewrite Ha by lia. cbn [mbind res_bind]. destruct (bool_decide_reflect (tl + 1 ∉ R)%N) as [Hin|Hin].
    + exists (tl + 1)%N. split_and!; [done|lia|lia|intros i Hi; lia|by right].
    + destruct (IH (tl + 1)%N) as (tl' & Htl' & Hb & HR & Hend); [lia|lia|intros; apply Ha; lia|].
      exists tl'. split_and!; [done|lia|lia| |done]. intros i Hi.
      destruct (decide (i = tl + 1)%N) as [->|]; [by destruct (decide (tl + 1 ∈ R)%N)|apply HR; lia].
  - exists (tl + 1)%N. split_and!; [done|lia|lia|intros i Hi; lia|left; lia].
Qed.

Lemma release_spec q h R i :
  Window q h R → (tail q ≤ i < h)%N →
  ∃ q', release i q = Ok (q', canPush q') ∧ Window q' h ({[i]} ∪ R) ∧
        ∀ k p a, cbuff q !! k = Some (p, a) → ∃ a', cbuff q' !! k = Some (p, a').
Proof.
  intros [Hl Hh Ht Hs Ha Hd Hf Hi] Hr. unfold release. rewrite Hh, !bool_decide_eq_true_2 by lia.
  pose proof (storage_lt i) as Hst. rewrite bool_decide_eq_true_2 by lia.
  destruct (slot_exists q i Hl) as [[p a] Hp]. rewrite Hp. set (cb := <[_ := _]> (cbuff q)).
  assert (Hcb : ∀ j, (tail q ≤ j < h)%N → active_at cb j = Ok (bool_decide (j ∉ {[i]} ∪ R))).
  { intros j Hj. subst cb. destruct (decide (i = j)) as [->|Hne].
    - rewrite active_insert_eq by done. rewrite bool_decide_eq_false_2; [done|set_solver].
    - rewrite active_insert_ne by (intros Heq; apply Hne, storage_inj; [lia|lia|done]).
      rewrite Ha by done. f_equal. apply bool_decide_ext. set_solver. }
  assert (Hkeep : ∀ k p a, cbuff q !! k = Some (p, a) → ∃ a', cb !! k = Some (p, a')).
  { intros k p' a' Hk. subst cb. destruct (decide (k = idxToStorageIdx i)) as [->|Hne].
    - rewrite Hp in Hk. simplify_eq. exists false. rewrite list_lookup_insert_eq; [done|]. rewrite Hl. lia.
    - exists a'. by rewrite list_lookup_insert_ne. }
  assert (Hl' : length cb = N.to_nat capacity) by (subst cb; by rewrite length_insert).
  case_bool_decide as Hit.
  - destruct (rr_advance_spec (N.to_nat (h - tail q)) cb h (tail q) ({[i]} ∪ R)) as (tl' & -> & Hb & HR & Hend);
      [lia|lia|intros; apply Hcb; lia|].
    cbn [mbind res_bind]. eexists. split; [done|]. split; [|done].
    constructor; cbn [cbuff head tail]; try done; try lia.
    + intros j Hj. apply Hcb. lia.
    + intros j Hj. destruct (decide (j < tail q)%N) as [Hlt|]; [specialize (Hd j Hlt); set_solver|].
      destruct (decide (j = i)) as [->|]; [set_solver|]. apply HR. lia.
    + intros j Hj. apply elem_of_union in Hj as [->%elem_of_singleton|Hj]; [lia|by apply Hi].
  - cbn [mbind res_bind]. eexists. split; [done|]. split; [|done].
    constructor; cbn [cbuff head tail]; try done; try lia.
    + intros j Hj. specialize (Hd j Hj). set_solver.
    + right. destruct Hf; [lia|set_solver].
    + intros j Hj. apply elem_of_union in Hj as [->%elem_of_singleton|Hj]; [lia|by apply Hi].
Qed.

Lemma canPush_spec q h R : Window q h R → canPush q = bool_decide (h - tail q < capacity)%N.
Proof. intros []. unfold canPush. by subst. Qed.

Lemma getHead_spec q h R :
  Window q h R → (h - tail q < capacity)%N →
  ∃ q' p a, getHead q = Ok (q', idxToStorageIdx h) ∧ Window q' (h + 1) R ∧
    cbuff q !! idxToStorageIdx h = Some (p, a) ∧
    cbuff q' = <[idxToStorageIdx h := (set_idx h p, true)]> (cbuff q) ∧ tail q' = tail q.
Proof.
  intros HW Hroom. unfold getHead. rewrite (canPush_spec q h R HW), bool_decide_eq_true_2 by done.
  destruct HW as [Hl Hh Ht Hs Ha Hd Hf Hi]. rewrite Hh. destruct (slot_exists q h Hl) as [[p a] Hp]. rewrite Hp.
  eexists _, p, a. split; [done|]. split; [|done].
  constructor; cbn [cbuff head tail]; try done; try lia.
  - by rewrite length_insert.
  - intros j Hj. destruct (decide (j = h)) as [->|Hne].
    + rewrite active_insert_eq by done. rewrite bool_decide_eq_true_2; [done|]. intros ?%Hi. lia.
    + rewrite active_insert_ne by (intros Heq; apply Hne; symmetry; apply storage_inj; [lia|lia|done]).
      apply Ha. lia.
  - destruct Hf as [Hf|Hf]; [|by right]. right. intros Hn. apply Hi in Hn. lia.
  - intros j Hj%Hi. lia.
Qed.

(** a sequence of calls; a call outside the window fails an assertion *)
Inductive op : Type := Get | Release (idx : N).
Definition exec (o : op) (q : t) : res t :=
  match o with
  | Get => '(q, _) ← getHead q; Ok q
  | Release i => '(q, _) ← release i q; Ok q
  end.
Fixpoint exec_all (os : list op) (q : t) : res t :=
  match os with [] => Ok q | o :: os => q ← exec o q; exec_all os q end.

(** what the calls mean *)
Definition spec_step (o : op) (s : N * gset N) : N * gset N :=
  match o with Get => ((s.1 + 1)%N, s.2) | Release i => (s.1, {[i]} ∪ s.2) end.

Lemma exec_window o q q' h R :
  Window q h R → exec o q = Ok q' → Window q' (spec_step o (h, R)).1 (spec_step o (h, R)).2.
Proof.
  intros HW. destruct o as [|i]; cbn.
  - destruct (decide (h - tail q < capacity)%N) as [Hr|Hr].
    + destruct (getHead_spec q h R HW Hr) as (q1 & p & a & -> & HW1 & _). cbn. intros [= <-]. done.
    + unfold getHead. rewrite (canPush_spec q h R HW), bool_decide_eq_false_2 by done. done.
  - destruct (decide (tail q ≤ i < h)%N) as [Hr|Hr].
    + destruct (release_spec q h R i HW Hr) as (q1 & -> & HW1 & _). cbn. intros [= <-]. done.
    + unfold release. rewrite (w_head q h R HW).
      case_bool_decide; [|done]. rewrite bool_decide_eq_false_2 by lia. done.
Qed.

Lemma exec_all_window os q q' h R :
  Window q h R → exec_all os q = Ok q' →
  let s := fold_left (λ s o, spec_step o s) os (h, R) in Window q' s.1 s.2.
Proof.
  revert q h R. induction os as [|o os IH]; intros q h R HW H; [by simplify_eq/=|].
  cbn [exec_all] in H. apply bind_Ok_inv in H as (q1 & H1 & H2).
  apply (exec_window _ _ _ _ _ HW) in H1. cbn [fold_left].
  destruct (spec_step o (h, R)) as [h1 R1]. by apply (IH q1).
Qed.

(** ... and no call runs forever; none adds a pair *)
Lemma advance_halts fuel cb hd tl : N.to_nat (hd - tl) ≤ fuel → (tl < hd)%N → halts (λ _, True) (advance fuel cb hd tl).
Proof.
  revert tl. induction fuel as [|fuel IH]; intros tl Hf Hlt; [lia|]. cbn [advance].
  case_bool_decide; [|done]. unfold active_at. destruct (cb !! _) as [[? []]|]; [done| |done].
  cbn [mbind res_bind]. apply IH; lia.
Qed.

Lemma release_halts (Q : P → Prop) idx q :
  Forall (λ s, Q s.1) (cbuff q) → halts (λ r, Forall (λ s, Q s.1) (cbuff r.1)) (release idx q).
Proof.
  intros HQ. unfold release. case_bool_decide; [|done]. case_bool_decide; [|done]. case_bool_decide; [|done].
  destruct (cbuff q !! _) as [[p a]|] eqn:Hp; [|done].
  apply (halts_bind (λ _, True)).
  - case_bool_decide; [|done]. apply advance_halts; lia.
  - intros tl _. cbn. apply Forall_insert; [done|]. by apply (proj1 (Forall_lookup _ _) HQ _ _ Hp).
Qed.

Lemma getHead_halts (Q : P → Prop) q :
  (∀ i p, Q p → Q (set_idx i p)) → Forall (λ s, Q s.1) (cbuff q) →
  halts (λ r, Forall (λ s, Q s.1) (cbuff r.1)) (getHead q).
Proof.
  intros Hset HQ. unfold getHead. destruct (canPush q); [|done].
  destruct (cbuff q !! _) as [[p a]|] eqn:Hp; [|done]. cbn. apply Forall_insert; [done|].
  apply Hset. by apply (proj1 (Forall_lookup _ _) HQ _ _ Hp).
Qed.
End RRQueue.
Arguments t : clear implicits.
End RRQueue.

Module Http.
Import Str HttpMessage.

(** [RRQueue<0>]: one request at a time *)
Definition rr_sizeExp : N := 0.
Definition pair_t : Type := (Incoming * Response)%type.
Definition set_idx (i : N) (p : pair_t) : pair_t :=
  (with_inbase (with_idx i (inbase p.1)) p.1, with_rbase (with_idx i (rbase p.2)) p.2).
Definition queue : Type := RRQueue.t pair_t.
Definition maxHeaderSize : nat := 2 ^ 14.

(** where [run] is suspended: in [getRequest], waiting for data of the first
    line or of a header; in [a_continueGetting]; or it has ended *)
Inductive position : Type := AtMethod | AtHeader | InContinue | Ended.
#[export] Instance position_eq_dec : EqDecision position.
Proof. solve_decision. Defined.

(** what the connection does with its socket *)
Inductive action : Type := Sent (bs : list u8) | SocketEnd.

(** the outcome of [co_await sock->a_write( b )]: the bytes are taken; or the
    coroutine stays suspended; or the call throws *)
Inductive write_result : Type := Written | Pending | Throws.

(** how a request gets to the user *)
Inductive consumer : Type := Coroutine | Handlers | Listeners.

(** A coroutine that ends without being suspended frees its frame before the
    object its call returned is destroyed; the destructor then stores into the
    frame ([Coro.destroy_awaitable], which has no behaviour for it). What becomes
    of the store is up to the allocator and the compiler: [late_write] says that
    it reaches nothing in use. *)
Class FreedFrames : Set := late_write : bool.

(** the calls of a user on the request and the response in a slot *)
Inductive Cmd : Type :=
  | CWriteHead (statusCode : N) (msg : option (list u8)) (headers : option (list HeaderHolder))
  | CAddHeader (key value : list u8)
  | CFlushHeaders
  | CWriteBodyPart (b : list u8)
  | CEnd (b : list u8)
  | CEndEmpty
  | CARequest.

Section Http.
Context {L : FreedFrames}.
Context {W : Type} (send : list u8 → W → W * write_result).
Context (user : consumer → Incoming → list Cmd) (has_handlers : bool) (listeners : nat).

Record conn : Type := mk {
  readBuffer : Cbb.t;
  lineBuffer : Buffer.t;
  rrQueue : queue;
  run_at : position;
  cur : nat;                       (* the slot [run] works on *)
  ahd_continueGetting : bool;
  ahd_request : bool;              (* of the server: a coroutine awaits a request *)
  out : list action;
  world : W;
}.
Definition with_buffers (rb : Cbb.t) (lb : Buffer.t) (c : conn) : conn :=
  mk rb lb (rrQueue c) (run_at c) (cur c) (ahd_continueGetting c) (ahd_request c) (out c) (world c).
Definition with_queue (q : queue) (c : conn) : conn :=
  mk (readBuffer c) (lineBuffer c) q (run_at c) (cur c) (ahd_continueGetting c) (ahd_request c) (out c) (world c).
Definition with_run (p : position) (k : nat) (c : conn) : conn :=
  mk (readBuffer c) (lineBuffer c) (rrQueue c) p k (ahd_continueGetting c) (ahd_request c) (out c) (world c).
Definition with_continue (b : bool) (c : conn) : conn :=
  mk (readBuffer c) (lineBuffer c) (rrQueue c) (run_at c) (cur c) b (ahd_request c) (out c) (world c).
Definition with_ahd_request (b : bool) (c : conn) : conn :=
  mk (readBuffer c) (lineBuffer c) (rrQueue c) (run_at c) (cur c) (ahd_continueGetting c) b (out c) (world c).
Definition acted (a : list action) (w : W) (c : conn) : conn :=
  mk (readBuffer c) (lineBuffer c) (rrQueue c) (run_at c) (cur c) (ahd_continueGetting c) (ahd_request c) (out c ++ a) w.
Definition socket_end (c : conn) : conn := acted [SocketEnd] (world c) c.

Definition messages (k : nat) (c : conn) : res pair_t :=
  match RRQueue.cbuff (rrQueue c) !! k with Some (p, _) => Ok p | None => UB end.
Definition put_messages (k : nat) (p : pair_t) (c : conn) : conn :=
  let q := rrQueue c in
  with_queue (RRQueue.mk (alter (prod_map (λ _, p) id) k (RRQueue.cbuff q)) (RRQueue.head q) (RRQueue.tail q)) c.
Definition set_request (k : nat) (m : Incoming) (c : conn) : res conn :=
  p ← messages k c; Ok (put_messages k (m, p.2) c).
Definition set_response (k : nat) (r : Response) (c : conn) : res conn :=
  p ← messages k c; Ok (put_messages k (p.1, r) c).

Definition release (idx : N) (c : conn) : res conn :=
  '(q, _) ← RRQueue.release rr_sizeExp idx (rrQueue c); Ok (with_queue q c).
Definition canPush (c : conn) : bool := RRQueue.canPush rr_sizeExp (rrQueue c).

(** the end of the object of a call that tells whether the coroutine ran to its end *)
Definition awaited (r : res (conn * bool)) : res (conn * bool) :=
  '(c, ended) ← r; if (ended : bool) then REQUIRE late_write ;; Ok (c, true) else Ok (c, false).

(** [resume] is what [run] does when [a_continueGetting] is resumed *)
Section commands.
Context (resume : conn → res conn).

Definition proceedToNext (c : conn) : res conn :=
  if canPush c && ahd_continueGetting c then resume (with_continue false c) else Ok c.

(** [clear(); sock->release( idx ); sock->proceedToNext();] of a response *)
Definition give_back (k : nat) (c : conn) : res conn :=
  p ← messages k c;
  c ← set_response k (clear_response p.2) c;
  c ← release (idx (rbase p.2)) c;
  proceedToNext c.

(** The calls that write return whether they ran to their end, or are
    suspended in [a_write]; [write] is their [try] block around it. *)
Definition write (k : nat) (bs : list u8) (done_ : Response → Response) (c : conn) : res (conn * bool) :=
  let (w, r) := send bs (world c) in
  match r with
  | Written =>
      let c := acted [Sent bs] w c in
      p ← messages k c;
      c ← set_response k (done_ p.2) c;
      Ok (c, true)
  | Pending => Ok (acted [] w c, false)
  | Throws => c ← give_back k (socket_end (acted [] w c)); Ok (c, true)
  end.

Definition serialize_if_needed (k : nat) (c : conn) : res conn :=
  p ← messages k c;
  if bool_decide (writeStatus p.2 = notyet) then
    r ← serializeHeaders p.2; REQUIRE late_write ;; set_response k r c
  else Ok c.

Definition flushHeaders (k : nat) (c : conn) : res (conn * bool) :=
  c ← serialize_if_needed k c;
  p ← messages k c;
  ASSERT bool_decide (writeStatus p.2 = hdr_serialized) ;;
  write k (headerBuff p.2) (λ r, with_writeStatus hdr_flushed (with_headerBuff [] r)) c.

Definition writeBodyPart (k : nat) (b : list u8) (c : conn) : res (conn * bool) :=
  c ← serialize_if_needed k c;
  p ← messages k c;
  ASSERT bool_decide (writeStatus p.2 = hdr_serialized ∨ writeStatus p.2 = hdr_flushed) ;;
  if bool_decide (writeStatus p.2 = hdr_serialized) then
    let buff := headerBuff p.2 ++ b in
    c ← set_response k (with_headerBuff buff p.2) c;
    write k buff (λ r, with_writeStatus writing_body (with_headerBuff [] r)) c
  else write k b (with_writeStatus writing_body) c.

(** the end of every [end] *)
Definition finish (k : nat) (c : conn) : res conn :=
  p ← messages k c;
  c ← set_request k (clear_incoming p.1) c;
  if bool_decide (r_connStatus p.2 ≠ keep_alive) then
    let c := socket_end c in
    p ← messages k c;
    set_response k (clear_response p.2) c
  else give_back k c.

Definition end_body (k : nat) (b : list u8) (c : conn) : res (conn * bool) :=
  p ← messages k c;
  c ← (if bool_decide (writeStatus p.2 ≠ writing_body) then
         ASSERT bool_decide (writeStatus p.2 = notyet) ;;
         set_response k (with_r_header (map_insert (str "Content-Length") (decimal (N.of_nat (length b)))
                                          (r_header p.2)) p.2) c
       else Ok c);
  '(c, ended) ← awaited (writeBodyPart k b c);
  if (ended : bool) then c ← finish k c; Ok (c, true) else Ok (c, false).

Definition end_empty (k : nat) (c : conn) : res (conn * bool) :=
  p ← messages k c;
  '(c, ended) ← (if bool_decide (writeStatus p.2 ≠ hdr_flushed) then awaited (flushHeaders k c) else Ok (c, true));
  if (ended : bool) then c ← finish k c; Ok (c, true) else Ok (c, false).

Definition exec_cmd (k : nat) (cmd : Cmd) (c : conn) : res (conn * bool) :=
  match cmd with
  | CWriteHead code msg hs =>
      p ← messages k c;
      c ← set_response k (writeHead (getHttpVersion p.1) code msg hs p.2) c; Ok (c, true)
  | CAddHeader key value => p ← messages k c; r ← addHeader key value p.2; c ← set_response k r c; Ok (c, true)
  | CFlushHeaders => awaited (flushHeaders k c)
  | CWriteBodyPart b => awaited (writeBodyPart k b c)
  | CEnd b => awaited (end_body k b c)
  | CEndEmpty => awaited (end_empty k c)
  | CARequest => Ok (with_ahd_request true c, false)
  end.

(** the user awaits each call *)
Fixpoint exec_cmds (k : nat) (cmds : list Cmd) (c : conn) : res conn :=
  match cmds with
  | [] => Ok c
  | cmd :: cmds => '(c, ended) ← exec_cmd k cmd c; if (ended : bool) then exec_cmds k cmds c else Ok c
  end.

(** the function registered for a handler is a coroutine that ends at once *)
Definition onNewRequest (k : nat) (c : conn) : res conn :=
  p ← messages k c;
  if ahd_request c then exec_cmds k (user Coroutine p.1) (with_ahd_request false c)
  else if has_handlers then c ← exec_cmds k (user Handlers p.1) c; REQUIRE late_write ;; Ok c
  else if bool_decide (listeners ≠ 0) then exec_cmds k (user Listeners p.1) c
  else Ok c.
End commands.

(** ** The coroutine [run] *)

(** the turn of its loop up to the first line *)
Definition next_request (c : conn) : res conn :=
  '(q, k) ← RRQueue.getHead set_idx rr_sizeExp (rrQueue c);
  Ok (with_run AtMethod k (with_queue q c)).

Definition run_failed (c : conn) : conn := with_run Ended (cur c) (socket_end c).

Definition line_of (lb : Buffer.t) : res (list u8) :=
  match mapM id (Buffer.contents lb) with Some l => Ok l | None => UB end.

(** One step of [getRequest] with a line: [None] when the request is not
    complete, or whether it is good; an exception ends [run]. *)
Definition getRequest_line (line : list u8) (c : conn) : res (conn * option bool) :=
  p ← messages (cur c) c;
  match run_at c with
  | AtMethod =>
      '(m, good) ← parseMethod line p.1;
      c ← set_request (cur c) m c;
      if (good : bool) then Ok (with_run AtHeader (cur c) c, None) else Ok (c, Some false)
  | _ =>
      '(m, more) ← parseHeaderEntry line p.1;
      c ← set_request (cur c) m c;
      if (more : bool) then Ok (c, None)
      else Ok (c, Some (bool_decide (readStatus m = in_body ∨ readStatus m = completed)))
  end.

(** [run] with a line; [again] is [run] from the next [readLine] on. [waited]
    tells whether [getRequest] was suspended since it was called: only then its
    end resumes [run] before its frame is freed. *)
Definition handle_line (again : bool → conn → res conn) (waited : bool) (line : list u8) (c : conn) : res conn :=
  match getRequest_line line c with
  | Thrown => REQUIRE waited || late_write ;; Ok (with_run Ended (cur c) c)
  | Ok (c, None) => again waited c
  | Ok (c, Some false) => REQUIRE waited || late_write ;; Ok (run_failed c)
  | Ok (c, Some true) =>
      REQUIRE waited || late_write ;;
      c ← onNewRequest (λ c, c ← next_request c; again false c) (cur c) c;
      if canPush c then c ← next_request c; again false c
      else Ok (with_run InContinue (cur c) (with_continue true c))
  | AssertFail => AssertFail
  | UB => UB
  | NoFuel => NoFuel
  end.

(** [run] from [readLine] on: [resumed] when it goes on after data arrived; else
    [a_readUntil] and [readLine] end without being suspended when the line is there *)
Fixpoint run_loop (fuel : nat) (resumed waited : bool) (c : conn) : res conn :=
  match fuel with
  | O => NoFuel
  | S fuel =>
      lb ← (if resumed then ASSERT bool_decide (1 ≤ Cbb.used_size (readBuffer c)) ;; Ok (lineBuffer c)
            else Buffer.clear (lineBuffer c));
      '(rb, lb, st) ← Cbb.read_ready_data_until LF lb (readBuffer c);
      let c := with_buffers rb lb c in
      match st with
      | in_progress => Ok c
      | insufficient_buffer =>
          REQUIRE resumed || late_write ;; REQUIRE waited || late_write ;; Ok (run_failed c)
      | ok =>
          REQUIRE resumed || late_write ;;
          line ← line_of lb; handle_line (run_loop fuel false) waited line c
      | _ => AssertFail
      end
  end.

Definition run_fuel (c : conn) : nat := S (S (Cbb.used_size (readBuffer c))).
Definition resume_run (c : conn) : res conn := c ← next_request c; run_loop (run_fuel c) false false c.

(** the constructor of [HttpSocketBase] *)
Definition new_conn (rb : Cbb.t) (awaited : bool) (w : W) : res conn :=
  lb ← Buffer.reserve maxHeaderSize Buffer.empty_buffer;
  resume_run (mk rb lb (RRQueue.init rr_sizeExp (new_incoming, new_response)) Ended 0 false awaited [] w).

(** ** What happens to a connection *)

(** bytes of the peer are in the read buffer; [run] is resumed if it waits for them *)
Definition on_data (bs : list u8) (c : conn) : res conn :=
  '(rb, stored) ← Cbb.append (Some <$> bs) (readBuffer c);
  let c := with_buffers rb (lineBuffer c) c in
  ASSERT (stored : bool) ;;
  match run_at c with
  | AtMethod | AtHeader => run_loop (run_fuel c) true true c
  | _ => Ok c
  end.

(** calls of the user outside of the delivery of a request *)
Definition on_user (k : nat) (cmds : list Cmd) (c : conn) : res conn := exec_cmds resume_run k cmds c.

(** the socket is closed: [forceReleasingAllCoroHandles] of [SocketBase] resumes
    the coroutine that waits for data with an exception, which ends [run]; the
    function of the same name in [HttpSocketBase] is called by nothing *)
Definition on_close (c : conn) : conn :=
  match run_at c with
  | AtMethod | AtHeader => with_run Ended (cur c) c
  | _ => c
  end.
End Http.
Arguments conn : clear implicits.
End Http.

Module HttpSpec.
Import Str HttpMessage HttpMessageSpec Http.
Import Circular.CbbSpec.

(** ** Reading a line *)
Lemma first_LF_unique (a b r r' : list u8) :
  LF ∉ a → LF ∉ b → a ++ LF :: r = b ++ LF :: r' → a = b ∧ r = r'.
Proof.
  revert b. induction a as [|x a IH]; intros [|y b] Ha Hb Heq; simplify_eq/=; [done| | |].
  - exfalso. apply Hb. by left.
  - exfalso. apply Ha. by left.
  - apply not_elem_of_cons in Ha as [_ Ha], Hb as [_ Hb]. destruct (IH b Ha Hb); [done|]. by subst.
Qed.

Record LineBuf (lb : Buffer.t) : Prop := {
  lb_wf : Buffer.wf lb;
  lb_cap : maxHeaderSize ≤ Buffer.capacity lb;
}.

Lemma line_buf_room lb : LineBuf lb → Buffer.capacity lb ≠ 0.
Proof. intros [_ Hc]. assert (0 < maxHeaderSize) by (apply Nat.ltb_lt; reflexivity). lia. Qed.

Lemma grows_line_buf lb lb' : LineBuf lb → Buffer.grows lb lb' → LineBuf lb'.
Proof. intros [Hw Hc] [Hw' Hc']. split; [done|lia]. Qed.

Lemma clear_line_buf lb : LineBuf lb → ∃ lb', Buffer.clear lb = Ok lb' ∧ LineBuf lb' ∧ Buffer.size lb' = 0.
Proof.
  intros [Hw Hc]. destruct (Buffer.trim_spec (Buffer._size lb) lb Hw) as (lb' & Ht & Hw' & _ & Hs & Hc'); [done|].
  exists lb'. split; [done|]. split; [|unfold Buffer.size; lia]. split; [done|]. unfold Buffer.capacity in *. lia.
Qed.

Lemma read_line rb lb l rest :
  Represents rb (l ++ LF :: rest) → LineBuf lb → Buffer.size lb = 0 → LF ∉ l → length l < maxHeaderSize →
  ∃ rb' lb', Cbb.read_ready_data_until LF lb rb = Ok (rb', lb', ok) ∧ Represents rb' rest ∧
    LineBuf lb' ∧ line_of lb' = Ok (l ++ [LF]).
Proof.
  intros Hr Hlb Hs Hl Hlen. pose proof Hlb as [Hw Hcap].
  destruct (until_spec LF lb rb (l ++ LF :: rest)) as (p & rest' & rb' & lb' & r & Hu & Hq & Hr' & Hc & Ho);
    [done..|by apply line_buf_room|].
  pose proof (Cbb.until_grows _ _ _ _ _ _ Hw Hu) as Hg.
  destruct r; cbn in Ho; try done.
  - destruct Ho as (p' & -> & Hp' & _). rewrite <-app_assoc in Hq. cbn in Hq.
    apply first_LF_unique in Hq as [<- <-]; [|done..].
    exists rb', lb'. split_and!; [done..|by eapply grows_line_buf|].
    unfold line_of. rewrite Hc. rewrite mapM_id_Some. done.
  - destruct Ho as [Hn Hlp]. exfalso.
    assert (Hle : length p ≤ length l); [|lia].
    destruct (decide (length p ≤ length l)) as [|Hgt]; [done|]. exfalso. apply Hn.
    apply (f_equal (λ x, x !! length l)) in Hq. rewrite lookup_app_r, Nat.sub_diag in Hq by lia.
    rewrite lookup_app_l in Hq by lia. cbn in Hq. symmetry in Hq. by eapply list_elem_of_lookup_2.
  - destruct Ho as [-> Hn]. exfalso. apply Hn. set_solver.
Qed.

Lemma read_nothing rb lb :
  Represents rb [] → LineBuf lb → Buffer.size lb = 0 →
  Cbb.read_ready_data_until LF lb rb = Ok (rb, lb, in_progress).
Proof.
  intros [Hwf Hq] [Hw Hcap] Hs. unfold Cbb.read_ready_data_until.
  rewrite (bool_decide_eq_true_2 (Buffer.size lb = 0)) by done.
  rewrite bool_decide_eq_true_2 by (by apply line_buf_room).
  pose proof (Cbb.length_ring_contents rb Hwf) as Hlen. rewrite Hq in Hlen. cbn in Hlen.
  destruct Hwf as (Hm & Hb & He). unfold Cbb.used_size in Hlen.
  rewrite bool_decide_eq_true_2; [done|]. revert Hlen. case_bool_decide; lia.
Qed.

(** ** One request at a time *)
Lemma rr_slot i : RRQueue.idxToStorageIdx rr_sizeExp i = 0.
Proof. unfold RRQueue.idxToStorageIdx. change (RRQueue.capacity rr_sizeExp - 1)%N with 0%N. by rewrite N.land_0_r. Qed.

Lemma rr_release i (p : pair_t) a :
  RRQueue.release rr_sizeExp i (RRQueue.mk [(p, a)] (i + 1) i) = Ok (RRQueue.mk [(p, false)] (i + 1) (i + 1), true).
Proof.
  unfold RRQueue.release. cbn [RRQueue.cbuff RRQueue.head RRQueue.tail]. rewrite rr_slot.
  rewrite !bool_decide_eq_true_2 by (done || lia). cbn [lookup list_lookup insert list_insert].
  replace (N.to_nat (i + 1 - i)) with 1 by lia. cbn [RRQueue.advance].
  rewrite bool_decide_eq_false_2 by lia. cbn [mbind res_bind]. unfold RRQueue.canPush. cbn [RRQueue.head RRQueue.tail].
  by rewrite bool_decide_eq_true_2 by (change (RRQueue.capacity rr_sizeExp) with 1%N; lia).
Qed.

Lemma rr_getHead i (p : pair_t) a :
  RRQueue.getHead set_idx rr_sizeExp (RRQueue.mk [(p, a)] i i) = Ok (RRQueue.mk [(set_idx i p, true)] (i + 1) i, 0).
Proof.
  unfold RRQueue.getHead, RRQueue.canPush. cbn [RRQueue.cbuff RRQueue.head RRQueue.tail]. rewrite rr_slot.
  by rewrite bool_decide_eq_true_2 by (change (RRQueue.capacity rr_sizeExp) with 1%N; lia).
Qed.

(** the messages of a slot between two requests, and the queue of request [i] *)
Definition fresh_in (i : N) : Incoming := mkIncoming (mkBase i keep_alive 0 []) [] [] [] noinit 0.
Definition fresh_resp (i : N) (cs : ConnStatus) : Response := mkResponse (mkBase i cs 0 []) [] [] 0 keep_alive notyet [].
Definition rrq (i : N) (m : Incoming) (r : Response) : queue := RRQueue.mk [((m, r), true)] (i + 1) i.

(** a connection with its slot spelled out *)
Definition one {W} (rb : Cbb.t) (lb : Buffer.t) (a : bool) (h t : N) (m : Incoming) (r : Response) (p : position)
    (o : list action) (w : W) : conn W :=
  mk rb lb (RRQueue.mk [((m, r), a)] h t) p 0 false false o w.

Lemma one_messages {W} rb lb a h t m r p o (w : W) : messages 0 (one rb lb a h t m r p o w) = Ok (m, r).
Proof. done. Qed.
Lemma one_set_response {W} rb lb a h t m r r' p o (w : W) :
  set_response 0 r' (one rb lb a h t m r p o w) = Ok (one rb lb a h t m r' p o w).
Proof. done. Qed.
Lemma one_acted {W} rb lb a h t m r p o (w w' : W) l :
  acted l w' (one rb lb a h t m r p o w) = one rb lb a h t m r p (o ++ l) w'.
Proof. done. Qed.
Lemma one_release {W} rb lb a i m r p o (w : W) :
  release i (one rb lb a (i + 1) i m r p o w) = Ok (one rb lb false (i + 1) (i + 1) m r p o w).
Proof. unfold release, one. cbn [rrQueue]. by rewrite rr_release. Qed.
Lemma one_next_request {W} rb lb a i m r p o (w : W) :
  next_request (one rb lb a i i m r p o w) =
    Ok (one rb lb true (i + 1) i (with_inbase (with_idx i (inbase m)) m) (with_rbase (with_idx i (rbase r)) r) AtMethod o w).
Proof. unfold next_request, one. cbn [rrQueue]. by rewrite rr_getHead. Qed.
Lemma one_set_request {W} rb lb a h t m m' r p o (w : W) :
  set_request 0 m' (one rb lb a h t m r p o w) = Ok (one rb lb a h t m' r p o w).
Proof. done. Qed.

(** a request as a client sends it *)
Record request : Type := mkRequest {
  rq_method : list u8;
  rq_url : list u8;
  rq_version : list u8;
  rq_headers : list (list u8 * list u8);
}.
Definition header_block (hs : list (list u8 * list u8)) : list u8 :=
  concat ((λ h, print_header h.1 h.2) <$> hs) ++ CRLF.
Definition print_request (rq : request) : list u8 :=
  print_request_line (rq_method rq) (rq_url rq) (rq_version rq) ++ header_block (rq_headers rq).

(** ... and as the user gets it *)
Definition add_headers (hs : list (list u8 * list u8)) (m : Incoming) : Incoming :=
  foldl (λ m h, add_header h m) m hs.
Definition parsed (i : N) (rq : request) : Incoming :=
  with_readStatus completed (add_headers (rq_headers rq)
    (with_readStatus in_hdr (with_version (rq_version rq) (with_url (rq_url rq) (with_name (rq_method rq) (fresh_in i)))))).

Definition request_ok (rq : request) : Prop :=
  rq_method rq ∈ MethodNames ∧ rq_url rq ≠ [] ∧ no_white (rq_url rq) ∧ no_white (rq_version rq) ∧
  length (print_request_line (rq_method rq) (rq_url rq) (rq_version rq)) ≤ maxHeaderSize ∧
  Forall (λ h, header_ok h ∧ (LF ∉ h.2) ∧ length (print_header h.1 h.2) ≤ maxHeaderSize) (rq_headers rq).

(** awaiting a call when the store into its freed frame reaches nothing in use *)
Lemma awaited_harmless {L : FreedFrames} {W} (r : res (conn W * bool)) : late_write = true → awaited r = r.
Proof. intros HL. unfold awaited. destruct r as [[c []]| | | |]; cbn [mbind res_bind]; [by rewrite HL|done..]. Qed.

Section serving.
Context {L : FreedFrames}.
Context {W : Type} (send : list u8 → W → W * write_result).
Context (Hsend : ∀ b w, (send b w).2 = Written).
(** what the user answers *)
Context (status : Incoming → N) (message body : Incoming → list u8) (listeners : nat).

Definition answer (_ : consumer) (m : Incoming) : list Cmd :=
  [CWriteHead (status m) (Some (message m)) None; CEnd (body m)].
Definition reply (m : Incoming) : list u8 :=
  status_line (method_version m) (status m) (Some (message m)) ++ CRLF ++
  header_lines [(str "Content-Length", decimal (N.of_nat (length (body m))))] ++ CRLF ++ body m.

Definition length_header (b : list u8) : smap := [(str "Content-Length", decimal (N.of_nat (length b)))].

(** a response with the status [st] and the bytes [hb] still to be sent *)
Definition resp (i : N) (cs : ConnStatus) (hb : list u8) (h : smap) (ws : WriteStatus) (st : list u8) : Response :=
  mkResponse (mkBase i cs 0 []) hb h 0 keep_alive ws st.

Lemma serialize_resp i cs h st :
  serializeHeaders (resp i cs [] h notyet st) =
    Ok (resp i close (st ++ CRLF ++ header_lines h ++ CRLF) [] hdr_serialized st).
Proof. done. Qed.

Lemma end_body_spec resume rb lb i m cs o w p st b :
  late_write = true →
  ∃ w', end_body send resume 0 b (one rb lb true (i + 1) i m (resp i cs [] [] notyet st) p o w) =
    Ok (one rb lb false (i + 1) (i + 1) (clear_incoming m) (fresh_resp i close) p
         (o ++ [Sent (st ++ CRLF ++ header_lines (length_header b) ++ CRLF ++ b)]) w', true).
Proof.
  intros HL. unfold end_body. rewrite one_messages. cbn [mbind res_bind fst snd].
  rewrite (bool_decide_eq_true_2 (_ ≠ writing_body)), (bool_decide_eq_true_2 (_ = notyet)) by done.
  change (with_r_header _ (resp i cs [] [] notyet st)) with (resp i cs [] (length_header b) notyet st).
  generalize (length_header b) as h. intros h. rewrite one_set_response. cbn [mbind res_bind].
  rewrite awaited_harmless by done.
  unfold writeBodyPart, serialize_if_needed. rewrite one_messages. cbn [mbind res_bind fst snd].
  rewrite (bool_decide_eq_true_2 (_ = notyet)), serialize_resp, HL by done. cbn [mbind res_bind].
  rewrite one_set_response. cbn [mbind res_bind]. rewrite one_messages. cbn [mbind res_bind fst snd].
  rewrite (bool_decide_eq_true_2 (_ ∨ _)) by (by left). rewrite (bool_decide_eq_true_2 (_ = hdr_serialized)) by done.
  cbn [resp headerBuff]. rewrite <-!app_assoc. set (bs := st ++ CRLF ++ header_lines h ++ CRLF ++ b).
  rewrite one_set_response. cbn [mbind res_bind]. unfold write. cbn [world one].
  destruct (send bs w) as [w' wr] eqn:Hs. pose proof (Hsend bs w) as Hw. rewrite Hs in Hw. cbn in Hw. subst wr.
  clearbody bs. exists w'.
  rewrite one_acted, one_messages. cbn [mbind res_bind fst snd]. rewrite one_set_response. cbn [mbind res_bind].
  unfold finish. rewrite one_messages. cbn [mbind res_bind fst snd]. rewrite one_set_request. cbn [mbind res_bind].
  rewrite (bool_decide_eq_false_2 (_ ≠ keep_alive)) by (by intros H; apply H).
  unfold give_back. rewrite one_messages. cbn [mbind res_bind fst snd]. rewrite one_set_response. cbn [mbind res_bind].
  cbn [idx rbase with_writeStatus with_headerBuff]. rewrite one_release. cbn [mbind res_bind].
  unfold proceedToNext. by rewrite andb_false_r.
Qed.

Lemma deliver_spec resume rb lb i m cs o w p :
  late_write = true →
  ∃ w', onNewRequest send answer true listeners resume 0 (one rb lb true (i + 1) i m (fresh_resp i cs) p o w) =
    Ok (one rb lb false (i + 1) (i + 1) (clear_incoming m) (fresh_resp i close) p (o ++ [Sent (reply m)]) w').
Proof.
  intros HL. unfold onNewRequest. rewrite one_messages. cbn [mbind res_bind]. change (ahd_request (one _ _ _ _ _ _ _ _ _ _)) with false.
  cbn [answer exec_cmds exec_cmd fst]. rewrite one_messages. cbn [mbind res_bind fst snd].
  change (writeHead _ _ _ _ _) with (resp i cs [] [] notyet (status_line (method_version m) (status m) (Some (message m)))).
  rewrite one_set_response. cbn [mbind res_bind]. unfold reply. fold (length_header (body m)).
  set (st := status_line _ _ _). clearbody st.
  rewrite awaited_harmless by done.
  destruct (end_body_spec resume rb lb i m cs o w p st (body m) HL) as (w' & ->). cbn [mbind res_bind].
  rewrite HL. by exists w'.
Qed.

#[local] Abbreviation run := (run_loop send answer true listeners).

Lemma run_line fuel resumed waited rb lb l rest a h t m r p o w :
  resumed || late_write = true →
  Represents rb (l ++ LF :: rest) → LineBuf lb → (resumed = true → Buffer.size lb = 0) →
  LF ∉ l → length l < maxHeaderSize →
  ∃ rb' lb', run (S fuel) resumed waited (one rb lb a h t m r p o w) =
      handle_line send answer true listeners (run fuel false) waited (l ++ [LF]) (one rb' lb' a h t m r p o w) ∧
    Represents rb' rest ∧ LineBuf lb'.
Proof.
  intros HL Hr Hlb Hres Hl Hlen. cbn [run_loop].
  assert (Hu : 1 ≤ Cbb.used_size rb).
  { destruct Hr as [Hwf Hq]. pose proof (Cbb.length_ring_contents rb Hwf) as He. rewrite Hq in He.
    rewrite length_fmap, length_app in He. simpl in He. lia. }
  assert (∃ lb0, LineBuf lb0 ∧ Buffer.size lb0 = 0 ∧
    (if resumed then ASSERT bool_decide (1 ≤ Cbb.used_size rb) ;; Ok lb else Buffer.clear lb) = Ok lb0)
    as (lb0 & Hlb0 & Hs0 & He).
  { destruct resumed.
    - exists lb. rewrite bool_decide_eq_true_2 by done. split_and!; [done|by apply Hres|done].
    - destruct (clear_line_buf lb Hlb) as (lb0 & ? & ? & ?). by exists lb0. }
  change (readBuffer (one rb lb a h t m r p o w)) with rb. change (lineBuffer (one rb lb a h t m r p o w)) with lb.
  rewrite He. cbn [mbind res_bind].
  destruct (read_line rb lb0 l rest) as (rb' & lb' & -> & Hr' & Hlb' & Hline); [done..|]. cbn [mbind res_bind].
  rewrite HL, Hline. cbn [mbind res_bind]. by exists rb', lb'.
Qed.

(** the lines of a request *)
Lemma handle_first again waited rq rb lb i r o w :
  request_ok rq →
  handle_line send answer true listeners again waited (print_request_line (rq_method rq) (rq_url rq) (rq_version rq))
    (one rb lb true (i + 1) i (fresh_in i) r AtMethod o w) =
  again waited (one rb lb true (i + 1) i
    (with_readStatus in_hdr (with_version (rq_version rq) (with_url (rq_url rq) (with_name (rq_method rq) (fresh_in i)))))
    r AtHeader o w).
Proof.
  intros (Hm & Hu & Huw & Hvw & _). unfold handle_line, getRequest_line.
  change (cur (one _ _ _ _ _ _ _ _ _ _)) with 0. rewrite one_messages. cbn [mbind res_bind run_at one fst].
  by rewrite parse_request_line_spec.
Qed.

Lemma handle_header again waited h rb lb i m r o w :
  header_ok h → readStatus m = in_hdr →
  handle_line send answer true listeners again waited (print_header h.1 h.2) (one rb lb true (i + 1) i m r AtHeader o w) =
  again waited (one rb lb true (i + 1) i (add_header h m) r AtHeader o w).
Proof.
  intros Hh Hr. unfold handle_line, getRequest_line.
  change (cur (one _ _ _ _ _ _ _ _ _ _)) with 0. rewrite one_messages. cbn [mbind res_bind run_at one fst].
  destruct h as [k v]. by rewrite parse_header_spec.
Qed.

Lemma handle_last again waited rb lb i m cs o w :
  late_write = true → readStatus m = in_hdr → clear_incoming m = fresh_in i → contentLength (inbase m) = 0%Z →
  ∃ w', handle_line send answer true listeners again waited CRLF (one rb lb true (i + 1) i m (fresh_resp i cs) AtHeader o w) =
    again false (one rb lb true (i + 1 + 1) (i + 1) (fresh_in (i + 1)) (fresh_resp (i + 1) close) AtMethod
             (o ++ [Sent (reply (with_readStatus completed m))]) w').
Proof.
  intros HL Hr Hcl Hlen. unfold handle_line, getRequest_line.
  change (cur (one _ _ _ _ _ _ _ _ _ _)) with 0. rewrite one_messages. cbn [mbind res_bind run_at one fst].
  rewrite parse_end_spec by done. cbn [mbind res_bind]. fold (one rb lb true (i + 1) i m (fresh_resp i cs) AtHeader o w).
  rewrite one_set_request. cbn [mbind res_bind]. rewrite bool_decide_eq_true_2 by (by right).
  rewrite HL, orb_true_r. change (cur (one _ _ _ _ _ _ _ _ _ _)) with 0.
  edestruct (deliver_spec (λ c, c ← next_request c; again false c) rb lb i (with_readStatus completed m) cs o w AtHeader HL)
    as (w' & ->).
  exists w'. cbn [mbind res_bind]. change (clear_incoming (with_readStatus completed m)) with (clear_incoming m).
  rewrite Hcl. unfold canPush, RRQueue.canPush. cbn [one rrQueue RRQueue.head RRQueue.tail].
  rewrite bool_decide_eq_true_2 by (change (RRQueue.capacity rr_sizeExp) with 1%N; lia).
  fold (one rb lb false (i + 1) (i + 1) (fresh_in i) (fresh_resp i close) AtHeader
          (o ++ [Sent (reply (with_readStatus completed m))]) w').
  by rewrite one_next_request.
Qed.

Lemma no_white_no_LF s : no_white s → LF ∉ s.
Proof. intros Hs Hin. apply (proj1 (Forall_forall _ _) Hs) in Hin. apply Hin. by apply (bool_decide_eq_true_1 _). Qed.

(** lines without their end *)
Lemma header_line k v : print_header k v = (k ++ [x3a; SPACE] ++ v ++ [CR]) ++ [LF].
Proof. unfold print_header. by rewrite <-!app_assoc. Qed.
Lemma header_no_LF k v : header_ok (k, v) → LF ∉ v → LF ∉ k ++ [x3a; SPACE] ++ v ++ [CR].
Proof.
  intros (_ & Hk & _) Hv. cbn in Hk. apply no_white_no_LF in Hk. rewrite !not_elem_of_app.
  split_and!; try done; by apply (bool_decide_eq_true_1 _).
Qed.
Lemma first_line n u v : print_request_line n u v = (n ++ [SPACE] ++ u ++ [SPACE] ++ str "HTTP/" ++ v ++ [CR]) ++ [LF].
Proof. unfold print_request_line. by rewrite <-!app_assoc. Qed.
Lemma method_no_LF n : n ∈ MethodNames → LF ∉ n.
Proof. assert (Forall (λ n, LF ∉ n) MethodNames) as H by (by apply (bool_decide_eq_true_1 _)).
  intros Hn. by apply (proj1 (Forall_forall _ _) H). Qed.
Lemma first_no_LF rq :
  request_ok rq → LF ∉ rq_method rq ++ [SPACE] ++ rq_url rq ++ [SPACE] ++ str "HTTP/" ++ rq_version rq ++ [CR].
Proof.
  intros (Hm & _ & Hu%no_white_no_LF & Hv%no_white_no_LF & _). apply method_no_LF in Hm. rewrite !not_elem_of_app.
  split_and!; try done; by apply (bool_decide_eq_true_1 _).
Qed.

Lemma print_request_length rq : S (S (length (rq_headers rq))) ≤ length (print_request rq).
Proof.
  unfold print_request, print_request_line, header_block. rewrite !length_app. simpl.
  enough (length (rq_headers rq) ≤ length (concat ((λ h, print_header h.1 h.2) <$> rq_headers rq))) by lia.
  induction (rq_headers rq) as [|h hs IH]; [done|]. rewrite fmap_cons. cbn [concat length]. rewrite length_app.
  unfold print_header at 1. rewrite !length_app. simpl. lia.
Qed.

Lemma serve_headers fuel waited hs rb lb rest i m cs o w :
  late_write = true →
  Forall (λ h, header_ok h ∧ (LF ∉ h.2) ∧ length (print_header h.1 h.2) ≤ maxHeaderSize) hs →
  readStatus m = in_hdr → clear_incoming m = fresh_in i → contentLength (inbase m) = 0%Z →
  Represents rb (header_block hs ++ rest) → LineBuf lb →
  ∃ rb' lb' w', run (S (length hs) + fuel) false waited (one rb lb true (i + 1) i m (fresh_resp i cs) AtHeader o w) =
      run fuel false false (one rb' lb' true (i + 1 + 1) (i + 1) (fresh_in (i + 1)) (fresh_resp (i + 1) close) AtMethod
        (o ++ [Sent (reply (with_readStatus completed (add_headers hs m)))]) w') ∧
    Represents rb' rest ∧ LineBuf lb'.
Proof.
  intros HL. revert rb lb m. induction hs as [|[k v] hs IH]; intros rb lb m Hok Hr Hcl Hlen Hrb Hlb.
  - destruct (run_line fuel false waited rb lb [CR] rest true (i + 1)%N i m (fresh_resp i cs) AtHeader o w)
      as (rb' & lb' & Hrun & Hr' & Hlb'); [done|done|done|done|by apply (bool_decide_eq_true_1 _)|by apply Nat.ltb_lt|].
    change (S (length []) + fuel) with (S fuel). rewrite Hrun.
    destruct (handle_last (run fuel false) waited rb' lb' i m cs o w) as (w' & Hh); [done..|].
    change ([CR] ++ [LF]) with CRLF. rewrite Hh. by exists rb', lb', w'.
  - apply Forall_cons in Hok as [(Hh & Hv & Hl) Hok]. cbn [fst snd] in Hv, Hl.
    unfold header_block in Hrb. rewrite fmap_cons in Hrb. cbn [concat fst snd] in Hrb. rewrite header_line, <-!app_assoc in Hrb.
    rewrite header_line in Hl. rewrite length_app in Hl. cbn [length] in Hl.
    destruct (run_line (S (length hs) + fuel) false waited rb lb (k ++ [x3a; SPACE] ++ v ++ [CR]) (header_block hs ++ rest)
      true (i + 1)%N i m (fresh_resp i cs) AtHeader o w) as (rb' & lb' & Hrun & Hr' & Hlb').
    { done. } { unfold header_block. by rewrite <-!app_assoc. }
    { done. } { done. } { by apply header_no_LF. } { lia. }
    change (S (length ((k, v) :: hs)) + fuel) with (S (S (length hs) + fuel)). rewrite Hrun, <-header_line.
    rewrite (handle_header _ _ (k, v)) by done. by apply IH.
Qed.

Lemma serve_one fuel rq resumed rb lb rest i cs o w :
  late_write = true → request_ok rq → Represents rb (print_request rq ++ rest) → LineBuf lb → (resumed = true → Buffer.size lb = 0) →
  ∃ rb' lb' w', run (S (S (length (rq_headers rq)) + fuel)) resumed resumed
      (one rb lb true (i + 1) i (fresh_in i) (fresh_resp i cs) AtMethod o w) =
      run fuel false false (one rb' lb' true (i + 1 + 1) (i + 1) (fresh_in (i + 1)) (fresh_resp (i + 1) close) AtMethod
        (o ++ [Sent (reply (parsed i rq))]) w') ∧
    Represents rb' rest ∧ LineBuf lb'.
Proof.
  intros HL Hok Hrb Hlb Hres. pose proof Hok as (_ & _ & _ & _ & Hl & Hhs).
  rewrite first_line, length_app in Hl. cbn [length] in Hl. unfold print_request in Hrb.
  rewrite first_line in Hrb. rewrite <-app_assoc in Hrb. 
  destruct (run_line (S (length (rq_headers rq)) + fuel) resumed resumed rb lb
    (rq_method rq ++ [SPACE] ++ rq_url rq ++ [SPACE] ++ str "HTTP/" ++ rq_version rq ++ [CR])
    (header_block (rq_headers rq) ++ rest) true (i + 1)%N i (fresh_in i) (fresh_resp i cs) AtMethod o w)
    as (rb' & lb' & Hrun & Hr' & Hlb'); [by rewrite HL, orb_true_r|revert Hrb; by rewrite <-?app_assoc|done|done|by apply first_no_LF|lia|].
  rewrite Hrun, <-first_line, handle_first by done. by apply serve_headers.
Qed.

Lemma serve_all rqs resumed rb lb i cs o w fuel :
  late_write = true ∨ rqs = [] →
  Forall request_ok rqs → Represents rb (concat (print_request <$> rqs)) → LineBuf lb → rqs ≠ [] ∨ resumed = false →
  (resumed = true → Buffer.size lb = 0) → length (concat (print_request <$> rqs)) < fuel →
  ∃ rb' lb' cs' w', run fuel resumed resumed (one rb lb true (i + 1) i (fresh_in i) (fresh_resp i cs) AtMethod o w) =
      Ok (one rb' lb' true (i + N.of_nat (length rqs) + 1) (i + N.of_nat (length rqs)) (fresh_in (i + N.of_nat (length rqs)))
            (fresh_resp (i + N.of_nat (length rqs)) cs') AtMethod
            (o ++ imap (λ j rq, Sent (reply (parsed (i + N.of_nat j) rq))) rqs) w') ∧
    Represents rb' [] ∧ LineBuf lb' ∧ Buffer.size lb' = 0.
Proof.
  revert resumed rb lb i cs o w fuel. induction rqs as [|rq rqs IH]; intros resumed rb lb i cs o w fuel HL Hok Hrb Hlb Hor Hres Hf.
  - destruct Hor as [| ->]; [done|]. destruct fuel as [|fuel]; [simpl in Hf; lia|]. cbn [run_loop].
    change (lineBuffer (one rb lb _ _ _ _ _ _ _ _)) with lb. change (readBuffer (one rb lb _ _ _ _ _ _ _ _)) with rb.
    destruct (clear_line_buf lb Hlb) as (lb0 & -> & Hlb0 & Hs0). cbn [mbind res_bind].
    rewrite read_nothing by done. cbn [mbind res_bind]. exists rb, lb0, cs, w.
    cbn [length imap]. rewrite N.add_0_r, app_nil_r. done.
  - destruct HL as [HL|]; [|done]. apply Forall_cons in Hok as [Hrq Hok]. rewrite fmap_cons in Hrb, Hf. cbn [concat] in Hrb, Hf. rewrite length_app in Hf.
    assert (Hlen : S (S (length (rq_headers rq))) ≤ length (print_request rq)) by apply print_request_length.
    replace fuel with (S (S (length (rq_headers rq)) + (fuel - S (S (length (rq_headers rq)))))) by lia.
    destruct (serve_one (fuel - S (S (length (rq_headers rq)))) rq resumed rb lb _ i cs o w HL Hrq Hrb Hlb Hres)
      as (rb1 & lb1 & w1 & Hrun & Hrb1 & Hlb1). rewrite Hrun.
    destruct (IH false rb1 lb1 (i + 1)%N close (o ++ [Sent (reply (parsed i rq))]) w1 (fuel - S (S (length (rq_headers rq)))))
      as (rb' & lb' & cs' & w' & Hr2 & ?); [by left|done|done|done|by right|done|lia|].
    exists rb', lb', cs', w'. split; [|done]. rewrite Hr2. cbn [length imap].
    replace (i + 1 + N.of_nat (length rqs))%N with (i + N.of_nat (S (length rqs)))%N by lia.
    rewrite <-app_assoc. cbn [app]. rewrite N.add_0_r.
    rewrite (imap_ext _ ((λ j rq, Sent (reply (parsed (i + N.of_nat j) rq))) ∘ S)); [done|].
    intros j rq0 _. unfold compose. by replace (i + N.of_nat (S j))%N with (i + 1 + N.of_nat j)%N by lia.
Qed.

(** between two requests *)
Definition Idle (c : conn W) (i : N) : Prop :=
  ∃ rb lb cs o w, c = one rb lb true (i + 1) i (fresh_in i) (fresh_resp i cs) AtMethod o w ∧
    Represents rb [] ∧ LineBuf lb ∧ Buffer.size lb = 0.

Lemma new_conn_idle e w :
  ∃ c, new_conn send answer true listeners (Cbb.fresh_ring e) false w = Ok c ∧ Idle c 0 ∧ out c = [].
Proof.
  unfold new_conn. destruct (with_reserve_spec maxHeaderSize) as (lb & Hlb & Hw & _ & Hcap & _).
  unfold Buffer.with_reserve in Hlb. rewrite Hlb.
  assert (HL : LineBuf lb) by (split; [done|lia]).
  cbn [mbind res_bind]. unfold resume_run. change (RRQueue.init rr_sizeExp (new_incoming, new_response))
    with (RRQueue.mk [((new_incoming, new_response), false)] 0 0).
  change (mk _ lb _ Ended 0 false false [] w) with (one (Cbb.fresh_ring e) lb false 0 0 new_incoming new_response Ended [] w).
  rewrite one_next_request. cbn [mbind res_bind]. unfold run_fuel.
  destruct (Cbb.create_spec e) as [Hwf Hc].
  destruct (serve_all [] false (Cbb.fresh_ring e) lb 0%N keep_alive [] w (S (S (Cbb.used_size (Cbb.fresh_ring e)))))
    as (rb' & lb' & cs' & w' & Hrun & Hrb & Hlb' & Hs); [by right|done|by split|done|by right|done|simpl; lia|].
  change (∃ c, run (S (S (Cbb.used_size (Cbb.fresh_ring e)))) false false
    (one (Cbb.fresh_ring e) lb true (0 + 1) 0 (fresh_in 0) (fresh_resp 0 keep_alive) AtMethod [] w) = Ok c ∧
    Idle c 0 ∧ out c = []).
  rewrite Hrun. eexists. split; [done|]. split; [|done]. by exists rb', lb', cs', [], w'.
Qed.

Lemma on_data_idle rqs c i :
  late_write = true → Idle c i → Forall request_ok rqs → rqs ≠ [] →
  length (concat (print_request <$> rqs)) < 2 ^ Cbb.max_allowed_size_exp →
  ∃ c', on_data send answer true listeners (concat (print_request <$> rqs)) c = Ok c' ∧
    Idle c' (i + N.of_nat (length rqs)) ∧
    out c' = out c ++ imap (λ j rq, Sent (reply (parsed (i + N.of_nat j) rq))) rqs.
Proof.
  intros HL (rb & lb & cs & o & w & -> & [Hwf Hrb] & Hlb & Hs) Hok Hne Hfit. unfold on_data.
  set (bs := concat _) in *. change (readBuffer (one rb _ _ _ _ _ _ _ _ _)) with rb.
  destruct (Cbb.ring_append_spec (Some <$> bs) rb Hwf) as [[_ Hfull]|(rb1 & -> & Hwf1 & Hc1)].
  { pose proof (Cbb.length_ring_contents rb Hwf) as Hl. rewrite Hrb in Hl. cbn in Hl.
    rewrite length_fmap in Hfull. lia. }
  cbn [mbind res_bind]. change (with_buffers rb1 _ (one rb lb _ _ _ _ _ _ _ _))
    with (one rb1 lb true (i + 1) i (fresh_in i) (fresh_resp i cs) AtMethod o w).
  change (run_at (one _ _ _ _ _ _ _ AtMethod _ _)) with AtMethod. cbn match.
  rewrite Hrb in Hc1. cbn [app] in Hc1.
  destruct (serve_all rqs true rb1 lb i cs o w (run_fuel (one rb1 lb true (i + 1) i (fresh_in i) (fresh_resp i cs) AtMethod o w)))
    as (rb' & lb' & cs' & w' & Hrun & Hrb' & Hlb' & Hs'); [by left|done|by split|done|by left|done| |].
  { assert (Hu : Cbb.used_size rb1 = length bs)
      by (rewrite <-(Cbb.length_ring_contents rb1 Hwf1), Hc1; apply length_fmap).
    unfold run_fuel. cbn [readBuffer one]. rewrite Hu. fold bs. lia. }
  rewrite Hrun. eexists. split; [done|]. split; [|done]. by exists rb', lb', cs', (o ++ imap (λ j rq, Sent (reply (parsed (i + N.of_nat j) rq))) rqs), w'.
Qed.

Fixpoint on_all_data (bss : list (list u8)) (c : conn W) : res (conn W) :=
  match bss with
  | [] => Ok c
  | bs :: bss => c ← on_data send answer true listeners bs c; on_all_data bss c
  end.

(** a line found at once has no behaviour by itself *)
Lemma line_found_at_once fuel waited rb lb l rest a h t m r p o w :
  late_write = false → Represents rb (l ++ LF :: rest) → LineBuf lb → LF ∉ l → length l < maxHeaderSize →
  run (S fuel) false waited (one rb lb a h t m r p o w) = UB.
Proof.
  intros HL Hr Hlb Hl Hlen. cbn [run_loop]. destruct (clear_line_buf lb Hlb) as (lb0 & Hc & Hlb0 & Hs0).
  change (readBuffer (one rb lb a h t m r p o w)) with rb. change (lineBuffer (one rb lb a h t m r p o w)) with lb.
  rewrite Hc. cbn [mbind res_bind].
  destruct (read_line rb lb0 l rest) as (rb' & lb' & -> & _); [done..|]. cbn [mbind res_bind orb]. by rewrite HL.
Qed.

(** the line after the first one of a request *)
Lemma second_line hs rest :
  Forall (λ h, header_ok h ∧ (LF ∉ h.2) ∧ length (print_header h.1 h.2) ≤ maxHeaderSize) hs →
  ∃ l rest', header_block hs ++ rest = l ++ LF :: rest' ∧ LF ∉ l ∧ length l < maxHeaderSize.
Proof.
  intros Hok. destruct Hok as [|[k v] hs (Hh & Hv & Hl) _].
  - exists [CR], rest. split_and!; [done|by apply (bool_decide_eq_true_1 _)|by apply Nat.ltb_lt].
  - cbn [fst snd] in Hv, Hl. rewrite header_line, length_app in Hl. cbn [length] in Hl.
    exists (k ++ [x3a; SPACE] ++ v ++ [CR]), (header_block hs ++ rest).
    split_and!; [|by apply header_no_LF|lia].
    unfold header_block. rewrite fmap_cons. cbn [concat fst snd]. rewrite header_line, <-!app_assoc. done.
Qed.

Lemma on_data_freed rqs c i :
  late_write = false → Idle c i → Forall request_ok rqs → rqs ≠ [] →
  length (concat (print_request <$> rqs)) < 2 ^ Cbb.max_allowed_size_exp →
  on_data send answer true listeners (concat (print_request <$> rqs)) c = UB.
Proof.
  intros HL (rb & lb & cs & o & w & -> & [Hwf Hrb] & Hlb & Hs) Hok Hne Hfit. unfold on_data.
  destruct Hok as [|rq rqs Hrq _]; [done|]. rewrite fmap_cons in Hfit |- *. cbn [concat] in Hfit |- *.
  set (bs := _ ++ _) in *. change (readBuffer (one rb _ _ _ _ _ _ _ _ _)) with rb.
  destruct (Cbb.ring_append_spec (Some <$> bs) rb Hwf) as [[_ Hfull]|(rb1 & -> & Hwf1 & Hc1)].
  { pose proof (Cbb.length_ring_contents rb Hwf) as Hl. rewrite Hrb in Hl. cbn in Hl.
    rewrite length_fmap in Hfull. lia. }
  cbn [mbind res_bind]. change (with_buffers rb1 _ (one rb lb _ _ _ _ _ _ _ _))
    with (one rb1 lb true (i + 1) i (fresh_in i) (fresh_resp i cs) AtMethod o w).
  change (run_at (one _ _ _ _ _ _ _ AtMethod _ _)) with AtMethod. cbn match.
  rewrite Hrb in Hc1. cbn [app] in Hc1.
  pose proof Hrq as (_ & _ & _ & _ & Hl & Hhs). rewrite first_line, length_app in Hl. cbn [length] in Hl.
  assert (Hbs : bs = (rq_method rq ++ [SPACE] ++ rq_url rq ++ [SPACE] ++ str "HTTP/" ++ rq_version rq ++ [CR]) ++ LF ::
                     (header_block (rq_headers rq) ++ concat (print_request <$> rqs))).
  { subst bs. unfold print_request at 1. rewrite first_line, <-!app_assoc. done. }
  unfold run_fuel. set (fuel := Cbb.used_size _). clearbody fuel.
  destruct (run_line (S fuel) true true rb1 lb
    (rq_method rq ++ [SPACE] ++ rq_url rq ++ [SPACE] ++ str "HTTP/" ++ rq_version rq ++ [CR]) (header_block (rq_headers rq) ++ concat (print_request <$> rqs)) true
    (i + 1)%N i (fresh_in i) (fresh_resp i cs) AtMethod o w) as (rb2 & lb2 & -> & Hrb2 & Hlb2);
    [done|split; [done|by rewrite <-Hbs]|done|done|by apply first_no_LF|lia|].
  rewrite <-first_line, handle_first by done.
  destruct (second_line (rq_headers rq) (concat (print_request <$> rqs)) Hhs) as (l & rest & Heq & Hn & Hlen).
  rewrite Heq in Hrb2. by apply (line_found_at_once _ _ _ _ l rest).
Qed.

Lemma on_all_data_idle batches c i :
  late_write = true → Idle c i →
  Forall (λ rqs, Forall request_ok rqs ∧ rqs ≠ [] ∧
                 length (concat (print_request <$> rqs)) < 2 ^ Cbb.max_allowed_size_exp) batches →
  ∃ c', on_all_data ((λ rqs, concat (print_request <$> rqs)) <$> batches) c = Ok c' ∧
    Idle c' (i + N.of_nat (length (concat batches))) ∧
    out c' = out c ++ imap (λ j rq, Sent (reply (parsed (i + N.of_nat j) rq))) (concat batches).
Proof.
  intros HL. revert c i. induction batches as [|rqs bs IH]; intros c i Hi Hok.
  - exists c. cbn [concat length imap on_all_data fmap list_fmap]. by rewrite N.add_0_r, app_nil_r.
  - apply Forall_cons in Hok as [(Hr & Hne & Hfit) Hok]. rewrite fmap_cons. cbn [on_all_data concat].
    destruct (on_data_idle rqs c i HL Hi Hr Hne Hfit) as (c1 & -> & Hi1 & Ho1). cbn [mbind res_bind].
    destruct (IH c1 _ Hi1 Hok) as (c2 & Hc2 & Hi2 & Ho2). exists c2. split; [exact Hc2|].
    rewrite length_app, Nat2N.inj_add, N.add_assoc. split; [done|].
    rewrite Ho2, Ho1, imap_app, <-app_assoc. do 2 f_equal. apply imap_ext. intros j rq _.
    by rewrite Nat2N.inj_add, N.add_assoc.
Qed.
End serving.

Lemma max_size_bound n : n < 2 ^ 12 → n < 2 ^ Cbb.max_allowed_size_exp.
Proof.
  intros H. eapply Nat.lt_le_trans; [exact H|]. apply Nat.pow_le_mono_r; [done|].
  apply Nat.leb_le. reflexivity.
Qed.


Definition ex_send (b : list u8) (n : nat) : nat * write_result := (n + length b, Written).
Definition ex_get : request := mkRequest (str "GET") (str "/") (str "1.1") [(str "Host", str "a b")].
Definition ex_post_rq : request := mkRequest (str "POST") (str "/p") (str "1.0") [].
Definition ex_batches : list (list request) := [[ex_get; ex_post_rq]; [ex_get]].

Lemma ex_requests_ok : Forall request_ok [ex_get; ex_post_rq].
Proof.
  assert (Hlen : ∀ n, Nat.leb n 4096 = true → n ≤ maxHeaderSize).
  { intros n Hn%Nat.leb_le. etrans; [exact Hn|]. apply Nat.leb_le. reflexivity. }
  apply Forall_cons. split; [|apply Forall_singleton].
  all: split; [by apply (bool_decide_eq_true_1 _)|]; split; [done|].
  all: split; [by apply (bool_decide_eq_true_1 _)|]; split; [by apply (bool_decide_eq_true_1 _)|].
  all: split; [by apply Hlen|].
  - apply Forall_singleton. split; [|split; [by apply (bool_decide_eq_true_1 _)|by apply Hlen]].
    split; [done|]. split; [by apply (bool_decide_eq_true_1 _)|]. split; [by apply (bool_decide_eq_true_1 _)|].
    split; eexists; (split; [reflexivity|by apply (bool_decide_eq_true_1 _)]).
  - by apply Forall_nil.
Qed.

Lemma ex_batches_ok :
  Forall (λ rqs, Forall request_ok rqs ∧ rqs ≠ [] ∧
                 length (concat (print_request <$> rqs)) < 2 ^ Cbb.max_allowed_size_exp) ex_batches.
Proof.
  assert (Hb : ∀ rqs, Forall request_ok rqs → rqs ≠ [] → length (concat (print_request <$> rqs)) < 2 ^ 12 →
    Forall request_ok rqs ∧ rqs ≠ [] ∧ length (concat (print_request <$> rqs)) < 2 ^ Cbb.max_allowed_size_exp).
  { intros rqs H1 H2 H3. split; [exact H1|]. split; [exact H2|]. by apply max_size_bound. }
  pose proof ex_requests_ok as Hok. pose proof (Forall_inv Hok) as Hg.
  apply Forall_cons. split; [apply Hb; [exact Hok|discriminate|apply Nat.ltb_lt; reflexivity]|].
  apply Forall_cons. split; [apply Hb; [by apply Forall_singleton|discriminate|apply Nat.ltb_lt; reflexivity]|].
  by apply Forall_nil.
Qed.

Section an_allocator_that_keeps_freed_memory.
#[local] Instance harmless : FreedFrames := true.

End an_allocator_that_keeps_freed_memory.

(** ** A line in two pieces *)

(** [run] waits for a line of which nothing has arrived *)
Definition AwaitsLine {W} (c : conn W) : Prop :=
  Represents (readBuffer c) [] ∧ LineBuf (lineBuffer c) ∧ Buffer.size (lineBuffer c) = 0 ∧
  (run_at c = AtMethod ∨ run_at c = AtHeader).

Lemma read_partial rb lb p :
  Represents rb p → LineBuf lb → Buffer.size lb = 0 → LF ∉ p → length p < maxHeaderSize →
  ∃ rb' lb', Cbb.read_ready_data_until LF lb rb = Ok (rb', lb', in_progress) ∧ Represents rb' [] ∧
    Buffer.wf lb' ∧ Buffer.size lb' = length p.
Proof.
  intros Hr Hlb Hs Hp Hlen. pose proof Hlb as [Hw Hcap].
  destruct (until_spec LF lb rb p) as (q & rest & rb' & lb' & r & Hu & Hq & Hr' & Hc & Ho);
    [done..|by apply line_buf_room|].
  pose proof (Cbb.until_grows _ _ _ _ _ _ Hw Hu) as [Hw' _].
  destruct r; cbn in Ho; try done.
  - destruct Ho as (q' & -> & _). exfalso. apply Hp. rewrite Hq. set_solver.
  - destruct Ho as [_ Hl]. exfalso. rewrite Hq, length_app in Hlen. lia.
  - destruct Ho as [-> _]. assert (rest = []) as -> by (apply (app_inv_head p); by rewrite app_nil_r).
    exists rb', lb'. split_and!; try done. rewrite <-(Buffer.length_buffer_contents lb' Hw'), Hc. by rewrite length_fmap.
Qed.

(** A line that arrives in two pieces fails an assertion: the second call of
    [read_ready_data_until] for it requires the buffer, which holds the first
    piece, to be empty. *)
Theorem line_in_two_pieces_fails {L : FreedFrames} {W} (send : list u8 → W → W * write_result) user (handlers : bool) (listeners : nat)
    (c : conn W) (p : list u8) :
  AwaitsLine c → p ≠ [] → LF ∉ p → length p < maxHeaderSize →
  ∃ c1, on_data send user handlers listeners p c = Ok c1 ∧ ∀ d, on_data send user handlers listeners d c1 = AssertFail.
Proof.
  intros ([Hwf Hq] & Hlb & Hs & Hat) Hne Hp Hlen. unfold on_data at 1.
  destruct (Cbb.ring_append_spec (Some <$> p) (readBuffer c) Hwf) as [[_ Hfull]|(rb1 & -> & Hwf1 & Hc1)].
  { exfalso. pose proof (Cbb.length_ring_contents _ Hwf) as Hl. rewrite Hq in Hl. cbn in Hl. rewrite length_fmap in Hfull.
    assert (Hb : 2 ^ 14 ≤ 2 ^ Cbb.max_allowed_size_exp) by (apply Nat.pow_le_mono_r; [done|apply Nat.leb_le; reflexivity]).
    fold maxHeaderSize in Hb. lia. }
  rewrite Hq in Hc1. cbn [app] in Hc1. cbn [mbind res_bind].
  assert (Hu1 : Cbb.used_size rb1 = length p) by (rewrite <-(Cbb.length_ring_contents rb1 Hwf1), Hc1; apply length_fmap).
  assert (Hp0 : 1 ≤ length p) by (destruct p; [done|simpl; lia]).
  destruct (read_partial rb1 (lineBuffer c) p) as (rb2 & lb2 & Hread & [Hwf2 _] & Hw2 & Hs2); [by split|done..|].
  set (c0 := with_buffers rb1 (lineBuffer c) c).
  assert (Hrun : run_loop send user handlers listeners (run_fuel c0) true true c0 = Ok (with_buffers rb2 lb2 c0)).
  { unfold run_fuel. cbn [run_loop]. subst c0. cbn [with_buffers readBuffer lineBuffer].
    rewrite Hu1, bool_decide_eq_true_2 by done. cbn [mbind res_bind]. rewrite Hread. done. }
  exists (with_buffers rb2 lb2 c0). split.
  { subst c0. cbn [with_buffers run_at]. destruct Hat as [-> | ->]; exact Hrun. }
  intros d. unfold on_data. cbn [with_buffers readBuffer lineBuffer run_at].
  assert (Hsecond : ∀ rb3, run_loop send user handlers listeners (run_fuel (with_buffers rb3 lb2 (with_buffers rb2 lb2 c0)))
    true true (with_buffers rb3 lb2 (with_buffers rb2 lb2 c0)) = AssertFail).
  { intros rb3. unfold run_fuel. cbn [run_loop]. cbn [with_buffers readBuffer lineBuffer].
    case_bool_decide; [|done]. cbn [mbind res_bind]. unfold Cbb.read_ready_data_until.
    by rewrite bool_decide_eq_false_2 by lia. }
  destruct (Cbb.ring_append_spec (Some <$> d) rb2 Hwf2) as [[-> _]|(rb3 & -> & _)]; cbn [mbind res_bind]; [done|].
  subst c0. cbn [with_buffers run_at]. destruct Hat as [-> | ->]; apply Hsecond.
Qed.

Section example_line.
#[local] Instance harmless_line : FreedFrames := true.
Lemma line_in_two_pieces_fails_witness :
  ∃ c, new_conn ex_send (answer (λ _, 200%N) (λ _, str "OK") method_url) true 0 (Cbb.fresh_ring 4) false 0 = Ok c ∧
  ∃ c1, on_data ex_send (answer (λ _, 200%N) (λ _, str "OK") method_url) true 0 (str "GET / HT") c = Ok c1 ∧
    ∀ d, on_data ex_send (answer (λ _, 200%N) (λ _, str "OK") method_url) true 0 d c1 = AssertFail.
Proof.
  destruct (new_conn_idle ex_send (λ _ _, eq_refl) (λ _, 200%N) (λ _, str "OK") method_url 0 4 0) as (c & Hc & Hi & _).
  exists c. split; [exact Hc|]. destruct Hi as (rb & lb & cs & o & w & -> & Hrb & Hlb & Hs).
  apply line_in_two_pieces_fails; [|done|by apply (bool_decide_eq_true_1 _)|apply Nat.ltb_lt; reflexivity].
  split_and!; try done. by left.
Defined.
End example_line.

(** ** Everything a connection does comes to an end *)

(** every response still says that the connection is kept *)
Definition keeps (p : pair_t) : Prop := r_connStatus p.2 = keep_alive.
Definition AllKeep (q : queue) : Prop := Forall (λ s, keeps s.1) (RRQueue.cbuff q).

Lemma halts_require {A} (P : A → Prop) (b : bool) (k : res A) : halts P k → halts P (REQUIRE b ;; k).
Proof. by destruct b. Qed.

Section halting.
Context {L : FreedFrames}.
Context {W : Type} (send : list u8 → W → W * write_result).
Context (user : consumer → Incoming → list Cmd) (has_handlers : bool) (listeners : nat).

(** a property of connections that the calls of a user preserve *)
Section calls.
Context (I : conn W → Prop) (resume : conn W → res (conn W)).
Context (I_keep : ∀ c, I c → AllKeep (rrQueue c)).
Context (I_acted : ∀ c a w, I c → I (acted a w c)).
Context (I_queue : ∀ c q, I c → AllKeep q → I (with_queue q c)).
Context (I_request : ∀ c b, I c → I (with_ahd_request b c)).
Context (I_resume : ∀ c, I c → ahd_continueGetting c = true → halts I (resume (with_continue false c))).

Lemma messages_halts k c : I c → halts keeps (messages k c).
Proof.
  intros Hc. apply I_keep in Hc. unfold messages. destruct (_ !! k) as [[p a]|] eqn:Hk; [|done].
  by apply (proj1 (Forall_lookup _ _) Hc _ _ Hk).
Qed.

Lemma put_messages_keeps k p c : I c → keeps p → I (put_messages k p c).
Proof.
  intros Hc Hp. apply I_queue; [done|]. apply Forall_alter; [by apply I_keep|]. by intros [] _ _.
Qed.

Lemma set_response_halts k r c : I c → r_connStatus r = keep_alive → halts I (set_response k r c).
Proof.
  intros Hc Hr. apply (halts_bind keeps); [by apply messages_halts|]. intros p Hp. by apply put_messages_keeps.
Qed.

Lemma set_request_halts k m c : I c → halts I (set_request k m c).
Proof.
  intros Hc. apply (halts_bind keeps); [by apply messages_halts|]. intros p Hp. by apply put_messages_keeps.
Qed.

Lemma release_conn_halts i c : I c → halts I (release i c).
Proof.
  intros Hc. unfold release. apply (halts_bind (λ r, AllKeep r.1)).
  - apply RRQueue.release_halts. by apply I_keep.
  - intros [q b] Hq. by apply I_queue.
Qed.

Lemma give_back_halts k c : I c → halts I (give_back resume k c).
Proof.
  intros Hc. unfold give_back. apply (halts_bind keeps); [by apply messages_halts|]. intros p Hp.
  apply (halts_bind I); [by apply set_response_halts|]. intros c1 H1.
  apply (halts_bind I); [by apply release_conn_halts|]. intros c2 H2.
  unfold proceedToNext. destruct (canPush c2 && ahd_continueGetting c2) eqn:E; [|done].
  apply andb_true_iff in E as [_ E]. by apply I_resume.
Qed.

Lemma write_halts k bs f c :
  I c → (∀ r, r_connStatus r = keep_alive → r_connStatus (f r) = keep_alive) →
  halts (λ r, I r.1) (write send resume k bs f c).
Proof.
  intros Hc Hf. unfold write. destruct (send bs (world c)) as [w [| |]].
  - apply (halts_bind keeps); [by apply messages_halts, I_acted|]. intros p Hp.
    apply (halts_bind I); [apply set_response_halts; [by apply I_acted|by apply Hf]|]. done.
  - by apply I_acted.
  - apply (halts_bind I); [by apply give_back_halts, I_acted, I_acted|]. done.
Qed.

Lemma serialize_halts r : r_connStatus r = keep_alive → halts (λ r, r_connStatus r = keep_alive) (serializeHeaders r).
Proof. intros Hr. unfold serializeHeaders. by case_bool_decide. Qed.

Lemma serialize_if_needed_halts k c : I c → halts I (serialize_if_needed k c).
Proof.
  intros Hc. unfold serialize_if_needed. apply (halts_bind keeps); [by apply messages_halts|]. intros p Hp.
  case_bool_decide; [|done]. apply (halts_bind (λ r, r_connStatus r = keep_alive)); [by apply serialize_halts|].
  intros r Hr. apply halts_require. by apply set_response_halts.
Qed.

Lemma awaited_halts (r : res (conn W * bool)) : halts (λ r, I r.1) r → halts (λ r, I r.1) (awaited r).
Proof. intros H. apply (halts_bind (λ r, I r.1)); [done|]. intros [c []] Hc; [by apply halts_require|done]. Qed.

Lemma flushHeaders_halts k c : I c → halts (λ r, I r.1) (flushHeaders send resume k c).
Proof.
  intros Hc. unfold flushHeaders. apply (halts_bind I); [by apply serialize_if_needed_halts|]. intros c1 H1.
  apply (halts_bind keeps); [by apply messages_halts|]. intros p Hp. case_bool_decide; [|done]. by apply write_halts.
Qed.

Lemma writeBodyPart_halts k b c : I c → halts (λ r, I r.1) (writeBodyPart send resume k b c).
Proof.
  intros Hc. unfold writeBodyPart. apply (halts_bind I); [by apply serialize_if_needed_halts|]. intros c1 H1.
  apply (halts_bind keeps); [by apply messages_halts|]. intros p Hp. case_bool_decide; [|done].
  case_bool_decide; [|by apply write_halts].
  apply (halts_bind I); [by apply set_response_halts|]. intros c2 H2. by apply write_halts.
Qed.

Lemma finish_halts k c : I c → halts I (finish resume k c).
Proof.
  intros Hc. unfold finish. apply (halts_bind keeps); [by apply messages_halts|]. intros p Hp.
  apply (halts_bind I); [by apply set_request_halts|]. intros c1 H1.
  case_bool_decide; [|by apply give_back_halts].
  apply (halts_bind keeps); [by apply messages_halts, I_acted|]. intros p1 Hp1.
  apply set_response_halts; [by apply I_acted|done].
Qed.

Lemma exec_cmd_halts k cmd c : I c → halts (λ r, I r.1) (exec_cmd send resume k cmd c).
Proof.
  intros Hc. destruct cmd as [code msg hs|key v| |b|b| |]; cbn [exec_cmd].
  - apply (halts_bind keeps); [by apply messages_halts|]. intros p Hp.
    apply (halts_bind I); [|done]. apply set_response_halts; [done|]. by destruct hs.
  - apply (halts_bind keeps); [by apply messages_halts|]. intros p Hp.
    apply (halts_bind (λ r, r_connStatus r = keep_alive)).
    { unfold addHeader. case_bool_decide; [|done]. by case_bool_decide. }
    intros r Hr. apply (halts_bind I); [by apply set_response_halts|done].
  - by apply awaited_halts, flushHeaders_halts.
  - by apply awaited_halts, writeBodyPart_halts.
  - apply awaited_halts. unfold end_body. apply (halts_bind keeps); [by apply messages_halts|]. intros p Hp.
    apply (halts_bind I).
    { case_bool_decide; [|done]. case_bool_decide; [|done]. by apply set_response_halts. }
    intros c1 H1. apply (halts_bind (λ r, I r.1)); [by apply awaited_halts, writeBodyPart_halts|]. intros [c2 []] H2; [|done].
    apply (halts_bind I); [by apply finish_halts|done].
  - apply awaited_halts. unfold end_empty. apply (halts_bind keeps); [by apply messages_halts|]. intros p Hp.
    apply (halts_bind (λ r, I r.1)). { case_bool_decide; [by apply awaited_halts, flushHeaders_halts|done]. }
    intros [c1 []] H1; [|done]. apply (halts_bind I); [by apply finish_halts|done].
  - by apply I_request.
Qed.

Lemma exec_cmds_halts k cmds c : I c → halts I (exec_cmds send resume k cmds c).
Proof.
  revert c. induction cmds as [|cmd cmds IH]; intros c Hc; [done|]. cbn [exec_cmds].
  apply (halts_bind (λ r, I r.1)); [by apply exec_cmd_halts|]. intros [c1 []] H1; [by apply IH|done].
Qed.

Lemma onNewRequest_halts k c : I c → halts I (onNewRequest send user has_handlers listeners resume k c).
Proof.
  intros Hc. unfold onNewRequest. apply (halts_bind keeps); [by apply messages_halts|]. intros p Hp.
  destruct (ahd_request c); [by apply exec_cmds_halts, I_request|].
  destruct has_handlers.
  { apply (halts_bind I); [by apply exec_cmds_halts|]. intros c1 H1. by apply halts_require. }
  case_bool_decide; [by apply exec_cmds_halts|done].
Qed.
End calls.

Record Inv (c : conn W) : Prop := {
  inv_keep : AllKeep (rrQueue c);
  inv_ring : ∃ q, Represents (readBuffer c) q;
  inv_wf : Buffer.wf (lineBuffer c);
  inv_cap : Buffer.capacity (lineBuffer c) ≠ 0;
}.

(** ... between two events: while [run] waits for data nobody else resumes it *)
Definition Live (c : conn W) : Prop :=
  Inv c ∧ (ahd_continueGetting c = true → run_at c = InContinue).

(** ... while [run] delivers a request *)
Definition Running (rb : Cbb.t) (c : conn W) : Prop :=
  Inv c ∧ readBuffer c = rb ∧ ahd_continueGetting c = false.

Lemma running_frame rb (c c' : conn W) :
  Running rb c → rrQueue c' = rrQueue c → readBuffer c' = readBuffer c → lineBuffer c' = lineBuffer c →
  ahd_continueGetting c' = ahd_continueGetting c → Running rb c'.
Proof. intros ([H1 H2 H3 H4] & H5 & H6) E1 E2 E3 E4. split_and!; [constructor|..]; rewrite ?E1, ?E2, ?E3, ?E4; done. Qed.

Lemma running_queue rb (c : conn W) q : Running rb c → AllKeep q → Running rb (with_queue q c).
Proof. intros ([H1 H2 H3 H4] & H5 & H6) Hq. split_and!; [constructor|..]; done. Qed.

Lemma running_keep rb (c : conn W) : Running rb c → AllKeep (rrQueue c).
Proof. intros [H _]. apply H. Qed.

#[local] Abbreviation deliver := (onNewRequest send user has_handlers listeners).

Lemma running_deliver rb resume k c : Running rb c → halts (Running rb) (deliver resume k c).
Proof.
  apply onNewRequest_halts.
  - apply running_keep.
  - intros c0 a w0 H. by eapply running_frame.
  - intros c0 q H. by apply running_queue.
  - intros c0 b H. by eapply running_frame.
  - intros c0 (_ & _ & H) Ht. congruence.
Qed.

Lemma next_request_halts rb c : Running rb c → halts (Running rb) (next_request c).
Proof.
  intros Hc. unfold next_request. apply (halts_bind (λ r, AllKeep r.1)).
  - apply RRQueue.getHead_halts; [done|by eapply running_keep].
  - intros [q k] Hq. cbn. eapply running_frame; [by apply (running_queue rb c q)|done..].
Qed.

Lemma getRequest_line_halts rb line c :
  Running rb c → halts (λ r, Running rb r.1) (getRequest_line line c).
Proof.
  intros Hc. unfold getRequest_line. apply (halts_bind keeps); [by apply (messages_halts (Running rb)); [apply running_keep|]|].
  intros p Hp.
  assert (Hset : ∀ m, halts (Running rb) (set_request (cur c) m c)).
  { intros m. apply (set_request_halts (Running rb)); [apply running_keep|intros; by apply running_queue|done]. }
  assert (Hhdr : halts (λ r, Running rb r.1) ('(m, more) ← parseHeaderEntry line p.1; c ← set_request (cur c) m c;
    if (more : bool) then Ok (c, None)
    else Ok (c, Some (bool_decide (readStatus m = in_body ∨ readStatus m = completed))))).
  { apply (halts_bind (λ _, True)); [apply parseHeaderEntry_halts|]. intros [m more] _.
    apply (halts_bind (Running rb)); [apply Hset|]. by intros c1 H1; destruct more. }
  destruct (run_at c); try exact Hhdr.
  apply (halts_bind (λ _, True)); [apply parseMethod_halts|]. intros [m good] _.
  apply (halts_bind (Running rb)); [apply Hset|]. intros c1 H1. destruct good; [|done]. by eapply running_frame.
Qed.

Lemma running_live rb c : Running rb c → Live c.
Proof. intros (H1 & _ & H2). split; [done|]. by rewrite H2. Qed.

Lemma handle_line_halts rb again waited line c :
  Running rb c → (∀ b c, Running rb c → halts Live (again b c)) →
  halts Live (handle_line send user has_handlers listeners again waited line c).
Proof.
  intros Hc Hagain. unfold handle_line. pose proof (getRequest_line_halts rb line c Hc) as Hg.
  destruct (getRequest_line line c) as [[c1 [[]|]]| | | |]; cbn in Hg; try done.
  - apply halts_require, (halts_bind (Running rb)); [by apply running_deliver|]. intros c2 H2.
    destruct (canPush c2).
    + apply (halts_bind (Running rb)); [by apply next_request_halts|]. apply Hagain.
    + destruct H2 as [[] _]. split; [by constructor|done].
  - by apply halts_require, (running_live rb), (running_frame rb c1).
  - by apply Hagain.
  - by apply halts_require, (running_live rb), (running_frame rb c).
Qed.

Lemma run_loop_halts fuel resumed waited c q :
  Inv c → ahd_continueGetting c = false → Represents (readBuffer c) q → length q < fuel →
  halts Live (run_loop send user has_handlers listeners fuel resumed waited c).
Proof.
  revert resumed waited c q. induction fuel as [|fuel IH]; intros resumed waited c q [Hk Hr Hw Hcap] Hcont Hq Hf; [lia|].
  cbn [run_loop]. apply (halts_bind (λ lb, Buffer.wf lb ∧ Buffer.capacity lb ≠ 0)).
  { destruct resumed; [by case_bool_decide|]. unfold Buffer.clear.
    destruct (Buffer.trim_spec (Buffer._size (lineBuffer c)) (lineBuffer c) Hw) as (lb' & Ht & Hw' & _ & _ & Hc'); [done|].
    unfold Buffer.size. rewrite Ht. split; [done|]. unfold Buffer.capacity in *. by rewrite Hc'. }
  intros lb [Hwl Hcl]. destruct (decide (Buffer.size lb = 0)) as [Hs|Hs].
  2:{ unfold Cbb.read_ready_data_until. by rewrite (bool_decide_eq_false_2 (Buffer.size lb = 0)). }
  destruct (until_spec LF lb (readBuffer c) q Hq Hwl Hs Hcl) as (p & rest & rb' & lb' & r & Hu & Hpq & Hr' & Hc' & Ho).
  pose proof (Cbb.until_grows _ _ _ _ _ _ Hwl Hu) as [Hwl' Hcl']. rewrite Hu. cbn [mbind res_bind].
  assert (Hrun : Running rb' (with_buffers rb' lb' c)).
  { split_and!; [constructor; cbn; try done; [by exists rest|lia]|done|done]. }
  destruct r; try done.
  - cbn in Ho. destruct Ho as (p' & -> & _). apply halts_require. unfold line_of. destruct (mapM id _) as [line|]; [|done].
    cbn [mbind res_bind]. apply (handle_line_halts rb'); [done|]. intros b c1 ([] & Hrb & Hcont1).
    apply (IH false b c1 rest); [by constructor|done|by rewrite Hrb|].
    rewrite Hpq, !length_app in Hf. simpl in Hf. lia.
  - by apply halts_require, halts_require, (running_live rb'), (running_frame rb' (with_buffers rb' lb' c)).
  - by apply (running_live rb').
Qed.

Lemma run_fuel_enough resumed waited c :
  Inv c → ahd_continueGetting c = false → halts Live (run_loop send user has_handlers listeners (run_fuel c) resumed waited c).
Proof.
  intros Hc Hcont. destruct (inv_ring c Hc) as [q Hq]. apply (run_loop_halts _ _ _ _ q); [done..|].
  destruct Hq as [Hwf Hq]. unfold run_fuel. rewrite <-(Cbb.length_ring_contents _ Hwf), Hq, length_fmap. lia.
Qed.

Lemma resume_run_halts c : Inv c → ahd_continueGetting c = false → halts Live (resume_run send user has_handlers listeners c).
Proof.
  intros Hc Hcont. unfold resume_run. apply (halts_bind (Running (readBuffer c))); [by apply next_request_halts|].
  intros c1 (H1 & _ & H2). by apply run_fuel_enough.
Qed.

(** the life of a connection *)
Inductive event : Type := EData (bs : list u8) | EUser (k : nat) (cmds : list Cmd) | EClose.
Definition on_event (ev : event) (c : conn W) : res (conn W) :=
  match ev with
  | EData bs => on_data send user has_handlers listeners bs c
  | EUser k cmds => on_user send user has_handlers listeners k cmds c
  | EClose => Ok (on_close c)
  end.

Lemma on_event_halts ev c : Live c → halts Live (on_event ev c).
Proof.
  intros [Hc Hcont]. destruct ev as [bs|k cmds|]; cbn [on_event].
  - unfold on_data. destruct (inv_ring c Hc) as (q & Hwf & Hq).
    destruct (Cbb.ring_append_spec (Some <$> bs) (readBuffer c) Hwf) as [[-> _]|(rb1 & -> & Hwf1 & Hc1)];
      cbn [mbind res_bind]; [done|].
    assert (H1 : Inv (with_buffers rb1 (lineBuffer c) c)).
    { destruct Hc. constructor; cbn; try done. exists (q ++ bs). split; [done|]. by rewrite Hc1, Hq, fmap_app. }
    destruct (run_at c) eqn:Hat; cbn [with_buffers run_at]; rewrite Hat; try (split; [exact H1|cbn; by rewrite Hat]).
    all: apply run_fuel_enough; [done|]; cbn; destruct (ahd_continueGetting c); [by discriminate Hcont|done].
  - apply exec_cmds_halts; try done.
    + intros c0 [H _]. apply H.
    + intros c0 a w0 [[] H]. by repeat split.
    + intros c0 q [[] H] Hq. by repeat split.
    + intros c0 b [[] H]. by repeat split.
    + intros c0 [[] H] _. apply resume_run_halts; [by constructor|done].
  - unfold on_close. destruct (run_at c) eqn:Hat; cbn; (split; [by destruct Hc|]); cbn; intros H; specialize (Hcont H); congruence.
Qed.

Fixpoint on_events (evs : list event) (c : conn W) : res (conn W) :=
  match evs with [] => Ok c | ev :: evs => c ← on_event ev c; on_events evs c end.

Lemma on_events_halts evs c : Live c → halts Live (on_events evs c).
Proof.
  revert c. induction evs as [|ev evs IH]; intros c Hc; [done|]. cbn [on_events].
  apply (halts_bind Live); [by apply on_event_halts|]. apply IH.
Qed.

Lemma new_conn_halts e awaited w : halts Live (new_conn send user has_handlers listeners (Cbb.fresh_ring e) awaited w).
Proof.
  unfold new_conn. destruct (with_reserve_spec maxHeaderSize) as (lb & Hlb & Hw & _ & Hcap & _).
  unfold Buffer.with_reserve in Hlb. rewrite Hlb. cbn [mbind res_bind].
  assert (Hroom : Buffer.capacity lb ≠ 0) by (apply line_buf_room; split; [done|lia]).
  destruct (Cbb.create_spec e) as [Hwf Hc]. apply resume_run_halts; [|done].
  constructor; cbn [rrQueue readBuffer lineBuffer]; [by repeat constructor|by exists []|done|done].
Qed.
End halting.

(** C30. Termination: whatever a peer sends, in whatever pieces, and whatever the
    user calls in the handlers and outside of them, every event of a connection
    is handled in finitely many steps: the loop of [run] ends with the bytes
    received, although the calls of the user resume it from inside. In every
    state reached, all responses still say that the connection is to be kept,
    whatever headers were added: no [end] ever closes the socket after its
    answer. *)
Theorem connection_events_end {L : FreedFrames} {W} (send : list u8 → W → W * write_result) user (handlers : bool) (listeners e : nat)
    (awaited : bool) (w : W) (evs : list event) :
  halts (λ c, Forall (λ s, r_connStatus s.1.2 = keep_alive) (RRQueue.cbuff (rrQueue c)))
    (c ← new_conn send user handlers listeners (Cbb.fresh_ring e) awaited w; on_events send user handlers listeners evs c).
Proof.
  apply (halts_bind Live); [apply new_conn_halts|]. intros c Hc.
  eapply halts_impl; [by apply on_events_halts|]. intros c' [[Hk _ _ _] _]. exact Hk.
Qed.



Lemma messages_put {W} k p p0 (c : conn W) : messages k c = Ok p0 → messages k (put_messages k p c) = Ok p.
Proof.
  unfold messages, put_messages. cbn. destruct (RRQueue.cbuff (rrQueue c) !! k) as [[p1 a]|] eqn:Hk; [|done].
  intros _. by rewrite list_lookup_alter, decide_True, Hk.
Qed.

Lemma set_response_spec {W} k r (c c' : conn W) : set_response k r c = Ok c' → ∃ m, messages k c' = Ok (m, r).
Proof.
  unfold set_response. intros H. apply bind_Ok_inv in H as (p & Hp & H). simplify_eq.
  exists p.1. by eapply messages_put.
Qed.

Lemma written_status {L : FreedFrames} {W} (send : list u8 → W → W * write_result) resume k bs f (c c1 : conn W) ws :
  (∀ b w, (send b w).2 = Written) → (∀ r, writeStatus (f r) = ws) → write send resume k bs f c = Ok (c1, true) →
  ∃ p, messages k c1 = Ok p ∧ writeStatus p.2 = ws.
Proof.
  intros Hsend Hf. unfold write. pose proof (Hsend bs (world c)) as Hw. destruct (send bs (world c)) as [w wr].
  cbn in Hw. subst wr. intros H. apply bind_Ok_inv in H as (p & _ & H). apply bind_Ok_inv in H as (c2 & H2 & H).
  simplify_eq. apply set_response_spec in H2 as (m & Hm). eexists. split; [done|]. apply Hf.
Qed.

Lemma writeBodyPart_status {L : FreedFrames} {W} (send : list u8 → W → W * write_result) resume k b (c c1 : conn W) :
  (∀ b w, (send b w).2 = Written) → writeBodyPart send resume k b c = Ok (c1, true) →
  ∃ p, messages k c1 = Ok p ∧ writeStatus p.2 = writing_body.
Proof.
  intros Hsend H. unfold writeBodyPart in H. apply bind_Ok_inv in H as (c2 & _ & H).
  apply bind_Ok_inv in H as (p & _ & H). destruct (bool_decide (_ ∨ _)); [|done]. destruct (bool_decide _).
  - apply bind_Ok_inv in H as (c3 & _ & H). by apply (written_status _ _ _ _ _ _ _ writing_body Hsend) in H.
  - by apply (written_status _ _ _ _ _ _ _ writing_body Hsend) in H.
Qed.

(** A response written in parts can never be ended: once a part of the body was
    written, writing another part, and each way of ending the response, fails
    an assertion. *)
Theorem response_in_parts_never_ends {L : FreedFrames} {W} (send : list u8 → W → W * write_result) resume (k : nat) (b : list u8)
    (c c1 : conn W) :
  (∀ b w, (send b w).2 = Written) → writeBodyPart send resume k b c = Ok (c1, true) →
  ∀ b', writeBodyPart send resume k b' c1 = AssertFail ∧ end_body send resume k b' c1 = AssertFail ∧
        end_empty send resume k c1 = AssertFail.
Proof.
  intros Hsend Hw.
  assert (∃ p, messages k c1 = Ok p ∧ writeStatus p.2 = writing_body) as (p & Hp & Hst)
    by (by apply (writeBodyPart_status send resume k b c)).
  assert (Hser : serialize_if_needed k c1 = Ok c1).
  { unfold serialize_if_needed. rewrite Hp. cbn [mbind res_bind]. by rewrite bool_decide_eq_false_2 by congruence. }
  assert (Hbody : ∀ b', writeBodyPart send resume k b' c1 = AssertFail).
  { intros b'. unfold writeBodyPart. rewrite Hser. cbn [mbind res_bind]. rewrite Hp. cbn [mbind res_bind].
    rewrite bool_decide_eq_false_2; [done|]. intros []; congruence. }
  intros b'. split; [done|]. split.
  - unfold end_body. rewrite Hp. cbn [mbind res_bind]. rewrite bool_decide_eq_false_2 by (intros Hn; by apply Hn).
    cbn [mbind res_bind]. by rewrite Hbody.
  - unfold end_empty. rewrite Hp. cbn [mbind res_bind]. rewrite bool_decide_eq_true_2 by congruence.
    unfold flushHeaders. rewrite Hser. cbn [mbind res_bind]. rewrite Hp. cbn [mbind res_bind].
    by rewrite bool_decide_eq_false_2 by congruence.
Qed.

Section example_response.
#[local] Instance harmless_response : FreedFrames := true.
Lemma response_in_parts_never_ends_witness :
  ∃ c1, writeBodyPart ex_send (λ c, Ok c) 0 (str "a")
      (one (Cbb.fresh_ring 4) Buffer.empty_buffer true 1 0 (fresh_in 0) (fresh_resp 0 keep_alive) AtMethod [] 0) = Ok (c1, true) ∧
  ∀ b', writeBodyPart ex_send (λ c, Ok c) 0 b' c1 = AssertFail ∧ end_body ex_send (λ c, Ok c) 0 b' c1 = AssertFail ∧
        end_empty ex_send (λ c, Ok c) 0 c1 = AssertFail.
Proof.
  eexists. split; [reflexivity|].
  apply (response_in_parts_never_ends ex_send (λ c, Ok c) 0 (str "a")
    (one (Cbb.fresh_ring 4) Buffer.empty_buffer true 1 0 (fresh_in 0) (fresh_resp 0 keep_alive) AtMethod [] 0)); done.
Defined.
End example_response.

(** An answer whose write fails is released twice: [writeBodyPart] gives the
    response back in its [catch], and returns to [end], which gives it back
    again and fails the assertion of the window; by the language alone the call
    of [serializeHeaders] has no behaviour before that. *)
Theorem failed_write_released_twice {L : FreedFrames} {W} (send : list u8 → W → W * write_result) resume rb lb i m cs p o (w : W) (b : list u8) :
  (∀ bs, (send bs w).2 = Throws) →
  end_body send resume 0 b (one rb lb true (i + 1) i m (fresh_resp i cs) p o w) =
    if late_write then AssertFail else UB.
Proof.
  intros Hsend. change (fresh_resp i cs) with (resp i cs [] [] notyet []).
  unfold end_body. rewrite one_messages. cbn [mbind res_bind fst snd].
  rewrite (bool_decide_eq_true_2 (_ ≠ writing_body)), (bool_decide_eq_true_2 (_ = notyet)) by done.
  change (with_r_header _ (resp i cs [] [] notyet [])) with (resp i cs [] (length_header b) notyet []).
  generalize (length_header b) as h. intros h. rewrite one_set_response. cbn [mbind res_bind].
  unfold writeBodyPart, serialize_if_needed. rewrite one_messages. cbn [mbind res_bind fst snd].
  rewrite (bool_decide_eq_true_2 (_ = notyet)), serialize_resp by done. cbn [mbind res_bind].
  destruct late_write eqn:HL; [|done]. rewrite awaited_harmless by done. cbn [mbind res_bind].
  rewrite one_set_response. cbn [mbind res_bind]. rewrite one_messages. cbn [mbind res_bind fst snd].
  rewrite (bool_decide_eq_true_2 (_ ∨ _)) by (by left). rewrite (bool_decide_eq_true_2 (_ = hdr_serialized)) by done.
  cbn [resp headerBuff]. set (bs := (_ ++ b)). clearbody bs.
  rewrite one_set_response. cbn [mbind res_bind]. unfold write. cbn [world one].
  pose proof (Hsend bs) as Hw. destruct (send bs w) as [w' wr]. cbn in Hw. subst wr.
  unfold socket_end. rewrite !one_acted. unfold give_back at 1. rewrite one_messages. cbn [mbind res_bind fst snd].
  rewrite one_set_response. cbn [mbind res_bind idx rbase with_headerBuff]. rewrite one_release. cbn [mbind res_bind].
  unfold proceedToNext at 1. rewrite andb_false_r. cbn [mbind res_bind].
  unfold finish. rewrite one_messages. cbn [mbind res_bind fst snd]. rewrite one_set_request. cbn [mbind res_bind].
  rewrite (bool_decide_eq_false_2 (_ ≠ keep_alive)) by (by intros H; apply H).
  unfold give_back. rewrite one_messages. cbn [mbind res_bind fst snd]. rewrite one_set_response.
  cbn [mbind res_bind]. unfold release, RRQueue.release. cbn [rrQueue one RRQueue.head RRQueue.tail].
  by rewrite bool_decide_eq_false_2 by (cbn; lia).
Qed.

Lemma failed_write_released_twice_witness :
  end_body (L := true) (λ _ (w : nat), (w, Throws)) (λ c, Ok c) 0 (str "a")
    (one (Cbb.fresh_ring 4) Buffer.empty_buffer true (0 + 1) 0 (fresh_in 0) (fresh_resp 0 keep_alive) AtMethod [] 0) = AssertFail.
Proof. by apply (failed_write_released_twice (L := true) (λ _ (w : nat), (w, Throws))). Defined.
End HttpSpec.
