(* ===== verification/Address.v ===== *)
(** * Addresses (include/nodecpp/ip_and_port.h, url.h, src/tcp_socket/tcp_socket.cpp)

    [Module Ip] models [Ip4], [Port] and [IPFAMILY], on a little-endian machine;
    [inet_addr] of the C library is a parameter. [Module Url] models the query
    string of an address: [UrlQueryItem], [UrlQuery] and
    [Url::parseUrlQueryString], on the strings of HttpMessage.v. *)

From S2P Require Import Prelude HttpMessage.
From Stdlib Require Import Lia.

Module Ip.
Import Str.

(** [htons], [ntohs], [ntohl] *)
Definition htons (p : Z) : Z := Z.lor (Z.shiftl (Z.land p 255) 8) (Z.shiftr p 8).
Definition ntohl (n : Z) : Z :=
  Z.lor (Z.shiftl (Z.land n 255) 24)
    (Z.lor (Z.shiftl (Z.land (Z.shiftr n 8) 255) 16)
       (Z.lor (Z.shiftl (Z.land (Z.shiftr n 16) 255) 8) (Z.shiftr n 24))).

(** ** [Port]: the number in network order *)
Definition Port : Type := Z.
Definition default_Port : Port := (2 ^ 16 - 1)%Z.
Definition Port_fromHost (port : Z) : Port := htons port.
Definition Port_fromNetwork (port : Z) : Port := port.
Definition Port_getNetwork (p : Port) : Z := p.
Definition Port_getHost (p : Port) : Z := htons p.
Definition Port_toStr (p : Port) : list u8 := decimal (Z.to_N (htons p)).

(** ** [Ip4]: the address in network order *)
Definition Ip4 : Type := Z.
Definition default_Ip4 : Ip4 := (2 ^ 32 - 1)%Z.
Definition Ip4_fromNetwork (ip : Z) : Ip4 := ip.
Definition Ip4_getNetwork (ip : Ip4) : Z := ip.
Definition Ip4_eqb (a b : Ip4) : bool := bool_decide (a = b).

Definition dotted (a b c d : Z) : list u8 :=
  decimal (Z.to_N a) ++ str "." ++ decimal (Z.to_N b) ++ str "." ++ decimal (Z.to_N c) ++ str "." ++ decimal (Z.to_N d).
Definition Ip4_toStr (ip : Ip4) : list u8 :=
  let hn := ntohl ip in
  dotted (Z.shiftr hn 24) (Z.land (Z.shiftr hn 16) 255) (Z.land (Z.shiftr hn 8) 255) (Z.land hn 255).

Section parse.
Context (inet_addr : list u8 → Z).
Definition Ip4_parse (s : list u8) : Ip4 := inet_addr s.
End parse.

(** ** [IPFAMILY] *)
Inductive Family : Type := Undefined | IPv4 | IPv6.
#[export] Instance Family_eq_dec : EqDecision Family.
Proof. solve_decision. Defined.

(** [strncmp( s, lit, 4 ) == 0] *)
Definition starts4 (s lit : list u8) : bool := bool_decide (take 4 s = lit).
Definition family_of (s : list u8) : Family :=
  if starts4 s (str "ipv4") then IPv4 else if starts4 s (str "ipv6") then IPv6 else Undefined.
Definition family_toString (f : Family) : list u8 :=
  match f with IPv4 => str "IPv4" | IPv6 => str "IPv6" | Undefined => str "Undefined" end.
(** [fromNum] assigns its own parameter: the object does not change *)
Definition family_fromNum (value : Z) (f : Family) : Family := f.

Lemma land_255 x : Z.land x 255 = (x mod 2 ^ 8)%Z.
Proof. change 255%Z with (Z.ones 8). by rewrite Z.land_ones by lia. Qed.

Lemma lor_shift_add hi lo n : (0 ≤ lo < 2 ^ n)%Z → (0 ≤ n)%Z → Z.lor (Z.shiftl hi n) lo = (hi * 2 ^ n + lo)%Z.
Proof.
  intros Hlo Hn. rewrite <-Z.shiftl_mul_pow2 by done.
  enough (Hl : Z.land (Z.shiftl hi n) lo = 0%Z) by (pose proof (Z.add_lor_land (Z.shiftl hi n) lo); lia).
  apply Z.bits_inj'. intros k Hk. rewrite Z.land_spec, Z.shiftl_spec, Z.bits_0 by done.
  destruct (decide (k < n)%Z) as [Hkn|Hkn]; [by rewrite Z.testbit_neg_r by lia|].
  rewrite <-(Z.mod_small lo (2 ^ n)), Z.mod_pow2_bits_high by lia. by rewrite andb_false_r.
Qed.

Lemma shiftr_div x n : (0 ≤ n)%Z → Z.shiftr x n = (x / 2 ^ n)%Z.
Proof. apply Z.shiftr_div_pow2. Qed.

Lemma htons_spec p : (0 ≤ p < 2 ^ 16)%Z → htons p = (p mod 2 ^ 8 * 2 ^ 8 + p / 2 ^ 8)%Z.
Proof.
  intros Hp. unfold htons. rewrite land_255, shiftr_div by done. apply lor_shift_add; [|done].
  split; [apply Z.div_pos; lia|apply Z.div_lt_upper_bound; lia].
Qed.

Lemma byte_range x : (0 ≤ x mod 2 ^ 8 < 2 ^ 8)%Z.
Proof. apply Z.mod_pos_bound. lia. Qed.

Lemma ntohl_spec a b c d :
  (0 ≤ a < 256)%Z → (0 ≤ b < 256)%Z → (0 ≤ c < 256)%Z → (0 ≤ d < 256)%Z →
  ntohl (a + b * 2 ^ 8 + c * 2 ^ 16 + d * 2 ^ 24) = (a * 2 ^ 24 + b * 2 ^ 16 + c * 2 ^ 8 + d)%Z.
Proof.
  intros Ha Hb Hc Hd. unfold ntohl. rewrite !land_255, !shiftr_div by done.
  set (n := (a + b * 2 ^ 8 + c * 2 ^ 16 + d * 2 ^ 24)%Z).
  assert (n mod 2 ^ 8 = a ∧ (n / 2 ^ 8) mod 2 ^ 8 = b ∧ (n / 2 ^ 16) mod 2 ^ 8 = c ∧ n / 2 ^ 24 = d)%Z as (-> & -> & -> & ->).
  { subst n. repeat split; Z.to_euclidean_division_equations; lia. }
  rewrite (lor_shift_add c d) by lia. rewrite (lor_shift_add b) by lia. rewrite (lor_shift_add a) by lia. lia.
Qed.

Lemma bytes_of_u32 ip : (0 ≤ ip < 2 ^ 32)%Z →
  ∃ a b c d, (0 ≤ a < 256)%Z ∧ (0 ≤ b < 256)%Z ∧ (0 ≤ c < 256)%Z ∧ (0 ≤ d < 256)%Z ∧
    ip = (a + b * 2 ^ 8 + c * 2 ^ 16 + d * 2 ^ 24)%Z.
Proof.
  intros Hip. exists (ip mod 256)%Z, (ip / 256 mod 256)%Z, (ip / 65536 mod 256)%Z, (ip / 16777216)%Z.
  repeat split; Z.to_euclidean_division_equations; lia.
Qed.
End Ip.

Module Url.
Import Str.

#[export] Instance byte_countable : Countable u8 := inj_countable Byte.to_N Byte.of_N Byte.of_to_N.

(** ** [UrlQueryItem]: the values of a name *)
Definition item : Type := list (list u8).
Definition item_add (val : list u8) (it : item) : item := it ++ [val].
Definition item_toStr (it : item) : list u8 :=
  match it with
  | [] => []
  | v :: vs => v ++ concat ((λ w, str "," ++ w) <$> vs)
  end.

(** ** [UrlQuery] *)
Abbreviation query := (gmap (list u8) item).
Definition empty_query : query := ∅.
Definition query_add (key val : list u8) (q : query) : query :=
  match q !! key with
  | Some it => <[key := item_add val it]> q
  | None => <[key := item_add val []]> q
  end.
(** [operator[]]: the item of a name that is not there has no values *)
Definition query_get (key : list u8) (q : query) : item := default [] (q !! key).

(** ** [Url::parseUrlQueryString] *)
Fixpoint parse_loop (fuel : nat) (url : list u8) (start : nat) (q : query) : res query :=
  match fuel with
  | O => NoFuel
  | S fuel =>
      match find_first_of (str "=") url (Some start) with
      | None => key ← substr url start None; Ok (query_add key [] q)
      | Some endEq =>
          key ← substr url start (distance start (Some endEq));
          match find_first_of (str "&") url (Some (endEq + 1)) with
          | None => val ← substr url (endEq + 1) None; Ok (query_add key val q)
          | Some endAmp =>
              val ← substr url (endEq + 1) (distance (endEq + 1) (Some endAmp));
              parse_loop fuel url (endAmp + 1) (query_add key val q)
          end
      end
  end.
Definition parseUrlQueryString (url : list u8) (q : query) : res query :=
  match find_first_of (str "?") url (Some 0) with
  | None => Ok q
  | Some start => parse_loop (S (length url)) url (start + 1) q
  end.
(** the overload that returns a query *)
Definition parseUrlQueryString_new (url : list u8) : res query := parseUrlQueryString url empty_query.

(** ** How a browser writes a query *)
Definition print_pair (kv : list u8 * list u8) : list u8 := kv.1 ++ str "=" ++ kv.2.
Definition print_query (kvs : list (list u8 * list u8)) : list u8 :=
  match kvs with
  | [] => []
  | kv :: kvs => print_pair kv ++ concat ((λ kv, str "&" ++ print_pair kv) <$> kvs)
  end.
Definition add_all (kvs : list (list u8 * list u8)) (q : query) : query :=
  foldl (λ q kv, query_add kv.1 kv.2 q) q kvs.

Lemma query_get_add key key' val q :
  query_get key (query_add key' val q) = if bool_decide (key = key') then query_get key q ++ [val] else query_get key q.
Proof.
  unfold query_get, query_add. case_bool_decide as Hk.
  - subst key'. destruct (q !! key); by rewrite lookup_insert_eq.

  - destruct (q !! key'); by rewrite lookup_insert_ne.
Qed.

Lemma query_get_add_all key kvs q :
  query_get key (add_all kvs q) = query_get key q ++ (filter (λ kv, kv.1 = key) kvs).*2.
Proof.
  revert q. induction kvs as [|[k v] kvs IH]; intros q; cbn [add_all foldl fst snd]; [by rewrite app_nil_r|].
  fold (add_all kvs (query_add k v q)). rewrite IH, query_get_add. case_bool_decide as Hk.
  - subst k. rewrite filter_cons_True by done. cbn. by rewrite <-app_assoc.
  - by rewrite filter_cons_False by (cbn; congruence).
Qed.

Lemma find_char set c url p pre a b :
  url = pre ++ a ++ c :: b → p = length pre → set = [c] → c ∉ a → find_first_of set url (Some p) = Some (p + length a).
Proof.
  intros Hu Hp -> Hc. apply (find_from_app _ url p pre a c b); [done|done| |by left].
  apply Forall_forall. intros x Hx ->%list_elem_of_singleton. done.
Qed.

Lemma find_char_none set c url p pre a :
  url = pre ++ a → p = length pre → set = [c] → c ∉ a → find_first_of set url (Some p) = None.
Proof.
  intros -> -> -> Hc. apply find_from_none. rewrite drop_app_length.
  apply Forall_forall. intros x Hx ->%list_elem_of_singleton. done.
Qed.
End Url.

Module AddressSpec.
Import Str Ip Url.

(** What the library documents of [inet_addr]: four numbers separated by dots
    give the address in network order. *)
Definition InetAddr (inet_addr : list u8 → Z) : Prop :=
  ∀ a b c d, (0 ≤ a < 256)%Z → (0 ≤ b < 256)%Z → (0 ≤ c < 256)%Z → (0 ≤ d < 256)%Z →
    inet_addr (dotted a b c d) = (a + b * 2 ^ 8 + c * 2 ^ 16 + d * 2 ^ 24)%Z.

(** Printing an address and parsing it gives the address back, and a port
    survives the way to the network order and back. *)
Theorem address_roundtrip (inet_addr : list u8 → Z) (ip port : Z) :
  InetAddr inet_addr → (0 ≤ ip < 2 ^ 32)%Z → (0 ≤ port < 2 ^ 16)%Z →
  Ip4_parse inet_addr (Ip4_toStr ip) = ip ∧ Port_getHost (Port_fromHost port) = port ∧
  Port_toStr (Port_fromHost port) = decimal (Z.to_N port).
Proof.
  intros Hinet Hip Hp.
  assert (Hport : Port_getHost (Port_fromHost port) = port).
  { unfold Port_getHost, Port_fromHost. rewrite (htons_spec port) by done.
    rewrite htons_spec; Z.to_euclidean_division_equations; lia. }
  split_and!; [|done|unfold Port_toStr; by change (htons (Port_fromHost port)) with (Port_getHost (Port_fromHost port)); rewrite Hport].
  destruct (bytes_of_u32 ip Hip) as (a & b & c & d & Ha & Hb & Hc & Hd & ->).
  unfold Ip4_parse, Ip4_toStr. rewrite ntohl_spec by done. cbn zeta. rewrite !land_255, !shiftr_div by done.
  set (n := (a * 2 ^ 24 + b * 2 ^ 16 + c * 2 ^ 8 + d)%Z).
  assert (n / 2 ^ 24 = a ∧ (n / 2 ^ 16) mod 2 ^ 8 = b ∧ (n / 2 ^ 8) mod 2 ^ 8 = c ∧ n mod 2 ^ 8 = d)%Z as (-> & -> & -> & ->).
  { subst n. repeat split; Z.to_euclidean_division_equations; lia. }
  by apply Hinet.
Qed.

(** a reading of dotted addresses for the examples *)
Fixpoint split_dots (s cur : list u8) : list (list u8) :=
  match s with
  | [] => [cur]
  | c :: s => if bool_decide (c = x2e) then cur :: split_dots s [] else split_dots s (cur ++ [c])
  end.
Definition ex_inet_addr (s : list u8) : Z :=
  match split_dots s [] with
  | [a; b; c; d] => (atol a + atol b * 2 ^ 8 + atol c * 2 ^ 16 + atol d * 2 ^ 24)%Z
  | _ => (2 ^ 32 - 1)%Z
  end.

Definition bytes_upto : list Z := seqZ 0 256.

Lemma ex_decimals : Forall (λ a, atol (decimal (Z.to_N a)) = a ∧ (x2e ∉ decimal (Z.to_N a))) bytes_upto.
Proof. by apply (bool_decide_eq_true_1 _). Qed.

Lemma split_dots_app s r cur : x2e ∉ s → split_dots (s ++ x2e :: r) cur = (cur ++ s) :: split_dots r [].
Proof.
  revert cur. induction s as [|c s IH]; intros cur Hs; cbn [app split_dots].
  - by rewrite bool_decide_eq_true_2, app_nil_r.
  - apply not_elem_of_cons in Hs as [Hc Hs]. rewrite bool_decide_eq_false_2 by done. rewrite IH by done. by rewrite <-app_assoc.
Qed.

Lemma split_dots_last s cur : x2e ∉ s → split_dots s cur = [cur ++ s].
Proof.
  revert cur. induction s as [|c s IH]; intros cur Hs; cbn [split_dots]; [by rewrite app_nil_r|].
  apply not_elem_of_cons in Hs as [Hc Hs]. rewrite bool_decide_eq_false_2 by done. rewrite IH by done. by rewrite <-app_assoc.
Qed.

Lemma ex_inet : InetAddr ex_inet_addr.
Proof.
  intros a b c d Ha Hb Hc Hd.
  assert (Hall : ∀ x, (0 ≤ x < 256)%Z → atol (decimal (Z.to_N x)) = x ∧ (x2e ∉ decimal (Z.to_N x))).
  { intros x Hx. apply (proj1 (Forall_forall _ _) ex_decimals). apply elem_of_seqZ. lia. }
  destruct (Hall a Ha) as [Ea Na], (Hall b Hb) as [Eb Nb], (Hall c Hc) as [Ec Nc], (Hall d Hd) as [Ed Nd].
  unfold ex_inet_addr, dotted. change (str ".") with [x2e]. cbn [app].
  rewrite !split_dots_app, split_dots_last by done. cbn [app]. by rewrite Ea, Eb, Ec, Ed.
Qed.

Lemma address_roundtrip_witness :
  Ip4_parse ex_inet_addr (Ip4_toStr 16820416%Z) = 16820416%Z ∧ Port_getHost (Port_fromHost 8080%Z) = 8080%Z ∧
  Port_toStr (Port_fromHost 8080%Z) = str "8080".
Proof. apply (address_roundtrip ex_inet_addr 16820416%Z 8080%Z); [apply ex_inet|lia|lia]. Defined.

(** The names of the families of addresses are not the ones that are recognised:
    every family named by [toString], "IPv4" of the servers included, becomes
    the undefined one. *)
Theorem family_names_not_recognised (f : Family) : family_of (family_toString f) = Undefined.
Proof. by destruct f. Qed.

Lemma parse_loop_spec kvs kv url pre q fuel :
  url = pre ++ print_query (kv :: kvs) →
  Forall (λ kv, (x3d ∉ kv.1) ∧ (x26 ∉ kv.2)) (kv :: kvs) → length (kv :: kvs) ≤ fuel →
  parse_loop fuel url (length pre) q = Ok (add_all (kv :: kvs) q).
Proof.
  revert kv pre q fuel. induction kvs as [|kv' kvs IH]; intros [k v] pre q fuel Hu Hok Hf;
    (destruct fuel as [|fuel]; [simpl in Hf; lia|]); apply Forall_cons in Hok as [[Hk Hv] Hok]; cbn [fst snd] in Hk, Hv;
    cbn [parse_loop].
  - cbn [print_query print_pair fst snd concat fmap list_fmap] in Hu. unfold print_pair in Hu. cbn [fst snd] in Hu.
    rewrite app_nil_r in Hu.
    rewrite (find_char _ x3d url _ pre k v) by done. rewrite distance_add.
    rewrite (substr_mid url pre k (str "=" ++ v) (length pre) (Some (length k))) by done. cbn [mbind res_bind].
    rewrite (find_char_none _ x26 url _ (pre ++ k ++ str "=") v);
      [|by rewrite Hu, <-!app_assoc|rewrite !length_app; simpl; lia|done|done].
    unfold substr. rewrite bool_decide_eq_true_2 by (rewrite Hu, !length_app; simpl; lia). cbn [mbind res_bind].
    replace (length pre + length k + 1) with (length (pre ++ k ++ str "=")) by (rewrite !length_app; simpl; lia).
    assert (url = (pre ++ k ++ str "=") ++ v) as -> by (by rewrite Hu, <-!app_assoc). by rewrite drop_app_length.
  - unfold print_query, print_pair in Hu. cbn [fst snd] in Hu. rewrite fmap_cons in Hu. cbn [concat] in Hu.
    set (tail := _ ++ concat _) in Hu.
    assert (Ht : tail = str "&" ++ print_query (kv' :: kvs)) by (subst tail; unfold print_query, print_pair; by rewrite <-!app_assoc).
    rewrite Ht in Hu. clear tail Ht.
    rewrite (find_char _ x3d url _ pre k (v ++ str "&" ++ print_query (kv' :: kvs)));
      [|by rewrite Hu, <-!app_assoc|done..].
    rewrite distance_add, (substr_mid url pre k (str "=" ++ v ++ str "&" ++ print_query (kv' :: kvs)) (length pre) (Some (length k)));
      [|by rewrite Hu, <-!app_assoc|done..]. cbn [mbind res_bind].
    rewrite (find_char _ x26 url _ (pre ++ k ++ str "=") v (print_query (kv' :: kvs)));
      [|by rewrite Hu, <-!app_assoc|rewrite !length_app; simpl; lia|done|done].
    rewrite distance_add, (substr_mid url (pre ++ k ++ str "=") v (str "&" ++ print_query (kv' :: kvs)));
      [|by rewrite Hu, <-!app_assoc|rewrite !length_app; simpl; lia|done]. cbn [mbind res_bind].
    replace (length pre + length k + 1 + length v + 1) with (length (pre ++ k ++ str "=" ++ v ++ str "&"))
      by (rewrite !length_app; simpl; lia).
    rewrite (IH kv') by (first [done | simpl in *; lia | by rewrite Hu, <-!app_assoc]). done.
Qed.

Lemma print_query_length kvs : length kvs ≤ S (length (print_query kvs)).
Proof.
  destruct kvs as [|kv kvs]; [simpl; lia|]. cbn [print_query length]. rewrite length_app.
  enough (length kvs ≤ length (concat ((λ kv, str "&" ++ print_pair kv) <$> kvs))) by lia.
  induction kvs as [|kv' kvs IH]; [done|]. rewrite fmap_cons. cbn [concat length]. rewrite !length_app. change (length (str "&")) with 1. lia.
Qed.

(** The parser of query strings inverts their printing: for every name of a
    non-empty list of pairs, it finds the values given to the name, in their
    order, after those that were there before. *)
Theorem query_roundtrip (path : list u8) (kvs : list (list u8 * list u8)) (q : query) :
  kvs ≠ [] → (x3f ∉ path) → Forall (λ kv, (x3d ∉ kv.1) ∧ (x26 ∉ kv.2)) kvs →
  ∃ q', parseUrlQueryString (path ++ str "?" ++ print_query kvs) q = Ok q' ∧
    ∀ key, query_get key q' = query_get key q ++ (filter (λ kv, kv.1 = key) kvs).*2.
Proof.
  intros Hne Hp Hok. destruct kvs as [|kv kvs]; [done|]. unfold parseUrlQueryString.
  rewrite (find_char _ x3f _ _ [] path (print_query (kv :: kvs))) by done.
  replace (0 + length path + 1) with (length (path ++ str "?")) by (rewrite length_app; simpl; lia).
  eexists. split; [|intros key; apply query_get_add_all].
  apply parse_loop_spec; [by rewrite <-app_assoc|done|].
  pose proof (print_query_length (kv :: kvs)). rewrite !length_app. simpl in *. lia.
Qed.

Lemma query_roundtrip_witness :
  ∃ q', parseUrlQueryString (str "/p" ++ str "?" ++ print_query [(str "a", str "1=2"); (str "b", []); (str "a", str "3")])
      empty_query = Ok q' ∧
    ∀ key, query_get key q' = query_get key empty_query ++
      (filter (λ kv, kv.1 = key) [(str "a", str "1=2"); (str "b", []); (str "a", str "3")]).*2.
Proof.
  apply query_roundtrip; [done|by apply (bool_decide_eq_true_1 _)|].
  repeat constructor; by apply (bool_decide_eq_true_1 _).
Defined.
End AddressSpec.
