(* ===== verification/Checksum.v ===== *)
(** * The checksum of misc.h (include/nodecpp/misc.h)

    [Fletcher16] on the bytes it is given, what it computes in closed form, and which
    changes of the bytes it sees. *)

From S2P Require Import Prelude.
From S2P Require Import Address.
From Stdlib Require Import Lia.

Module Checksum.

(** one turn of the loop on [sum1] and [sum2]; the sums are [int]s until they are stored *)
Definition fletcher_step (s : Z * Z) (b : u8) : Z * Z :=
  let sum1 := ((s.1 + Z_of_u8 b) mod 255)%Z in
  let sum2 := ((s.2 + sum1) mod 255)%Z in
  (sum1, sum2).
Definition fletcher_sums (data : list u8) : Z * Z := foldl fletcher_step (0, 0)%Z data.
Definition Fletcher16 (data : list u8) : Z :=
  let '(sum1, sum2) := fletcher_sums data in
  (Z.lor (Z.shiftl sum2 8) sum1 mod 2 ^ 16)%Z.

(** ** The reference: the sum of the bytes and the sum of the sums *)
Fixpoint total (data : list u8) : Z := match data with [] => 0 | b :: l => Z_of_u8 b + total l end.
Fixpoint weighted (data : list u8) : Z :=
  match data with [] => 0 | b :: l => Z.of_nat (length (b :: l)) * Z_of_u8 b + weighted l end.

Lemma total_app l l' : total (l ++ l') = (total l + total l')%Z.
Proof. induction l as [|b l IH]; cbn [app total]; lia. Qed.
Lemma weighted_app l l' : weighted (l ++ l') = (weighted l + Z.of_nat (length l') * total l + weighted l')%Z.
Proof.
  induction l as [|b l IH]; cbn [app weighted total]; [lia|]. rewrite IH. cbn [length]. rewrite length_app. lia.
Qed.

Lemma fletcher_sums_spec data : fletcher_sums data = ((total data) mod 255, (weighted data) mod 255)%Z.
Proof.
  induction data as [|b l IH] using rev_ind; [done|]. unfold fletcher_sums in *. rewrite foldl_app, IH. cbn [foldl].
  unfold fletcher_step. cbn [fst snd]. rewrite total_app, weighted_app. cbn [total weighted length].
  rewrite Z.add_0_r, Zplus_mod_idemp_l. f_equal. rewrite <-Zplus_mod. f_equal. lia.
Qed.

(** The two sums are the two bytes of the result, in closed form: the sum of the bytes below,
    that of the sums, each byte as often as there are bytes from it to the end, above. *)
Theorem Fletcher16_reference data : Fletcher16 data = ((weighted data) mod 255 * 2 ^ 8 + (total data) mod 255)%Z.
Proof.
  unfold Fletcher16. rewrite fletcher_sums_spec.
  pose proof (Z.mod_pos_bound (total data) 255). pose proof (Z.mod_pos_bound (weighted data) 255).
  rewrite Ip.lor_shift_add by lia. apply Z.mod_small. lia.
Qed.

(** bytes that are the same modulo 255 *)
Definition alike (a b : u8) : Prop := a = b ∨ (a = x00 ∧ b = xff) ∨ (a = xff ∧ b = x00).

Lemma alike_mod a b : alike a b ↔ ((Z_of_u8 a - Z_of_u8 b) mod 255 = 0)%Z.
Proof.
  split.
  - intros [->|[[-> ->]|[-> ->]]]; [by rewrite Z.sub_diag|done..].
  - intros Hm. apply Z.mod_divide in Hm as [k Hk]; [|done].
    pose proof (Z_of_u8_range a). pose proof (Z_of_u8_range b).
    assert (k = 0 ∨ k = 1 ∨ k = -1)%Z as [->|[->| ->]] by lia.
    + left. rewrite <-(u8_of_Z_of_u8 a), <-(u8_of_Z_of_u8 b). f_equal. lia.
    + right. right. rewrite <-(u8_of_Z_of_u8 a), <-(u8_of_Z_of_u8 b).
      assert (Z_of_u8 a = 255 ∧ Z_of_u8 b = 0)%Z as [-> ->] by lia. done.
    + right. left. rewrite <-(u8_of_Z_of_u8 a), <-(u8_of_Z_of_u8 b).
      assert (Z_of_u8 a = 0 ∧ Z_of_u8 b = 255)%Z as [-> ->] by lia. done.
Qed.

Lemma Fletcher16_eq l l' : Fletcher16 l = Fletcher16 l' ↔
  ((total l - total l') mod 255 = 0 ∧ (weighted l - weighted l') mod 255 = 0)%Z.
Proof.
  rewrite !Fletcher16_reference.
  pose proof (Z.mod_pos_bound (total l) 255). pose proof (Z.mod_pos_bound (weighted l) 255).
  pose proof (Z.mod_pos_bound (total l') 255). pose proof (Z.mod_pos_bound (weighted l') 255).
  assert (Hd : ∀ x y, ((x - y) mod 255 = 0 ↔ x mod 255 = y mod 255)%Z).
  { intros x y. split; intros Hm.
    - apply Z.mod_divide in Hm as [k Hk]; [|done]. replace x with (y + k * 255)%Z by lia. by rewrite Z.mod_add.
    - by rewrite Zminus_mod, Hm, Z.sub_diag. }
  rewrite !Hd. split; [lia|]. intros [-> ->]. done.
Qed.

(** The checksum sees every change of one byte but that between 0 and 255, and every
    exchange of two neighbours that differ by more than that. *)
Theorem Fletcher16_sees (l l' : list u8) (a b : u8) :
  (Fletcher16 (l ++ a :: l') = Fletcher16 (l ++ b :: l') ↔ alike a b) ∧
  (Fletcher16 (l ++ a :: b :: l') = Fletcher16 (l ++ b :: a :: l') ↔ alike a b).
Proof.
  rewrite !Fletcher16_eq, !alike_mod, !total_app, !weighted_app. cbn [total weighted length]. split; split.
  - intros [Ht _]. by match type of Ht with (?x mod _ = _)%Z => replace x with (Z_of_u8 a - Z_of_u8 b)%Z in Ht by lia end.
  - intros [k Hk]%Z.mod_divide; [|done]. split; apply Z.mod_divide; try done; [exists k; lia|].
    exists (k * Z.of_nat (S (length l')))%Z. nia.
  - intros [_ Hw]. match type of Hw with (?x mod _ = _)%Z => replace x with (Z_of_u8 a - Z_of_u8 b)%Z in Hw by lia end. done.
  - intros [k Hk]%Z.mod_divide; [|done]. split; apply Z.mod_divide; try done; [exists 0%Z; lia|exists k; lia].
Qed.

Example abcde : Fletcher16 (String.list_byte_of_string "abcde") = 51440%Z.
Proof. reflexivity. Qed.
End Checksum.
