(* ===== verification/Server.v ===== *)
(** * Servers (src/tcp_socket/tcp_socket.h, include/nodecpp/server_common.h, src/net.cpp)

    [NetServerManagerBase], [NetServerManager] and [ServerBase]: a server from
    its registration through [listen], the connections it accepts and hands
    to its user, to its close event. It works on the table of NetRegistry.v and
    beside the sockets of TcpSocket.v, whose manager is the field [tcp]: an
    accepted connection becomes one of its sockets, owned by the server, and the
    end of that socket is reported back ([removeSocket]). The build without
    clustering is modelled; recording and replaying are compiled out.

    [suser] gives the calls the user makes in the handlers of the events of a
    server, on servers and on sockets; [user], as in TcpSocket.v, those made in
    the handlers of the events of a socket, on sockets. *)

From S2P Require Import Prelude Buffers Events HttpMessage Address NetRegistry TcpSocket TcpSocketSpec.
From Stdlib Require Import Lia.

(** The system calls of servers: [None] is a failed call; [sys_getsockname] and
    [sys_accept] give ports and addresses in network order. *)
Class ServerOS (W : Type) := {
  sys_bind : Z → Ip.Ip4 → Ip.Port → W → W * bool;
  sys_getsockname : Z → W → W * option Z;
  sys_listen : Z → Z → W → W * bool;
  sys_accept : Z → W → W * option (Z * Z * Z);
}.

Module Server.
Module N := NetRegistry.NetRegistry.
Import Ip.

Inductive State : Type := Unused | Listening | BeingClosed | Closed.
#[export] Instance state_eq_dec : EqDecision State.
Proof. solve_decision. Defined.

Record Address : Type := mkAddress { a_port : Z; a_family : Family; a_ip : Ip4 }.
Definition no_address : Address := mkAddress 0 Undefined default_Ip4.

Inductive SEvent (Ob : Type) : Type :=
  | SvListening (id : nat) (addr : Address)
  | SvConnection (sock : Ob)
  | SvClose (err : bool)
  | SvError
  | SvResumed (h : nat) (exn : bool).
Arguments SvListening {Ob}.
Arguments SvConnection {Ob}.
Arguments SvClose {Ob}.
Arguments SvError {Ob}.
Arguments SvResumed {Ob}.

Section defs.
Context {Ob W E : Type} `{Countable Ob} `{!Infinite Ob}.
Context `{!OS W, !ServerOS W}.
Context (grow : nat → nat) (inet_addr : list u8 → Z).
#[local] Instance table_of_servers : SockTable Ob (N.t Ob) := NetTable.net_table grow.

(** [DataForCommandProcessing] of [ServerBase] ([index] and [osSocket] belong to
    the table) and the sockets it owns *)
Record server : Type := mkServer {
  state : State;
  refed : bool;
  localAddress : Address;
  ahd_listen : option nat;
  ahd_connection_h : option nat;
  ahd_connection_sock : option Ob;
  ahd_close : option nat;
  socketList : MultiOwner.t Ob;
}.
Definition new_server : server := mkServer Unused false no_address None None None None (MultiOwner.mk [] 0).

Definition with_state (x : State) (d : server) : server :=
  mkServer x (refed d) (localAddress d) (ahd_listen d) (ahd_connection_h d) (ahd_connection_sock d) (ahd_close d) (socketList d).
Definition with_address (r : bool) (a : Address) (d : server) : server :=
  mkServer (state d) r a (ahd_listen d) (ahd_connection_h d) (ahd_connection_sock d) (ahd_close d) (socketList d).
Definition with_listen (x : option nat) (d : server) : server :=
  mkServer (state d) (refed d) (localAddress d) x (ahd_connection_h d) (ahd_connection_sock d) (ahd_close d) (socketList d).
Definition with_connection (x : option nat) (o : option Ob) (d : server) : server :=
  mkServer (state d) (refed d) (localAddress d) (ahd_listen d) x o (ahd_close d) (socketList d).
Definition with_close (x : option nat) (d : server) : server :=
  mkServer (state d) (refed d) (localAddress d) (ahd_listen d) (ahd_connection_h d) (ahd_connection_sock d) x (socketList d).
Definition with_list (x : MultiOwner.t Ob) (d : server) : server :=
  mkServer (state d) (refed d) (localAddress d) (ahd_listen d) (ahd_connection_h d) (ahd_connection_sock d) (ahd_close d) x.
Definition getSockCount (d : server) : nat := MultiOwner.getCount (socketList d).

(** Both managers with their objects. [owner] is [myServerSocket] of the
    accepted sockets, [addresses] their [_local] and [_remote]; [strace] lists
    what was reported to the users of servers; the code does not read it. *)
Record net : Type := mk {
  tcp : Tcp.mgr Ob (N.t Ob) W;
  servers : gmap Ob server;
  owner : gmap Ob Ob;
  addresses : gmap Ob (Address * Address);
  pendingCloseEvents : list (nat * bool);
  pendingEvents : PendingEvQueue.t E;
  pendingListenEvents : list nat;
  strace : list (Ob * SEvent Ob);
}.
Definition with_tcp (x : Tcp.mgr Ob (N.t Ob) W) (s : net) : net :=
  mk x (servers s) (owner s) (addresses s) (pendingCloseEvents s) (pendingEvents s) (pendingListenEvents s) (strace s).
Definition with_servers (x : gmap Ob server) (s : net) : net :=
  mk (tcp s) x (owner s) (addresses s) (pendingCloseEvents s) (pendingEvents s) (pendingListenEvents s) (strace s).
Definition with_owner (x : gmap Ob Ob) (s : net) : net :=
  mk (tcp s) (servers s) x (addresses s) (pendingCloseEvents s) (pendingEvents s) (pendingListenEvents s) (strace s).
Definition with_addresses (x : gmap Ob (Address * Address)) (s : net) : net :=
  mk (tcp s) (servers s) (owner s) x (pendingCloseEvents s) (pendingEvents s) (pendingListenEvents s) (strace s).
Definition with_pending (x : list (nat * bool)) (s : net) : net :=
  mk (tcp s) (servers s) (owner s) (addresses s) x (pendingEvents s) (pendingListenEvents s) (strace s).
Definition with_events (x : PendingEvQueue.t E) (s : net) : net :=
  mk (tcp s) (servers s) (owner s) (addresses s) (pendingCloseEvents s) x (pendingListenEvents s) (strace s).
Definition with_listens (x : list nat) (s : net) : net :=
  mk (tcp s) (servers s) (owner s) (addresses s) (pendingCloseEvents s) (pendingEvents s) x (strace s).
Definition slog (o : Ob) (ev : SEvent Ob) (s : net) : net :=
  mk (tcp s) (servers s) (owner s) (addresses s) (pendingCloseEvents s) (pendingEvents s) (pendingListenEvents s)
     (strace s ++ [(o, ev)]).

Definition table (s : net) : N.t Ob := Tcp.table (tcp s).
Definition os (s : net) : W := Tcp.os (tcp s).
Definition with_table (t : N.t Ob) (s : net) : net := with_tcp (Tcp.with_table t (tcp s)) s.
Definition with_os (w : W) (s : net) : net := with_tcp (Tcp.with_os w (tcp s)) s.

(** the server behind [this] or a reference; one that is gone is dangling *)
Definition get (o : Ob) (s : net) : res server :=
  match servers s !! o with Some d => Ok d | None => UB end.
Definition put (o : Ob) (d : server) (s : net) : net := with_servers (<[o := d]> (servers s)) s.
Definition idx (o : Ob) (s : net) : res nat := Tcp.idx o (tcp s).
Definition fd (o : Ob) (s : net) : res Z := Tcp.fd o (tcp s).

(** [entry.getServerSocket()] *)
Definition server_of (e : N.NetSocketEntry Ob) (s : net) : res Ob :=
  ASSERT N.isValid (N.heap (table s)) e ;;
  ASSERT (match N.objectType e with N.ServerSocket => true | _ => false end) ;;
  match N.ptr e with Some o => Ok o | None => AssertFail end.

(** ** System calls *)
Definition internal_port_of_tcp_socket (sk : Z) (w : W) : W * Z :=
  let '(w, r) := sys_getsockname sk w in
  (w, match r with Some sin_port => htons sin_port | None => 0%Z end).

Definition internal_tcp_accept (sk : Z) (w : W) : W * option (Z * Ip4 * Port) :=
  let '(w, r) := sys_accept sk w in
  match r with
  | None => (w, None)
  | Some (outSock, s_addr, sin_port) =>
      let '(w, async) := sys_ioctl_async outSock w in
      if (async : bool) then (w, Some (outSock, Ip4_fromNetwork s_addr, Port_fromNetwork sin_port))
      else (sys_close outSock w, None)
  end.

(** ** Registering and listening *)

(** [makeSocket] of the server and [appAddServer] create their objects here *)
Definition new_name (s : net) : Ob := fresh (elements (dom (N.heap (table s)))).
Definition add_object (o : Ob) (sk : Z) (s : net) : net :=
  with_table (N.with_heap (<[o := N.mkObj 0 sk]> (N.heap (table s))) (table s)) s.

Definition appAddServer (o : Ob) (s : net) : res net :=
  let '(w, sk) := Tcp.internal_make_tcp_socket (os s) in
  if bool_decide (sk = Tcp.INVALID_SOCKET) then Thrown
  else
    t ← N.addEntry grow N.ServerSocket o (table (add_object o sk (with_os w s)));
    Ok (with_table t (with_os w s)).

(** [createServer]; the server is a new object *)
Definition createServer (s : net) : res (net * Ob) :=
  let o := new_name s in
  s ← appAddServer o (put o new_server s);
  Ok (s, o).

Definition appListen (o : Ob) (ip : Ip4) (port backlog : Z) (s : net) : res net :=
  d ← get o s;
  sk ← fd o s;
  let '(w, bound) := sys_bind sk ip (Port_fromHost port) (os s) in
  let s := with_os w s in
  if negb bound then Thrown
  else
    '(s, port) ← (if bool_decide (port = 0%Z) then
                    let '(w, p) := internal_port_of_tcp_socket sk (os s) in
                    if bool_decide (p = 0%Z) then Thrown else Ok (with_os w s, p)
                  else Ok (s, port));
    let '(w, listens) := sys_listen sk backlog (os s) in
    let s := with_os w s in
    if negb listens then Thrown
    else
      i ← idx o s;
      let s := put o (with_address true (mkAddress port (family_of (Str.str "IPv4")) ip) d) s in
      ASSERT bool_decide (i ≠ 0) ;;
      t ← N.setAssociated i (table s);
      t ← N.setPollin i t;
      t ← N.setRefed i true t;
      Ok (with_listens (pendingListenEvents s ++ [i]) (with_table t s)).

Definition listen (o : Ob) (ip : list u8) (port backlog : Z) (s : net) : res net :=
  appListen o (Ip4_parse inet_addr ip) port backlog s.

Definition appRef (r : bool) (o : Ob) (s : net) : res net :=
  d ← get o s; Ok (put o (with_address r (localAddress d) d) s).

(** ** Closing *)
Definition appClose (o : Ob) (s : net) : res net :=
  id ← idx o s;
  e ← N.at_ id (table s);
  sk ← fd o s;
  let s := with_os (sys_close sk (os s)) s in
  t ← N.setSocketClosed (N.index e) (table s);
  Ok (with_table t s).

(** [reportAllAceptedConnectionsEnded] *)
Definition appReportAllAceptedConnectionsEnded (o : Ob) (s : net) : res net :=
  id ← idx o s;
  _ ← N.at_ id (table s);
  Ok (with_pending (pendingCloseEvents s ++ [(id, false)]) s).

Definition closingProcedure (o : Ob) (s : net) : res net :=
  _ ← get o s;
  s ← appClose o s;
  d ← get o s;
  let s := put o (with_state BeingClosed d) s in
  if bool_decide (getSockCount d = 0) then appReportAllAceptedConnectionsEnded o s else Ok s.

(** [~ServerBase]: the sockets it owns are destroyed, its entry is given up *)
Fixpoint destroy_sockets (os : list Ob) (s : net) : res net :=
  match os with
  | [] => Ok s
  | o :: os =>
      m ← Tcp.destruct o (tcp s);
      destroy_sockets os (with_owner (delete o (owner s)) (with_tcp m s))
  end.

Definition destruct_server (o : Ob) (s : net) : res net :=
  d ← get o s;
  s ← destroy_sockets (MultiOwner.owned (MultiOwner.items (socketList d))) s;
  id ← idx o s;
  t ← N.setUnused id (table s);
  Ok (with_servers (delete o (servers s)) (with_table (t_forget o t) s)).

(** ** Calls of the user

    [AListen], [AConnection] and [AClose] are the awaits of a coroutine [h]. *)
Inductive Cmd : Type :=
  | Sock (c : Tcp.Cmd Ob W)
  | Create
  | Listen (o : Ob) (ip : list u8) (port backlog : Z)
  | AListen (o : Ob) (ip : list u8) (port backlog : Z) (h : nat)
  | AConnection (o : Ob) (h : nat)
  | Close (o : Ob)
  | AClose (o : Ob) (h : nat)
  | Ref (o : Ob) (r : bool)
  | Delete (o : Ob).

Definition run_cmd (c : Cmd) (s : net) : res net :=
  match c with
  | Sock c => m ← Tcp.run_cmd c (tcp s); Ok (with_tcp m s)
  | Create => '(s, _) ← createServer s; Ok s
  | Listen o ip port backlog => listen o ip port backlog s
  | AListen o ip port backlog h =>
      s ← listen o ip port backlog s; d ← get o s; Ok (put o (with_listen (Some h) d) s)
  | AConnection o h => d ← get o s; Ok (put o (with_connection (Some h) (ahd_connection_sock d) d) s)
  | Close o => closingProcedure o s
  | AClose o h => s ← closingProcedure o s; d ← get o s; Ok (put o (with_close (Some h) d) s)
  | Ref o r => appRef r o s
  | Delete o => destruct_server o s
  end.

Fixpoint run_cmds (cs : list Cmd) (s : net) : res net :=
  match cs with
  | [] => Ok s
  | c :: cs => s ← run_cmd c s; run_cmds cs s
  end.

(** ** Events *)
Context (user : Ob → Tcp.Event → Tcp.mgr Ob (N.t Ob) W → list (Tcp.Cmd Ob W)).
Context (suser : Ob → SEvent Ob → net → list Cmd).

Definition emit (o : Ob) (ev : SEvent Ob) (s : net) : res net :=
  let s := slog o ev s in run_cmds (suser o ev s) s.

Definition rrOnListening (o : Ob) (i : nat) (s : net) : res net :=
  d ← get o s;
  match ahd_listen d with
  | Some h => emit o (SvResumed h false) (put o (with_listen None (with_state Listening d)) s)
  | None =>
      (* [emitListening] sets the index of the object *)
      let s := with_table (N.with_heap (alter (N.set_index i) o (N.heap (table s))) (table s)) s in
      emit o (SvListening i (localAddress d)) (put o (with_state Listening d) s)
  end.

Definition forceReleasingAllCoroHandles (o : Ob) (s : net) : res net :=
  d ← get o s;
  s ← (match ahd_listen d with
       | Some h => emit o (SvResumed h true) (put o (with_listen None d) s)
       | None => Ok s
       end);
  d ← get o s;
  match ahd_connection_h d with
  | Some h => emit o (SvResumed h true) (put o (with_connection None (ahd_connection_sock d) d) s)
  | None => Ok s
  end.

Definition internalCleanupBeforeClosing (o : Ob) (s : net) : res net :=
  d ← get o s;
  ASSERT bool_decide (getSockCount d = 0) ;;
  forceReleasingAllCoroHandles o (put o (with_state Closed d) s).

Definition rrOnClose (o : Ob) (isError : bool) (s : net) : res net :=
  d ← get o s;
  ASSERT bool_decide (state d = BeingClosed) ;;
  s ← internalCleanupBeforeClosing o s;
  d ← get o s;
  match ahd_close d with
  | Some h => emit o (SvResumed h isError) (put o (with_close None d) s)
  | None => emit o (SvClose isError) s
  end.

(** the body of the loop of [infraGetCloseEvents] *)
Definition close_one (i : nat) (err : bool) (s : net) : res net :=
  let s := with_events (PendingEvQueue.remove i (pendingEvents s)) s in
  if bool_decide (i < N.size (table s)) then
    e ← N.at_ i (table s);
    sk ← N.socketsAt i (table s);
    ASSERT bool_decide (sk = Tcp.INVALID_SOCKET) ;;
    o ← server_of e s;
    s ← rrOnClose o err s;
    t ← t_resetEntry i (table s);
    Ok (with_table t s)
  else Ok s.

(** as for sockets, the loop runs over the vector itself *)
Fixpoint close_all (es : list (nat * bool)) (s : net) : res net :=
  match es with
  | [] => Ok s
  | (i, err) :: es =>
      s' ← close_one i err s;
      REQUIRE bool_decide (length (pendingCloseEvents s') = length (pendingCloseEvents s)) ;;
      close_all es s'
  end.

Definition infraGetCloseEvents (s : net) : res net :=
  s ← close_all (pendingCloseEvents s) s;
  Ok (with_pending [] s).

Definition listening_one (i : nat) (s : net) : res net :=
  if N.isValidId i (table s) then
    e ← N.at_ i (table s);
    o ← server_of e s;
    rrOnListening o i s
  else Ok s.

Fixpoint listening_all (ids : list nat) (s : net) : res net :=
  match ids with
  | [] => Ok s
  | i :: ids => s ← listening_one i s; listening_all ids s
  end.

(** [while ( pendingListenEvents.size() )]: the events of each turn are moved
    out, those the handlers add are for the next *)
Fixpoint infraEmitListeningEvents (fuel : nat) (s : net) : res net :=
  match pendingListenEvents s with
  | [] => Ok s
  | ids =>
      match fuel with
      | O => NoFuel
      | S fuel => s ← listening_all ids (with_listens [] s); infraEmitListeningEvents fuel s
      end
  end.

(** *** A connection *)
Definition makeSocket (sv : Ob) (sk : Z) (s : net) : res (net * Ob) :=
  let o := new_name s in
  let s := add_object o 0 s in
  m ← Tcp.registerAndAssignSocket o sk (Tcp.put o (Tcp.new_sock false true) (tcp s));
  d ← get sv s;
  let s := with_addresses (<[o := (localAddress d, no_address)]> (addresses s))
             (with_owner (<[o := sv]> (owner s)) (with_tcp m s)) in
  '(l, _) ← MultiOwner.add (Some o) (socketList d);
  Ok (put sv (with_list l d) s, o).

Definition consumeAcceptedSocket (sv : Ob) (sk : Z) (remoteIp : Ip4) (remotePort : Port) (s : net) : res net :=
  '(s, o) ← makeSocket sv sk s;
  m ← Tcp.infraAddAccepted o (tcp s);
  let s := with_tcp m s in
  d ← get sv s;
  let s := with_addresses (<[o := (localAddress d, mkAddress (Port_getHost remotePort) Undefined remoteIp)]> (addresses s)) s in
  match ahd_connection_h d with
  | Some h => emit sv (SvResumed h false) (put sv (with_connection None (Some o) d) s)
  | None => emit sv (SvConnection o) s
  end.

Definition infraProcessAcceptEvent (sv : Ob) (s : net) : res net :=
  sk ← fd sv s;
  let '(w, r) := internal_tcp_accept sk (os s) in
  match r with
  | None => Ok (with_os w s)
  | Some (newSock, remoteIp, remotePort) => consumeAcceptedSocket sv newSock remoteIp remotePort (with_os w s)
  end.

(** [i] is where the entry is; its [index] is read after the user was told *)
Definition infraMakeErrorEventAndClose (i : nat) (sv : Ob) (s : net) : res net :=
  s ← emit sv SvError s;
  e ← NetTable.lookup_entry i (table s);
  Ok (with_pending (pendingCloseEvents s ++ [(N.index e, true)]) s).

Definition infraCheckPollFdSet (i : nat) (sv : Ob) (revents : Z) (s : net) : res net :=
  sk ← fd sv s;
  if Tcp.has revents (Z.lor Tcp.POLLERR Tcp.POLLNVAL) then
    infraMakeErrorEventAndClose i sv (with_os (sys_so_error sk (os s)).1 s)
  else if Tcp.has revents Tcp.POLLIN then infraProcessAcceptEvent sv s
  else if bool_decide (revents ≠ 0%Z) then
    infraMakeErrorEventAndClose i sv (with_os (sys_so_error sk (os s)).1 s)
  else Ok s.

(** *** The end of a socket of a server *)
Definition removeSocket (sv o : Ob) (s : net) : res net :=
  d ← get sv s;
  l ← MultiOwner.removeAndDelete (Some o) (socketList d);
  let d := with_list l d in
  let s := with_owner (delete o (owner s)) (put sv d s) in
  if bool_decide (state d = BeingClosed) && bool_decide (getSockCount d = 0)
  then appReportAllAceptedConnectionsEnded sv s else Ok s.

(** [NetSocketManager::infraGetCloseEvent] with the servers of its sockets *)
Definition socket_close_one (i : nat) (s : net) : res net :=
  let owned := match t_object_at i (table s) with
               | Ok o => match owner s !! o with Some sv => Some (sv, o) | None => None end
               | _ => None
               end in
  m ← Tcp.close_one user i (tcp s);
  match owned with
  | Some (sv, o) => removeSocket sv o (with_tcp m s)
  | None => Ok (with_tcp m s)
  end.

Fixpoint socket_close_all (es : list (nat * bool)) (s : net) : res net :=
  match es with
  | [] => Ok s
  | (i, _) :: es =>
      s' ← socket_close_one i s;
      REQUIRE bool_decide (length (Tcp.pendingCloseEvents (tcp s')) = length (Tcp.pendingCloseEvents (tcp s))) ;;
      socket_close_all es s'
  end.

Definition infraGetCloseEvent (s : net) : res net :=
  s ← socket_close_all (Tcp.pendingCloseEvents (tcp s)) s;
  Ok (with_tcp (Tcp.with_pending [] (tcp s)) s).
End defs.
Arguments server _ : clear implicits.
Arguments net _ _ _ {_ _}.
Arguments Cmd _ _ : clear implicits.
End Server.
