(* ===== verification/ServerSpec.v ===== *)
(** * Theorems about servers

    [Module TcpTables]: what the calls and events of sockets do to the table of
    descriptors; [Module ServerSpec]: a connection accepted, a server's
    listening and close events, and the closings the code loses or fails on. *)

From S2P Require Import Prelude Buffers Events HttpMessage Address NetRegistry TcpSocket TcpSocketSpec Server.
From stdpp Require Import infinite.
From Stdlib Require Import Lia.

(** ** The table under the calls of the user and the events of sockets

    [R] relates the tables before and after: a preorder that the elementary
    operations respect. *)
Module TcpTables.
Import Tcp TcpLaws TcpSpec.

Section tables.
Context {Ob T W : Type} `{Countable Ob}.
Context `{!SockTable Ob T, !OS W}.
Context (R : T → T → Prop) `{!PreOrder R}.
Context (R_ops : ∀ i t t', t_setPollout i t = Ok t' ∨ t_unsetPollout i t = Ok t' ∨ t_setPollin i t = Ok t' ∨
  t_unsetPollin i t = Ok t' ∨ t_setAssociated i t = Ok t' ∨ (∃ r, t_setRefed i r t = Ok t') → R t t').
Implicit Types (s : mgr Ob T W) (o : Ob).

Definition kept (t : T) (s : mgr Ob T W) : Prop := R t (table s).

Lemma kept_on_table f t s s' o :
  (∀ i t t', f i t = Ok t' → R t t') → on_table f o s = Ok s' → kept t s → kept t s'.
Proof.
  intros Hf Hc Hs. unfold on_table in Hc. apply bind_Ok_inv in Hc as (i & _ & Hc).
  apply bind_Ok_inv in Hc as (t' & Ht & [= <-]). unfold kept in *. cbn. etrans; [exact Hs|eauto].
Qed.

Lemma kept_close t s s' o : closeSocket o s = Ok s' → kept t s → kept t s'.
Proof.
  unfold closeSocket. intros Hc Hs. apply bind_Ok_inv in Hc as (d & Hg & Hc).
  destruct (is_closing d); [by simplify_eq|]. by apply bind_Ok_inv in Hc as (i & Hi & [= <-]).
Qed.
Lemma kept_error t s s' o : errorCloseSocket o s = Ok s' → kept t s → kept t s'.
Proof.
  unfold errorCloseSocket. intros Hc Hs. apply bind_Ok_inv in Hc as (d & Hg & Hc).
  destruct (is_closing d); [by simplify_eq|]. by apply bind_Ok_inv in Hc as (i & Hi & [= <-]).
Qed.

Ltac keeps :=
  lazymatch goal with
  | |- kept ?t (with_os _ ?s) => change (kept t s); keeps
  | |- kept ?t (with_recv _ ?s) => change (kept t s); keeps
  | |- kept ?t (put _ _ ?s) => change (kept t s); keeps
  | |- kept ?t (with_pending_accepted _ ?s) => change (kept t s); keeps
  | H : errorCloseSocket _ _ = Ok ?s |- kept _ ?s => eapply kept_error; [exact H|keeps]
  | H : closeSocket _ _ = Ok ?s |- kept _ ?s => eapply kept_close; [exact H|keeps]
  | H : on_table _ _ _ = Ok ?s |- kept _ ?s =>
      refine (kept_on_table _ _ _ _ _ _ H _); [intros; eapply R_ops; by eauto 10|keeps]
  | |- kept _ _ => try eassumption
  end.

(** a call that does not end an object *)
Definition no_delete (c : Cmd Ob W) : Prop := match c with CDelete _ => False | _ => True end.

Lemma kept_cmd c t s s' : no_delete c → run_cmd c s = Ok s' → kept t s → kept t s'.
Proof.
  intros Hn Hc Hs. destruct c as [o data|o b h|o m n h|o n|o h|o h|o|o|o b|o b|o|o|o|o|f|o ip port|o m n h f|o h f|f|o]; cbn in Hc; [..|done].
  all: unfold appWrite, appWrite2, take_read, appEnd, appDestroy, appSetKeepAlive, appSetNoDelay, appSetOption, appPause,
         appConnectSocket, os_connect, on_host in Hc; open_eq; keeps.
Qed.

Lemma kept_cmds cs t s s' : Forall no_delete cs → run_cmds cs s = Ok s' → kept t s → kept t s'.
Proof.
  revert s. induction cs as [|c cs IH]; intros s Hn Hc Hs; cbn in Hc; [by simplify_eq|].
  apply Forall_cons in Hn as [Hn1 Hn]. apply bind_Ok_inv in Hc as (s1 & H1 & Hc).
  eapply IH; [done|exact Hc|]. by eapply kept_cmd.
Qed.

Lemma kept_poll_event user t s s' o revents :
  (∀ o ev s, Forall no_delete (user o ev s)) → infraCheckPollFdSet user o revents s = Ok s' → kept t s → kept t s'.
Proof.
  intros Hn. apply (P_poll_event user (kept t) (λ _ _, True)) with (R := R); intros; try done.
  - apply (R_ops i). intuition eauto 10.
  - unfold kept in *. cbn. by etrans.
  - by eapply kept_close.
  - by eapply kept_error.
  - by eapply kept_cmds.
Qed.

Lemma kept_accepted t s s' o : infraAddAccepted o s = Ok s' → kept t s → kept t s'.
Proof. intros Hc Hs. unfold infraAddAccepted in Hc. open_eq; keeps. Qed.
End tables.
End TcpTables.

(** ** The descriptors that are ready

    Slots that are free are not ready when [poll] returns, and stay so as long
    as no object is destroyed; then what [poll] has written is not changed. *)
Module ReadyTable.
Module N := NetRegistry.NetRegistry.

Section table.
Context {Ob : Type} `{Countable Ob} (grow : nat → nat).
Implicit Types (t : N.t Ob) (o : Ob) (i j : nat).
#[local] Instance ready_table : SockTable Ob (N.t Ob) := NetTable.net_table grow.

Definition free_quiet t : Prop :=
  ∀ j e f, 0 < j → N.ourSide t !! j = Some e → N.osSide t !! j = Some f → N.used e = false → N.revents f = 0%Z.
Definition revents_kept t t' : Prop :=
  ∀ j f, N.osSide t !! j = Some f → ∃ f', N.osSide t' !! j = Some f' ∧ N.revents f' = N.revents f.
Definition quiet_step t t' : Prop := free_quiet t → free_quiet t' ∧ revents_kept t t'.

#[export] Instance quiet_step_preorder : PreOrder quiet_step.
Proof.
  split.
  - intros t Ht. split; [done|]. intros j f Hf. eauto.
  - intros t1 t2 t3 H12 H23 H1. destruct (H12 H1) as [H2 K12]. destruct (H23 H2) as [H3 K23].
    split; [done|]. intros j f Hf. destruct (K12 j f Hf) as (f' & Hf' & E1). destruct (K23 j f' Hf') as (f'' & ? & ?).
    exists f''. split; [done|congruence].
Qed.

Lemma quiet_refl t : quiet_step t t.
Proof. reflexivity. Qed.

(** an update of one slot that does not free it and keeps its [revents] *)
Lemma slot_quiet t p e e' f f' a u :
  N.get_entry p t = Ok e → N.get_fd p t = Ok f → (N.used e' = false → N.used e = false) →
  N.revents f' = N.revents f →
  quiet_step t (N.with_counts a u (N.put_fd p f' (N.put_entry p e' t))).
Proof.
  intros He Hf Hu Hr Hq. destruct p as [i|i]; [|split; [exact Hq|intros j f0 Hj; eauto]].
  unfold N.get_entry, N.get_fd in *. destruct (N.ourSide t !! i) as [e0|] eqn:Hei; [|done].
  destruct (N.osSide t !! i) as [f0|] eqn:Hfi; [|done]. simplify_eq. split.
  - intros j e0 f0 H0 Hj Hfj Hu0. cbn in Hj, Hfj. destruct (decide (i = j)) as [<-|Hne].
    + rewrite list_lookup_insert_eq in Hj by (by eapply lookup_lt_Some).
      rewrite list_lookup_insert_eq in Hfj by (by eapply lookup_lt_Some). simplify_eq.
      rewrite Hr. eapply Hq; [exact H0|eauto..].
    + rewrite list_lookup_insert_ne in Hj by done. rewrite list_lookup_insert_ne in Hfj by done. by eapply (Hq j).
  - intros j f0 Hj. cbn. destruct (decide (i = j)) as [<-|Hne].
    + exists f'. rewrite list_lookup_insert_eq by (by eapply lookup_lt_Some). split; [done|congruence].
    + exists f0. by rewrite list_lookup_insert_ne.
Qed.

Lemma fd_quiet t p f f' :
  N.get_fd p t = Ok f → N.revents f' = N.revents f → quiet_step t (N.put_fd p f' t).
Proof.
  intros Hf Hr Hq. destruct p as [i|i]; [|split; [exact Hq|intros j f0 Hj; eauto]].
  unfold N.get_fd in *. destruct (N.osSide t !! i) as [f0|] eqn:Hfi; [|done]. simplify_eq. split.
  - intros j e0 f0 H0 Hj Hfj Hu0. cbn in Hj, Hfj. destruct (decide (i = j)) as [<-|Hne].
    + rewrite list_lookup_insert_eq in Hfj by (by eapply lookup_lt_Some). simplify_eq. rewrite Hr.
      eapply Hq; [exact H0|eauto..].
    + rewrite list_lookup_insert_ne in Hfj by done. by eapply (Hq j).
  - intros j f0 Hj. cbn. destruct (decide (i = j)) as [<-|Hne].
    + exists f'. rewrite list_lookup_insert_eq by (by eapply lookup_lt_Some). split; [done|congruence].
    + exists f0. by rewrite list_lookup_insert_ne.
Qed.
Lemma entry_quiet t p e e' :
  N.get_entry p t = Ok e → (N.used e' = false → N.used e = false) → quiet_step t (N.put_entry p e' t).
Proof.
  intros He Hu Hq. destruct p as [i|i]; [|split; [exact Hq|intros j f0 Hj; eauto]].
  unfold N.get_entry in *. destruct (N.ourSide t !! i) as [e0|] eqn:Hei; [|done]. simplify_eq. split.
  - intros j e0 f0 H0 Hj Hfj Hu0. cbn in Hj, Hfj. destruct (decide (i = j)) as [<-|Hne].
    + rewrite list_lookup_insert_eq in Hj by (by eapply lookup_lt_Some). simplify_eq.
      eapply Hq; [exact H0|eauto..].
    + rewrite list_lookup_insert_ne in Hj by done. by eapply (Hq j).
  - intros j f0 Hj. eauto.
Qed.

Lemma upd_events_quiet g i t t' : N.upd_events g i t = Ok t' → quiet_step t t'.
Proof. intros Ht. unfold N.upd_events in Ht. open_eq. by eapply fd_quiet. Qed.
Lemma setRefed_quiet i r t t' : N.setRefed i r t = Ok t' → quiet_step t t'.
Proof.
  intros Ht. unfold N.setRefed in Ht. apply bind_Ok_inv in Ht as (p & _ & Ht).
  apply bind_Ok_inv in Ht as (e & He & Ht). apply bind_Ok_inv in Ht as ([] & _ & Ht); [|done].
  injection Ht as <-. by apply (entry_quiet t p e).
Qed.
Lemma setAssociated_quiet i t t' : N.setAssociated i t = Ok t' → quiet_step t t'.
Proof.
  intros Ht. unfold N.setAssociated, N.entry_setAssociated in Ht. apply bind_Ok_inv in Ht as (p & _ & Ht).
  apply bind_Ok_inv in Ht as (e & He & Ht). apply bind_Ok_inv in Ht as ([] & _ & Ht); [|done].
  apply bind_Ok_inv in Ht as (e' & He' & Ht). apply bind_Ok_inv in Ht as (f & Hf & Ht). inv_res.
  by apply (slot_quiet t p e _ f).
Qed.
Lemma setSocketClosed_quiet i t t' : N.setSocketClosed i t = Ok t' → quiet_step t t'.
Proof.
  intros Ht. unfold N.setSocketClosed, N.entry_setSocketClosed in Ht. apply bind_Ok_inv in Ht as (p & _ & Ht).
  apply bind_Ok_inv in Ht as (e & He & Ht). apply bind_Ok_inv in Ht as ([] & _ & Ht); [|done].
  apply bind_Ok_inv in Ht as (a & _ & Ht). apply bind_Ok_inv in Ht as (f & Hf & Ht).
  apply bind_Ok_inv in Ht as (e' & He' & Ht). inv_res.
  by apply (slot_quiet t p e _ f).
Qed.

Lemma ops_quiet i t t' : t_setPollout i t = Ok t' ∨ t_unsetPollout i t = Ok t' ∨ t_setPollin i t = Ok t' ∨
  t_unsetPollin i t = Ok t' ∨ t_setAssociated i t = Ok t' ∨ (∃ r, t_setRefed i r t = Ok t') → quiet_step t t'.
Proof.
  intros [Ht|[Ht|[Ht|[Ht|[Ht|[r Ht]]]]]];
    [exact (upd_events_quiet _ _ _ _ Ht)..|exact (setAssociated_quiet _ _ _ Ht)|exact (setRefed_quiet _ _ _ _ Ht)].
Qed.

Lemma heap_quiet t h : quiet_step t (N.with_heap h t).
Proof. intros Hq. split; [exact Hq|intros j f Hf; eauto]. Qed.

Lemma find_unused_unused n i t j : N.find_unused n i t = Ok (Some j) →
  i ≤ j ∧ ∃ e, N.ourSide t !! j = Some e ∧ N.used e = false.
Proof.
  revert i. induction n as [|n IH]; intros i Hf; cbn in Hf; [done|].
  destruct (N.ourSide t !! i) as [e|] eqn:He; [|done]. apply bind_Ok_inv in Hf as (u & Hu & Hf).
  unfold N.isUsed in Hu. apply assert_Ok in Hu as [_ [= <-]]. change (bool_decide (N.state e ≠ N.Unused)) with (N.used e) in Hf.
  destruct (N.used e) eqn:Hu; [|simplify_eq; eauto]. destruct (IH _ Hf) as [Hle Hex]. split; [lia|done].
Qed.

(** a new entry goes to a free slot or behind the others *)
Lemma addEntry_quiet ot o t t' : N.addEntry grow ot o t = Ok t' → quiet_step t t'.
Proof.
  intros Ht Hq. unfold N.addEntry in Ht. apply assert_Ok in Ht as [Hlen Ht]. apply bool_decide_eq_true_1 in Hlen.
  destruct (N.heap t !! o) as [d|]; [|done]. apply assert_Ok in Ht as [_ Ht].
  apply bind_Ok_inv in Ht as ([i|] & Hfr & Ht).
  - apply bind_Ok_inv in Ht as ([e h] & He & [= <-]).
    destruct (find_unused_unused _ _ _ _ Hfr) as (H0 & e0 & He0 & Hu0). unfold N.reserved_capacity in H0.
    destruct (lookup_lt_is_Some_2 (N.osSide t) i) as [f0 Hf0]; [rewrite <-Hlen; by eapply lookup_lt_Some|].
    assert (Hr0 : N.revents f0 = 0%Z) by (by apply (Hq i e0)).
    revert Hq. match goal with |- free_quiet ?a → free_quiet ?b ∧ _ => change (quiet_step a b) end.
    etrans; [|apply heap_quiet].
    apply (slot_quiet t (N.InSide i) e0 _ f0); [by unfold N.get_entry; rewrite He0|by unfold N.get_fd; rewrite Hf0|done|done].
  - assert (Hsnoc : ∀ e cap cap' a u h, N.new_entry (length (N.ourSide t)) ot o (N.heap t) = Ok (e, h) →
      free_quiet (N.mk (N.ourSide t ++ [e]) cap (N.ourSideAccum t) (N.osSide t ++ [N.new_fd d]) cap' (N.osSideAccum t) a u h) ∧
      revents_kept t (N.mk (N.ourSide t ++ [e]) cap (N.ourSideAccum t) (N.osSide t ++ [N.new_fd d]) cap' (N.osSideAccum t) a u h)).
    { intros e cap cap' a u h _. split.
      - intros j e1 f1 H0 Hj Hfj Hu. cbn in Hj, Hfj. destruct (decide (j < length (N.ourSide t))) as [Hlt|Hge].
        + rewrite lookup_app_l in Hj by done. rewrite lookup_app_l in Hfj by lia. by eapply (Hq j).
        + rewrite lookup_app_r in Hfj by lia. by apply list_lookup_singleton_Some in Hfj as [_ <-].
      - intros j f Hf. exists f. cbn. by rewrite lookup_app_l by (by eapply lookup_lt_Some). }
    case_bool_decide.
    + apply bind_Ok_inv in Ht as ([e h] & He & [= <-]). by apply Hsnoc.
    + apply bind_Ok_inv in Ht as ([e h] & He & [= <-]). split; [exact Hq|intros j f Hf; eauto].
Qed.
End table.
End ReadyTable.

Module ServerTables.
Import Server ReadyTable.
Module N := NetRegistry.NetRegistry.

Section tables.
Context {Ob W E : Type} `{Countable Ob} `{!Infinite Ob} `{!OS W, !ServerOS W}.
Context (grow : nat → nat) (inet_addr : list u8 → Z).
#[local] Instance server_table : SockTable Ob (N.t Ob) := NetTable.net_table grow.
Implicit Types (s : net Ob W E) (o sv : Ob) (t : N.t Ob).

Definition quiet_from t s : Prop := quiet_step t (table s).

Ltac quiet :=
  lazymatch goal with
  | |- quiet_from ?t (with_os _ ?s) => change (quiet_from t s); quiet
  | |- quiet_from ?t (put _ _ ?s) => change (quiet_from t s); quiet
  | |- quiet_from ?t (with_addresses _ ?s) => change (quiet_from t s); quiet
  | |- quiet_from ?t (with_owner _ ?s) => change (quiet_from t s); quiet
  | |- quiet_from ?t (with_pending _ ?s) => change (quiet_from t s); quiet
  | |- quiet_from ?t (with_listens _ ?s) => change (quiet_from t s); quiet
  | |- quiet_from ?t (slog _ _ ?s) => change (quiet_from t s); quiet
  | |- quiet_from ?t (with_table ?t' ?s) => change (quiet_step t t'); quiet
  | |- quiet_from ?t (add_object _ _ ?s) => unfold add_object; quiet
  | H : N.addEntry _ _ _ _ = Ok ?t' |- quiet_step _ ?t' => etrans; [|exact (addEntry_quiet _ _ _ _ _ H)]; quiet
  | H : N.setAssociated _ _ = Ok ?t' |- quiet_step _ ?t' => etrans; [|exact (setAssociated_quiet _ _ _ H)]; quiet
  | H : N.setPollin _ _ = Ok ?t' |- quiet_step _ ?t' => etrans; [|exact (upd_events_quiet _ _ _ _ H)]; quiet
  | H : N.setRefed _ _ _ = Ok ?t' |- quiet_step _ ?t' => etrans; [|exact (setRefed_quiet _ _ _ _ H)]; quiet
  | H : N.setSocketClosed _ _ = Ok ?t' |- quiet_step _ ?t' => etrans; [|exact (setSocketClosed_quiet _ _ _ H)]; quiet
  | |- quiet_step ?t (N.with_heap ?h ?t') => etrans; [|exact (heap_quiet t' h)]; quiet
  | |- quiet_step ?t (table ?s) => change (quiet_from t s); quiet
  | |- _ => try eassumption
  end.

(** a call that ends no object *)
Definition no_delete (c : Cmd Ob W) : Prop :=
  match c with Delete _ => False | Sock c => TcpTables.no_delete c | _ => True end.

Lemma quiet_tcp t s m :
  TcpTables.kept quiet_step (table s) m → quiet_from t s → quiet_from t (with_tcp m s).
Proof. intros Hk Hs. unfold TcpTables.kept in Hk. unfold quiet_from in *. etrans; [exact Hs|exact Hk]. Qed.

Lemma quiet_addServer t s s' o : appAddServer grow o s = Ok s' → quiet_from t s → quiet_from t s'.
Proof. intros Hc Hs. unfold appAddServer in Hc. open_eq; quiet. Qed.

Lemma quiet_listen t s s' o ip port backlog :
  listen grow inet_addr o ip port backlog s = Ok s' → quiet_from t s → quiet_from t s'.
Proof. intros Hc Hs. unfold listen, appListen, internal_port_of_tcp_socket in Hc. open_eq; quiet. Qed.

Lemma quiet_report t s s' o : appReportAllAceptedConnectionsEnded grow o s = Ok s' → quiet_from t s → quiet_from t s'.
Proof. intros Hc Hs. unfold appReportAllAceptedConnectionsEnded in Hc. open_eq; quiet. Qed.

Lemma quiet_close t s s' o : closingProcedure grow o s = Ok s' → quiet_from t s → quiet_from t s'.
Proof.
  intros Hc Hs. unfold closingProcedure, appClose, appReportAllAceptedConnectionsEnded in Hc. open_eq; quiet.
Qed.

Lemma quiet_cmd c t s s' : no_delete c → run_cmd grow inet_addr c s = Ok s' → quiet_from t s → quiet_from t s'.
Proof.
  intros Hn Hc Hs. destruct c as [c| |o ip port b|o ip port b h|o h|o|o h|o r|o]; cbn in Hc; [..|done].
  - apply bind_Ok_inv in Hc as (m & Hm & [= <-]). apply quiet_tcp; [|done].
    apply (TcpTables.kept_cmd quiet_step (ops_quiet grow) c _ (tcp s) m); [done|exact Hm|exact (quiet_refl _)].
  - apply bind_Ok_inv in Hc as ([s1 o] & Hm & [= <-]). unfold createServer in Hm.
    apply bind_Ok_inv in Hm as (s2 & Ha & [= <- <-]). eapply quiet_addServer; [exact Ha|]. quiet.
  - by eapply quiet_listen.
  - apply bind_Ok_inv in Hc as (s1 & Hl & Hc). apply (quiet_listen t _ _ _ _ _ _ Hl) in Hs. open_eq; quiet.
  - open_eq; quiet.
  - by eapply quiet_close.
  - apply bind_Ok_inv in Hc as (s1 & Hl & Hc). apply (quiet_close t _ _ _ Hl) in Hs. open_eq; quiet.
  - unfold appRef in Hc. open_eq; quiet.
Qed.

Lemma quiet_cmds cs t s s' : Forall no_delete cs → run_cmds grow inet_addr cs s = Ok s' → quiet_from t s → quiet_from t s'.
Proof.
  revert s. induction cs as [|c cs IH]; intros s Hn Hc Hs; cbn in Hc; [by simplify_eq|].
  apply Forall_cons in Hn as [Hn1 Hn]. apply bind_Ok_inv in Hc as (s1 & H1 & Hc).
  eapply IH; [done|exact Hc|]. by eapply quiet_cmd.
Qed.

Context (suser : Ob → SEvent Ob → net Ob W E → list (Cmd Ob W)).
Context (suser_quiet : ∀ o ev s, Forall no_delete (suser o ev s)).

Lemma quiet_emit t s s' o ev : emit grow inet_addr suser o ev s = Ok s' → quiet_from t s → quiet_from t s'.
Proof. intros Hc Hs. unfold emit in Hc. by eapply quiet_cmds. Qed.

Lemma quiet_makeSocket t s s' sv sk o : makeSocket grow sv sk s = Ok (s', o) → quiet_from t s → quiet_from t s'.
Proof.
  intros Hc Hs. unfold makeSocket in Hc. apply bind_Ok_inv in Hc as (m & Hm & Hc).
  unfold Tcp.registerAndAssignSocket in Hm. apply bind_Ok_inv in Hm as (d0 & _ & Hm).
  apply assert_Ok in Hm as [_ Hm]. apply bind_Ok_inv in Hm as (t' & Ht & [= <-]).
  assert (quiet_from t (with_table t' s)).
  { change (quiet_step t t'). etrans; [|exact (addEntry_quiet _ _ _ _ _ Ht)]. cbn [t_set_socket].
    etrans; [|exact (heap_quiet _ _)]. unfold add_object. cbn. etrans; [|exact (heap_quiet _ _)]. exact Hs. }
  open_eq; done.
Qed.

Lemma quiet_poll_event t s s' i sv revents :
  infraCheckPollFdSet grow inet_addr suser i sv revents s = Ok s' → quiet_from t s → quiet_from t s'.
Proof.
  intros Hc Hs. unfold infraCheckPollFdSet, infraMakeErrorEventAndClose in Hc.
  apply bind_Ok_inv in Hc as (sk & _ & Hc).
  assert (Herr : ∀ s0, quiet_from t s0 → (s ← emit grow inet_addr suser sv SvError s0;
    e ← NetTable.lookup_entry i (table s); Ok (with_pending (pendingCloseEvents s ++ [(N.index e, true)]) s)) = Ok s' →
    quiet_from t s').
  { intros s0 H0 He. apply bind_Ok_inv in He as (s1 & H1 & He). apply (quiet_emit _ _ _ _ _ H1) in H0.
    open_eq; quiet. }
  destruct (Tcp.has _ _); [by eapply Herr; [|exact Hc]|].
  destruct (Tcp.has _ _); [|case_bool_decide; [by eapply Herr; [|exact Hc]|by simplify_eq]].
  unfold infraProcessAcceptEvent in Hc. apply bind_Ok_inv in Hc as (k & _ & Hc).
  destruct (internal_tcp_accept _ _) as [w [[[nsk ip] port]|]]; [|by simplify_eq].
  unfold consumeAcceptedSocket in Hc. apply bind_Ok_inv in Hc as ([s1 o] & Hm & Hc).
  apply (quiet_makeSocket t) in Hm; [|done]. apply bind_Ok_inv in Hc as (m & Ha & Hc).
  assert (H2 : quiet_from t (with_tcp m s1)).
  { apply quiet_tcp; [|done].
    apply (TcpTables.kept_accepted quiet_step (ops_quiet grow) _ (tcp s1) m o Ha). exact (quiet_refl _). }
  apply bind_Ok_inv in Hc as (d & _ & Hc). destruct (ahd_connection_h d); (eapply quiet_emit; [exact Hc|]); quiet.
Qed.
End tables.
End ServerTables.

Module ServerSpec.
Import Server ReadyTable ServerTables.
Module N := NetRegistry.NetRegistry.

Section accept.
Context {Ob W E : Type} `{HcO : Countable Ob} `{!Infinite Ob} `{!OS W, !ServerOS W}.
Context (grow : nat → nat) (inet_addr : list u8 → Z).
#[local] Hint Extern 0 (SockTable _ (N.t Ob)) => exact (table_of_servers grow) : typeclass_instances.
Implicit Types (t : N.t Ob) (o : Ob) (i : nat) (m : Tcp.mgr Ob (N.t Ob) W).

(** room for one more entry *)
Definition room t : Prop := (Z.of_nat (length (N.all_entries t)) + 1 < 2 ^ 63)%Z.

Lemma unknown_unregistered t o : N.wf t → N.heap t !! o = None → N.unregistered o t.
Proof.
  intros Hwf Ho i e He Hu Hp. destruct (N.wf_fd_at _ _ _ Hwf He) as [f Hf]. destruct i as [|i].
  - destruct (N.wf_zero _ Hwf) as (e0 & l & Hz & Hz0). unfold N.all_entries in He. rewrite Hz in He. simplify_eq/=. congruence.
  - pose proof (N.wf_good _ Hwf (S i) e f ltac:(lia) He Hf) as Hg. unfold N.good in Hg. rewrite Hu in Hg.
    destruct Hg as (_ & o' & d & Hp' & Hd & _). congruence.
Qed.

(** events that stay the same leave the table the same *)
Lemma upd_events_same t i e f g : N.wf t → 0 < i → N.all_entries t !! i = Some e → N.all_fds t !! i = Some f →
  g (N.events f) = N.events f → N.upd_events g i t = Ok t.
Proof.
  intros Hwf H0 He Hf Hg. destruct (N.at_place t i e f Hwf H0 He Hf) as (p & Hl & Hp & _ & Hfd).
  unfold N.upd_events. rewrite Hl. cbn [mbind res_bind]. rewrite Hfd. cbn [mbind res_bind]. rewrite Hg.
  f_equal. destruct f as [k ev r], t as [a b c d x y z u h]. cbn in *. unfold N.get_fd in Hfd.
  destruct p as [j|j]; cbn in *; f_equal; apply list_insert_id; destruct (_ !! j); by simplify_eq.
Qed.

Lemma object_at_ok t i e f o d : N.wf t → 0 < i → N.all_entries t !! i = Some e → N.all_fds t !! i = Some f →
  N.used e = true → N.objectType e = N.ClientSocket → N.ptr e = Some o → N.heap t !! o = Some d →
  NetTable.object_at i t = Ok o.
Proof.
  intros Hwf H0 He Hf Hu Hot Hp Hd. destruct (N.at_place t i e f Hwf H0 He Hf) as (p & Hl & _ & Hge & _).
  unfold NetTable.object_at, N.at_. rewrite Hl. cbn [mbind res_bind]. rewrite Hge. cbn [mbind res_bind].
  rewrite (N.isUsed_ok _ _ _ Hwf H0 He), Hu. cbn [mbind res_bind]. rewrite Hot, Hp.
  unfold N.isValid. rewrite Hp. by rewrite bool_decide_eq_true_2.
Qed.

(** what the table does for an accepted socket: [t1] is the table before, with
    the new object *)
Record opened (o : Ob) (k : Z) (t t' : N.t Ob) (i : nat) : Prop := {
  op_wf : N.wf t';
  op_pos : 0 < i;
  op_heap : N.heap t' = <[o := N.mkObj i k]> (N.heap t);
  op_entry : N.all_entries t' !! i = Some (N.mkEntry N.SockAssociated i true N.ClientSocket (Some o));
  op_fd : N.all_fds t' !! i = Some (N.mkFd k N.POLLIN 0);
  op_rest : ∀ j e, j ≠ i → N.all_entries t !! j = Some e → N.all_entries t' !! j = Some e;
}.

Lemma open_entry t o d k : N.wf t → room t → N.heap t !! o = None → (0 < k)%Z → N.osSocket d = k →
  ∃ i t1 t2 t3 t4,
    N.addEntry grow N.ClientSocket o (N.with_heap (<[o := d]> (N.heap t)) t) = Ok t1 ∧ N.heap t1 !! o = Some (N.mkObj i k) ∧
    N.unsetPollout i t1 = Ok t1 ∧ NetTable.object_at i t1 = Ok o ∧
    N.setRefed i true t1 = Ok t2 ∧ N.heap t2 !! o = Some (N.mkObj i k) ∧
    N.setAssociated i t2 = Ok t3 ∧ N.heap t3 !! o = Some (N.mkObj i k) ∧
    N.setPollin i t3 = Ok t4 ∧ opened o k t t4 i.
Proof.
  intros Hwf Hroom Ho Hk Hd. set (t0 := N.with_heap _ t).
  assert (Hwf0 : N.wf t0) by (by apply NetTable.wf_other_object).
  assert (Hun : N.unregistered o t0).
  { intros i e He Hu Hp. by apply (unknown_unregistered t o Hwf Ho i e He Hu). }
  destruct (N.addEntry_spec grow N.ClientSocket o d t0 Hwf0) as (t1 & i & Ha & Hwf1 & Hpos & Hh1 & He1 & Hf1 & Hk1 & Hl1);
    [unfold N.fits, room in *; cbn; unfold N.all_entries in *; cbn; lia|done|by apply lookup_insert_eq|lia|done|].
  assert (Hh : N.heap t1 = <[o := N.mkObj i k]> (N.heap t)).
  { rewrite Hh1. unfold t0. cbn. rewrite insert_insert_eq. unfold N.set_index. by rewrite Hd. }
  assert (Hfits : N.fits t1) by (unfold N.fits, room in *; change (N.all_entries t0) with (N.all_entries t) in Hl1; lia).
  destruct (N.setRefed_spec t1 i _ _ Hwf1 Hfits Hpos He1 Hf1 true) as (t2 & H2). destruct H2 as (Hr & Hwf2 & Hh2 & Hf2 & He2); [done|].
  cbn in He2. assert (Hl2 : N.all_entries t2 !! i = Some (N.mkEntry N.SockIssued i true N.ClientSocket (Some o))).
  { rewrite He2. apply list_lookup_insert_eq. by eapply lookup_lt_Some. }
  assert (Hfits2 : N.fits t2) by (unfold N.fits in *; rewrite He2, length_insert; done).
  rewrite <-Hf2 in Hf1.
  destruct (N.setAssociated_spec t2 i _ _ Hwf2 Hfits2 Hpos Hl2 Hf1 eq_refl) as (t3 & Hs & Hwf3 & Hh3 & He3 & Hf3).
  unfold N.new_fd in Hf3. cbn in Hf3. rewrite Hd, Z.opp_involutive in Hf3.
  assert (Hl3 : N.all_entries t3 !! i = Some (N.mkEntry N.SockAssociated i true N.ClientSocket (Some o))).
  { rewrite He3. apply list_lookup_insert_eq. by eapply lookup_lt_Some. }
  assert (Hlf3 : N.all_fds t3 !! i = Some (N.mkFd k 0 0)).
  { rewrite Hf3. apply list_lookup_insert_eq. by eapply lookup_lt_Some. }
  assert (Hfits3 : N.fits t3) by (unfold N.fits in *; rewrite He3, length_insert; done).
  destruct (N.upd_events_spec t3 i _ _ Hwf3 Hfits3 Hpos Hl3 Hlf3 (λ e, Z.lor e N.POLLIN)) as (t4 & Hp & Hwf4 & Hh4 & He4 & Hf4); [by left|].
  exists i, t1, t2, t3, t4. rewrite Hf2 in Hf1. assert (Hlo : N.heap t1 !! o = Some (N.mkObj i k)) by (rewrite Hh; apply lookup_insert_eq).
  split; [exact Ha|]. rewrite Hh3, Hh2. split; [done|]. split; [by eapply upd_events_same|].
  split; [by eapply object_at_ok|]. do 5 (split; [done|]). constructor; try done.
  - by rewrite Hh4, Hh3, Hh2.
  - by rewrite He4.
  - rewrite Hf4. apply list_lookup_insert_eq. by eapply lookup_lt_Some.
  - intros j e Hj He. rewrite He4, He3, He2. rewrite !list_lookup_insert_ne by done. by apply Hk1.
Qed.

Implicit Types (s : net Ob W E) (d : server Ob).
Context (suser : Ob → SEvent Ob → net Ob W E → list (Cmd Ob W)).

Lemma get_of o s d : servers s !! o = Some d → get o s = Ok d.
Proof. unfold get. by intros ->. Qed.
Lemma new_name_fresh s : N.heap (table s) !! new_name s = None.
Proof.
  apply not_elem_of_dom. unfold new_name. intros Hin. apply (infinite_is_fresh (elements (dom (N.heap (table s))))).
  by apply elem_of_elements.
Qed.

(** what the user of the server is told of [o], and the data of an accepted
    socket, connected and polled for reading *)
Definition accept_event (d : server Ob) (o : Ob) : SEvent Ob :=
  match ahd_connection_h d with Some h => SvResumed h false | None => SvConnection o end.
Definition accepted_sock : Tcp.sock := Tcp.with_flags false false true (Tcp.with_state Tcp.Connected (Tcp.new_sock false true)).

(** the parts of [infraAddAccepted] *)
Lemma index_at t o i k : N.heap t !! o = Some (N.mkObj i k) → index_of t o = Some i.
Proof. cbn [index_of table_of_servers NetTable.net_table]. by intros ->. Qed.
Lemma on_table_ok (f : nat → N.t Ob → res (N.t Ob)) o m i t :
  index_of (Tcp.table m) o = Some i → f i (Tcp.table m) = Ok t → Tcp.on_table f o m = Ok (Tcp.with_table t m).
Proof. intros Hi Hf. unfold Tcp.on_table, Tcp.idx. rewrite Hi. cbn [mbind res_bind]. by rewrite Hf. Qed.
Lemma mgr_eq m m' :
  Tcp.socks m = Tcp.socks m' → Tcp.table m = Tcp.table m' → Tcp.pendingCloseEvents m = Tcp.pendingCloseEvents m' →
  Tcp.pendingAcceptedEvents m = Tcp.pendingAcceptedEvents m' → Tcp.recvBuffer m = Tcp.recvBuffer m' →
  Tcp.os m = Tcp.os m' → Tcp.trace m = Tcp.trace m' → m = m'.
Proof. destruct m, m'. cbn. by intros -> -> -> -> -> -> ->. Qed.
Lemma infraAddAccepted_unfold o m (d : Tcp.sock) i :
  Tcp.socks m !! o = Some d → index_of (Tcp.table m) o = Some i →
  d = Tcp.new_sock false true →
  Tcp.infraAddAccepted o m =
    (m' ← Tcp.on_table t_unsetPollout o
            (Tcp.with_pending_accepted (Tcp.pendingAcceptedEvents m ++ [i]) (Tcp.put o (Tcp.with_state Tcp.Connected d) m));
     let m' := Tcp.put o accepted_sock m' in
     _ ← t_object_at i (Tcp.table m');
     m' ← Tcp.on_table (λ i, t_setRefed i true) o m';
     m' ← Tcp.on_table t_setAssociated o m';
     Tcp.on_table t_setPollin o m').
Proof.
  intros Hd Hi Hn. unfold Tcp.infraAddAccepted, Tcp.get, Tcp.idx. rewrite Hd, Hi. subst d.
  unfold Tcp.idx. cbn [mbind res_bind]. rewrite bool_decide_eq_true_2 by done. reflexivity.
Qed.

(** the socket manager with the new socket, ready to be told it is accepted *)
Lemma accepted_socket s o k w : N.wf (table s) → room (table s) → N.heap (table s) !! o = None → (0 < k)%Z →
  let s0 := add_object o 0 (with_os w s) in
  ∃ i m m', Tcp.registerAndAssignSocket o k (Tcp.put o (Tcp.new_sock false true) (tcp s0)) = Ok m ∧
    Tcp.infraAddAccepted o m = Ok m' ∧ opened o k (table s) (Tcp.table m') i ∧
    m' = Tcp.mk (<[o := accepted_sock]> (Tcp.socks (tcp s))) (Tcp.table m') (Tcp.pendingCloseEvents (tcp s))
           (Tcp.pendingAcceptedEvents (tcp s) ++ [i]) (Tcp.recvBuffer (tcp s)) w (Tcp.trace (tcp s)).
Proof.
  intros Hwf Hroom Ho Hk s0.
  destruct (open_entry (table s) o (N.mkObj 0 k) k) as (i & t1 & t2 & t3 & t4 & Ha & Hi1 & Hup & Hat & Hr & Hi2 & Hs & Hi3 & Hp & Hop); try done.
  exists i. eexists. eexists (Tcp.mk (<[o := accepted_sock]> (Tcp.socks (tcp s))) t4 (Tcp.pendingCloseEvents (tcp s))
           (Tcp.pendingAcceptedEvents (tcp s) ++ [i]) (Tcp.recvBuffer (tcp s)) w (Tcp.trace (tcp s))).
  split; [|split; [|split; [exact Hop|done]]].
  - unfold Tcp.registerAndAssignSocket, Tcp.get, Tcp.put. cbn [Tcp.socks Tcp.with_socks]. rewrite lookup_insert_eq. cbn [mbind res_bind].
    rewrite bool_decide_eq_true_2 by done.
    assert (Heq : t_set_socket o k (Tcp.table (Tcp.with_socks (<[o := Tcp.new_sock false true]> (Tcp.socks (tcp s0))) (tcp s0)))
            = N.with_heap (<[o := N.mkObj 0 k]> (N.heap (table s))) (table s)).
    { cbn. unfold table, N.with_heap. cbn. by rewrite alter_insert_eq. }
    rewrite Heq. cbn [t_addEntry table_of_servers NetTable.net_table]. rewrite Ha. cbn [mbind res_bind]. reflexivity.
  - rewrite (infraAddAccepted_unfold _ _ (Tcp.new_sock false true) i); [|apply lookup_insert_eq|exact (index_at _ _ _ _ Hi1)|reflexivity].
    rewrite (on_table_ok _ _ _ i t1); [|exact (index_at _ _ _ _ Hi1)|exact Hup]. cbn [mbind res_bind].
    cbn [Tcp.table Tcp.put Tcp.with_table Tcp.with_socks]. cbn [t_object_at table_of_servers NetTable.net_table]. rewrite Hat. cbn [mbind res_bind].
    rewrite (on_table_ok _ _ _ i t2); [|exact (index_at _ _ _ _ Hi1)|exact Hr]. cbn [mbind res_bind].
    rewrite (on_table_ok _ _ _ i t3); [|exact (index_at _ _ _ _ Hi2)|exact Hs]. cbn [mbind res_bind].
    rewrite (on_table_ok _ _ _ i t4); [|exact (index_at _ _ _ _ Hi3)|change (N.setPollin i t3 = Ok t4); exact Hp].
    apply (f_equal Ok).
    apply mgr_eq; try reflexivity. cbn. by rewrite !insert_insert_eq.
Qed.

Lemma with_os_same s : with_os (os s) s = s.
Proof. destruct s as [m]; destruct m; reflexivity. Qed.

(** A connection is handed to a server: a new socket, then its user is told. *)
Lemma consume_spec s sv d nk remoteIp remotePort :
  servers s !! sv = Some d → N.wf (table s) → room (table s) → (0 < nk)%Z →
  ∃ o j s2 d2,
    consumeAcceptedSocket grow inet_addr suser sv nk remoteIp remotePort s =
      run_cmds grow inet_addr (suser sv (accept_event d o) s2) s2 ∧
    N.heap (table s) !! o = None ∧ opened o nk (table s) (table s2) j ∧
    Tcp.socks (tcp s2) = <[o := accepted_sock]> (Tcp.socks (tcp s)) ∧
    Tcp.pendingAcceptedEvents (tcp s2) = Tcp.pendingAcceptedEvents (tcp s) ++ [j] ∧
    Tcp.pendingCloseEvents (tcp s2) = Tcp.pendingCloseEvents (tcp s) ∧ os s2 = os s ∧
    owner s2 = <[o := sv]> (owner s) ∧
    addresses s2 !! o = Some (localAddress d, mkAddress (Ip.Port_getHost remotePort) Ip.Undefined remoteIp) ∧
    servers s2 = <[sv := d2]> (servers s) ∧ state d2 = state d ∧
    MultiOwner.owned (MultiOwner.items (socketList d2)) ≡ₚ o :: MultiOwner.owned (MultiOwner.items (socketList d)) ∧
    getSockCount d2 = getSockCount d + 1 ∧
    ahd_connection_h d2 = None ∧ (is_Some (ahd_connection_h d) → ahd_connection_sock d2 = Some o) ∧
    strace s2 = strace s ++ [(sv, accept_event d o)].
Proof.
  intros Hd Hwf Hroom Hnk.
  destruct (accepted_socket s (new_name s) nk (os s)) as (j & m & m' & Hreg & Hadd & Hop & Hm'); try done; [apply new_name_fresh|].
  rewrite with_os_same in Hreg. exists (new_name s), j.
  unfold consumeAcceptedSocket, makeSocket. rewrite Hreg. cbn [mbind res_bind].
  rewrite (get_of sv _ d) by exact Hd. cbn [mbind res_bind MultiOwner.add tcp with_tcp put with_servers with_owner with_addresses].
  rewrite Hadd. cbn [mbind res_bind]. set (d1 := with_list _ d). rewrite (get_of sv _ d1) by apply lookup_insert_eq.
  cbn [mbind res_bind]. change (ahd_connection_h d1) with (ahd_connection_h d).
  unfold accept_event, emit. destruct (ahd_connection_h d) as [h|] eqn:Hh.
  all: do 2 eexists; split; [reflexivity|].
  all: split_and!; [apply new_name_fresh|exact Hop|by rewrite Hm'..|done| |cbn; rewrite ?insert_insert_eq; reflexivity|done
                   |cbn; apply MultiOwner.owned_put|done|done| |done].
  all: cbn; rewrite ?lookup_insert_eq; try done.
Qed.

(** C11. A connection that arrives at a listening server becomes a socket of its
    own. When [accept] succeeds and the table has room, the server's handler of
    the readiness of its descriptor makes a new object, enters it into the table
    with the descriptor of the connection, asks [poll] for its input and for
    nothing else, records its addresses, makes it [Connected], owned and counted
    by the server, and queues its accepted event; every other socket and entry
    stays as it is. Then the coroutine waiting for a connection resumes and finds
    the new socket, or, if none waits, the listeners are called with it; what they
    do is all that happens after that. *)
Theorem accepted_connection_delivered s sv d sk nk s_addr sin_port w1 w2 revents i :
  servers s !! sv = Some d → N.osSocket <$> N.heap (table s) !! sv = Some sk → N.wf (table s) → room (table s) →
  Tcp.has revents (Z.lor Tcp.POLLERR Tcp.POLLNVAL) = false → Tcp.has revents Tcp.POLLIN = true →
  sys_accept sk (os s) = (w1, Some (nk, s_addr, sin_port)) → sys_ioctl_async nk w1 = (w2, true) → (0 < nk)%Z →
  ∃ o j s2 d2,
    infraCheckPollFdSet grow inet_addr suser i sv revents s =
      run_cmds grow inet_addr (suser sv (accept_event d o) s2) s2 ∧
    N.heap (table s) !! o = None ∧ opened o nk (table s) (table s2) j ∧
    Tcp.socks (tcp s2) = <[o := accepted_sock]> (Tcp.socks (tcp s)) ∧
    Tcp.pendingAcceptedEvents (tcp s2) = Tcp.pendingAcceptedEvents (tcp s) ++ [j] ∧
    Tcp.pendingCloseEvents (tcp s2) = Tcp.pendingCloseEvents (tcp s) ∧ os s2 = w2 ∧
    owner s2 = <[o := sv]> (owner s) ∧
    addresses s2 !! o = Some (localAddress d,
      mkAddress (Ip.Port_getHost (Ip.Port_fromNetwork sin_port)) Ip.Undefined (Ip.Ip4_fromNetwork s_addr)) ∧
    servers s2 = <[sv := d2]> (servers s) ∧ state d2 = state d ∧
    MultiOwner.owned (MultiOwner.items (socketList d2)) ≡ₚ o :: MultiOwner.owned (MultiOwner.items (socketList d)) ∧
    getSockCount d2 = getSockCount d + 1 ∧
    ahd_connection_h d2 = None ∧ (is_Some (ahd_connection_h d) → ahd_connection_sock d2 = Some o) ∧
    strace s2 = strace s ++ [(sv, accept_event d o)].
Proof.
  intros Hd Hsk Hwf Hroom Herr Hin Hacc Hio Hnk.
  assert (Hfd : fd grow sv s = Ok sk).
  { unfold fd, Tcp.fd. cbn [socket_of NetTable.net_table table_of_servers]. unfold table in Hsk. by rewrite Hsk. }
  unfold infraCheckPollFdSet, infraProcessAcceptEvent. rewrite Hfd.
  cbn [mbind res_bind]. rewrite Herr, Hin. unfold internal_tcp_accept. rewrite Hacc, Hio.
  apply (consume_spec (with_os w2 s) sv d nk); done.
Qed.

(** ** The close event of a server *)
Definition close_event (d : server Ob) (err : bool) : SEvent Ob :=
  match ahd_close d with Some h => SvResumed h err | None => SvClose err end.

(** a server that was closed, with its entry at [i] *)
Record closing s (sv : Ob) d (i : nat) : Prop := {
  cl_server : servers s !! sv = Some d;
  cl_state : state d = BeingClosed;
  cl_quiet : getSockCount d = 0 ∧ ahd_listen d = None ∧ ahd_connection_h d = None;
  cl_wf : N.wf (table s);
  cl_pos : 0 < i;
  cl_entry : ∃ r f, N.all_entries (table s) !! i = Some (N.mkEntry N.SockClosed i r N.ServerSocket (Some sv)) ∧
    N.all_fds (table s) !! i = Some f;
}.

Lemma closing_at s sv d i : closing s sv d i → i < length (N.osSide (table s)) →
  ∃ e, N.at_ i (table s) = Ok e ∧ N.socketsAt i (table s) = Ok (-1)%Z ∧ server_of e s = Ok sv.
Proof.
  intros [Hd Hst Hq Hwf Hpos (r & f & He & Hf)] Hlt.
  destruct (N.at_place _ i _ f Hwf Hpos He Hf) as (p & Hl & Hp & Hge & Hgf). eexists. split; [|split].
  - unfold N.at_. rewrite Hl. cbn [mbind res_bind]. rewrite Hge. cbn [mbind res_bind].
    rewrite (N.isUsed_ok _ _ _ Hwf Hpos He). done.
  - unfold N.socketsAt, N.locate_os. unfold N.locate in Hl. rewrite bool_decide_eq_true_2 by lia.
    rewrite bool_decide_eq_true_2 by done. cbn [mbind res_bind]. unfold N.get_fd.
    unfold N.all_fds in Hf. rewrite lookup_app_l in Hf by done. rewrite Hf. cbn [mbind res_bind].
    pose proof (N.wf_good _ Hwf i _ f Hpos He ltac:(unfold N.all_fds; by rewrite lookup_app_l)) as Hg.
    unfold N.good in Hg. cbn in Hg. destruct Hg as (_ & o & d0 & _ & _ & _ & Hfd). by rewrite Hfd.
  - pose proof (N.wf_good _ Hwf i _ f Hpos He Hf) as Hg. unfold N.good in Hg. cbn in Hg.
    destruct Hg as (_ & o & d0 & Ho & Hh & _). unfold server_of, N.isValid. cbn [N.ptr N.objectType] in *. simplify_eq.
    rewrite bool_decide_eq_true_2 by done. done.
Qed.

(** the server is closed, its waiting coroutine is taken *)
Definition closed (i : nat) (sv : Ob) d (err : bool) s : net Ob W E :=
  slog sv (close_event d err)
    (put sv (with_close None (with_state Closed d)) (with_events (PendingEvQueue.remove i (pendingEvents s)) s)).

Lemma put_put o d d' s : put o d (put o d' s) = put o d s.
Proof. unfold put, with_servers. cbn. by rewrite insert_insert_eq. Qed.

Lemma close_one_spec s sv d i err : closing s sv d i → i < N.size (table s) →
  close_one grow inet_addr suser i err s =
    (let s1 := closed i sv d err s in
     s2 ← run_cmds grow inet_addr (suser sv (close_event d err) s1) s1;
     t ← t_resetEntry i (table s2); Ok (with_table t s2)).
Proof.
  intros Hc Hi. assert (Hlt : i < length (N.osSide (table s))).
  { rewrite <-(N.wf_len _ (cl_wf _ _ _ _ Hc)). unfold N.size in Hi. lia. }
  destruct (closing_at _ _ _ _ Hc Hlt) as (e & He & Hsk & Hsv). destruct Hc as [Hd Hst (Hn & Hl & Hco) Hwf Hpos _].
  unfold close_one. set (s0 := with_events _ s). change (table s0) with (table s).
  rewrite bool_decide_eq_true_2 by done. rewrite He. cbn [mbind res_bind]. rewrite Hsk. cbn [mbind res_bind].
  rewrite bool_decide_eq_true_2 by done. change (server_of e s0) with (server_of e s). rewrite Hsv. cbn [mbind res_bind].
  unfold rrOnClose. rewrite (get_of sv s0 d) by done. cbn [mbind res_bind]. rewrite bool_decide_eq_true_2 by done.
  unfold internalCleanupBeforeClosing. rewrite (get_of sv s0 d) by done. cbn [mbind res_bind].
  rewrite bool_decide_eq_true_2 by done. unfold forceReleasingAllCoroHandles. set (s1 := put sv (with_state Closed d) s0).
  rewrite (get_of sv s1 (with_state Closed d)) by apply lookup_insert_eq. cbn [mbind res_bind].
  change (ahd_listen (with_state Closed d)) with (ahd_listen d). rewrite Hl. cbn [mbind res_bind].
  rewrite (get_of sv s1 (with_state Closed d)) by apply lookup_insert_eq. cbn [mbind res_bind].
  change (ahd_connection_h (with_state Closed d)) with (ahd_connection_h d). rewrite Hco. cbn [mbind res_bind].
  rewrite (get_of sv s1 (with_state Closed d)) by apply lookup_insert_eq. cbn [mbind res_bind].
  change (ahd_close (with_state Closed d)) with (ahd_close d). unfold closed, close_event, emit.
  destruct (ahd_close d) as [h|] eqn:Hh; unfold s1.
  - rewrite put_put. done.
  - assert (with_close None (with_state Closed d) = with_state Closed d) as ->; [|done].
    unfold with_close, with_state. cbn. by rewrite Hh.
Qed.

(** C28. When its last socket is gone a server that was closed is told so, once:
    its close event makes it [Closed], resumes the coroutine that waits for it or
    calls the listeners, and resets its entry. But the loop over the close events
    compares the index with the size of the table, which does not count the first
    place: a server in the last place is skipped, never told, and its event is
    dropped. *)
Theorem server_close_event s sv d i err :
  closing s sv d i → pendingCloseEvents s = [(i, err)] →
  infraGetCloseEvents grow inet_addr suser s =
    if bool_decide (i < N.size (table s)) then
      s1 ← (let s1 := closed i sv d err s in
            s2 ← run_cmds grow inet_addr (suser sv (close_event d err) s1) s1;
            t ← t_resetEntry i (table s2); Ok (with_table t s2));
      REQUIRE bool_decide (length (pendingCloseEvents s1) = 1) ;; Ok (with_pending [] s1)
    else Ok (with_pending [] (with_events (PendingEvQueue.remove i (pendingEvents s)) s)).
Proof.
  intros Hc Hp. unfold infraGetCloseEvents. rewrite Hp. cbn [close_all].
  destruct (bool_decide (i < N.size (table s))) eqn:Hi.
  - apply bool_decide_eq_true_1 in Hi. rewrite (close_one_spec _ _ _ _ _ Hc Hi).
    cbv zeta. match goal with |- ((?x ≫= _) ≫= _) = _ => destruct x as [s1| | | |] end; cbn [mbind res_bind]; try done.
    rewrite Hp. cbn [length]. match goal with |- (if ?b then _ else _) ≫= _ = _ => by destruct b end.
  - unfold close_one. set (s0 := with_events _ s). change (table s0) with (table s). rewrite Hi. cbn [mbind res_bind].
    by rewrite bool_decide_eq_true_2.
Qed.

(** An error that [poll] reports for a listening server stops the process:
    the server's handler queues the close event without closing the socket, and
    the loop over the close events asserts that it is closed. *)
Theorem poll_error_on_server_asserts s sv d sk i r f revents :
  servers s !! sv = Some d → N.heap (table s) !! sv = Some (N.mkObj i sk) → N.wf (table s) → 0 < i →
  N.all_entries (table s) !! i = Some (N.mkEntry N.SockAssociated i r N.ServerSocket (Some sv)) →
  N.all_fds (table s) !! i = Some f → i < N.size (table s) →
  pendingCloseEvents s = [] → Tcp.has revents (Z.lor Tcp.POLLERR Tcp.POLLNVAL) = true →
  (∀ s', suser sv SvError s' = []) →
  ∃ s', infraCheckPollFdSet grow inet_addr suser i sv revents s = Ok s' ∧ strace s' = strace s ++ [(sv, SvError)] ∧
    infraGetCloseEvents grow inet_addr suser s' = AssertFail.
Proof.
  intros Hd Hh Hwf Hpos He Hf Hi Hp Hrev Hu.
  destruct (N.at_place _ i _ f Hwf Hpos He Hf) as (p & Hl & _ & Hge & _).
  assert (Hlt : i < length (N.osSide (table s))) by (rewrite <-(N.wf_len _ Hwf); unfold N.size in Hi; lia).
  assert (Hfd : fd grow sv s = Ok sk).
  { unfold fd, Tcp.fd. cbn [socket_of NetTable.net_table table_of_servers]. unfold table in Hh. by rewrite Hh. }
  unfold infraCheckPollFdSet. rewrite Hfd. cbn [mbind res_bind]. rewrite Hrev.
  unfold infraMakeErrorEventAndClose, emit. rewrite Hu. cbn [run_cmds mbind res_bind].
  unfold NetTable.lookup_entry. change (table (slog _ _ _)) with (table s). rewrite Hl. cbn [mbind res_bind]. rewrite Hge.
  cbn [mbind res_bind]. eexists. split; [reflexivity|]. split; [done|]. set (s0 := slog _ _ _).
  unfold infraGetCloseEvents. cbn [pendingCloseEvents with_pending]. change (pendingCloseEvents s0) with (pendingCloseEvents s).
  rewrite Hp. cbn [app close_all]. unfold close_one. set (s1 := with_events _ _). change (table s1) with (table s).
  cbn [N.index]. rewrite bool_decide_eq_true_2 by done.
  assert (N.at_ i (table s) = Ok (N.mkEntry N.SockAssociated i r N.ServerSocket (Some sv))) as ->.
  { unfold N.at_. rewrite Hl. cbn [mbind res_bind]. rewrite Hge. cbn [mbind res_bind].
    by rewrite (N.isUsed_ok _ _ _ Hwf Hpos He). }
  cbn [mbind res_bind]. unfold N.socketsAt, N.locate_os. rewrite !bool_decide_eq_true_2 by lia. cbn [mbind res_bind].
  unfold N.get_fd. unfold N.all_fds in Hf. rewrite lookup_app_l in Hf by done. rewrite Hf. cbn [mbind res_bind].
  pose proof (N.wf_good _ Hwf i _ f Hpos He ltac:(unfold N.all_fds; by rewrite lookup_app_l)) as Hg.
  unfold N.good in Hg. cbn in Hg. destruct Hg as (_ & o & d0 & Ho & Hd0 & Hpo & Hfd'). rewrite Hfd'.
  rewrite bool_decide_eq_false_2; [done|]. unfold Tcp.INVALID_SOCKET. lia.
Qed.

(** [close] on a listening server *)
Lemma at_used t i e f : N.wf t → 0 < i → N.all_entries t !! i = Some e → N.all_fds t !! i = Some f → N.used e = true →
  N.at_ i t = Ok e.
Proof.
  intros Hwf Hpos He Hf Hu. destruct (N.at_place t i e f Hwf Hpos He Hf) as (p & Hl & _ & Hge & _).
  unfold N.at_. rewrite Hl. cbn [mbind res_bind]. rewrite Hge. cbn [mbind res_bind].
  rewrite (N.isUsed_ok _ _ _ Hwf Hpos He), Hu. done.
Qed.

Lemma closingProcedure_spec s sv d sk i r f :
  servers s !! sv = Some d → N.heap (table s) !! sv = Some (N.mkObj i sk) → N.wf (table s) → N.fits (table s) → 0 < i →
  N.all_entries (table s) !! i = Some (N.mkEntry N.SockAssociated i r N.ServerSocket (Some sv)) →
  N.all_fds (table s) !! i = Some f →
  ∃ t, closingProcedure grow sv s =
      Ok (let s1 := put sv (with_state BeingClosed d) (with_table t (with_os (sys_close sk (os s)) s)) in
          if bool_decide (getSockCount d = 0) then with_pending (pendingCloseEvents s ++ [(i, false)]) s1 else s1) ∧
    N.associatedCount t = (N.associatedCount (table s) - 1)%Z ∧ N.heap t = N.heap (table s) ∧ N.wf t.
Proof.
  intros Hd Hh Hwf Hfits Hpos He Hf. set (e := N.mkEntry _ _ _ _ _) in He.
  destruct (N.setSocketClosed_spec (table s) i e f Hwf Hfits Hpos He Hf) as (t & Hsc & Hwf' & Hh' & Hent); [done|].
  exists t. assert (Hix : ∀ s', N.heap (table s') = N.heap (table s) → idx grow sv s' = Ok i ∧ fd grow sv s' = Ok sk).
  { intros s' Hs'. unfold idx, Tcp.idx, fd, Tcp.fd. cbn [index_of socket_of table_of_servers NetTable.net_table].
    unfold table in Hs'. rewrite Hs'. unfold table in Hh. by rewrite Hh. }
  pose proof (lookup_lt_Some _ _ _ He) as Hlt.
  assert (He' : N.all_entries t !! i = Some (N.with_state N.SockClosed e)) by (rewrite Hent; by apply list_lookup_insert_eq).
  destruct (N.wf_fd_at _ _ _ Hwf' He') as [f' Hf'].
  split; [|split; [|done]].
  - unfold closingProcedure. rewrite (get_of sv s d) by done. cbn [mbind res_bind].
    unfold appClose. destruct (Hix s eq_refl) as [-> ->]. cbn [mbind res_bind].
    rewrite (at_used _ _ e f) by done. cbn [mbind res_bind]. set (s0 := with_os _ s). change (table s0) with (table s).
    change (N.index e) with i. rewrite Hsc. cbn [mbind res_bind]. set (s1 := with_table t s0).
    rewrite (get_of sv s1 d) by done. cbn [mbind res_bind].
    destruct (bool_decide (getSockCount d = 0)); [|done]. unfold appReportAllAceptedConnectionsEnded.
    destruct (Hix (put sv (with_state BeingClosed d) s1) Hh') as [-> _]. cbn [mbind res_bind].
    change (table (put _ _ s1)) with t. by rewrite (at_used _ _ _ f' Hwf' Hpos He' Hf').
  - rewrite (N.wf_assoc _ Hwf'), Hent, (N.wf_assoc _ Hwf).
    pose proof (countb_insert N.associated _ _ _ (N.with_state N.SockClosed e) He) as Hci.
    change (N.associated e) with true in Hci. change (N.associated (N.with_state N.SockClosed e)) with false in Hci. cbv iota in Hci. lia.
Qed.

(** ** The sockets of a server *)
Fixpoint remove_all (sv : Ob) (l : list Ob) s : res (net Ob W E) :=
  match l with [] => Ok s | o :: l => s ← removeSocket grow sv o s; remove_all sv l s end.

(** a server that was closed and owns the sockets of [l], its entry at [i] *)
Record closing_with s (sv : Ob) d (i : nat) (l : list Ob) : Prop := {
  cw_server : servers s !! sv = Some d;
  cw_state : state d = BeingClosed;
  cw_index : idx grow sv s = Ok i;
  cw_at : is_ok (N.at_ i (table s)) = true;
  cw_nodup : NoDup l;
  cw_wf : MultiOwner.wf (socketList d);
  cw_owned : MultiOwner.owned (MultiOwner.items (socketList d)) ≡ₚ l;
}.

Lemma removeSocket_spec s sv d i o l : closing_with s sv d i (o :: l) →
  ∃ s' d', removeSocket grow sv o s = Ok s' ∧ closing_with s' sv d' i l ∧ owner s' = delete o (owner s) ∧
    pendingCloseEvents s' = if bool_decide (l = []) then pendingCloseEvents s ++ [(i, false)] else pendingCloseEvents s.
Proof.
  intros [Hd Hst Hix Hat Hnd Hwf Ho]. apply NoDup_cons in Hnd as [Hno Hnd].
  unfold removeSocket. rewrite (get_of sv s d) by done. cbn [mbind res_bind MultiOwner.removeAndDelete].
  unfold MultiOwner.wf in Hwf.
  destruct (MultiOwner.reset_all_spec o (MultiOwner.items (socketList d)) (MultiOwner.cnt (socketList d))) as [H1 H2]; [lia|].
  destruct (MultiOwner.reset_all _ _ _) as [it c]. cbn [fst snd mbind res_bind] in *.
  assert (Hl : filter (.≠ o) (MultiOwner.owned (MultiOwner.items (socketList d))) ≡ₚ l).
  { rewrite Ho. rewrite filter_cons_False by naive_solver. rewrite filter_all; [done|]. intros x Hx ->. done. }
  pose proof (Permutation_length Ho) as Hlen. pose proof (Permutation_length Hl) as Hlen'. cbn in Hlen.
  assert (Hc : c = length l) by lia.
  set (d' := with_list (MultiOwner.mk it c) d). set (s1 := with_owner _ _).
  assert (Hcw : closing_with s1 sv d' i l).
  { constructor; try done; [apply lookup_insert_eq| |]; cbn.
    - unfold MultiOwner.wf. cbn. rewrite H1, Hc. lia.
    - by rewrite H1, Hl. }
  rewrite (bool_decide_eq_true_2 (state d' = BeingClosed)) by exact Hst. cbn [andb].
  change (getSockCount d') with c. assert (bool_decide (c = 0) = bool_decide (l = [])) as ->.
  { rewrite Hc. apply bool_decide_ext. by destruct l. }
  exists (if bool_decide (l = []) then with_pending (pendingCloseEvents s ++ [(i, false)]) s1 else s1), d'.
  destruct (bool_decide (l = [])) eqn:Hz; [|by split].
  unfold appReportAllAceptedConnectionsEnded. change (idx grow sv s1) with (idx grow sv s). rewrite Hix. cbn [mbind res_bind].
  change (table s1) with (table s). destruct (N.at_ i (table s)) as [e| | | |]; try done. cbn [mbind res_bind].
  split; [done|]. split; [|by split]. by destruct Hcw.
Qed.

(** The close event of a server waits for the sockets it accepted: while a
    server that was closed loses them, in any order, nothing is queued until the
    last one, and the end of the last one queues the event, once. *)
Theorem close_reported_after_last_socket s sv d i l o :
  closing_with s sv d i (l ++ [o]) →
  ∃ s1 s2, remove_all sv l s = Ok s1 ∧ pendingCloseEvents s1 = pendingCloseEvents s ∧
    removeSocket grow sv o s1 = Ok s2 ∧ pendingCloseEvents s2 = pendingCloseEvents s ++ [(i, false)].
Proof.
  revert s d. induction l as [|x l IH]; intros s d Hc; cbn [app remove_all] in *.
  - destruct (removeSocket_spec _ _ _ _ _ _ Hc) as (s2 & d2 & Hr & _ & _ & Hp).
    exists s, s2. split_and!; try done.
  - destruct (removeSocket_spec _ _ _ _ _ _ Hc) as (s1 & d1 & Hr & Hc1 & _ & Hp).
    rewrite bool_decide_eq_false_2 in Hp by (by destruct l).
    destruct (IH s1 d1 Hc1) as (s2 & s3 & H2 & Hp2 & H3 & Hp3). exists s2, s3. rewrite Hr. cbn [mbind res_bind].
    rewrite <-Hp. by split_and!.
Qed.
End accept.
End ServerSpec.

(** ** Concrete instances: server 5 at index 1, its socket 6 at index 2 *)
Module ServerExample.
Import Server ServerSpec TcpExample.
Module N := NetRegistry.NetRegistry.
Module NS := NetRegistry.NetRegistrySpec.
Abbreviation system := TcpExample.net.
Abbreviation net := Server.net.

#[export] Instance server_os : ServerOS system := {|
  sys_bind _ _ _ w := (w, true);
  sys_getsockname _ w := (w, Some 20480%Z);
  sys_listen _ _ w := (w, true);
  sys_accept _ w := (w, Some (12, 16777343, 20480)%Z);
|}.

Definition heap2 : gmap nat N.Obj := {[5 := N.mkObj 1 9; 6 := N.mkObj 2 10]}.
Definition table2 (st : N.State) (k assoc : Z) : N.t nat :=
  N.mk [N.empty_entry 0; N.mkEntry st 1 true N.ServerSocket (Some 5); N.mkEntry N.SockAssociated 2 true N.ClientSocket (Some 6)] 4 []
       [N.zero_fd; N.mkFd k 1 0; N.mkFd 10 1 0] 4 [] assoc 2 heap2.

Lemma table2_wf st k assoc :
  (st = N.SockAssociated ∧ k = 9%Z ∧ assoc = 2%Z ∨ st = N.SockClosed ∧ k = (-1)%Z ∧ assoc = 1%Z) → N.wf (table2 st k assoc).
Proof.
  assert (H5 : heap2 !! 5 = Some (N.mkObj 1 9)) by done. assert (H6 : heap2 !! 6 = Some (N.mkObj 2 10)) by done.
  intros [(-> & -> & ->)|(-> & -> & ->)]; (constructor; cbn; try done; [lia|by eexists _, _| |]).
  all: intros [|[|[|i]]] e; cbn; intros; simplify_eq; try lia; try done.
  all: try (split; [done|]; eexists _, _; repeat (split; [done|]); done).
  all: intros ?; split; [done|]; intros o d Ho Hh; cbn [N.ptr] in Ho; injection Ho as <-; first [rewrite H5 in Hh|rewrite H6 in Hh]; injection Hh as <-; done.
Qed.

Definition world2 : system := TcpExample.mkNet [] false [] [] true.
Definition server5 (st : State) (h : option nat) (socks : list (option nat)) : server nat :=
  mkServer st true no_address None h None None (MultiOwner.mk socks (length socks)).
Definition net2 (t : N.t nat) (d : server nat) (pend : list (nat * bool)) : net nat system nat :=
  mk (Tcp.mk {[6 := accepted_sock]} t [] [] Buffer.empty_buffer world2 []) {[5 := d]} ∅ ∅ pend [] [] [].
Definition quiet_user (o : nat) (ev : SEvent nat) (s : net nat system nat) : list (Cmd nat system) := [].
Definition no_addr (bs : list u8) : Z := 0%Z.

Definition listening2 : net nat system nat :=
  net2 (table2 N.SockAssociated 9 2) (server5 Listening (Some 3) [Some 6]) [].
Definition closing2 : net nat system nat :=
  net2 (table2 N.SockClosed (-1) 1) (server5 BeingClosed None []) [(1, false)].

Lemma accepted_connection_delivered_witness : ∃ (o j : nat) (s2 : net nat system nat) (d2 : server nat),
  infraCheckPollFdSet NS.double no_addr quiet_user 1 5 Tcp.POLLIN listening2 = Ok s2 ∧
  opened o 12 (table listening2) (table s2) j ∧ servers s2 = <[5 := d2]> (servers listening2) ∧ getSockCount d2 = 2 ∧
  strace s2 = [(5, SvResumed 3 false)].
Proof.
  destruct (accepted_connection_delivered NS.double no_addr quiet_user listening2 5 (server5 Listening (Some 3) [Some 6]) 9 12
              16777343 20480 world2 world2 Tcp.POLLIN 1) as (o & j & s2 & d2 & Heq & _ & Hop & _ & _ & _ & _ & _ & _ & Hs & _ & _ & Hc & _ & _ & Ht).
  - done.
  - done.
  - apply table2_wf. by left.
  - done.
  - done.
  - done.
  - done.
  - done.
  - lia.
  - by exists o, j, s2, d2.
Defined.

Lemma server_close_event_witness : ∃ s' : net nat system nat,
  infraGetCloseEvents NS.double no_addr quiet_user closing2 = Ok s' ∧
  strace s' = [(5, SvClose false)] ∧ state <$> servers s' !! 5 = Some Closed.
Proof.
  rewrite (server_close_event NS.double no_addr quiet_user closing2 5 (server5 BeingClosed None []) 1 false).
  - eexists. split; [reflexivity|]. by split.
  - constructor; [done|done|done|apply table2_wf; by right|lia|]. by eexists _, _.
  - done.
Defined.

Lemma poll_error_on_server_asserts_witness : ∃ s' : net nat system nat,
  infraCheckPollFdSet NS.double no_addr quiet_user 1 5 Tcp.POLLERR listening2 = Ok s' ∧ strace s' = [(5, SvError)] ∧
  infraGetCloseEvents NS.double no_addr quiet_user s' = AssertFail.
Proof.
  apply (poll_error_on_server_asserts NS.double no_addr quiet_user listening2 5 (server5 Listening (Some 3) [Some 6]) 9 1 true
           (N.mkFd 9 1 0)); try done.
  - apply table2_wf. by left.
  - lia.
  - cbn. lia.
Defined.

Definition closing3 : net nat system nat :=
  net2 (table2 N.SockClosed (-1) 1) (server5 BeingClosed None [Some 6; Some 7]) [].
Lemma close_reported_after_last_socket_witness : ∃ s1 s2 : net nat system nat,
  remove_all NS.double 5 [7] closing3 = Ok s1 ∧ pendingCloseEvents s1 = [] ∧
  removeSocket NS.double 5 6 s1 = Ok s2 ∧ pendingCloseEvents s2 = [(1, false)].
Proof.
  apply (close_reported_after_last_socket NS.double quiet_user closing3 5 (server5 BeingClosed None [Some 6; Some 7]) 1 [7] 6).
  constructor; try done.
  - apply NoDup_cons. split; [set_solver|]. apply NoDup_singleton.
  - apply (perm_swap 7 6 []).
Defined.
End ServerExample.
