(* ===== verification/ServerAwaits.v ===== *)
(** * Waits of servers (include/nodecpp/server_common.h)

    The awaiters of [a_listen], [a_connection] and [a_close], with the world of
    Awaits.v under the servers of Server.v: the field of the server is set by the
    commands of Server.v, the promise and the timer by what Awaits.v does for every
    awaiter. A coroutine gives the calls it makes from what its [co_await] gave: with a
    time limit, an object of a coroutine that has ended. *)

From S2P Require Import Prelude.
From S2P Require Import Buffers.
From S2P Require Import Timers.
From S2P Require Import NetRegistry.
From S2P Require Import Coro.
From S2P Require Import TcpSocket.
From S2P Require Import TcpSocketSpec.
From S2P Require Import Awaits.
From S2P Require Import Address.
From S2P Require Import Server.
From S2P Require Import ServerSpec.
From Stdlib Require Import Lia.

Module ServerAwaits.
Import Tcp Server Awaits.

Section defs.
Context {Ob W V X CB E : Type} `{Countable Ob} `{!Infinite Ob}.
Context `{!OS W, !ServerOS W}.
Abbreviation world := (host W V X CB).
Abbreviation state := (Server.net Ob world E).
Abbreviation command := (Server.Cmd Ob world).

#[export] Instance host_server_os : ServerOS world := {|
  sys_bind k ip port := lift (sys_bind k ip port);
  sys_getsockname k := lift (sys_getsockname k);
  sys_listen k n := lift (sys_listen k n);
  sys_accept k := lift (sys_accept k);
|}.

Context (grow : nat → nat) (inet_addr : list u8 → Z) (of_outcome : CoroStandardOutcomes → V) (exc : X).
(** the code of a coroutine after its [co_await], that of the callbacks of timers, that
    of the other handlers of servers, those of sockets *)
Context (code : coro → nat + (Z + X) → state → list command).
Context (callback : CB → state → list command).
Context (others : Ob → SEvent Ob → state → list command).

Definition on_world (f : world → res world) : command := Sock (Tcp.CHost f).

(** the calls with which a coroutine waits; [a_connection] with a time limit does not
    compile when it is used *)
Definition a_listen (o : Ob) (ip : list u8) (port backlog : Z) (h : coro) : list command :=
  [AListen o ip port backlog h; on_world (untimed_suspend h)].
Definition a_connection (o : Ob) (h : coro) : list command :=
  [on_world (untimed_suspend h); AConnection o h].
Definition a_close (o : Ob) (h : coro) : list command :=
  [AClose o h; on_world (untimed_suspend h)].
Definition a_close_timed (o : Ob) (period : Z) (h : coro) : list command :=
  [AClose o h; on_world (timed_suspend h period)].

(** [await_resume] of all of them: a coroutine with a time limit has an awaiter that
    holds its timer, and is given an object *)
Definition resumed (h : coro) (exn : bool) (w : world) : res (world * (nat + (Z + X))) :=
  match awaiters w !! h with
  | Some _ => '(w, a) ← woken of_outcome exc h exn w; Ok (w, inl a)
  | None =>
      w ← (if exn then throw_into h exc w else Ok w);
      r ← Coro.leaf_resume h (hcoros w); Ok (w, inr r)
  end.
(** and the socket that [a_connection] assigns *)
Definition connection_of (sv : Ob) (r : nat + (Z + X)) (s : state) : option Ob :=
  match r with
  | inr (inl _) => d ← servers s !! sv; ahd_connection_sock d
  | _ => None
  end.

(** [hr()] *)
Definition wake (h : coro) (exn : bool) (s : state) : list command :=
  on_world (λ w, '(w, _) ← resumed h exn w; Ok w) ::
  match resumed h exn (os s) with Ok (w, r) => code h r (with_os w s) | _ => [] end.
Definition suser (o : Ob) (ev : SEvent Ob) (s : state) : list command :=
  match ev with SvResumed h exn => wake h exn s | _ => others o ev s end.

(** [TimeoutManager::infraTimeoutEvents] on the node *)
Definition put_timers (m : Timers.t CB coro) (s : state) : state := with_os (with_htimers m (os s)) s.
Definition on_timers (cs : state → list command) (x : Timers.t CB coro * state) : res (Timers.t CB coro * state) :=
  let s := put_timers x.1 x.2 in s ← Server.run_cmds grow inet_addr (cs s) s; Ok (htimers (os s), s).
Definition setCoroStatus (h : coro) (r : CoroStandardOutcomes) (s : state) : state :=
  match Coro.setCoroStatus h (code_of r) (hcoros (os s)) with
  | Ok c => with_os (with_hcoros c (os s)) s
  | _ => s
  end.
Definition infraTimeoutEvents (now : Z) (s : state) : res state :=
  '(m, s) ← Timers.infraTimeoutEvents (λ f, on_timers (callback f)) (λ h, on_timers (wake h false)) setCoroStatus
              now (htimers (os s), s);
  Ok (put_timers m s).
End defs.
End ServerAwaits.

(** ** Theorems *)
Module ServerAwaitsSpec.
Import Tcp Server Awaits AwaitsSpec ServerAwaits.
Section spec.
Context {Ob W V X CB E : Type} `{Countable Ob} `{!Infinite Ob}.
Context `{!OS W, !ServerOS W}.
Context (grow : nat → nat) (inet_addr : list u8 → Z) (of_outcome : CoroStandardOutcomes → V) (exc : X).
Abbreviation world := (host W V X CB).
Abbreviation state := (Server.net Ob world E).
Abbreviation command := (Server.Cmd Ob world).
Context (code : coro → nat + (Z + X) → state → list command).
Context (callback : CB → state → list command).
Context (others : Ob → SEvent Ob → state → list command).
Abbreviation suser := (suser of_outcome exc code others).
Abbreviation run_cmds := (Server.run_cmds grow inet_addr).
Implicit Types s : state.

Lemma run_on_world f s : Server.run_cmd grow inet_addr (on_world f) s = (w ← f (os s); Ok (with_os w s)).
Proof. unfold on_world. cbn [Server.run_cmd Tcp.run_cmd]. unfold on_host. cbn. by destruct (f _). Qed.

Lemma swake_runs h exn s w r : resumed of_outcome exc h exn (os s) = Ok (w, r) →
  run_cmds (ServerAwaits.wake of_outcome exc code h exn s) s = run_cmds (code h r (with_os w s)) (with_os w s).
Proof.
  intros Hw. unfold ServerAwaits.wake. cbn [Server.run_cmds]. rewrite run_on_world, !Hw. done.
Qed.

(** what [rrOnClose] does for a coroutine in [a_close] when nobody else waits *)
Definition closing (o : Ob) (d : server Ob) h s : Prop :=
  servers s !! o = Some d ∧ Server.state d = BeingClosed ∧ getSockCount d = 0 ∧
  ahd_listen d = None ∧ ahd_connection_h d = None ∧ ahd_close d = Some h.
Definition closed_state (o : Ob) (d : server Ob) h err s : state :=
  slog o (SvResumed h err) (put o (with_close None (with_state Closed d)) (put o (with_state Closed d) s)).

Lemma closing_resumes o d h err s : closing o d h s →
  rrOnClose grow inet_addr suser o err s =
  run_cmds (ServerAwaits.wake of_outcome exc code h err (closed_state o d h err s)) (closed_state o d h err s).
Proof.
  intros (Hd & Hst & Hc & Hl & Hcon & Hcl). unfold rrOnClose, internalCleanupBeforeClosing, forceReleasingAllCoroHandles, get.
  rewrite Hd, !bind_Ok, (bool_decide_eq_true_2 (_ = BeingClosed)) by done. rewrite (bool_decide_eq_true_2 (getSockCount d = 0)) by done.
  cbn [put servers with_servers]. rewrite !lookup_insert_eq, !bind_Ok. cbn [with_state ahd_listen]. rewrite Hl, bind_Ok.
  cbn [put servers with_servers]. rewrite !lookup_insert_eq, !bind_Ok. cbn [with_state ahd_connection_h]. rewrite Hcon.
  rewrite bind_Ok. cbn [put servers with_servers]. rewrite !lookup_insert_eq, !bind_Ok. cbn [with_state ahd_close]. rewrite Hcl.
  done.
Qed.

(** code that lets the object [a] end *)
Definition slets_go (a : nat) (cs : list command) : Prop := ∃ cs1, cs = on_world (discard a) :: cs1.

(** A coroutine that closes a server under a time limit, when the last socket of the
    server ends in time: it is resumed, its handle is gone from the server and its timer
    from the table. The object it is given holds [ok]; letting it end is undefined. *)
Theorem timed_close_served o d h to s :
  closing o d h s → waiting h to (os s) →
  ∃ s1 a, rrOnClose grow inet_addr suser o false s = run_cmds (code h (inl a) s1) s1 ∧
    servers s1 !! o = Some (with_close None (with_state Closed d)) ∧
    handed h to (os s) (os s1) a (inl (of_outcome ok)) ∧ dangles a (of_outcome ok) (os s1) ∧
    (slets_go a (code h (inl a) s1) → rrOnClose grow inet_addr suser o false s = UB) ∧
    ∀ now m hs, Timers.take_due now (htimers (os s1)) = Ok (m, hs) → wakes h ∉ hs.
Proof.
  intros Hc Hw. rewrite (closing_resumes o d h false s Hc).
  destruct (w_frame _ _ _ Hw) as (f & Hf & Hx & Hst).
  destruct (timed_resume_ends of_outcome h to (os s) f (inl (of_outcome ok)) (w_wf _ _ _ Hw) (w_awaiter _ _ _ Hw) (w_to _ _ _ Hw)
    (w_fresh _ _ _ Hw) Hf) as (w1 & a & Hw1 & He); [by unfold result_of; rewrite Hx, Hst|].
  pose proof (handed_dangles _ _ _ _ _ _ (w_fresh _ _ _ Hw) He) as Hdg.
  assert (Hrun : run_cmds (ServerAwaits.wake of_outcome exc code h false (closed_state o d h false s)) (closed_state o d h false s) =
    run_cmds (code h (inl a) (with_os w1 (closed_state o d h false s))) (with_os w1 (closed_state o d h false s))).
  { apply swake_runs. unfold resumed. change (os (closed_state o d h false s)) with (os s).
    rewrite (w_awaiter _ _ _ Hw). unfold woken. by rewrite bind_Ok, Hw1. }
  exists (with_os w1 (closed_state o d h false s)), a. split_and!; try done.
  - cbn. apply lookup_insert_eq.
  - intros [cs1 Hcs]. rewrite Hrun, Hcs. cbn [Server.run_cmds]. rewrite run_on_world.
    change (os (with_os w1 _)) with w1. by destruct Hdg as [_ ->].
  - intros now m hs. eapply ended_never_woken; [apply Hw|apply He].
Qed.
End spec.
End ServerAwaitsSpec.

(** ** Concrete instances: coroutine 7 closes server 5 *)
Module ServerAwaitsExample.
Import TcpExample Tcp Server Awaits AwaitsSpec AwaitsExample ServerAwaits ServerAwaitsSpec ServerExample.
Abbreviation net_host := (Server.net nat host1 nat).

Definition closing5 : net_host :=
  Server.mk (Tcp.mk ∅ (table2 N.SockClosed (-1) 1) [] [] Buffer.empty_buffer waiting_host [])
    {[5 := with_close (Some 7) (server5 BeingClosed None [])]} ∅ ∅ [] [] [] [].
Lemma closing5_closes : closing 5 (with_close (Some 7) (server5 BeingClosed None [])) 7 closing5.
Proof. split_and!; reflexivity. Qed.

Definition keeps5 (h : coro) (_ : nat + (Z + nat)) (_ : net_host) : list (Server.Cmd nat host1) := [].
Definition no_other (_ : nat) (_ : SEvent nat) (_ : net_host) : list (Server.Cmd nat host1) := [].

Lemma timed_close_served_witness : ∃ s1 a,
  rrOnClose NS.double no_addr (suser numbered 9 keeps5 no_other) 5 false closing5 =
    Server.run_cmds NS.double no_addr (keeps5 7 (inl a) s1) s1 ∧
  dangles a 0 (Server.os s1).
Proof.
  destruct (timed_close_served NS.double no_addr numbered 9 keeps5 no_other 5 _ 7 1 closing5 closing5_closes waiting1_waits)
    as (s1 & a & H1 & _ & _ & H2 & _).
  exists s1, a. split; [exact H1|exact H2].
Defined.
End ServerAwaitsExample.
