(* ===== verification/Replay.v ===== *)
(** * Recording and replaying a node (tcp_socket_replaying_loop.h, socket_common.h, server_common.h)

    With [NODECPP_RECORD_AND_REPLAY] a node writes everything that comes from
    outside into the log of BinLog.v, at the perimeter of the library: where an
    event is passed to the user's code, and where a call of the user's code
    returns what the operating system decided. A later process runs the same
    user's code on the frames of the log instead of the operating system.

    [Module Frames] holds the frame types and the layout of their payloads,
    [Module Replay] the node: its sockets and servers with what the perimeter
    reads and writes of them, the perimeter functions ([rrOn...], the
    awaiters, the registration), which test the mode of the log as the code
    does, and [NodeReplayer]. The configuration does not compile as it stands:
    five frame types the code uses are missing from the enumeration (they get numbers
    after its last here), and [rrOnRemoteEnded] names a variable that is not
    there (the pointer recorded is taken to be that of the socket, as
    everywhere else). *)

From S2P Require Import Prelude.
From S2P Require Import Buffers.
From S2P Require Import Address.
From S2P Require Import TcpSocket.
From S2P Require Import Server.
From S2P Require Import BinLog.

Module Frames.

(** [BinaryLog::FrameType], and the enumerators it lacks *)
Inductive FrameType : Type :=
  | incomplete | node_main_call
  | sock_register | sock_register_2 | sock_connect | sock_connect_crh_ok | sock_connect_crh_timeout
  | sock_connect_crh_except | sock_accepted
  | sock_read_event_crh | sock_read_failed_event_crh | sock_read_event_call | sock_read_crh_ok
  | sock_read_crh_except | sock_read_crh_timeout
  | sock_connect_event_crh | sock_connect_event_call | sock_drain_event_crh_ok | sock_drain_event_crh_except
  | sock_drain_event_crh_timeout | sock_drain_event_call
  | sock_closing | sock_error_preclosing | sock_error_closing | sock_process_close_event | sock_remote_ended_call
  | sock_update_state
  | server_register | server_register_2 | server_listen | server_listen_crh_except | server_listen_crh_timeout
  | server_listen_crh_ok
  | server_make_socket_input | server_make_socket_output | server_consume_socket_event_crh
  | server_consume_socket_event_call
  | server_close_event_1 | server_close_event_2_crh | server_close_event_2_call | server_close_crh_except
  | server_close_crh_timeout | server_close_crh_ok
  | server_error_event_call
  | server_listening_event_crh | server_listening_event_call
  | server_conn_crh_except | server_conn_crh_ok
  | http_sock_read_data_crh_ok | http_sock_read_data_crh_except
  | coro_await_ready_res
  | type_max
  | sock_drain_event_crh | sock_drain_crh_ok | sock_drain_crh_except | sock_drain_crh_timeout
  | server_conn_crh_timeout.

(** all of them, in the order of the enumeration; [code] is the position *)
Definition all_types : list FrameType :=
  [incomplete; node_main_call;
   sock_register; sock_register_2; sock_connect; sock_connect_crh_ok; sock_connect_crh_timeout;
   sock_connect_crh_except; sock_accepted;
   sock_read_event_crh; sock_read_failed_event_crh; sock_read_event_call; sock_read_crh_ok;
   sock_read_crh_except; sock_read_crh_timeout;
   sock_connect_event_crh; sock_connect_event_call; sock_drain_event_crh_ok; sock_drain_event_crh_except;
   sock_drain_event_crh_timeout; sock_drain_event_call;
   sock_closing; sock_error_preclosing; sock_error_closing; sock_process_close_event; sock_remote_ended_call;
   sock_update_state;
   server_register; server_register_2; server_listen; server_listen_crh_except; server_listen_crh_timeout;
   server_listen_crh_ok;
   server_make_socket_input; server_make_socket_output; server_consume_socket_event_crh;
   server_consume_socket_event_call;
   server_close_event_1; server_close_event_2_crh; server_close_event_2_call; server_close_crh_except;
   server_close_crh_timeout; server_close_crh_ok;
   server_error_event_call;
   server_listening_event_crh; server_listening_event_call;
   server_conn_crh_except; server_conn_crh_ok;
   http_sock_read_data_crh_ok; http_sock_read_data_crh_except;
   coro_await_ready_res;
   type_max;
   sock_drain_event_crh; sock_drain_crh_ok; sock_drain_crh_except; sock_drain_crh_timeout;
   server_conn_crh_timeout].

Definition type_of (z : Z) : option FrameType :=
  if bool_decide (0 ≤ z)%Z then all_types !! Z.to_nat z else None.

Definition code (t : FrameType) : Z :=
  match t with
  | incomplete => 0 | node_main_call => 1
  | sock_register => 2 | sock_register_2 => 3 | sock_connect => 4 | sock_connect_crh_ok => 5
  | sock_connect_crh_timeout => 6 | sock_connect_crh_except => 7 | sock_accepted => 8
  | sock_read_event_crh => 9 | sock_read_failed_event_crh => 10 | sock_read_event_call => 11
  | sock_read_crh_ok => 12 | sock_read_crh_except => 13 | sock_read_crh_timeout => 14
  | sock_connect_event_crh => 15 | sock_connect_event_call => 16 | sock_drain_event_crh_ok => 17
  | sock_drain_event_crh_except => 18 | sock_drain_event_crh_timeout => 19 | sock_drain_event_call => 20
  | sock_closing => 21 | sock_error_preclosing => 22 | sock_error_closing => 23
  | sock_process_close_event => 24 | sock_remote_ended_call => 25 | sock_update_state => 26
  | server_register => 27 | server_register_2 => 28 | server_listen => 29 | server_listen_crh_except => 30
  | server_listen_crh_timeout => 31 | server_listen_crh_ok => 32
  | server_make_socket_input => 33 | server_make_socket_output => 34 | server_consume_socket_event_crh => 35
  | server_consume_socket_event_call => 36
  | server_close_event_1 => 37 | server_close_event_2_crh => 38 | server_close_event_2_call => 39
  | server_close_crh_except => 40 | server_close_crh_timeout => 41 | server_close_crh_ok => 42
  | server_error_event_call => 43
  | server_listening_event_crh => 44 | server_listening_event_call => 45
  | server_conn_crh_except => 46 | server_conn_crh_ok => 47
  | http_sock_read_data_crh_ok => 48 | http_sock_read_data_crh_except => 49
  | coro_await_ready_res => 50
  | type_max => 51
  | sock_drain_event_crh => 52 | sock_drain_crh_ok => 53 | sock_drain_crh_except => 54
  | sock_drain_crh_timeout => 55 | server_conn_crh_timeout => 56
  end.

Lemma type_of_code t : type_of (code t) = Some t.
Proof. by destruct t. Qed.

#[export] Instance code_inj : Inj (=) (=) code.
Proof. intros a b H. apply (f_equal type_of) in H. rewrite !type_of_code in H. by injection H. Qed.

Lemma code_range t : t ≠ incomplete → (0 < code t < 2 ^ 32)%Z.
Proof. by destruct t. Qed.

(** ** Payloads

    The structures as they lie in memory on a 64-bit little-endian machine. The bytes
    between the fields are whatever is in memory there. *)
Section payloads.
Context (padding : nat → u8).
Definition pad (n : nat) : list u8 := padding <$> seq 0 n.
Definition put_bool (b : bool) : list u8 := [if b then x01 else x00].

Inductive ObjectType : Type := Undefined | ClientSocket | ServerSocket | AgentServer.
Definition object_code (t : ObjectType) : Z :=
  match t with Undefined => 0 | ClientSocket => 1 | ServerSocket => 2 | AgentServer => 3 end.

Definition state_code (s : Tcp.State) : Z :=
  match s with
  | Tcp.Uninitialized => 0 | Tcp.Connecting => 1 | Tcp.Connected => 2 | Tcp.LocalEnding => 3
  | Tcp.LocalEnded => 4 | Tcp.Closing => 5 | Tcp.ErrorClosing => 6 | Tcp.Closed => 7
  end.
Definition all_states : list Tcp.State :=
  [Tcp.Uninitialized; Tcp.Connecting; Tcp.Connected; Tcp.LocalEnding; Tcp.LocalEnded; Tcp.Closing;
   Tcp.ErrorClosing; Tcp.Closed].
Definition state_of_code (z : Z) : option Tcp.State :=
  if bool_decide (0 ≤ z)%Z then all_states !! Z.to_nat z else None.

Definition SocketEvent (ptr : Z) : list u8 := le_split 8 ptr.
Definition ServerOrSocketRegisterFrameData (type : ObjectType) (index ptr dataForCommProcPtr socket : Z) : list u8 :=
  le_split 4 (object_code type) ++ pad 4 ++ le_split 8 index ++ le_split 8 ptr
    ++ le_split 8 dataForCommProcPtr ++ le_split 8 socket.
Definition SocketUpdateState (ptr : Z) (state : Tcp.State) : list u8 :=
  le_split 8 ptr ++ le_split 4 (state_code state) ++ pad 4.
Definition SocketCloseEvent (ptr : Z) (err used : bool) : list u8 :=
  le_split 8 ptr ++ put_bool err ++ put_bool used ++ pad 6.
Definition ServerListen (ptr : Z) (ip : Ip.Ip4) (port backlog : Z) : list u8 :=
  le_split 8 ptr ++ le_split 4 ip ++ le_split 2 port ++ pad 2 ++ le_split 4 backlog ++ pad 4.
Definition ServerMakeSocketOutput (sockPtr : Z) (remoteIp : Ip.Ip4) (remotePort : Ip.Port) : list u8 :=
  le_split 8 sockPtr ++ le_split 4 remoteIp ++ le_split 2 remotePort ++ pad 2.
Definition serverConsumeSocket (ptr sockPtr : Z) : list u8 := le_split 8 ptr ++ le_split 8 sockPtr.
Definition ServerCloseEvent_2 (ptr : Z) (err : bool) : list u8 := le_split 8 ptr ++ put_bool err ++ pad 7.
End payloads.

(** fields of a payload; reading past its end is undefined *)
Definition field (off n : nat) (p : list cell) : res Z := BinLog.load_int off n p.
Definition get_ptr (p : list cell) : res Z := field 0 8 p.
Definition get_bool (off : nat) (p : list cell) : res bool := b ← field off 1 p; Ok (bool_decide (b ≠ 0%Z)).
End Frames.

(** What recording needs from outside: the table of sockets and the system calls
    behind the calls of the user, on a world [W] of any type.
    [env_write2 o data]: [appWrite2] reports whether the data was taken, whether the socket
    had to be closed with an error, and whether the write buffer is empty then.
    [env_port]: the port the system gave a server that asked for port 0.
    [env_first_word]: the first eight bytes of the object of a socket. *)
Class RecEnv (W : Type) := {
  env_make_socket : W → W * option Z;
  env_add_entry : W → W * Z;
  env_connect : Z → string → Z → W → W * bool;
  env_bind : Z → Ip.Ip4 → Z → W → W * bool;
  env_port : Z → W → W * Z;
  env_listen : Z → Z → W → W * bool;
  env_write2 : nat → list u8 → W → W * (bool * bool * bool);
  env_first_word : nat → W → Z;
}.

(** Where [dataForCommandProcessing] lies in a socket and in a server, and what
    an object takes at most; both classes have virtual functions, so it does
    not come first *)
Class Layout := {
  socket_dfcp : Z;
  server_dfcp : Z;
  object_size : Z;
  socket_dfcp_inside : (0 < socket_dfcp < object_size)%Z;
  server_dfcp_inside : (0 < server_dfcp < object_size)%Z;
}.

(** What differs between two processes that run the same program: the bytes between
    the fields of a structure, and where the allocator puts a new object, given
    the addresses of those that live. *)
Record process : Type := mkProcess {
  padding : nat → u8;
  alloc : list Z → Z;
}.

Module Replay.
Import Frames.
#[export] Existing Instance Tcp.state_eq_dec.
#[export] Existing Instance Server.state_eq_dec.

(** ** The user's code

    Objects have the numbers of their creation. An event runs code that makes
    calls one after the other, each depending on the answers so far, and ends with what
    the user remembers for the next event. *)
Inductive Event : Type :=
  | EvMain
  | EvResumed (h : nat)
  | EvAccepted (o : nat) | EvConnect (o : nat) | EvData (o : nat) (data : list cell) | EvDrain (o : nat)
  | EvEnd (o : nat) | EvError (o : nat) | EvClose (o : nat) (err : bool)
  | EvListening (o : nat) (index : Z) (addr : Server.Address) | EvConnection (o sock : nat)
  | EvServerClose (o : nat) (err : bool) | EvServerError (o : nat).

(** [h] is the coroutine that calls, [limit] whether the wait has a time limit; each await
    is split in what happens up to [await_suspend] and its [await_resume], whose [h] is
    [myawaiting]: [None] when the coroutine was not suspended *)
Inductive call : Type :=
  | CNewSocket
  | CNewServer
  | CConnect (o : nat) (ip : string) (port : Z)
  | CListen (o : nat) (ip : Ip.Ip4) (port backlog : Z)
  | CListening (o : nat)
  | CCloseServer (o : nat)
  | CDestroy (o : nat)
  | CAwaitConnect (limit : bool) (o h : nat) | CResumeConnect (limit : bool) (h : option nat)
  | CAwaitRead (limit : bool) (o min_bytes h : nat)
  | CResumeRead (limit : bool) (o min_bytes max_bytes : nat) (h : option nat)
  | CAwaitData (o h : nat) | CResumeData (o : nat) (h : option nat)
  | CAwaitWrite (o : nat) (data : list u8) (h : nat) | CResumeWrite (h : option nat)
  | CAwaitDrain (limit : bool) (o h : nat) | CResumeDrain (limit : bool) (h : option nat)
  | CAwaitListen (o h : nat) | CResumeListen (h : option nat)
  | CAwaitConnection (limit : bool) (o h : nat) | CResumeConnection (limit : bool) (o : nat) (h : option nat)
  | CAwaitClose (limit : bool) (o h : nat) | CResumeClose (limit : bool) (h : option nat).

Inductive answer : Type :=
  | ADone | AException | ATimeout
  | ABool (b : bool) | AData (d : list cell) | AObject (o : nat) | AMaybe (o : option nat).

Inductive prog (U : Type) : Type :=
  | Done (u : U)
  | Call (c : call) (k : answer → prog U).
Arguments Done {U} u.
Arguments Call {U} c k.

(** ** The node *)

(** [DataForCommandProcessing] of [SocketBase]. Of the read buffer only its bytes count, of
    the write buffer only whether it is empty; their operations are those of a list (Circular.v).
    Nothing here pauses a socket. *)
Record sock : Type := mkSock {
  state : Tcp.State;
  index : Z;
  osSocket : Z;
  refed : bool;
  remoteEnded : bool;
  allowHalfOpen : bool;
  ahd_accepted : option nat;
  ahd_connect : option nat;
  ahd_read_h : option nat;
  ahd_read_min_bytes : nat;
  ahd_write_h : option nat;
  ahd_drain : option nat;
  readBuffer : list u8;
  writeBuffer_empty : bool;
  remote : Ip.Ip4 * Z;
  myServerSocket : option nat;
}.
Definition new_sock (server : option nat) : sock :=
  mkSock Tcp.Uninitialized 0 0 false false false None None None 0 None None [] true (Ip.default_Ip4, 0%Z) server.

Definition set_state (x : Tcp.State) (d : sock) : sock :=
  mkSock x (index d) (osSocket d) (refed d) (remoteEnded d) (allowHalfOpen d) (ahd_accepted d) (ahd_connect d)
    (ahd_read_h d) (ahd_read_min_bytes d) (ahd_write_h d) (ahd_drain d) (readBuffer d) (writeBuffer_empty d) (remote d) (myServerSocket d).
Definition set_index (x : Z) (d : sock) : sock :=
  mkSock (state d) x (osSocket d) (refed d) (remoteEnded d) (allowHalfOpen d) (ahd_accepted d) (ahd_connect d)
    (ahd_read_h d) (ahd_read_min_bytes d) (ahd_write_h d) (ahd_drain d) (readBuffer d) (writeBuffer_empty d) (remote d) (myServerSocket d).
Definition set_osSocket (x : Z) (d : sock) : sock :=
  mkSock (state d) (index d) x (refed d) (remoteEnded d) (allowHalfOpen d) (ahd_accepted d) (ahd_connect d)
    (ahd_read_h d) (ahd_read_min_bytes d) (ahd_write_h d) (ahd_drain d) (readBuffer d) (writeBuffer_empty d) (remote d) (myServerSocket d).
Definition set_refed (x : bool) (d : sock) : sock :=
  mkSock (state d) (index d) (osSocket d) x (remoteEnded d) (allowHalfOpen d) (ahd_accepted d) (ahd_connect d)
    (ahd_read_h d) (ahd_read_min_bytes d) (ahd_write_h d) (ahd_drain d) (readBuffer d) (writeBuffer_empty d) (remote d) (myServerSocket d).
Definition set_remoteEnded (x : bool) (d : sock) : sock :=
  mkSock (state d) (index d) (osSocket d) (refed d) x (allowHalfOpen d) (ahd_accepted d) (ahd_connect d)
    (ahd_read_h d) (ahd_read_min_bytes d) (ahd_write_h d) (ahd_drain d) (readBuffer d) (writeBuffer_empty d) (remote d) (myServerSocket d).
Definition set_accepted (x : option nat) (d : sock) : sock :=
  mkSock (state d) (index d) (osSocket d) (refed d) (remoteEnded d) (allowHalfOpen d) x (ahd_connect d)
    (ahd_read_h d) (ahd_read_min_bytes d) (ahd_write_h d) (ahd_drain d) (readBuffer d) (writeBuffer_empty d) (remote d) (myServerSocket d).
Definition set_connect (x : option nat) (d : sock) : sock :=
  mkSock (state d) (index d) (osSocket d) (refed d) (remoteEnded d) (allowHalfOpen d) (ahd_accepted d) x
    (ahd_read_h d) (ahd_read_min_bytes d) (ahd_write_h d) (ahd_drain d) (readBuffer d) (writeBuffer_empty d) (remote d) (myServerSocket d).
Definition set_read (x : option nat) (n : nat) (d : sock) : sock :=
  mkSock (state d) (index d) (osSocket d) (refed d) (remoteEnded d) (allowHalfOpen d) (ahd_accepted d) (ahd_connect d)
    x n (ahd_write_h d) (ahd_drain d) (readBuffer d) (writeBuffer_empty d) (remote d) (myServerSocket d).
Definition set_write (x : option nat) (d : sock) : sock :=
  mkSock (state d) (index d) (osSocket d) (refed d) (remoteEnded d) (allowHalfOpen d) (ahd_accepted d) (ahd_connect d)
    (ahd_read_h d) (ahd_read_min_bytes d) x (ahd_drain d) (readBuffer d) (writeBuffer_empty d) (remote d) (myServerSocket d).
Definition set_drain (x : option nat) (d : sock) : sock :=
  mkSock (state d) (index d) (osSocket d) (refed d) (remoteEnded d) (allowHalfOpen d) (ahd_accepted d) (ahd_connect d)
    (ahd_read_h d) (ahd_read_min_bytes d) (ahd_write_h d) x (readBuffer d) (writeBuffer_empty d) (remote d) (myServerSocket d).
Definition set_readBuffer (x : list u8) (d : sock) : sock :=
  mkSock (state d) (index d) (osSocket d) (refed d) (remoteEnded d) (allowHalfOpen d) (ahd_accepted d) (ahd_connect d)
    (ahd_read_h d) (ahd_read_min_bytes d) (ahd_write_h d) (ahd_drain d) x (writeBuffer_empty d) (remote d) (myServerSocket d).
Definition set_written (x : bool) (d : sock) : sock :=
  mkSock (state d) (index d) (osSocket d) (refed d) (remoteEnded d) (allowHalfOpen d) (ahd_accepted d) (ahd_connect d)
    (ahd_read_h d) (ahd_read_min_bytes d) (ahd_write_h d) (ahd_drain d) (readBuffer d) x (remote d) (myServerSocket d).
Definition set_remote (x : Ip.Ip4 * Z) (d : sock) : sock :=
  mkSock (state d) (index d) (osSocket d) (refed d) (remoteEnded d) (allowHalfOpen d) (ahd_accepted d) (ahd_connect d)
    (ahd_read_h d) (ahd_read_min_bytes d) (ahd_write_h d) (ahd_drain d) (readBuffer d) (writeBuffer_empty d) x (myServerSocket d).

(** [DataForCommandProcessing] of [ServerBase], with the sockets it owns *)
Record server : Type := mkServer {
  sstate : Server.State;
  sindex : Z;
  sosSocket : Z;
  srefed : bool;
  localAddress : Server.Address;
  ahd_listen : option nat;
  ahd_connection_h : option nat;
  ahd_connection_sock : option nat;
  ahd_close : option nat;
  socketList : MultiOwner.t nat;
}.
Definition new_server : server :=
  mkServer Server.Unused 0 0 false Server.no_address None None None None (MultiOwner.mk [] 0).

Definition sset_state (x : Server.State) (d : server) : server :=
  mkServer x (sindex d) (sosSocket d) (srefed d) (localAddress d) (ahd_listen d) (ahd_connection_h d) (ahd_connection_sock d) (ahd_close d) (socketList d).
Definition sset_entry (i sk : Z) (d : server) : server :=
  mkServer (sstate d) i sk (srefed d) (localAddress d) (ahd_listen d) (ahd_connection_h d) (ahd_connection_sock d) (ahd_close d) (socketList d).
Definition sset_address (r : bool) (a : Server.Address) (d : server) : server :=
  mkServer (sstate d) (sindex d) (sosSocket d) r a (ahd_listen d) (ahd_connection_h d) (ahd_connection_sock d) (ahd_close d) (socketList d).
Definition sset_listen (x : option nat) (d : server) : server :=
  mkServer (sstate d) (sindex d) (sosSocket d) (srefed d) (localAddress d) x (ahd_connection_h d) (ahd_connection_sock d) (ahd_close d) (socketList d).
Definition sset_connection (x o : option nat) (d : server) : server :=
  mkServer (sstate d) (sindex d) (sosSocket d) (srefed d) (localAddress d) (ahd_listen d) x o (ahd_close d) (socketList d).
Definition sset_close (x : option nat) (d : server) : server :=
  mkServer (sstate d) (sindex d) (sosSocket d) (srefed d) (localAddress d) (ahd_listen d) (ahd_connection_h d) (ahd_connection_sock d) x (socketList d).
Definition sset_list (x : MultiOwner.t nat) (d : server) : server :=
  mkServer (sstate d) (sindex d) (sosSocket d) (srefed d) (localAddress d) (ahd_listen d) (ahd_connection_h d) (ahd_connection_sock d) (ahd_close d) x.

Inductive object : Type := Client (d : sock) | Srv (d : server).

(** [CoroEData] *)
Record CoroEData : Type := mkCoro { is_exception : bool; is_timeout : bool }.

(** what an observer of the user's code sees *)
Inductive obs : Type := Saw (ev : Event) | Got (c : call) (a : answer).

Section defs.
Context {U W : Type} {HE : RecEnv W} {HL : Layout}.
Context (p : process) (react : U → Event → prog U).

(** A node with its log. Every object lives at an address; [trace] is what an
    observer saw, the code does not read it. *)
Record node : Type := mk {
  blog : BinLog.t;
  objects : gmap nat (Z * object);
  next : nat;
  coros : gmap nat CoroEData;
  world : W;
  user : U;
  trace : list obs;
}.

Definition with_blog (x : BinLog.t) (s : node) : node :=
  mk x (objects s) (next s) (coros s) (world s) (user s) (trace s).
Definition with_objects (x : gmap nat (Z * object)) (s : node) : node :=
  mk (blog s) x (next s) (coros s) (world s) (user s) (trace s).
Definition with_next (x : nat) (s : node) : node :=
  mk (blog s) (objects s) x (coros s) (world s) (user s) (trace s).
Definition with_coros (x : gmap nat CoroEData) (s : node) : node :=
  mk (blog s) (objects s) (next s) x (world s) (user s) (trace s).
Definition with_world (x : W) (s : node) : node :=
  mk (blog s) (objects s) (next s) (coros s) x (user s) (trace s).
Definition with_user (x : U) (s : node) : node :=
  mk (blog s) (objects s) (next s) (coros s) (world s) x (trace s).
Definition note (x : obs) (s : node) : node :=
  mk (blog s) (objects s) (next s) (coros s) (world s) (user s) (trace s ++ [x]).

(** ** Steps: code that changes the node and can fail *)
Definition M (A : Type) : Type := node → res (node * A).
#[local] Instance M_ret : MRet M := λ A a s, Ok (s, a).
#[local] Instance M_bind : MBind M := λ A B f m s, '(s, a) ← m s; f a s.

Definition fail {A} : M A := λ _, AssertFail.
Definition throw {A} : M A := λ _, Thrown.
Definition undefined {A} : M A := λ _, UB.
Definition check (b : bool) : M unit := λ s, if b then Ok (s, ()) else AssertFail.
Definition lift {A} (r : res A) : M A := λ s, a ← r; Ok (s, a).
Definition gets {A} (f : node → A) : M A := λ s, Ok (s, f s).
Definition modify (f : node → node) : M unit := λ s, Ok (f s, ()).

(** the three ways through a function of the perimeter *)
Definition by_mode {A} (recording replaying plain : M A) : M A := λ s,
  match BinLog.mode_ (blog s) with
  | BinLog.recording => recording s
  | BinLog.replaying => replaying s
  | BinLog.not_using => plain s
  end.
(** [NODECPP_ASSERT( ..., false, "must be implemented as a part of main replaying loop" )] *)
Definition not_in_replay : M unit := by_mode (mret ()) fail (mret ()).

(** ** Objects and their addresses *)
Definition live_addresses (s : node) : list Z := (map_to_list (objects s)).*2.*1.

Definition create (x : object) : M nat := λ s,
  let o := next s in
  Ok (with_next (S o) (with_objects (<[o := (alloc p (live_addresses s), x)]> (objects s)) s), o).
Definition remove (o : nat) : M unit := modify (λ s, with_objects (delete o (objects s)) s).

(** [this] of an object, and the object: gone, it is a dangling reference *)
Definition lookup_object (o : nat) : M (Z * object) := λ s,
  match objects s !! o with Some x => Ok (s, x) | None => UB end.
Definition this (o : nat) : M Z := x ← lookup_object o; mret x.1.
Definition get (o : nat) : M sock :=
  x ← lookup_object o; match x.2 with Client d => mret d | Srv _ => undefined end.
Definition get_server (o : nat) : M server :=
  x ← lookup_object o; match x.2 with Srv d => mret d | Client _ => undefined end.
Definition this_socket (o : nat) : M Z := _ ← get o; this o.
Definition this_server (o : nat) : M Z := _ ← get_server o; this o.
Definition put (o : nat) (d : sock) : M unit :=
  x ← lookup_object o; modify (λ s, with_objects (<[o := (x.1, Client d)]> (objects s)) s).
Definition put_server (o : nat) (d : server) : M unit :=
  x ← lookup_object o; modify (λ s, with_objects (<[o := (x.1, Srv d)]> (objects s)) s).
Definition update (f : sock → sock) (o : nat) : M unit := d ← get o; put o (f d).
Definition update_server (f : server → server) (o : nat) : M unit := d ← get_server o; put_server o (f d).

(** the object behind an address that is used as a pointer to a socket or a server *)
Definition at_address (a : Z) : M nat := λ s,
  match list_find (λ x : nat * (Z * object), x.2.1 = a) (map_to_list (objects s)) with
  | Some (_, (o, _)) => Ok (s, o)
  | None => UB
  end.
Definition socket_at (a : Z) : M nat := o ← at_address a; _ ← get o; mret o.
Definition server_at (a : Z) : M nat := o ← at_address a; _ ← get_server o; mret o.

(** ** The log *)
Definition on_log {A} (f : BinLog.t → res (BinLog.t * A)) : M A := λ s,
  '(l, a) ← f (blog s); Ok (with_blog l s, a).
Definition add_frame (ty : FrameType) (data : option (list u8)) : M unit :=
  on_log (λ l, l ← BinLog.addFrame (code ty) data l; Ok (l, ())).
Definition add_frame_parts (ty : FrameType) (d1 d2 : list u8) : M unit :=
  on_log (λ l,
    l ← BinLog.startAddingFrame (code ty) d1 l;
    l ← BinLog.continueAddingFrame d2 l;
    l ← BinLog.addingFrameDone l;
    Ok (l, ())).
Definition read_frame : M BinLog.FrameData := on_log BinLog.readNextFrame.
Definition map_pointer (a : Z) : M Z := on_log (λ l, a ← BinLog.mapPointer a l; Ok (l, a)).
Definition add_mapping (old new : Z) : M unit :=
  on_log (λ l, l ← BinLog.addPointerMapping old new l; Ok (l, ())).

(** [frame.type == ...] *)
Definition has_type (fd : BinLog.FrameData) (ty : FrameType) : bool := bool_decide (fd.1 = code ty).

(** frames with a [SocketEvent] for a socket or a server, while recording *)
Definition if_recording (m : M unit) : M unit := by_mode m (mret ()) (mret ()).
Definition add_event (ty : FrameType) (o : nat) : M unit := a ← this_socket o; add_frame ty (Some (SocketEvent a)).
Definition add_server_event (ty : FrameType) (o : nat) : M unit := a ← this_server o; add_frame ty (Some (SocketEvent a)).

(** ** The user's code *)

(** Coroutines: [initCoroData], [setCoroException], [isCoroException],
    [getCoroException], [getCoroStatus] *)
Definition coro_data (h : nat) (s : node) : CoroEData := default (mkCoro false false) (coros s !! h).
Definition initCoroData (h : nat) : M unit :=
  modify (λ s, with_coros (<[h := mkCoro (is_exception (coro_data h s)) false]> (coros s)) s).
Definition setCoroException (h : nat) : M unit :=
  modify (λ s, with_coros (<[h := mkCoro true (is_timeout (coro_data h s))]> (coros s)) s).
Definition setCoroStatus (h : nat) (timeout : bool) : M unit :=
  modify (λ s, with_coros (<[h := mkCoro (is_exception (coro_data h s)) timeout]> (coros s)) s).
(** the handle must be that of a coroutine *)
Definition handle (h : option nat) : M nat := match h with Some h => mret h | None => undefined end.
Definition isCoroException (h : option nat) : M bool := h ← handle h; gets (λ s, is_exception (coro_data h s)).
Definition isCoroTimeout (h : option nat) : M bool := h ← handle h; gets (λ s, is_timeout (coro_data h s)).
(** [throw getCoroException( h )] *)
Definition throw_coro (h : option nat) : M answer := b ← isCoroException h; _ ← check b; mret AException.
(** [h != nullptr && isCoroException( h )] *)
Definition has_exception (h : option nat) : M bool :=
  match h with Some _ => isCoroException h | None => mret false end.
Definition has_timeout (h : option nat) : M bool :=
  match h with Some _ => isCoroTimeout h | None => mret false end.

(** [setTimeoutForAction] and [clearTimeout] use the node's [timeoutManager],
    which a replaying process does not have; the timers are those of Timers.v. *)
Definition use_timers : M unit := by_mode (mret ()) undefined (mret ()).
Definition if_limited (limit : bool) (m : M unit) : M unit := if limit then m else mret ().

Definition env {A} (f : W → W * A) : M A := λ s, let '(w, x) := f (world s) in Ok (with_world w s, x).

(** ** Registering *)

(** [NodeReplayer::registerAndAssignSocket]; [osSocket] is assigned twice, [index] not at all *)
Definition replay_registerAndAssignSocket (o : nat) : M unit :=
  by_mode fail
    (fd ← read_frame;
     if has_type fd sock_register_2 then
       ty ← lift (field 0 4 fd.2);
       _ ← check (bool_decide (ty = object_code ClientSocket));
       old ← lift (field 16 8 fd.2);
       new ← this o;
       _ ← add_mapping old new;
       index ← lift (field 8 8 fd.2);
       _ ← update (set_osSocket index) o;
       socket ← lift (field 32 8 fd.2);
       update (set_osSocket socket) o
     else fail)
    fail.

(** the constructor of [NetSocketEntry] for a socket *)
Definition NetSocketEntry (i : Z) (o : nat) : M unit :=
  d ← get o;
  _ ← if_recording
    (a ← this o;
     add_frame sock_register_2
       (Some (ServerOrSocketRegisterFrameData (padding p) ClientSocket i a (a + socket_dfcp) (osSocket d))));
  _ ← put o (set_index i d);
  check (bool_decide (0 < osSocket d)%Z).

Definition registerAndAssignSocket (o : nat) (sk : Z) : M unit :=
  d ← get o;
  _ ← check (bool_decide (state d = Tcp.Uninitialized));
  _ ← put o (set_osSocket (u64 sk) d);
  i ← env env_add_entry;
  NetSocketEntry (u64 i) o.

Definition appAcquireSocket (o : nat) : M unit :=
  r ← env env_make_socket;
  match r with Some sk => registerAndAssignSocket o sk | None => throw end.

Definition registerWithInfraAndAcquireSocket (o : nat) : M unit :=
  by_mode (appAcquireSocket o) (replay_registerAndAssignSocket o) (appAcquireSocket o).
Definition registerWithInfraAndAssignSocket (o : nat) (sk : Z) : M unit :=
  by_mode (registerAndAssignSocket o sk) (replay_registerAndAssignSocket o) (registerAndAssignSocket o sk).

(** [NodeReplayer::appAddServer] *)
Definition replay_appAddServer (o : nat) : M unit :=
  by_mode (mret ())
    (fd ← read_frame;
     if has_type fd server_register_2 then
       ty ← lift (field 0 4 fd.2);
       _ ← check (bool_decide (ty = object_code ServerSocket));
       new ← this o;
       old ← lift (field 16 8 fd.2);
       _ ← add_mapping old new;
       oldData ← lift (field 24 8 fd.2);
       _ ← add_mapping oldData (new + server_dfcp);
       socket ← lift (field 32 8 fd.2);
       index ← lift (field 8 8 fd.2);
       update_server (sset_entry index socket) o
     else fail)
    (mret ()).

(** [NetServerManagerBase::appAddServer] with the constructor of [NetSocketEntry] *)
Definition appAddServer (o : nat) : M unit :=
  _ ← not_in_replay;
  r ← env env_make_socket;
  match r with
  | None => throw
  | Some sk =>
      d ← get_server o;
      _ ← put_server o (sset_entry (sindex d) (u64 sk) d);
      i ← env env_add_entry;
      _ ← if_recording
        (a ← this o;
         add_frame server_register_2
           (Some (ServerOrSocketRegisterFrameData (padding p) ServerSocket (u64 i) a (a + server_dfcp) (u64 sk))));
      _ ← put_server o (sset_entry (u64 i) (u64 sk) d);
      check (bool_decide (0 < u64 sk)%Z)
  end.

Definition registerServer (o : nat) : M unit :=
  by_mode (appAddServer o) (replay_appAddServer o) (appAddServer o).

(** ** Connecting and listening *)
Definition INVALID_SOCKET (sk : Z) : bool := bool_decide (u32 sk = 2 ^ 32 - 1)%Z.

(** [NodeReplayer::appConnectSocket] *)
Definition replay_appConnectSocket (o : nat) : M unit :=
  d ← get o;
  _ ← check (negb (INVALID_SOCKET (osSocket d)));
  _ ← check (bool_decide (state d = Tcp.Uninitialized));
  fd ← read_frame;
  _ ← check (has_type fd sock_connect);
  update (set_refed true ∘ set_state Tcp.Connecting) o.

Definition appConnectSocket (o : nat) (ip : string) (port : Z) : M unit :=
  d ← get o;
  _ ← check (negb (INVALID_SOCKET (osSocket d)));
  _ ← check (bool_decide (state d = Tcp.Uninitialized));
  let os_connect := (b ← env (env_connect (osSocket d) ip port); if (b : bool) then mret () else throw) in
  _ ← by_mode
    (_ ← os_connect; add_frame sock_connect None)
    (fd ← read_frame; check (has_type fd sock_connect))
    os_connect;
  update (set_refed true ∘ set_state Tcp.Connecting) o.

Definition connectSocket (o : nat) (ip : string) (port : Z) : M unit :=
  by_mode (appConnectSocket o ip port) (replay_appConnectSocket o) (appConnectSocket o ip port).

Definition listen_address (ip : Ip.Ip4) (port : Z) : Server.Address :=
  Server.mkAddress port (Ip.family_of (HttpMessage.Str.str "IPv4")) ip.

(** [NodeReplayer::appListen]: address and port are those the user asks for *)
Definition replay_appListen (ip : Ip.Ip4) (port : Z) : M unit :=
  _ ← by_mode fail (mret ()) fail;
  fd ← read_frame;
  _ ← check (has_type fd server_listen);
  old ← lift (get_ptr fd.2);
  dfcp ← map_pointer old;
  o ← server_at (dfcp - server_dfcp);
  d ← get_server o;
  _ ← put_server o (sset_address true (listen_address ip port) d);
  check (bool_decide (sindex d ≠ 0%Z)).

Definition rrProcessListen (o : nat) (ip : Ip.Ip4) (port backlog : Z) : M unit :=
  _ ← not_in_replay;
  _ ← if_recording
    (a ← this o;
     add_frame server_listen (Some (ServerListen (padding p) (a + server_dfcp) ip port backlog)));
  d ← get_server o;
  _ ← put_server o (sset_address true (listen_address ip port) d);
  check (bool_decide (sindex d ≠ 0%Z)).

Definition appListen (o : nat) (ip : Ip.Ip4) (port backlog : Z) : M unit :=
  let listens :=
    (d ← get_server o;
     bound ← env (env_bind (sosSocket d) ip (Ip.Port_fromHost port));
     if negb bound then throw
     else
       port ← (if bool_decide (port = 0%Z) then
                 p ← env (env_port (sosSocket d));
                 if bool_decide (p = 0%Z) then throw else mret p
               else mret port);
       ok ← env (env_listen (sosSocket d) backlog);
       if negb ok then throw else rrProcessListen o ip port backlog) in
  by_mode listens (replay_appListen ip port) listens.

(** [closingProcedure]: of [appClose] and [appReportAllAceptedConnectionsEnded] nothing concerns
    the objects, in a replay they return at once *)
Definition closingProcedure (o : nat) : M unit := update_server (sset_state Server.BeingClosed) o.

Definition is_closing (d : sock) : bool :=
  bool_decide (state d = Tcp.Closing ∨ state d = Tcp.ErrorClosing ∨ state d = Tcp.Closed).

(** [OSLayer::closeSocket] and [OSLayer::errorCloseSocket] need the manager, which a replay does not have *)
Definition os_closeSocket (closing : Tcp.State) (o : nat) : M unit :=
  d ← get o;
  if is_closing d then mret ()
  else _ ← put o (set_state closing d); by_mode (mret ()) fail (mret ()).

Definition appDestroy (o : nat) : M unit :=
  d ← get o;
  if bool_decide (state d = Tcp.Uninitialized) then throw else os_closeSocket Tcp.Closing o.

(** ** Awaits *)

(** [await_ready] of a read, a write or a drain *)
Definition await_ready (test : M bool) : M bool :=
  by_mode
    (ret ← test; _ ← add_frame coro_await_ready_res (Some (put_bool ret)); mret ret)
    (fd ← read_frame; _ ← check (has_type fd coro_await_ready_res); lift (get_bool 0 fd.2))
    test.

(** [await_resume] that reports an exception or nothing, recording and replaying *)
Definition resume_recording (ok except : FrameType) (h : option nat) : M answer :=
  e ← isCoroException h;
  if (e : bool) then _ ← add_frame except None; mret AException
  else _ ← add_frame ok None; mret ADone.
Definition resume_replaying (ok except : FrameType) (h : option nat) : M answer :=
  fd ← read_frame;
  if has_type fd except then throw_coro h
  else if has_type fd ok then mret ADone
  else fail.
Definition resume_plain (h : option nat) : M answer :=
  e ← has_exception h; if (e : bool) then mret AException else mret ADone.

(** ... and with a time limit; [timeout] is the frame type recorded, [timeout'] the
    one a replay expects *)
Definition resume_limited_recording (ok except timeout : FrameType) (h : option nat) : M answer :=
  e ← isCoroException h;
  if (e : bool) then _ ← add_frame except None; mret AException
  else
    t ← has_timeout h;
    if (t : bool) then _ ← add_frame timeout None; mret ATimeout
    else _ ← add_frame ok None; mret ADone.
Definition resume_limited_replaying (ok except timeout' : FrameType) (h : option nat) : M answer :=
  fd ← read_frame;
  if has_type fd except then throw_coro h
  else if has_type fd timeout' then mret ATimeout
  else if has_type fd ok then mret ADone
  else fail.
Definition resume_limited_plain (not_null : bool) (h : option nat) : M answer :=
  _ ← use_timers;
  _ ← check (negb not_null || bool_decide (h ≠ None));
  e ← has_exception h;
  if (e : bool) then mret AException
  else t ← has_timeout h; if (t : bool) then mret ATimeout else mret ADone.

(** *** Sockets *)
Definition await_connect (limit : bool) (o h : nat) : M answer :=
  _ ← initCoroData h;
  _ ← update (set_connect (Some h)) o;
  _ ← if_limited limit use_timers;
  mret ADone.
Definition resume_connect (limit : bool) (h : option nat) : M answer :=
  if limit then
    by_mode (resume_limited_recording sock_connect_crh_ok sock_connect_crh_except sock_connect_crh_timeout h)
            (resume_limited_replaying sock_connect_crh_ok sock_connect_crh_except sock_connect_crh_timeout h)
            (resume_limited_plain true h)
  else
    _ ← check (bool_decide (h ≠ None));
    by_mode (resume_recording sock_connect_crh_ok sock_connect_crh_except h)
            (resume_replaying sock_connect_crh_ok sock_connect_crh_except h)
            (resume_plain h).

Definition has_data (o min_bytes : nat) : M bool :=
  d ← get o; mret (bool_decide (min_bytes ≤ length (readBuffer d))).
Definition suspend_read (o min_bytes h : nat) : M unit :=
  _ ← initCoroData h; update (set_read (Some h) min_bytes) o.
Definition await_read (limit : bool) (o min_bytes h : nat) : M answer :=
  ready ← await_ready (has_data o min_bytes);
  if (ready : bool) then mret (ABool true)
  else _ ← suspend_read o min_bytes h; _ ← if_limited limit use_timers; mret (ABool false).

(** [readBuffer.get_ready_data( buff, max_bytes )] *)
Definition get_ready_data (o max_bytes : nat) : M (list u8) :=
  d ← get o;
  _ ← put o (set_readBuffer (drop max_bytes (readBuffer d)) d);
  mret (take max_bytes (readBuffer d)).
Definition resume_read (limit : bool) (o min_bytes max_bytes : nat) (h : option nat) : M answer :=
  _ ← if_limited limit use_timers;
  let take_data (record : list u8 → M unit) :=
    (buff ← get_ready_data o max_bytes;
     _ ← record buff;
     _ ← check (bool_decide (min_bytes ≤ length buff));
     mret (AData (Some <$> buff))) in
  by_mode
    (e ← has_exception h;
     if (e : bool) then _ ← add_frame sock_read_crh_except None; mret AException
     else
       t ← (if limit then has_timeout h else mret false);
       if (t : bool) then _ ← add_frame sock_read_crh_timeout None; mret ATimeout
       else take_data (λ buff, add_frame sock_read_crh_ok (Some buff)))
    (fd ← read_frame;
     if has_type fd sock_read_crh_except then throw_coro h
     else if limit && has_type fd sock_read_crh_timeout then mret ATimeout
     else if has_type fd sock_read_crh_ok then
       _ ← check (bool_decide (min_bytes ≤ length fd.2));
       mret (AData fd.2)
     else fail)
    (e ← has_exception h;
     if (e : bool) then mret AException
     else
       t ← (if limit then has_timeout h else mret false);
       if (t : bool) then mret ATimeout else take_data (λ _, mret ())).

(** [a_someDataAvailable] *)
Definition await_data (o h : nat) : M answer :=
  ready ← await_ready (has_data o 1);
  if (ready : bool) then mret (ABool true) else _ ← suspend_read o 1 h; mret (ABool false).
Definition resume_data (o : nat) (h : option nat) : M answer :=
  by_mode
    (e ← has_exception h;
     if (e : bool) then _ ← add_frame http_sock_read_data_crh_except None; mret AException
     else
       ret ← has_data o 1;
       _ ← add_frame coro_await_ready_res (Some (put_bool ret));
       mret ADone)
    (fd ← read_frame;
     if has_type fd http_sock_read_data_crh_except then throw_coro h
     else if has_type fd http_sock_read_data_crh_ok then
       fd ← read_frame;
       _ ← check (has_type fd coro_await_ready_res);
       mret ADone
     else fail)
    (resume_plain h).

(** [SocketBase::write2] *)
Definition write2 (o : nat) (data : list u8) : M bool :=
  d ← get o;
  if bool_decide (state d = Tcp.Uninitialized) then throw
  else
    e ← has_exception (ahd_write_h d);
    _ ← check (negb e);
    if bool_decide (state d = Tcp.LocalEnding ∨ state d = Tcp.LocalEnded) then
      _ ← os_closeSocket Tcp.ErrorClosing o; mret false
    else
      '(write_ok, broken, empty) ← env (env_write2 o data);
      _ ← (if (broken : bool) then os_closeSocket Tcp.ErrorClosing o else mret ());
      _ ← update (set_written empty) o;
      mret write_ok.
Definition await_write (o : nat) (data : list u8) (h : nat) : M answer :=
  ready ← await_ready (write2 o data);
  if (ready : bool) then mret (ABool true)
  else
    _ ← initCoroData h;
    _ ← update (set_write (Some h)) o;
    mret (ABool false).

Definition await_drain (limit : bool) (o h : nat) : M answer :=
  ready ← await_ready (d ← get o; mret (writeBuffer_empty d));
  if (ready : bool) then mret (ABool true)
  else
    d ← get o;
    _ ← check (negb (writeBuffer_empty d));
    _ ← initCoroData h;
    _ ← put o (set_drain (Some h) d);
    _ ← if_limited limit use_timers;
    mret (ABool false).
Definition resume_drain (limit : bool) (h : option nat) : M answer :=
  if limit then
    by_mode (resume_limited_recording sock_drain_crh_ok sock_drain_crh_except sock_drain_event_crh_timeout h)
            (resume_limited_replaying sock_drain_crh_ok sock_drain_crh_except sock_drain_crh_timeout h)
            (resume_limited_plain false h)
  else
    by_mode (resume_recording sock_drain_crh_ok sock_drain_crh_except h)
            (resume_replaying sock_drain_crh_ok sock_drain_crh_except h)
            (resume_plain h).

(** *** Servers *)
Definition await_listen (o h : nat) : M answer :=
  _ ← initCoroData h; _ ← update_server (sset_listen (Some h)) o; mret ADone.
Definition resume_listen (h : option nat) : M answer :=
  by_mode (resume_recording server_listen_crh_ok server_listen_crh_except h)
          (resume_replaying server_listen_crh_ok server_listen_crh_except h)
          (_ ← check (bool_decide (h ≠ None)); resume_plain h).

Definition await_connection (limit : bool) (o h : nat) : M answer :=
  _ ← initCoroData h;
  d ← get_server o;
  _ ← put_server o (sset_connection (Some h) (ahd_connection_sock d) d);
  _ ← if_limited limit use_timers;
  mret ADone.
Definition connection_sock (o : nat) : M answer := d ← get_server o; mret (AMaybe (ahd_connection_sock d)).
(** the frame has the first bytes of the object of the socket where its address was meant *)
Definition resume_connection (limit : bool) (o : nat) (h : option nat) : M answer :=
  _ ← if_limited limit use_timers;
  by_mode
    (_ ← check (bool_decide (h ≠ None));
     e ← isCoroException h;
     if (e : bool) then _ ← add_frame server_conn_crh_except None; mret AException
     else
       t ← (if limit then has_timeout h else mret false);
       if (t : bool) then _ ← add_frame server_conn_crh_timeout None; mret ATimeout
       else
         d ← get_server o;
         match ahd_connection_sock d with
         | None => fail
         | Some n =>
             word ← gets (λ s, env_first_word n (world s));
             _ ← add_frame server_conn_crh_ok (Some (le_split 8 word));
             connection_sock o
         end)
    (fd ← read_frame;
     if has_type fd server_conn_crh_except then throw_coro h
     else if limit && has_type fd server_conn_crh_timeout then mret ATimeout
     else if has_type fd server_conn_crh_ok then connection_sock o
     else fail)
    (_ ← check (bool_decide (h ≠ None));
     e ← isCoroException h;
     if (e : bool) then mret AException
     else
       t ← (if limit then has_timeout h else mret false);
       if (t : bool) then mret ATimeout else connection_sock o).

Definition await_close (limit : bool) (o h : nat) : M answer :=
  _ ← initCoroData h;
  _ ← update_server (sset_close (Some h)) o;
  _ ← if_limited limit use_timers;
  mret ADone.
Definition resume_close (limit : bool) (h : option nat) : M answer :=
  if limit then
    by_mode (resume_limited_recording server_close_crh_ok server_close_crh_except server_close_crh_timeout h)
            (resume_limited_replaying server_close_crh_ok server_close_crh_except server_close_crh_timeout h)
            (resume_limited_plain true h)
  else
    by_mode (resume_recording server_close_crh_ok server_close_crh_except h)
            (resume_replaying server_close_crh_ok server_close_crh_except h)
            (_ ← check (bool_decide (h ≠ None)); resume_plain h).

(** ** One call, and the code of one event *)
Definition run_call (c : call) : M answer :=
  match c with
  | CNewSocket => o ← create (Client (new_sock None)); _ ← registerWithInfraAndAcquireSocket o; mret (AObject o)
  | CNewServer => o ← create (Srv new_server); _ ← registerServer o; mret (AObject o)
  | CConnect o ip port => _ ← connectSocket o ip port; mret ADone
  | CListen o ip port backlog => _ ← appListen o ip (u16 port) backlog; mret ADone
  | CListening o => d ← get_server o; mret (ABool (bool_decide (sstate d = Server.Listening)))
  | CCloseServer o => _ ← closingProcedure o; mret ADone
  | CDestroy o => _ ← appDestroy o; mret ADone
  | CAwaitConnect limit o h => await_connect limit o h
  | CResumeConnect limit h => resume_connect limit h
  | CAwaitRead limit o min_bytes h => await_read limit o min_bytes h
  | CResumeRead limit o min_bytes max_bytes h => resume_read limit o min_bytes max_bytes h
  | CAwaitData o h => await_data o h
  | CResumeData o h => resume_data o h
  | CAwaitWrite o data h => await_write o data h
  | CResumeWrite h => resume_plain h
  | CAwaitDrain limit o h => await_drain limit o h
  | CResumeDrain limit h => resume_drain limit h
  | CAwaitListen o h => await_listen o h
  | CResumeListen h => resume_listen h
  | CAwaitConnection limit o h => await_connection limit o h
  | CResumeConnection limit o h => resume_connection limit o h
  | CAwaitClose limit o h => await_close limit o h
  | CResumeClose limit h => resume_close limit h
  end.

Fixpoint run_prog (q : prog U) : M unit :=
  match q with
  | Done u => modify (with_user u)
  | Call c k => a ← run_call c; _ ← modify (note (Got c a)); run_prog (k a)
  end.

(** [emit...] and the user handler of the same name, or the resumption of a coroutine *)
Definition emit (ev : Event) : M unit :=
  _ ← modify (note (Saw ev));
  u ← gets user;
  run_prog (react u ev).
Definition resume (h : nat) : M unit := emit (EvResumed h).

(** ** What an event does, the same in both modes *)

Definition deliver_accepted (o : nat) : M unit :=
  d ← get o;
  match ahd_accepted d with
  | Some h => _ ← put o (set_accepted None d); resume h
  | None => emit (EvAccepted o)
  end.

(** a coroutine that waited for the connection, for data, or for the buffer to be written *)
Definition wake_connect (o h : nat) : M unit := _ ← update (set_connect None) o; resume h.
Definition wake_drain (o h : nat) : M unit := _ ← update (set_drain None) o; resume h.
Definition clear_read (o : nat) : M unit := d ← get o; put o (set_read None (ahd_read_min_bytes d) d).
Definition wake_read (o h : nat) : M unit := _ ← clear_read o; resume h.
Definition fail_read (o h : nat) : M unit := _ ← clear_read o; _ ← setCoroException h; resume h.

Definition deliver_end (o : nat) : M unit := _ ← update (set_remoteEnded true) o; emit (EvEnd o).

(** [forceReleasingAllCoroHandles] of a socket, one handle at a time *)
Definition release (field : sock → option nat) (clear : sock → sock) (o : nat) : M unit :=
  d ← get o;
  match field d with
  | Some h => _ ← setCoroException h; _ ← put o (clear d); resume h
  | None => mret ()
  end.
Definition forceReleasingAllCoroHandles (o : nat) : M unit :=
  _ ← release ahd_accepted (set_accepted None) o;
  _ ← release ahd_connect (set_connect None) o;
  _ ← release ahd_read_h (λ d, set_read None (ahd_read_min_bytes d) d) o;
  _ ← release ahd_write_h (set_write None) o;
  release ahd_drain (set_drain None) o.

(** [removeSocket] of the server: the socket is deleted *)
Definition removeSocket (sv o : nat) : M unit :=
  d ← get_server sv;
  l ← lift (MultiOwner.removeAndDelete (Some o) (socketList d));
  _ ← put_server sv (sset_list l d);
  remove o.
Definition onFinalCleanup (o : nat) : M unit :=
  _ ← forceReleasingAllCoroHandles o;
  d ← get o;
  match myServerSocket d with
  | Some sv => removeSocket sv o
  | None => mret ()
  end.

(** the close event of a socket that is in use, after it was recorded or read *)
Definition deliver_close (err : bool) (o : nat) : M unit :=
  _ ← (if err then emit (EvError o) else mret ());
  _ ← emit (EvClose o err);
  _ ← update (set_state Tcp.Closed) o;
  onFinalCleanup o.

(** Servers *)
Definition wake_listening (o h : nat) : M unit := _ ← update_server (sset_listen None) o; resume h.
Definition deliver_listening (o : nat) : M unit :=
  d ← get_server o; emit (EvListening o (sindex d) (localAddress d)).

Definition wake_connection (o sk h : nat) : M unit :=
  _ ← update_server (sset_connection None (Some sk)) o; resume h.

Definition release_server (field : server → option nat) (clear : server → server) (o : nat) : M unit :=
  d ← get_server o;
  match field d with
  | Some h => _ ← setCoroException h; _ ← put_server o (clear d); resume h
  | None => mret ()
  end.
Definition internalCleanupBeforeClosing (o : nat) : M unit :=
  d ← get_server o;
  _ ← check (bool_decide (MultiOwner.getCount (socketList d) = 0));
  _ ← put_server o (sset_state Server.Closed d);
  _ ← release_server ahd_listen (sset_listen None) o;
  release_server ahd_connection_h (λ d, sset_connection None (ahd_connection_sock d) d) o.

Definition wake_close (err : bool) (o h : nat) : M unit :=
  _ ← update_server (sset_close None) o;
  _ ← (if err then setCoroException h else mret ());
  resume h.

(** [makeSocket]: the server's new socket is registered and added to its list *)
Definition makeSocket (sv : nat) (sk : Z) : M nat :=
  o ← create (Client (new_sock (Some sv)));
  _ ← registerWithInfraAndAssignSocket o sk;
  d ← get_server sv;
  '(l, _) ← lift (MultiOwner.add (Some o) (socketList d));
  _ ← put_server sv (sset_list l d);
  mret o.

(** [infraAddAccepted] of the manager and of the replayer, but for the table *)
Definition infraAddAccepted (o : nat) : M unit :=
  _ ← update (set_state Tcp.Connected) o;
  d ← get o;
  _ ← check (writeBuffer_empty d);
  _ ← put o (set_refed true d);
  check (negb (remoteEnded d)).

(** ** The perimeter *)
Definition rrOnAccepted (o : nat) : M unit :=
  _ ← by_mode (add_event sock_accepted o) fail (mret ());
  deliver_accepted o.

Definition rrOnRemoteEnded (o : nat) : M unit :=
  _ ← not_in_replay;
  _ ← if_recording (add_event sock_remote_ended_call o);
  deliver_end o.

Definition rrOnReadHandler (o : nat) (recvBuffer : list u8) : M unit :=
  _ ← if_recording (a ← this_socket o; add_frame_parts sock_read_event_call (SocketEvent a) recvBuffer);
  emit (EvData o (Some <$> recvBuffer)).

(** the state recorded is not the one set *)
Definition rrUpdateState (x : Tcp.State) (o : nat) : M unit :=
  _ ← if_recording (a ← this_socket o; add_frame sock_update_state (Some (SocketUpdateState (padding p) a Tcp.LocalEnding)));
  update (set_state x) o.

(** the pointer recorded is that of [dataForCommandProcessing] *)
Definition add_data_event (ty : FrameType) (o : nat) : M unit :=
  a ← this_socket o; add_frame ty (Some (SocketEvent (a + socket_dfcp))).

Definition rrOnConnected (o : nat) : M unit :=
  _ ← not_in_replay;
  d ← get o;
  match ahd_connect d with
  | Some h => _ ← if_recording (add_data_event sock_connect_event_crh o); wake_connect o h
  | None => _ ← if_recording (add_data_event sock_connect_event_call o); emit (EvConnect o)
  end.

Definition rrOnDrain (o : nat) : M unit :=
  _ ← not_in_replay;
  d ← get o;
  match ahd_drain d with
  | Some h => _ ← if_recording (add_data_event sock_drain_event_crh o); wake_drain o h
  | None => _ ← if_recording (add_data_event sock_drain_event_call o); emit (EvDrain o)
  end.

(** [closeSocket] and [errorCloseSocket] of the manager *)
Definition closing (x : Tcp.State) (ty : FrameType) (o : nat) : M unit :=
  d ← get o;
  if is_closing d then mret ()
  else
    _ ← put o (set_state x d);
    by_mode (add_event ty o) (fd ← read_frame; check (has_type fd ty)) (mret ()).
Definition closeSocket : nat → M unit := closing Tcp.Closing sock_closing.
Definition errorCloseSocket : nat → M unit := closing Tcp.ErrorClosing sock_error_preclosing.

Definition infraProcessRemoteEnded (o : nat) : M unit :=
  _ ← not_in_replay;
  d ← get o;
  if remoteEnded d then mret ()
  else
    _ ← rrOnRemoteEnded o;
    d ← get o;
    if bool_decide (state d = Tcp.LocalEnded) then closeSocket o
    else if negb (allowHalfOpen d) && bool_decide (state d ≠ Tcp.LocalEnding) then
      if negb (writeBuffer_empty d) then rrUpdateState Tcp.LocalEnding o
      else _ ← rrUpdateState Tcp.LocalEnded o; closeSocket o
    else mret ().

(** [received] and [read_ok] are what the system gave: bytes, none when the peer has ended *)
Definition infraProcessReadEvent (received : list u8) (read_ok : bool) (o : nat) : M unit :=
  _ ← not_in_replay;
  d ← get o;
  match ahd_read_h d with
  | Some h =>
      _ ← put o (set_readBuffer (readBuffer d ++ received) d);
      if negb read_ok then
        _ ← if_recording (add_event sock_read_failed_event_crh o);
        _ ← errorCloseSocket o;
        fail_read o h
      else if bool_decide (ahd_read_min_bytes d ≤ length (readBuffer d ++ received)) then
        _ ← if_recording (add_event sock_read_event_crh o);
        wake_read o h
      else if bool_decide (received ≠ []) then mret ()
      else
        _ ← if_recording (add_event sock_read_failed_event_crh o);
        _ ← fail_read o h;
        infraProcessRemoteEnded o
  | None =>
      if read_ok then
        if bool_decide (received ≠ []) then rrOnReadHandler o received else infraProcessRemoteEnded o
      else errorCloseSocket o
  end.

(** [_infraProcessWriteEvent] when it reports a connection or the end of the writing *)
Definition connected (o : nat) : M unit := _ ← update (set_state Tcp.Connected) o; rrOnConnected o.
Definition written (o : nat) : M unit :=
  d ← get o;
  _ ← put o (set_written true d);
  _ ← (if bool_decide (state d = Tcp.LocalEnding) then
         if remoteEnded d then os_closeSocket Tcp.Closing o else update (set_state Tcp.LocalEnded) o
       else mret ());
  rrOnDrain o.

(** the body of the loop of [infraGetCloseEvent] *)
Definition close_event (o : nat) : M unit :=
  d ← get o;
  let err := bool_decide (state d = Tcp.ErrorClosing) in
  _ ← by_mode (a ← this_socket o; add_frame sock_error_closing (Some (SocketCloseEvent (padding p) a err true))) fail (mret ());
  deliver_close err o.

Definition rrOnListening (o : nat) : M unit :=
  _ ← not_in_replay;
  _ ← update_server (sset_state Server.Listening) o;
  d ← get_server o;
  match ahd_listen d with
  | Some h => _ ← if_recording (add_server_event server_listening_event_crh o); wake_listening o h
  | None => _ ← if_recording (add_server_event server_listening_event_call o); deliver_listening o
  end.

Definition rrOnClose (isError : bool) (o : nat) : M unit :=
  _ ← not_in_replay;
  d ← get_server o;
  _ ← check (bool_decide (sstate d = Server.BeingClosed));
  _ ← if_recording (add_server_event server_close_event_1 o);
  _ ← internalCleanupBeforeClosing o;
  d ← get_server o;
  let record ty := if_recording (a ← this_server o; add_frame ty (Some (ServerCloseEvent_2 (padding p) a isError))) in
  match ahd_close d with
  | Some h => _ ← record server_close_event_2_crh; wake_close isError o h
  | None => _ ← record server_close_event_2_call; emit (EvServerClose o isError)
  end.

Definition consumeAcceptedSocket (sv : nat) (sk : Z) (remoteIp : Ip.Ip4) (remotePort : Ip.Port) : M unit :=
  _ ← not_in_replay;
  _ ← if_recording (a ← this_server sv; add_frame_parts server_make_socket_input (SocketEvent a) (le_split 4 sk));
  o ← makeSocket sv sk;
  _ ← if_recording
    (a ← this_socket o; add_frame server_make_socket_output (Some (ServerMakeSocketOutput (padding p) a remoteIp remotePort)));
  _ ← infraAddAccepted o;
  _ ← update (set_remote (remoteIp, Ip.Port_getHost remotePort)) o;
  d ← get_server sv;
  let record ty := if_recording (a ← this_server sv; b ← this_socket o; add_frame ty (Some (serverConsumeSocket a b))) in
  match ahd_connection_h d with
  | Some h => _ ← record server_consume_socket_event_crh; wake_connection sv o h
  | None => _ ← record server_consume_socket_event_call; emit (EvConnection sv o)
  end.

Definition infraMakeErrorEventAndClose (o : nat) : M unit :=
  _ ← not_in_replay;
  _ ← if_recording (add_server_event server_error_event_call o);
  emit (EvServerError o).

(** a wait whose time is up *)
Definition expire (h : nat) : M unit := _ ← setCoroStatus h true; resume h.

(** ** [NodeReplayer] *)

(** the object a frame is about *)
Definition socket_of (ptr : res Z) : M nat := old ← lift ptr; a ← map_pointer old; socket_at a.
Definition server_of (ptr : res Z) : M nat := old ← lift ptr; a ← map_pointer old; server_at a.

(** a coroutine that the loop resumes must be waiting *)
Definition waiting (h : option nat) : M nat := match h with Some h => mret h | None => fail end.

(** [dataForCommandProcessing.state = edata->state] *)
Definition assign_state (data : list cell) (o : nat) : M unit :=
  x ← lift (field 8 4 data);
  match state_of_code x with Some x => update (set_state x) o | None => undefined end.

(** the cases of the [switch] in [runReplayingLoop] *)
Definition loop_sock_error_closing (data : list cell) : M unit :=
  o ← socket_of (get_ptr data);
  err ← lift (get_bool 8 data);
  used ← lift (get_bool 9 data);
  if (used : bool) then deliver_close err o
  else _ ← emit (EvClose o err); onFinalCleanup o.
Definition loop_sock_accepted (data : list cell) : M unit :=
  o ← socket_of (get_ptr data); deliver_accepted o.
Definition loop_sock_read_failed_event_crh (data : list cell) : M unit :=
  o ← socket_of (get_ptr data); d ← get o; h ← waiting (ahd_read_h d); fail_read o h.
Definition loop_sock_read_event_crh (data : list cell) : M unit :=
  o ← socket_of (get_ptr data); d ← get o; h ← waiting (ahd_read_h d); wake_read o h.
Definition loop_sock_read_event_call (data : list cell) : M unit :=
  o ← socket_of (get_ptr data); emit (EvData o (drop 8 data)).
Definition loop_sock_remote_ended_call (data : list cell) : M unit :=
  o ← socket_of (get_ptr data); deliver_end o.
Definition loop_sock_update_state (data : list cell) : M unit :=
  o ← socket_of (get_ptr data); assign_state data o.
Definition loop_sock_closing (data : list cell) : M unit :=
  o ← socket_of (get_ptr data); update (set_state Tcp.Closing) o.
Definition loop_sock_error_preclosing (data : list cell) : M unit :=
  o ← socket_of (get_ptr data); update (set_state Tcp.ErrorClosing) o.
Definition loop_sock_connect_event_crh (data : list cell) : M unit :=
  o ← socket_of (get_ptr data); d ← get o; h ← waiting (ahd_connect d); wake_connect o h.
Definition loop_sock_connect_event_call (data : list cell) : M unit :=
  o ← socket_of (get_ptr data); emit (EvConnect o).
Definition loop_sock_drain_event_crh (data : list cell) : M unit :=
  o ← socket_of (get_ptr data); d ← get o; h ← waiting (ahd_drain d); wake_drain o h.
Definition loop_sock_drain_event_call (data : list cell) : M unit :=
  o ← socket_of (get_ptr data); emit (EvDrain o).
Definition loop_server_close_event_1 (data : list cell) : M unit :=
  o ← server_of (get_ptr data); internalCleanupBeforeClosing o.
Definition loop_server_close_event_2_crh (data : list cell) : M unit :=
  o ← server_of (get_ptr data);
  d ← get_server o;
  h ← waiting (ahd_close d);
  err ← lift (get_bool 8 data);
  wake_close err o h.
Definition loop_server_close_event_2_call (data : list cell) : M unit :=
  o ← server_of (get_ptr data); err ← lift (get_bool 8 data); emit (EvServerClose o err).
Definition loop_server_listening_event_crh (data : list cell) : M unit :=
  o ← server_of (get_ptr data); d ← get_server o; h ← waiting (ahd_listen d); wake_listening o h.
Definition loop_server_listening_event_call (data : list cell) : M unit :=
  o ← server_of (get_ptr data); deliver_listening o.
Definition loop_server_make_socket_input (data : list cell) : M unit :=
  o ← server_of (get_ptr data); _ ← makeSocket o 0; mret ().
Definition loop_server_make_socket_output (data : list cell) : M unit :=
  o ← socket_of (get_ptr data);
  _ ← infraAddAccepted o;
  ip ← lift (field 8 4 data);
  port ← lift (field 12 2 data);
  update (set_remote (ip, Ip.Port_getHost port)) o.
Definition loop_server_consume_socket_event_crh (data : list cell) : M unit :=
  o ← server_of (get_ptr data);
  sk ← socket_of (field 8 8 data);
  d ← get_server o;
  h ← waiting (ahd_connection_h d);
  wake_connection o sk h.
Definition loop_server_consume_socket_event_call (data : list cell) : M unit :=
  o ← server_of (get_ptr data); sk ← socket_of (field 8 8 data); emit (EvConnection o sk).
Definition loop_server_error_event_call (data : list cell) : M unit :=
  o ← server_of (get_ptr data); emit (EvServerError o).

(** one turn of [runReplayingLoop] *)
Definition replay_frame (fd : BinLog.FrameData) : M unit :=
  let data := fd.2 in
  match type_of fd.1 with
  | Some sock_error_closing => loop_sock_error_closing data
  | Some sock_accepted => loop_sock_accepted data
  | Some sock_read_failed_event_crh => loop_sock_read_failed_event_crh data
  | Some sock_read_event_crh => loop_sock_read_event_crh data
  | Some sock_read_event_call => loop_sock_read_event_call data
  | Some sock_remote_ended_call => loop_sock_remote_ended_call data
  | Some sock_update_state => loop_sock_update_state data
  | Some sock_closing => loop_sock_closing data
  | Some sock_error_preclosing => loop_sock_error_preclosing data
  | Some sock_connect_event_crh => loop_sock_connect_event_crh data
  | Some sock_connect_event_call => loop_sock_connect_event_call data
  | Some sock_drain_event_crh => loop_sock_drain_event_crh data
  | Some sock_drain_event_call => loop_sock_drain_event_call data
  | Some server_close_event_1 => loop_server_close_event_1 data
  | Some server_close_event_2_crh => loop_server_close_event_2_crh data
  | Some server_close_event_2_call => loop_server_close_event_2_call data
  | Some server_listening_event_crh => loop_server_listening_event_crh data
  | Some server_listening_event_call => loop_server_listening_event_call data
  | Some server_make_socket_input => loop_server_make_socket_input data
  | Some server_make_socket_output => loop_server_make_socket_output data
  | Some server_consume_socket_event_crh => loop_server_consume_socket_event_crh data
  | Some server_consume_socket_event_call => loop_server_consume_socket_event_call data
  | Some server_error_event_call => loop_server_error_event_call data
  | _ => fail
  end.
Definition replay_step : M unit := fd ← read_frame; replay_frame fd.

(** [for(;;)]: there is no way out of it but a failed assertion *)
Fixpoint runReplayingLoop (fuel : nat) : M unit :=
  match fuel with
  | O => λ _, NoFuel
  | S fuel => _ ← replay_step; runReplayingLoop fuel
  end.
Fixpoint replay_steps (n : nat) : M unit :=
  match n with
  | O => mret ()
  | S n => _ ← replay_step; replay_steps n
  end.

(** ** A run *)

(** what happens to a node that records *)
Inductive happening : Type :=
  | Accepted (o : nat)
  | Readable (o : nat) (received : list u8) (read_ok : bool)
  | RemoteEnded (o : nat)
  | PollError (o : nat)
  | Connects (o : nat)
  | Written (o : nat)
  | CloseEvent (o : nat)
  | Listening (o : nat)
  | ServerCloseEvent (o : nat) (err : bool)
  | Connection (o : nat) (sk : Z) (ip : Ip.Ip4) (port : Ip.Port)
  | ServerError (o : nat)
  | Expires (h : nat).

Definition happens (x : happening) : M unit :=
  match x with
  | Accepted o => rrOnAccepted o
  | Readable o received read_ok => infraProcessReadEvent received read_ok o
  | RemoteEnded o => infraProcessRemoteEnded o
  | PollError o => errorCloseSocket o
  | Connects o => connected o
  | Written o => written o
  | CloseEvent o => close_event o
  | Listening o => rrOnListening o
  | ServerCloseEvent o err => rrOnClose err o
  | Connection o sk ip port => consumeAcceptedSocket o sk ip port
  | ServerError o => infraMakeErrorEventAndClose o
  | Expires h => expire h
  end.
Fixpoint happen_all (xs : list happening) : M unit :=
  match xs with
  | [] => mret ()
  | x :: xs => _ ← happens x; happen_all xs
  end.

Definition initial (u : U) (w : W) : node := mk BinLog.empty_log ∅ 0 ∅ w u [].

(** [internalRun] with [replayMode] recording, up to the time the log is closed; [szExp] is 26
    in the code *)
Definition record_run (allocate : nat → option (list cell)) (szExp : nat) (xs : list happening)
  : M (option (list cell)) :=
  _ ← on_log (λ l, l ← BinLog.initForRecording allocate szExp l; Ok (l, ()));
  _ ← add_frame node_main_call None;
  _ ← emit EvMain;
  _ ← happen_all xs;
  on_log (BinLog.deinit true).

(** [NodeReplayer::run] up to its loop *)
Definition replay_start (allocate : nat → option (list cell)) (file : list cell) : M unit :=
  _ ← on_log (λ l, l ← BinLog.initForReplaying allocate (Some file) l; Ok (l, ()));
  ty ← on_log (λ l, ty ← BinLog.nextFrameType l; Ok (l, ty));
  _ ← check (bool_decide (ty = code node_main_call));
  fd ← read_frame;
  _ ← check (has_type fd node_main_call);
  emit EvMain.
Definition replay_run (allocate : nat → option (list cell)) (file : list cell) (fuel : nat) : M unit :=
  _ ← replay_start allocate file; runReplayingLoop fuel.
End defs.
Arguments node _ _ : clear implicits.
End Replay.
