(* ===== verification/ReplaySpec.v ===== *)
(** * What a replay shows (for Replay.v)

    A process that records and one that replays are compared step by step. [Sim rest s1 s2]
    relates their nodes when the frames [rest] are still to be read; [simulates P m1 m2 R] says
    that whatever [m1] does while recording, [m2] does on the frames [m1] added, and
    [plays P m1 R] the same of the turns of the replaying loop. The rules for these two
    judgements follow the structure of the code, so that the proofs of the
    functions of the perimeter do too. [record_replay] puts them together. *)

From S2P Require Import Prelude.
From S2P Require Import Buffers.
From S2P Require Import Address.
From S2P Require Import TcpSocket.
From S2P Require Import Server.
From S2P Require Import BinLog.
From S2P Require Import Replay.
From Stdlib Require Import Lia.

Module ReplaySpec.
Import Frames Replay.

(** An allocator with room for [n] objects gives memory that no live object uses. *)
Definition allocates `{!Layout} (n : nat) (p : process) : Prop :=
  ∀ l, length l < n → (0 ≤ alloc p l ∧ alloc p l + object_size ≤ 2 ^ 64)%Z ∧
       ∀ a, a ∈ l → (alloc p l + object_size ≤ a ∨ a + object_size ≤ alloc p l)%Z.

(** ** Numbers in payloads *)
Lemma field_mid off n v a b : off = length a → (0 ≤ v < 256 ^ Z.of_nat n)%Z →
  field off n (Some <$> a ++ le_split n v ++ b) = Ok v.
Proof.
  intros -> Hv. unfold field. apply (BinLog.load_int_mid _ n v (Some <$> a) (Some <$> b)); [|by rewrite length_fmap|done].
  by rewrite !fmap_app.
Qed.

Lemma field_mid_mod off n v a b : off = length a →
  field off n (Some <$> a ++ le_split n v ++ b) = Ok (v mod 256 ^ Z.of_nat n)%Z.
Proof.
  intros ->. unfold field, BinLog.load_int.
  rewrite (BinLog.load_mid _ n (Some <$> le_split n v) (Some <$> a) (Some <$> b))
    by (rewrite ?fmap_app, ?length_fmap, ?length_le_split; done).
  cbn [mbind res_bind]. by rewrite mapM_id_Some, le_join_split.
Qed.
Lemma field_head n v b : (0 ≤ v < 256 ^ Z.of_nat n)%Z → field 0 n (Some <$> le_split n v ++ b) = Ok v.
Proof. intros Hv. by apply (field_mid 0 n v []). Qed.

Lemma get_ptr_head v b : (0 ≤ v < 2 ^ 64)%Z → get_ptr (Some <$> le_split 8 v ++ b) = Ok v.
Proof. intros Hv. by apply field_head. Qed.

Lemma put_bool_split b : put_bool b = le_split 1 (if b then 1 else 0).
Proof. by destruct b. Qed.

Lemma get_bool_mid off b x y : off = length x → get_bool off (Some <$> x ++ put_bool b ++ y) = Ok b.
Proof.
  intros Ho. unfold get_bool. rewrite put_bool_split, (field_mid off 1) by (done || by destruct b). by destruct b.
Qed.

Section sim.
Context {U W : Type} {HE : RecEnv W} {HL : Layout}.
Context (p1 p2 : process) (react : U → Event → prog U).
Context (N : nat) (Hp1 : allocates N p1) (Hp2 : allocates N p2).
#[local] Existing Instances M_ret M_bind.
Implicit Types (s : node U W) (o : nat).

(** ** The relation *)

(** [l] has the frames [fs], and there are at most 2^26 bytes of them *)
Definition Recorded (l : BinLog.t) (fs : list BinLog.frame) : Prop :=
  (∃ room, BinLog.Rec l fs room) ∧ (Z.of_nat (BinLog.size l) ≤ 2 ^ 26)%Z ∧ Forall BinLog.frame_ok fs.

(** [rest] is what is left of a log whose last frame has a payload *)
Definition Replays (l : BinLog.t) (rest : list BinLog.frame) : Prop :=
  (∃ dn, BinLog.Rep l dn rest) ∧ Forall BinLog.frame_ok rest ∧ BinLog.readable rest = rest.

(** what a replay keeps of a socket and of a server *)
Record sim_sock (d1 d2 : sock) : Prop := {
  ss_state : state d1 = Tcp.Uninitialized → state d2 = Tcp.Uninitialized;
  ss_osSocket : osSocket d1 = osSocket d2;
  ss_remoteEnded : remoteEnded d1 = remoteEnded d2;
  ss_accepted : ahd_accepted d1 = ahd_accepted d2;
  ss_connect : ahd_connect d1 = ahd_connect d2;
  ss_read : ahd_read_h d1 = ahd_read_h d2;
  ss_write : ahd_write_h d1 = ahd_write_h d2;
  ss_drain : ahd_drain d1 = ahd_drain d2;
  ss_server : myServerSocket d1 = myServerSocket d2;
  ss_empty : writeBuffer_empty d2 = true;
}.
Record sim_server (d1 d2 : server) : Prop := {
  sv_index : sindex d1 = sindex d2;
  sv_address : localAddress d1 = localAddress d2;
  sv_listen : ahd_listen d1 = ahd_listen d2;
  sv_connection_h : ahd_connection_h d1 = ahd_connection_h d2;
  sv_connection_sock : ahd_connection_sock d1 = ahd_connection_sock d2;
  sv_close : ahd_close d1 = ahd_close d2;
  sv_list : socketList d1 = socketList d2;
}.
Definition sim_object (x1 x2 : object) : Prop :=
  match x1, x2 with
  | Client d1, Client d2 => sim_sock d1 d2
  | Srv d1, Srv d2 => sim_server d1 d2
  | _, _ => False
  end.
Definition is_server (x : object) : bool := match x with Srv _ => true | Client _ => false end.

(** an object of one process and the same of the other: its pointers are mapped *)
Definition sim_entry (m : gmap Z Z) (x1 x2 : option (Z * object)) : Prop :=
  match x1, x2 with
  | Some (a1, y1), Some (a2, y2) =>
      sim_object y1 y2 ∧ m !! a1 = Some a2 ∧
      (is_server y1 = true → m !! (a1 + server_dfcp)%Z = Some (a2 + server_dfcp)%Z)
  | None, None => True
  | _, _ => False
  end.

(** live objects do not overlap *)
Definition apart (m : gmap nat (Z * object)) : Prop :=
  (∀ o x, m !! o = Some x → (0 ≤ x.1 ∧ x.1 + object_size ≤ 2 ^ 64)%Z) ∧
  (∀ o o' x x', m !! o = Some x → m !! o' = Some x' → o ≠ o' →
     (x.1 + object_size ≤ x'.1 ∨ x'.1 + object_size ≤ x.1)%Z).

Record Sim (rest : list BinLog.frame) (s1 s2 : node U W) : Prop := {
  sim_next : next s1 = next s2;
  sim_coros : coros s1 = coros s2;
  sim_user : user s1 = user s2;
  sim_trace : trace s1 = trace s2;
  sim_objects : ∀ o, sim_entry (BinLog.pointerMap (blog s2)) (objects s1 !! o) (objects s2 !! o);
  sim_fresh : ∀ o, next s1 ≤ o → objects s1 !! o = None;
  sim_apart1 : apart (objects s1);
  sim_apart2 : apart (objects s2);
  sim_log : Replays (blog s2) rest;
}.

(** ** The judgements

    [adds m]: [m] only adds frames to the log, and no object number is used twice. *)
Definition adds {A} (m : M A) : Prop :=
  ∀ s1 s1' a fs, Recorded (blog s1) fs → m s1 = Ok (s1', a) → ∃ new, Recorded (blog s1') (fs ++ new) ∧ next s1 ≤ next s1'.

(** [fs] are recorded, of a run that stays within the room for objects *)
Definition Ends (s : node U W) (fs : list BinLog.frame) : Prop := Recorded (blog s) fs ∧ next s ≤ N.

(** what [m1] does while recording [m2] does on the frames it added *)
Definition simulates {A1 A2} (P : node U W → Prop) (m1 : M A1) (m2 : M A2) (R : A1 → A2 → node U W → Prop) : Prop :=
  ∀ s1 s2 s1' a1 fs new rest,
    P s1 → Recorded (blog s1) fs → m1 s1 = Ok (s1', a1) → Ends s1' (fs ++ new) →
    Sim (new ++ rest) s1 s2 →
    ∃ s2' a2, m2 s2 = Ok (s2', a2) ∧ R a1 a2 s1' ∧ Sim rest s1' s2'.

(** ... and so do some turns of the loop *)
Definition plays {A} (P : node U W → Prop) (m1 : M A) (R : A → node U W → Prop) : Prop :=
  ∀ s1 s2 s1' a1 fs new rest,
    P s1 → Recorded (blog s1) fs → m1 s1 = Ok (s1', a1) → Ends s1' (fs ++ new) →
    Sim (new ++ rest) s1 s2 →
    R a1 s1' ∧ ∃ n s2', replay_steps p2 react n s2 = Ok (s2', ()) ∧ Sim rest s1' s2'.

(** the replay has nothing to do *)
Definition quiet {A} (P : node U W → Prop) (m1 : M A) (R : A → node U W → Prop) : Prop :=
  simulates P m1 (mret ()) (λ a _ s, R a s).

Lemma Recorded_mode l fs : Recorded l fs → BinLog.mode_ l = BinLog.recording.
Proof. intros ((room & H) & _). apply H. Qed.
Lemma Replays_mode l fs : Replays l fs → BinLog.mode_ l = BinLog.replaying.
Proof. intros ((dn & H) & _). apply H. Qed.
Lemma Recorded_unique l fs gs : Recorded l fs → Recorded l gs → fs = gs.
Proof. intros ((n & H1) & _ & F1) ((k & H2) & _ & F2). by eapply BinLog.Rec_unique. Qed.

Lemma m_bind_Ok {A B} (m : M A) (f : A → M B) s s' b :
  (m ≫= f) s = Ok (s', b) ↔ ∃ t a, m s = Ok (t, a) ∧ f a t = Ok (s', b).
Proof.
  change ((m ≫= f) s) with (res_bind _ _ (λ '(t, a), f a t) (m s)). split.
  - intros H. apply bind_Ok_inv in H as ([t a] & E & H). rewrite E. eauto.
  - intros (t & a & -> & H). done.
Qed.

Lemma m_bind_stop {A B} (m : M A) (f : A → M B) s : m s = AssertFail → (m ≫= f) s = AssertFail.
Proof. intros H. change ((m ≫= f) s) with (res_bind _ _ (λ '(t, a), f a t) (m s)). by rewrite H. Qed.

Lemma m_bind_eq {A B} (m : M A) (f : A → M B) s t a : m s = Ok (t, a) → (m ≫= f) s = f a t.
Proof. intros H. change ((m ≫= f) s) with (res_bind _ _ (λ '(t, a), f a t) (m s)). by rewrite H. Qed.

(** *** Code that only adds frames *)
Lemma adds_bind {A B} (m : M A) (f : A → M B) : adds m → (∀ a, adds (f a)) → adds (m ≫= f).
Proof.
  intros Hm Hf s1 s1' b fs Hrec H. apply m_bind_Ok in H as (t & a & H1 & H2).
  destruct (Hm _ _ _ _ Hrec H1) as (n1 & Hr1 & ?). destruct (Hf a _ _ _ _ Hr1 H2) as (n2 & Hr2 & ?).
  exists (n1 ++ n2). rewrite app_assoc. split; [done|lia].
Qed.

(** code that leaves the log alone *)
Lemma adds_quiet {A} (m : M A) : (∀ s s' a, m s = Ok (s', a) → blog s' = blog s ∧ next s ≤ next s') → adds m.
Proof. intros Hm s1 s1' a fs Hrec H. exists []. rewrite app_nil_r. destruct (Hm _ _ _ H) as [-> ?]. done. Qed.

Lemma adds_never {A} (m : M A) : (∀ s, is_ok (m s) = false) → adds m.
Proof. intros Hm s1 s1' a fs _ H. specialize (Hm s1). by rewrite H in Hm. Qed.

Lemma adds_by_mode {A} (r q n : M A) : adds r → adds (by_mode r q n).
Proof. intros Hr s1 s1' a fs Hrec H. unfold by_mode in H. rewrite (Recorded_mode _ _ Hrec) in H. by eapply Hr. Qed.

(** what the two ways to add a frame do *)
Lemma Recorded_snoc l l' fs ty d :
  Recorded l fs → (∃ room, BinLog.Rec l' (fs ++ [(code ty, d)]) room) → BinLog.size l' = BinLog.size l →
  ty ≠ incomplete → Recorded l' (fs ++ [(code ty, d)]).
Proof.
  intros (_ & Hsz & Hok) [room Hrec] Hs Hty. split; [by eexists|]. rewrite Hs. split; [done|].
  apply Forall_app. split; [done|]. constructor; [|done]. split; cbn; [by apply code_range|].
  pose proof (BinLog.rec_size _ _ _ Hrec) as Hl. rewrite BinLog.enc_all_snoc, length_app, BinLog.length_enc in Hl.
  cbn in Hl. lia.
Qed.

Lemma add_frame_Ok ty data s s' u fs :
  ty ≠ incomplete → Recorded (blog s) fs → add_frame ty data s = Ok (s', u) →
  s' = with_blog (blog s') s ∧ Recorded (blog s') (fs ++ [(code ty, default [] data)]).
Proof.
  intros Hty Hrec H. unfold add_frame, on_log in H. inv_res. split; [done|]. cbn [blog with_blog].
  match goal with E : BinLog.addFrame _ _ _ = Ok _ |- _ => rename E into H end.
  pose proof Hrec as ((room & Hrec') & Hsz & _).
  destruct (BinLog.addFrame_Rec _ _ _ _ data _ Hrec' (code_range ty Hty) ltac:(lia) H) as (rm & Hr & Hs).
  eapply Recorded_snoc; [done| |done|done]. by eexists.
Qed.

Lemma add_frame_parts_Ok ty d1 d2 s s' u fs :
  ty ≠ incomplete → d1 ≠ [] → Recorded (blog s) fs → add_frame_parts ty d1 d2 s = Ok (s', u) →
  s' = with_blog (blog s') s ∧ Recorded (blog s') (fs ++ [(code ty, d1 ++ d2)]).
Proof.
  intros Hty Hne Hrec H. unfold add_frame_parts, on_log in H. inv_res. split; [done|]. cbn [blog with_blog].
  pose proof Hrec as ((room & Hrec') & Hsz & _).
  match goal with E1 : BinLog.startAddingFrame _ _ _ = Ok _, E2 : BinLog.continueAddingFrame _ _ = Ok _,
    E3 : BinLog.addingFrameDone _ = Ok _ |- _ =>
    destruct (BinLog.adding_parts_Rec _ _ _ _ _ _ _ _ _ Hrec' (code_range ty Hty) ltac:(lia) Hne E1 E2 E3)
      as (rm & Hr & Hs) end.
  eapply Recorded_snoc; [done| |done|done]. by eexists.
Qed.

Lemma adds_frame ty data : ty ≠ incomplete → adds (add_frame ty data).
Proof. intros Hty s1 s1' a fs Hrec H. eapply add_frame_Ok in H as [He ?]; [|done..]. eexists. split; [done|]. by rewrite He. Qed.
Lemma adds_frame_parts ty d1 d2 : ty ≠ incomplete → d1 ≠ [] → adds (add_frame_parts ty d1 d2).
Proof. intros Hty Hne s1 s1' a fs Hrec H. eapply add_frame_parts_Ok in H as [He ?]; [|done..]. eexists. split; [done|]. by rewrite He. Qed.

Lemma adds_ret {A} (a : A) : adds (mret a).
Proof. apply adds_quiet. intros s s' a' H. by injection H as <- <-. Qed.
Lemma adds_check b : adds (check b).
Proof. apply adds_quiet. unfold check. intros s s' a H. destruct b; by simplify_eq. Qed.
Lemma adds_lift {A} (r : res A) : adds (lift r).
Proof. apply adds_quiet. unfold lift. intros s s' a H. by inv_res. Qed.
Lemma adds_gets {A} (f : node U W → A) : adds (gets f).
Proof. apply adds_quiet. unfold gets. intros s s' a H. by simplify_eq. Qed.
Lemma adds_modify (f : node U W → node U W) : (∀ s, blog (f s) = blog s ∧ next s ≤ next (f s)) → adds (modify f).
Proof. intros Hf. apply adds_quiet. unfold modify. intros s s' a H. simplify_eq. apply Hf. Qed.
Lemma adds_lookup o : adds (lookup_object o).
Proof. apply adds_quiet. unfold lookup_object. intros s s' a H. destruct (_ !! _); by simplify_eq. Qed.
Lemma adds_create x : adds (create p1 x).
Proof. apply adds_quiet. unfold create. intros s s' a H. simplify_eq. split; [done|]. cbn. lia. Qed.
Lemma adds_env {A} (f : W → W * A) : adds (env f).
Proof. apply adds_quiet. unfold env. intros s s' a H. destruct (f (world s)). by simplify_eq. Qed.

Ltac head_of t := match t with ?f _ => head_of f | _ => t end.
Ltac adds_known := fail.
Ltac adds := repeat first
  [ assumption | adds_known | apply adds_ret | apply adds_check | apply adds_lift | apply adds_gets | apply adds_lookup
  | apply adds_create | apply adds_env
  | (apply adds_frame; (discriminate || assumption)) | (apply adds_frame_parts; [(discriminate || assumption)|done])
  | (apply adds_never; done)
  | (apply adds_modify; done)
  | (apply adds_bind; [|intros ?])
  | apply adds_by_mode
  | match goal with
    | |- adds (match ?x with _ => _ end) => destruct x
    | |- adds (let _ := _ in _) => cbv zeta
    | |- adds ?m => let h := head_of m in unfold h
    end ].

Lemma adds_run_call c : adds (run_call p1 c).
Proof. destruct c; adds. Qed.
Lemma adds_run_prog q : adds (run_prog p1 q).
Proof. induction q as [u|c k IH]; cbn [run_prog]; [by adds|]. apply adds_bind; [apply adds_run_call|]. intros a. adds. apply IH. Qed.
Lemma adds_emit ev : adds (emit p1 react ev).
Proof. unfold emit. adds. apply adds_run_prog. Qed.

Ltac adds_known ::= first [apply adds_run_call | apply adds_run_prog | apply adds_emit].
Lemma adds_happens x : adds (happens p1 react x).
Proof. destruct x; cbn [happens]; adds. Qed.

(** *** The log of a replay *)
Lemma Replays_read l (f : BinLog.frame) rest :
  Replays l (f :: rest) →
  ∃ l', BinLog.readNextFrame l = Ok (l', (f.1, Some <$> f.2)) ∧ Replays l' rest ∧
        BinLog.pointerMap l' = BinLog.pointerMap l ∧ BinLog.nextFrameType l = Ok f.1.
Proof.
  intros ((dn & Hrep) & Hok & Hr). inversion Hok as [|? ? Hf Hrest]; subst.
  pose proof (BinLog.readNextFrame_spec l dn f rest Hrep Hf) as H. rewrite Hr, bool_decide_eq_false_2 in H by done.
  destruct H as (Hty & l' & Hl & Hrep'). exists l'. split; [done|]. split; [|split; [|done]].
  - split; [by eexists|]. split; [done|]. destruct rest as [|g rest]; [done|].
    rewrite BinLog.readable_cons in Hr by (by left). by injection Hr.
  - clear Hty Hr. unfold BinLog.readNextFrame in Hl. inv_res. destruct (BinLog.fh l); [|done]. inv_res.
    match goal with E : match ?x with _ => _ end = Ok _ |- _ => destruct x as [[]|]; [|done] end. by inv_res.
Qed.

Lemma Replays_mapping l rest old new :
  Replays l rest →
  ∃ l', BinLog.addPointerMapping old new l = Ok l' ∧ Replays l' rest ∧
        BinLog.pointerMap l' = <[old := new]> (BinLog.pointerMap l).
Proof.
  intros H. pose proof (Replays_mode _ _ H) as Hm. destruct H as ((dn & [H1 H2 H3 H4]) & Hok & Hr).
  unfold BinLog.addPointerMapping. rewrite Hm, bool_decide_eq_true_2 by done. eexists. split; [done|]. split; [|done].
  split; [|done]. by exists dn.
Qed.

Lemma Sim_blog1 rest s1 s2 l : Sim rest s1 s2 → Sim rest (with_blog l s1) s2.
Proof. by intros []. Qed.

Lemma Sim_blog2 rest rest' s1 s2 l :
  Sim rest s1 s2 → Replays l rest' → BinLog.pointerMap l = BinLog.pointerMap (blog s2) → Sim rest' s1 (with_blog l s2).
Proof. intros [] Hl Hm. constructor; cbn [with_blog blog next coros user trace objects]; try done. by rewrite Hm. Qed.

(** *** Objects *)
Definition at_ o (a : Z) (x : object) (s : node U W) : Prop := objects s !! o = Some (a, x).

Lemma Sim_at rest s1 s2 o a1 x1 :
  Sim rest s1 s2 → at_ o a1 x1 s1 →
  ∃ a2 x2, at_ o a2 x2 s2 ∧ sim_object x1 x2 ∧ BinLog.pointerMap (blog s2) !! a1 = Some a2 ∧
    (is_server x1 = true → BinLog.pointerMap (blog s2) !! (a1 + server_dfcp)%Z = Some (a2 + server_dfcp)%Z).
Proof.
  intros Hs Ha. unfold at_ in *. pose proof (sim_objects _ _ _ Hs o) as H. rewrite Ha in H.
  destruct (objects s2 !! o) as [[a2 x2]|]; [|done]. by exists a2, x2.
Qed.

Lemma Sim_range1 rest s1 s2 o a x : Sim rest s1 s2 → at_ o a x s1 → (0 ≤ a ∧ a + object_size ≤ 2 ^ 64)%Z.
Proof. intros Hs Ha. by apply (proj1 (sim_apart1 _ _ _ Hs) o (a, x)). Qed.

Lemma apart_insert m o a x y : apart m → m !! o = Some (a, x) → apart (<[o := (a, y)]> m).
Proof.
  intros [H1 H2] Ho. split.
  - intros o1 z Hz. destruct (decide (o = o1)) as [<-|Hne].
    + rewrite lookup_insert_eq in Hz. simplify_eq. by apply (H1 o (a, x)).
    + rewrite lookup_insert_ne in Hz by done. by apply (H1 o1).
  - intros o1 o2 z1 z2 Hz1 Hz2 Hne.
    assert (Hl : ∀ o' z, <[o := (a, y)]> m !! o' = Some z → ∃ z', m !! o' = Some z' ∧ z'.1 = z.1).
    { intros o' z Hz. destruct (decide (o = o')) as [<-|Hn].
      - rewrite lookup_insert_eq in Hz. simplify_eq. by exists (a, x).
      - rewrite lookup_insert_ne in Hz by done. by exists z. }
    apply Hl in Hz1 as (z1' & Hz1 & <-). apply Hl in Hz2 as (z2' & Hz2 & <-). by apply (H2 o1 o2).
Qed.

Lemma Sim_put rest s1 s2 o a1 a2 x1 x2 y1 y2 :
  Sim rest s1 s2 → at_ o a1 x1 s1 → at_ o a2 x2 s2 → sim_object y1 y2 → is_server y1 = is_server x1 →
  Sim rest (with_objects (<[o := (a1, y1)]> (objects s1)) s1) (with_objects (<[o := (a2, y2)]> (objects s2)) s2).
Proof.
  intros Hs H1 H2 Hy Hsv. destruct (Sim_at _ _ _ _ _ _ Hs H1) as (a2' & x2' & H2' & _ & Hm & Hmd).
  unfold at_ in *. simplify_eq. destruct Hs as [? ? ? ? Ho Hf Ha1 Ha2 ?].
  constructor; cbn [with_objects blog next coros user trace objects]; try done.
  - intros o'. destruct (decide (o = o')) as [<-|Hne].
    + rewrite !lookup_insert_eq. cbn. rewrite Hsv. done.
    + rewrite !lookup_insert_ne by done. apply Ho.
  - intros o' Hle. rewrite lookup_insert_ne; [by apply Hf|]. intros ->. rewrite Hf in H1; done.
  - by eapply apart_insert.
  - by eapply apart_insert.
Qed.

Lemma with_objects_id s o x : objects s !! o = Some x → with_objects (<[o := x]> (objects s)) s = s.
Proof. intros H. rewrite insert_id by done. by destruct s. Qed.

(** *** Rules for the code *)
Lemma sim_conseq {A1 A2} (P P' : node U W → Prop) (m1 : M A1) (m2 : M A2) R R' :
  (∀ s, P s → P' s) → simulates P' m1 m2 R' → (∀ a1 a2 s, R' a1 a2 s → R a1 a2 s) → simulates P m1 m2 R.
Proof.
  intros HP H HR s1 s2 s1' a1 fs new rest Hs Hrec E Hrec' Hsim.
  destruct (H s1 s2 s1' a1 fs new rest) as (s2' & a2 & ? & ? & ?); [by apply HP|done..|]. exists s2', a2. auto.
Qed.

Lemma sim_pure {A1 A2} (φ : Prop) (P : node U W → Prop) (m1 : M A1) (m2 : M A2) R :
  (φ → simulates P m1 m2 R) → simulates (λ s, φ ∧ P s) m1 m2 R.
Proof. intros H s1 s2 s1' a1 fs new rest [Hφ HP]. by apply H. Qed.

Lemma sim_exists {X A1 A2} (P : X → node U W → Prop) (m1 : M A1) (m2 : M A2) R :
  (∀ x, simulates (P x) m1 m2 R) → simulates (λ s, ∃ x, P x s) m1 m2 R.
Proof. intros H s1 s2 s1' a1 fs new rest [x HP]. by apply (H x). Qed.

(** splits the frames of a sequence *)
Lemma adds_split {A B} (m : M A) (f : A → M B) s s' b fs new :
  adds m → (∀ a, adds (f a)) → Recorded (blog s) fs → (m ≫= f) s = Ok (s', b) → Ends s' (fs ++ new) →
  ∃ t a n1 n2, m s = Ok (t, a) ∧ f a t = Ok (s', b) ∧ Ends t (fs ++ n1) ∧
    Ends s' ((fs ++ n1) ++ n2) ∧ new = n1 ++ n2.
Proof.
  intros Hm Hf Hrec H [Hrec' Hn]. apply m_bind_Ok in H as (t & a & H1 & H2).
  destruct (Hm _ _ _ _ Hrec H1) as (n1 & Hr1 & ?). destruct (Hf a _ _ _ _ Hr1 H2) as (n2 & Hr2 & ?).
  exists t, a, n1, n2. split_and!; try done; [split; [done|lia]|].
  pose proof (Recorded_unique _ _ _ Hrec' Hr2) as He. rewrite <-app_assoc in He. by apply app_inv_head in He.
Qed.

Lemma sim_bind {A1 A2 B1 B2} P (m1 : M A1) (m2 : M A2) (f1 : A1 → M B1) (f2 : A2 → M B2) Q R :
  adds m1 → (∀ a, adds (f1 a)) →
  simulates P m1 m2 Q → (∀ a1 a2, simulates (Q a1 a2) (f1 a1) (f2 a2) R) →
  simulates P (m1 ≫= f1) (m2 ≫= f2) R.
Proof.
  intros Hm Hf Hsm Hsf s1 s2 s1' b1 fs new rest HP Hrec H Hrec' Hsim.
  destruct (adds_split _ _ _ _ _ _ _ Hm Hf Hrec H Hrec') as (t & a & n1 & n2 & H1 & H2 & Hr1 & Hr2 & ->).
  pose proof (proj1 Hr1) as Hr. rewrite <-app_assoc in Hsim.
  destruct (Hsm _ _ _ _ _ _ _ HP Hrec H1 Hr1 Hsim) as (t2 & a2 & E2 & HQ & Hsim').
  destruct (Hsf _ _ _ _ _ _ _ _ _ HQ Hr H2 Hr2 Hsim') as (s2' & b2 & E3 & HR & Hsim'').
  exists s2', b2. split; [|done]. by rewrite (m_bind_eq _ _ _ _ _ E2).
Qed.

Lemma sim_bind_l {A1 B1 B2} P (m1 : M A1) (f1 : A1 → M B1) (m2 : M B2) Q R :
  adds m1 → (∀ a, adds (f1 a)) → quiet P m1 Q → (∀ a1, simulates (Q a1) (f1 a1) m2 R) → simulates P (m1 ≫= f1) m2 R.
Proof.
  intros Hm Hf H1 H2. change m2 with (mret () ≫= λ _ : (), m2).
  eapply sim_bind; [done..|exact H1|]. intros a1 a2. apply H2.
Qed.

Lemma sim_bind_r {A2 B1 B2} P (m1 : M B1) (m2 : M A2) (f2 : A2 → M B2) Q R :
  adds m1 → simulates P (mret ()) m2 (λ _, Q) → (∀ a2, simulates (Q a2) m1 (f2 a2) R) → simulates P m1 (m2 ≫= f2) R.
Proof.
  intros Hm H1 H2. change m1 with (mret () ≫= λ _ : (), m1).
  eapply sim_bind; [apply adds_ret|done|exact H1|]. intros a1 a2. apply H2.
Qed.

Lemma sim_ret {A1 A2} (P : node U W → Prop) (a1 : A1) (a2 : A2) (R : A1 → A2 → node U W → Prop) :
  (∀ s, P s → R a1 a2 s) → simulates P (mret a1) (mret a2) R.
Proof.
  intros H s1 s2 s1' b fs new rest HP Hrec E Hrec' Hsim. injection E as <- <-.
  assert (new = []) as ->.
  { pose proof (Recorded_unique _ _ _ Hrec (proj1 Hrec')) as He. rewrite <-(app_nil_r fs) in He at 1. by apply app_inv_head in He. }
  exists s2, a2. split; [done|]. auto.
Qed.

(** sequences associate; a last step that returns nothing *)
Lemma sim_ext {A1 A2} P (m1 m1' : M A1) (m2 m2' : M A2) R :
  (∀ s, m1 s = m1' s) → (∀ s, m2 s = m2' s) → simulates P m1' m2' R → simulates P m1 m2 R.
Proof.
  intros H1 H2 H s1 s2 s1' a1 fs new rest HP Hrec E Hrec' Hsim. rewrite H1 in E. setoid_rewrite H2. by eapply (H s1).
Qed.
Lemma m_assoc {A B C} (m : M A) (f : A → M B) (g : B → M C) s : ((m ≫= f) ≫= g) s = (m ≫= λ a, f a ≫= g) s.
Proof.
  change (((m ≫= f) ≫= g) s) with (res_bind _ _ (λ '(t, b), g b t) (res_bind _ _ (λ '(t, a), f a t) (m s))).
  change ((m ≫= λ a, f a ≫= g) s) with (res_bind _ _ (λ '(t, a), (f a ≫= g) t) (m s)).
  by destruct (m s) as [[]| | | |].
Qed.
Lemma sim_assoc_r {A1 A B C} P (m1 : M A1) (m : M A) (f : A → M B) (g : B → M C) R :
  simulates P m1 ((m ≫= f) ≫= g) R → simulates P m1 (m ≫= λ a, f a ≫= g) R.
Proof. apply sim_ext; [done|]. intros s. by rewrite m_assoc. Qed.
Lemma sim_assoc_l {A1 A B C} P (m1 : M A1) (m : M A) (f : A → M B) (g : B → M C) R :
  simulates P ((m ≫= f) ≫= g) m1 R → simulates P (m ≫= λ a, f a ≫= g) m1 R.
Proof. apply sim_ext; [|done]. intros s. by rewrite m_assoc. Qed.
Lemma m_unit (m : M ()) s : (_ ← m; mret ()) s = m s.
Proof. change ((_ ← m; mret ()) s) with (res_bind _ _ (λ '(t, _), Ok (t, ())) (m s)). by destruct (m s) as [[? []]| | | |]. Qed.
Lemma sim_unit_l {A2} P (m1 : M ()) (m2 : M A2) R : simulates P (_ ← m1; mret ()) m2 R → simulates P m1 m2 R.
Proof. apply sim_ext; [|done]. intros s. by rewrite m_unit. Qed.
Lemma sim_unit_r {A1} P (m1 : M A1) (m2 : M ()) R : simulates P m1 (_ ← m2; mret ()) R → simulates P m1 m2 R.
Proof. apply sim_ext; [done|]. intros s. by rewrite m_unit. Qed.

(** code of the recorder that stops *)
Lemma sim_never {A1 A2} P (m1 : M A1) (m2 : M A2) R : (∀ s, is_ok (m1 s) = false) → simulates P m1 m2 R.
Proof. intros H s1 s2 s1' a1 fs new rest _ _ E. specialize (H s1). by rewrite E in H. Qed.

Lemma sim_by_mode_l {A1 A2} P (r q n : M A1) (m2 : M A2) R : simulates P r m2 R → simulates P (by_mode r q n) m2 R.
Proof.
  intros H s1 s2 s1' a1 fs new rest HP Hrec E. unfold by_mode in E. rewrite (Recorded_mode _ _ Hrec) in E. by apply (H s1).
Qed.

Lemma sim_by_mode_r {A1 A2} P (r q n : M A2) (m1 : M A1) R : simulates P m1 q R → simulates P m1 (by_mode r q n) R.
Proof.
  intros H s1 s2 s1' a1 fs new rest HP Hrec E Hrec' Hsim. unfold by_mode.
  rewrite (Replays_mode _ _ (sim_log _ _ _ Hsim)). by eapply (H s1).
Qed.

(** code that leaves the log of the recorder alone *)
Lemma sim_same {A1 A2} (P : node U W → Prop) (m1 : M A1) (m2 : M A2) (R : A1 → A2 → node U W → Prop) :
  (∀ s1 s1' a1, m1 s1 = Ok (s1', a1) → blog s1' = blog s1) →
  (∀ s1 s2 s1' a1 rest, P s1 → m1 s1 = Ok (s1', a1) → Sim rest s1 s2 →
     ∃ s2' a2, m2 s2 = Ok (s2', a2) ∧ R a1 a2 s1' ∧ Sim rest s1' s2') →
  simulates P m1 m2 R.
Proof.
  intros Hb H s1 s2 s1' a1 fs new rest HP Hrec E [Hrec' _] Hsim. rewrite (Hb _ _ _ E) in Hrec'.
  assert (new = []) as ->.
  { pose proof (Recorded_unique _ _ _ Hrec Hrec') as He. rewrite <-(app_nil_r fs) in He at 1. by apply app_inv_head in He. }
  by eapply H.
Qed.

Definition any : node U W → Prop := λ _, True.

(** *** Pure steps *)
Lemma sim_check P b1 b2 : (b1 = true → b2 = true) → simulates P (check b1) (check b2) (λ _ _, P).
Proof.
  intros Hb. apply sim_same.
  - unfold check. intros s s' a H. destruct b1; by simplify_eq.
  - unfold check. intros s1 s2 s1' a1 rest HP H Hs. destruct b1; simplify_eq. rewrite Hb by done. eauto.
Qed.
Lemma quiet_check P b : quiet P (check b) (λ _ s, b = true ∧ P s).
Proof.
  apply sim_same.
  - unfold check. intros s s' a H. destruct b; by simplify_eq.
  - unfold check. intros s1 s2 s1' a1 rest HP H Hs. destruct b; simplify_eq. by exists s2, ().
Qed.
Lemma check_r P b : (∀ s, P s → b = true) → simulates P (mret ()) (check b) (λ _ _, P).
Proof.
  intros Hb. apply sim_same; [intros s s' a H; by injection H as <- <-|].
  intros s1 s2 s1' a1 rest HP H Hs. injection H as <- <-. unfold check. rewrite (Hb s1) by done. eauto.
Qed.
Lemma sim_lift {A} P (r : res A) : simulates P (lift r) (lift r) (λ a1 a2 s, a1 = a2 ∧ P s).
Proof.
  apply sim_same; unfold lift; [intros s s' a H; by inv_res|].
  intros s1 s2 s1' a1 rest HP H Hs. inv_res. exists s2, a1. split; [reflexivity|done].
Qed.
Lemma lift_r {A} P (r : res A) v :
  (∀ s1 s2 rest, P s1 → Sim rest s1 s2 → r = Ok v) → simulates P (mret ()) (lift r) (λ _ a s, a = v ∧ P s).
Proof.
  intros Hr. apply sim_same; [intros s s' a H; by injection H as <- <-|].
  intros s1 s2 s1' a1 rest HP H Hs. injection H as <- <-. unfold lift. rewrite (Hr s1 s2 rest) by done. by exists s2, v.
Qed.
Lemma sim_ret_lift {A} P (v : A) r : r = Ok v → simulates P (mret v) (lift r) (λ a1 a2 s, a1 = a2 ∧ P s).
Proof.
  intros ->. apply sim_same; [intros s s' a H; by injection H as <- <-|].
  intros s1 s2 s1' a1 rest HP H Hs. injection H as <- <-. by exists s2, v.
Qed.
Lemma sim_gets {A} P (f : node U W → A) :
  (∀ rest s1 s2, Sim rest s1 s2 → f s1 = f s2) → simulates P (gets f) (gets f) (λ a1 a2 s, a1 = a2 ∧ P s).
Proof.
  intros Hf. apply sim_same; unfold gets; [intros s s' a H; by simplify_eq|].
  intros s1 s2 s1' a1 rest HP H Hs. simplify_eq. rewrite (Hf rest s1' s2) by done. by exists s2, (f s2).
Qed.
Lemma quiet_gets {A} P (f : node U W → A) : quiet P (gets f) (λ _, P).
Proof.
  apply sim_same; unfold gets; [intros s s' a H; by simplify_eq|].
  intros s1 s2 s1' a1 rest HP H Hs. simplify_eq. exists s2, (). done.
Qed.
Lemma sim_modify P (f : node U W → node U W) :
  (∀ s, blog (f s) = blog s) → (∀ rest s1 s2, Sim rest s1 s2 → Sim rest (f s1) (f s2)) →
  simulates P (modify f) (modify f) (λ _ _, any).
Proof.
  intros Hb Hf. apply sim_same; unfold modify; [intros s s' a H; simplify_eq; apply Hb|].
  intros s1 s2 s1' a1 rest HP H Hs. simplify_eq. eexists _, _. split; [done|]. split; [done|by apply Hf].
Qed.
Lemma quiet_env {A} (f : W → W * A) : quiet any (env f) (λ _, any).
Proof.
  apply sim_same; unfold env; [intros s s' a H; destruct (f (world s)); by simplify_eq|].
  intros s1 s2 s1' a1 rest HP H Hs. destruct (f (world s1)). simplify_eq. exists s2, (). split; [done|]. split; [done|].
  destruct Hs. by constructor.
Qed.

(** *** Objects *)
Lemma lookup_Ok o s s' x : lookup_object o s = Ok (s', x) ↔ s' = s ∧ objects s !! o = Some x.
Proof. unfold lookup_object. destruct (_ !! _); naive_solver. Qed.

Lemma get_Ok o s s' d : get o s = Ok (s', d) ↔ s' = s ∧ ∃ a, at_ o a (Client d) s.
Proof.
  unfold get, at_. rewrite m_bind_Ok. setoid_rewrite lookup_Ok. split.
  - intros (t & [a [d'|d']] & (-> & Hx) & H); cbn in H; [|done]. injection H as <- <-. eauto.
  - intros (-> & a & Ha). exists s, (a, Client d). done.
Qed.
Lemma get_server_Ok o s s' d : get_server o s = Ok (s', d) ↔ s' = s ∧ ∃ a, at_ o a (Srv d) s.
Proof.
  unfold get_server, at_. rewrite m_bind_Ok. setoid_rewrite lookup_Ok. split.
  - intros (t & [a [d'|d']] & (-> & Hx) & H); cbn in H; [done|]. injection H as <- <-. eauto.
  - intros (-> & a & Ha). exists s, (a, Srv d). done.
Qed.
Lemma put_Ok o d s s' u :
  put o d s = Ok (s', u) ↔ ∃ a x, at_ o a x s ∧ s' = with_objects (<[o := (a, Client d)]> (objects s)) s.
Proof.
  unfold put, at_. rewrite m_bind_Ok. setoid_rewrite lookup_Ok. split.
  - intros (t & [a x] & (-> & Hx) & H). unfold modify in H. simplify_eq. eauto.
  - intros (a & x & Ha & ->). destruct u. exists s, (a, x). done.
Qed.
Lemma put_server_Ok o d s s' u :
  put_server o d s = Ok (s', u) ↔ ∃ a x, at_ o a x s ∧ s' = with_objects (<[o := (a, Srv d)]> (objects s)) s.
Proof.
  unfold put_server, at_. rewrite m_bind_Ok. setoid_rewrite lookup_Ok. split.
  - intros (t & [a x] & (-> & Hx) & H). unfold modify in H. simplify_eq. eauto.
  - intros (a & x & Ha & ->). destruct u. exists s, (a, x). done.
Qed.

Definition sock_at o (d : sock) (s : node U W) : Prop := ∃ a, at_ o a (Client d) s.
Definition server_at_ o (d : server) (s : node U W) : Prop := ∃ a, at_ o a (Srv d) s.
Definition is_sock o (s : node U W) : Prop := ∃ d, sock_at o d s.
Definition is_srv o (s : node U W) : Prop := ∃ d, server_at_ o d s.

Lemma Sim_sock rest s1 s2 o d1 : Sim rest s1 s2 → sock_at o d1 s1 → ∃ d2, sim_sock d1 d2 ∧ sock_at o d2 s2.
Proof. intros Hs [a Ha]. destruct (Sim_at _ _ _ _ _ _ Hs Ha) as (a2 & [d2|] & ? & ? & _); [|done]. exists d2. split; [done|by eexists]. Qed.
Lemma Sim_server rest s1 s2 o d1 : Sim rest s1 s2 → server_at_ o d1 s1 → ∃ d2, sim_server d1 d2 ∧ server_at_ o d2 s2.
Proof. intros Hs [a Ha]. destruct (Sim_at _ _ _ _ _ _ Hs Ha) as (a2 & [|d2] & ? & ? & _); [done|]. exists d2. split; [done|by eexists]. Qed.

Lemma blog_same_get o s s' d : get o s = Ok (s', d) → blog s' = blog s.
Proof. rewrite get_Ok. by intros [-> _]. Qed.
Lemma blog_same_put o d s s' u : put o d s = Ok (s', u) → blog s' = blog s.
Proof. rewrite put_Ok. by intros (a & x & _ & ->). Qed.
Lemma blog_same_get_server o s s' d : get_server o s = Ok (s', d) → blog s' = blog s.
Proof. rewrite get_server_Ok. by intros [-> _]. Qed.
Lemma blog_same_put_server o d s s' u : put_server o d s = Ok (s', u) → blog s' = blog s.
Proof. rewrite put_server_Ok. by intros (a & x & _ & ->). Qed.

Lemma sim_get P o : simulates P (get o) (get o) (λ d1 d2 s, sim_sock d1 d2 ∧ sock_at o d1 s ∧ P s).
Proof.
  apply sim_same; [by intros ????%blog_same_get|].
  intros s1 s2 s1' d1 rest HP H Hs. apply get_Ok in H as [-> Ha].
  destruct (Sim_sock _ _ _ _ _ Hs Ha) as (d2 & Hd & Ha2). exists s2, d2. split; [by apply get_Ok|]. done.
Qed.
Lemma quiet_get P o : quiet P (get o) (λ d1 s, sock_at o d1 s ∧ P s).
Proof.
  apply sim_same; [by intros ????%blog_same_get|].
  intros s1 s2 s1' d1 rest HP H Hs. apply get_Ok in H as [-> Ha]. by exists s2, ().
Qed.
Lemma get_r P o d1 : (∀ s, P s → sock_at o d1 s) → simulates P (mret ()) (get o) (λ _ d2 s, sim_sock d1 d2 ∧ P s).
Proof.
  intros Ha. apply sim_same; [intros s s' a H; by injection H as <- <-|].
  intros s1 s2 s1' a1 rest HP H Hs. injection H as <- <-.
  destruct (Sim_sock _ _ _ _ _ Hs (Ha _ HP)) as (d2 & Hd & Ha2). exists s2, d2. split; [by apply get_Ok|]. done.
Qed.
Lemma sim_get_server P o : simulates P (get_server o) (get_server o) (λ d1 d2 s, sim_server d1 d2 ∧ server_at_ o d1 s ∧ P s).
Proof.
  apply sim_same; [by intros ????%blog_same_get_server|].
  intros s1 s2 s1' d1 rest HP H Hs. apply get_server_Ok in H as [-> Ha].
  destruct (Sim_server _ _ _ _ _ Hs Ha) as (d2 & Hd & Ha2). exists s2, d2. split; [by apply get_server_Ok|]. done.
Qed.
Lemma quiet_get_server P o : quiet P (get_server o) (λ d1 s, server_at_ o d1 s ∧ P s).
Proof.
  apply sim_same; [by intros ????%blog_same_get_server|].
  intros s1 s2 s1' d1 rest HP H Hs. apply get_server_Ok in H as [-> Ha]. by exists s2, ().
Qed.
Lemma get_server_r P o d1 :
  (∀ s, P s → server_at_ o d1 s) → simulates P (mret ()) (get_server o) (λ _ d2 s, sim_server d1 d2 ∧ P s).
Proof.
  intros Ha. apply sim_same; [intros s s' a H; by injection H as <- <-|].
  intros s1 s2 s1' a1 rest HP H Hs. injection H as <- <-.
  destruct (Sim_server _ _ _ _ _ Hs (Ha _ HP)) as (d2 & Hd & Ha2). exists s2, d2. split; [by apply get_server_Ok|]. done.
Qed.

(** writes of both, of the recorder, of the replay *)
Lemma at_insert o a x s : at_ o a x (with_objects (<[o := (a, x)]> (objects s)) s).
Proof. unfold at_. apply lookup_insert_eq. Qed.

Lemma sim_put P o y1 y2 :
  (∀ s, P s → is_sock o s) → sim_sock y1 y2 → simulates P (put o y1) (put o y2) (λ _ _ s, sock_at o y1 s).
Proof.
  intros Hc Hy. apply sim_same; [by intros ????%blog_same_put|].
  intros s1 s2 s1' u rest HP H Hs. apply put_Ok in H as (a & x & Ha & ->).
  destruct (Sim_at _ _ _ _ _ _ Hs Ha) as (a2 & x2 & Ha2 & Hx & _).
  destruct (Hc _ HP) as (d & a' & Ha'). unfold at_ in Ha, Ha'. rewrite Ha in Ha'. simplify_eq.
  eexists _, (). split; [apply put_Ok; by exists a2, x2|]. split; [eexists; apply at_insert|].
  by eapply Sim_put.
Qed.
Lemma quiet_put P o d1 y1 :
  (∀ s, P s → sock_at o d1 s) → (∀ d2, sim_sock d1 d2 → sim_sock y1 d2) → quiet P (put o y1) (λ _ s, sock_at o y1 s).
Proof.
  intros Hc Hy. apply sim_same; [by intros ????%blog_same_put|].
  intros s1 s2 s1' u rest HP H Hs. apply put_Ok in H as (a & x & Ha & ->).
  destruct (Hc _ HP) as (a' & Ha'). unfold at_ in Ha'. rewrite Ha in Ha'. simplify_eq.
  destruct (Sim_at _ _ _ _ _ _ Hs Ha) as (a2 & [d2|] & Ha2 & Hx & _); [|done].
  exists s2, (). split; [done|]. split; [eexists; apply at_insert|].
  rewrite <-(with_objects_id s2 o (a2, Client d2)) by done. eapply Sim_put; [done..| |done]. by apply Hy.
Qed.
Lemma update_r P o (f : sock → sock) :
  (∀ s, P s → ∃ d1, sock_at o d1 s ∧ ∀ d2, sim_sock d1 d2 → sim_sock d1 (f d2)) →
  simulates P (mret ()) (update f o) (λ _ _, P).
Proof.
  intros Hc. apply sim_same; [intros s s' a H; by injection H as <- <-|].
  intros s1 s2 s1' u rest HP H Hs. injection H as <- <-. destruct (Hc _ HP) as (d1 & [a Ha] & Hf).
  destruct (Sim_at _ _ _ _ _ _ Hs Ha) as (a2 & [d2|] & Ha2 & Hx & _); [|done].
  eexists _, (). split.
  - unfold update. erewrite m_bind_eq by (apply get_Ok; split; [done|by eexists]). apply put_Ok. by eexists _, _.
  - split; [done|]. rewrite <-(with_objects_id s1 o (a, Client d1)) by done. eapply Sim_put; [done..| |done]. by apply Hf.
Qed.
Lemma sim_put_server P o y1 y2 :
  (∀ s, P s → is_srv o s) → sim_server y1 y2 → simulates P (put_server o y1) (put_server o y2) (λ _ _ s, server_at_ o y1 s).
Proof.
  intros Hc Hy. apply sim_same; [by intros ????%blog_same_put_server|].
  intros s1 s2 s1' u rest HP H Hs. apply put_server_Ok in H as (a & x & Ha & ->).
  destruct (Sim_at _ _ _ _ _ _ Hs Ha) as (a2 & x2 & Ha2 & Hx & _).
  destruct (Hc _ HP) as (d & a' & Ha'). unfold at_ in Ha, Ha'. rewrite Ha in Ha'. simplify_eq.
  eexists _, (). split; [apply put_server_Ok; by exists a2, x2|]. split; [eexists; apply at_insert|].
  by eapply Sim_put.
Qed.
Lemma quiet_put_server P o d1 y1 :
  (∀ s, P s → server_at_ o d1 s) → (∀ d2, sim_server d1 d2 → sim_server y1 d2) →
  quiet P (put_server o y1) (λ _ s, server_at_ o y1 s).
Proof.
  intros Hc Hy. apply sim_same; [by intros ????%blog_same_put_server|].
  intros s1 s2 s1' u rest HP H Hs. apply put_server_Ok in H as (a & x & Ha & ->).
  destruct (Hc _ HP) as (a' & Ha'). unfold at_ in Ha'. rewrite Ha in Ha'. simplify_eq.
  destruct (Sim_at _ _ _ _ _ _ Hs Ha) as (a2 & [|d2] & Ha2 & Hx & _); [done|].
  exists s2, (). split; [done|]. split; [eexists; apply at_insert|].
  rewrite <-(with_objects_id s2 o (a2, Srv d2)) by done. eapply Sim_put; [done..| |done]. by apply Hy.
Qed.

(** *** Frames and the objects they are about *)
Lemma quiet_this P o : quiet P (this o) (λ a s, (∃ x, at_ o a x s) ∧ P s).
Proof.
  assert (Ht : ∀ s s' a, this o s = Ok (s', a) → s' = s ∧ ∃ x, at_ o a x s).
  { intros s s' a H. unfold this in H. apply m_bind_Ok in H as (t & [a' x] & (-> & Hx)%lookup_Ok & H).
    injection H as <- <-. eauto. }
  apply sim_same; [by intros s s' a (-> & _)%Ht|].
  intros s1 s2 s1' a rest HP (-> & Hx)%Ht Hs. by exists s2, ().
Qed.

Ltac log_free := intros ? ? HP; exact HP.
Definition log_free (P : node U W → Prop) : Prop := ∀ s l, P s → P (with_blog l s).

Lemma sim_added P (m1 : M ()) ty d :
  (∀ s s' u fs, Recorded (blog s) fs → m1 s = Ok (s', u) →
     s' = with_blog (blog s') s ∧ Recorded (blog s') (fs ++ [(code ty, d)])) →
  log_free P → simulates P m1 read_frame (λ _ fd s, fd = (code ty, Some <$> d) ∧ P s).
Proof.
  intros Hm HP s1 s2 s1' u fs new rest Hs Hrec H Hrec' Hsim. destruct (Hm _ _ _ _ Hrec H) as [He Hr].
  pose proof (Recorded_unique _ _ _ (proj1 Hrec') Hr) as Hn. apply app_inv_head in Hn as ->.
  destruct (Replays_read _ _ _ (sim_log _ _ _ Hsim)) as (l2 & Hl2 & Hrep & Hpm & _).
  exists (with_blog l2 s2), (code ty, Some <$> d). split; [|split; [split; [done|]|]].
  - unfold read_frame, on_log. by rewrite Hl2.
  - rewrite He. by apply HP.
  - rewrite He. apply Sim_blog1. by eapply Sim_blog2.
Qed.

Lemma sim_frame P ty data :
  ty ≠ incomplete → log_free P →
  simulates P (add_frame ty data) read_frame (λ _ fd s, fd = (code ty, Some <$> default [] data) ∧ P s).
Proof. intros Hty HP. apply sim_added; [|done]. intros s s' u fs Hr H. by eapply add_frame_Ok. Qed.
Lemma sim_frame_parts P ty d1 d2 :
  ty ≠ incomplete → d1 ≠ [] → log_free P →
  simulates P (add_frame_parts ty d1 d2) read_frame (λ _ fd s, fd = (code ty, Some <$> (d1 ++ d2)) ∧ P s).
Proof. intros Hty Hne HP. apply sim_added; [|done]. intros s s' u fs Hr H. by eapply add_frame_parts_Ok. Qed.

Lemma this_Ok o s s' a : this o s = Ok (s', a) ↔ s' = s ∧ ∃ x, at_ o a x s.
Proof.
  unfold this, at_. rewrite m_bind_Ok. setoid_rewrite lookup_Ok. split.
  - intros (t & [a' x] & (-> & Hx) & H). injection H as <- <-. eauto.
  - intros (-> & x & Hx). exists s, (a, x). done.
Qed.
Lemma this_socket_Ok o s s' a : this_socket o s = Ok (s', a) ↔ s' = s ∧ ∃ d, at_ o a (Client d) s.
Proof.
  unfold this_socket, at_. rewrite m_bind_Ok. setoid_rewrite get_Ok. setoid_rewrite this_Ok. unfold at_. split.
  - intros (t & d & (-> & a' & Hd) & -> & x & Hx). simplify_eq. eauto.
  - intros (-> & d & Hd). exists s, d. eauto 8.
Qed.
Lemma this_server_Ok o s s' a : this_server o s = Ok (s', a) ↔ s' = s ∧ ∃ d, at_ o a (Srv d) s.
Proof.
  unfold this_server, at_. rewrite m_bind_Ok. setoid_rewrite get_server_Ok. setoid_rewrite this_Ok. unfold at_. split.
  - intros (t & d & (-> & a' & Hd) & -> & x & Hx). simplify_eq. eauto.
  - intros (-> & d & Hd). exists s, d. eauto 8.
Qed.
Lemma quiet_this_socket P o : quiet P (this_socket o) (λ a s, (∃ d, at_ o a (Client d) s) ∧ P s).
Proof.
  apply sim_same; [by intros s s' a (-> & _)%this_socket_Ok|].
  intros s1 s2 s1' a rest HP (-> & Hx)%this_socket_Ok Hs. by exists s2, ().
Qed.
Lemma quiet_this_server P o : quiet P (this_server o) (λ a s, (∃ d, at_ o a (Srv d) s) ∧ P s).
Proof.
  apply sim_same; [by intros s s' a (-> & _)%this_server_Ok|].
  intros s1 s2 s1' a rest HP (-> & Hx)%this_server_Ok Hs. by exists s2, ().
Qed.

Lemma at_address_spec s o a x : apart (objects s) → at_ o a x s → at_address a s = Ok (s, o).
Proof.
  intros [_ Hap] Hx. unfold at_address. pose proof socket_dfcp_inside.
  destruct (list_find _ _) as [[i [o' [a' x']]]|] eqn:Hf.
  - apply list_find_Some in Hf as (Hi & Ha & _). cbn in Ha. subst a'.
    apply list_elem_of_lookup_2, elem_of_map_to_list in Hi.
    destruct (decide (o = o')) as [<-|Hne]; [done|]. specialize (Hap o o' _ _ Hx Hi Hne). cbn in Hap. lia.
  - exfalso. apply list_find_None in Hf. rewrite Forall_forall in Hf.
    eapply (Hf (o, (a, x))); [|done]. by apply elem_of_map_to_list.
Qed.

Lemma map_pointer_spec s rest a1 a2 :
  Replays (blog s) rest → BinLog.pointerMap (blog s) !! a1 = Some a2 → map_pointer a1 s = Ok (s, a2).
Proof.
  intros Hr Hm. unfold map_pointer, on_log, BinLog.mapPointer. rewrite (Replays_mode _ _ Hr), Hm.
  rewrite bool_decide_eq_true_2 by done. cbn. by destruct s.
Qed.

Lemma socket_of_r P o a r :
  (∀ s, P s → ∃ d, at_ o a (Client d) s) → ((0 ≤ a < 2 ^ 64)%Z → r = Ok a) →
  simulates P (mret ()) (socket_of r) (λ _ o' s, o' = o ∧ P s).
Proof.
  intros Hc Hr. apply sim_same; [intros s s' u H; by injection H as <- <-|].
  intros s1 s2 s1' u rest HP H Hs. injection H as <- <-. destruct (Hc _ HP) as [d Ha].
  pose proof (Sim_range1 _ _ _ _ _ _ Hs Ha). pose proof socket_dfcp_inside. rewrite Hr by lia.
  destruct (Sim_at _ _ _ _ _ _ Hs Ha) as (a2 & [d2|] & Ha2 & Hx & Hm & _); [|done].
  exists s2, o. split; [|done]. unfold socket_of, socket_at.
  erewrite m_bind_eq by reflexivity. erewrite m_bind_eq by (eapply map_pointer_spec; [apply (sim_log _ _ _ Hs)|done]).
  erewrite m_bind_eq by (eapply at_address_spec; [apply (sim_apart2 _ _ _ Hs)|done]).
  erewrite m_bind_eq by (apply get_Ok; split; [done|by eexists]). done.
Qed.
Lemma server_of_r P o a r :
  (∀ s, P s → ∃ d, at_ o a (Srv d) s) → ((0 ≤ a < 2 ^ 64)%Z → r = Ok a) →
  simulates P (mret ()) (server_of r) (λ _ o' s, o' = o ∧ P s).
Proof.
  intros Hc Hr. apply sim_same; [intros s s' u H; by injection H as <- <-|].
  intros s1 s2 s1' u rest HP H Hs. injection H as <- <-. destruct (Hc _ HP) as [d Ha].
  pose proof (Sim_range1 _ _ _ _ _ _ Hs Ha). pose proof socket_dfcp_inside. rewrite Hr by lia.
  destruct (Sim_at _ _ _ _ _ _ Hs Ha) as (a2 & [|d2] & Ha2 & Hx & Hm & _); [done|].
  exists s2, o. split; [|done]. unfold server_of, server_at.
  erewrite m_bind_eq by reflexivity. erewrite m_bind_eq by (eapply map_pointer_spec; [apply (sim_log _ _ _ Hs)|done]).
  erewrite m_bind_eq by (eapply at_address_spec; [apply (sim_apart2 _ _ _ Hs)|done]).
  erewrite m_bind_eq by (apply get_server_Ok; split; [done|by eexists]). done.
Qed.

(** ** The calls of the user *)

(** the same answer, and nothing to remember *)
Abbreviation same := (λ a1 a2 (_ : node U W), a1 = a2).

Lemma sim_any {A1 A2} P (m1 : M A1) (m2 : M A2) (R : A1 → A2 → node U W → Prop) :
  simulates any m1 m2 R → simulates P m1 m2 R.
Proof. intros H. eapply sim_conseq; [|exact H|]; done. Qed.

(** a sequence of two parts of which the first leaves nothing to remember *)
Lemma sim_seq {B1 B2} P (m1 m2 : M ()) (f1 : M B1) (f2 : M B2) Q R :
  adds m1 → adds f1 → simulates P m1 m2 Q → simulates any f1 f2 R →
  simulates P (_ ← m1; f1) (_ ← m2; f2) R.
Proof. intros ? ? H1 H2. eapply sim_bind; [done|by intros|exact H1|]. intros ??. by apply sim_any. Qed.
Lemma quiet_seq {B1 B2} P (m1 : M ()) (f1 : M B1) (m2 : M B2) Q R :
  adds m1 → adds f1 → quiet P m1 Q → simulates any f1 m2 R → simulates P (_ ← m1; f1) m2 R.
Proof. intros ? ? H1 H2. eapply sim_bind_l; [done|by intros|exact H1|]. intros ?. by apply sim_any. Qed.

Lemma sim_const {A} P (a : A) : simulates P (mret a) (mret a) same.
Proof. by apply sim_ret. Qed.

Lemma sim_update P o f g :
  (∀ d1 d2, sim_sock d1 d2 → sim_sock (f d1) (g d2)) → simulates P (update f o) (update g o) (λ _ _, any).
Proof.
  intros Hf. unfold update. eapply sim_bind; [by adds|intros; by adds|apply sim_get|]. intros d1 d2. cbn beta.
  apply sim_pure. intros Hd. eapply sim_conseq; [|apply sim_put; [|by apply Hf]|done]; [intros s Hs; exact Hs|].
  intros s [Hs _]. by exists d1.
Qed.
Lemma sim_update_server P o f g :
  (∀ d1 d2, sim_server d1 d2 → sim_server (f d1) (g d2)) →
  simulates P (update_server f o) (update_server g o) (λ _ _, any).
Proof.
  intros Hf. unfold update_server. eapply sim_bind; [by adds|intros; by adds|apply sim_get_server|]. intros d1 d2. cbn beta.
  apply sim_pure. intros Hd. eapply sim_conseq; [|apply sim_put_server; [|by apply Hf]|done]; [intros s Hs; exact Hs|].
  intros s [Hs _]. by exists d1.
Qed.
Lemma quiet_update P o f :
  (∀ d1 d2, sim_sock d1 d2 → sim_sock (f d1) d2) → quiet P (update f o) (λ _ s, ∃ d, sock_at o (f d) s).
Proof.
  intros Hf. unfold update. eapply sim_bind_l; [by adds|intros; by adds|apply quiet_get|]. intros d1. cbn beta.
  eapply sim_conseq; [|apply (quiet_put (λ s, sock_at o d1 s) o d1)|]; [by intros s [Hs _]|done|by apply Hf|].
  intros [] ? s Hs. by exists d1.
Qed.
Lemma quiet_update_server P o f :
  (∀ d1 d2, sim_server d1 d2 → sim_server (f d1) d2) → quiet P (update_server f o) (λ _ s, ∃ d, server_at_ o (f d) s).
Proof.
  intros Hf. unfold update_server. eapply sim_bind_l; [by adds|intros; by adds|apply quiet_get_server|]. intros d1. cbn beta.
  eapply sim_conseq; [|apply (quiet_put_server (λ s, server_at_ o d1 s) o d1)|]; [by intros s [Hs _]|done|by apply Hf|].
  intros [] ? s Hs. by exists d1.
Qed.

(** *** Coroutines *)
Lemma Sim_coros rest s1 s2 x : Sim rest s1 s2 → Sim rest (with_coros x s1) (with_coros x s2).
Proof. intros []. by constructor. Qed.
Lemma sim_coro_modify P (f : node U W → gmap nat CoroEData) :
  (∀ rest s1 s2, Sim rest s1 s2 → f s1 = f s2) →
  simulates P (modify (λ s, with_coros (f s) s)) (modify (λ s, with_coros (f s) s)) (λ _ _, any).
Proof. intros Hf. apply sim_modify; [done|]. intros rest s1 s2 Hs. rewrite (Hf _ _ _ Hs). by apply Sim_coros. Qed.
Lemma coro_data_eq rest s1 s2 h : Sim rest s1 s2 → coro_data h s1 = coro_data h s2.
Proof. intros Hs. unfold coro_data. by rewrite (sim_coros _ _ _ Hs). Qed.
Lemma sim_initCoroData P h : simulates P (initCoroData h) (initCoroData h) (λ _ _, any).
Proof. apply sim_coro_modify. intros rest s1 s2 Hs. by rewrite (coro_data_eq _ _ _ h Hs), (sim_coros _ _ _ Hs). Qed.
Lemma sim_setCoroException P h : simulates P (setCoroException h) (setCoroException h) (λ _ _, any).
Proof. apply sim_coro_modify. intros rest s1 s2 Hs. by rewrite (coro_data_eq _ _ _ h Hs), (sim_coros _ _ _ Hs). Qed.

Definition exn_is (h : option nat) (e : bool) (s : node U W) : Prop :=
  ∃ h', h = Some h' ∧ is_exception (coro_data h' s) = e.

Lemma isCoroException_Ok h s s' e : isCoroException h s = Ok (s', e) ↔ s' = s ∧ exn_is h e s.
Proof.
  unfold isCoroException, exn_is. destruct h as [h|].
  - rewrite m_bind_Ok. split.
    + intros (t & h' & E & E'). injection E as <- <-. injection E' as <- <-. eauto.
    + intros (-> & h' & [= <-] & <-). by exists s, h.
  - split; [done|]. naive_solver.
Qed.
Lemma quiet_isCoroException P h : log_free P → quiet P (isCoroException h) (λ e s, exn_is h e s ∧ P s).
Proof.
  intros HP. apply sim_same; [by intros s s' e [-> _]%isCoroException_Ok|].
  intros s1 s2 s1' e rest Hs [-> He]%isCoroException_Ok Hsim. by exists s2, ().
Qed.
Lemma sim_isCoroException P h : simulates P (isCoroException h) (isCoroException h) same.
Proof.
  apply sim_same; [by intros s s' e [-> _]%isCoroException_Ok|].
  intros s1 s2 s1' e rest Hs [-> (h' & -> & He)]%isCoroException_Ok Hsim. exists s2, e. split; [|done].
  apply isCoroException_Ok. split; [done|]. exists h'. by rewrite <-(coro_data_eq _ _ _ _ Hsim).
Qed.
Lemma sim_has_exception P h : simulates P (has_exception h) (has_exception h) same.
Proof. destruct h; [apply sim_isCoroException|apply sim_const]. Qed.
Lemma sim_bind_same {A B1 B2} P (m1 m2 : M A) (f1 : A → M B1) (f2 : A → M B2) R :
  adds m1 → (∀ a, adds (f1 a)) →
  simulates P m1 m2 same → (∀ a, simulates any (f1 a) (f2 a) R) → simulates P (m1 ≫= f1) (m2 ≫= f2) R.
Proof.
  intros ? ? H1 H2. eapply sim_bind; [done..|exact H1|]. intros a ? s1 s2 s1' b fs new rest ->. by apply H2.
Qed.

Lemma sim_resume_plain P h : simulates P (resume_plain h) (resume_plain h) same.
Proof.
  unfold resume_plain. apply sim_bind_same; [by adds|intros; by adds|apply sim_has_exception|].
  intros []; apply sim_const.
Qed.

(** *** Awaits *)
Lemma has_type_eq t t' d : has_type (code t, d) t' = bool_decide (code t = code t').
Proof. done. Qed.

(** [throw getCoroException( h )] of the replay *)
Lemma throw_coro_r h : simulates (exn_is h true) (mret AException) (throw_coro h) same.
Proof.
  apply sim_same; [intros s s' u H; by injection H as <- <-|].
  intros s1 s2 s1' u rest HP H Hs. injection H as <- <-. destruct HP as (h' & -> & He).
  exists s2, AException. split; [|done]. unfold throw_coro.
  erewrite m_bind_eq by (apply isCoroException_Ok; split; [done|]; exists h';
    rewrite <-(coro_data_eq _ _ _ _ Hs); split; [done|exact He]). done.
Qed.

Lemma sim_resume ok except h :
  ok ≠ except → ok ≠ incomplete → except ≠ incomplete →
  simulates any (resume_recording ok except h) (resume_replaying ok except h) same.
Proof.
  intros Hne H1 H2. unfold resume_recording, resume_replaying.
  eapply sim_bind_l; [by adds|intros; by adds|by apply (quiet_isCoroException any)|]. intros e. cbn beta.
  destruct e.
  - eapply sim_bind; [by adds|intros; by adds|apply sim_frame; [done|log_free]|]. intros [] fd. cbn beta.
    apply sim_pure. intros ->. rewrite has_type_eq, bool_decide_eq_true_2 by done.
    eapply sim_conseq; [|apply throw_coro_r|done]. by intros s [Hs _].
  - eapply sim_bind; [by adds|intros; by adds|apply sim_frame; [done|log_free]|]. intros [] fd. cbn beta.
    apply sim_pure. intros ->. rewrite !has_type_eq, bool_decide_eq_false_2, bool_decide_eq_true_2 by (done || by intros ?%(inj code)).
    apply sim_const.
Qed.

Lemma sim_by_mode {A1 A2} P (r q n : M A1) (r' q' n' : M A2) R :
  simulates P r q' R → simulates P (by_mode r q n) (by_mode r' q' n') R.
Proof. intros H. by apply sim_by_mode_l, sim_by_mode_r. Qed.

Lemma get_bool_byte b : get_bool 0 (Some <$> put_bool b) = Ok b.
Proof. by destruct b. Qed.

Lemma sim_await_ready (t1 t2 : M bool) Q :
  adds t1 → quiet any t1 Q → (∀ b, log_free (Q b)) →
  simulates any (await_ready t1) (await_ready t2) (λ b1 b2 _, b1 = b2).
Proof.
  intros Ha Ht Hlog. apply sim_by_mode. eapply sim_bind_l; [done|intros; by adds|exact Ht|]. intros b. cbn beta.
  eapply sim_bind; [by adds|intros; by adds|apply sim_frame; [done|apply Hlog]|]. intros [] fd. cbn beta.
  apply sim_pure. intros ->.
  eapply sim_bind_r; [by adds|by apply check_r|]. intros [].
  eapply sim_conseq; [|apply (sim_ret_lift (Q b) b), get_bool_byte|]; [done|]. by intros b1 b2 s [-> ?].
Qed.

(** field by field *)
Ltac sim_fields := intros [] [] []; constructor; simpl in *; try done; try congruence.

Lemma sim_suspend P (f : sock → sock) o h (b : answer) :
  (∀ d1 d2, sim_sock d1 d2 → sim_sock (f d1) (f d2)) →
  simulates P (_ ← initCoroData h; _ ← update f o; mret b) (_ ← initCoroData h; _ ← update f o; mret b) same.
Proof.
  intros Hf. eapply sim_seq; [by adds..|apply sim_initCoroData|].
  eapply sim_seq; [by adds..|by apply sim_update|apply sim_const].
Qed.
Lemma sim_suspend_server P (f : server → server) o h (b : answer) :
  (∀ d1 d2, sim_server d1 d2 → sim_server (f d1) (f d2)) →
  simulates P (_ ← initCoroData h; _ ← update_server f o; mret b) (_ ← initCoroData h; _ ← update_server f o; mret b) same.
Proof.
  intros Hf. eapply sim_seq; [by adds..|apply sim_initCoroData|].
  eapply sim_seq; [by adds..|by apply sim_update_server|apply sim_const].
Qed.

Lemma sim_await_connect P o h : simulates P (await_connect false o h) (await_connect false o h) same.
Proof. apply (sim_suspend P (set_connect (Some h)) o h ADone). sim_fields. Qed.
Lemma sim_resume_connect P h : simulates P (resume_connect false h) (resume_connect false h) same.
Proof.
  unfold resume_connect. eapply sim_seq; [by adds..|by apply sim_check|]. by apply sim_by_mode, sim_resume.
Qed.
Lemma sim_await_listen P o h : simulates P (await_listen o h) (await_listen o h) same.
Proof. apply (sim_suspend_server P (sset_listen (Some h)) o h ADone). sim_fields. Qed.
Lemma sim_resume_listen P h : simulates P (resume_listen h) (resume_listen h) same.
Proof. by apply sim_any, sim_by_mode, sim_resume. Qed.
Lemma sim_await_close P o h : simulates P (await_close false o h) (await_close false o h) same.
Proof. apply (sim_suspend_server P (sset_close (Some h)) o h ADone). sim_fields. Qed.
Lemma sim_resume_close P h : simulates P (resume_close false h) (resume_close false h) same.
Proof. by apply sim_any, sim_by_mode, sim_resume. Qed.
Lemma sim_resume_drain P h : simulates P (resume_drain false h) (resume_drain false h) same.
Proof. by apply sim_any, sim_by_mode, sim_resume. Qed.

Lemma quiet_has_data o n : quiet any (has_data o n) (λ _, any).
Proof. unfold has_data. eapply sim_bind_l; [by adds|intros; by adds|apply quiet_get|]. intros d. by apply sim_ret. Qed.

Lemma sim_suspend_read P o n h (b : answer) :
  simulates P (_ ← suspend_read o n h; mret b) (_ ← suspend_read o n h; mret b) same.
Proof.
  eapply sim_seq; [by adds..| |apply sim_const]. unfold suspend_read.
  eapply sim_seq; [by adds..|apply sim_initCoroData|apply sim_update]. sim_fields.
Qed.
Lemma sim_await_read P o n h : simulates P (await_read false o n h) (await_read false o n h) same.
Proof.
  apply sim_any. unfold await_read. apply sim_bind_same; [by adds|intros; by adds|apply (sim_await_ready _ _ (λ _, any)); [by adds|apply quiet_has_data|done]|].
  intros []; [apply sim_const|apply (sim_suspend_read any o n h (ABool false))].
Qed.
Lemma sim_await_data P o h : simulates P (await_data o h) (await_data o h) same.
Proof.
  apply sim_any. unfold await_data. apply sim_bind_same; [by adds|intros; by adds|apply (sim_await_ready _ _ (λ _, any)); [by adds|apply quiet_has_data|done]|].
  intros []; [apply sim_const|apply sim_suspend_read].
Qed.

Lemma quiet_os_closeSocket x o : x ≠ Tcp.Uninitialized → quiet any (os_closeSocket x o) (λ _, any).
Proof.
  intros Hx. unfold os_closeSocket. eapply sim_bind_l; [by adds|intros; by adds|apply quiet_get|]. intros d. cbn beta.
  destruct (is_closing d); [by apply sim_ret|].
  eapply quiet_seq; [by adds..|apply (quiet_put _ o d)|by apply sim_by_mode_l, sim_ret]; [by intros s [Hs _]|].
  intros d2 []. by constructor.
Qed.
Lemma quiet_update_any P o f : (∀ d1 d2, sim_sock d1 d2 → sim_sock (f d1) d2) → quiet P (update f o) (λ _, any).
Proof. intros Hf. eapply sim_conseq; [intros s Hs; exact Hs|by apply quiet_update|done]. Qed.
Lemma quiet_has_exception h : quiet any (has_exception h) (λ _, any).
Proof.
  destruct h; [|by apply sim_ret]. eapply sim_conseq; [done|by apply (quiet_isCoroException any)|done].
Qed.
Lemma quiet_write2 o data : quiet any (write2 o data) (λ _, any).
Proof.
  unfold write2. eapply sim_bind_l; [by adds|intros; by adds|apply quiet_get|]. intros d. cbn beta.
  destruct (bool_decide _); [by apply sim_never|]. apply sim_any.
  eapply sim_bind_l; [by adds|intros; by adds|apply quiet_has_exception|]. intros e. cbn beta.
  eapply quiet_seq; [by adds..|apply quiet_check|].
  destruct (bool_decide _).
  - eapply quiet_seq; [by adds..|by apply quiet_os_closeSocket|by apply sim_ret].
  - eapply sim_bind_l; [by adds|intros; by adds|apply quiet_env|]. intros [[write_ok broken] empty]. cbn beta iota.
    eapply quiet_seq; [by adds..| |].
    + instantiate (1 := λ _, any). destruct broken; [by apply quiet_os_closeSocket|by apply sim_ret].
    + eapply quiet_seq; [by adds..|apply quiet_update_any|by apply sim_ret]. intros d1 d2 []. by constructor.
Qed.
Lemma sim_await_write P o data h : simulates P (await_write o data h) (await_write o data h) same.
Proof.
  apply sim_any. unfold await_write. apply sim_bind_same; [by adds|intros; by adds|apply (sim_await_ready _ _ (λ _, any)); [by adds|apply quiet_write2|done]|].
  intros []; [apply sim_const|apply (sim_suspend any (set_write (Some h)))]. sim_fields.
Qed.

(** what [a_read] gives is what the frame holds *)
Lemma sim_resume_read P o n m h : simulates P (resume_read false o n m h) (resume_read false o n m h) same.
Proof.
  unfold resume_read, if_limited. eapply sim_seq; [by adds..|apply sim_const|].
  cbv zeta. apply sim_by_mode.
  eapply (sim_bind_l _ _ _ _ (λ e s, e = true → exn_is h true s)); [by adds|intros; by adds| |].
  { destruct h as [h|]; [|by apply sim_ret]. eapply sim_conseq; [done|by apply (quiet_isCoroException any)|].
    by intros e _ s [He _] ->. }
  intros [].
  - eapply sim_bind; [by adds|intros; by adds|apply sim_frame; [done|log_free]|]. intros [] fd. cbn beta.
    apply sim_pure. intros ->. eapply sim_conseq; [|apply throw_coro_r|done]. auto.
  - apply sim_any. eapply sim_bind_l; [by adds|intros; by adds|by apply (sim_ret any _ _ (λ t _ _, t = false))|].
    intros t. apply (sim_conseq _ (λ s, t = false ∧ any s) _ _ _ same); [done| |done]. apply sim_pure. intros ->.
    unfold get_ready_data. eapply sim_bind_l; [by adds|intros; by adds| |].
    + instantiate (1 := λ _, any). eapply sim_bind_l; [by adds|intros; by adds|apply quiet_get|]. intros d. cbn beta.
      eapply quiet_seq; [by adds..|apply (quiet_put _ o d)|by apply sim_ret]; [by intros s [Hs _]|].
      intros d2 []. by constructor.
    + intros buff. eapply sim_bind; [by adds|intros; by adds|apply sim_frame; [done|log_free]|]. intros [] fd. cbn beta.
      apply sim_pure. intros ->. eapply sim_seq; [by adds..| |apply sim_const].
      apply sim_check. cbn [snd default]. by rewrite length_fmap.
Qed.

Lemma sim_await_connection P o h : simulates P (await_connection false o h) (await_connection false o h) same.
Proof.
  unfold await_connection. eapply sim_seq; [by adds..|apply sim_initCoroData|].
  eapply sim_bind; [by adds|intros; by adds|apply sim_get_server|]. intros d1 d2. cbn beta. apply sim_pure. intros Hd.
  eapply sim_seq; [by adds..|apply sim_put_server|apply sim_const].
  - intros s [Hs _]. by exists d1.
  - destruct Hd. constructor; simpl; congruence.
Qed.

(** the socket is the one the event brought, not the one in the frame *)
Lemma sim_connection_sock P o : simulates P (connection_sock o) (connection_sock o) same.
Proof.
  unfold connection_sock. eapply sim_bind; [by adds|intros; by adds|apply sim_get_server|]. intros d1 d2. cbn beta.
  apply sim_pure. intros []. apply sim_ret. intros s _. by f_equal.
Qed.
Lemma sim_resume_connection P o h : simulates P (resume_connection false o h) (resume_connection false o h) same.
Proof.
  unfold resume_connection, if_limited. eapply sim_seq; [by adds..|apply sim_const|]. apply sim_by_mode.
  eapply sim_bind_l; [by adds|intros; by adds|apply quiet_check|]. intros []. cbn beta. apply sim_any.
  eapply sim_bind_l; [by adds|intros; by adds|by apply (quiet_isCoroException any)|]. intros [].
  - eapply sim_bind; [by adds|intros; by adds|apply sim_frame; [done|log_free]|]. intros [] fd. cbn beta.
    apply sim_pure. intros ->. eapply sim_conseq; [|apply throw_coro_r|done]. by intros s [Hs _].
  - apply sim_any. eapply sim_bind_l; [by adds|intros; by adds|by apply (sim_ret any _ _ (λ t _ _, t = false))|].
    intros t. apply (sim_conseq _ (λ s, t = false ∧ any s) _ _ _ same); [done| |done]. apply sim_pure. intros ->.
    eapply sim_bind_l; [by adds|intros; by adds|apply quiet_get_server|]. intros d. cbn beta. apply sim_any.
    destruct (ahd_connection_sock d); [|by apply sim_never].
    eapply sim_bind_l; [by adds|intros; by adds|apply quiet_gets|]. intros word. cbn beta.
    eapply sim_bind; [by adds|intros; by adds|apply sim_frame; [done|log_free]|]. intros [] fd. cbn beta.
    apply sim_pure. intros ->. apply sim_connection_sock.
Qed.

Lemma sim_closingProcedure P o : simulates P (closingProcedure o) (closingProcedure o) (λ _ _, any).
Proof. apply sim_update_server. sim_fields. Qed.

Lemma sim_connectSocket P o ip port : simulates P (connectSocket o ip port) (connectSocket o ip port) (λ _ _, any).
Proof.
  apply sim_any, sim_by_mode. unfold appConnectSocket, replay_appConnectSocket.
  eapply sim_bind; [by adds|intros; by adds|apply sim_get|]. intros d1 d2. cbn beta. apply sim_pure. intros Hd.
  eapply sim_seq; [by adds..|apply sim_check; by rewrite (ss_osSocket _ _ Hd)|].
  eapply sim_seq; [by adds..|apply sim_check|].
  { intros H. apply bool_decide_eq_true_2. apply (ss_state _ _ Hd). by apply bool_decide_eq_true_1 in H. }
  cbv zeta. apply sim_assoc_r. eapply sim_seq; [by adds..| |apply sim_update; sim_fields]. apply sim_by_mode_l.
  eapply quiet_seq; [by adds..| |].
  - instantiate (1 := λ _, any). eapply sim_bind_l; [by adds|intros; by adds|apply quiet_env|].
    intros []; [by apply sim_ret|by apply sim_never].
  - apply sim_unit_l. eapply sim_bind; [by adds|intros; by adds|apply sim_frame; [done|log_free]|]. intros [] fd. cbn beta.
    apply sim_pure. intros ->. by apply check_r.
Qed.

(** *** New objects

    a node with one more object, before anything but the world and the log changed *)
Definition fresh (p : process) (x : object) (w : W) (l : BinLog.t) s : node U W :=
  mk l (<[next s := (alloc p (live_addresses s), x)]> (objects s)) (S (next s)) (coros s) w (user s) (trace s).

Lemma create_Ok p x s : create p x s = Ok (fresh p x (world s) (blog s) s, next s).
Proof. done. Qed.

Lemma live_addresses_elem s o x : objects s !! o = Some x → x.1 ∈ live_addresses s.
Proof. intros H. unfold live_addresses. apply list_elem_of_fmap. exists x. split; [done|]. apply list_elem_of_fmap. exists (o, x). split; [done|]. by apply elem_of_map_to_list. Qed.

Lemma apart_create p x s :
  allocates N p → length (live_addresses s) < N → apart (objects s) → apart (<[next s := (alloc p (live_addresses s), x)]> (objects s)).
Proof.
  intros Hp Hl [H1 H2]. destruct (Hp (live_addresses s) Hl) as [Hr Hd]. split.
  - intros o z Hz. destruct (decide (next s = o)) as [<-|Hne].
    + rewrite lookup_insert_eq in Hz. by simplify_eq.
    + rewrite lookup_insert_ne in Hz by done. by apply (H1 o).
  - assert (Hn : ∀ o z, objects s !! o = Some z →
      (alloc p (live_addresses s) + object_size ≤ z.1 ∨ z.1 + object_size ≤ alloc p (live_addresses s))%Z)
      by (intros o z Hz; by eapply Hd, live_addresses_elem).
    intros o o' z z' Hz Hz' Hne. destruct (decide (next s = o)) as [<-|Hno], (decide (next s = o')) as [<-|Hno']; try done.
    + rewrite lookup_insert_eq in Hz. rewrite lookup_insert_ne in Hz' by done. simplify_eq. by eapply Hn.
    + rewrite lookup_insert_ne in Hz by done. rewrite lookup_insert_eq in Hz'. simplify_eq. cbn. destruct (Hn _ _ Hz); tauto.
    + rewrite lookup_insert_ne in Hz, Hz' by done. by eapply H2.
Qed.

(** the objects there are were numbered *)
Lemma live_addresses_length s : (∀ o, next s ≤ o → objects s !! o = None) → length (live_addresses s) ≤ next s.
Proof.
  intros Hf. unfold live_addresses. rewrite !length_fmap. rewrite length_map_to_list.
  rewrite <-size_dom, <-(size_set_seq (C := gset nat) 0 (next s)). apply subseteq_size. intros o Ho.
  apply elem_of_set_seq. split; [lia|]. destruct (decide (next s ≤ o)) as [Hle|]; [|lia].
  apply elem_of_dom in Ho as [x Hx]. rewrite (Hf o Hle) in Hx. done.
Qed.
Lemma Sim_room rest s1 s2 : Sim rest s1 s2 → next s1 < N → length (live_addresses s1) < N ∧ length (live_addresses s2) < N.
Proof.
  intros Hs Hn. pose proof (live_addresses_length s1 (sim_fresh _ _ _ Hs)).
  assert (length (live_addresses s2) ≤ next s2); [|rewrite <-(sim_next _ _ _ Hs) in *; lia].
  apply live_addresses_length. intros o Ho. rewrite <-(sim_next _ _ _ Hs) in Ho.
  pose proof (sim_objects _ _ _ Hs o) as He. rewrite (sim_fresh _ _ _ Hs o Ho) in He. by destruct (objects s2 !! o) as [[]|].
Qed.

Lemma Sim_new rest rest' s1 s2 l1 l2 w x1 x2 :
  let a1 := alloc p1 (live_addresses s1) in
  let a2 := alloc p2 (live_addresses s2) in
  let pm := BinLog.pointerMap l2 in
  Sim rest s1 s2 → next s1 < N → sim_object x1 x2 → Replays l2 rest' →
  pm !! a1 = Some a2 →
  (is_server x1 = true → pm !! (a1 + server_dfcp)%Z = Some (a2 + server_dfcp)%Z) →
  (∀ k, k ≠ a1 → k ≠ (a1 + server_dfcp)%Z → pm !! k = BinLog.pointerMap (blog s2) !! k) →
  Sim rest' (fresh p1 x1 w l1 s1) (fresh p2 x2 (world s2) l2 s2).
Proof.
  intros a1 a2 pm Hs Hlt Hx Hl Hm1 Hm2 Hold. destruct (Sim_room _ _ _ Hs Hlt) as [Hl1 Hl2]. pose proof server_dfcp_inside as Hin.
  destruct Hs as [Hn Hc Hu Ht Ho Hf Ha1 Ha2 _].
  constructor; unfold fresh; cbn [blog next coros user trace objects]; try done.
  - congruence.
  - intros o. rewrite Hn. destruct (decide (next s2 = o)) as [<-|Hne].
    { rewrite !lookup_insert_eq. cbn. done. }
    rewrite !lookup_insert_ne by done. specialize (Ho o). fold pm.
    destruct (objects s1 !! o) as [[b1 y1]|] eqn:E1, (objects s2 !! o) as [[b2 y2]|] eqn:E2; try done.
    destruct (Hp1 (live_addresses s1) Hl1) as [_ Hd]. specialize (Hd b1 (live_addresses_elem _ _ _ E1)). fold a1 in Hd.
    destruct Ho as (Hy & Hb & Hbd). cbn. split; [done|]. split.
    + rewrite Hold; [done|lia..].
    + intros Hsv. rewrite Hold; [by apply Hbd|lia..].
  - intros o Hle. rewrite lookup_insert_ne by lia. apply Hf. lia.
  - by apply apart_create.
  - by apply apart_create.
Qed.

Lemma at_fresh p x w l s : at_ (next s) (alloc p (live_addresses s)) x (fresh p x w l s).
Proof. apply lookup_insert_eq. Qed.
Lemma this_fresh p x w l s : this (next s) (fresh p x w l s) = Ok (fresh p x w l s, alloc p (live_addresses s)).
Proof. unfold this. erewrite m_bind_eq by (apply lookup_Ok; split; [done|apply at_fresh]). done. Qed.
Lemma get_fresh p d w l s : get (next s) (fresh p (Client d) w l s) = Ok (fresh p (Client d) w l s, d).
Proof. apply get_Ok. split; [done|]. eexists. apply at_fresh. Qed.
Lemma put_fresh p x d w l s : put (next s) d (fresh p x w l s) = Ok (fresh p (Client d) w l s, ()).
Proof.
  apply put_Ok. eexists _, _. split; [apply at_fresh|]. unfold fresh.
  cbn [with_objects objects blog next coros user trace world]. by rewrite insert_insert_eq.
Qed.
Lemma get_server_fresh p d w l s : get_server (next s) (fresh p (Srv d) w l s) = Ok (fresh p (Srv d) w l s, d).
Proof. apply get_server_Ok. split; [done|]. eexists. apply at_fresh. Qed.
Lemma put_server_fresh p x d w l s : put_server (next s) d (fresh p x w l s) = Ok (fresh p (Srv d) w l s, ()).
Proof.
  apply put_server_Ok. eexists _, _. split; [apply at_fresh|]. unfold fresh.
  cbn [with_objects objects blog next coros user trace world]. by rewrite insert_insert_eq.
Qed.
Lemma update_fresh p d f w l s : update f (next s) (fresh p (Client d) w l s) = Ok (fresh p (Client (f d)) w l s, ()).
Proof. unfold update. erewrite m_bind_eq by apply get_fresh. apply put_fresh. Qed.
Lemma update_server_fresh p d f w l s :
  update_server f (next s) (fresh p (Srv d) w l s) = Ok (fresh p (Srv (f d)) w l s, ()).
Proof. unfold update_server. erewrite m_bind_eq by apply get_server_fresh. apply put_server_fresh. Qed.
Lemma env_fresh {A} (f : W → W * A) p x w l s : env f (fresh p x w l s) = Ok (fresh p x (f w).1 l s, (f w).2).
Proof. unfold env, fresh. cbn [world]. by destruct (f w). Qed.
Lemma add_frame_fresh p x w l s ty data s' u fs :
  ty ≠ incomplete → Recorded l fs → add_frame ty data (fresh p x w l s) = Ok (s', u) →
  ∃ l', s' = fresh p x w l' s ∧ Recorded l' (fs ++ [(code ty, default [] data)]).
Proof. intros Hty Hr H. eapply add_frame_Ok in H as [-> ?]; [|done..]. by exists (blog s'). Qed.

(** what a socket is when it was registered *)
Definition registered (i sk : Z) (sv : option nat) : sock := set_index (u64 i) (set_osSocket (u64 sk) (new_sock sv)).
Definition register_frame (s : node U W) (i sk : Z) : BinLog.frame :=
  let a := alloc p1 (live_addresses s) in
  (code sock_register_2,
   ServerOrSocketRegisterFrameData (padding p1) ClientSocket (u64 i) a (a + socket_dfcp) (u64 sk)).

Lemma check_Ok b s s' u : check b s = Ok (s', u) → b = true ∧ s' = s.
Proof. unfold check. destruct b; [|done]. by intros [= <- _]. Qed.

Lemma register_Ok s s' sv sk w l u fs :
  Recorded l fs →
  registerAndAssignSocket p1 (next s) sk (fresh p1 (Client (new_sock sv)) w l s) = Ok (s', u) →
  ∃ i w' l', s' = fresh p1 (Client (registered i sk sv)) w' l' s ∧ Recorded l' (fs ++ [register_frame s i sk]).
Proof.
  intros Hrec H. unfold registerAndAssignSocket in H. erewrite m_bind_eq in H by apply get_fresh.
  apply m_bind_Ok in H as (t & [] & [_ ->]%check_Ok & H). erewrite m_bind_eq in H by apply put_fresh.
  erewrite m_bind_eq in H by apply env_fresh. unfold NetSocketEntry in H. erewrite m_bind_eq in H by apply get_fresh.
  apply m_bind_Ok in H as (t & [] & H1 & H).
  unfold if_recording, by_mode in H1. cbn [fresh blog] in H1. rewrite (Recorded_mode _ _ Hrec) in H1.
  erewrite m_bind_eq in H1 by apply this_fresh.
  eapply add_frame_fresh in H1 as (l' & -> & Hr); [|done..].
  erewrite m_bind_eq in H by apply put_fresh. apply check_Ok in H as [_ ->].
  eexists _, _, l'. split; [reflexivity|exact Hr].
Qed.
Lemma lift_Ok_eq {A} (r : res A) v s : r = Ok v → lift r s = Ok (s, v).
Proof. by intros ->. Qed.

(** the fields of the frame of a registration *)
Lemma register_fields q ty i a b sk :
  (0 ≤ a < 2 ^ 64)%Z → (0 ≤ b < 2 ^ 64)%Z →
  let d := Some <$> ServerOrSocketRegisterFrameData q ty (u64 i) a b (u64 sk) in
  field 0 4 d = Ok (object_code ty) ∧ field 8 8 d = Ok (u64 i) ∧ field 16 8 d = Ok a ∧ field 24 8 d = Ok b ∧
  field 32 8 d = Ok (u64 sk).
Proof.
  intros Ha Hb d. unfold d, ServerOrSocketRegisterFrameData.
  pose proof (u64_range i). pose proof (u64_range sk). change (2 ^ 64)%Z with (256 ^ Z.of_nat 8)%Z in *.
  set (A := le_split 4 (object_code ty)). set (I := le_split 8 (u64 i)). set (S' := le_split 8 (u64 sk)).
  assert (length A = 4 ∧ length (pad q 4) = 4 ∧ length I = 8 ∧ ∀ v, length (le_split 8 v) = 8) as (LA & LP & LI & L8).
  { unfold A, I. repeat split; intros; rewrite ?length_le_split; try done. }
  split_and!.
  - apply field_head. by destruct ty.
  - rewrite (app_assoc A). apply field_mid; [by rewrite length_app, LA, LP|done].
  - rewrite (app_assoc A), (app_assoc (A ++ _)). apply field_mid; [by rewrite !length_app, LA, LP, LI|done].
  - rewrite (app_assoc A), (app_assoc (A ++ _)), (app_assoc ((A ++ _) ++ _)).
    apply field_mid; [by rewrite !length_app, LA, LP, LI, L8|done].
  - rewrite (app_assoc A), (app_assoc (A ++ _)), (app_assoc ((A ++ _) ++ _)), (app_assoc (((A ++ _) ++ _) ++ _)).
    unfold S'. rewrite <-(app_nil_r (le_split 8 (u64 sk))). apply field_mid; [by rewrite !length_app, LA, LP, LI, !L8|done].
Qed.

Lemma on_log_fresh {A} (f : BinLog.t → res (BinLog.t * A)) p x w l l' a s :
  f l = Ok (l', a) → on_log f (fresh p x w l s) = Ok (fresh p x w l' s, a).
Proof. intros H. unfold on_log, fresh. cbn [blog]. by rewrite H. Qed.
Lemma read_frame_fresh p x w l s (f : BinLog.frame) rest :
  Replays l (f :: rest) →
  ∃ l', read_frame (fresh p x w l s) = Ok (fresh p x w l' s, (f.1, Some <$> f.2)) ∧ Replays l' rest ∧
        BinLog.pointerMap l' = BinLog.pointerMap l.
Proof.
  intros H. apply Replays_read in H as (l' & E & Hr & Hm & _). exists l'. split; [|done].
  unfold read_frame. by eapply on_log_fresh.
Qed.
Lemma add_mapping_fresh p x w l s rest old new :
  Replays l rest →
  ∃ l', add_mapping old new (fresh p x w l s) = Ok (fresh p x w l' s, ()) ∧ Replays l' rest ∧
        BinLog.pointerMap l' = <[old := new]> (BinLog.pointerMap l).
Proof.
  intros H. apply (Replays_mapping _ _ old new) in H as (l' & E & Hr & Hm). exists l'. split; [|done].
  unfold add_mapping. apply on_log_fresh. by rewrite E.
Qed.

Lemma range_dfcp a d : (0 < d < object_size)%Z → (0 ≤ a ∧ a + object_size ≤ 2 ^ 64)%Z →
  (0 ≤ a < 2 ^ 64)%Z ∧ (0 ≤ a + d < 2 ^ 64)%Z.
Proof. lia. Qed.

Lemma replay_register s1 s2 sv i sk w l rest :
  length (live_addresses s1) < N → Replays l (register_frame s1 i sk :: rest) →
  ∃ l' d2, replay_registerAndAssignSocket (next s2) (fresh p2 (Client (new_sock sv)) w l s2) =
             Ok (fresh p2 (Client d2) w l' s2, ()) ∧
           sim_sock (registered i sk sv) d2 ∧ Replays l' rest ∧
           BinLog.pointerMap l' = <[alloc p1 (live_addresses s1) := alloc p2 (live_addresses s2)]> (BinLog.pointerMap l).
Proof.
  intros Hlt Hl. destruct (Hp1 (live_addresses s1) Hlt) as [Hr _].
  destruct (range_dfcp _ _ socket_dfcp_inside Hr) as [Ha Hb].
  destruct (register_fields (padding p1) ClientSocket i _ _ sk Ha Hb) as (F0 & F8 & F16 & _ & F32).
  destruct (read_frame_fresh p2 (Client (new_sock sv)) w l s2 _ _ Hl) as (l1 & E1 & Hl1 & Hm1).
  destruct (add_mapping_fresh p2 (Client (new_sock sv)) w l1 s2 _ (alloc p1 (live_addresses s1)) (alloc p2 (live_addresses s2)) Hl1) as (l2 & E2 & Hl2 & Hm2).
  unfold register_frame in E1. cbn [fst snd] in E1.
  exists l2, (set_osSocket (u64 sk) (set_osSocket (u64 i) (new_sock sv))).
  split; [|split; [by constructor|split; [done|by rewrite Hm2, Hm1]]].
  unfold replay_registerAndAssignSocket, by_mode. cbn [blog fresh]. rewrite (Replays_mode _ _ Hl).
  erewrite m_bind_eq by exact E1. rewrite has_type_eq, bool_decide_eq_true_2 by done. cbn [snd].
  erewrite m_bind_eq by (apply lift_Ok_eq; exact F0). rewrite bool_decide_eq_true_2 by done.
  erewrite m_bind_eq by reflexivity. erewrite m_bind_eq by (apply lift_Ok_eq; exact F16).
  erewrite m_bind_eq by apply this_fresh. erewrite m_bind_eq by exact E2.
  erewrite m_bind_eq by (apply lift_Ok_eq; exact F8). erewrite m_bind_eq by apply update_fresh.
  erewrite m_bind_eq by (apply lift_Ok_eq; exact F32). apply update_fresh.
Qed.

Lemma Sim_register rest s1 s2 w l sv sk s1' u fs new :
  Sim (new ++ rest) s1 s2 → Recorded l fs →
  registerAndAssignSocket p1 (next s1) sk (fresh p1 (Client (new_sock sv)) w l s1) = Ok (s1', u) →
  Ends s1' (fs ++ new) →
  ∃ s2', replay_registerAndAssignSocket (next s2) (fresh p2 (Client (new_sock sv)) (world s2) (blog s2) s2) = Ok (s2', ()) ∧
         Sim rest s1' s2'.
Proof.
  intros Hs Hrec H Hrec'. destruct (register_Ok _ _ _ _ _ _ _ _ Hrec H) as (i & w' & l' & -> & Hr).
  pose proof (Recorded_unique _ _ _ (proj1 Hrec') Hr) as Hn. apply app_inv_head in Hn as ->.
  destruct (replay_register s1 s2 sv i sk (world s2) _ _ (proj1 (Sim_room _ _ _ Hs (proj2 Hrec'))) (sim_log _ _ _ Hs)) as (l2 & d2 & E2 & Hd & Hl2 & Hm2).
  eexists. split; [exact E2|]. pose proof server_dfcp_inside.
  eapply (Sim_new _ _ s1 s2 l' l2); try done.
  - apply Hrec'.
  - rewrite Hm2. apply lookup_insert_eq.
  - intros k Hk _. rewrite Hm2. by rewrite lookup_insert_ne.
Qed.

Lemma sim_new_socket {A} P sv (m1 m2 : nat → M ()) (k : nat → A) :
  (∀ s w l fs s' u, Recorded l fs → m1 (next s) (fresh p1 (Client (new_sock sv)) w l s) = Ok (s', u) →
     ∃ w' sk, registerAndAssignSocket p1 (next s) sk (fresh p1 (Client (new_sock sv)) w' l s) = Ok (s', u)) →
  (∀ o s, BinLog.mode_ (blog s) = BinLog.replaying → m2 o s = replay_registerAndAssignSocket o s) →
  simulates P (o ← create p1 (Client (new_sock sv)); _ ← m1 o; mret (k o))
              (o ← create p2 (Client (new_sock sv)); _ ← m2 o; mret (k o)) same.
Proof.
  intros Hm1 Hm2 s1 s2 s1' o fs new rest _ Hrec H Hrec' Hs.
  erewrite m_bind_eq in H by apply create_Ok. apply m_bind_Ok in H as (t & u & H & E). injection E as -> <-.
  eapply Hm1 in H as (w & sk & H); [|exact Hrec].
  destruct (Sim_register _ _ _ _ _ _ _ _ _ _ _ Hs Hrec H Hrec') as (s2' & E2 & Hs').
  exists s2', (k (next s1)). split; [|done]. erewrite m_bind_eq by apply create_Ok.
  erewrite m_bind_eq by (rewrite Hm2; [exact E2|exact (Replays_mode _ _ (sim_log _ _ _ Hs))]).
  by rewrite (sim_next _ _ _ Hs).
Qed.

Lemma by_mode_replaying {A} (r q n : M A) s : BinLog.mode_ (blog s) = BinLog.replaying → by_mode r q n s = q s.
Proof. unfold by_mode. by intros ->. Qed.
Lemma by_mode_recording {A} (r q n : M A) s fs : Recorded (blog s) fs → by_mode r q n s = r s.
Proof. intros H. unfold by_mode. by rewrite (Recorded_mode _ _ H). Qed.

Lemma sim_CNewSocket P : simulates P (run_call p1 CNewSocket) (run_call p2 CNewSocket) same.
Proof.
  apply sim_new_socket; [|intros; by apply by_mode_replaying].
  intros s w l fs s' u Hrec H. unfold registerWithInfraAndAcquireSocket in H.
  erewrite by_mode_recording in H by exact Hrec. unfold appAcquireSocket in H. erewrite m_bind_eq in H by apply env_fresh.
  destruct (env_make_socket w).2 as [sk|]; [|done]. eauto.
Qed.

Lemma m_ext {A B} (m : M A) (f g : A → M B) s : (∀ a t, f a t = g a t) → (m ≫= f) s = (m ≫= g) s.
Proof.
  intros H. change ((m ≫= f) s) with (res_bind _ _ (λ '(t, a), f a t) (m s)).
  change ((m ≫= g) s) with (res_bind _ _ (λ '(t, a), g a t) (m s)). destruct (m s) as [[t a]| | | |]; [|done..]. apply H.
Qed.
Lemma m_nest {A B} (m : M A) (n : A → M ()) (f : A → M B) s :
  (a ← m; _ ← n a; f a) s = ((a ← m; _ ← n a; mret a) ≫= f) s.
Proof. rewrite m_assoc. apply m_ext. intros a t. by rewrite m_assoc. Qed.

Lemma sim_makeSocket P sv sk sk' : simulates P (makeSocket p1 sv sk) (makeSocket p2 sv sk') same.
Proof.
  unfold makeSocket. apply sim_any.
  assert (H : simulates any
    (o ← create p1 (Client (new_sock (Some sv))); _ ← registerWithInfraAndAssignSocket p1 o sk; mret o)
    (o ← create p2 (Client (new_sock (Some sv))); _ ← registerWithInfraAndAssignSocket p2 o sk'; mret o) same).
  { apply sim_new_socket; [|intros; by apply by_mode_replaying].
    intros s w l fs s' u Hrec H. unfold registerWithInfraAndAssignSocket in H.
    erewrite by_mode_recording in H by exact Hrec. eauto. }
  apply (sim_ext _ _ ((o ← create p1 (Client (new_sock (Some sv))); _ ← registerWithInfraAndAssignSocket p1 o sk; mret o) ≫=
      λ o, d ← get_server sv; '(l, _) ← lift (MultiOwner.add (Some o) (socketList d)); _ ← put_server sv (sset_list l d); mret o)
    _ ((o ← create p2 (Client (new_sock (Some sv))); _ ← registerWithInfraAndAssignSocket p2 o sk'; mret o) ≫=
      λ o, d ← get_server sv; '(l, _) ← lift (MultiOwner.add (Some o) (socketList d)); _ ← put_server sv (sset_list l d); mret o)).
  { intros s. apply m_nest. }
  { intros s. apply m_nest. }
  apply sim_bind_same; [by adds|intros; by adds|exact H|]. clear H. intros o.
  eapply sim_bind; [by adds|intros; by adds|apply sim_get_server|]. intros d1 d2. cbn beta.
  apply sim_pure. intros Hd. rewrite <-(sv_list _ _ Hd).
  eapply sim_bind; [by adds|intros; by adds|apply sim_lift|]. intros [l1 k1] [l2 k2]. cbn beta.
  apply sim_pure. intros [= <- <-].
  eapply sim_seq; [by adds..|apply sim_put_server|apply sim_const].
  - intros s [Hs _]. by exists d1.
  - destruct Hd. by constructor.
Qed.

(** *** New servers *)
Definition server_frame (s : node U W) (i sk : Z) : BinLog.frame :=
  let a := alloc p1 (live_addresses s) in
  (code server_register_2,
   ServerOrSocketRegisterFrameData (padding p1) ServerSocket (u64 i) a (a + server_dfcp) (u64 sk)).

Lemma appAddServer_Ok s s' w l u fs :
  Recorded l fs → appAddServer p1 (next s) (fresh p1 (Srv new_server) w l s) = Ok (s', u) →
  ∃ i sk w' l', s' = fresh p1 (Srv (sset_entry (u64 i) (u64 sk) new_server)) w' l' s ∧
                Recorded l' (fs ++ [server_frame s i sk]).
Proof.
  intros Hrec H. unfold appAddServer, not_in_replay in H.
  apply m_bind_Ok in H as (t & [] & H1 & H). erewrite by_mode_recording in H1 by exact Hrec. injection H1 as <-.
  erewrite m_bind_eq in H by apply env_fresh. destruct (env_make_socket w).2 as [sk|]; [|done].
  erewrite m_bind_eq in H by apply get_server_fresh. erewrite m_bind_eq in H by apply put_server_fresh.
  erewrite m_bind_eq in H by apply env_fresh. apply m_bind_Ok in H as (t & [] & H1 & H).
  unfold if_recording in H1. erewrite by_mode_recording in H1 by exact Hrec.
  erewrite m_bind_eq in H1 by apply this_fresh.
  eapply add_frame_fresh in H1 as (l' & -> & Hr); [|done..].
  erewrite m_bind_eq in H by apply put_server_fresh. apply check_Ok in H as [_ ->].
  eexists _, _, _, l'. split; [reflexivity|exact Hr].
Qed.

Lemma replay_server s1 s2 i sk w l rest :
  let a1 := alloc p1 (live_addresses s1) in
  let a2 := alloc p2 (live_addresses s2) in
  length (live_addresses s1) < N → Replays l (server_frame s1 i sk :: rest) →
  ∃ l', replay_appAddServer (next s2) (fresh p2 (Srv new_server) w l s2) =
          Ok (fresh p2 (Srv (sset_entry (u64 i) (u64 sk) new_server)) w l' s2, ()) ∧
        Replays l' rest ∧
        BinLog.pointerMap l' = <[(a1 + server_dfcp)%Z := (a2 + server_dfcp)%Z]> (<[a1 := a2]> (BinLog.pointerMap l)).
Proof.
  intros a1 a2 Hlt Hl. destruct (Hp1 (live_addresses s1) Hlt) as [Hr _].
  destruct (range_dfcp _ _ server_dfcp_inside Hr) as [Ha Hb].
  destruct (register_fields (padding p1) ServerSocket i _ _ sk Ha Hb) as (F0 & F8 & F16 & F24 & F32).
  destruct (read_frame_fresh p2 (Srv new_server) w l s2 _ _ Hl) as (l1 & E1 & Hl1 & Hm1).
  destruct (add_mapping_fresh p2 (Srv new_server) w l1 s2 _ a1 a2 Hl1) as (l2 & E2 & Hl2 & Hm2).
  destruct (add_mapping_fresh p2 (Srv new_server) w l2 s2 _ (a1 + server_dfcp) (a2 + server_dfcp) Hl2) as (l3 & E3 & Hl3 & Hm3).
  unfold server_frame in E1. cbn [fst snd] in E1. exists l3.
  split; [|split; [done|by rewrite Hm3, Hm2, Hm1]].
  unfold replay_appAddServer. rewrite by_mode_replaying by exact (Replays_mode _ _ Hl).
  erewrite m_bind_eq by exact E1. rewrite has_type_eq, bool_decide_eq_true_2 by done. cbn [snd].
  erewrite m_bind_eq by (apply lift_Ok_eq; exact F0). rewrite bool_decide_eq_true_2 by done.
  erewrite m_bind_eq by reflexivity. erewrite m_bind_eq by apply this_fresh.
  erewrite m_bind_eq by (apply lift_Ok_eq; exact F16). erewrite m_bind_eq by exact E2.
  erewrite m_bind_eq by (apply lift_Ok_eq; exact F24). erewrite m_bind_eq by exact E3.
  erewrite m_bind_eq by (apply lift_Ok_eq; exact F32). erewrite m_bind_eq by (apply lift_Ok_eq; exact F8).
  apply update_server_fresh.
Qed.

Lemma sim_CNewServer P : simulates P (run_call p1 CNewServer) (run_call p2 CNewServer) same.
Proof.
  intros s1 s2 s1' o fs new rest _ Hrec H Hrec' Hs. cbn [run_call] in *.
  erewrite m_bind_eq in H by apply create_Ok. apply m_bind_Ok in H as (t & u & H & E). injection E as -> <-.
  unfold registerServer in H. erewrite by_mode_recording in H by exact Hrec.
  destruct (appAddServer_Ok _ _ _ _ _ _ Hrec H) as (i & sk & w' & l' & -> & Hr).
  pose proof (Recorded_unique _ _ _ (proj1 Hrec') Hr) as Hn. apply app_inv_head in Hn as ->.
  destruct (replay_server s1 s2 i sk (world s2) _ _ (proj1 (Sim_room _ _ _ Hs (proj2 Hrec'))) (sim_log _ _ _ Hs)) as (l2 & E2 & Hl2 & Hm2).
  eexists _, (AObject (next s1)). split; [|split; [done|]].
  - erewrite m_bind_eq by apply create_Ok. unfold registerServer.
    erewrite m_bind_eq by (rewrite by_mode_replaying; [exact E2|exact (Replays_mode _ _ (sim_log _ _ _ Hs))]).
    by rewrite (sim_next _ _ _ Hs).
  - pose proof server_dfcp_inside. eapply (Sim_new _ _ s1 s2 l' l2); try done.
    + apply Hrec'.
    + rewrite Hm2, lookup_insert_ne by lia. apply lookup_insert_eq.
    + intros _. rewrite Hm2. apply lookup_insert_eq.
    + intros k Hk Hk'. rewrite Hm2. by rewrite !lookup_insert_ne.
Qed.

(** ** Listening: the pointer of the frame is that of [dataForCommandProcessing] *)
Lemma quiet_env_keeps {A} P (f : W → W * A) : (∀ s w, P s → P (with_world w s)) → quiet P (env f) (λ _, P).
Proof.
  intros HP s1 s2 s1' a fs new rest Hs Hrec H Hrec' Hsim.
  destruct (quiet_env f s1 s2 s1' a fs new rest I Hrec H Hrec' Hsim) as (s2' & u & E & _ & Hsim').
  exists s2', u. split; [done|]. split; [|done]. unfold env in H. destruct (f (world s1)). injection H as <- _. by apply HP.
Qed.

Lemma server_dfcp_r P o a r :
  (∀ s, P s → ∃ d, at_ o a (Srv d) s) → ((0 ≤ a + server_dfcp < 2 ^ 64)%Z → r = Ok (a + server_dfcp)%Z) →
  simulates P (mret ()) (old ← lift r; dfcp ← map_pointer old; server_at (dfcp - server_dfcp)) (λ _ o' s, o' = o ∧ P s).
Proof.
  intros Hc Hr. apply sim_same; [intros s s' u H; by injection H as <- <-|].
  intros s1 s2 s1' u rest HP H Hs. injection H as <- <-. destruct (Hc _ HP) as [d Ha].
  destruct (range_dfcp _ _ server_dfcp_inside (Sim_range1 _ _ _ _ _ _ Hs Ha)) as [_ Hb].
  destruct (Sim_at _ _ _ _ _ _ Hs Ha) as (a2 & [|d2] & Ha2 & Hx & _ & Hm); [done|].
  exists s2, o. split; [|done]. erewrite m_bind_eq by (apply lift_Ok_eq, Hr, Hb).
  erewrite m_bind_eq by (eapply map_pointer_spec; [apply (sim_log _ _ _ Hs)|by apply Hm]).
  replace (a2 + server_dfcp - server_dfcp)%Z with a2 by lia. unfold server_at.
  erewrite m_bind_eq by (eapply at_address_spec; [apply (sim_apart2 _ _ _ Hs)|done]).
  erewrite m_bind_eq by (apply get_server_Ok; split; [done|by eexists]). done.
Qed.

(** [this] of an object whose address is known *)
Lemma quiet_this_at o a x : quiet (at_ o a x) (this o) (λ a' s, a' = a ∧ at_ o a x s).
Proof.
  eapply sim_conseq; [intros s Hs; exact Hs|apply quiet_this|]. intros a' _ s [[x' Hx] Ha]. split; [|done].
  unfold at_ in *. rewrite Ha in Hx. by injection Hx.
Qed.

Lemma sim_listen_frame d o ip port backlog :
  simulates (server_at_ o d)
    (if_recording (a ← this o; add_frame server_listen (Some (ServerListen (padding p1) (a + server_dfcp) ip port backlog))))
    (fd ← read_frame; _ ← check (has_type fd server_listen); old ← lift (get_ptr fd.2);
     dfcp ← map_pointer old; server_at (dfcp - server_dfcp))
    (λ _ o' s, o' = o ∧ server_at_ o d s).
Proof.
  apply sim_by_mode_l, sim_exists. intros a.
  eapply sim_bind_l; [by adds|intros; by adds|apply quiet_this_at|]. intros a'. apply sim_pure. intros ->. apply sim_unit_l.
  eapply sim_bind; [by adds|intros; by adds|apply sim_frame; [done|log_free]|]. intros [] fd. cbn beta.
  apply sim_pure. intros ->. eapply sim_bind_r; [by adds|by apply check_r|]. intros [].
  eapply sim_conseq; [intros s Hs; exact Hs|apply (server_dfcp_r (at_ o a (Srv d)) o a)|].
  - intros s Hs. by exists d.
  - intros Hb. by apply get_ptr_head.
  - intros [] o' s [-> Hs]. split; [done|]. by exists a.
Qed.

Lemma sim_listened d o ip port :
  simulates (server_at_ o d)
    (d ← get_server o; _ ← put_server o (sset_address true (listen_address ip port) d); check (bool_decide (sindex d ≠ 0%Z)))
    (d ← get_server o; _ ← put_server o (sset_address true (listen_address ip port) d); check (bool_decide (sindex d ≠ 0%Z)))
    (λ _ _, any).
Proof.
  eapply sim_bind; [by adds|intros; by adds|apply sim_get_server|]. intros d1 d2. cbn beta. apply sim_pure. intros Hd.
  eapply sim_seq; [by adds..|apply sim_put_server|].
  - intros s [Hs _]. by exists d1.
  - destruct Hd. by constructor.
  - eapply sim_conseq; [done|apply sim_check; by rewrite (sv_index _ _ Hd)|done].
Qed.

Lemma sim_rrProcessListen d o ip port backlog :
  simulates (server_at_ o d) (rrProcessListen p1 o ip port backlog) (replay_appListen ip port) (λ _ _, any).
Proof.
  unfold rrProcessListen, replay_appListen.
  eapply sim_bind_l; [by adds|intros; by adds|apply sim_by_mode_l; by apply (sim_ret _ _ _ (λ _ _, server_at_ o d))|].
  intros []. cbn beta.
  eapply sim_bind_r; [by adds|apply sim_by_mode_r; by apply (sim_ret _ _ _ (λ _ _, server_at_ o d))|]. intros []. cbn beta.
  apply (sim_ext _ _ (if_recording (a ← this o; add_frame server_listen (Some (ServerListen (padding p1) (a + server_dfcp) ip port backlog)))
     ≫= λ _, d ← get_server o; _ ← put_server o (sset_address true (listen_address ip port) d); check (bool_decide (sindex d ≠ 0%Z)))
   _ ((fd ← read_frame; _ ← check (has_type fd server_listen); old ← lift (get_ptr fd.2);
     dfcp ← map_pointer old; server_at (dfcp - server_dfcp)) ≫= λ o, d ← get_server o;
     _ ← put_server o (sset_address true (listen_address ip port) d); check (bool_decide (sindex d ≠ 0%Z)))); [done| |].
  { intros s. rewrite !m_assoc. apply m_ext. intros fd t. rewrite !m_assoc. apply m_ext. intros [] t'.
    rewrite !m_assoc. apply m_ext. intros old t''. by rewrite !m_assoc. }
  eapply sim_bind; [by adds|intros; by adds|apply sim_listen_frame|]. intros [] o'. cbn beta. apply sim_pure. intros ->.
  apply sim_listened.
Qed.

(** with a port: the port the system chose for 0 would not be in the frame *)
Lemma sim_appListen P o ip port backlog :
  port ≠ 0%Z → simulates P (appListen p1 o ip port backlog) (appListen p2 o ip port backlog) (λ _ _, any).
Proof.
  intros Hp. apply sim_any. unfold appListen. cbv zeta. apply sim_by_mode.
  eapply sim_bind_l; [by adds|intros; by adds|apply quiet_get_server|]. intros d. cbn beta.
  eapply (sim_conseq _ (server_at_ o d)); [by intros s [Hs _]| |intros a1 a2 s Hs; exact Hs].
  eapply sim_bind_l; [by adds|intros; by adds|by apply quiet_env_keeps|]. intros bound. cbn beta.
  destruct bound; [|by apply sim_never]. cbn [negb]. rewrite bool_decide_eq_false_2 by done.
  eapply sim_bind_l; [by adds|intros; by adds|by apply (sim_ret _ _ _ (λ p _ s, p = port ∧ server_at_ o d s))|].
  intros port'. apply sim_pure. intros ->.
  eapply sim_bind_l; [by adds|intros; by adds|by apply quiet_env_keeps|]. intros ok. cbn beta.
  destruct ok; [|by apply sim_never]. apply sim_rrProcessListen.
Qed.

(** *** What may be called

    Not: waits with a time limit, a server on a port that the system is to choose, and four calls
    whose replay fails or tells the user something else (see the end of the file). *)
Definition replayable (c : call) : Prop :=
  match c with
  | CNewSocket | CNewServer | CConnect _ _ _ | CCloseServer _ => True
  | CListen _ _ port _ => u16 port ≠ 0%Z
  | CAwaitConnect limit _ _ | CResumeConnect limit _ | CAwaitRead limit _ _ _ | CResumeRead limit _ _ _ _
  | CResumeDrain limit _ | CAwaitConnection limit _ _ | CResumeConnection limit _ _ | CAwaitClose limit _ _
  | CResumeClose limit _ => limit = false
  | CAwaitData _ _ | CAwaitWrite _ _ _ | CResumeWrite _ | CAwaitListen _ _ | CResumeListen _ => True
  | CListening _ | CDestroy _ | CResumeData _ _ | CAwaitDrain _ _ _ => False
  end.
Fixpoint replayable_prog (q : prog U) : Prop :=
  match q with
  | Done _ => True
  | Call c k => replayable c ∧ ∀ a, replayable_prog (k a)
  end.

Lemma sim_done {A} P (m1 m2 : M ()) (a : A) R :
  adds m1 → simulates P m1 m2 R → simulates P (_ ← m1; mret a) (_ ← m2; mret a) same.
Proof. intros ? H. eapply sim_bind; [done|intros; by adds|exact H|]. intros ??. by apply sim_ret. Qed.

Lemma sim_run_call P c : replayable c → simulates P (run_call p1 c) (run_call p2 c) same.
Proof.
  destruct c; cbn [replayable]; intros Hc; subst; try done; cbn [run_call].
  - apply sim_CNewSocket.
  - apply sim_CNewServer.
  - eapply sim_done; [by adds|apply sim_connectSocket].
  - eapply sim_done; [by adds|by apply sim_appListen].
  - eapply sim_done; [by adds|apply sim_closingProcedure].
  - apply sim_await_connect.
  - apply sim_resume_connect.
  - apply sim_await_read.
  - apply sim_resume_read.
  - apply sim_await_data.
  - apply sim_await_write.
  - apply sim_resume_plain.
  - apply sim_resume_drain.
  - apply sim_await_listen.
  - apply sim_resume_listen.
  - apply sim_await_connection.
  - apply sim_resume_connection.
  - apply sim_await_close.
  - apply sim_resume_close.
Qed.

Lemma sim_note P x : simulates P (modify (note x)) (modify (note x)) (λ _ _, any).
Proof. apply sim_modify; [done|]. intros rest s1 s2 []. constructor; cbn [note blog next coros user trace objects]; try done; congruence. Qed.
Lemma sim_with_user P u : simulates P (modify (with_user u)) (modify (with_user u)) (λ _ _, any).
Proof. apply sim_modify; [done|]. intros rest s1 s2 []. by constructor. Qed.

Lemma sim_run_prog q P : replayable_prog q → simulates P (run_prog p1 q) (run_prog p2 q) (λ _ _, any).
Proof.
  revert P. induction q as [u|c k IH]; intros P Hq; cbn [run_prog]; [apply sim_with_user|]. destruct Hq as [Hc Hk].
  apply sim_bind_same; [by adds|intros; by adds|by apply sim_run_call|]. intros a.
  eapply sim_seq; [by adds..|apply sim_note|by apply IH].
Qed.

Context (Hreact : ∀ u ev, replayable_prog (react u ev)).

Lemma sim_emit P ev : simulates P (emit p1 react ev) (emit p2 react ev) (λ _ _, any).
Proof.
  unfold emit. eapply sim_seq; [by adds..|apply sim_note|].
  apply sim_bind_same; [by adds|intros; by adds| |intros u; by apply sim_run_prog].
  eapply sim_conseq; [done|apply (sim_gets any)|by intros ??? [? _]]. intros rest s1 s2 Hs. apply Hs.
Qed.
Lemma sim_resumed P h : simulates P (resume p1 react h) (resume p2 react h) (λ _ _, any).
Proof. apply sim_emit. Qed.

(** ** What events do *)
Lemma sim_deliver_accepted P o : simulates P (deliver_accepted p1 react o) (deliver_accepted p2 react o) (λ _ _, any).
Proof.
  unfold deliver_accepted. eapply sim_bind; [by adds|intros; by adds|apply sim_get|]. intros d1 d2. cbn beta.
  apply sim_pure. intros Hd. rewrite <-(ss_accepted _ _ Hd). destruct (ahd_accepted d1); [|apply sim_emit].
  eapply sim_seq; [by adds..|apply sim_put|apply sim_resumed].
  - intros s [Hs _]. by exists d1.
  - destruct Hd. by constructor.
Qed.

(** ** The turns of the loop *)
Lemma replay_steps_app n k s s' s'' :
  replay_steps p2 react n s = Ok (s', ()) → replay_steps p2 react k s' = Ok (s'', ()) →
  replay_steps p2 react (n + k) s = Ok (s'', ()).
Proof.
  revert s. induction n as [|n IH]; intros s H1 H2; cbn [replay_steps Nat.add] in *; [by injection H1 as ->|].
  apply m_bind_Ok in H1 as (t & [] & E & H1). rewrite (m_bind_eq _ _ _ _ _ E). by apply IH.
Qed.

Lemma plays_step {A} P (m1 : M A) R : simulates P m1 (replay_step p2 react) (λ a _, R a) → plays P m1 R.
Proof.
  intros H s1 s2 s1' a1 fs new rest HP Hrec E Hrec' Hsim.
  destruct (H s1 s2 s1' a1 fs new rest) as (s2' & [] & E2 & HR & Hs'); [done..|]. split; [done|].
  exists 1, s2'. split; [|done]. cbn [replay_steps]. by rewrite (m_bind_eq _ _ _ _ _ E2).
Qed.
Lemma plays_quiet {A} P (m1 : M A) R : quiet P m1 R → plays P m1 R.
Proof.
  intros H s1 s2 s1' a1 fs new rest HP Hrec E Hrec' Hsim.
  destruct (H s1 s2 s1' a1 fs new rest) as (s2' & [] & E2 & HR & Hs'); [done..|]. injection E2 as <-. split; [done|].
  by exists 0, s2.
Qed.
Lemma plays_conseq {A} (P P' : node U W → Prop) (m1 : M A) R R' :
  (∀ s, P s → P' s) → plays P' m1 R' → (∀ a s, R' a s → R a s) → plays P m1 R.
Proof.
  intros HP H HR s1 s2 s1' a1 fs new rest Hs Hrec E Hrec' Hsim.
  destruct (H s1 s2 s1' a1 fs new rest) as (? & ?); [by apply HP|done..|]. auto.
Qed.
Lemma plays_any {A} P (m1 : M A) R : plays any m1 R → plays P m1 R.
Proof. intros H. by eapply plays_conseq; [|exact H|]. Qed.
Lemma plays_bind {A B} P (m1 : M A) (f1 : A → M B) Q R :
  adds m1 → (∀ a, adds (f1 a)) → plays P m1 Q → (∀ a, plays (Q a) (f1 a) R) → plays P (m1 ≫= f1) R.
Proof.
  intros Hm Hf Hsm Hsf s1 s2 s1' b1 fs new rest HP Hrec H Hrec' Hsim.
  destruct (adds_split _ _ _ _ _ _ _ Hm Hf Hrec H Hrec') as (t & a & n1 & n2 & H1 & H2 & Hr1 & Hr2 & ->).
  pose proof (proj1 Hr1) as Hr. rewrite <-app_assoc in Hsim.
  destruct (Hsm _ _ _ _ _ _ _ HP Hrec H1 Hr1 Hsim) as (HQ & k1 & t2 & E2 & Hsim').
  destruct (Hsf _ _ _ _ _ _ _ _ HQ Hr H2 Hr2 Hsim') as (HR & k2 & s2' & E3 & Hsim'').
  split; [done|]. exists (k1 + k2), s2'. split; [|done]. by eapply replay_steps_app.
Qed.
Lemma plays_seq {B} P (m1 : M ()) (f1 : M B) Q R :
  adds m1 → adds f1 → plays P m1 Q → plays any f1 R → plays P (_ ← m1; f1) R.
Proof. intros ? ? H1 H2. eapply plays_bind; [done|by intros|exact H1|]. intros ?. by apply plays_any. Qed.
Lemma plays_quietly {A B} P (m1 : M A) (f1 : A → M B) Q R :
  adds m1 → (∀ a, adds (f1 a)) → quiet P m1 Q → (∀ a, plays (Q a) (f1 a) R) → plays P (m1 ≫= f1) R.
Proof. intros ? ? H1 H2. eapply plays_bind; [done..|by apply plays_quiet|done]. Qed.
Lemma plays_pure {A} (φ : Prop) (P : node U W → Prop) (m1 : M A) R :
  (φ → plays P m1 R) → plays (λ s, φ ∧ P s) m1 R.
Proof. intros H s1 s2 s1' a1 fs new rest [Hφ HP]. by apply H. Qed.
Lemma plays_exists {X A} (P : X → node U W → Prop) (m1 : M A) R : (∀ x, plays (P x) m1 R) → plays (λ s, ∃ x, P x s) m1 R.
Proof. intros H s1 s2 s1' a1 fs new rest [x HP]. by apply (H x). Qed.
Lemma plays_never {A} P (m1 : M A) R : (∀ s, is_ok (m1 s) = false) → plays P m1 R.
Proof. intros H s1 s2 s1' a1 fs new rest _ _ E. specialize (H s1). by rewrite E in H. Qed.
Lemma plays_ret {A} (P : node U W → Prop) (a : A) (R : A → node U W → Prop) : (∀ s, P s → R a s) → plays P (mret a) R.
Proof. intros H. apply plays_quiet. by apply sim_ret. Qed.
Lemma plays_ext {A} P (m1 m1' : M A) R : (∀ s, m1 s = m1' s) → plays P m1' R → plays P m1 R.
Proof. intros H1 H s1 s2 s1' a1 fs new rest HP Hrec E. rewrite H1 in E. by eapply (H s1). Qed.
Lemma plays_not_in_replay {A} P (m1 : M A) R : adds m1 → plays P m1 R → plays P (_ ← not_in_replay; m1) R.
Proof.
  intros ? H. eapply plays_quietly; [by adds|by intros|apply sim_by_mode_l; by apply (sim_ret P _ _ (λ _ _, P))|].
  by intros [].
Qed.

(** a frame about a socket or a server, and what follows it *)
Lemma plays_socket {A} P o ty (pl : Z → list u8) (K : nat → list cell → M ()) q n (m : M A) R :
  ty ≠ incomplete → log_free P → (∀ a, ∃ b, pl a = le_split 8 a ++ b) → adds m →
  (∀ data, replay_frame p2 react (code ty, data) = (o ← socket_of (get_ptr data); K o data)) →
  (∀ a, simulates (λ s, (∃ d, at_ o a (Client d) s) ∧ P s) m (K o (Some <$> pl a)) (λ x _, R x)) →
  plays P (_ ← by_mode (a ← this_socket o; add_frame ty (Some (pl a))) q n; m) R.
Proof.
  intros Hty HP Hpl Hm HK H. apply plays_step. unfold replay_step.
  eapply (sim_bind _ _ _ _ _ (λ _ fd s, ∃ a, fd = (code ty, Some <$> pl a) ∧ (∃ d, at_ o a (Client d) s) ∧ P s));
    [by adds|by intros| |].
  { apply sim_by_mode_l. eapply sim_bind_l; [by adds|intros; by adds|apply quiet_this_socket|]. intros a. cbn beta.
    eapply sim_conseq; [intros s Hs; exact Hs|apply sim_frame; [done|]|].
    - intros s l [Hx Hs]. split; [done|by apply HP].
    - intros [] fd s (Hfd & Hs). by exists a. }
  intros [] fd. cbn beta. apply sim_exists. intros a. apply sim_pure. intros ->. rewrite HK.
  eapply sim_bind_r; [done| |].
  { eapply sim_conseq; [intros s Hs; exact Hs|apply (socket_of_r _ o a)|intros a1 a2 s Hs; exact Hs].
    - by intros s [Hs _].
    - intros Ha. destruct (Hpl a) as [b ->]. by apply get_ptr_head. }
  intros o'. apply sim_pure. intros ->. apply H.
Qed.
Lemma plays_server {A} P o ty (pl : Z → list u8) (K : nat → list cell → M ()) q n (m : M A) R :
  ty ≠ incomplete → log_free P → (∀ a, ∃ b, pl a = le_split 8 a ++ b) → adds m →
  (∀ data, replay_frame p2 react (code ty, data) = (o ← server_of (get_ptr data); K o data)) →
  (∀ a, simulates (λ s, (∃ d, at_ o a (Srv d) s) ∧ P s) m (K o (Some <$> pl a)) (λ x _, R x)) →
  plays P (_ ← by_mode (a ← this_server o; add_frame ty (Some (pl a))) q n; m) R.
Proof.
  intros Hty HP Hpl Hm HK H. apply plays_step. unfold replay_step.
  eapply (sim_bind _ _ _ _ _ (λ _ fd s, ∃ a, fd = (code ty, Some <$> pl a) ∧ (∃ d, at_ o a (Srv d) s) ∧ P s));
    [by adds|by intros| |].
  { apply sim_by_mode_l. eapply sim_bind_l; [by adds|intros; by adds|apply quiet_this_server|]. intros a. cbn beta.
    eapply sim_conseq; [intros s Hs; exact Hs|apply sim_frame; [done|]|].
    - intros s l [Hx Hs]. split; [done|by apply HP].
    - intros [] fd s (Hfd & Hs). by exists a. }
  intros [] fd. cbn beta. apply sim_exists. intros a. apply sim_pure. intros ->. rewrite HK.
  eapply sim_bind_r; [done| |].
  { eapply sim_conseq; [intros s Hs; exact Hs|apply (server_of_r _ o a)|intros a1 a2 s Hs; exact Hs].
    - by intros s [Hs _].
    - intros Ha. destruct (Hpl a) as [b ->]. by apply get_ptr_head. }
  intros o'. apply sim_pure. intros ->. apply H.
Qed.

(** the last step of a function *)
Lemma plays_socket_end P o ty (pl : Z → list u8) (K : nat → list cell → M ()) q n :
  ty ≠ incomplete → log_free P → (∀ a, ∃ b, pl a = le_split 8 a ++ b) →
  (∀ data, replay_frame p2 react (code ty, data) = (o ← socket_of (get_ptr data); K o data)) →
  (∀ a, simulates (λ s, (∃ d, at_ o a (Client d) s) ∧ P s) (mret ()) (K o (Some <$> pl a)) (λ _ _ _, True)) →
  plays P (by_mode (a ← this_socket o; add_frame ty (Some (pl a))) q n) (λ _, any).
Proof.
  intros Hty HP Hpl HK H.
  assert (Hp : plays P (_ ← by_mode (a ← this_socket o; add_frame ty (Some (pl a))) q n; mret ()) (λ _, any)).
  { eapply plays_socket; [done..|by adds|exact HK|exact H]. }
  intros s1 s2 s1' a1 fs new rest Hs Hrec E Hrec' Hsim. apply (Hp s1 s2 s1' a1 fs new rest); [done..| |done|done].
  by rewrite m_unit.
Qed.

(** *** Sockets *)
Lemma any_log_free : log_free any.
Proof. done. Qed.

(** by the frame recorded and what the loop does with it *)
Ltac payload := intros ?; eexists; first [reflexivity | symmetry; apply app_nil_r].
Tactic Notation "socket_turn" uconstr(K) := eapply (plays_socket _ _ _ _ K); [done|log_free|payload|by adds|done|intros ?].
Tactic Notation "server_turn" uconstr(K) := eapply (plays_server _ _ _ _ K); [done|log_free|payload|by adds|done|intros ?].

Lemma plays_accepted o : plays any (happens p1 react (Accepted o)) (λ _, any).
Proof.
  cbn [happens]. unfold rrOnAccepted, add_event. socket_turn (λ o (_ : list cell), deliver_accepted p2 react o).
  apply sim_deliver_accepted.
Qed.

Lemma sim_deliver_end P o : simulates P (deliver_end p1 react o) (deliver_end p2 react o) (λ _ _, any).
Proof. unfold deliver_end. eapply sim_seq; [by adds..|apply sim_update|apply sim_emit]. sim_fields. Qed.

Lemma plays_rrOnRemoteEnded P o : plays P (rrOnRemoteEnded p1 react o) (λ _, any).
Proof.
  apply plays_any. unfold rrOnRemoteEnded, if_recording, add_event. apply plays_not_in_replay; [by adds|].
  socket_turn (λ o (_ : list cell), deliver_end p2 react o). apply sim_deliver_end.
Qed.

Lemma state_of_payload a x b c :
  field 8 4 (Some <$> le_split 8 a ++ le_split 4 (state_code x) ++ b) = Ok c → state_of_code c = Some x.
Proof. rewrite (field_mid 8 4) by (rewrite ?length_le_split; by destruct x). intros [= <-]. by destruct x. Qed.

Lemma plays_rrUpdateState P x o : x ≠ Tcp.Uninitialized → plays P (rrUpdateState p1 x o) (λ _, any).
Proof.
  intros Hx. apply plays_any. unfold rrUpdateState, if_recording.
  socket_turn (λ o data, assign_state data o). unfold assign_state.
  eapply sim_bind_r; [by adds|apply (lift_r _ _ (state_code Tcp.LocalEnding))|].
  - intros ? ? ? _ _. by apply (field_mid 8 4 _ (le_split 8 a)); rewrite ?length_le_split.
  - intros ?. apply sim_pure. intros ->. cbn. apply sim_update. intros d1 d2 []. by constructor.
Qed.

Lemma plays_closing P x ty o :
  x ≠ Tcp.Uninitialized → (x, ty) = (Tcp.Closing, sock_closing) ∨ (x, ty) = (Tcp.ErrorClosing, sock_error_preclosing) →
  plays P (closing x ty o) (λ _, any).
Proof.
  intros Hx Hty. assert (ty ≠ incomplete) by (by destruct Hty as [[= _ ->]|[= _ ->]]). apply plays_any. unfold closing.
  eapply plays_quietly; [by adds|intros; by adds|apply quiet_get|]. intros d. cbn beta.
  destruct (is_closing d); [by apply plays_ret|].
  eapply plays_quietly; [by adds|intros; by adds| |].
  { apply (quiet_put _ o d); [by intros s [Hs _]|]. intros d2 []. by constructor. }
  intros []. unfold add_event.
  eapply (plays_socket_end _ _ _ _ (λ o _, update (set_state x) o)).
  - done.
  - log_free.
  - payload.
  - by destruct Hty as [[= -> ->]|[= -> ->]].
  - intros a. eapply sim_conseq; [|apply update_r|done]; [intros s [_ Hs]; exact Hs|]. intros s Hs.
    exists (set_state x d). split; [done|]. intros d2 []. by constructor.
Qed.
Lemma plays_closeSocket P o : plays P (closeSocket o) (λ _, any).
Proof. apply plays_closing; auto. Qed.
Lemma plays_errorCloseSocket P o : plays P (errorCloseSocket o) (λ _, any).
Proof. apply plays_closing; auto. Qed.

Lemma plays_infraProcessRemoteEnded P o : plays P (infraProcessRemoteEnded p1 react o) (λ _, any).
Proof.
  unfold infraProcessRemoteEnded. apply plays_not_in_replay; [by adds|]. apply plays_any.
  eapply plays_quietly; [by adds|intros; by adds|apply quiet_get|]. intros d. apply plays_any.
  destruct (remoteEnded d); [by apply plays_ret|].
  eapply plays_seq; [by adds..|apply plays_rrOnRemoteEnded|].
  eapply plays_quietly; [by adds|intros; by adds|apply quiet_get|]. intros d'. apply plays_any.
  destruct (bool_decide _); [apply plays_closeSocket|].
  destruct (negb _ && _); [|by apply plays_ret]. destruct (negb _); [by apply plays_rrUpdateState|].
  eapply plays_seq; [by adds..|by apply plays_rrUpdateState|apply plays_closeSocket].
Qed.

(** a coroutine that waits *)
Lemma sim_clear_read P o : simulates P (clear_read o) (clear_read o) (λ _ _, any).
Proof.
  unfold clear_read. eapply sim_bind; [by adds|intros; by adds|apply sim_get|]. intros d1 d2. cbn beta.
  apply sim_pure. intros Hd. eapply sim_conseq; [intros s Hs; exact Hs|apply sim_put|done].
  - intros s [Hs _]. by exists d1.
  - destruct Hd. by constructor.
Qed.
Lemma sim_wake_read P o h : simulates P (wake_read p1 react o h) (wake_read p2 react o h) (λ _ _, any).
Proof. eapply sim_seq; [by adds..|apply sim_clear_read|apply sim_resumed]. Qed.
Lemma sim_fail_read P o h : simulates P (fail_read p1 react o h) (fail_read p2 react o h) (λ _ _, any).
Proof.
  eapply sim_seq; [by adds..|apply sim_clear_read|]. eapply sim_seq; [by adds..|apply sim_setCoroException|apply sim_resumed].
Qed.

(** the loop finds the coroutine in the object *)
Lemma sim_waiting (d1 : sock) (fld : sock → option nat) h o (m : M ()) (k : nat → M ()) R :
  (∀ d2, sim_sock d1 d2 → fld d1 = fld d2) → fld d1 = Some h → adds m →
  simulates (sock_at o d1) m (k h) R →
  simulates (sock_at o d1) m (d ← get o; h ← waiting (fld d); k h) R.
Proof.
  intros Hf Hh Hm H. eapply sim_bind_r; [done|by apply (get_r _ o d1)|]. intros d2. apply sim_pure. intros Hd.
  rewrite <-(Hf _ Hd), Hh. exact H.
Qed.
Lemma sim_waiting_server (d1 : server) (fld : server → option nat) h o (m : M ()) (k : nat → M ()) R :
  (∀ d2, sim_server d1 d2 → fld d1 = fld d2) → fld d1 = Some h → adds m →
  simulates (server_at_ o d1) m (k h) R →
  simulates (server_at_ o d1) m (d ← get_server o; h ← waiting (fld d); k h) R.
Proof.
  intros Hf Hh Hm H. eapply sim_bind_r; [done|by apply (get_server_r _ o d1)|]. intros d2. apply sim_pure. intros Hd.
  rewrite <-(Hf _ Hd), Hh. exact H.
Qed.

(** a read *)
Lemma plays_rrOnReadHandler P o buf : plays P (rrOnReadHandler p1 react o buf) (λ _, any).
Proof.
  apply plays_any, plays_step. unfold rrOnReadHandler, if_recording, replay_step.
  eapply (sim_bind _ _ _ _ _ (λ _ fd s, ∃ a, fd = (code sock_read_event_call, Some <$> SocketEvent a ++ buf) ∧
    (∃ d, at_ o a (Client d) s))); [by adds|intros; by adds| |].
  { apply sim_by_mode_l. eapply sim_bind_l; [by adds|intros; by adds|apply quiet_this_socket|]. intros a. cbn beta.
    eapply sim_conseq; [intros s Hs; exact Hs|apply sim_frame_parts; [done|done|log_free]|].
    intros [] fd s (Hfd & Hs & _). by exists a. }
  intros [] fd. cbn beta. apply sim_exists. intros a. apply sim_pure. intros ->.
  eapply sim_bind_r; [by adds|apply (socket_of_r _ o a)|].
  - done.
  - intros Ha. by apply get_ptr_head.
  - intros o'. apply sim_pure. intros ->. cbn [snd]. rewrite fmap_app, drop_app_length'; [apply sim_emit|].
    by rewrite length_fmap; unfold SocketEvent; rewrite length_le_split.
Qed.

Lemma plays_readable o received : plays any (happens p1 react (Readable o received true)) (λ _, any).
Proof.
  cbn [happens]. unfold infraProcessReadEvent. apply plays_not_in_replay; [by adds|].
  eapply plays_quietly; [by adds|intros; by adds|apply quiet_get|]. intros d.
  destruct (ahd_read_h d) as [h|] eqn:Hh.
  - eapply plays_quietly; [by adds|intros; by adds| |].
    { apply (quiet_put _ o d); [by intros s [Hs _]|]. intros d2 []. by constructor. }
    intros []. set (y := set_readBuffer _ d). cbn [negb]. destruct (bool_decide _); [|destruct (bool_decide _)].
    + unfold if_recording, add_event.
      socket_turn (λ o (_ : list cell), d ← get o; h ← waiting (ahd_read_h d); wake_read p2 react o h).
      eapply sim_conseq; [|apply (sim_waiting y ahd_read_h h); [by intros d2 []|done|by adds|apply sim_wake_read]|done].
      by intros s [_ Hs].
    + by apply plays_ret.
    + unfold if_recording, add_event. eapply plays_ext; [intros s; symmetry; apply m_assoc|].
      eapply (plays_seq _ _ _ (λ _, any)); [by adds..| |apply plays_infraProcessRemoteEnded].
      socket_turn (λ o (_ : list cell), d ← get o; h ← waiting (ahd_read_h d); fail_read p2 react o h).
      eapply sim_conseq; [|apply (sim_waiting y ahd_read_h h); [by intros d2 []|done|by adds|apply sim_fail_read]|done].
      by intros s [_ Hs].
  - destruct (bool_decide _); [|apply plays_infraProcessRemoteEnded].
    apply plays_rrOnReadHandler.
Qed.

(** *** The end of a socket *)
Lemma sim_keep {A1 A2} (P Q : node U W → Prop) (m1 : M A1) (m2 : M A2) R :
  simulates P m1 m2 R → (∀ s s' a, m1 s = Ok (s', a) → P s → Q s') → simulates P m1 m2 (λ a1 a2 s, R a1 a2 s ∧ Q s).
Proof.
  intros H HQ s1 s2 s1' a1 fs new rest HP Hrec E Hrec' Hsim.
  destruct (H s1 s2 s1' a1 fs new rest) as (s2' & a2 & ? & ? & ?); [done..|]. exists s2', a2. split_and!; eauto.
Qed.

Lemma sim_release P (fld : sock → option nat) clear o :
  (∀ d1 d2, sim_sock d1 d2 → fld d1 = fld d2 ∧ sim_sock (clear d1) (clear d2)) →
  simulates P (release p1 react fld clear o) (release p2 react fld clear o) (λ _ _, any).
Proof.
  intros Hf. unfold release. eapply sim_bind; [by adds|intros; by adds|apply sim_get|]. intros d1 d2. cbn beta.
  apply sim_pure. intros Hd. destruct (Hf _ _ Hd) as [He Hc]. rewrite <-He. destruct (fld d1) as [h|]; [|by apply sim_ret].
  eapply (sim_bind _ _ _ _ _ (λ _ _ s, any s ∧ is_sock o s)); [by adds|intros; by adds| |].
  - apply sim_keep; [apply sim_setCoroException|]. intros s s' a [= <- _] [Hs _]. by exists d1.
  - intros [] []. eapply sim_seq; [by adds..|apply sim_put; [by intros s [_ Hs]|done]|apply sim_resumed].
Qed.

Lemma sim_forceReleasing P o :
  simulates P (forceReleasingAllCoroHandles p1 react o) (forceReleasingAllCoroHandles p2 react o) (λ _ _, any).
Proof.
  unfold forceReleasingAllCoroHandles. repeat (eapply sim_seq; [by adds..| |]).
  all: apply sim_release; intros d1 d2 []; split; [done|by constructor].
Qed.

Lemma apart_delete (m : gmap nat (Z * object)) o : apart m → apart (delete o m).
Proof.
  intros [H1 H2]. split; [intros o1 x [_ Hx]%lookup_delete_Some|intros o1 o2 x y [_ Hx]%lookup_delete_Some [_ Hy]%lookup_delete_Some]; eauto.
Qed.
Lemma Sim_remove rest s1 s2 o :
  Sim rest s1 s2 → Sim rest (with_objects (delete o (objects s1)) s1) (with_objects (delete o (objects s2)) s2).
Proof.
  intros [Hn Hc Hu Ht Ho Hf Ha1 Ha2 Hl]. constructor; cbn [with_objects blog next coros user trace objects]; try done.
  - intros o'. destruct (decide (o = o')) as [<-|Hne]; [by rewrite !lookup_delete_eq|]. rewrite !lookup_delete_ne by done. apply Ho.
  - intros o' Hle. apply lookup_delete_None. right. by apply Hf.
  - by apply apart_delete.
  - by apply apart_delete.
Qed.
Lemma sim_remove P o : simulates P (remove o) (remove o) (λ _ _, any).
Proof. apply sim_modify; [done|]. intros rest s1 s2. apply Sim_remove. Qed.

Lemma sim_set_list P sv l (d1 d2 : server) :
  (∀ s, P s → is_srv sv s) → sim_server d1 d2 →
  simulates P (put_server sv (sset_list l d1)) (put_server sv (sset_list l d2)) (λ _ _, any).
Proof. intros HP Hd. eapply sim_conseq; [intros s Hs; exact Hs|apply sim_put_server; [done|]|done]. destruct Hd. by constructor. Qed.

Lemma sim_removeSocket P sv o : simulates P (removeSocket sv o) (removeSocket sv o) (λ _ _, any).
Proof.
  unfold removeSocket. eapply sim_bind; [by adds|intros; by adds|apply sim_get_server|]. intros d1 d2. cbn beta.
  apply sim_pure. intros Hd. rewrite <-(sv_list _ _ Hd).
  eapply sim_bind; [by adds|intros; by adds|apply sim_lift|]. intros l1 l2. cbn beta. apply sim_pure. intros <-.
  eapply sim_seq; [by adds..|apply sim_set_list; [|done]|apply sim_remove]. intros s [Hs _]. by exists d1.
Qed.
Lemma sim_onFinalCleanup P o : simulates P (onFinalCleanup p1 react o) (onFinalCleanup p2 react o) (λ _ _, any).
Proof.
  unfold onFinalCleanup. eapply sim_seq; [by adds..|apply sim_forceReleasing|].
  eapply sim_bind; [by adds|intros; by adds|apply sim_get|]. intros d1 d2. cbn beta. apply sim_pure. intros Hd.
  rewrite <-(ss_server _ _ Hd). destruct (myServerSocket d1); [apply sim_removeSocket|by apply sim_ret].
Qed.
Lemma sim_deliver_close P err o : simulates P (deliver_close p1 react err o) (deliver_close p2 react err o) (λ _ _, any).
Proof.
  unfold deliver_close. eapply (sim_seq _ _ _ _ _ (λ _ _, any)); [by adds..|destruct err; [apply sim_emit|by apply sim_ret]|].
  eapply sim_seq; [by adds..|apply sim_emit|]. eapply sim_seq; [by adds..|apply sim_update; sim_fields|apply sim_onFinalCleanup].
Qed.

Lemma plays_close_event o : plays any (happens p1 react (CloseEvent o)) (λ _, any).
Proof.
  cbn [happens]. unfold close_event. eapply plays_quietly; [by adds|intros; by adds|apply quiet_get|].
  intros d. apply plays_any. cbv zeta. set (err := bool_decide _).
  socket_turn (λ o data, err ← lift (get_bool 8 data); used ← lift (get_bool 9 data);
    if (used : bool) then deliver_close p2 react err o else _ ← emit p2 react (EvClose o err); onFinalCleanup p2 react o).
  eapply sim_bind_r; [by adds|apply (lift_r _ _ err)|].
  - intros ? ? ? _ _. apply (get_bool_mid 8 err (le_split 8 a)). by rewrite length_le_split.
  - intros ?. apply sim_pure. intros ->.
    eapply sim_bind_r; [by adds|apply (lift_r _ _ true)|].
    + intros ? ? ? _ _. unfold SocketCloseEvent. rewrite app_assoc.
      apply (get_bool_mid 9 true (le_split 8 a ++ put_bool err)). by rewrite length_app, length_le_split.
    + intros ?. apply sim_pure. intros ->. apply sim_deliver_close.
Qed.

(** *** Servers *)
Lemma sim_wake_listening P o h : simulates P (wake_listening p1 react o h) (wake_listening p2 react o h) (λ _ _, any).
Proof. eapply sim_seq; [by adds..|apply sim_update_server; sim_fields|apply sim_resumed]. Qed.
Lemma sim_deliver_listening P o : simulates P (deliver_listening p1 react o) (deliver_listening p2 react o) (λ _ _, any).
Proof.
  unfold deliver_listening. eapply sim_bind; [by adds|intros; by adds|apply sim_get_server|]. intros d1 d2. cbn beta.
  apply sim_pure. intros Hd. rewrite <-(sv_index _ _ Hd), <-(sv_address _ _ Hd). apply sim_emit.
Qed.
Lemma sim_wake_close P err o h : simulates P (wake_close p1 react err o h) (wake_close p2 react err o h) (λ _ _, any).
Proof.
  eapply sim_seq; [by adds..|apply sim_update_server; sim_fields|].
  eapply (sim_seq _ _ _ _ _ (λ _ _, any)); [by adds..|destruct err; [apply sim_setCoroException|by apply sim_ret]|apply sim_resumed].
Qed.
Lemma sim_wake_connection P o sk h :
  simulates P (wake_connection p1 react o sk h) (wake_connection p2 react o sk h) (λ _ _, any).
Proof. eapply sim_seq; [by adds..|apply sim_update_server; sim_fields|apply sim_resumed]. Qed.

Lemma sim_release_server P (fld : server → option nat) clear o :
  (∀ d1 d2, sim_server d1 d2 → fld d1 = fld d2 ∧ sim_server (clear d1) (clear d2)) →
  simulates P (release_server p1 react fld clear o) (release_server p2 react fld clear o) (λ _ _, any).
Proof.
  intros Hf. unfold release_server. eapply sim_bind; [by adds|intros; by adds|apply sim_get_server|]. intros d1 d2. cbn beta.
  apply sim_pure. intros Hd. destruct (Hf _ _ Hd) as [He Hc]. rewrite <-He. destruct (fld d1) as [h|]; [|by apply sim_ret].
  eapply (sim_bind _ _ _ _ _ (λ _ _ s, any s ∧ is_srv o s)); [by adds|intros; by adds| |].
  - apply sim_keep; [apply sim_setCoroException|]. intros s s' a [= <- _] [Hs _]. by exists d1.
  - intros [] []. eapply sim_seq; [by adds..|apply sim_put_server; [by intros s [_ Hs]|done]|apply sim_resumed].
Qed.
Lemma sim_internalCleanup P o :
  simulates P (internalCleanupBeforeClosing p1 react o) (internalCleanupBeforeClosing p2 react o) (λ _ _, any).
Proof.
  unfold internalCleanupBeforeClosing. eapply sim_bind; [by adds|intros; by adds|apply sim_get_server|]. intros d1 d2. cbn beta.
  apply sim_pure. intros Hd. eapply (sim_bind _ _ _ _ _ (λ _ _ s, server_at_ o d1 s ∧ P s)); [by adds|intros; by adds| |].
  - apply sim_check. by rewrite (sv_list _ _ Hd).
  - intros [] []. eapply sim_seq; [by adds..|apply sim_put_server|].
    + intros s [Hs _]. by exists d1.
    + destruct Hd. by constructor.
    + eapply sim_seq; [by adds..| |]; apply sim_release_server; intros e1 e2 []; split; [done| |done|]; constructor; simpl; congruence.
Qed.

Lemma plays_listening o : plays any (happens p1 react (Listening o)) (λ _, any).
Proof.
  cbn [happens]. unfold rrOnListening. apply plays_not_in_replay; [by adds|].
  eapply plays_quietly; [by adds|intros; by adds|apply quiet_update_server|].
  { intros d1 d2 []. by constructor. }
  intros []. apply plays_any. eapply plays_quietly; [by adds|intros; by adds|apply quiet_get_server|]. intros d.
  destruct (ahd_listen d) as [h|] eqn:Hh; unfold if_recording, add_server_event.
  - server_turn (λ o (_ : list cell), d ← get_server o; h ← waiting (ahd_listen d); wake_listening p2 react o h).
    eapply sim_conseq; [|apply (sim_waiting_server d ahd_listen h); [by intros d2 []|done|by adds|apply sim_wake_listening]|done].
    by intros s (_ & Hs & _).
  - server_turn (λ o (_ : list cell), deliver_listening p2 react o). apply sim_deliver_listening.
Qed.

Lemma plays_server_error o : plays any (happens p1 react (ServerError o)) (λ _, any).
Proof.
  cbn [happens]. unfold infraMakeErrorEventAndClose, if_recording, add_server_event. apply plays_not_in_replay; [by adds|].
  server_turn (λ o (_ : list cell), emit p2 react (EvServerError o)). apply sim_emit.
Qed.

Lemma get_bool_head8 a b c : get_bool 8 (Some <$> le_split 8 a ++ put_bool b ++ c) = Ok b.
Proof. apply (get_bool_mid 8 b (le_split 8 a)). by rewrite length_le_split. Qed.

Lemma plays_server_close o err : plays any (happens p1 react (ServerCloseEvent o err)) (λ _, any).
Proof.
  cbn [happens]. unfold rrOnClose. apply plays_not_in_replay; [by adds|].
  eapply plays_quietly; [by adds|intros; by adds|apply quiet_get_server|]. intros d0. apply plays_any.
  eapply plays_quietly; [by adds|intros; by adds|apply quiet_check|]. intros []. apply plays_any.
  eapply plays_ext; [intros s; symmetry; apply m_assoc|].
  eapply (plays_seq _ _ _ (λ _, any)); [by adds..| |].
  { unfold if_recording, add_server_event.
    server_turn (λ o (_ : list cell), internalCleanupBeforeClosing p2 react o). apply sim_internalCleanup. }
  eapply plays_quietly; [by adds|intros; by adds|apply quiet_get_server|]. intros d. cbv zeta.
  destruct (ahd_close d) as [h|] eqn:Hh; unfold if_recording.
  - server_turn (λ o data, d ← get_server o; h ← waiting (ahd_close d); err ← lift (get_bool 8 data); wake_close p2 react err o h).
    eapply sim_conseq; [|apply (sim_waiting_server d ahd_close h _ _ (λ h, err0 ← lift (get_bool 8 (Some <$> ServerCloseEvent_2 (padding p1) a err)); wake_close p2 react err0 o h)); [by intros d2 []|done|by adds|]|done].
    + by intros s (_ & Hs & _).
    + eapply sim_bind_r; [by adds|apply (lift_r _ _ err); intros; apply get_bool_head8|].
      intros ?. apply sim_pure. intros ->. apply sim_wake_close.
  - server_turn (λ o data, err ← lift (get_bool 8 data); emit p2 react (EvServerClose o err)).
    eapply sim_bind_r; [by adds|apply (lift_r _ _ err); intros; apply get_bool_head8|].
    intros ?. apply sim_pure. intros ->. apply sim_emit.
Qed.

(** *** A connection: three turns *)
Lemma sim_ignore {A} P (m1 m2 : M A) R : adds m1 → simulates P m1 m2 R → simulates P m1 (_ ← m2; mret ()) (λ a _ s, ∃ a2, R a a2 s).
Proof.
  intros Hm H. apply (sim_ext _ _ (m1 ≫= mret) _ (_ ← m2; mret ())); [|done|].
  - intros s. change ((m1 ≫= mret) s) with (res_bind _ _ (λ '(t, a), Ok (t, a)) (m1 s)). by destruct (m1 s) as [[]| | | |].
  - eapply sim_bind; [done|intros; by adds|exact H|]. intros a1 a2. apply sim_ret. intros s Hs. by exists a2.
Qed.

Lemma plays_make_socket P sv sk q n :
  plays P (_ ← by_mode (a ← this_server sv; add_frame_parts server_make_socket_input (SocketEvent a) (le_split 4 sk)) q n;
           makeSocket p1 sv sk) (λ _, any).
Proof.
  apply plays_any, plays_step. unfold replay_step.
  eapply (sim_bind _ _ _ _ _ (λ _ fd s, ∃ a, fd = (code server_make_socket_input, Some <$> SocketEvent a ++ le_split 4 sk) ∧
    (∃ d, at_ sv a (Srv d) s))); [by adds|intros; by adds| |].
  { apply sim_by_mode_l. eapply sim_bind_l; [by adds|intros; by adds|apply quiet_this_server|]. intros a. cbn beta.
    eapply sim_conseq; [intros s Hs; exact Hs|apply sim_frame_parts; [done|done|log_free]|].
    intros [] fd s (Hfd & Hs & _). by exists a. }
  intros [] fd. cbn beta. apply sim_exists. intros a. apply sim_pure. intros ->.
  eapply sim_bind_r; [by adds|apply (server_of_r _ sv a)|].
  - done.
  - intros Ha. by apply get_ptr_head.
  - intros o'. apply sim_pure. intros ->. eapply sim_conseq; [intros s Hs; exact Hs|apply sim_ignore; [by adds|apply sim_makeSocket]|done].
Qed.

Lemma sim_infraAddAccepted P o : simulates P (infraAddAccepted o) (infraAddAccepted o) (λ _ _, any).
Proof.
  unfold infraAddAccepted. eapply sim_seq; [by adds..|apply sim_update; sim_fields|].
  eapply sim_bind; [by adds|intros; by adds|apply sim_get|]. intros d1 d2. cbn beta. apply sim_pure. intros Hd.
  eapply (sim_bind _ _ _ _ _ (λ _ _, is_sock o)); [by adds|intros; by adds| |].
  - eapply sim_conseq; [|apply (sim_check (is_sock o))|done]; [intros s [Hs _]; by exists d1|].
    by rewrite (ss_empty _ _ Hd).
  - intros [] []. eapply sim_seq; [by adds..|apply sim_put; [done|]|].
    + destruct Hd. by constructor.
    + eapply sim_conseq; [done|apply sim_check; by rewrite (ss_remoteEnded _ _ Hd)|done].
Qed.

Lemma plays_add_accepted P o ip port q n :
  plays P (_ ← by_mode (a ← this_socket o; add_frame server_make_socket_output (Some (ServerMakeSocketOutput (padding p1) a ip port))) q n;
           _ ← infraAddAccepted o; update (set_remote (ip, Ip.Port_getHost port)) o) (λ _, any).
Proof.
  apply plays_any.
  socket_turn (λ o data, _ ← infraAddAccepted o; ip ← lift (field 8 4 data); port ← lift (field 12 2 data);
    update (set_remote (ip, Ip.Port_getHost port)) o).
  eapply sim_seq; [by adds..|apply sim_infraAddAccepted|].
  eapply sim_bind_r; [by adds|apply (lift_r _ _ (ip mod 256 ^ Z.of_nat 4)%Z)|].
  - intros ? ? ? _ _. apply (field_mid_mod 8 4 ip (le_split 8 a)). by rewrite length_le_split.
  - intros ip'. apply sim_pure. intros _. eapply sim_bind_r; [by adds|apply (lift_r _ _ (port mod 256 ^ Z.of_nat 2)%Z)|].
    + intros ? ? ? _ _. unfold ServerMakeSocketOutput. rewrite app_assoc.
      apply (field_mid_mod 12 2 port (le_split 8 a ++ le_split 4 ip)). by rewrite length_app, !length_le_split.
    + intros port'. apply sim_pure. intros _. apply sim_update. sim_fields.
Qed.

Lemma plays_consume {A} P sv o ty (K : nat → nat → M ()) q n (m : M A) R :
  ty ≠ incomplete → log_free P → adds m →
  (∀ data, replay_frame p2 react (code ty, data) =
     (o ← server_of (get_ptr data); sk ← socket_of (field 8 8 data); K o sk)) →
  simulates P m (K sv o) (λ x _, R x) →
  plays P (_ ← by_mode (a ← this_server sv; b ← this_socket o; add_frame ty (Some (serverConsumeSocket a b))) q n; m) R.
Proof.
  intros Hty HP Hm HK H. apply plays_step. unfold replay_step.
  eapply (sim_bind _ _ _ _ _ (λ _ fd s, ∃ ab, fd = (code ty, Some <$> serverConsumeSocket ab.1 ab.2) ∧
    (∃ d, at_ sv ab.1 (Srv d) s) ∧ (∃ d, at_ o ab.2 (Client d) s) ∧ P s)); [by adds|by intros| |].
  { apply sim_by_mode_l. eapply sim_bind_l; [by adds|intros; by adds|apply quiet_this_server|]. intros a. cbn beta.
    eapply sim_bind_l; [by adds|intros; by adds|apply quiet_this_socket|]. intros b. cbn beta.
    eapply sim_conseq; [intros s Hs; exact Hs|apply sim_frame; [done|]|].
    - intros s l (Hx & Hy & Hs). split; [done|]. split; [done|by apply HP].
    - intros [] fd s (Hfd & Hb & Ha & Hs). by exists (a, b). }
  intros [] fd. cbn beta. apply sim_exists. intros [a b]. cbn [fst snd]. apply sim_pure. intros ->. rewrite HK.
  eapply sim_bind_r; [done| |].
  { eapply sim_conseq; [intros s Hs; exact Hs|apply (server_of_r _ sv a)|intros a1 a2 s Hs; exact Hs].
    - by intros s [Hs _].
    - intros Ha. by apply get_ptr_head. }
  intros o'. apply sim_pure. intros ->. eapply sim_bind_r; [done| |].
  { eapply sim_conseq; [intros s Hs; exact Hs|apply (socket_of_r _ o b)|intros a1 a2 s Hs; exact Hs].
    - by intros s (_ & Hs & _).
    - intros Hb. unfold serverConsumeSocket. rewrite <-(app_nil_r (le_split 8 b)).
      apply field_mid; [by rewrite length_le_split|exact Hb]. }
  intros o'. apply sim_pure. intros ->. eapply sim_conseq; [|exact H|done]. by intros s (_ & _ & Hs).
Qed.

Lemma plays_connection sv sk ip port : plays any (happens p1 react (Connection sv sk ip port)) (λ _, any).
Proof.
  cbn [happens]. unfold consumeAcceptedSocket. apply plays_not_in_replay; [by adds|].
  eapply plays_ext; [intros s; symmetry; apply m_assoc|].
  eapply (plays_bind _ _ _ (λ _, any)); [by adds|intros; by adds|apply plays_make_socket|]. intros o.
  eapply plays_ext.
  { intros s. transitivity (((_ ← if_recording (a ← this_socket o; add_frame server_make_socket_output (Some (ServerMakeSocketOutput (padding p1) a ip port)));
      _ ← infraAddAccepted o; update (set_remote (ip, Ip.Port_getHost port)) o) ≫= λ _, d ← get_server sv;
      match ahd_connection_h d with
      | Some h => _ ← if_recording (a ← this_server sv; b ← this_socket o; add_frame server_consume_socket_event_crh (Some (serverConsumeSocket a b))); wake_connection p1 react sv o h
      | None => _ ← if_recording (a ← this_server sv; b ← this_socket o; add_frame server_consume_socket_event_call (Some (serverConsumeSocket a b))); emit p1 react (EvConnection sv o)
      end) s); [|done].
    rewrite m_assoc. apply m_ext. intros [] t. by rewrite m_assoc. }
  eapply (plays_seq _ _ _ (λ _, any)); [by adds..|apply plays_add_accepted|].
  eapply plays_quietly; [by adds|intros; by adds|apply quiet_get_server|]. intros d.
  destruct (ahd_connection_h d) as [h|] eqn:Hh; unfold if_recording.
  - eapply (plays_consume _ _ _ _ (λ o sk, d ← get_server o; h ← waiting (ahd_connection_h d); wake_connection p2 react o sk h));
      [done|log_free|by adds|done|].
    eapply sim_conseq; [|apply (sim_waiting_server d ahd_connection_h h); [by intros d2 []|done|by adds|apply sim_wake_connection]|done].
    by intros s (Hs & _).
  - eapply (plays_consume _ _ _ _ (λ o sk, emit p2 react (EvConnection o sk))); [done|log_free|by adds|done|]. apply sim_emit.
Qed.

(** *** The run *)

(** Not: connections and drained buffers of the node's own sockets, whose frames do not hold the
    address of a socket, waits whose time is up, and failed reads *)
Definition replayable_event (x : happening) : Prop :=
  match x with
  | Connects _ | Written _ | Expires _ => False
  | Readable _ _ read_ok => read_ok = true
  | _ => True
  end.

Lemma plays_happens x : replayable_event x → plays any (happens p1 react x) (λ _, any).
Proof.
  destruct x; cbn [replayable_event]; intros Hx; subst; try done.
  - apply plays_accepted.
  - apply plays_readable.
  - apply plays_infraProcessRemoteEnded.
  - apply plays_errorCloseSocket.
  - apply plays_close_event.
  - apply plays_listening.
  - apply plays_server_close.
  - apply plays_connection.
  - apply plays_server_error.
Qed.

Lemma adds_happen_all xs : adds (happen_all p1 react xs).
Proof. induction xs as [|x xs IH]; cbn [happen_all]; [by adds|]. apply adds_bind; [apply adds_happens|]. by intros _. Qed.
Lemma plays_happen_all xs : Forall replayable_event xs → plays any (happen_all p1 react xs) (λ _, any).
Proof.
  induction 1 as [|x xs Hx Hxs IH]; cbn [happen_all]; [by apply plays_ret|].
  eapply (plays_seq _ _ _ (λ _, any)); [apply adds_happens|apply adds_happen_all|by apply plays_happens|done].
Qed.

(** a recorded run: the log begins, the frames are added, the file is written *)
Context (allocate : nat → option (list cell)) (szExp : nat) (page : list cell).
Context (Hexp : 16 ≤ szExp ≤ 26) (Hzero : allocate (2 ^ szExp) = Some (BinLog.zeros (2 ^ szExp))).
Context (Hpage : allocate (Z.to_nat BinLog.maxBuffsize) = Some page).

Lemma start_recording : ∃ l, BinLog.initForRecording allocate szExp BinLog.empty_log = Ok l ∧ Recorded l [].
Proof.
  assert (Hge : 44 ≤ 2 ^ szExp) by (transitivity (2 ^ 16); [by apply Nat.leb_le|apply Nat.pow_le_mono_r; lia]).
  destruct (BinLog.init_rec allocate szExp) as (l & Hl & Hr); [lia|done|done|]. exists l. split; [done|].
  split; [by eexists|]. split; [|done]. rewrite (BinLog.rec_size _ _ _ Hr). change (BinLog.enc_all []) with (@nil cell).
  cbn [length]. replace (44 + 0 + (2 ^ szExp - 44)) with (2 ^ szExp) by lia. rewrite Nat2Z.inj_pow.
  apply Z.pow_le_mono_r; lia.
Qed.

Lemma record_run_Ok xs u w s1 file :
  record_run p1 react allocate szExp xs (initial u w) = Ok (s1, Some file) →
  ∃ l t fs, Recorded l [(code node_main_call, [])] ∧
    (_ ← emit p1 react EvMain; happen_all p1 react xs) (with_blog l (initial u w)) = Ok (t, ()) ∧
    Recorded (blog t) ((code node_main_call, []) :: fs) ∧ file = BinLog.zeros 40 ++ BinLog.enc_all ((code node_main_call, []) :: fs) ∧
    trace s1 = trace t ∧ user s1 = user t ∧ next s1 = next t.
Proof.
  destruct start_recording as (l0 & Hl0 & Hr0). intros H. unfold record_run in H.
  erewrite m_bind_eq in H by (unfold on_log; cbn [blog initial]; rewrite Hl0; reflexivity).
  apply m_bind_Ok in H as (t1 & [] & H1 & H). apply (add_frame_Ok _ _ _ _ _ []) in H1 as [Ht1 Hr1]; [|done..].
  rewrite Ht1 in H. rewrite <-m_assoc in H. apply m_bind_Ok in H as (t & [] & H2 & H).
  set (l1 := blog t1) in *. change (with_blog l1 (with_blog l0 (initial u w))) with (with_blog l1 (initial u w)) in H2.
  assert (Ha : adds (_ ← emit p1 react EvMain; happen_all p1 react xs)) by (apply adds_bind; [apply adds_emit|intros _; apply adds_happen_all]).
  destruct (Ha (with_blog l1 (initial u w)) t () [(code node_main_call, [])] Hr1 H2) as (fs & Hfs & _).
  exists l1, t, fs. split; [done|]. split; [done|]. split; [done|].
  destruct Hfs as ((room & Hrec) & _ & _). destruct (BinLog.deinit_spec _ _ _ Hrec) as (l' & Hd & _).
  unfold on_log in H. rewrite Hd in H. by injection H as <- <-.
Qed.

Lemma Sim_initial l1 l2 u w w' rest :
  Replays l2 rest → Sim rest (with_blog l1 (initial u w)) (with_blog l2 (initial u w')).
Proof.
  intros Hl. constructor; cbn [with_blog initial blog next coros user trace objects]; try done.
Qed.

Lemma replay_start_Ok fs u w :
  Forall BinLog.frame_ok fs → BinLog.readable ((code node_main_call, []) :: fs) = (code node_main_call, []) :: fs →
  (Z.of_nat (40 + length (BinLog.enc_all ((code node_main_call, []) :: fs))) ≤ BinLog.maxBuffsize)%Z →
  ∃ l, Replays l fs ∧
    replay_start p2 react allocate (BinLog.zeros 40 ++ BinLog.enc_all ((code node_main_call, []) :: fs)) (initial u w) =
    emit p2 react EvMain (with_blog l (initial u w)).
Proof.
  intros Hok Hrd Hmax. set (all := (code node_main_call, []) :: fs) in *.
  assert (Hall : Forall BinLog.frame_ok all) by (constructor; [done|exact Hok]).
  destruct (BinLog.initForReplaying_spec allocate page all BinLog.empty_log) as (l0 & Hl0 & Hrep); [done..|].
  assert (Hr0 : Replays l0 all) by (split; [by eexists|done]).
  destruct (Replays_read _ _ _ Hr0) as (l1 & Hl1 & Hr1 & _ & Hty). exists l1. split; [done|].
  unfold replay_start.
  erewrite m_bind_eq by (unfold on_log; cbn [blog initial]; rewrite Hl0; reflexivity).
  erewrite m_bind_eq by (unfold on_log; cbn [blog with_blog]; rewrite Hty; reflexivity).
  erewrite m_bind_eq by reflexivity.
  erewrite m_bind_eq by (unfold read_frame, on_log; cbn [blog with_blog]; rewrite Hl1; reflexivity).
  by erewrite m_bind_eq by reflexivity.
Qed.

Lemma Replays_end s : Replays (blog s) [] → replay_step p2 react s = AssertFail.
Proof.
  intros ((dn & Hrep) & _). apply m_bind_stop. unfold read_frame, on_log. by rewrite (BinLog.read_end _ _ Hrep).
Qed.

Lemma readable_all fs : (∀ gs ty, fs ≠ gs ++ [(ty, [])]) → BinLog.readable fs = fs.
Proof.
  intros H. destruct fs as [|[ty d] fs _] using rev_ind; [done|]. apply BinLogSpec.readable_snoc. intros Hd.
  apply (H fs ty). by rewrite <-Hd.
Qed.

Lemma replays xs u w w' s1 file :
  Forall replayable_event xs →
  record_run p1 react allocate szExp xs (initial u w) = Ok (s1, Some file) →
  (∀ fs ty, file ≠ BinLog.zeros 40 ++ BinLog.enc_all (fs ++ [(ty, [])])) → next s1 ≤ N →
  ∃ n s2 s3, replay_start p2 react allocate file (initial u w') = Ok (s2, ()) ∧
    replay_steps p2 react n s2 = Ok (s3, ()) ∧ trace s3 = trace s1 ∧ user s3 = user s1 ∧
    replay_step p2 react s3 = AssertFail.
Proof.
  intros Hxs H Hlast Hn. destruct (record_run_Ok _ _ _ _ _ H) as (l & t & fs & Hr0 & Hrun & Hr & -> & Htr & Hu & Hnx).
  rewrite Hnx in Hn.
  pose proof Hr as ((room & Hrec) & Hsz & Hok). apply Forall_cons_1 in Hok as [_ Hok].
  pose proof (BinLog.rec_size _ _ _ Hrec) as Hs.
  destruct (replay_start_Ok fs u w' Hok) as (l2 & Hl2 & Hst).
  { apply readable_all. intros gs ty Hg. apply (Hlast gs ty). by rewrite Hg. }
  { unfold BinLog.maxBuffsize. lia. }
  destruct (adds_split (emit p1 react EvMain) (λ _, happen_all p1 react xs) (with_blog l (initial u w)) t ()
    [(code node_main_call, [])] fs (adds_emit EvMain) (λ _, adds_happen_all xs) Hr0 Hrun (conj Hr Hn))
    as (t1 & [] & n1 & n2 & H1 & H2 & Hr1 & Hr2 & ->).
  pose proof (proj1 Hr1) as Hr1'. pose proof (Sim_initial l l2 u w w' ((n1 ++ n2) ++ []) ltac:(by rewrite app_nil_r)) as Hsim. rewrite <-app_assoc in Hsim.
  destruct (sim_emit any EvMain (with_blog l (initial u w)) _ _ _ [(code node_main_call, [])] _ _ I Hr0 H1 Hr1 Hsim) as (s2 & [] & E2 & _ & Hsim2).
  destruct (plays_happen_all xs Hxs _ _ _ _ _ _ _ I Hr1' H2 Hr2 Hsim2) as (_ & n & s3 & E3 & Hsim3).
  exists n, s2, s3. split; [by rewrite Hst|]. split; [done|].
  rewrite Htr, Hu, (sim_trace _ _ _ Hsim3), (sim_user _ _ _ Hsim3). split_and!; try done.
  apply Replays_end, Hsim3.
Qed.
End sim.
End ReplaySpec.
