(* ===== verification/ReplayRuns.v ===== *)
(** * Recorded and replayed runs (for Replay.v)

    [record_replay] is the theorem the recording is for. The other theorems are about runs it
    leaves out: what the loop does with frames that are recorded in another way than they are
    read, and calls whose replay fails. *)

From S2P Require Import Prelude.
From S2P Require Import Buffers.
From S2P Require Import Address.
From S2P Require Import TcpSocket.
From S2P Require Import Server.
From S2P Require Import BinLog.
From S2P Require Import Replay.
From S2P Require Import ReplaySpec.
From Stdlib Require Import Lia.

Module ReplayRuns.
Import Frames Replay ReplaySpec.
#[local] Existing Instances M_ret M_bind.

(** the loop has no way out but an assertion *)
Lemma loop_stops {U W} {HE : RecEnv W} {HL : Layout} p (react : U → Event → prog U) n fuel (s t : node U W) :
  replay_steps p react n s = Ok (t, ()) → replay_step p react t = AssertFail → n < fuel →
  runReplayingLoop p react fuel s = AssertFail.
Proof.
  revert s fuel. induction n as [|n IH]; intros s [|fuel] Hn Ht Hlt; try lia; cbn [runReplayingLoop replay_steps] in *.
  - injection Hn as ->. by apply m_bind_stop.
  - apply m_bind_Ok in Hn as (s' & [] & E & Hn). erewrite m_bind_eq by exact E. apply IH; [done..|lia].
Qed.

(** An allocator that gives every object a slot of its own in an arena *)
Section arena.
Context {HL : Layout} (base : Z) (n : nat).
Definition slot (a : Z) : Z := ((a - base + object_size) `div` (2 * object_size))%Z.
Definition arena (l : list Z) : Z :=
  match filter (λ j, j ∉ (slot <$> l)) (seqZ 0 (Z.of_nat n)) with
  | j :: _ => (base + 2 * object_size * j)%Z
  | [] => base
  end.

Lemma arena_free l : length l < n → ∃ j, (0 ≤ j < Z.of_nat n)%Z ∧ (j ∉ (slot <$> l)) ∧ arena l = (base + 2 * object_size * j)%Z.
Proof.
  intros Hl. unfold arena. destruct (filter _ _) as [|j js] eqn:E.
  - exfalso. assert (Hin : seqZ 0 (Z.of_nat n) ⊆ (slot <$> l)).
    { intros j Hj. destruct (decide (j ∈ (slot <$> l))) as [|Hno]; [done|].
      assert (Hf : j ∈ filter (λ j, j ∉ (slot <$> l)) (seqZ 0 (Z.of_nat n))) by (by apply list_elem_of_filter). rewrite E in Hf. by apply not_elem_of_nil in Hf. }
    apply (NoDup_submseteq _ _ (NoDup_seqZ 0 (Z.of_nat n))) in Hin. apply submseteq_length in Hin.
    rewrite length_seqZ, length_fmap in Hin. lia.
  - assert (Hj : j ∈ filter (λ j, j ∉ (slot <$> l)) (seqZ 0 (Z.of_nat n))) by (rewrite E; by left).
    apply list_elem_of_filter in Hj as [Hj Hr]. apply elem_of_seqZ in Hr. exists j. by split; [lia|].
Qed.

Lemma arena_allocates pad : (0 ≤ base)%Z → (base + 2 * object_size * Z.of_nat n ≤ 2 ^ 64)%Z → allocates n (mkProcess pad arena).
Proof.
  pose proof socket_dfcp_inside as Hs. intros Hb He l Hl. destruct (arena_free l Hl) as (j & Hj & Hfree & Ha). cbn [alloc]. rewrite Ha. split; [nia|].
  intros a Hin. destruct (decide (j = slot a)) as [->|Hne]; [by destruct Hfree; apply list_elem_of_fmap_2|]. unfold slot in Hne.
  assert (0 < 2 * object_size)%Z by lia.
  pose proof (Z.div_mod (a - base + object_size) (2 * object_size)).
  pose proof (Z.mod_pos_bound (a - base + object_size) (2 * object_size)).
  destruct (Z.lt_total j ((a - base + object_size) `div` (2 * object_size))) as [|[|]]; [left; nia|done|right; nia].
Qed.
End arena.

(** A server that answers one request *)
#[local] Instance ex_env : RecEnv nat := {|
  env_make_socket w := (S w, Some (Z.of_nat (5 + w)));
  env_add_entry w := (S w, Z.of_nat w);
  env_connect _ _ _ w := (w, true);
  env_bind _ _ _ w := (w, true);
  env_port _ w := (w, 8080%Z);
  env_listen _ _ w := (w, true);
  env_write2 _ _ w := (w, (true, false, true));
  env_first_word _ _ := 77%Z |}.
#[local] Program Instance ex_layout : Layout := {| socket_dfcp := 64; server_dfcp := 80; object_size := 1024 |}.
Next Obligation. done. Qed.
Next Obligation. done. Qed.
Definition ex_recorder : process := mkProcess (λ _, x01) (arena 4096 2).
Definition ex_replayer : process := mkProcess (λ _, x00) (arena 65536 2).
Definition ex_react (u : nat) (ev : Event) : prog nat :=
  match ev with
  | EvMain => Call CNewServer (λ _, Call (CListen 0 7%Z 80%Z 5%Z) (λ _, Call (CAwaitListen 0 1) (λ _, Done 0)))
  | EvResumed 1 => Call (CResumeListen (Some 1)) (λ _, Done 1)
  | EvConnection _ o => Call (CAwaitRead false o 2 2) (λ _, Done o)
  | EvResumed 2 => Call (CResumeRead false u 2 100 (Some 2)) (λ a,
       match a with
       | AData _ => Call (CAwaitWrite u [x00; x01] 2) (λ _, Call (CResumeWrite None) (λ _, Call (CAwaitRead false u 2 2) (λ _, Done u)))
       | _ => Call (CCloseServer 0) (λ _, Done u)
       end)
  | _ => Done u
  end.
Definition ex_events : list happening :=
  [Listening 0; Connection 0 9%Z 77%Z 80%Z; Accepted 1; Readable 1 [x01] true; Readable 1 [x02; x03] true;
   Readable 1 [] true; CloseEvent 1; ServerCloseEvent 0 false].

Lemma ends_in_payload file x :
  last file = Some (Some x) → x ≠ x00 → ∀ fs ty, file ≠ BinLog.zeros 40 ++ BinLog.enc_all (fs ++ [(ty, [])]).
Proof.
  intros Hl Hx fs ty ->. rewrite BinLog.enc_all_snoc, app_assoc in Hl. unfold BinLog.enc in Hl. cbn [fst snd length] in Hl.
  change (le_split 4 (Z.of_nat 0) ++ []) with ([x00; x00; x00] ++ [x00]) in Hl.
  rewrite !fmap_app, !app_assoc in Hl. change (Some <$> [x00]) with [Some x00] in Hl. rewrite last_snoc in Hl. congruence.
Qed.

Lemma ex_replayable u ev : replayable_prog (ex_react u ev).
Proof. destruct ev as [|[|[|[|]]]| | | | | | | | | | |]; cbn; repeat split; try done. by intros []. Qed.

(** ** What is not replayed *)
Section not_replayed.
Context {U W : Type} {HE : RecEnv W} {HL : Layout} (p : process) (react : U → Event → prog U).
Implicit Types s : node U W.
Definition in_replay s : Prop := BinLog.mode_ (blog s) = BinLog.replaying.

(** The loop never returns, whatever the frames are: with fuel for more turns it
    goes on or fails. *)
Theorem loop_never_returns fuel s : is_ok (runReplayingLoop p react fuel s) = false.
Proof.
  revert s. induction fuel as [|fuel IH]; intros s; [done|]. cbn [runReplayingLoop].
  change ((_ ← replay_step p react; runReplayingLoop p react fuel) s) with
    (res_bind _ _ (λ '(t, _), runReplayingLoop p react fuel t) (replay_step p react s)).
  destruct (replay_step p react s) as [[t []]| | | |]; [|done..]. apply IH.
Qed.

(** A frame of any other type than these ends the loop: among them are the frames of waits
    that ran out of time, which nothing before them in the log announces. *)
Definition loop_types : list FrameType :=
  [sock_error_closing; sock_accepted; sock_read_failed_event_crh; sock_read_event_crh; sock_read_event_call;
   sock_remote_ended_call; sock_update_state; sock_closing; sock_error_preclosing; sock_connect_event_crh;
   sock_connect_event_call; sock_drain_event_crh; sock_drain_event_call; server_close_event_1;
   server_close_event_2_crh; server_close_event_2_call; server_listening_event_crh; server_listening_event_call;
   server_make_socket_input; server_make_socket_output; server_consume_socket_event_crh;
   server_consume_socket_event_call; server_error_event_call].

Theorem other_frames_stop_the_loop ty data s : ty ∉ loop_types → replay_frame p react (code ty, data) s = AssertFail.
Proof.
  intros H. unfold replay_frame. cbn [fst]. rewrite type_of_code.
  destruct ty; try reflexivity; exfalso; apply H; unfold loop_types; set_solver.
Qed.

Lemma use_timers_UB s : in_replay s → use_timers s = UB.
Proof. intros H. unfold use_timers. by rewrite by_mode_replaying. Qed.
Lemma m_bind_UB {A B} (m : M A) (f : A → M B) s : m s = UB → (m ≫= f) s = UB.
Proof. intros H. change ((m ≫= f) s) with (res_bind _ _ (λ '(t, a), f a t) (m s)). by rewrite H. Qed.
Lemma then_timers {A} (m : M ()) (k : M A) s :
  in_replay s → (∀ t u, m s = Ok (t, u) → blog t = blog s) → is_ok ((_ ← m; _ ← use_timers; k) s) = false.
Proof.
  intros Hr Hm. destruct ((_ ← m; _ ← use_timers; k) s) as [[t a]| | | |] eqn:E; [|done..]. exfalso.
  apply m_bind_Ok in E as (s' & u & E & H). apply Hm in E. apply m_bind_Ok in H as (t' & [] & H & _).
  rewrite use_timers_UB in H; [done|]. unfold in_replay. by rewrite E.
Qed.
Lemma update_blog f o s t u : update f o s = Ok (t, u) → blog t = blog s.
Proof.
  unfold update. intros H. apply m_bind_Ok in H as (t' & d & H1 & H). apply get_Ok in H1 as [-> _].
  by apply put_Ok in H as (a & x & _ & ->).
Qed.
Lemma update_server_blog f o s t u : update_server f o s = Ok (t, u) → blog t = blog s.
Proof.
  unfold update_server. intros H. apply m_bind_Ok in H as (t' & d & H1 & H). apply get_server_Ok in H1 as [-> _].
  by apply put_server_Ok in H as (a & x & _ & ->).
Qed.

(** A wait with a time limit uses the timers of the node, which a replaying process does
    not have: nothing that the code does afterwards is defined. *)
Theorem timed_waits_not_replayed o h n m h' s :
  in_replay s →
  is_ok (await_connect true o h s) = false ∧ is_ok (await_close true o h s) = false ∧
  resume_read true o n m h' s = UB ∧ resume_connection true o h' s = UB.
Proof.
  intros Hr. split_and!.
  - unfold await_connect, if_limited. erewrite m_bind_eq by reflexivity. by apply then_timers; [|apply update_blog].
  - unfold await_close, if_limited. erewrite m_bind_eq by reflexivity. by apply then_timers; [|apply update_server_blog].
  - unfold resume_read, if_limited. by apply m_bind_UB, use_timers_UB.
  - unfold resume_connection, if_limited. by apply m_bind_UB, use_timers_UB.
Qed.

(** [destroy()] of a socket in use asserts that there is a manager, which a replaying process does not have. *)
Theorem destroy_not_replayed o d s :
  in_replay s → sock_at o d s → state d ≠ Tcp.Uninitialized → is_closing d = false → appDestroy o s = AssertFail.
Proof.
  intros Hr Hd Hu Hc. assert (Hg : get o s = Ok (s, d)) by (by apply get_Ok). destruct Hd as [a Ha].
  unfold appDestroy. erewrite m_bind_eq by exact Hg. rewrite bool_decide_eq_false_2 by done.
  unfold os_closeSocket. erewrite m_bind_eq by exact Hg. rewrite Hc.
  erewrite m_bind_eq by (eapply (put_Ok _ _ _ _ ()); by exists a, (Client d)). by rewrite by_mode_replaying.
Qed.

Lemma read_frame_Ok s (f : BinLog.frame) rest :
  Replays (blog s) (f :: rest) → ∃ l, read_frame s = Ok (with_blog l s, (f.1, Some <$> f.2)).
Proof. intros H. apply Replays_read in H as (l & E & _). exists l. unfold read_frame, on_log. by rewrite E. Qed.

Lemma await_ready_Ok test b rest s :
  Replays (blog s) ((code coro_await_ready_res, put_bool b) :: rest) → ∃ l, await_ready test s = Ok (with_blog l s, b).
Proof.
  intros Hl. destruct (read_frame_Ok _ _ _ Hl) as (l & Hf). exists l. unfold await_ready.
  rewrite by_mode_replaying by exact (Replays_mode _ _ Hl). erewrite m_bind_eq by exact Hf. by destruct b.
Qed.

(** [a_drain] that had to wait while recording fails in the replay, whose write buffer is always empty. *)
Theorem waiting_drain_not_replayed limit o h d rest s :
  Replays (blog s) ((code coro_await_ready_res, put_bool false) :: rest) → sock_at o d s → writeBuffer_empty d = true →
  await_drain limit o h s = AssertFail.
Proof.
  intros Hl [a Ha] He. destruct (await_ready_Ok (d ← get o; mret (writeBuffer_empty d)) false _ _ Hl) as (l & Hf).
  unfold await_drain. erewrite m_bind_eq by exact Hf. cbv iota.
  erewrite m_bind_eq by (apply get_Ok; split; [done|]; by exists a). rewrite He. by apply m_bind_stop.
Qed.

(** [a_someDataAvailable] records whether there is data with a frame of another type than the one
    the replay wants first. *)
Theorem data_available_not_replayed o h b rest s :
  Replays (blog s) ((code coro_await_ready_res, put_bool b) :: rest) → resume_data o h s = AssertFail.
Proof.
  intros Hl. destruct (read_frame_Ok _ _ _ Hl) as (l & Hf). unfold resume_data.
  rewrite by_mode_replaying by exact (Replays_mode _ _ Hl). erewrite m_bind_eq by exact Hf. done.
Qed.

(** After a failed read the frame of the closed socket comes before those of the coroutine that
    waited for the data, which therefore finds a frame it does not expect. *)
Theorem failed_read_not_replayed o n m h rest a s :
  Replays (blog s) ((code sock_error_preclosing, SocketEvent a) :: rest) → resume_read false o n m h s = AssertFail.
Proof.
  intros Hl. destruct (read_frame_Ok _ _ _ Hl) as (l & Hf). unfold resume_read, if_limited.
  erewrite m_bind_eq by reflexivity. cbv zeta.
  rewrite by_mode_replaying by exact (Replays_mode _ _ Hl). erewrite m_bind_eq by exact Hf. done.
Qed.

Lemma unknown_socket s a :
  (∀ o x, objects s !! o = Some x → x.1 ≠ a) → in_replay s → BinLog.pointerMap (blog s) !! a = None →
  (b ← map_pointer a; socket_at b) s = UB.
Proof.
  intros Ho Hr Hm. assert (E : map_pointer a s = Ok (s, a)).
  { unfold map_pointer, on_log, BinLog.mapPointer. rewrite Hr, Hm. cbn. by destruct s. }
  erewrite m_bind_eq by exact E. unfold socket_at. apply m_bind_UB. unfold at_address.
  destruct (list_find _ _) as [[i [o [a' x]]]|] eqn:Hf; [|done]. exfalso.
  apply list_find_Some in Hf as (Hi & Ha & _). apply list_elem_of_lookup_2, elem_of_map_to_list in Hi. by apply (Ho o (a', x) Hi).
Qed.

(** A pointer that no object was registered with is used as it is: the frames of connections and
    drained buffers hold the address of [dataForCommandProcessing], where no object begins. *)
Theorem unknown_pointer_not_replayed ty a rest s :
  ty ∈ [sock_connect_event_crh; sock_connect_event_call; sock_drain_event_crh; sock_drain_event_call] →
  (0 ≤ a < 2 ^ 64)%Z → Replays (blog s) ((code ty, SocketEvent a) :: rest) →
  BinLog.pointerMap (blog s) !! a = None → (∀ o x, objects s !! o = Some x → x.1 ≠ a) →
  replay_step p react s = UB.
Proof.
  intros Hty Ha Hl Hm Ho. destruct (Replays_read _ _ _ Hl) as (l & E & Hr & Hpm & _).
  unfold replay_step. erewrite m_bind_eq by (unfold read_frame, on_log; rewrite E; reflexivity).
  set (t := with_blog l s). cbn [fst snd].
  assert (Hp : get_ptr (Some <$> SocketEvent a) = Ok a) by (rewrite <-(app_nil_r (SocketEvent a)); by apply get_ptr_head).
  assert (Hs : socket_of (get_ptr (Some <$> SocketEvent a)) t = UB).
  { unfold socket_of. erewrite m_bind_eq by (apply lift_Ok_eq; exact Hp). apply unknown_socket; [exact Ho| |].
    - exact (Replays_mode _ _ Hr).
    - cbn. by rewrite Hpm. }
  assert (ty = sock_connect_event_crh ∨ ty = sock_connect_event_call ∨ ty = sock_drain_event_crh ∨ ty = sock_drain_event_call)
    as [->|[->|[->| ->]]] by set_solver.
  all: by apply m_bind_UB.
Qed.
End not_replayed.
End ReplayRuns.
