(* ===== verification/EventLoop.v ===== *)
(** * The event loop (src/infrastructure.h)

    [Infrastructure]: the table of sockets with the managers of sockets and
    servers (Server.v), the timeouts (Timers.v) and the immediates (Events.v),
    and the loop that waits for the descriptors and runs what became due, in the
    order of the code. The loop of the process never ends by itself, so a turn is
    a function and the loop takes the number of turns it may run.

    [call] is what a callback of the user does, to all of this, and whether it
    throws; [resume] does the same for a coroutine. The build without
    clustering is modelled; the counters of [USE_TEMP_PERF_CTRS] and the
    assertions of level [pedantic] are compiled out. *)

From S2P Require Import Prelude Buffers Events Timers NetRegistry TcpSocket TcpSocketSpec Address Server.
From Stdlib Require Import Lia.

(** [poll] with the descriptors and the timeout, returning its result and the
    [revents]; [infraGetCurrentTime] *)
Class LoopOS (W : Type) := {
  sys_poll : list NetRegistry.NetRegistry.pollfd → Z → W → W * (Z * list Z);
  sys_now : W → W * Z;
}.

Module EventLoop.
Module N := NetRegistry.NetRegistry.

Section defs.
Context {Ob W CB H : Type} `{Countable Ob} `{!Infinite Ob}.
Context `{!OS W, !ServerOS W, !LoopOS W}.
Context (grow : nat → nat) (inet_addr : list u8 → Z).
#[local] Instance table_of_loop : SockTable Ob (N.t Ob) := NetTable.net_table grow.

(** the sockets and servers, the immediates, the flag [running] *)
Record world : Type := mkWorld {
  net : Server.net Ob W CB;
  inmediateQueue : EvQueue.t CB;
  running : bool;
}.
Definition with_net (x : Server.net Ob W CB) (w : world) : world := mkWorld x (inmediateQueue w) (running w).
Definition with_immediates (x : EvQueue.t CB) (w : world) : world := mkWorld (net w) x (running w).

(** [Infrastructure]: [timeout] and the rest *)
Abbreviation infra := (Timers.t CB H * world)%type.

Context (user : Ob → Tcp.Event → Tcp.mgr Ob (N.t Ob) W → list (Tcp.Cmd Ob W)).
Context (suser : Ob → Server.SEvent Ob → Server.net Ob W CB → list (Server.Cmd Ob W)).
Context (call : CB → infra → res (infra * bool)) (resume : H → infra → res infra).
Context (setCoroStatus : H → CoroStandardOutcomes → world → world).

Definition on_net (f : Server.net Ob W CB → res (Server.net Ob W CB)) (s : infra) : res infra :=
  n ← f (net s.2); Ok (s.1, with_net n s.2).

Definition setInmediate (cb : CB) (s : infra) : infra :=
  (s.1, with_immediates (EvQueue.add cb (inmediateQueue s.2)) s.2).

Definition refedTimeout (s : infra) : bool :=
  negb (EvQueue.empty (inmediateQueue s.2)) || Timers.infraRefedTimeout s.1.
Definition nextTimeout (s : infra) : Z :=
  if EvQueue.empty (inmediateQueue s.2) then Timers.infraNextTimeout s.1 else 0.

(** an event of the queue of a turn cannot reach that queue *)
Definition run_event (cb : CB) (s : infra) : res (EvQueue.outcome CB infra) :=
  '(s, threw) ← call cb s; Ok (EvQueue.mkOutcome s [] threw).
Definition emit_queue (q : EvQueue.t CB) (s : infra) : res infra :=
  '(_, s) ← EvQueue.emit run_event q s; Ok s.

(** an immediate may add immediates to the queue it is run from *)
Definition run_immediate (cb : CB) (s : infra) : res (EvQueue.outcome CB infra) :=
  '(s', threw) ← call cb s;
  Ok (EvQueue.mkOutcome s' (drop (length (inmediateQueue s.2)) (inmediateQueue s'.2)) threw).
Definition emitInmediates (s : infra) : res infra :=
  '(q, s) ← EvQueue.emit run_immediate (inmediateQueue s.2) s;
  Ok (s.1, with_immediates q s.2).

Definition infraTimeoutEvents (now : Z) (s : infra) : res infra :=
  Timers.infraTimeoutEvents (λ cb s, '(s, threw) ← call cb s; if (threw : bool) then Thrown else Ok s)
    resume setCoroStatus now s.

Definition infraGetCurrentTime (s : infra) : infra * Z :=
  let '(w, now) := sys_now (Server.os (net s.2)) in
  ((s.1, with_net (Server.with_os w (net s.2)) s.2), now).

(** ** Waiting and dispatching *)
Definition wait (timeoutToUse : Z) (n : Server.net Ob W CB) : Server.net Ob W CB * (bool * Z) :=
  let r := sys_poll (drop 1 (N.osSide (Server.table n))) timeoutToUse (Server.os n) in
  let '(t, ret) := N.wait (λ _ _, r.2) timeoutToUse (Server.table n) in
  (Server.with_table t (if (ret.1 : bool) then Server.with_os r.1 n else n), ret).

(** what is done for a descriptor that is ready *)
Definition dispatch (i : nat) (revents : Z) (n : Server.net Ob W CB) : res (Server.net Ob W CB) :=
  e ← N.at_ i (Server.table n);
  assoc ← N.isAssociated (N.heap (Server.table n)) e;
  if (assoc : bool) then
    match N.objectType e, N.ptr e with
    | N.ClientSocket, Some o =>
        m ← Tcp.infraCheckPollFdSet user o revents (Server.tcp n); Ok (Server.with_tcp m n)
    | N.ServerSocket, Some o => Server.infraCheckPollFdSet grow inet_addr suser i o revents n
    | _, _ => AssertFail
    end
  else Ok n.

(** [for ( i = reserved_capacity; processed < retval; ++i )] *)
Fixpoint poll_loop (fuel i : nat) (processed retval : Z) (n : Server.net Ob W CB) : res (Server.net Ob W CB) :=
  if bool_decide (processed < retval)%Z then
    match fuel with
    | O => NoFuel
    | S fuel =>
        revents ← N.reventsAt i (Server.table n);
        if bool_decide (revents ≠ 0%Z) then
          n ← dispatch i revents n;
          poll_loop fuel (S i) (processed + 1) retval n
        else poll_loop fuel (S i) processed retval n
    end
  else Ok n.

Definition pollPhase2 (fuel : nat) (refed : bool) (nextTimeoutAt now : Z) (n : Server.net Ob W CB)
  : res (Server.net Ob W CB * bool) :=
  let '(n, (waited, retval)) := wait (Timers.getPollTimeout nextTimeoutAt now) n in
  if negb waited then Ok (n, refed)
  else if bool_decide (retval < 0)%Z then AssertFail
  else if bool_decide (retval = 0%Z) then Ok (n, true)
  else n ← poll_loop fuel N.reserved_capacity 0 retval n; Ok (n, true).

(** ** A turn and the loop: [false] when the loop returns *)
Definition reworkIfNecessary (n : Server.net Ob W CB) : res (Server.net Ob W CB) :=
  t ← N.reworkIfNecessary grow (Server.table n); Ok (Server.with_table t n).
Definition socket_accepted_events (n : Server.net Ob W CB) : res (Server.net Ob W CB) :=
  m ← Tcp.infraProcessSockAcceptedEvents user (Server.tcp n); Ok (Server.with_tcp m n).

Definition turn (fuel : nat) (s : infra) : res (infra * bool) :=
  let '(pend, queue) := PendingEvQueue.toQueue (Server.pendingEvents (net s.2)) [] in
  let s := (s.1, with_net (Server.with_events pend (net s.2)) s.2) in
  s ← on_net (Server.infraEmitListeningEvents grow inet_addr suser fuel) s;
  s ← emit_queue queue s;
  let '(s, now) := infraGetCurrentTime s in
  s ← infraTimeoutEvents now s;
  let '(s, now) := infraGetCurrentTime s in
  '(n, refed) ← pollPhase2 fuel (refedTimeout s) (nextTimeout s) now (net s.2);
  let s := (s.1, with_net n s.2) in
  if negb refed then Ok (s, false)
  else
    s ← emitInmediates s;
    s ← on_net (Server.infraGetCloseEvent grow user) s;
    s ← on_net socket_accepted_events s;
    s ← on_net (Server.infraGetCloseEvents grow inet_addr suser) s;
    s ← on_net reworkIfNecessary s;
    Ok (s, true).

Fixpoint runStandardLoop (turns fuel : nat) (s : infra) : res infra :=
  if running s.2 then
    match turns with
    | O => NoFuel
    | S turns => '(s, go) ← turn fuel s; if (go : bool) then runStandardLoop turns fuel s else Ok s
    end
  else Ok s.

(** [doBasicInitialization] *)
Definition doBasicInitialization (s : infra) : res infra := on_net reworkIfNecessary s.
End defs.
End EventLoop.
