(* ===== verification/EventLoopSpec.v ===== *)
(** * Theorems about the event loop

    What is dispatched in a turn, when the loop returns, and the turns in which
    it does not wait for what it should wait for. *)

From S2P Require Import Prelude Buffers Events Timers NetRegistry TcpSocket TcpSocketSpec Address Server ServerSpec EventLoop.
From stdpp Require Import infinite.
From Stdlib Require Import Lia.

Module EventLoopSpec.
Import EventLoop ReadyTable ServerTables.
Module N := NetRegistry.NetRegistry.

(** What [poll] promises: it fails with a negative result, or answers every
    descriptor, none that is negative being ready, and counts the ready ones. *)
Definition ready_count (rs : list Z) : nat := length (filter (λ r, r ≠ 0%Z) rs).
Class LoopOSLaws (W : Type) `{!LoopOS W} := {
  poll_law fds timeout w : let '(_, (retval, rs)) := sys_poll fds timeout w in
    length rs = length fds ∧
    ((retval < 0)%Z ∨
     retval = Z.of_nat (ready_count rs) ∧
     ∀ j f r, fds !! j = Some f → rs !! j = Some r → (N.fd f < 0)%Z → r = 0%Z);
}.

Section spec.
Context {Ob W CB H : Type} `{Countable Ob} `{!Infinite Ob}.
Context `{!OS W, !ServerOS W, !LoopOS W}.
Context (grow : nat → nat) (inet_addr : list u8 → Z).
#[local] Instance loop_table : SockTable Ob (N.t Ob) := NetTable.net_table grow.
Context (user : Ob → Tcp.Event → Tcp.mgr Ob (N.t Ob) W → list (Tcp.Cmd Ob W)).
Context (suser : Ob → Server.SEvent Ob → Server.net Ob W CB → list (Server.Cmd Ob W)).
Implicit Types (n : Server.net Ob W CB).

(** the descriptors that are ready, with their events, in the order of the table *)
Fixpoint ready (i : nat) (rs : list Z) : list (nat * Z) :=
  match rs with
  | [] => []
  | r :: rs => if bool_decide (r ≠ 0%Z) then (i, r) :: ready (S i) rs else ready (S i) rs
  end.
Fixpoint dispatch_all (l : list (nat * Z)) n : res (Server.net Ob W CB) :=
  match l with
  | [] => Ok n
  | (i, r) :: l => n ← dispatch grow inet_addr user suser i r n; dispatch_all l n
  end.

Lemma ready_length i rs : length (ready i rs) = ready_count rs.
Proof.
  revert i. induction rs as [|r rs IH]; intros i; cbn [ready]; [done|]. unfold ready_count in *.
  rewrite filter_cons. case_bool_decide; case_decide; try done; cbn; by rewrite IH.
Qed.

Definition users_delete_nothing : Prop :=
  (∀ o ev m, Forall TcpTables.no_delete (user o ev m)) ∧ (∀ o ev s, Forall no_delete (suser o ev s)).

Lemma dispatch_quiet i r n n' : users_delete_nothing →
  dispatch grow inet_addr user suser i r n = Ok n' → quiet_step (Server.table n) (Server.table n').
Proof.
  intros [Hu Hs] Hd. unfold dispatch in Hd. apply bind_Ok_inv in Hd as (e & _ & Hd).
  apply bind_Ok_inv in Hd as (a & _ & Hd). destruct a; [|simplify_eq; exact (quiet_refl _)].
  destruct (N.objectType e) eqn:Hot, (N.ptr e) as [o|] eqn:Hp; try done.
  - apply bind_Ok_inv in Hd as (m & Hm & [= <-]).
    exact (TcpTables.kept_poll_event quiet_step (ops_quiet grow) user _ (Server.tcp n) m o r Hu Hm (quiet_refl _)).
  - exact (quiet_poll_event grow inet_addr suser Hs _ _ _ i o r Hd (quiet_refl _)).
Qed.

(** the table has the answers [rs] from [i] on *)
Definition answered (i : nat) (rs : list Z) (t : N.t Ob) : Prop :=
  ∀ j r, rs !! j = Some r → ∃ f, N.osSide t !! (i + j) = Some f ∧ N.revents f = r.

Lemma answered_cons i r rs t : answered i (r :: rs) t →
  answered (S i) rs t ∧ (0 < i → N.reventsAt i t = Ok r).
Proof.
  intros Ha. split.
  - intros j r' Hj. destruct (Ha (S j) r' Hj) as (f & Hf & Hr). exists f. by rewrite Nat.add_succ_comm.
  - intros Hpos. destruct (Ha 0 r eq_refl) as (f & Hf & Hr). rewrite Nat.add_0_r in Hf.
    unfold N.reventsAt, N.locate_os. rewrite bool_decide_eq_true_2 by lia.
    rewrite bool_decide_eq_true_2 by (by eapply lookup_lt_Some). cbn [mbind res_bind]. unfold N.get_fd.
    rewrite Hf. cbn [mbind res_bind]. by rewrite Hr.
Qed.

Lemma answered_kept i rs t t' : answered i rs t → revents_kept t t' → answered i rs t'.
Proof.
  intros Ha Hk j r Hj. destruct (Ha j r Hj) as (f & Hf & Hr). destruct (Hk _ _ Hf) as (f' & ? & ?).
  exists f'. split; [done|congruence].
Qed.

Lemma poll_loop_spec fuel i rs k n : users_delete_nothing → 0 < i → length rs ≤ fuel →
  free_quiet (Server.table n) → answered i rs (Server.table n) →
  poll_loop grow inet_addr user suser fuel i k (k + Z.of_nat (length (ready i rs))) n = dispatch_all (ready i rs) n.
Proof.
  intros Hu. revert i k n fuel. induction rs as [|r rs IH]; intros i k n fuel Hpos Hfuel Hq Ha.
  { cbn. destruct fuel; cbn; by rewrite bool_decide_eq_false_2 by lia. }
  destruct (answered_cons _ _ _ _ Ha) as [Ha' Hr]. specialize (Hr Hpos). cbn in Hfuel.
  destruct fuel as [|fuel]; [lia|]. cbn [ready poll_loop]. destruct (bool_decide (r ≠ 0%Z)) eqn:Hz.
  - cbn [length dispatch_all]. rewrite bool_decide_eq_true_2 by lia. rewrite Hr. cbn [mbind res_bind]. rewrite Hz.
    destruct (dispatch grow inet_addr user suser i r n) as [n'| | | |] eqn:Hd; cbn [mbind res_bind]; try done.
    destruct (dispatch_quiet _ _ _ _ Hu Hd Hq) as [Hq' Hk].
    replace (k + Z.of_nat (S (length (ready (S i) rs))))%Z with (k + 1 + Z.of_nat (length (ready (S i) rs)))%Z by lia.
    apply IH; [lia..|done|]. by eapply answered_kept.
  - destruct (bool_decide (k < _)%Z) eqn:Hlt.
    + rewrite Hr. cbn [mbind res_bind]. rewrite Hz. apply IH; [lia..|done|done].
    + apply bool_decide_eq_false_1 in Hlt. destruct (ready (S i) rs); [done|]. cbn in Hlt. lia.
Qed.

(** [poll] has answered [rs] and the answers are in the table *)
Definition polled (w : W) (rs : list Z) n : Server.net Ob W CB :=
  let t := Server.table n in
  Server.with_table (N.mk (N.ourSide t) (N.ourCap t) (N.ourSideAccum t)
      (take 1 (N.osSide t) ++ N.set_revents rs (drop 1 (N.osSide t)))
      (N.osCap t) (N.osSideAccum t) (N.associatedCount t) (N.usedCount t) (N.heap t)) (Server.with_os w n).

Context `{!LoopOSLaws W}.

Lemma polled_table timeout n w retval rs :
  sys_poll (drop 1 (N.osSide (Server.table n))) timeout (Server.os n) = (w, (retval, rs)) →
  N.wf (Server.table n) → (0 ≤ retval)%Z →
  retval = Z.of_nat (ready_count rs) ∧ length rs = length (drop 1 (N.osSide (Server.table n))) ∧
  free_quiet (Server.table (polled w rs n)) ∧ answered 1 rs (Server.table (polled w rs n)).
Proof.
  intros Hpoll Hwf Hret. pose proof (poll_law (drop 1 (N.osSide (Server.table n))) timeout (Server.os n)) as Hl.
  rewrite Hpoll in Hl. destruct Hl as [Hlen [Hneg|[Hc Hn]]]; [lia|].
  destruct (N.wf_zero _ Hwf) as (e0 & l & Hos & _). pose proof (N.wf_len _ Hwf) as Hll.
  destruct (N.osSide (Server.table n)) as [|f0 fs] eqn:Hfs; [by rewrite Hos in Hll|].
  change (drop 1 (f0 :: fs)) with fs in *.
  assert (Ht : N.osSide (Server.table (polled w rs n)) = f0 :: N.set_revents rs fs).
  { unfold polled. cbn. by rewrite Hfs. }
  assert (Hlook : ∀ j f, fs !! j = Some f → ∃ r', rs !! j = Some r' ∧
    N.set_revents rs fs !! j = Some (N.mkFd (N.fd f) (N.events f) r')).
  { intros j f Hf. destruct (lookup_lt_is_Some_2 rs j) as [r' Hr']; [rewrite Hlen; by eapply lookup_lt_Some|].
    exists r'. split; [done|]. unfold N.set_revents. by rewrite lookup_zip_with, Hf, Hr'. }
  split_and!; [done|done| |].
  - intros [|j] e f Hj He Hf Hu; [lia|]. rewrite Ht in Hf. change (N.set_revents rs fs !! j = Some f) in Hf.
    assert (Hjl : j < length fs).
    { apply lookup_lt_Some in Hf. unfold N.set_revents in Hf. rewrite length_zip_with in Hf. lia. }
    destruct (lookup_lt_is_Some_2 fs j Hjl) as [f1 Hf1]. destruct (Hlook j f1 Hf1) as (r' & Hr' & Hs).
    rewrite Hs in Hf. simplify_eq. cbn. apply (Hn j f1 r' Hf1 Hr').
    assert (Hg : N.good (N.heap (Server.table n)) e f1).
    { apply (N.wf_good _ Hwf (S j)); [lia| |].
      - unfold N.all_entries. apply lookup_app_l_Some. exact He.
      - unfold N.all_fds. apply lookup_app_l_Some. by rewrite Hfs. }
    unfold N.good in Hg. rewrite Hu in Hg. rewrite Hg. done.
  - intros j r' Hj. rewrite Ht. change ((f0 :: N.set_revents rs fs) !! (1 + j)) with (N.set_revents rs fs !! j). destruct (lookup_lt_is_Some_2 fs j) as [f Hf].
    { rewrite <-Hlen. by eapply lookup_lt_Some. }
    destruct (Hlook j f Hf) as (r'' & Hr'' & Hs). simplify_eq. by eexists.
Qed.

Lemma wait_polled timeout n w retval rs :
  sys_poll (drop 1 (N.osSide (Server.table n))) timeout (Server.os n) = (w, (retval, rs)) →
  N.associatedCount (Server.table n) ≠ 0%Z → wait timeout n = (polled w rs n, (true, retval)).
Proof.
  intros Hpoll Hac. unfold wait, N.wait. rewrite Hpoll. by rewrite (bool_decide_eq_false_2 _ Hac).
Qed.

(** C7. When a descriptor is associated, [poll] is asked; when it fails the
    process stops, and otherwise every descriptor it has marked ready is
    dispatched exactly once, in the order of the table, each to the manager of
    its object, and nothing else is: the loop that looks for as many ready
    descriptors as [poll] has counted finds them all and stops behind the last.
    This holds for all handlers that end no object in that turn. *)
Theorem poll_dispatches_each_once (refed : bool) (next now : Z) n w retval rs :
  users_delete_nothing → N.wf (Server.table n) → N.associatedCount (Server.table n) ≠ 0%Z →
  sys_poll (drop 1 (N.osSide (Server.table n))) (Timers.getPollTimeout next now) (Server.os n) = (w, (retval, rs)) →
  pollPhase2 grow inet_addr user suser (length (N.osSide (Server.table n))) refed next now n =
    if bool_decide (retval < 0)%Z then AssertFail
    else n' ← dispatch_all (ready 1 rs) (polled w rs n); Ok (n', true).
Proof.
  intros Hu Hwf Hac Hpoll. unfold pollPhase2. rewrite (wait_polled _ _ _ _ _ Hpoll Hac). cbn [negb].
  destruct (bool_decide (retval < 0)%Z) eqn:Hneg; [done|]. apply bool_decide_eq_false_1 in Hneg.
  destruct (polled_table _ _ _ _ _ Hpoll Hwf) as (Hret & Hlen & Hq & Ha); [lia|].
  pose proof (ready_length 1 rs) as Hl. case_bool_decide as Hz.
  - destruct (ready 1 rs) as [|x l]; [done|]. cbn in Hl. lia.
  - rewrite <-(poll_loop_spec (length (N.osSide (Server.table n))) 1 rs 0 (polled w rs n)); try done; [|lia|].
    + by rewrite Hl, Z.add_0_l, <-Hret.
    + rewrite Hlen, length_drop. lia.
Qed.

(** ** When the loop goes on *)
#[local] Abbreviation infra := (Timers.t CB H * world (Ob := Ob) (W := W) (CB := CB))%type.
Context (call : CB → infra → res (infra * bool)) (resume : H → infra → res infra).
Context (setCoroStatus : H → CoroStandardOutcomes → world (Ob := Ob) (W := W) (CB := CB) → world (Ob := Ob) (W := W) (CB := CB)).
#[local] Abbreviation turn := (turn grow inet_addr user suser call resume setCoroStatus).
Implicit Types (s : infra).

(** no descriptor is polled, no event is queued for this turn and no timer is
    due at [now] *)
Record unpolled s (now : Z) : Prop := {
  un_assoc : N.associatedCount (Server.table (net s.2)) = 0%Z;
  un_events : Server.pendingEvents (net s.2) = [];
  un_listen : Server.pendingListenEvents (net s.2) = [];
  un_timers : (now < Timers.infraNextTimeout s.1)%Z;
}.

(** the clock is read twice in a turn *)
Definition clock1 s : Z := (sys_now (Server.os (net s.2))).2.
Definition after_clock s : infra :=
  let w1 := (sys_now (Server.os (net s.2))).1 in
  (s.1, with_net (Server.with_os (sys_now w1).1 (net s.2)) s.2).

Lemma nothing_due s now : (now < Timers.infraNextTimeout s.1)%Z →
  EventLoop.infraTimeoutEvents call resume setCoroStatus now s = Ok s.
Proof.
  intros Hlt. unfold infraTimeoutEvents, Timers.infraTimeoutEvents, Timers.take_due, Timers.infraNextTimeout in *.
  destruct s as [[li ts nt] w]. cbn in *. assert (MultiMap.split_upper now nt = ([], nt)) as ->; [|done].
  destruct nt as [|[k v] nt]; [done|]. cbn. by rewrite bool_decide_eq_false_2 by lia.
Qed.

Lemma with_events_same (n : Server.net Ob W CB) : Server.pendingEvents n = [] → Server.with_events [] n = n.
Proof. destruct n. cbn. by intros ->. Qed.
Lemma with_net_same (w : world (Ob := Ob) (W := W) (CB := CB)) : with_net (net w) w = w.
Proof. by destruct w. Qed.
Lemma with_os_os w w' (n : Server.net Ob W CB) : Server.with_os w (Server.with_os w' n) = Server.with_os w n.
Proof. done. Qed.

Lemma with_table_same t (n : Server.net Ob W CB) : t = Server.table n → Server.with_table t n = n.
Proof. intros ->. by destruct n as [[] ? ? ? ? ? ? ?]. Qed.
Lemma on_net_ok f s n : f (net s.2) = Ok n → on_net f s = Ok (s.1, with_net n s.2).
Proof. unfold on_net. by intros ->. Qed.

(** such a turn comes to the waiting and does not wait *)
Lemma turn_unpolled fuel s : unpolled s (clock1 s) →
  turn fuel s =
    if refedTimeout s then
      s ← emitInmediates call (after_clock s);
      s ← on_net (Server.infraGetCloseEvent grow user) s;
      s ← on_net (socket_accepted_events grow user) s;
      s ← on_net (Server.infraGetCloseEvents grow inet_addr suser) s;
      s ← on_net (reworkIfNecessary grow) s;
      Ok (s, true)
    else Ok (after_clock s, false).
Proof.
  intros [Ha He Hl Ht]. unfold EventLoop.turn. rewrite He. cbn [PendingEvQueue.toQueue PendingEvQueue.forward].
  rewrite (with_events_same _ He), with_net_same. destruct s as [tm w]. cbn [fst snd] in *.
  rewrite (on_net_ok _ (tm, w) (net w)) by (destruct fuel; unfold Server.infraEmitListeningEvents; cbn [fst snd]; by rewrite Hl).
  cbn [mbind res_bind]. rewrite with_net_same. unfold emit_queue, EvQueue.emit. cbn [EvQueue.emit_loop mbind res_bind].
  unfold infraGetCurrentTime at 1. cbn [fst snd].
  destruct (sys_now (Server.os (net w))) as [w1 now] eqn:Hc1.
  assert (Hclk : clock1 (tm, w) = now) by (unfold clock1; cbn; by rewrite Hc1). rewrite Hclk in Ht.
  rewrite nothing_due by exact Ht. cbn [mbind res_bind]. unfold infraGetCurrentTime. cbn [fst snd net with_net].
  change (Server.os (Server.with_os w1 (net w))) with w1.
  destruct (sys_now w1) as [w2 now2] eqn:Hc2. cbn [fst snd].
  unfold pollPhase2, wait. cbn [net with_net]. rewrite with_os_os.
  change (Server.table (Server.with_os w2 (net w))) with (Server.table (net w)).
  unfold N.wait at 1. rewrite (bool_decide_eq_true_2 _ Ha). cbn [negb fst snd mbind res_bind].
  assert (Hac : after_clock (tm, w) = (tm, with_net (Server.with_os w2 (net w)) w)).
  { unfold after_clock. cbn [fst snd]. rewrite Hc1. cbn [fst snd]. by rewrite Hc2. }
  rewrite Hac, (with_table_same (Server.table (net w)) (Server.with_os w2 (net w)) eq_refl). change (refedTimeout (tm, _)) with (refedTimeout (tm, w)).
  by destruct (refedTimeout (tm, w)).
Qed.

(** C25. The loop returns only when nothing can happen any more: after a turn that
    ends it no descriptor is polled, no immediate is queued and no timer is set,
    whatever the callbacks and handlers of the turn did. *)
Theorem loop_returns_only_when_idle fuel s s' : turn fuel s = Ok (s', false) →
  N.associatedCount (Server.table (net s'.2)) = 0%Z ∧ inmediateQueue s'.2 = [] ∧ Timers.nextTimeouts s'.1 = [].
Proof.
  unfold EventLoop.turn. destruct (PendingEvQueue.toQueue _ _) as [pend queue]. intros Ht.
  apply bind_Ok_inv in Ht as (s1 & _ & Ht). apply bind_Ok_inv in Ht as (s2 & _ & Ht).
  destruct (infraGetCurrentTime s2) as [s3 now]. apply bind_Ok_inv in Ht as (s4 & _ & Ht).
  destruct (infraGetCurrentTime s4) as [s5 now2]. apply bind_Ok_inv in Ht as ([n refed] & Hp & Ht).
  destruct refed; cbn [negb] in Ht.
  { apply bind_Ok_inv in Ht as (a & _ & Ht). apply bind_Ok_inv in Ht as (b & _ & Ht).
    apply bind_Ok_inv in Ht as (c & _ & Ht). apply bind_Ok_inv in Ht as (d & _ & Ht).
    apply bind_Ok_inv in Ht as (e & _ & Ht). done. }
  injection Ht as <-. cbn [fst snd net inmediateQueue with_net]. unfold pollPhase2, wait, N.wait in Hp.
  destruct (bool_decide (N.associatedCount (Server.table (net s5.2)) = 0%Z)) eqn:Ha.
  - apply bool_decide_eq_true_1 in Ha. cbn [negb fst snd] in Hp. injection Hp as <- Hr. split; [done|].
    unfold refedTimeout, Timers.infraRefedTimeout in Hr. destruct (inmediateQueue s5.2); [|done].
    by destruct (Timers.nextTimeouts s5.1).
  - destruct (sys_poll _ _ _) as [w [r rs]]. cbn [fst snd negb] in Hp. open_eq; done.
Qed.

(** nothing waits to be reported at the end of a turn, and the table is in order *)
Record reported s : Prop := {
  rp_immediates : inmediateQueue s.2 = [];
  rp_sockets : Tcp.pendingCloseEvents (Server.tcp (net s.2)) = [] ∧ Tcp.pendingAcceptedEvents (Server.tcp (net s.2)) = [];
  rp_servers : Server.pendingCloseEvents (net s.2) = [];
  rp_table : N.ourSideAccum (Server.table (net s.2)) = [] ∧ length (N.ourSide (Server.table (net s.2))) ≤ N.compactionMinSize;
}.

Lemma rework_same (t : N.t Ob) : N.ourSideAccum t = [] → length (N.ourSide t) ≤ N.compactionMinSize →
  N.reworkIfNecessary grow t = Ok t.
Proof.
  intros Ha Hl. unfold N.reworkIfNecessary. rewrite Ha. cbn [length]. rewrite bool_decide_eq_false_2 by lia.
  cbn [mbind res_bind]. unfold N.makeCompactIfNecessary. by rewrite (bool_decide_eq_true_2 _ Hl).
Qed.

(** While no descriptor is polled the loop does not wait for its timers: with
    a timer set for later, and nothing else to do, a turn only reads the clock,
    twice, and goes on with the next turn; [poll], which would sleep until the
    timer, is not called. *)
Theorem loop_spins_until_timer fuel s :
  unpolled s (clock1 s) → reported s → Timers.nextTimeouts s.1 ≠ [] → turn fuel s = Ok (after_clock s, true).
Proof.
  intros Hu [Hi [Hc Hacc] Hs [Ht Hlen]] Hne. rewrite (turn_unpolled _ _ Hu).
  assert (refedTimeout s = true) as ->.
  { unfold refedTimeout, Timers.infraRefedTimeout. rewrite Hi. cbn. by destruct (Timers.nextTimeouts s.1). }
  unfold emitInmediates, EvQueue.emit. change (inmediateQueue (after_clock s).2) with (inmediateQueue s.2). rewrite Hi.
  cbn [EvQueue.emit_loop mbind res_bind]. set (s' := (_, _)).
  assert (s' = after_clock s) as ->.
  { unfold s', after_clock. destruct s as [tm [n im rn]]. cbn in *. by rewrite Hi. }
  set (s1 := after_clock s). set (n := net s1.2).
  assert (Hsame : (s1.1, with_net n s1.2) = s1) by (unfold n; rewrite with_net_same; by destruct s1).
  assert (Hrw : on_net (reworkIfNecessary grow) s1 = Ok s1).
  { rewrite (on_net_ok _ _ n), Hsame; [done|]. unfold reworkIfNecessary. rewrite rework_same; [|exact Ht|exact Hlen].
    cbn [mbind res_bind]. by rewrite with_table_same. }
  rewrite (on_net_ok (Server.infraGetCloseEvent grow user) _ n), Hsame.
  2: { unfold Server.infraGetCloseEvent. change (Tcp.pendingCloseEvents (Server.tcp (net s1.2))) with (Tcp.pendingCloseEvents (Server.tcp (net s.2))).
       rewrite Hc. cbn [Server.socket_close_all mbind res_bind]. apply (f_equal Ok). unfold n.
       change (Tcp.pendingCloseEvents (Server.tcp (net s.2))) with (Tcp.pendingCloseEvents (Server.tcp (net s1.2))) in Hc.
       destruct (net s1.2) as [[] ? ? ? ? ? ? ?]. cbn in *. by rewrite Hc. }
  cbn [mbind res_bind]. rewrite (on_net_ok (socket_accepted_events grow user) _ n), Hsame.
  2: { unfold socket_accepted_events, Tcp.infraProcessSockAcceptedEvents.
       change (Tcp.pendingAcceptedEvents (Server.tcp (net s1.2))) with (Tcp.pendingAcceptedEvents (Server.tcp (net s.2))).
       rewrite Hacc. cbn [length Tcp.accepted_loop mbind res_bind]. apply (f_equal Ok). unfold n.
       change (Tcp.pendingAcceptedEvents (Server.tcp (net s.2))) with (Tcp.pendingAcceptedEvents (Server.tcp (net s1.2))) in Hacc.
       destruct (net s1.2) as [[] ? ? ? ? ? ? ?]. cbn in *. by rewrite Hacc. }
  cbn [mbind res_bind]. rewrite (on_net_ok (Server.infraGetCloseEvents grow inet_addr suser) _ n), Hsame.
  2: { unfold Server.infraGetCloseEvents. change (Server.pendingCloseEvents (net s1.2)) with (Server.pendingCloseEvents (net s.2)).
       rewrite Hs. cbn [Server.close_all mbind res_bind]. apply (f_equal Ok). unfold n.
       change (Server.pendingCloseEvents (net s.2)) with (Server.pendingCloseEvents (net s1.2)) in Hs.
       destruct (net s1.2). cbn in *. by rewrite Hs. }
  cbn [mbind res_bind]. by rewrite Hrw.
Qed.

(** A server closed outside of the handling of [poll]'s results, say by a
    timer, is never told when its descriptor was the only one polled: the turn
    finds nothing to wait for and ends the loop, with the close event of the
    server still in its queue. *)
Theorem closed_last_server_never_told fuel s sv d sk i r f :
  Server.servers (net s.2) !! sv = Some d → Server.getSockCount d = 0 →
  N.heap (Server.table (net s.2)) !! sv = Some (N.mkObj i sk) → N.wf (Server.table (net s.2)) → N.fits (Server.table (net s.2)) → 0 < i →
  N.all_entries (Server.table (net s.2)) !! i = Some (N.mkEntry N.SockAssociated i r N.ServerSocket (Some sv)) →
  N.all_fds (Server.table (net s.2)) !! i = Some f →
  N.associatedCount (Server.table (net s.2)) = 1%Z → inmediateQueue s.2 = [] → Timers.nextTimeouts s.1 = [] →
  Server.pendingEvents (net s.2) = [] → Server.pendingListenEvents (net s.2) = [] → Server.pendingCloseEvents (net s.2) = [] →
  (clock1 s < UINT64_MAX)%Z → (∀ w k, (sys_now (sys_close k w)).2 = (sys_now w).2) →
  ∃ n s', Server.closingProcedure grow sv (net s.2) = Ok n ∧ turn fuel (s.1, with_net n s.2) = Ok (s', false) ∧
    Server.servers (net s'.2) !! sv = Some (Server.with_state Server.BeingClosed d) ∧
    Server.pendingCloseEvents (net s'.2) = [(i, false)] ∧ Server.strace (net s'.2) = Server.strace (net s.2).
Proof.
  intros Hd Hn Hh Hwf Hfits Hpos He Hf Hone Him Htm Hpe Hpl Hpc Hnow Hclk.
  destruct (ServerSpec.closingProcedure_spec grow (net s.2) sv d sk i r f) as (t' & Hclose & Hcnt & _); try done.
  rewrite Hone in Hcnt. rewrite (bool_decide_eq_true_2 _ Hn) in Hclose. set (n3 := Server.with_pending _ _) in Hclose.
  exists n3. rewrite Hclose. set (s3 := (s.1, with_net n3 s.2) : infra). exists (after_clock s3).
  assert (Hun : unpolled s3 (clock1 s3)).
  { constructor; try done. unfold Timers.infraNextTimeout. cbn [s3 fst]. rewrite Htm.
    unfold clock1 in *. change (Server.os (net s3.2)) with (sys_close sk (Server.os (net s.2))). rewrite Hclk. exact Hnow. }
  assert (Href : refedTimeout s3 = false).
  { unfold refedTimeout, Timers.infraRefedTimeout. cbn [s3 fst snd]. rewrite Htm.
    change (inmediateQueue (with_net n3 s.2)) with (inmediateQueue s.2). by rewrite Him. }
  rewrite (turn_unpolled _ _ Hun), Href. split; [done|]. split; [done|]. split; [apply lookup_insert_eq|].
  split; [|done]. change (Server.pendingCloseEvents (net (after_clock s3).2)) with (Server.pendingCloseEvents (net s.2) ++ [(i, false)]).
  by rewrite Hpc.
Qed.
End spec.
End EventLoopSpec.

(** ** Concrete instances: the loop over the server and the socket of ServerSpec.v *)
Module EventLoopExample.
Import EventLoop EventLoopSpec TcpExample ServerExample.

(** every descriptor that is asked for is ready, the clock stands *)
Definition answers (fds : list N.pollfd) : list Z := (λ f, if bool_decide (N.fd f < 0)%Z then 0%Z else 1%Z) <$> fds.
#[export] Instance loop_os : LoopOS system := {|
  sys_poll fds _ w := (w, (Z.of_nat (ready_count (answers fds)), answers fds));
  sys_now w := (w, 100%Z);
|}.
#[export] Instance loop_os_laws : LoopOSLaws system.
Proof.
  constructor. intros fds timeout w. cbn. split; [apply length_fmap|]. right. split; [done|].
  intros j f r Hf Hr Hneg. unfold answers in Hr. rewrite list_lookup_fmap, Hf in Hr. cbn in Hr.
  rewrite bool_decide_eq_true_2 in Hr by done. by injection Hr.
Qed.

Definition quiet_sockets (o : nat) (ev : Tcp.Event) (m : Tcp.mgr nat (N.t nat) system) : list (Tcp.Cmd nat system) := [].
Abbreviation infra := (Timers.t nat nat * world (Ob := nat) (W := system) (CB := nat))%type.
Definition no_call (cb : nat) (s : infra) : res (infra * bool) := Ok (s, false).
Definition no_resume (h : nat) (s : infra) : res infra := Ok s.
Definition no_status (h : nat) (o : CoroStandardOutcomes) (w : world (Ob := nat) (W := system) (CB := nat))
  : world (Ob := nat) (W := system) (CB := nat) := w.

Lemma poll_dispatches_each_once_witness :
  pollPhase2 NS.double no_addr quiet_sockets quiet_user 3 false 0 0 listening2 =
  (n' ← dispatch_all NS.double no_addr quiet_sockets quiet_user [(1, 1%Z); (2, 1%Z)] (polled world2 [1; 1]%Z listening2); Ok (n', true)).
Proof.
  apply (poll_dispatches_each_once NS.double no_addr quiet_sockets quiet_user false 0 0 listening2 world2 2 [1; 1]%Z).
  - by split; intros; constructor.
  - apply table2_wf. by left.
  - done.
  - done.
Defined.

(** the server 5 alone, in a table of two places *)
Definition table1 (st : N.State) (k assoc : Z) : N.t nat :=
  N.mk [N.empty_entry 0; N.mkEntry st 1 true N.ServerSocket (Some 5)] 2 [] [N.zero_fd; N.mkFd k 1 0] 2 [] assoc 1
       {[5 := N.mkObj 1 9]}.
Lemma table1_wf : N.wf (table1 N.SockAssociated 9 1).
Proof.
  assert (H5 : ({[5 := N.mkObj 1 9]} : gmap nat N.Obj) !! 5 = Some (N.mkObj 1 9)) by done.
  constructor; cbn; try done; [by eexists _, _| |].
  all: intros [|[|i]] e; cbn; intros; simplify_eq; try lia; try done.
  - split; [done|]. eexists _, _. split; [done|]. split; [exact H5|]. done.
  - intros ?. split; [done|]. intros o d Ho Hh. cbn [N.ptr] in Ho. injection Ho as <-. rewrite H5 in Hh. by injection Hh as <-.
Qed.

Definition alone : Server.net nat system nat :=
  net2 (table1 N.SockAssociated 9 1) (server5 Server.Listening None []) [].
Definition no_timers : Timers.t nat nat := Timers.init.
Definition one_timer : Timers.t nat nat :=
  Timers.mk 1 {[1%Z := Timers.mkEntry (Timers.mkHandler (Some 7) None) 1 (Some 0%Z) 500 (Some 500%Z) false true]} [(500%Z, 1%Z)].

Lemma loop_spins_until_timer_witness :
  turn NS.double no_addr quiet_sockets quiet_user no_call no_resume no_status 0
    (one_timer, mkWorld (net2 (N.init ∅) (server5 Server.Unused None []) []) [] true) =
  Ok ((one_timer, mkWorld (net2 (N.init ∅) (server5 Server.Unused None []) []) [] true), true).
Proof.
  rewrite (loop_spins_until_timer NS.double no_addr quiet_sockets quiet_user no_call no_resume no_status 0
    (one_timer, mkWorld (net2 (N.init ∅) (server5 Server.Unused None []) []) [] true)).
  - reflexivity.
  - by constructor.
  - constructor; try done. split; [done|]. cbn. unfold N.compactionMinSize. lia.
  - done.
Defined.

Lemma loop_returns_only_when_idle_witness : ∃ s' : infra,
  turn NS.double no_addr quiet_sockets quiet_user no_call no_resume no_status 0
    (no_timers, mkWorld (net2 (N.init ∅) (server5 Server.Unused None []) []) [] true) = Ok (s', false) ∧
  N.associatedCount (Server.table (EventLoop.net s'.2)) = 0%Z ∧ inmediateQueue s'.2 = [] ∧ Timers.nextTimeouts s'.1 = [].
Proof.
  eexists. split; [reflexivity|].
  eapply (loop_returns_only_when_idle NS.double no_addr quiet_sockets quiet_user no_call no_resume no_status 0
    (no_timers, mkWorld (net2 (N.init ∅) (server5 Server.Unused None []) []) [] true)). reflexivity.
Defined.

Lemma closed_last_server_never_told_witness : ∃ (n : Server.net nat system nat) (s' : infra),
  Server.closingProcedure NS.double 5 alone = Ok n ∧
  turn NS.double no_addr quiet_sockets quiet_user no_call no_resume no_status 0 (no_timers, mkWorld n [] true) = Ok (s', false) ∧
  Server.servers (EventLoop.net s'.2) !! 5 = Some (Server.with_state Server.BeingClosed (server5 Server.Listening None [])) ∧
  Server.pendingCloseEvents (EventLoop.net s'.2) = [(1, false)] ∧ Server.strace (EventLoop.net s'.2) = [].
Proof.
  apply (closed_last_server_never_told NS.double no_addr quiet_sockets quiet_user no_call no_resume no_status 0
    (no_timers, mkWorld alone [] true) 5 (server5 Server.Listening None []) 9 1 true (N.mkFd 9 1 0)); try done.
  - apply table1_wf.
  - lia.
Defined.
End EventLoopExample.
