(* ===== verification/JsValue.v ===== *)
(** * Values of the JavaScript layer (include/nodecpp/js_compat.h, src/js_compat/js_compat.cpp)

    [Module F64] has the operations on [double] the code uses, on the IEEE 754
    binary64 numbers of the standard library; [Module JsString] models [JSString]
    and its conversions from and to UTF-8; [Module VarStorage] models the storage of
    [JSVarBase], a tag and the object constructed in [basemem]; [Module JsValue] has
    the values themselves with the conversions and operators of [JSVar] (objects:
    JsObject.v). [JsValueSpec] shows that the storage implements assignment of
    values, which comparisons are symmetric, and where characters are lost.

    [throw;] outside of a handler terminates the process; it is [AssertFail]. *)

From S2P Require Import Prelude HttpMessage.
From stdpp Require Import pretty.
From Stdlib Require Import Lia.
From Stdlib Require Import Floats.SpecFloat.

Module F64.
Abbreviation f64 := spec_float.
Definition prec : Z := 53.
Definition emax : Z := 1024.
Definition of_Z (z : Z) : f64 := binary_normalize prec emax z 0 false.
Definition add (x y : f64) : f64 := SFadd prec emax x y.
Definition sub (x y : f64) : f64 := SFsub prec emax x y.
Definition mul (x y : f64) : f64 := SFmul prec emax x y.
Definition div (x y : f64) : f64 := SFdiv prec emax x y.
Definition nan : f64 := S754_nan.
Definition isnan (x : f64) : bool := match x with S754_nan => true | _ => false end.
Definition eqb (x y : f64) : bool := SFeqb x y.
Definition ltb (x y : f64) : bool := SFltb x y.
Definition leb (x y : f64) : bool := SFleb x y.

(** the integer part, towards zero and downwards *)
Definition trunc (x : f64) : option Z :=
  match x with
  | S754_zero _ => Some 0%Z
  | S754_finite s m e =>
      let a := if (0 <=? e)%Z then (Z.pos m * 2 ^ e)%Z else (Z.pos m / 2 ^ (- e))%Z in
      Some (if s then (- a)%Z else a)
  | _ => None
  end.
Definition floor (x : f64) : f64 :=
  match x with
  | S754_finite s m e =>
      if (0 <=? e)%Z then x
      else of_Z (if s then (- ((Z.pos m + 2 ^ (- e) - 1) / 2 ^ (- e)))%Z else (Z.pos m / 2 ^ (- e))%Z)
  | _ => x
  end.

(** conversions to integers: undefined when the integer part does not fit *)
Definition to_int (lo hi : Z) (x : f64) : res Z :=
  match trunc x with
  | Some z => REQUIRE bool_decide (lo ≤ z ≤ hi)%Z ;; Ok z
  | None => UB
  end.
Definition to_i64 : f64 → res Z := to_int (- 2 ^ 63) (2 ^ 63 - 1).
Definition to_u64 : f64 → res Z := to_int 0 (2 ^ 64 - 1).
End F64.
Abbreviation f64 := F64.f64.

Module JsString.

(** [JSChar] is its code. [ch] is a [char]; only its bits are used. *)
Definition lead (ch : Z) : option (nat * Z) :=
  if bool_decide (Z.land ch 224 = 192)%Z then Some (1, Z.shiftl (Z.land ch 31) 6)
  else if bool_decide (Z.land ch 240 = 224)%Z then Some (2, Z.shiftl (Z.land ch 15) 12)
  else if bool_decide (Z.land ch 241 = 240)%Z then Some (3, Z.shiftl (Z.land ch 7) 18)
  else None.

(** the loop of [utf8ToJSChar] over the characters before the terminator: what
    is left and the code; the local [code] is not used after the loop *)
Fixpoint utf8_loop (utfs : list u8) (seq : nat) (jcode code : Z) : list u8 * Z :=
  match utfs with
  | [] => ([], jcode)
  | c :: utfs =>
      let ch := Z_of_u8 c in
      match seq with
      | O =>
          if bool_decide (Z.land ch 128 = 0)%Z then (utfs, ch)
          else match lead ch with
               | Some (seq, jcode) => utf8_loop utfs seq jcode code
               | None => utf8_loop utfs 0 jcode code
               end
      | S seq =>
          let code := u32 (code + Z.shiftl (Z.land ch 63) (Z.of_nat seq)) in
          match seq with O => (utfs, jcode) | _ => utf8_loop utfs seq jcode code end
      end
  end.
Fixpoint c_str (s : list u8) : list u8 :=
  match s with [] => [] | c :: s => if bool_decide (c = x00) then [] else c :: c_str s end.
Definition utf8ToJSChar (utfs : list u8) : list u8 * Z := utf8_loop (c_str utfs) 0 0 0.

(** the characters before the terminator that [JSString(JSChar)] writes *)
Definition utf8FromJSChar (code : Z) : res (list u8) :=
  let b (hi : Z) (sh mask : Z) := u8_of_Z (Z.lor hi (Z.land (Z.shiftr code sh) mask)) in
  if bool_decide (code ≤ 127)%Z then Ok (if bool_decide (0 < code)%Z then [u8_of_Z code] else [])
  else if bool_decide (code ≤ 2047)%Z then Ok [b 192 5 31; b 128 0 63]%Z
  else if bool_decide (code ≤ 65535)%Z then Ok [b 224 11 31; b 128 6 63; b 128 0 63]%Z
  else if bool_decide (code ≤ 2097151)%Z then Ok [b 240 17 31; b 128 12 63; b 128 6 63; b 128 0 63]%Z
  else AssertFail.

(** [charAt]: [end] is past the last byte of the string, terminators inside it
    end [utf8ToJSChar], which then returns the same position *)
Fixpoint char_loop (n : nat) (ustr : list u8) (ret : Z) : Z :=
  match n, ustr with
  | S n, _ :: _ =>
      let '(rest, code) := utf8ToJSChar ustr in
      char_loop n (drop (length (c_str ustr) - length rest) ustr) code
  | _, _ => ret
  end.
Definition charAt (index : nat) (s : list u8) : Z := char_loop index s 0.

(** [utf8ToUc16] (js_compat.cpp), the terminator left out; the assignment to
    [short] keeps 16 bits *)
Fixpoint uc16_loop (utfs : list u8) (seq : nat) (code : Z) : list Z :=
  match utfs with
  | [] => []
  | c :: utfs =>
      let ch := Z_of_u8 c in
      match seq with
      | O =>
          if bool_decide (Z.land ch 128 = 0)%Z then ch :: uc16_loop utfs 0 0
          else match lead ch with
               | Some (seq, code) => uc16_loop utfs seq code
               | None => uc16_loop utfs 0 code
               end
      | S seq =>
          let code := u32 (code + Z.shiftl (Z.land ch 63) (Z.of_nat seq)) in
          match seq with O => u16 code :: uc16_loop utfs 0 0 | _ => uc16_loop utfs seq code end
      end
  end.
Definition utf8ToUc16 (utfs : list u8) : list Z := uc16_loop (c_str utfs) 0 0.
End JsString.

(** ** Values *)
Abbreviation addr := nat (only parsing).

(** [JSVarBase::Type]: [TFn n] is [fn0] to [fn10] *)
Inductive tag : Type := TUndef | TBool | TNum | TStr | TSoft | TFn (n : nat).
#[export] Instance tag_eq_dec : EqDecision tag.
Proof. solve_decision. Defined.

(** [JSVar] by its type and what is stored for it; a function of [n] arguments
    is an element of [F] *)
Inductive value (F : Type) : Type :=
  | VUndef
  | VBool (b : bool)
  | VNum (d : f64)
  | VStr (s : list u8)
  | VSoft (p : option addr)
  | VFn (n : nat) (f : F).
Arguments VUndef {F}.
Arguments VBool {F}.
Arguments VNum {F}.
Arguments VStr {F}.
Arguments VSoft {F}.
Arguments VFn {F}.

Module VarStorage.
Section defs.
Context {F : Type}.

(** the object that lives in [basemem]; [Raw] is memory without one *)
Inductive stored : Type :=
  | Raw | SBool (b : bool) | SNum (d : f64) | SStr (s : list u8) | SSoft (p : option addr) | SFn (n : nat) (f : F).

(** [JSVarBase] *)
Record t : Type := mk { type : tag; basemem : stored }.

(** [JSVarBase()] *)
Definition init_undef : t := mk TUndef Raw.

(** [deinit]: destroying an object of another type is undefined *)
Definition deinit (b : t) : res t :=
  match type b, basemem b with
  | (TUndef | TBool | TNum), _ => Ok (mk TUndef Raw)
  | TStr, SStr _ => Ok (mk TUndef Raw)
  | TSoft, SSoft _ => Ok (mk TUndef Raw)
  | TFn n, SFn m _ => REQUIRE bool_decide (n = m) ;; Ok (mk TUndef Raw)
  | _, _ => UB
  end.

(** [*_asBool() = b] and [*_asNum() = d] need no object to be there *)
Definition initAsBool (x : bool) (b : t) : res t :=
  if bool_decide (type b = TBool) then Ok (mk TBool (SBool x))
  else _ ← deinit b; Ok (mk TBool (SBool x)).
Definition init_num (d : f64) (b : t) : res t :=
  if bool_decide (type b = TNum) then Ok (mk TNum (SNum d))
  else _ ← deinit b; Ok (mk TNum (SNum d)).
(** [init] from [nodecpp::string] and from [JSString] *)
Definition init_str (s : list u8) (b : t) : res t :=
  if bool_decide (type b = TStr) then
    match basemem b with SStr _ => Ok (mk TStr (SStr s)) | _ => UB end
  else _ ← deinit b; Ok (mk TStr (SStr s)).
(** [init] from [soft_ptr<JSObject>] and from [soft_ptr<JSArray>] *)
Definition init_soft (p : option addr) (b : t) : res t :=
  if bool_decide (type b = TSoft) then
    match basemem b with SSoft _ => Ok (mk TSoft (SSoft p)) | _ => UB end
  else _ ← deinit b; Ok (mk TSoft (SSoft p)).
(** [init( Fn<n>T&& )] *)
Definition init_fn (n : nat) (f : F) (b : t) : res t :=
  if bool_decide (type b = TFn n) then
    match basemem b with SFn m _ => REQUIRE bool_decide (n = m) ;; Ok (mk (TFn n) (SFn n f)) | _ => UB end
  else _ ← deinit b; Ok (mk (TFn n) (SFn n f)).

(** [init( const JSVarBase& other )]; reading another object than the one that
    is there is undefined *)
Definition read (other : t) : res stored :=
  match type other, basemem other with
  | TUndef, _ => Ok Raw
  | TBool, SBool b => Ok (SBool b)
  | TNum, SNum d => Ok (SNum d)
  | TStr, SStr s => Ok (SStr s)
  | TSoft, SSoft p => Ok (SSoft p)
  | TFn n, SFn m f => REQUIRE bool_decide (n = m) ;; Ok (SFn n f)
  | _, _ => UB
  end.
Definition init_copy (other b : t) : res t :=
  if bool_decide (type b = type other) then
    x ← read other;
    match type b, basemem b with
    | (TUndef | TBool | TNum), _ => Ok (mk (type b) x)
    | TStr, SStr _ => Ok (mk (type b) x)
    | TSoft, SSoft _ => Ok (mk (type b) x)
    | TFn n, SFn m _ => REQUIRE bool_decide (n = m) ;; Ok (mk (type b) x)
    | _, _ => UB
    end
  else
    _ ← deinit b;
    x ← read other;
    Ok (mk (type other) x).

(** [JSVar( JSVar&& )] and [operator = ( JSVar&& )]: the object and [other]
    afterwards *)
Definition move_construct (other : t) : res (t * t) :=
  b ← init_copy other init_undef; other ← deinit other; Ok (b, other).
Definition move_assign (b other : t) : res (t * t) :=
  b ← init_copy other b; other ← deinit other; Ok (b, other).
(** [v = std::move( v )] *)
Definition self_move_assign (b : t) : res t := b ← init_copy b b; deinit b.

(** what is stored, when the tag tells the object that is there *)
Definition value_of (b : t) : option (value F) :=
  match type b, basemem b with
  | TUndef, Raw => Some VUndef
  | TBool, SBool x => Some (VBool x)
  | TNum, SNum d => Some (VNum d)
  | TStr, SStr s => Some (VStr s)
  | TSoft, SSoft p => Some (VSoft p)
  | TFn n, SFn m f => if bool_decide (n = m) then Some (VFn n f) else None
  | _, _ => None
  end.
Definition store (v : value F) : t :=
  match v with
  | VUndef => mk TUndef Raw
  | VBool b => mk TBool (SBool b)
  | VNum d => mk TNum (SNum d)
  | VStr s => mk TStr (SStr s)
  | VSoft p => mk TSoft (SSoft p)
  | VFn n f => mk (TFn n) (SFn n f)
  end.

Lemma value_of_store v : value_of (store v) = Some v.
Proof. destruct v; try done. unfold value_of. cbn. by rewrite bool_decide_eq_true_2. Qed.
Lemma value_of_inv b v : value_of b = Some v → b = store v.
Proof. destruct b as [[] []]; cbn; intros; simplify_eq/=; try done. case_bool_decide; by simplify_eq. Qed.
End defs.
Arguments t _ : clear implicits.
End VarStorage.

Module JsValue.
Import JsString.

Section defs.
Context {F : Type}.
(** [fmt::format( "{}", d )] and [strtod], which also says how many characters
    it has read; what a pointer to an object is compared with [nullptr] and
    printed as, which is for JsObject.v *)
Context (fmt_double : f64 → list u8) (strtod : list u8 → f64 * nat).
Context (soft_null : option addr → res bool) (soft_str : option addr → res (list u8)).
Implicit Types (v w : value F).

Definition str (s : string) : list u8 := Str.str s.
Definition type_of (v : value F) : tag :=
  match v with
  | VUndef => TUndef | VBool _ => TBool | VNum _ => TNum | VStr _ => TStr | VSoft _ => TSoft | VFn n _ => TFn n
  end.
Definition typeOf (v : value F) : list u8 :=
  match type_of v with
  | TUndef => str "undefined" | TBool => str "boolean" | TNum => str "number"
  | TStr => str "string" | TSoft => str "object" | TFn _ => str "function"
  end.

Definition format_int (z : Z) : list u8 := str (pretty z).
Definition b2d (b : bool) : f64 := if b then F64.of_Z 1 else F64.of_Z 0.

(** [toString] on a number *)
Definition num_str (d : f64) : res (list u8) :=
  i ← F64.to_i64 d;
  if F64.eqb (F64.of_Z i) d then (i ← F64.to_i64 d; Ok (format_int i)) else Ok (fmt_double d).

Definition toString (v : value F) : res (list u8) :=
  match v with
  | VUndef => Ok (str "undefined")
  | VBool b => Ok (if b then str "true" else str "false")
  | VNum d => num_str d
  | VStr s => Ok s
  | VSoft p => soft_str p
  | VFn _ _ => Ok (str "function")
  end.

Definition str_num (s : list u8) : f64 :=
  let '(ret, n) := strtod (c_str s) in if bool_decide (n = length s) then ret else F64.nan.
Definition toNumber (v : value F) : f64 :=
  match v with
  | VNum d => d
  | VBool b => b2d b
  | VStr s => str_num s
  | VUndef | VSoft _ | VFn _ _ => F64.nan
  end.

Definition isFalseValue (v : value F) : res bool :=
  match v with
  | VUndef => Ok true
  | VBool b => Ok (negb b)
  | VNum d => Ok (F64.eqb d (F64.of_Z 0) || F64.isnan d)
  | VStr s => Ok (bool_decide (length s = 0))
  | VSoft p => soft_null p
  | VFn _ _ => Ok false
  end.

(** ** Operators *)
Definition op_not (v : value F) : res bool := isFalseValue v.
Definition op_or (v w : value F) : res (value F) :=
  me ← isFalseValue v; _ ← isFalseValue w; Ok (if (me : bool) then w else v).
Definition op_and (v w : value F) : res (value F) :=
  me ← isFalseValue v; _ ← isFalseValue w; Ok (if (me : bool) then v else w).

Definition op_mod (v w : value F) : res (value F) :=
  let me := toNumber v in
  if F64.isnan me then Ok (VNum F64.nan)
  else
    let other := toNumber w in
    if F64.isnan other then Ok (VNum F64.nan)
    else
      let negative := F64.ltb me (F64.of_Z 0) in
      let me := if negative then SFopp me else me in
      let other := if F64.ltb other (F64.of_Z 0) then SFopp other else other in
      let rat := F64.div me other in
      if F64.isnan rat then Ok (VNum F64.nan)
      else
        irat ← F64.to_u64 rat;
        let rem := F64.sub me (F64.mul other (F64.of_Z irat)) in
        Ok (VNum (if negative then SFopp rem else rem)).

(** [==]; for a boolean and a string it is the address of the boolean that is
    tested, which is not null *)
Definition op_eq (v w : value F) : res bool :=
  match v, w with
  | VUndef, VUndef => Ok true
  | VUndef, VSoft p => soft_null p
  | VUndef, _ => Ok false
  | VBool b, VUndef => Ok (negb b)
  | VBool b, VBool c => Ok (bool_decide (b = c))
  | VBool b, VNum d => Ok (F64.eqb (b2d b) d)
  | VBool b, VStr s => Ok (F64.eqb (str_num s) (F64.of_Z 1))
  | VBool _, _ => Ok false
  | VNum d, VBool b => Ok (F64.eqb d (b2d b))
  | VNum d, VNum e => Ok (F64.eqb d e)
  | VNum d, VStr s => Ok (F64.eqb d (str_num s))
  | VNum _, _ => Ok false
  | VStr s, VStr t => Ok (bool_decide (s = t))
  | VStr s, VBool b => Ok (F64.eqb (str_num s) (b2d b))
  | VStr s, VNum d => Ok (F64.eqb (str_num s) d)
  | VStr s, VSoft p =>
      null ← soft_null p;
      if (null : bool) then Ok false else t ← soft_str p; Ok (bool_decide (s = t))
  | VStr _, _ => Ok false
  | VSoft p, VUndef => soft_null p
  | VSoft p, VSoft q => Ok (bool_decide (p = q))
  | VSoft _, _ => Ok false
  | VFn _ _, _ => Ok false
  end.

Definition isStrictlyTheSame (v w : value F) : bool :=
  match v, w with
  | VUndef, VUndef => true
  | VBool b, VBool c => bool_decide (b = c)
  | VNum d, VNum e => F64.eqb d e
  | VStr s, VStr t => bool_decide (s = t)
  | VSoft p, VSoft q => bool_decide (p = q)
  | _, _ => false
  end.

Definition op_add (v w : value F) : res (value F) :=
  match v, w with
  | VBool b, VBool c => Ok (VNum (F64.of_Z ((if b then 1 else 0) + (if c then 1 else 0))))
  | VBool b, VNum d => Ok (VNum (F64.add (b2d b) d))
  | VNum d, VBool b => Ok (VNum (F64.add d (b2d b)))
  | VNum d, VNum e => Ok (VNum (F64.add d e))
  | (VBool _ | VNum _), VStr t => s ← toString v; Ok (VStr (s ++ t))
  | VStr s, (VBool _ | VNum _ | VStr _) => t ← toString w; Ok (VStr (s ++ t))
  | _, _ => AssertFail
  end.

(** [+=] and [*=]: the variable afterwards and the result *)
Definition op_add_assign (v w : value F) : res (value F * value F) :=
  match v, w with
  | VBool b, VBool c =>
      let val := F64.of_Z ((if b then 1 else 0) + (if c then 1 else 0)) in Ok (VNum val, VNum val)
  | VBool b, VNum d => let val := F64.add (b2d b) d in Ok (VNum val, VNum val)
  | VNum d, VBool b => let val := F64.add d (b2d b) in Ok (VNum val, VNum val)
  | VNum d, VNum e => let val := F64.add d e in Ok (VNum val, VNum val)
  | (VBool _ | VNum _), VStr t => s ← toString v; Ok (VStr (s ++ t), VStr (s ++ t))
  | VStr s, (VBool _ | VNum _ | VStr _) => t ← toString w; Ok (VStr (s ++ t), VStr (s ++ t))
  | _, _ => AssertFail
  end.

Definition op_mul (v w : value F) : res (value F) :=
  match v, w with
  | VBool b, VBool c => Ok (VNum (F64.of_Z ((if b then 1 else 0) * (if c then 1 else 0))))
  | VBool b, VNum d => Ok (VNum (F64.mul (b2d b) d))
  | VNum d, VBool b => Ok (VNum (F64.mul d (b2d b)))
  | VNum d, VNum e => Ok (VNum (F64.mul d e))
  | (VBool _ | VNum _), VStr _ => Ok (VNum F64.nan)
  | VStr _, _ => Ok (VNum F64.nan)
  | _, _ => AssertFail
  end.

Definition op_mul_assign (v w : value F) : res (value F * value F) :=
  match v, w with
  | VBool b, VBool c =>
      let val := F64.of_Z ((if b then 1 else 0) * (if c then 1 else 0)) in Ok (VNum val, VNum val)
  | VBool b, VNum d => let val := F64.mul (b2d b) d in Ok (VNum val, VNum val)
  | VNum d, VBool b => let val := F64.mul d (b2d b) in Ok (VNum val, VNum val)
  | VNum d, VNum e => let val := F64.mul d e in Ok (VNum val, VNum val)
  | (VBool _ | VNum _), VStr _ => Ok (VNum F64.nan, VNum F64.nan)
  | VStr _, _ => Ok (v, VNum F64.nan)
  | _, _ => AssertFail
  end.

(** [++] and [--], before and after: [by_] is 1 or -1 *)
Definition op_step (by_ : Z) (v : value F) : value F :=
  let val := toNumber v in
  if F64.isnan val then VNum val
  else VNum (if bool_decide (0 < by_)%Z then F64.add val (F64.of_Z 1) else F64.sub val (F64.of_Z 1)).
Definition op_prefix (by_ : Z) (v : value F) : value F * value F := (op_step by_ v, op_step by_ v).
Definition op_postfix (by_ : Z) (v : value F) : value F * value F := (op_step by_ v, VNum (toNumber v)).

(** ** Strings *)
(** ['A'] to ['Z'], ['a'] to ['z'] *)
Definition lower (c : u8) : u8 := if bool_decide (65 ≤ Z_of_u8 c ≤ 90)%Z then u8_of_Z (Z_of_u8 c + 32) else c.
Definition upper (c : u8) : u8 := if bool_decide (97 ≤ Z_of_u8 c ≤ 122)%Z then u8_of_Z (Z_of_u8 c - 32) else c.
Definition toLowerCase (v : value F) : res (value F) := s ← toString v; Ok (VStr (lower <$> s)).
Definition toUpperCase (v : value F) : res (value F) := s ← toString v; Ok (VStr (upper <$> s)).

(** [str.find( separ, start )] for a string of one character *)
Definition find_char (c : u8) (s : list u8) (start : nat) : option nat := Str.find_from (λ x, x = c) s (Some start).
Fixpoint split_loop (fuel : nat) (cnt mcnt : Z) (c : u8) (s : list u8) (start : nat) : res (list (list u8)) :=
  match fuel with
  | O => NoFuel
  | S fuel =>
      if bool_decide (cnt < mcnt)%Z then
        match find_char c s start with
        | None => x ← Str.substr s start None; Ok [x]
        | Some e =>
            x ← Str.substr s start (Some (e - start));
            xs ← split_loop fuel (cnt + 1) mcnt c s (e + 1);
            Ok (x :: xs)
        end
      else Ok []
  end.
(** the strings the array of [split( separator, maxCount )] holds; fewer than
    [length s + 2] turns are made *)
Definition split (v separator maxCount : value F) : res (list (list u8)) :=
  match separator with
  | VStr sep =>
      ASSERT bool_decide (length sep ≤ 1) ;;
      s ← toString v;
      match sep with
      | [] => Ok ((λ c, [c]) <$> s)
      | c :: _ => mcnt ← F64.to_u64 (toNumber maxCount); split_loop (length s + 2) 0 mcnt c s 0
      end
  | _ => AssertFail
  end.

(** ** [JSRegExp]

    [regex_match str re] is [std::regex_match( str, std::regex( re ) )]. *)
Record regexp : Type := mkRegExp { regex : list u8; flags_ : Z }.
Definition flag_g : Z := 1.
Fixpoint setFlags (flags : list u8) (acc : Z) : res Z :=
  match flags with
  | [] => Ok acc
  | x67 :: flags => setFlags flags (Z.lor acc flag_g)
  | x69 :: flags => setFlags flags (Z.lor acc flag_g)
  | _ => AssertFail
  end.
Definition regexp_of_string (re flags : list u8) : res regexp := f ← setFlags flags 0; Ok (mkRegExp re f).
(** the flags are not looked at *)
Definition regexp_of_var (v : value F) (flags : list u8) : res regexp :=
  match v with
  | VStr _ | VNum _ | VBool _ => s ← toString v; Ok (mkRegExp s 0)
  | _ => AssertFail
  end.
Definition test (regex_match : list u8 → list u8 → bool) (re : regexp) (what : value F) : res bool :=
  match what with
  | VStr s => if bool_decide (Z.land (flags_ re) flag_g ≠ 0%Z) then Ok (regex_match s (regex re)) else AssertFail
  | _ => AssertFail
  end.

(** [JSVar( JSString( pstr->charAt( idx ) ) )] *)
Definition char_at (s : list u8) (idx : nat) : res (value F) := c ← utf8FromJSChar (charAt idx s); Ok (VStr c).
End defs.
End JsValue.
