(* ===== verification/JsValueSpec.v ===== *)
(** * Theorems about the values of the JavaScript layer

    The storage of a variable implements values; the comparisons, the assignment
    operators, characters and [split]. *)

From S2P Require Import Prelude HttpMessage JsValue.
From Stdlib Require Import Lia.
From Stdlib Require Import Floats.SpecFloat.

Module JsValueSpec.
Import JsValue.

(** ** The storage of a variable *)
Section storage.
Context {F : Type}.
Import VarStorage.
Implicit Types (b : t F) (v : value F).

(** what a variable is given *)
Inductive op : Type :=
  | OpDeinit | OpBool (x : bool) | OpNum (d : f64) | OpStr (s : list u8) | OpSoft (p : option addr)
  | OpFn (n : nat) (f : F) | OpCopy (other : t F).
Definition exec (o : op) b : res (t F) :=
  match o with
  | OpDeinit => deinit b
  | OpBool x => initAsBool x b
  | OpNum d => init_num d b
  | OpStr s => init_str s b
  | OpSoft p => init_soft p b
  | OpFn n f => init_fn n f b
  | OpCopy other => init_copy other b
  end.
Definition means (o : op) : option (value F) :=
  match o with
  | OpDeinit => Some VUndef
  | OpBool x => Some (VBool x)
  | OpNum d => Some (VNum d)
  | OpStr s => Some (VStr s)
  | OpSoft p => Some (VSoft p)
  | OpFn n f => Some (VFn n f)
  | OpCopy other => value_of other
  end.

Lemma deinit_store v : deinit (store v) = Ok init_undef.
Proof. destruct v; try done. cbn. by rewrite bool_decide_eq_true_2. Qed.

Lemma read_store v : read (store v) = Ok (basemem (store v)).
Proof. destruct v; try done. cbn. by rewrite bool_decide_eq_true_2. Qed.

Lemma init_copy_store v w : init_copy (store w) (store v) = Ok (store w).
Proof.
  unfold init_copy. destruct (bool_decide (type (store v) = type (store w))) eqn:He.
  - apply bool_decide_eq_true_1 in He. rewrite read_store.
    destruct v, w; cbn in *; simplify_eq; try done. by rewrite bool_decide_eq_true_2.
  - rewrite deinit_store. cbn [mbind res_bind]. rewrite read_store. by destruct w.
Qed.

(** C26. The tagged storage of a variable holds a value: whatever it is given, of
    the same type or of another one, the object that was there is destroyed or
    assigned as the object it is, what is read from it afterwards is what it was
    given, and no step uses the memory as an object that is not in it. Moving
    leaves the other variable undefined, and moving a variable to itself loses
    its value. *)
Theorem storage_implements_values (b other : t F) (v w : value F) (o : op) :
  value_of b = Some v → value_of other = Some w → is_Some (means o) →
  (∃ b', exec o b = Ok b' ∧ value_of b' = means o) ∧
  (∃ b' other', move_assign b other = Ok (b', other') ∧ value_of b' = Some w ∧ value_of other' = Some VUndef) ∧
  (∃ b', self_move_assign b = Ok b' ∧ value_of b' = Some VUndef).
Proof.
  intros ->%value_of_inv ->%value_of_inv Ho. split_and!.
  - destruct o as [|x|d|s|p|n f|c]; cbn [exec means] in *.
    + rewrite deinit_store. by eexists.
    + unfold initAsBool. case_bool_decide; [by eexists|]. rewrite deinit_store. by eexists.
    + unfold init_num. case_bool_decide; [by eexists|]. rewrite deinit_store. by eexists.
    + unfold init_str. case_bool_decide; [destruct v; try done; by eexists|]. rewrite deinit_store. by eexists.
    + unfold init_soft. case_bool_decide; [destruct v; try done; by eexists|]. rewrite deinit_store. by eexists.
    + assert (Hv : value_of (mk (TFn n) (SFn n f)) = Some (VFn n f)) by apply (value_of_store (VFn n f)).
      unfold init_fn. case_bool_decide as Ht; [|rewrite deinit_store; by eexists].
      destruct v; try done. cbn in *. simplify_eq. rewrite bool_decide_eq_true_2 by done. by eexists.
    + destruct Ho as [u Hu]. rewrite Hu. apply value_of_inv in Hu as ->. rewrite init_copy_store. eexists. split; [done|].
      apply value_of_store.
  - unfold move_assign. rewrite init_copy_store. cbn [mbind res_bind]. rewrite deinit_store. eexists _, _. split; [done|].
    split; [apply value_of_store|done].
  - unfold self_move_assign. rewrite init_copy_store. cbn [mbind res_bind]. rewrite deinit_store. by eexists.
Qed.
End storage.

(** ** Comparisons and assignment operators *)
Section operators.
Context {F : Type}.
Context (fmt_double : f64 → list u8) (strtod : list u8 → f64 * nat).
Context (soft_null : option addr → res bool) (soft_str : option addr → res (list u8)).
Implicit Types (v w : value F).
Abbreviation op_eq := (op_eq (F := F) strtod soft_null soft_str).
Abbreviation str_num := (str_num strtod).

Lemma eqb_sym x y : F64.eqb x y = F64.eqb y x.
Proof.
  unfold F64.eqb, SFeqb, SFcompare. destruct x as [[]|[]| |[] m e], y as [[]|[]| |[] m' e']; try done.
  all: rewrite (Z.compare_antisym e e'); destruct (Z.compare e e') eqn:He; cbn; try done.
  all: change (Pos.compare_cont Eq m' m) with (Pos.compare m' m); change (Pos.compare_cont Eq m m') with (Pos.compare m m').
  all: rewrite (Pos.compare_antisym m m'); by destruct (Pos.compare m m').
Qed.

(** the pairs of types whose comparison depends on the order *)
Definition ordered_pair (a b : tag) : bool :=
  match a, b with
  | TBool, TStr | TStr, TBool | TUndef, TBool | TBool, TUndef | TStr, TSoft | TSoft, TStr => true
  | _, _ => false
  end.

(** [==] does not depend on the order of its operands, except between a
    boolean and a string, undefined and a boolean, a string and an object: [false]
    equals no string that reads as 0 although such a string equals [false], and
    every boolean equals the strings that read as 1; [false == undefined] but not
    the other way round; and a string may equal an object that never equals it. *)
Theorem equality_symmetric v w :
  (ordered_pair (type_of v) (type_of w) = false → op_eq v w = op_eq w v) ∧
  (∀ s b, F64.eqb (str_num s) (F64.of_Z 0) = true → F64.eqb (str_num s) (F64.of_Z 1) = false →
     op_eq (VBool b) (VStr s) = Ok false ∧ op_eq (VStr s) (VBool b) = Ok (negb b)) ∧
  op_eq (VBool false) VUndef = Ok true ∧ op_eq VUndef (VBool false) = Ok false ∧
  (∀ s p, soft_null p = Ok false → soft_str p = Ok s →
     op_eq (VStr s) (VSoft p) = Ok true ∧ op_eq (VSoft p) (VStr s) = Ok false).
Proof.
  split_and!; try done.
  - destruct v, w; cbn; intros Hp; try done; rewrite 1?eqb_sym; try done.
    + f_equal. apply bool_decide_ext. naive_solver.
    + f_equal. apply bool_decide_ext. naive_solver.
    + f_equal. apply bool_decide_ext. naive_solver.
  - intros s b H0 H1. split; [change (Ok (F64.eqb (str_num s) (F64.of_Z 1)) = Ok false); by rewrite H1|].
    change (Ok (F64.eqb (str_num s) (b2d b)) = Ok (negb b)). destruct b; unfold b2d; [by rewrite H1|by rewrite H0].
  - intros s p Hn Hs. cbn. rewrite Hn. cbn. rewrite Hs. cbn. by rewrite bool_decide_eq_true_2.
Qed.

(** [v += w] leaves in [v], and returns, what [v + w] is; [v *= w] does the
    same for [v * w], except that a string keeps its value and only the result is
    not a number. *)
Theorem assignment_operators v w :
  op_add_assign fmt_double soft_str v w = (r ← op_add fmt_double soft_str v w; Ok (r, r)) ∧
  op_mul_assign v w = (r ← op_mul v w; Ok (match v with VStr _ => v | _ => r end, r)).
Proof.
  split; destruct v, w; try done; cbn.
  all: try (match goal with |- (?x ≫= _) = _ => by destruct x end).
Qed.
End operators.

(** ** Characters *)
Section characters.
Import JsString.
Implicit Types (s : list u8).

Definition ascii (c : u8) : Prop := (0 < Z_of_u8 c < 128)%Z.

Lemma land_high z : (0 ≤ z < 128)%Z → Z.land z 128 = 0%Z.
Proof.
  intros Hz. apply Z.bits_inj'. intros n Hn. rewrite Z.land_spec, Z.bits_0. change 128%Z with (2 ^ 7)%Z.
  rewrite Z.pow2_bits_eqb by lia. destruct (Z.eqb_spec 7 n) as [<-|]; [|by rewrite andb_false_r].
  rewrite (Z.bits_above_log2 z 7); [done|lia|]. destruct (Z.eq_dec z 0%Z) as [->|]; [done|]. apply Z.log2_lt_pow2; lia.
Qed.

Lemma ascii_not_end c : ascii c → c ≠ x00.
Proof. intros Hc ->. unfold ascii in Hc. change (Z_of_u8 x00) with 0%Z in Hc. lia. Qed.

Lemma c_str_ascii s t : Forall ascii s → c_str (s ++ t) = s ++ c_str t.
Proof.
  induction 1 as [|c s Hc _ IH]; [done|]. cbn. rewrite bool_decide_eq_false_2 by (by apply ascii_not_end). by rewrite IH.
Qed.

Lemma utf8ToJSChar_ascii c s : ascii c → Forall ascii s → utf8ToJSChar (c :: s) = (s, Z_of_u8 c).
Proof.
  intros Hc Hs. unfold utf8ToJSChar. rewrite <-(app_nil_r (c :: s)), c_str_ascii by (by constructor). cbn.
  unfold ascii in Hc. rewrite land_high by lia. rewrite bool_decide_eq_true_2 by done. by rewrite app_nil_r.
Qed.

Lemma char_loop_step n c s r : ascii c → Forall ascii s → char_loop (S n) (c :: s) r = char_loop n s (Z_of_u8 c).
Proof.
  intros Hc Hs. pose proof (utf8ToJSChar_ascii c s Hc Hs) as Hu.
  pose proof (c_str_ascii (c :: s) [] ltac:(by constructor)) as Hcs. rewrite !app_nil_r in Hcs.
  change (char_loop (S n) (c :: s) r) with
    (let '(rest, code) := utf8ToJSChar (c :: s) in char_loop n (drop (length (c_str (c :: s)) - length rest) (c :: s)) code).
  rewrite Hu, Hcs. by replace (length (c :: s) - length s) with 1 by (cbn; lia).
Qed.

Lemma char_loop_ascii n s r : Forall ascii s → n < length s →
  char_loop (S n) s r = match s !! n with Some c => Z_of_u8 c | None => r end.
Proof.
  revert s r. induction n as [|n IH]; intros s r Hs Hn; (destruct s as [|c s]; [cbn in Hn; lia|]);
    pose proof Hs as [Hc Hs']%Forall_cons; rewrite char_loop_step by done; [done|].
  cbn in Hn. rewrite IH by (done || lia). destruct (lookup_lt_is_Some_2 s n) as [x Hx]; [lia|]. change ((c :: s) !! S n) with (s !! n). by rewrite Hx.
Qed.

Lemma u8_of_code c : ascii c → utf8FromJSChar (Z_of_u8 c) = Ok [c].
Proof.
  intros Hc. unfold ascii in Hc. unfold utf8FromJSChar. rewrite bool_decide_eq_true_2 by lia.
  rewrite bool_decide_eq_true_2 by lia. by rewrite u8_of_Z_of_u8.
Qed.

(** [charAt] is off by one: the character of a string at an index is the one
    before it, and the first one is empty. *)
Theorem character_before_index s i : Forall ascii s → i ≤ length s →
  char_at (F := nat) s i = Ok (VStr (match i with O => [] | S j => take 1 (drop j s) end)).
Proof.
  intros Hs Hi. unfold char_at, charAt. destruct i as [|j]; [done|].
  rewrite char_loop_ascii by (done || lia). destruct (lookup_lt_is_Some_2 s j) as [c Hc]; [lia|].
  rewrite Hc, u8_of_code by (eapply Forall_lookup_1; done). cbn [mbind res_bind]. by rewrite (drop_S _ _ _ Hc).
Qed.

(** A character of two bytes loses the second: its code is the same for all
    of them. *)
Theorem continuation_bytes_lost (a b : u8) s :
  Z.land (Z_of_u8 a) 224 = 192%Z → b ≠ x00 →
  utf8ToJSChar (a :: b :: s) = (c_str s, Z.shiftl (Z.land (Z_of_u8 a) 31) 6).
Proof.
  intros Ha Hb. assert (Ha0 : a ≠ x00) by (intros ->; by vm_compute in Ha).
  assert (Hhigh : Z.land (Z_of_u8 a) 128 ≠ 0%Z).
  { intros Hz. apply (f_equal (λ z, Z.land z 128)) in Ha. rewrite <-Z.land_assoc in Ha. change (Z.land 224 128) with 128%Z in Ha.
    rewrite Hz in Ha. by vm_compute in Ha. }
  unfold utf8ToJSChar. cbn [c_str]. rewrite !bool_decide_eq_false_2 by done. cbn [utf8_loop].
  rewrite bool_decide_eq_false_2 by done. unfold lead. rewrite bool_decide_eq_true_2 by done. done.
Qed.
End characters.

(** ** [split] *)
Section split.
Context {F : Type}.
Context (fmt_double : f64 → list u8) (strtod : list u8 → f64 * nat) (soft_str : option addr → res (list u8)).
Implicit Types (s : list u8) (c : u8).

Fixpoint join (sep : list u8) (l : list (list u8)) : list u8 :=
  match l with
  | [] => []
  | [x] => x
  | x :: l => x ++ sep ++ join sep l
  end.
Lemma join_cons sep x l : l ≠ [] → join sep (x :: l) = x ++ sep ++ join sep l.
Proof. by destruct l. Qed.

Lemma split_loop_spec fuel cnt mcnt c s start :
  start ≤ length s → length s - start + 1 < fuel → (cnt + Z.of_nat (length s - start) + 1 ≤ mcnt)%Z →
  ∃ l, split_loop fuel cnt mcnt c s start = Ok l ∧ l ≠ [] ∧ join [c] l = drop start s ∧ Forall (λ x, c ∉ x) l.
Proof.
  revert cnt start. induction fuel as [|fuel IH]; intros cnt start Hst Hfuel Hm; [lia|].
  cbn [split_loop]. rewrite bool_decide_eq_true_2 by lia. unfold find_char, Str.find_from.
  destruct (list_find _ (drop start s)) as [[i x]|] eqn:Hf.
  - apply list_find_Some in Hf as (Hi & -> & Hbefore). rewrite lookup_drop in Hi.
    pose proof (lookup_lt_Some _ _ _ Hi) as Hlt.
    unfold Str.substr at 1. rewrite bool_decide_eq_true_2 by lia. cbn [mbind res_bind].
    replace (start + i - start) with i by lia.
    destruct (IH (cnt + 1)%Z (start + i + 1)) as (l & Hl & Hne & Hj & Hall); [lia..|]. rewrite Hl. cbn [mbind res_bind].
    eexists. split; [done|]. split; [done|]. split.
    + rewrite join_cons by done. rewrite Hj.
      rewrite <-(take_drop i (drop start s)) at 2. f_equal. rewrite drop_drop.
      rewrite (drop_S s c (start + i)) by done. cbn. do 2 f_equal. lia.
    + constructor; [|done]. intros Hin%list_elem_of_lookup. destruct Hin as [j Hj'].
      rewrite lookup_take_dec in Hj'. case_decide; [|done]. exact (Hbefore _ _ Hj' ltac:(lia) eq_refl).
  - apply list_find_None in Hf. unfold Str.substr. rewrite bool_decide_eq_true_2 by lia. cbn [mbind res_bind].
    eexists. split; [done|]. split; [done|]. split; [done|]. constructor; [|done]. intros Hin.
    rewrite Forall_forall in Hf. by apply (Hf _ Hin).
Qed.

(** Splitting a string at a character and joining the pieces with it gives
    the string back, and no piece contains the character, when the limit on the
    number of pieces is not reached. *)
Theorem split_join v s c (limit : value F) n :
  toString fmt_double soft_str v = Ok s → F64.to_u64 (toNumber strtod limit) = Ok n → (Z.of_nat (length s) < n)%Z →
  ∃ l, split fmt_double strtod soft_str v (VStr [c]) limit = Ok l ∧ join [c] l = s ∧ Forall (λ x, c ∉ x) l.
Proof.
  intros Hs Hn Hlt. destruct (split_loop_spec (length s + 2) 0 n c s 0) as (l & Hl & _ & Hj & Hall); [lia..|].
  exists l. unfold split. rewrite bool_decide_eq_true_2 by (cbn; lia). rewrite Hs. cbn [mbind res_bind]. rewrite Hn.
  cbn [mbind res_bind]. rewrite Hl. by split_and!.
Qed.
End split.
End JsValueSpec.

(** ** Runs *)
Module JsValueExample.
Import JsValue JsString JsValueSpec.

Lemma storage_implements_values_witness :
  let v : value nat := VStr (str "x") in let w : value nat := VFn 1 7 in
  (∃ b', exec (OpSoft (Some 3)) (VarStorage.store v) = Ok b' ∧ VarStorage.value_of b' = Some (VSoft (Some 3))) ∧
  (∃ b' other', VarStorage.move_assign (VarStorage.store v) (VarStorage.store w) = Ok (b', other') ∧
     VarStorage.value_of b' = Some w ∧ VarStorage.value_of other' = Some VUndef) ∧
  (∃ b', VarStorage.self_move_assign (VarStorage.store v) = Ok b' ∧ VarStorage.value_of b' = Some VUndef).
Proof.
  intros v w.
  apply (storage_implements_values (VarStorage.store v) (VarStorage.store w) v w (OpSoft (Some 3))); [done..|by eexists].
Defined.

(** ["0"] reads as 0 *)
Definition strtod0 (s : list u8) : f64 * nat := (F64.of_Z 0, 1).
Lemma equality_symmetric_witness :
  op_eq (F := nat) strtod0 (λ _, Ok false) (λ _, UB) (VBool false) (VStr (str "0")) = Ok false ∧
  op_eq (F := nat) strtod0 (λ _, Ok false) (λ _, UB) (VStr (str "0")) (VBool false) = Ok true.
Proof.
  apply (proj1 (proj2 (equality_symmetric (F := nat) strtod0 (λ _, Ok false) (λ _, UB) VUndef VUndef)) (str "0") false);
    by vm_compute.
Defined.

Lemma character_before_index_witness : char_at (F := nat) (str "abc") 2 = Ok (VStr (str "b")).
Proof. apply (character_before_index (str "abc") 2); [|cbn; lia]. repeat constructor. Defined.

(** the letter e with an acute accent, and one with a grave accent *)
Lemma continuation_bytes_lost_witness :
  utf8ToJSChar [xc3; xa9] = ([], 192%Z) ∧ utf8ToJSChar [xc3; xa8] = ([], 192%Z).
Proof. split; [apply (continuation_bytes_lost xc3 xa9 [])|apply (continuation_bytes_lost xc3 xa8 [])]; done. Defined.

Lemma split_join_witness :
  ∃ l, split (F := nat) (λ _, []) strtod0 (λ _, UB) (VStr (str "a,,b")) (VStr [x2c]) (VNum (F64.of_Z 9)) = Ok l ∧
    join [x2c] l = str "a,,b" ∧ Forall (λ x, x2c ∉ x) l.
Proof. apply (split_join _ _ _ _ (str "a,,b") x2c _ 9); [done|by vm_compute|cbn; lia]. Defined.
End JsValueExample.
