(* ===== verification/JsObject.v ===== *)
(** * Objects of the JavaScript layer (include/nodecpp/js_compat.h, src/js_compat/js_compat.cpp)

    The store of [JSObject]s and [JSArray]s. An object is owned by one
    [JSOwnObj], in a variable of the program or in a slot of another object
    ([JSVarOrOwn]), and ends with it; a [JSVar] only points to it. [JSRLValue] is
    what indexing gives: a reference to a slot, a value, or nothing. References to
    the elements of an array are positions in the storage of its [vector], and end
    when that storage is replaced: the field [gen] counts its replacements.

    A pointer to an object that is gone is never used: what the library of safe
    pointers makes of it is not modelled. Functions are called through [invoke];
    [resize] is the storage [vector::push_back] allocates when it is full. *)

From S2P Require Import Prelude HttpMessage JsValue.
From Stdlib Require Import Lia.
From Stdlib Require Import Floats.SpecFloat.

Module JsObject.
Import JsValue.

(** [JSVarOrOwn]; [JSInit] has the same alternatives *)
Inductive slot (F : Type) : Type := SlUndef | SlObj (p : option addr) | SlVar (v : value F).
Arguments SlUndef {F}.
Arguments SlObj {F}.
Arguments SlVar {F}.

(** a [JSVarOrOwn*]: a node of a map stays where it is, an element of a vector
    does not *)
Inductive ref : Type := RKey (a : addr) (k : list u8) | RIdx (a : addr) (gen i : nat).

Inductive rlvalue (F : Type) : Type := RUndef | RValue (r : ref) | RVar (v : value F).
Arguments RUndef {F}.
Arguments RValue {F}.
Arguments RVar {F}.

Section defs.
Context {F : Type}.
Context (fmt_double : f64 → list u8) (strtod : list u8 → f64 * nat).
Context (resize : nat → nat) (max_size : Z).

(** [keyValuePairs] in iteration order; [arrayValues], the elements its storage
    has room for *)
Record object : Type := mkObject {
  is_array : bool;
  keyValuePairs : list (list u8 * slot F);
  arrayValues : list (slot F);
  cap : nat;
  gen : nat;
}.
Record store : Type := mkStore {
  heap : gmap nat object;
  next : nat;                        (* addresses are not used twice *)
  currentArgs : option addr;
}.
Implicit Types (s : store) (v w : value F) (o : object) (a : addr).

Definition with_heap (h : gmap nat object) s : store := mkStore h (next s) (currentArgs s).
Definition with_args (p : option addr) s : store := mkStore (heap s) (next s) p.
Definition get a s : res object := match heap s !! a with Some o => Ok o | None => UB end.
Definition put a o s : store := with_heap (<[a := o]> (heap s)) s.

(** dereferencing a pointer; comparing it with [nullptr] *)
Definition deref (p : option addr) : res addr := match p with Some a => Ok a | None => UB end.
Definition soft_null s (p : option addr) : res bool :=
  match p with None => Ok true | Some a => _ ← get a s; Ok false end.

(** a new object, and [arrayValues.push_back] *)
Definition new_object o s : store * addr := (mkStore (<[next s := o]> (heap s)) (S (next s)) (currentArgs s), next s).
Definition push_back o (x : slot F) : object :=
  let n := length (arrayValues o) in
  let '(c, g) := if bool_decide (n < cap o) then (cap o, gen o) else (S n `max` resize (cap o), S (gen o)) in
  mkObject (is_array o) (keyValuePairs o) (arrayValues o ++ [x]) c g.

(** ** Maps of slots *)
Fixpoint kv_find (k : list u8) (m : list (list u8 * slot F)) : option (slot F) :=
  match m with
  | [] => None
  | (k', x) :: m => if bool_decide (k = k') then Some x else kv_find k m
  end.
Fixpoint kv_insert (k : list u8) (x : slot F) (m : list (list u8 * slot F)) : list (list u8 * slot F) :=
  match m with
  | [] => [(k, x)]
  | (k', y) :: m' =>
      if bool_decide (k = k') then m
      else if Str.bytes_ltb k k' then (k, x) :: m
      else (k', y) :: kv_insert k x m'
  end.
Fixpoint kv_set (k : list u8) (x : slot F) (m : list (list u8 * slot F)) : list (list u8 * slot F) :=
  match m with
  | [] => []
  | (k', y) :: m => if bool_decide (k = k') then (k', x) :: m else (k', y) :: kv_set k x m
  end.

(** moving out of a [JSVarOrOwn] takes the owner and copies a value; [JSInit] moves
    out of what is only copied as well: what is made, and the original afterwards *)
Definition move_slot (x : slot F) : slot F * slot F :=
  match x with SlObj p => (SlObj p, SlObj None) | _ => (x, x) end.
Definition init_copy_construct (other : slot F) : slot F * slot F := move_slot other.
Definition toValue (x : slot F) : slot F * slot F := move_slot x.

(** the reference itself: moving leaves the other one undefined *)
Definition rl_move (other : rlvalue F) : rlvalue F * rlvalue F := (other, RUndef).
Definition rl_from (v : value F) : rlvalue F := RVar v.

(** ** Slots *)
Definition get_slot (r : ref) s : res (slot F) :=
  match r with
  | RKey a k => o ← get a s; match kv_find k (keyValuePairs o) with Some x => Ok x | None => UB end
  | RIdx a g i =>
      o ← get a s;
      REQUIRE bool_decide (g = gen o) ;;
      match arrayValues o !! i with Some x => Ok x | None => UB end
  end.
Definition put_slot (r : ref) (x : slot F) s : res store :=
  _ ← get_slot r s;
  match r with
  | RKey a k => o ← get a s; Ok (put a (mkObject (is_array o) (kv_set k x (keyValuePairs o)) (arrayValues o) (cap o) (gen o)) s)
  | RIdx a _ i => o ← get a s; Ok (put a (mkObject (is_array o) (keyValuePairs o) (<[i := x]> (arrayValues o)) (cap o) (gen o)) s)
  end.

(** destroying what a slot owns: the objects below are destroyed with it *)
Definition slots_of o : list (slot F) := (keyValuePairs o).*2 ++ arrayValues o.
Fixpoint destroy (fuel : nat) (xs : list (slot F)) s : res store :=
  match xs with
  | [] => Ok s
  | x :: xs =>
      match fuel with
      | O => NoFuel
      | S fuel =>
          match x with
          | SlObj (Some a) =>
              o ← get a s;
              destroy fuel (slots_of o ++ xs) (with_heap (delete a (heap s)) s)
          | _ => destroy fuel xs s
          end
      end
  end.
(** enough for all slots of the store *)
Definition all_slots s : list (slot F) := concat (slots_of <$> (map_to_list (heap s)).*2).
Definition slot_count s : nat := length (all_slots s).
Definition destroy_slot (x : slot F) s : res store := destroy (S (slot_count s)) [x] s.

(** [JSObject( initializer_list )]: a key that comes twice keeps its first value,
    the other one ends with its temporary *)
Fixpoint insert_all (l m : list (list u8 * slot F)) : list (list u8 * slot F) * list (slot F) :=
  match l with
  | [] => (m, [])
  | (k, x) :: l =>
      match kv_find k m with
      | None => insert_all l (kv_insert k x m)
      | Some _ => let '(m, dropped) := insert_all l m in (m, x :: dropped)
      end
  end.
Definition makeJSObject (l : list (list u8 * slot F)) s : res (store * addr) :=
  let '(m, dropped) := insert_all l [] in
  s ← destroy (length dropped + slot_count s) dropped s;
  Ok (new_object (mkObject false m [] 0 0) s).
Definition makeJSArray (l : list (slot F)) s : store * addr :=
  new_object (foldl push_back (mkObject true [] [] 0 0) l) s.

(** [JSVarOrOwn::operator = ( JSVarOrOwn&& )] on the slot [r] *)
Definition assign_slot (r : ref) (x : slot F) s : res store :=
  old ← get_slot r s;
  s ← destroy_slot old s;
  put_slot r x s.

(** both assignments of [JSInit]: what is assigned, and the other one afterwards *)
Definition init_assign (me other : slot F) s : res (slot F * slot F * store) :=
  s ← destroy_slot me s; let '(x, other) := move_slot other in Ok (x, other, s).

(** [JSRLValue::operator JSVar] *)
Definition slot_var (x : slot F) : value F :=
  match x with SlUndef => VUndef | SlObj p => VSoft p | SlVar v => v end.
Definition to_var (l : rlvalue F) s : res (value F) :=
  match l with
  | RUndef => Ok VUndef
  | RVar v => Ok v
  | RValue r => x ← get_slot r s; Ok (slot_var x)
  end.

(** [JSRLValue::operator = ( const JSVar& )], [( JSOwnObj&& )] and
    [( const JSRLValue& )]: the reference and the store afterwards *)
Definition assign_var (l : rlvalue F) v s : res (rlvalue F * store) :=
  match l with
  | RUndef => AssertFail
  | RVar _ => Ok (RVar v, s)
  | RValue r => s ← assign_slot r (SlVar v) s; Ok (RValue r, s)
  end.
Definition assign_own (l : rlvalue F) (p : option addr) s : res (rlvalue F * store) :=
  match l with
  | RUndef | RVar _ => AssertFail
  | RValue r => s ← assign_slot r (SlObj p) s; Ok (RValue r, s)
  end.
Definition assign_rl (l l' : rlvalue F) s : res (rlvalue F * store) := Ok (l', s).

(** ** Strings of objects

    [JSVar::toString] calls [JSObject::toString] and that the [toString] of its
    slots: the fuel is the depth of the calls. *)
Definition slot_str (soft_str : option addr → res (list u8)) (x : slot F) : res (list u8) :=
  match x with
  | SlUndef => Ok (str "undefined")
  | SlVar v => toString fmt_double soft_str v
  | SlObj (Some a) => soft_str (Some a)
  | SlObj None => Ok (str "undefined")
  end.
Fixpoint entry_strs (soft_str : option addr → res (list u8)) (offset separator : list u8) (kv : list (list u8 * slot F))
  : res (list u8) :=
  match kv with
  | [] => Ok []
  | (k, x) :: kv =>
      e ← slot_str soft_str x;
      rest ← entry_strs soft_str offset separator kv;
      Ok (offset ++ k ++ str ": " ++ e ++ separator ++ rest)
  end.
(** [toString_]: what it adds to [ret] *)
Definition toString_ (soft_str : option addr → res (list u8)) (offset separator : list u8) (kv : list (list u8 * slot F))
  : res (list u8) :=
  match kv with
  | [] => Ok []
  | _ => es ← entry_strs soft_str offset separator kv; Ok (take (length es - length separator) es)
  end.
Fixpoint value_strs (soft_str : option addr → res (list u8)) (before after : list u8) (xs : list (slot F)) : res (list u8) :=
  match xs with
  | [] => Ok []
  | x :: xs => e ← slot_str soft_str x; rest ← value_strs soft_str before after xs; Ok (before ++ e ++ after ++ rest)
  end.
Fixpoint obj_str (fuel : nat) s (p : option addr) : res (list u8) :=
  match fuel with
  | O => NoFuel
  | S fuel =>
      a ← deref p;
      o ← get a s;
      if is_array o then
        match keyValuePairs o, arrayValues o with
        | _ :: _, xs =>
            es ← toString_ (obj_str fuel s) [] (str ", ") (keyValuePairs o);
            vs ← value_strs (obj_str fuel s) (str ", ") [] xs;
            Ok (str "[ " ++ es ++ vs ++ str " ]")
        | [], [] => Ok (str "[ " ++ str " ]")
        | [], xs =>
            vs ← value_strs (obj_str fuel s) [] (str ", ") xs;
            let ret := str "[ " ++ vs in
            (* [ret.erase( ret.end() - 2 )]: one character *)
            Ok (take (length ret - 2) ret ++ drop (length ret - 1) ret ++ str " ]")
        end
      else
        es ← toString_ (obj_str fuel s) (str "  ") ([x2c; x0a]) (keyValuePairs o);
        Ok (str "{ " ++ [x0a] ++ es ++ str " }")
  end.
Definition var_str (fuel : nat) s v : res (list u8) := toString fmt_double (obj_str fuel s) v.

(** [JSRLValue::toString] *)
Definition rl_str (fuel : nat) (l : rlvalue F) s : res (list u8) :=
  match l with
  | RUndef => Ok (str "undefined")
  | RVar v => var_str fuel s v
  | RValue r => x ← get_slot r s; slot_str (obj_str fuel s) x
  end.

(** [toNumber], [typeOf] and [!] on what is in a slot and on what indexing gives *)
Definition slot_num (x : slot F) : f64 :=
  match x with SlVar v => toNumber strtod v | SlUndef | SlObj _ => F64.nan end.
Definition rl_num (l : rlvalue F) s : res f64 :=
  match l with
  | RUndef => Ok F64.nan
  | RVar v => Ok (toNumber strtod v)
  | RValue r => x ← get_slot r s; Ok (slot_num x)
  end.
Definition slot_typeOf (x : slot F) : list u8 :=
  match x with SlUndef => str "undefined" | SlObj _ => str "object" | SlVar v => typeOf v end.
Definition rl_typeOf (l : rlvalue F) s : res (list u8) :=
  match l with
  | RUndef => Ok (str "undefined")
  | RVar v => Ok (typeOf v)
  | RValue r => x ← get_slot r s; Ok (slot_typeOf x)
  end.
Definition own_not (p : option addr) : bool := match p with None => true | Some _ => false end.
Definition slot_not (x : slot F) s : res bool :=
  match x with
  | SlUndef => AssertFail
  | SlVar v => op_not (soft_null s) v
  | SlObj p => Ok (own_not p)
  end.
(** [!], [%], [||] and [&&] of a [JSRLValue] are those of its value *)
Definition rl_not (l : rlvalue F) s : res bool := v ← to_var l s; op_not (soft_null s) v.
Definition rl_mod (l : rlvalue F) (w : value F) s : res (value F) := v ← to_var l s; op_mod strtod v w.
Definition rl_or (l : rlvalue F) (w : value F) s : res (value F) := v ← to_var l s; op_or (soft_null s) v w.
Definition rl_and (l : rlvalue F) (w : value F) s : res (value F) := v ← to_var l s; op_and (soft_null s) v w.

(** ** Indexing *)
Definition findOrAdd a (k : list u8) s : res (rlvalue F * store) :=
  o ← get a s;
  match kv_find k (keyValuePairs o) with
  | Some _ => Ok (RValue (RKey a k), s)
  | None =>
      Ok (RValue (RKey a k),
          put a (mkObject (is_array o) (kv_insert k SlUndef (keyValuePairs o)) (arrayValues o) (cap o) (gen o)) s)
  end.

(** the elements from [size] to [capacity] *)
Definition fill (xs : list (slot F)) (n : nat) : list (slot F) := xs ++ replicate (n - length xs) SlUndef.
(** [JSArray::operator [] ( size_t )]; [idx + 1] is computed in [size_t];
    [reserve] allocates exactly what it is asked for, up to [max_size] *)
Definition arr_index a (idx : Z) s : res (rlvalue F * store) :=
  o ← get a s;
  if bool_decide (idx < Z.of_nat (length (arrayValues o)))%Z then Ok (RValue (RIdx a (gen o) (Z.to_nat idx)), s)
  else
    let n := u64 (idx + 1) in
    if bool_decide (max_size < n)%Z then Thrown
    else
      let n := Z.to_nat n in
      let '(c, g) := if bool_decide (cap o < n) then (n, S (gen o)) else (cap o, gen o) in
      let xs := fill (arrayValues o) c in
      REQUIRE bool_decide (idx < Z.of_nat (length xs))%Z ;;
      Ok (RValue (RIdx a g (Z.to_nat idx)), put a (mkObject (is_array o) (keyValuePairs o) xs c g) s).

(** [operator [] ( size_t )], virtual *)
Definition index_size a (idx : Z) s : res (rlvalue F * store) :=
  o ← get a s;
  if is_array o then arr_index a idx s else findOrAdd a (format_int idx) s.

(** a string of digits: [strtol] reads it all *)
Definition digits (k : list u8) : option Z :=
  match k with
  | c :: _ => if Str.is_digit c && forallb Str.is_digit k then Some (Z.min (Str.atol_digits k 0) (2 ^ 63 - 1))%Z else None
  | [] => None
  end.
Definition index_str a (k : list u8) s : res (rlvalue F * store) :=
  o ← get a s;
  if is_array o then match digits k with Some i => arr_index a i s | None => findOrAdd a k s end
  else findOrAdd a k s.

(** [operator [] ( const JSVar& )]: on an array a number goes to the overload for
    [size_t], on an object it is printed *)
Definition index_var (fuel : nat) a v s : res (rlvalue F * store) :=
  o ← get a s;
  match is_array o, v with
  | true, VNum d => i ← F64.to_u64 d; arr_index a i s
  | _, _ => k ← var_str fuel s v; findOrAdd a k s
  end.
(** [operator [] ( const JSRLValue& )]: only a value that is not an element is
    looked up *)
Definition index_rl (fuel : nat) a (l : rlvalue F) s : res (rlvalue F * store) :=
  match l with RVar v => index_var fuel a v s | _ => Ok (RUndef, s) end.

(** what a program indexes with *)
Inductive key : Type := KVar (v : value F) | KRl (l : rlvalue F) | KDouble (d : f64) | KInt (n : Z) | KStr (k : list u8).

(** [JSOwnObj::operator []] on the object [a] *)
Definition index_obj (fuel : nat) a (k : key) s : res (rlvalue F * store) :=
  match k with
  | KVar v => index_var fuel a v s
  | KRl l => index_rl fuel a l s
  | KDouble d => i ← F64.to_u64 d; index_size a i s
  | KInt n => index_size a (u64 n) s
  | KStr k => index_str a k s
  end.

(** a character of a string by its index, in [JSVar::operator []] *)
Definition str_index (t : list u8) (k : list u8) : res (rlvalue F) :=
  match digits k with
  | Some i => c ← char_at t (Z.to_nat i); Ok (RVar c)
  | None => Ok RUndef
  end.
Definition str_index_num (t : list u8) (d : f64) : res (rlvalue F) :=
  i ← F64.to_u64 d;
  if bool_decide (i < Z.of_nat (length t))%Z then c ← char_at t (Z.to_nat i); Ok (RVar c) else Ok RUndef.
Definition string_at (t : list u8) (k : key) : res (rlvalue F) :=
  match k with
  | KVar (VNum d) | KRl (RVar (VNum d)) => str_index_num t d
  | KVar (VStr k) | KRl (RVar (VStr k)) => str_index t k
  | KVar _ | KRl _ => Ok RUndef
  | KDouble d =>
      if F64.ltb d (F64.of_Z (Z.of_nat (length t)))
      then i ← F64.to_u64 d; c ← char_at t (Z.to_nat i); Ok (RVar c) else Ok RUndef
  | KInt n =>
      if bool_decide (u64 n < Z.of_nat (length t))%Z then c ← char_at t (Z.to_nat n); Ok (RVar c) else Ok RUndef
  | KStr k => str_index t k
  end.

Definition var_index (fuel : nat) v (k : key) s : res (rlvalue F * store) :=
  match k with
  | KRl RUndef | KRl (RValue _) => Ok (RUndef, s)
  | _ =>
      match v with
      | VUndef => AssertFail
      | VBool _ | VNum _ => Ok (RUndef, s)
      | VStr t => l ← string_at t k; Ok (l, s)
      | VSoft p =>
          a ← deref p;
          index_obj fuel a (match k with KRl (RVar w) => KVar w | _ => k end) s
      | VFn _ _ => AssertFail
      end
  end.

Definition rl_index (fuel : nat) (l : rlvalue F) (k : key) s : res (rlvalue F * store) :=
  match k with
  | KRl RUndef | KRl (RValue _) => Ok (RUndef, s)
  | _ =>
      let k := match k with KRl (RVar w) => KVar w | _ => k end in
      match l with
      | RUndef => Ok (RUndef, s)
      | RVar v => var_index fuel v k s
      | RValue r =>
          x ← get_slot r s;
          match x with
          | SlUndef => Ok (RUndef, s)
          | SlVar v => var_index fuel v k s
          | SlObj p => a ← deref p; index_obj fuel a k s
          end
      end
  end.

(** ** Functions

    [operator ()] with up to ten arguments: they are in an array that
    [arguments()] finds during the call, and each function gets as many as it
    takes. *)
Context (invoke : F → list (value F) → store → res (store * value F)).

Definition pad (n : nat) (args : list (value F)) : list (value F) := take n args ++ replicate (n - length args) VUndef.
Definition call v (args : list (value F)) s : res (store * value F) :=
  let '(s, a) := makeJSArray (SlVar <$> args) s in
  let saved := currentArgs s in                      (* [JSStackMan] *)
  let s := with_args (Some a) s in
  match v with
  | VFn n f =>
      '(s, ret) ← invoke f (pad n args) s;
      s ← destroy_slot (SlObj (Some a)) (with_args saved s);
      Ok (s, ret)
  | _ => AssertFail
  end.
Definition rl_call (l : rlvalue F) (args : list (value F)) s : res (store * value F) :=
  match l with
  | RVar v => call v args s
  | RValue r => x ← get_slot r s; match x with SlVar v => call v args s | _ => AssertFail end
  | RUndef => AssertFail
  end.
Definition arguments s : value F := match currentArgs s with Some a => VSoft (Some a) | None => VUndef end.

(** ** Collections *)
Definition kv_has (k : list u8) o : bool := match kv_find k (keyValuePairs o) with Some _ => true | None => false end.

(** [has] with a value, an index, a number or a string: on arrays and on other
    objects it looks for a key *)
Definition obj_has (fuel : nat) a (k : key) s : res bool :=
  o ← get a s;
  match k with
  | KVar v => t ← var_str fuel s v; Ok (kv_has t o)
  | KInt n => Ok (kv_has (format_int (u64 n)) o)
  | KDouble d => Ok (kv_has (fmt_double d) o)
  | KStr t => Ok (kv_has t o)
  | KRl _ => UB                                       (* no such overload *)
  end.
Definition var_has (fuel : nat) v (k : key) s : res bool :=
  match v with VSoft p => a ← deref p; obj_has fuel a k s | _ => Ok false end.

Definition slot_is (v : value F) (x : slot F) : bool :=
  match x with
  | SlVar w => isStrictlyTheSame v w
  | SlObj p => isStrictlyTheSame v (VSoft p)
  | SlUndef => match v with VUndef => true | _ => false end
  end.
Fixpoint indexof_loop v (xs : list (slot F)) (i : Z) : Z :=
  match xs with
  | [] => -1
  | x :: xs => if slot_is v x then i else indexof_loop v xs (i + 1)
  end.
(** [idx < arrayValues.size()] compares as [size_t] *)
Definition indexof_impl o v (idx : Z) : Z :=
  if bool_decide (0 ≤ idx)%Z then indexof_loop v (drop (Z.to_nat idx) (arrayValues o)) idx else -1.
Definition obj_indexOf a v (idx : option Z) s : res Z :=
  o ← get a s;
  if is_array o then
    match idx with
    | None => Ok (indexof_impl o v 0)
    | Some i => Ok (indexof_impl o v (if bool_decide (i < 0)%Z then i + Z.of_nat (length (arrayValues o)) else i)%Z)
    end
  else Thrown.
Definition var_indexOf v w (idx : option Z) s : res Z :=
  match v with VSoft p => a ← deref p; obj_indexOf a w idx s | _ => Ok (-1)%Z end.

Definition obj_keys a s : res (store * addr) :=
  o ← get a s; Ok (makeJSArray ((λ p, SlVar (VStr p.1)) <$> keyValuePairs o) s).
Definition var_keys v s : res (store * addr) :=
  match v with VSoft p => a ← deref p; obj_keys a s | _ => AssertFail end.

Definition obj_length a s : res f64 :=
  o ← get a s; if is_array o then Ok (F64.of_Z (Z.of_nat (length (arrayValues o)))) else AssertFail.
Definition UINT32_MAX : Z := 2 ^ 32 - 1.
Fixpoint push_all o (xs : list (slot F)) : object := match xs with [] => o | x :: xs => push_all (push_back o x) xs end.
(** [erase] keeps the storage; what follows the erased elements moves *)
Definition obj_setLength a (ln : f64) s : res store :=
  o ← get a s;
  if is_array o then
    if F64.leb (F64.of_Z 0) ln && F64.leb ln (F64.of_Z UINT32_MAX) then
      iln ← F64.to_u64 ln;
      let iln := Z.to_nat iln in
      if F64.ltb ln (F64.of_Z (Z.of_nat (length (arrayValues o)))) then
        s ← destroy (S (slot_count s)) (drop iln (arrayValues o))
              (put a (mkObject true (keyValuePairs o) (take iln (arrayValues o)) (cap o) (gen o)) s);
        Ok s
      else Ok (put a (push_all o (replicate (iln - length (arrayValues o)) (SlVar VUndef))) s)
    else AssertFail
  else AssertFail.

(** [length] and [setLength] of a variable, of a slot and of what indexing gives:
    a slot that points to an object has none, and a value that is not an element
    has none *)
Definition var_length v s : res f64 := match v with VSoft p => a ← deref p; obj_length a s | _ => AssertFail end.
Definition var_setLength v (ln : f64) s : res store := match v with VSoft p => a ← deref p; obj_setLength a ln s | _ => AssertFail end.
Definition slot_length (x : slot F) s : res f64 := match x with SlObj p => a ← deref p; obj_length a s | _ => AssertFail end.
Definition slot_setLength (x : slot F) (ln : f64) s : res store :=
  match x with SlObj p => a ← deref p; obj_setLength a ln s | _ => AssertFail end.
Definition rl_length (l : rlvalue F) s : res f64 := match l with RValue r => x ← get_slot r s; slot_length x s | _ => AssertFail end.
Definition rl_setLength (l : rlvalue F) (ln : f64) s : res store :=
  match l with RValue r => x ← get_slot r s; slot_setLength x ln s | _ => AssertFail end.

(** [push]: a value, an owner moved in, or an owner that stays where it is *)
Inductive item : Type := IVar (v : value F) | IOwn (p : option addr) | IRef (p : option addr).
Definition item_slot (x : item) : slot F := match x with IVar v => SlVar v | IOwn p => SlObj p | IRef p => SlVar (VSoft p) end.
Fixpoint obj_push a (xs : list item) s : res store :=
  match xs with
  | [] => Ok s
  | x :: xs =>
      o ← get a s;
      if is_array o then obj_push a xs (put a (push_back o (item_slot x)) s) else Thrown
  end.

(** [concat]: the receiver, then each argument; an array gives its elements, and
    an element that was never set is not accepted *)
Fixpoint elements_vars (xs : list (slot F)) : res (list (slot F)) :=
  match xs with
  | [] => Ok []
  | SlUndef :: _ => AssertFail
  | x :: xs => r ← elements_vars xs; Ok (SlVar (slot_var x) :: r)
  end.
Definition concat_impl_add_me a s : res (list (slot F)) :=
  o ← get a s; if is_array o then elements_vars (arrayValues o) else Ok [SlVar (VSoft (Some a))].
Definition concat_impl_1 (arr : value F) s : res (list (slot F)) :=
  match arr with VSoft p => a ← deref p; concat_impl_add_me a s | _ => Ok [SlVar arr] end.
Fixpoint concat_impl (args : list (value F)) s : res (list (slot F)) :=
  match args with [] => Ok [] | x :: args => l ← concat_impl_1 x s; r ← concat_impl args s; Ok (l ++ r) end.
Definition obj_concat a (args : list (value F)) s : res (store * addr) :=
  l ← concat_impl_add_me a s; r ← concat_impl args s; Ok (makeJSArray (l ++ r) s).

(** [concat] and [push] on a variable, and [concat] through a [JSRLValue]; the
    [push] of a [JSRLValue] and of a [JSVarOrOwn] do not compile where they are
    used *)
Definition var_concat v (args : list (value F)) s : res (store * addr) :=
  match v with VSoft p => a ← deref p; obj_concat a args s | _ => AssertFail end.
Definition var_push v (xs : list item) s : res store := match v with VSoft p => a ← deref p; obj_push a xs s | _ => AssertFail end.
Definition slot_concat (x : slot F) (args : list (value F)) s : res (store * addr) :=
  match x with SlVar v => var_concat v args s | SlObj p => a ← deref p; obj_concat a args s | SlUndef => AssertFail end.
Definition rl_concat (l : rlvalue F) (args : list (value F)) s : res (store * addr) :=
  match l with RVar v => var_concat v args s | RValue r => x ← get_slot r s; slot_concat x args s | RUndef => AssertFail end.

(** [forEach] on an array: [cb] is called with each element that was set, its
    index and the array; it may change the array, whose size is read each time *)
Fixpoint forEach_loop (fuel : nat) (cb : rlvalue F → nat → addr → store → res store) a (idx : nat) s : res store :=
  match fuel with
  | O => NoFuel
  | S fuel =>
      o ← get a s;
      match arrayValues o !! idx with
      | None => Ok s
      | Some SlUndef => forEach_loop fuel cb a (S idx) s
      | Some _ => s ← cb (RValue (RIdx a (gen o) idx)) idx a s; forEach_loop fuel cb a (S idx) s
      end
  end.
Definition obj_forEach (fuel : nat) cb a s : res store :=
  o ← get a s; if is_array o then forEach_loop fuel cb a 0 s else Ok s.

Definition var_forEach (fuel : nat) cb v s : res store := match v with VSoft p => a ← deref p; obj_forEach fuel cb a s | _ => Ok s end.

(** ** [JSMath] *)
Definition js_floor v s : res (value F) :=
  let num := toNumber strtod v in
  if F64.isnan num then
    match v with
    | VSoft p => null ← soft_null s p; Ok (VNum (if (null : bool) then F64.of_Z 0 else num))
    | _ => Ok (VNum num)
    end
  else Ok (VNum (F64.floor num)).
End defs.
End JsObject.
