(* ===== verification/JsObjectSpec.v ===== *)
(** * Theorems about the objects of the JavaScript layer

    [Module JsObjectSpec]: every object has exactly one owner and ends with it,
    what is below an object ends with it and nothing else does, what indexing reads
    after an assignment, which objects can be printed. *)

From S2P Require Import Prelude HttpMessage JsValue JsObject.
From stdpp Require Import relations.
From Stdlib Require Import Lia.
From Stdlib Require Import Floats.SpecFloat.

Module JsObjectSpec.
Import JsValue JsObject.

(** ** Owners *)
Section owners.
Context {F : Type}.
Implicit Types (s : store (F := F)) (o : object (F := F)) (x : slot F) (a b : nat) (roots : list nat).

Definition owned x : option nat := match x with SlObj p => p | _ => None end.
Definition owned_in (xs : list (slot F)) : list nat := omap owned xs.
Definition owns s : list nat := owned_in (all_slots s).

(** [roots] are the objects owned by variables of the program: each object is
    owned once, by one of them or by a slot *)
Record exact roots s : Prop := mkExact {
  exact_owners : roots ++ owns s ≡ₚ (map_to_list (heap s)).*1;
  exact_next : ∀ a, is_Some (heap s !! a) → a < next s;
}.

Lemma owned_in_app xs ys : owned_in (xs ++ ys) = owned_in xs ++ owned_in ys.
Proof. apply omap_app. Qed.
Lemma owned_in_perm xs ys : xs ≡ₚ ys → owned_in xs ≡ₚ owned_in ys.
Proof. intros H. unfold owned_in. by rewrite H. Qed.

#[export] Instance owned_in_proper : Proper ((≡ₚ) ==> (≡ₚ)) owned_in.
Proof. intros xs ys. apply owned_in_perm. Qed.

#[local] Abbreviation keys s := ((map_to_list (heap s)).*1).

Lemma keys_elem s a : a ∈ keys s ↔ is_Some (heap s !! a).
Proof.
  rewrite list_elem_of_fmap. split.
  - intros ([b o] & -> & Ho%elem_of_map_to_list). by eexists.
  - intros [o Ho]. exists (a, o). split; [done|]. by apply elem_of_map_to_list.
Qed.
Lemma keys_NoDup s : NoDup (keys s).
Proof. apply NoDup_fst_map_to_list. Qed.

Definition all_of (h : gmap nat object) : list (slot F) := concat (slots_of <$> (map_to_list h).*2).
Lemma all_slots_split (h : gmap nat object) a o : h !! a = Some o →
  all_of h ≡ₚ slots_of o ++ all_of (delete a h) ∧ (map_to_list h).*1 ≡ₚ a :: (map_to_list (delete a h)).*1.
Proof.
  intros Ho. unfold all_of. pose proof (map_to_list_delete h a o Ho) as Hp. split; rewrite <-Hp; done.
Qed.
Lemma all_slots_insert (h : gmap nat object) a o : h !! a = None →
  all_of (<[a := o]> h) ≡ₚ slots_of o ++ all_of h ∧ (map_to_list (<[a := o]> h)).*1 ≡ₚ a :: (map_to_list h).*1.
Proof. intros Ho. unfold all_of. pose proof (map_to_list_insert h a o Ho) as Hp. split; rewrite Hp; done. Qed.
Lemma all_slots_put (h : gmap nat object) a o o' : h !! a = Some o →
  all_of (<[a := o']> h) ≡ₚ slots_of o' ++ all_of (delete a h) ∧ (map_to_list (<[a := o']> h)).*1 ≡ₚ a :: (map_to_list (delete a h)).*1.
Proof.
  intros Ho. rewrite <-insert_delete_eq. apply all_slots_insert. apply lookup_delete_eq.
Qed.

(** changing the slots of one object *)
Lemma exact_put roots roots' s a o o' : exact roots s → heap s !! a = Some o →
  roots' ++ owned_in (slots_of o') ≡ₚ roots ++ owned_in (slots_of o) → exact roots' (put a o' s).
Proof.
  intros [He Hn] Ho Hp. destruct (all_slots_split _ _ _ Ho) as [Hs Hk]. destruct (all_slots_put _ _ _ o' Ho) as [Hs' Hk'].
  split.
  - unfold put, with_heap, owns, all_slots in *. cbn. fold (all_of (<[a := o']> (heap s))). fold (all_of (heap s)) in He.
    rewrite Hk', <-Hk, <-He. rewrite (owned_in_perm _ _ Hs'), (owned_in_perm _ _ Hs), !owned_in_app, !app_assoc. by rewrite Hp.
  - cbn. intros b Hb. apply Hn. destruct (decide (a = b)) as [->|]; [by eexists|]. by rewrite lookup_insert_ne in Hb.
Qed.

(** a new object takes what it is made of *)
Lemma exact_new roots s o : exact (roots ++ owned_in (slots_of o)) s →
  exact (next s :: roots) (new_object o s).1.
Proof.
  intros [He Hn]. assert (Hfresh : heap s !! next s = None).
  { apply eq_None_not_Some. intros Hs%Hn. lia. }
  destruct (all_slots_insert _ _ o Hfresh) as [Hs Hk]. split.
  - unfold new_object, owns, all_slots in *. cbn. fold (all_of (<[next s := o]> (heap s))). fold (all_of (heap s)) in He.
    rewrite Hk, <-He. rewrite (owned_in_perm _ _ Hs), owned_in_app. by rewrite app_assoc.
  - cbn. intros b Hb. destruct (decide (next s = b)) as [->|]; [lia|]. rewrite lookup_insert_ne in Hb by done.
    specialize (Hn _ Hb). lia.
Qed.
Lemma exact_perm roots roots' s : roots ≡ₚ roots' → exact roots s → exact roots' s.
Proof. intros Hp [He Hn]. split; [by rewrite <-Hp|done]. Qed.

(** ** What ends with an object *)
Definition owns_rel s a b : Prop := ∃ o, heap s !! a = Some o ∧ b ∈ owned_in (slots_of o).
Definition below s (xs : list (slot F)) b : Prop := ∃ a, a ∈ owned_in xs ∧ rtc (owns_rel s) a b.

Lemma below_app s xs ys b : below s (xs ++ ys) b ↔ below s xs b ∨ below s ys b.
Proof.
  unfold below. rewrite owned_in_app. setoid_rewrite elem_of_app. naive_solver.
Qed.
Lemma below_nil s b : ¬ below s [] b.
Proof. intros (a & Ha & _). by apply elem_of_nil in Ha. Qed.
Lemma below_here s xs a : a ∈ owned_in xs → below s xs a.
Proof. intros Ha. exists a. split; [done|]. reflexivity. Qed.
Lemma below_step s xs a b : below s xs a → owns_rel s a b → below s xs b.
Proof. intros (r & Hr & Hab) Hb. exists r. split; [done|]. by eapply rtc_r. Qed.
Lemma below_ind' s xs (P : nat → Prop) : (∀ a, a ∈ owned_in xs → P a) →
  (∀ a b, below s xs a → P a → owns_rel s a b → P b) → ∀ b, below s xs b → P b.
Proof.
  intros Hbase Hstep b (r & Hr & Hrb). revert Hrb. apply (rtc_ind_r (λ b, P b)); [by apply Hbase|].
  intros y z Hry Hyz HPy. apply (Hstep y z); [by exists r|done|done].
Qed.

Definition without a s : store := with_heap (delete a (heap s)) s.

Lemma below_without s xs a o b : heap s !! a = Some o →
  below s (SlObj (Some a) :: xs) b ↔ b = a ∨ below (without a s) (slots_of o ++ xs) b.
Proof.
  intros Ho. split.
  - revert b. apply below_ind'.
    + intros b Hb. cbn in Hb. apply elem_of_cons in Hb as [->|Hb]; [by left|]. right. apply below_here.
      rewrite owned_in_app. apply elem_of_app. by right.
    + intros c b _ Hc (oc & Hoc & Hb). destruct (decide (c = a)) as [->|Hne].
      * right. simplify_eq. apply below_here. rewrite owned_in_app. apply elem_of_app. by left.
      * destruct Hc as [->|Hc]; [done|]. right. eapply below_step; [exact Hc|]. exists oc. split; [|done].
        cbn. by rewrite lookup_delete_ne.
  - assert (Hsub : ∀ c, below (without a s) (slots_of o ++ xs) c → below s (SlObj (Some a) :: xs) c).
    { apply below_ind'.
      - intros c. rewrite owned_in_app, elem_of_app. intros [Hc|Hc].
        + apply (below_step _ _ a); [|by exists o]. apply below_here. cbn. by left.
        + apply below_here. cbn. by right.
      - intros c d _ Hc (oc & Hoc & Hd). cbn in Hoc. apply lookup_delete_Some in Hoc as [Hne Hoc].
        eapply below_step; [exact Hc|]. by exists oc. }
    intros [->|Hb]; [|by apply Hsub]. apply below_here. cbn. by left.
Qed.

(** what ends with [xs] ends exactly once, and nothing else changes *)
Record ended roots (xs : list (slot F)) s s' : Prop := mkEnded {
  ended_exact : exact roots s';
  ended_below : ∀ b, below s xs b → heap s' !! b = None;
  ended_other : ∀ b, ¬ below s xs b → heap s' !! b = heap s !! b;
  ended_next : next s' = next s;
  ended_args : currentArgs s' = currentArgs s;
}.

Lemma ended_cons roots x xs s s' : owned x = None → ended roots xs s s' → ended roots (x :: xs) s s'.
Proof.
  intros Hx [He Hb Ho Hn Ha]. assert (Heq : ∀ b, below s (x :: xs) b ↔ below s xs b).
  { intros b. unfold below, owned_in. cbn. by rewrite Hx. }
  by split; try setoid_rewrite Heq.
Qed.

Lemma destroy_mono fuel xs s s' : destroy fuel xs s = Ok s' → heap s' ⊆ heap s.
Proof.
  revert xs s. induction fuel as [|fuel IH]; intros [|x xs] s Hd; cbn in Hd; simplify_eq; try done.
  destruct x as [|[c|]|v]; try (by eapply IH). unfold get in Hd. destruct (heap s !! c); [|done].
  apply IH in Hd. cbn in Hd. etrans; [exact Hd|]. apply delete_subseteq.
Qed.

Lemma destroy_spec fuel roots xs s : exact (roots ++ owned_in xs) s → length xs + slot_count s ≤ fuel →
  ∃ s', destroy fuel xs s = Ok s' ∧ ended roots xs s s'.
Proof.
  revert xs s. induction fuel as [|fuel IH]; intros [|x xs] s He Hf; cbn [length] in Hf; try lia.
  1,2: exists s; split; [done|]; split; try done; [by rewrite app_nil_r in He|by intros b ?%below_nil].
  destruct (owned x) as [a|] eqn:Hx.
  2:{ destruct (IH xs s) as (s' & Hd & Hend); [|lia|].
      { unfold owned_in in He. cbn in He. by rewrite Hx in He. }
      exists s'. split; [|by apply ended_cons]. destruct x as [|p|v]; cbn in Hx; simplify_eq; done. }
  destruct x as [|p|v]; cbn in Hx; simplify_eq.
  assert (Hin : is_Some (heap s !! a)).
  { apply keys_elem. destruct He as [He _]. rewrite <-He. rewrite !elem_of_app. left. right. cbn. by left. }
  destruct Hin as [o Ho]. destruct (all_slots_split _ _ _ Ho) as [Hs Hk].
  destruct (IH (slots_of o ++ xs) (without a s)) as (s' & Hd & [He' Hb' Ho' Hn' Ha']).
  - destruct He as [He Hn]. split.
    + unfold owns, all_slots in *. cbn. fold (all_of (delete a (heap s))). fold (all_of (heap s)) in He.
      rewrite Hk, (owned_in_perm _ _ Hs) in He. rewrite owned_in_app in He |- *. cbn in He. fold (owned_in xs) in He.
      apply (Permutation_cons_inv (a := a)). rewrite <-He. solve_Permutation.
    + cbn. intros b [ob Hob]. apply lookup_delete_Some in Hob as [_ Hob]. apply Hn. by eexists.
  - unfold slot_count, all_slots in *. cbn. fold (all_of (delete a (heap s))). fold (all_of (heap s)) in Hf.
    rewrite length_app. rewrite Hs, length_app in Hf. lia.
  - exists s'. split; [cbn; unfold get; rewrite Ho; exact Hd|]. split; try done.
    + intros b [->|Hb]%(below_without _ _ _ o); [|by apply Hb'|done].
      apply destroy_mono in Hd. apply eq_None_not_Some. intros [oa Hoa]. eapply lookup_weaken in Hoa; [|exact Hd].
      cbn in Hoa. by rewrite lookup_delete_eq in Hoa.
    + intros b Hb. rewrite (below_without _ _ _ o) in Hb by done. assert (b ≠ a) by naive_solver. rewrite Ho' by naive_solver.
      cbn. by rewrite lookup_delete_ne.
Qed.

Lemma destroy_frame fuel xs s s' a o : destroy fuel xs s = Ok s' → is_Some (heap s' !! a) →
  destroy fuel xs (put a o s) = Ok (put a o s').
Proof.
  revert xs s. induction fuel as [|fuel IH]; intros [|x xs] s Hd Ha; cbn in Hd |- *; try congruence.
  destruct x as [|[c|]|v]; try (by apply IH). unfold get in *. cbn in Hd |- *.
  destruct (heap s !! c) as [oc|] eqn:Hc; [|done].
  assert (Hne : a ≠ c).
  { intros ->. apply destroy_mono in Hd. destruct Ha as [oa Hoa]. eapply lookup_weaken in Hoa; [|exact Hd]. cbn in Hoa.
    by rewrite lookup_delete_eq in Hoa. }
  rewrite lookup_insert_ne, Hc by done. cbn.
  apply IH in Hd; [|done]. rewrite <-Hd. f_equal. unfold put, with_heap. cbn. f_equal. by rewrite delete_insert_ne.
Qed.

(** ** Slots *)
Definition ref_addr (r : ref) : nat := match r with RKey a _ => a | RIdx a _ _ => a end.
Definition slot_in o (r : ref) : option (slot F) :=
  match r with
  | RKey _ k => kv_find k (keyValuePairs o)
  | RIdx _ g i => if bool_decide (g = gen o) then arrayValues o !! i else None
  end.
Definition set_in o (r : ref) x : object :=
  match r with
  | RKey _ k => mkObject (is_array o) (kv_set k x (keyValuePairs o)) (arrayValues o) (cap o) (gen o)
  | RIdx _ _ i => mkObject (is_array o) (keyValuePairs o) (<[i := x]> (arrayValues o)) (cap o) (gen o)
  end.

Lemma get_slot_Ok r s x : get_slot r s = Ok x ↔ ∃ o, heap s !! ref_addr r = Some o ∧ slot_in o r = Some x.
Proof.
  destruct r as [a k|a g i]; cbn; unfold get; destruct (heap s !! a) as [o|]; cbn; try naive_solver.
  - destruct (kv_find k (keyValuePairs o)) eqn:Hk; naive_solver.
  - transitivity ((if bool_decide (g = gen o) then arrayValues o !! i else None) = Some x).
    + destruct (bool_decide (g = gen o)); [|done]. destruct (arrayValues o !! i); naive_solver.
    + naive_solver.
Qed.
Lemma put_slot_Ok r s x o old : heap s !! ref_addr r = Some o → slot_in o r = Some old →
  put_slot r x s = Ok (put (ref_addr r) (set_in o r x) s).
Proof.
  intros Ho Hold. unfold put_slot. rewrite (proj2 (get_slot_Ok r s old)) by (by exists o). cbn [mbind res_bind].
  destruct r; cbn in *; unfold get; by rewrite Ho.
Qed.

Lemma kv_set_perm k x old (m : list (list u8 * slot F)) : kv_find k m = Some old →
  ∃ rest, m.*2 ≡ₚ old :: rest ∧ (kv_set k x m).*2 ≡ₚ x :: rest.
Proof.
  induction m as [|[k' y] m IH]; cbn; [done|]. case_bool_decide as Hk.
  - intros [= ->]. by eexists.
  - intros (rest & H1 & H2)%IH. exists (y :: rest). cbn. rewrite H1, H2. split; apply Permutation_swap.
Qed.
Lemma insert_perm i x old (l : list (slot F)) : l !! i = Some old → ∃ rest, l ≡ₚ old :: rest ∧ <[i := x]> l ≡ₚ x :: rest.
Proof.
  intros Hi. pose proof (lookup_lt_Some _ _ _ Hi) as Hlt. exists (take i l ++ drop (S i) l). split.
  - rewrite <-(take_drop_middle l i old Hi) at 1. by rewrite Permutation_middle.
  - rewrite insert_take_drop by done. by rewrite Permutation_middle.
Qed.
Lemma set_in_perm o r x old : slot_in o r = Some old →
  ∃ rest, slots_of o ≡ₚ old :: rest ∧ slots_of (set_in o r x) ≡ₚ x :: rest.
Proof.
  destruct r as [a k|a g i]; cbn; unfold slots_of; cbn.
  - intros (rest & H1 & H2)%(kv_set_perm k x). exists (rest ++ arrayValues o). by rewrite H1, H2.
  - case_bool_decide; [|done]. intros (rest & H1 & H2)%(insert_perm i x). exists ((keyValuePairs o).*2 ++ rest).
    split; [rewrite H1|rewrite H2]; by rewrite <-Permutation_middle.
Qed.
Lemma kv_find_set k k' x (m : list (list u8 * slot F)) : is_Some (kv_find k m) →
  kv_find k' (kv_set k x m) = if bool_decide (k' = k) then Some x else kv_find k' m.
Proof.
  intros [old Hold]. induction m as [|[k1 y] m IH]; cbn in *; [done|]. destruct (decide (k = k1)) as [->|Hne].
  - rewrite bool_decide_eq_true_2 by done. cbn. by destruct (bool_decide (k' = k1)).
  - rewrite bool_decide_eq_false_2 in Hold |- * by done. cbn. rewrite IH by done.
    repeat case_bool_decide; congruence.
Qed.
Lemma slot_in_set o r x old : slot_in o r = Some old → slot_in (set_in o r x) r = Some x.
Proof.
  destruct r as [a k|a g i]; cbn; intros Hold.
  - rewrite kv_find_set by (by eexists). by rewrite bool_decide_eq_true_2.
  - case_bool_decide; [|done]. apply list_lookup_insert_eq. by eapply lookup_lt_Some.
Qed.

Lemma put_twice a o o' s : put a o' (put a o s) = put a o' s.
Proof. unfold put, with_heap. cbn. by rewrite insert_insert_eq. Qed.
Lemma put_id a o s : heap s !! a = Some o → put a o s = s.
Proof. intros Ho. unfold put, with_heap. rewrite insert_id by done. by destruct s. Qed.

Lemma slot_count_put s a o o' : heap s !! a = Some o → length (slots_of o') = length (slots_of o) →
  slot_count (put a o' s) = slot_count s.
Proof.
  intros Ho Hl. unfold slot_count, all_slots, put, with_heap. cbn. fold (all_of (<[a := o']> (heap s))). fold (all_of (heap s)).
  rewrite (proj1 (all_slots_put _ _ _ o' Ho)), (proj1 (all_slots_split _ _ _ Ho)), !length_app. lia.
Qed.

(** taking the content of a slot out *)
Lemma exact_take roots s r o old : exact roots s → heap s !! ref_addr r = Some o → slot_in o r = Some old →
  exact (roots ++ owned_in [old]) (put (ref_addr r) (set_in o r SlUndef) s) ∧
  slot_count (put (ref_addr r) (set_in o r SlUndef) s) = slot_count s.
Proof.
  intros He Ho Hold. destruct (set_in_perm o r SlUndef old Hold) as (rest & H1 & H2). split.
  - eapply exact_put; [done..|]. rewrite (owned_in_perm _ _ H1), (owned_in_perm _ _ H2).
    change (SlUndef :: rest) with ([SlUndef] ++ rest). change (old :: rest) with ([old] ++ rest).
    rewrite !owned_in_app. cbn. solve_Permutation.
  - apply (slot_count_put _ _ o); [done|]. by rewrite H1, H2.
Qed.

Lemma assign_slot_inv r x s s' : assign_slot r x s = Ok s' →
  ∃ o old s1, heap s !! ref_addr r = Some o ∧ slot_in o r = Some old ∧ destroy_slot old s = Ok s1 ∧
    heap s1 !! ref_addr r = Some o ∧ s' = put (ref_addr r) (set_in o r x) s1.
Proof.
  unfold assign_slot. destruct (get_slot r s) as [old| | | |] eqn:Hg; cbn [mbind res_bind]; try done.
  apply get_slot_Ok in Hg as (o & Ho & Hold). destruct (destroy_slot old s) as [s1| | | |] eqn:Hd; cbn [mbind res_bind]; try done.
  intros Hp. assert (Hg1 : is_Some (heap s1 !! ref_addr r)).
  { revert Hp. unfold put_slot. destruct (get_slot r s1) as [y| | | |] eqn:Hy; cbn [mbind res_bind]; try done. intros _.
    apply get_slot_Ok in Hy as (o1 & Ho1 & _). by eexists. }
  destruct Hg1 as [o1 Ho1]. pose proof (lookup_weaken _ _ _ _ Ho1 (destroy_mono _ _ _ _ Hd)) as Heq. simplify_eq.
  rewrite (put_slot_Ok r s1 x o old) in Hp by done. simplify_eq. by exists o, old, s1.
Qed.

(** an assignment that returns keeps owners exact *)
Lemma assign_slot_exact roots r x s s' : exact (roots ++ owned_in [x]) s → assign_slot r x s = Ok s' → exact roots s'.
Proof.
  intros He (o & old & s1 & Ho & Hold & Hd & Ho1 & ->)%assign_slot_inv.
  destruct (exact_take _ _ _ _ _ He Ho Hold) as [He0 Hc0]. set (o0 := set_in o r SlUndef) in *.
  assert (Hd0 : destroy (S (slot_count s)) [old] (put (ref_addr r) o0 s) = Ok (put (ref_addr r) o0 s1)).
  { apply destroy_frame; [done|by eexists]. }
  destruct (destroy_spec (S (slot_count s)) _ _ _ He0) as (s2 & Hd2 & [He2 _ _ _ _]); [cbn; lia|].
  rewrite Hd0 in Hd2. simplify_eq.
  rewrite <-(put_twice _ o0). eapply exact_put; [done|cbn; apply lookup_insert_eq|].
  destruct (set_in_perm o r SlUndef old Hold) as (rest & H1 & H2), (set_in_perm o r x old Hold) as (rest' & H1' & H2').
  assert (rest ≡ₚ rest') as Hr by (apply (Permutation_cons_inv (a := old)); by rewrite <-H1, <-H1').
  fold o0 in H2. rewrite (owned_in_perm _ _ H2), (owned_in_perm _ _ H2'), Hr. change (x :: rest') with ([x] ++ rest').
  change (SlUndef :: rest') with ([SlUndef] ++ rest'). rewrite !owned_in_app. cbn. solve_Permutation.
Qed.

(** an assignment returns, unless what it overwrites holds the slot itself *)
Lemma assign_slot_total roots r x s o old : exact roots s → heap s !! ref_addr r = Some o →
  slot_in o r = Some old → ¬ below s [old] (ref_addr r) →
  ∃ s1, assign_slot r x s = Ok (put (ref_addr r) (set_in o r x) s1) ∧ heap s1 !! ref_addr r = Some o ∧
    ∀ b, ¬ below s [old] b → heap s1 !! b = heap s !! b.
Proof.
  intros He Ho Hold Hnot. destruct (exact_take _ _ _ _ _ He Ho Hold) as [He0 Hc0]. set (o0 := set_in o r SlUndef) in *.
  destruct (destroy_spec (S (slot_count s)) _ _ _ He0) as (s2 & Hd2 & [He2 Hb2 Ho2 _ _]); [cbn; lia|].
  assert (Hbelow : ∀ b, below (put (ref_addr r) o0 s) [old] b → below s [old] b ∧ b ≠ ref_addr r).
  { apply below_ind'.
    - intros a Ha. pose proof (below_here s _ _ Ha) as Hb. split; [done|]. by intros ->.
    - intros a b _ [Ha Hne] (oa & Hoa & Hb). cbn in Hoa. rewrite lookup_insert_ne in Hoa by done.
      assert (Hb' : below s [old] b) by (eapply below_step; [exact Ha|]; by exists oa). split; [done|]. by intros ->. }
  assert (Hr : heap s2 !! ref_addr r = Some o0).
  { rewrite Ho2; [cbn; apply lookup_insert_eq|]. by intros [_ []]%Hbelow. }
  apply (destroy_frame _ _ _ _ (ref_addr r) o) in Hd2; [|by eexists]. rewrite put_twice, put_id in Hd2 by done.
  exists (put (ref_addr r) o s2). assert (Ho1 : heap (put (ref_addr r) o s2) !! ref_addr r = Some o) by (cbn; apply lookup_insert_eq).
  split_and!; [|done|].
  - unfold assign_slot. rewrite (proj2 (get_slot_Ok r s old)) by (by exists o). cbn [mbind res_bind]. unfold destroy_slot.
    rewrite Hd2. cbn [mbind res_bind]. by rewrite (put_slot_Ok _ _ _ o old).
  - intros b Hb. cbn. destruct (decide (b = ref_addr r)) as [->|Hne]; [by rewrite lookup_insert_eq|].
    rewrite lookup_insert_ne by done. rewrite Ho2 by (by intros [? _]%Hbelow). cbn. by rewrite lookup_insert_ne.
Qed.

End owners.

(** ** Steps of a program *)
Section steps.
Context {F : Type}.
Context (fmt_double : f64 → list u8) (resize : nat → nat) (max_size : Z).
Implicit Types (s : store (F := F)) (o : object (F := F)) (x : slot F) (a b : nat) (roots : list nat).
#[local] Abbreviation push_back := (push_back resize).
#[local] Abbreviation makeJSArray := (makeJSArray resize).
#[local] Abbreviation arr_index := (arr_index max_size).
#[local] Abbreviation index_obj := (index_obj fmt_double max_size).
#[local] Abbreviation obj_push := (obj_push resize).
#[local] Abbreviation obj_setLength := (obj_setLength resize).
#[local] Abbreviation obj_concat := (obj_concat resize).
#[local] Abbreviation obj_keys := (obj_keys resize).

Lemma kv_insert_perm k x (m : list (list u8 * slot F)) : kv_find k m = None → (kv_insert k x m).*2 ≡ₚ x :: m.*2.
Proof.
  induction m as [|[k' y] m IH]; cbn; [done|]. case_bool_decide; [done|]. intros Hm. destruct (Str.bytes_ltb k k'); [done|].
  cbn. rewrite (IH Hm). apply Permutation_swap.
Qed.
Lemma insert_all_perm (l m : list (list u8 * slot F)) :
  (insert_all l m).1.*2 ++ (insert_all l m).2 ≡ₚ m.*2 ++ l.*2.
Proof.
  revert m. induction l as [|[k x] l IH]; intros m; cbn; [by rewrite app_nil_r|].
  destruct (kv_find k m) as [y|] eqn:Hm.
  - specialize (IH m). destruct (insert_all l m) as [m' d]. cbn in *. rewrite <-!Permutation_middle. by rewrite IH.
  - rewrite IH, (kv_insert_perm _ _ _ Hm). cbn. by rewrite <-Permutation_middle.
Qed.
Lemma push_back_slots o x : slots_of (push_back o x) ≡ₚ x :: slots_of o.
Proof.
  unfold JsObject.push_back, slots_of. case_bool_decide; cbn; by rewrite app_assoc, <-Permutation_cons_append.
Qed.
Lemma owned_in_undef n : owned_in (replicate n (SlUndef (F := F))) = [].
Proof. by induction n. Qed.
Lemma owned_in_vars (vs : list (value F)) : owned_in (SlVar <$> vs) = [].
Proof. by induction vs. Qed.

(** making objects takes the owners in the initializer *)
Lemma makeJSObject_exact roots l s : exact (roots ++ owned_in l.*2) s →
  ∃ s' a, makeJSObject l s = Ok (s', a) ∧ exact (a :: roots) s' ∧ heap s !! a = None.
Proof.
  intros He. unfold makeJSObject. pose proof (insert_all_perm l []) as Hp. destruct (insert_all l []) as [m d]. cbn in Hp.
  destruct (destroy_spec (length d + slot_count s) (roots ++ owned_in m.*2) d s) as (s1 & Hd & [He1 _ _ Hn _]).
  - eapply exact_perm; [|exact He]. rewrite <-app_assoc, <-owned_in_app. by rewrite Hp.
  - done.
  - rewrite Hd. cbn [mbind res_bind]. eexists _, _. split; [done|]. split.
    + apply exact_new. unfold slots_of. cbn. by rewrite app_nil_r.
    + rewrite Hn. apply eq_None_not_Some. intros Hs%(exact_next _ _ He). lia.
Qed.
Lemma makeJSArray_exact roots l s : exact (roots ++ owned_in l) s →
  exact ((makeJSArray l s).2 :: roots) (makeJSArray l s).1 ∧ heap s !! (makeJSArray l s).2 = None.
Proof.
  intros He. split; [|cbn; apply eq_None_not_Some; intros Hs%(exact_next _ _ He); lia]. apply exact_new.
  assert (Hp : ∀ l o, slots_of (foldl push_back o l) ≡ₚ l ++ slots_of o).
  { clear. induction l as [|x l IH]; intros o; cbn; [done|]. rewrite IH, push_back_slots. by rewrite Permutation_middle. }
  eapply exact_perm; [|exact He]. rewrite Hp. unfold slots_of. cbn. by rewrite app_nil_r.
Qed.

(** indexing adds slots that own nothing *)
Lemma findOrAdd_exact roots a k s l s' : exact roots s → findOrAdd a k s = Ok (l, s') → exact roots s'.
Proof.
  intros He. unfold findOrAdd, get. destruct (heap s !! a) as [o|] eqn:Ho; [|done]. cbn.
  destruct (kv_find k (keyValuePairs o)) eqn:Hk; intros [= <- <-]; [done|]. eapply exact_put; [done..|].
  unfold slots_of. cbn. by rewrite (kv_insert_perm _ _ _ Hk).
Qed.
Lemma arr_index_exact roots a i s l s' : exact roots s → arr_index a i s = Ok (l, s') → exact roots s'.
Proof.
  intros He. unfold arr_index, JsObject.arr_index, get. destruct (heap s !! a) as [o|] eqn:Ho; [|done]. cbn [mbind res_bind].
  case_bool_decide; [by intros [= <- <-]|]. case_bool_decide; [done|].
  destruct (if bool_decide (cap o < _) then _ else _) as [c g]. case_bool_decide; [|done]. intros [= <- <-].
  eapply exact_put; [done..|]. unfold slots_of, fill. cbn [keyValuePairs arrayValues]. by rewrite !owned_in_app, owned_in_undef, app_nil_r.
Qed.
Lemma index_obj_exact fuel roots a k s l s' : exact roots s → index_obj fuel a k s = Ok (l, s') → exact roots s'.
Proof.
  intros He. assert (Hvar : ∀ v, index_var fmt_double max_size fuel a v s = Ok (l, s') → exact roots s').
  { intros v. unfold index_var, get. destruct (heap s !! a) as [o|]; [|done]. cbn [mbind res_bind].
    assert (Hkey : (k ← var_str fmt_double fuel s v; findOrAdd a k s) = Ok (l, s') → exact roots s').
    { destruct (var_str fmt_double fuel s v); try done. by apply findOrAdd_exact. }
    destruct (is_array o), v; try exact Hkey. destruct (F64.to_u64 d); try done. by apply arr_index_exact. }
  assert (Hsize : ∀ i, index_size max_size a i s = Ok (l, s') → exact roots s').
  { intros i. unfold index_size. destruct (get a s) as [o| | | |]; try done. cbn [mbind res_bind].
    destruct (is_array o); [by apply arr_index_exact|by apply findOrAdd_exact]. }
  destruct k as [v|[|r|v]|d|n|t]; cbn; try apply Hvar; try apply Hsize; try (by intros [= <- <-]).
  - destruct (F64.to_u64 d); try done. apply Hsize.
  - unfold index_str. destruct (get a s) as [o| | | |]; try done. cbn [mbind res_bind].
    destruct (is_array o); [|by apply findOrAdd_exact].
    destruct (digits t); [by apply arr_index_exact|by apply findOrAdd_exact].
Qed.

Lemma assign_own_exact roots l p s l' s' :
  exact (roots ++ option_list p) s → assign_own l p s = Ok (l', s') → exact roots s'.
Proof.
  intros He. destruct l as [|r|w]; cbn; try done.
  destruct (assign_slot r (SlObj p) s) as [s1| | | |] eqn:Ha; cbn; try done. intros [= <- <-].
  eapply assign_slot_exact; [|exact Ha]. by destruct p.
Qed.
Lemma assign_var_exact roots l v s l' s' : exact roots s → assign_var l v s = Ok (l', s') → exact roots s'.
Proof.
  intros He. destruct l as [|r|w]; cbn; try done; [|by intros [= <- <-]].
  destruct (assign_slot r (SlVar v) s) as [s1| | | |] eqn:Ha; cbn; try done. intros [= <- <-].
  eapply assign_slot_exact; [|exact Ha]. cbn. by rewrite app_nil_r.
Qed.

Lemma obj_push_exact roots a xs s s' : exact (roots ++ owned_in (item_slot <$> xs)) s → obj_push a xs s = Ok s' → exact roots s'.
Proof.
  revert s. induction xs as [|x xs IH]; intros s He; cbn; [by intros [= <-]; rewrite app_nil_r in He|].
  unfold get. destruct (heap s !! a) as [o|] eqn:Ho; [|done]. cbn [mbind res_bind]. destruct (is_array o); [|done].
  apply IH. eapply exact_put; [exact He|exact Ho|]. rewrite push_back_slots, fmap_cons.
  change (item_slot x :: ?l) with ([item_slot x] ++ l). rewrite !owned_in_app. solve_Permutation.
Qed.

Lemma push_all_slots xs o : slots_of (push_all resize o xs) ≡ₚ xs ++ slots_of o.
Proof.
  revert o. induction xs as [|x xs IH]; intros o; cbn; [done|]. rewrite IH, push_back_slots. by rewrite Permutation_middle.
Qed.
Lemma obj_setLength_exact roots a ln s s' : exact roots s → obj_setLength a ln s = Ok s' → exact roots s'.
Proof.
  intros He. unfold obj_setLength, JsObject.obj_setLength, get. destruct (heap s !! a) as [o|] eqn:Ho; [|done].
  cbn [mbind res_bind]. destruct (is_array o); [|done]. destruct (_ && _); [|done].
  destruct (F64.to_u64 ln) as [i| | | |]; try done. cbn [mbind res_bind]. set (n := Z.to_nat i). destruct (F64.ltb _ _).
  - set (o' := mkObject _ _ _ _ _). assert (Hp : slots_of o ≡ₚ drop n (arrayValues o) ++ slots_of o').
    { unfold slots_of, o'. cbn [keyValuePairs arrayValues]. rewrite <-(take_drop n (arrayValues o)) at 1. solve_Permutation. }
    destruct (destroy_spec (S (slot_count s)) roots (drop n (arrayValues o)) (put a o' s)) as (s1 & Hd & [He1 _ _ _ _]).
    + eapply exact_put; [done..|]. rewrite Hp, owned_in_app. solve_Permutation.
    + unfold slot_count, all_slots, put, with_heap. cbn [heap]. fold (all_of (<[a := o']> (heap s))). fold (all_of (heap s)).
      rewrite (proj1 (all_slots_put _ _ _ o' Ho)), (proj1 (all_slots_split _ _ _ Ho)), Hp, !length_app. lia.
    + rewrite Hd. cbn [mbind res_bind]. by intros [= <-].
  - intros [= <-]. eapply exact_put; [done..|]. rewrite push_all_slots, owned_in_app.
    assert (Hu : ∀ m, owned_in (replicate m (SlVar (VUndef (F := F)))) = []) by (by induction m).
    by rewrite Hu.
Qed.

Lemma elements_vars_own xs l : elements_vars xs = Ok l → owned_in (F := F) l = [].
Proof.
  revert l. induction xs as [|x xs IH]; intros l; cbn; [by intros [= <-]|].
  destruct x; try done; (destruct (elements_vars xs) as [r| | | |] eqn:Hr; cbn; try done; intros [= <-]; by apply (IH r)).
Qed.
Lemma concat_me_own a s l : concat_impl_add_me a s = Ok l → owned_in (F := F) l = [].
Proof.
  unfold concat_impl_add_me. destruct (get a s) as [o| | | |]; try done. cbn [mbind res_bind].
  destruct (is_array o); [apply elements_vars_own|by intros [= <-]].
Qed.
Lemma concat_impl_own args s l : concat_impl args s = Ok l → owned_in (F := F) l = [].
Proof.
  revert l. induction args as [|v args IH]; intros l; cbn; [by intros [= <-]|].
  destruct (concat_impl_1 v s) as [l1| | | |] eqn:H1; try done. cbn [mbind res_bind].
  destruct (concat_impl args s) as [l2| | | |] eqn:H2; try done. cbn [mbind res_bind]. intros [= <-].
  rewrite owned_in_app, (IH l2) by done. rewrite app_nil_r.
  destruct v; cbn in H1; try (by simplify_eq). destruct (deref p); try done. by eapply concat_me_own.
Qed.
Lemma array_of_vars_exact roots l s s' a : exact roots s → owned_in l = [] → Ok (makeJSArray l s) = Ok (s', a) → exact (a :: roots) s'.
Proof.
  intros He Hl Hs'. pose proof (makeJSArray_exact roots l s) as H. rewrite Hl, app_nil_r in H.
  destruct (makeJSArray l s) as [s1 a1]. simplify_eq. by apply H.
Qed.

(** what a program does with the objects it owns, in [roots]: a step that throws
    or fails is not one *)
Inductive step : list nat * store (F := F) → list nat * store (F := F) → Prop :=
  | step_object roots roots' l s s' a :
      roots ≡ₚ owned_in l.*2 ++ roots' → makeJSObject l s = Ok (s', a) → step (roots, s) (a :: roots', s')
  | step_array roots roots' l s s' a :
      roots ≡ₚ owned_in l ++ roots' → makeJSArray l s = (s', a) → step (roots, s) (a :: roots', s')
  | step_drop roots roots' a s s' :
      roots ≡ₚ a :: roots' → destroy_slot (SlObj (Some a)) s = Ok s' → step (roots, s) (roots', s')
  | step_own roots roots' l p s l' s' :
      roots ≡ₚ option_list p ++ roots' → assign_own l p s = Ok (l', s') → step (roots, s) (roots', s')
  | step_var roots l v s l' s' : assign_var l v s = Ok (l', s') → step (roots, s) (roots, s')
  | step_index roots fuel a k s l s' : index_obj fuel a k s = Ok (l, s') → step (roots, s) (roots, s')
  | step_push roots roots' a xs s s' :
      roots ≡ₚ owned_in (F := F) (item_slot <$> xs) ++ roots' → obj_push a xs s = Ok s' → step (roots, s) (roots', s')
  | step_length roots a ln s s' : obj_setLength a ln s = Ok s' → step (roots, s) (roots, s')
  | step_keys roots a s s' a' : obj_keys a s = Ok (s', a') → step (roots, s) (a' :: roots, s')
  | step_concat roots a args s s' a' : obj_concat a args s = Ok (s', a') → step (roots, s) (a' :: roots, s').

Definition start : list nat * store (F := F) := ([], mkStore ∅ 0 None).

Lemma step_exact st st' : step st st' → exact st.1 st.2 → exact st'.1 st'.2.
Proof.
  intros [] He; cbn [fst snd] in *.
  - destruct (makeJSObject_exact roots' l s) as (s1 & a1 & Hm & He1 & _); [|rewrite Hm in H0; by simplify_eq].
    eapply exact_perm; [|exact He]. rewrite H. apply Permutation_app_comm.
  - pose proof (makeJSArray_exact roots' l s) as Hm. rewrite H0 in Hm. apply Hm.
    eapply exact_perm; [|exact He]. rewrite H. apply Permutation_app_comm.
  - destruct (destroy_spec (S (slot_count s)) roots' [SlObj (Some a)] s) as (s1 & Hd & [He1 _ _ _ _]); [|cbn; lia|].
    + eapply exact_perm; [|exact He]. rewrite H. cbn. solve_Permutation.
    + unfold destroy_slot in H0. rewrite Hd in H0. by simplify_eq.
  - eapply assign_own_exact; [|done]. eapply exact_perm; [|exact He]. rewrite H. apply Permutation_app_comm.
  - by eapply assign_var_exact.
  - by eapply index_obj_exact.
  - eapply obj_push_exact; [|done]. eapply exact_perm; [|exact He]. rewrite H. apply Permutation_app_comm.
  - by eapply obj_setLength_exact.
  - unfold JsObject.obj_keys in H. destruct (get a s) as [o| | | |]; try done. cbn [mbind res_bind] in H.
    eapply array_of_vars_exact; [exact He| |exact H]. clear. by induction (keyValuePairs o) as [|? ? IH]; [|exact IH].
  - unfold JsObject.obj_concat in H. destruct (concat_impl_add_me a s) as [l| | | |] eqn:H1; try done. cbn [mbind res_bind] in H.
    destruct (concat_impl args s) as [r| | | |] eqn:H2; try done. cbn [mbind res_bind] in H.
    eapply array_of_vars_exact; [exact He| |exact H]. rewrite owned_in_app. by erewrite concat_me_own, concat_impl_own.
Qed.

Lemma reachable_exact roots s : rtc step start (roots, s) → exact roots s.
Proof.
  intros Hrtc. change (exact (roots, s).1 (roots, s).2).
  apply (rtc_ind_r (R := step) (λ st, exact st.1 st.2) start); [| |done].
  - split; [done|]. cbn. intros a [? Ha]. by rewrite lookup_empty in Ha.
  - intros st st' _ Hstep. by apply step_exact.
Qed.

(** C6. Every object has exactly one owner, a variable of the program or one slot
    of one object, whatever the program makes, moves, assigns, indexes, appends,
    cuts and drops; and whenever a variable that owns an object ends, exactly the
    objects below it end, each once, and all others stay as they are. *)
Theorem ownership_is_exact roots s :
  rtc step start (roots, s) →
  roots ++ owns s ≡ₚ (map_to_list (heap s)).*1 ∧
  (∀ a, a ∈ roots → ∃ s', destroy_slot (SlObj (Some a)) s = Ok s' ∧
     ∀ b, (rtc (owns_rel s) a b → heap s' !! b = None) ∧ (¬ rtc (owns_rel s) a b → heap s' !! b = heap s !! b)).
Proof.
  intros He%reachable_exact.
  split; [apply He|]. intros a [roots' Hr]%elem_of_Permutation.
  destruct (destroy_spec (S (slot_count s)) roots' [SlObj (Some a)] s) as (s' & Hd & [_ Hb Ho _ _]); [|cbn; lia|].
  - eapply exact_perm; [|exact He]. rewrite Hr. cbn. solve_Permutation.
  - exists s'. split; [done|]. intros b. split.
    + intros Hab. apply Hb. exists a. split; [cbn; by left|done].
    + intros Hab. apply Ho. intros (c & Hc & Hcb). cbn in Hc. by apply list_elem_of_singleton in Hc as ->.
Qed.

(** ** Properties of objects *)
Lemma kv_find_insert k k' x (m : list (list u8 * slot F)) : kv_find k m = None →
  kv_find k' (kv_insert k x m) = if bool_decide (k' = k) then Some x else kv_find k' m.
Proof.
  induction m as [|[k1 y] m IH]; cbn; [done|]. destruct (decide (k = k1)) as [|Hk]; [by rewrite bool_decide_eq_true_2|].
  rewrite (bool_decide_eq_false_2 (k = k1)) by done. intros Hm. destruct (Str.bytes_ltb k k1); [done|].
  cbn. rewrite IH by done. repeat case_bool_decide; congruence.
Qed.

(** adding a property, when it is not there *)
Lemma findOrAdd_spec roots a k s o : exact roots s → heap s !! a = Some o →
  ∃ s1 o1 x1, findOrAdd a k s = Ok (RValue (RKey a k), s1) ∧ exact roots s1 ∧ heap s1 !! a = Some o1 ∧
    kv_find k (keyValuePairs o1) = Some x1 ∧ arrayValues o1 = arrayValues o ∧
    (∀ k', k' ≠ k → kv_find k' (keyValuePairs o1) = kv_find k' (keyValuePairs o)) ∧
    (∀ b, b ≠ a → heap s1 !! b = heap s !! b) ∧
    (∀ b, below s1 [x1] b → kv_find k (keyValuePairs o) = Some x1 ∧ below s [x1] b).
Proof.
  intros He Ho. destruct (kv_find k (keyValuePairs o)) as [x|] eqn:Hk.
  - exists s, o, x. unfold findOrAdd, get. rewrite Ho. cbn [mbind res_bind]. rewrite Hk. by split_and!.
  - set (o1 := mkObject (is_array o) (kv_insert k SlUndef (keyValuePairs o)) (arrayValues o) (cap o) (gen o)).
    assert (Hf : findOrAdd a k s = Ok (RValue (RKey a k), put a o1 s)).
    { unfold findOrAdd, get. rewrite Ho. cbn [mbind res_bind]. by rewrite Hk. }
    exists (put a o1 s), o1, SlUndef. split_and!; try done.
    + by eapply findOrAdd_exact.
    + cbn. apply lookup_insert_eq.
    + cbn. rewrite kv_find_insert by done. by rewrite bool_decide_eq_true_2.
    + intros k' Hne. cbn. rewrite kv_find_insert by done. by rewrite bool_decide_eq_false_2.
    + intros b Hne. cbn. by rewrite lookup_insert_ne.
    + intros b (c & Hc & _). cbn in Hc. by apply elem_of_nil in Hc.
Qed.

(** C27. Assigning a value to a property of an object, which is added when it is
    not there, and reading it gives the value; the other properties and the
    elements of the object stay what they are, and so do all objects that were not
    below the value that is overwritten. *)
Theorem property_read_after_write roots a k v s o :
  exact roots s → heap s !! a = Some o →
  (∀ x, kv_find k (keyValuePairs o) = Some x → ¬ below s [x] a) →
  ∃ s1 s2 o2, findOrAdd a k s = Ok (RValue (RKey a k), s1) ∧
    assign_var (RValue (RKey a k)) v s1 = Ok (RValue (RKey a k), s2) ∧
    to_var (RValue (RKey a k)) s2 = Ok v ∧ findOrAdd a k s2 = Ok (RValue (RKey a k), s2) ∧
    heap s2 !! a = Some o2 ∧ arrayValues o2 = arrayValues o ∧
    (∀ k', k' ≠ k → kv_find k' (keyValuePairs o2) = kv_find k' (keyValuePairs o)) ∧
    (∀ b, b ≠ a → (∀ x, kv_find k (keyValuePairs o) = Some x → ¬ below s [x] b) → heap s2 !! b = heap s !! b).
Proof.
  intros He Ho Hnot.
  destruct (findOrAdd_spec roots a k s o He Ho)
    as (s1 & o1 & x1 & Hf & He1 & Ho1 & Hx1 & Harr & Hoth & Hheap & Hbel).
  destruct (assign_slot_total roots (RKey a k) (SlVar v) s1 o1 x1) as (s2 & Ha & Ho2 & Hkeep); [done..| |].
  { intros [Hk Hb]%Hbel. by apply (Hnot x1). }
  cbn [ref_addr] in *. set (o2 := set_in o1 (RKey a k) (SlVar v)) in *. set (s3 := put a o2 s2) in *.
  assert (Ho3 : heap s3 !! a = Some o2) by (cbn; apply lookup_insert_eq).
  assert (Hx3 : kv_find k (keyValuePairs o2) = Some (SlVar v)) by (apply (slot_in_set o1 (RKey a k) _ x1); exact Hx1).
  exists s1, s3, o2. split_and!; try done.
  - cbn [assign_var]. by rewrite Ha.
  - cbn [to_var]. rewrite (proj2 (get_slot_Ok (RKey a k) s3 (SlVar v))); [done|]. by exists o2.
  - unfold findOrAdd, get. rewrite Ho3. cbn [mbind res_bind]. by rewrite Hx3.
  - intros k' Hne. cbn. rewrite kv_find_set by (by eexists). rewrite bool_decide_eq_false_2 by done. by apply Hoth.
  - intros b Hne Hnb. unfold s3. cbn. rewrite lookup_insert_ne by done. rewrite Hkeep; [by apply Hheap|].
    intros [Hk Hb]%Hbel. by apply (Hnb x1).
Qed.
End steps.

(** ** Printing *)
Section printing.
Context {F : Type} (fmt_double : f64 → list u8).
Implicit Types (s : store (F := F)) (o : object (F := F)) (x : slot F) (a b : nat).
Definition target x : option nat := match x with SlObj p | SlVar (VSoft p) => p | _ => None end.
#[local] Abbreviation obj_str := (obj_str fmt_double).
#[local] Abbreviation slot_str := (slot_str fmt_double).

(** [obj_str] with what it calls for the objects in slots *)
Definition obj_body (f : option nat → res (list u8)) s (p : option nat) : res (list u8) :=
  a ← deref p;
  o ← get a s;
  if is_array o then
    match keyValuePairs o, arrayValues o with
    | _ :: _, xs =>
        es ← toString_ fmt_double f [] (str ", ") (keyValuePairs o);
        vs ← value_strs fmt_double f (str ", ") [] xs;
        Ok (str "[ " ++ es ++ vs ++ str " ]")
    | [], [] => Ok (str "[ " ++ str " ]")
    | [], xs =>
        vs ← value_strs fmt_double f [] (str ", ") xs;
        let ret := str "[ " ++ vs in
        Ok (take (length ret - 2) ret ++ drop (length ret - 1) ret ++ str " ]")
    end
  else
    es ← toString_ fmt_double f (str "  ") ([x2c; x0a]) (keyValuePairs o);
    Ok (str "{ " ++ [x0a] ++ es ++ str " }").
Lemma obj_str_S fuel s p : obj_str (S fuel) s p = obj_body (obj_str fuel s) s p.
Proof. done. Qed.

Lemma bind_NoFuel {A B} (m : res A) (g : A → res B) : m ≠ NoFuel → (∀ y, g y ≠ NoFuel) → (m ≫= g) ≠ NoFuel.
Proof. destruct m; cbn; naive_solver. Qed.

Section body.
Context (f g : option nat → res (list u8)).
Definition agree (xs : list (slot F)) : Prop := ∀ x, x ∈ xs → slot_str g x = slot_str f x ∧ slot_str f x ≠ NoFuel.

Lemma value_strs_agree before after xs : agree xs →
  value_strs fmt_double g before after xs = value_strs fmt_double f before after xs ∧
  value_strs fmt_double f before after xs ≠ NoFuel.
Proof.
  induction xs as [|x xs IH]; intros Ha; cbn; [done|]. destruct (Ha x ltac:(by left)) as [-> Hx].
  destruct IH as [-> Hxs]; [intros y Hy; apply Ha; by right|]. split; [done|].
  apply bind_NoFuel; [done|]. intros e. by apply bind_NoFuel.
Qed.
Lemma entry_strs_agree offset sep (kv : list (list u8 * slot F)) : agree kv.*2 →
  entry_strs fmt_double g offset sep kv = entry_strs fmt_double f offset sep kv ∧
  entry_strs fmt_double f offset sep kv ≠ NoFuel.
Proof.
  induction kv as [|[k x] kv IH]; intros Ha; cbn; [done|]. destruct (Ha x ltac:(by left)) as [-> Hx].
  destruct IH as [-> Hxs]; [intros y Hy; apply Ha; by right|]. split; [done|].
  apply bind_NoFuel; [done|]. intros e. by apply bind_NoFuel.
Qed.
Lemma toString_agree offset sep (kv : list (list u8 * slot F)) : agree kv.*2 →
  toString_ fmt_double g offset sep kv = toString_ fmt_double f offset sep kv ∧
  toString_ fmt_double f offset sep kv ≠ NoFuel.
Proof.
  intros Ha. destruct (entry_strs_agree offset sep kv Ha) as [Heq Hne]. unfold toString_. destruct kv; [done|].
  rewrite Heq. split; [done|]. by apply bind_NoFuel.
Qed.
Lemma obj_body_agree s a : (∀ o, heap s !! a = Some o → agree (slots_of o)) →
  obj_body g s (Some a) = obj_body f s (Some a) ∧ obj_body f s (Some a) ≠ NoFuel.
Proof.
  intros Ha. unfold obj_body, get. cbn [deref mbind res_bind]. destruct (heap s !! a) as [o|]; [|done]. cbn [mbind res_bind].
  assert (Hkv : agree (keyValuePairs o).*2) by (intros x Hx; apply (Ha o eq_refl); apply elem_of_app; by left).
  assert (Harr : agree (arrayValues o)) by (intros x Hx; apply (Ha o eq_refl); apply elem_of_app; by right).
  pose proof (λ offset sep, toString_agree offset sep _ Hkv) as Ht.
  pose proof (λ before after, value_strs_agree before after _ Harr) as Hv.
  destruct (is_array o).
  - destruct (keyValuePairs o) as [|e kv].
    + destruct (arrayValues o) as [|x xs]; [done|]. rewrite (proj1 (Hv _ _)). split; [done|].
      apply bind_NoFuel; [apply Hv|done].
    + rewrite (proj1 (Ht _ _)), (proj1 (Hv _ _)). split; [done|]. apply bind_NoFuel; [apply Ht|]. intros e'.
      apply bind_NoFuel; [apply Hv|done].
  - rewrite (proj1 (Ht _ _)). split; [done|]. apply bind_NoFuel; [apply Ht|done].
Qed.
End body.

Lemma slot_str_NoFuel (f : option nat → res (list u8)) x :
  (∀ p, x = SlObj (Some p) ∨ x = SlVar (VSoft (Some p)) → f (Some p) ≠ NoFuel) → f None ≠ NoFuel → slot_str f x ≠ NoFuel.
Proof.
  intros Hf Hn. destruct x as [|[p|]|[| |d| |[p|]|]]; cbn; try done; try (apply Hf; naive_solver).
  assert (Hi : F64.to_i64 d ≠ NoFuel).
  { unfold F64.to_i64, F64.to_int. destruct (F64.trunc d); [|done]. by case_bool_decide. }
  unfold num_str. apply bind_NoFuel; [done|]. intros i. destruct (F64.eqb _ _); [|done]. by apply bind_NoFuel.
Qed.

Lemma obj_str_total (rank : nat → nat) s :
  (∀ a o x b, heap s !! a = Some o → x ∈ slots_of o → target x = Some b → rank b < rank a) →
  ∀ fuel a, S (rank a) < fuel → obj_str fuel s (Some a) ≠ NoFuel ∧
    ∀ fuel', fuel ≤ fuel' → obj_str fuel' s (Some a) = obj_str fuel s (Some a).
Proof.
  intros Hrank. induction fuel as [|fuel IH]; intros a Hf; [lia|].
  assert (Hagree : ∀ fuel', fuel ≤ fuel' → ∀ o, heap s !! a = Some o → agree (obj_str fuel s) (obj_str fuel' s) (slots_of o)).
  { intros fuel' Hle o Ho x Hx. assert (Hsub : ∀ b, target x = Some b → S (rank b) < fuel).
    { intros b Hb. pose proof (Hrank _ _ _ _ Ho Hx Hb). lia. }
    destruct fuel as [|fuel0]; [lia|]. destruct fuel' as [|fuel0']; [lia|]. split.
    - destruct x as [|[p|]|[| | | |[p|]|]]; try done; cbn [JsObject.slot_str toString]; apply IH; try lia; by apply Hsub.
    - apply slot_str_NoFuel; [|done]. intros p Hp. apply IH. apply Hsub. by destruct Hp as [-> | ->]. }
  split; [apply (obj_body_agree (obj_str fuel s) (obj_str fuel s)); by apply Hagree|].
  intros [|fuel'] Hle; [lia|]. rewrite !obj_str_S. apply obj_body_agree. apply Hagree. lia.
Qed.

(** the first slot that is printed *)
Definition first_slot o : option (slot F) :=
  match keyValuePairs o with
  | (_, x) :: _ => Some x
  | [] => if is_array o then head (arrayValues o) else None
  end.
Lemma slot_str_target (f : option nat → res (list u8)) x a : target x = Some a → f (Some a) = NoFuel → slot_str f x = NoFuel.
Proof. destruct x as [|[p|]|[| | | |[p|]|]]; cbn; naive_solver. Qed.
Lemma obj_str_diverges (P : nat → Prop) s :
  (∀ a, P a → ∃ o x b, heap s !! a = Some o ∧ first_slot o = Some x ∧ target x = Some b ∧ P b) →
  ∀ fuel a, P a → obj_str fuel s (Some a) = NoFuel.
Proof.
  intros HP. induction fuel as [|fuel IH]; intros a Ha; [done|]. destruct (HP a Ha) as (o & x & b & Ho & Hx & Hb & HPb).
  pose proof (slot_str_target _ _ _ Hb (IH b HPb)) as Hs. rewrite obj_str_S. unfold obj_body, get. cbn [deref mbind res_bind]. rewrite Ho.
  cbn [mbind res_bind]. unfold first_slot in Hx. destruct (keyValuePairs o) as [|[k y] kv].
  - destruct (is_array o); [|done]. destruct (arrayValues o) as [|y ys]; [done|]. cbn in Hx. simplify_eq.
    cbn [value_strs]. by rewrite Hs.
  - simplify_eq. destruct (is_array o); cbn [toString_ entry_strs]; by rewrite Hs.
Qed.

(** C40. Printing an object ends when the pointers in the slots lead down, to
    objects of lower and lower rank, and what is printed does not depend on the
    fuel then; objects whose first slots lead round a cycle cannot be printed: the
    recursion of [toString] has no end. *)
Theorem toString_terminates s (rank : nat → nat) (P : nat → Prop) :
  ((∀ a o x b, heap s !! a = Some o → x ∈ slots_of o → target x = Some b → rank b < rank a) →
   ∀ a, ∃ r, r ≠ NoFuel ∧ ∀ fuel, S (rank a) < fuel → obj_str fuel s (Some a) = r) ∧
  ((∀ a, P a → ∃ o x b, heap s !! a = Some o ∧ first_slot o = Some x ∧ target x = Some b ∧ P b) →
   ∀ fuel a, P a → obj_str fuel s (Some a) = NoFuel).
Proof.
  split; [|apply obj_str_diverges]. intros Hrank a.
  destruct (obj_str_total rank s Hrank (S (S (rank a))) a) as [Hne Heq]; [lia|].
  exists (obj_str (S (S (rank a))) s (Some a)). split; [done|]. intros fuel Hf. apply Heq. lia.
Qed.

End printing.

(** ** Arrays *)
Section arrays.
Context {F : Type} (fmt_double : f64 → list u8) (max_size : Z).
Implicit Types (s : store (F := F)) (o : object (F := F)) (x : slot F) (a b : nat).
#[local] Abbreviation arr_index := (arr_index max_size).
#[local] Abbreviation index_obj := (index_obj fmt_double max_size).

(** the array after indexing with [i] *)
Definition grown o (i : nat) : object :=
  if decide (i < length (arrayValues o)) then o
  else mkObject (is_array o) (keyValuePairs o) (fill (arrayValues o) (cap o `max` S i)) (cap o `max` S i)
         (if decide (cap o < S i) then S (gen o) else gen o).
Lemma arr_index_grown a s o (i : nat) : heap s !! a = Some o → length (arrayValues o) ≤ cap o →
  (Z.of_nat i + 1 ≤ max_size < 2 ^ 64)%Z → arr_index a (Z.of_nat i) s = Ok (RValue (RIdx a (gen (grown o i)) i), put a (grown o i) s).
Proof.
  intros Ho Hcap Hm. unfold JsObject.arr_index, get. rewrite Ho. cbn [mbind res_bind]. rewrite Nat2Z.id. unfold grown.
  case_decide as Hi; [rewrite bool_decide_eq_true_2 by lia; by rewrite put_id|]. rewrite bool_decide_eq_false_2 by lia.
  rewrite u64_small by lia. rewrite bool_decide_eq_false_2 by lia. replace (Z.to_nat (Z.of_nat i + 1)) with (S i) by lia.
  assert (Hlen : ∀ n, S i ≤ n → i < length (fill (arrayValues o) n)).
  { intros n Hn. unfold fill. rewrite length_app, length_replicate. lia. }
  case_decide as Hc.
  - rewrite (bool_decide_eq_true_2 (cap o < S i)) by done. replace (cap o `max` S i) with (S i) by lia.
    pose proof (Hlen (S i) ltac:(lia)). by rewrite bool_decide_eq_true_2 by lia.
  - rewrite (bool_decide_eq_false_2 (cap o < S i)) by done. replace (cap o `max` S i) with (cap o) by lia.
    pose proof (Hlen (cap o) ltac:(lia)). by rewrite bool_decide_eq_true_2 by lia.
Qed.
Lemma fill_lookup (xs : list (slot F)) n j : length xs ≤ n →
  fill xs n !! j = if decide (j < length xs) then xs !! j else if decide (j < n) then Some SlUndef else None.
Proof.
  intros Hn. unfold fill. case_decide; [by rewrite lookup_app_l|]. rewrite lookup_app_r by lia. case_decide.
  - apply lookup_replicate_2. lia.
  - apply lookup_replicate_None. lia.
Qed.

(** Indexing an array: an index below the length gives the element and
    changes nothing; one past it makes the array as long as its storage, which is
    at least one longer than the index, with elements that were never set, and the
    references to elements end exactly when the storage grows; a string of digits
    is an index as well, but not in a [JSVar]; and a negative index is undefined
    behaviour. *)
Theorem array_index a s o fuel (i : nat) :
  heap s !! a = Some o → is_array o = true → length (arrayValues o) ≤ cap o → (Z.of_nat i + 1 ≤ max_size < 2 ^ 64)%Z →
  (Z.of_nat (cap o) < 2 ^ 63)%Z →
  (∃ o', index_obj fuel a (KInt (Z.of_nat i)) s = Ok (RValue (RIdx a (gen o') i), put a o' s) ∧
     is_Some (arrayValues o' !! i) ∧ keyValuePairs o' = keyValuePairs o ∧
     (if decide (i < length (arrayValues o)) then o' = o
      else length (arrayValues o') = cap o `max` S i ∧
           (∀ j, arrayValues o' !! j = if decide (j < length (arrayValues o)) then arrayValues o !! j
                                       else if decide (j < cap o `max` S i) then Some SlUndef else None) ∧
           (gen o' = gen o ↔ i < cap o))) ∧
  (∀ k, digits k = Some (Z.of_nat i) →
     index_obj fuel a (KStr k) s = index_obj fuel a (KInt (Z.of_nat i)) s ∧
     index_obj fuel a (KVar (VStr k)) s = findOrAdd a k s) ∧
  index_obj fuel a (KInt (-1)) s = UB.
Proof.
  intros Ho Harr Hcap Hm Hcap'.
  assert (Hint : ∀ n, index_obj fuel a (KInt n) s = arr_index a (u64 n) s).
  { intros n. cbn [JsObject.index_obj]. unfold index_size, get. rewrite Ho. cbn [mbind res_bind]. by rewrite Harr. }
  split_and!.
  - exists (grown o i). rewrite Hint, u64_small by lia. split; [by apply arr_index_grown|]. unfold grown.
    case_decide as Hi; cbn [arrayValues keyValuePairs gen]; [by rewrite lookup_lt_is_Some|].
    assert (Hmax : length (arrayValues o) ≤ cap o `max` S i) by lia. split_and!; [|done| |by intros; apply fill_lookup|].
    + rewrite fill_lookup by done. rewrite decide_False by done. by rewrite decide_True by lia.
    + unfold fill. rewrite length_app, length_replicate. lia.
    + case_decide; lia.
  - intros k Hk. rewrite Hint, u64_small by lia. cbn [JsObject.index_obj]. unfold index_str, index_var, get. rewrite Ho.
    cbn [mbind res_bind]. rewrite Harr, Hk. by split.
  - rewrite Hint. unfold JsObject.arr_index, get. rewrite Ho. cbn [mbind res_bind]. change (u64 (-1)) with (2 ^ 64 - 1)%Z.
    rewrite bool_decide_eq_false_2 by lia. change (u64 (2 ^ 64 - 1 + 1)) with 0%Z. rewrite bool_decide_eq_false_2 by lia.
    change (Z.to_nat 0) with 0. rewrite bool_decide_eq_false_2 by lia. rewrite bool_decide_eq_false_2; [done|].
    unfold fill. rewrite length_app, length_replicate. lia.
Qed.
End arrays.
End JsObjectSpec.

(** ** Runs *)
Module JsObjectExample.
Import JsValue JsObject JsObjectSpec.

Definition fmt (d : f64) : list u8 := [].
Definition max_size : Z := 100.
Definition empty_store : store (F := nat) := mkStore ∅ 0 None.

(** an array with an object in its first element, which has a property *)
Definition arr_store := Eval vm_compute in (makeJSArray S [] empty_store).1.
Definition obj_store := Eval vm_compute in
  match makeJSObject [(str "x", SlVar (VBool true))] arr_store with Ok (s, _) => s | _ => empty_store end.
Definition idx_store := Eval vm_compute in
  match index_obj fmt max_size 0 0 (KInt 0) obj_store with Ok (_, s) => s | _ => empty_store end.
Definition own_store := Eval vm_compute in
  match assign_own (RValue (RIdx 0 1 0)) (Some 1) idx_store with Ok (_, s) => s | _ => empty_store end.

Lemma run : rtc (step fmt S max_size) start ([0], own_store).
Proof.
  apply (rtc_l _ _ ([0], arr_store)); [by eapply (step_array _ _ _ [] [] [])|].
  apply (rtc_l _ _ ([1; 0], obj_store)); [by eapply (step_object _ _ _ [0] [0] [(str "x", SlVar (VBool true))])|].
  apply (rtc_l _ _ ([1; 0], idx_store)); [eapply (step_index _ _ _ [1; 0] 0 0 (KInt 0)); by vm_compute|].
  apply rtc_once. eapply (step_own _ _ _ [1; 0] [0] (RValue (RIdx 0 1 0)) (Some 1)); [done|by vm_compute].
Qed.

Lemma ownership_is_exact_witness :
  [0] ++ owns own_store ≡ₚ (map_to_list (heap own_store)).*1 ∧
  (∀ a, a ∈ [0] → ∃ s', destroy_slot (SlObj (Some a)) own_store = Ok s' ∧
     ∀ b, (rtc (owns_rel own_store) a b → heap s' !! b = None) ∧
          (¬ rtc (owns_rel own_store) a b → heap s' !! b = heap own_store !! b)).
Proof. apply (ownership_is_exact fmt S max_size). exact run. Defined.

(** a property of the object in the array *)
Definition own_object := Eval vm_compute in default (mkObject false [] [] 0 0) (heap own_store !! 1).
Lemma own_exact : exact [0] own_store.
Proof. eapply reachable_exact. exact run. Qed.
Lemma property_read_after_write_witness :
  ∃ s1 s2 o2, findOrAdd 1 (str "y") own_store = Ok (RValue (RKey 1 (str "y")), s1) ∧
    assign_var (RValue (RKey 1 (str "y"))) (VBool false) s1 = Ok (RValue (RKey 1 (str "y")), s2) ∧
    to_var (RValue (RKey 1 (str "y"))) s2 = Ok (VBool false) ∧
    findOrAdd 1 (str "y") s2 = Ok (RValue (RKey 1 (str "y")), s2) ∧
    heap s2 !! 1 = Some o2 ∧ arrayValues o2 = arrayValues own_object ∧
    (∀ k', k' ≠ str "y" → kv_find k' (keyValuePairs o2) = kv_find k' (keyValuePairs own_object)) ∧
    (∀ b, b ≠ 1 → (∀ x, kv_find (str "y") (keyValuePairs own_object) = Some x → ¬ below own_store [x] b) →
       heap s2 !! b = heap own_store !! b).
Proof.
  apply (property_read_after_write [0] 1 (str "y") (VBool false) own_store own_object).
  - exact own_exact.
  - by vm_compute.
  - intros x Hx. by vm_compute in Hx.
Defined.

(** the array prints, an object that contains itself does not *)
Lemma toString_terminates_witness :
  (∃ r, r ≠ NoFuel ∧ ∀ fuel, 2 < fuel → obj_str fmt fuel own_store (Some 0) = r) ∧
  (∀ fuel, obj_str fmt fuel (put 0 (mkObject false [(str "me", SlVar (VSoft (Some 0)))] [] 0 0) own_store) (Some 0) = NoFuel).
Proof.
  split.
  - refine (proj1 (toString_terminates fmt own_store (λ a, 1 - a) (λ _, False)) _ 0).
    intros a o x b Ho Hx Hb. assert (Hlt : a < 2) by (apply (exact_next _ _ own_exact); by eexists).
    destruct a as [|[|a]]; [..|lia]; vm_compute in Ho; simplify_eq.
    + apply elem_of_cons in Hx as [->|Hx]; [cbn in Hb; simplify_eq; cbn; lia|by apply elem_of_nil in Hx].
    + apply elem_of_cons in Hx as [->|Hx]; [done|by apply elem_of_nil in Hx].
  - intros fuel. refine (proj2 (toString_terminates fmt _ (λ _, 0) (λ a, a = 0)) _ fuel 0 eq_refl).
    intros a ->. eexists _, _, 0. split; [apply lookup_insert_eq|]. by split_and!.
Defined.

Lemma array_index_witness :
  (∃ o', index_obj fmt max_size 0 0 (KInt 3) arr_store = Ok (RValue (RIdx 0 (gen o') 3), put 0 o' arr_store) ∧
     length (arrayValues o') = 4) ∧
  index_obj fmt max_size 0 0 (KInt (-1)) arr_store = UB.
Proof.
  destruct (array_index fmt max_size 0 arr_store (mkObject true [] [] 0 0) 0 3) as ((o' & Hi & _ & _ & Hl & _) & _ & Hneg);
    [by vm_compute|done|cbn; lia|unfold max_size; lia|cbn; lia|].
  split; [|exact Hneg]. exists o'. by split.
Defined.
End JsObjectExample.
