(* ===== verification/JsModules.v ===== *)
(** * Modules and random numbers of the JavaScript layer (include/nodecpp/nls.h, include/nodecpp/js_compat.h)

    [Module Modules]: [require] makes one object for each class of modules and
    keeps it in [JSModuleMap]; the constructor of a module is what it requires, in
    order. [Module LCG]: the generator of [JSMath::random].

    [Module JsModulesSpec] shows that each module is constructed once, after those
    it needs, that modules which require each other are constructed for ever, and
    that a step of the generator is a permutation without a fixed point. *)

From S2P Require Import Prelude.
From stdpp Require Import gmap.
From Stdlib Require Import Lia.

Module Modules.
Abbreviation cls := nat (only parsing).   (* [std::type_index] *)

Section defs.
(** the classes the constructor of a module requires *)
Context (deps : cls → list cls).

(** [JSModuleMap] with the object of each class; objects are numbered as they
    are constructed, and [log] has the classes whose constructor has returned,
    latest first *)
Record t : Type := mk { classModuleMap : gmap cls nat; constructed : nat; log : list cls }.
Definition init : t := mk ∅ 0 [].

Definition getJsModuleExported (c : cls) (m : t) : option nat := classModuleMap m !! c.
Definition addJsModuleExported (c : cls) (p : nat) (m : t) : res (nat * t) :=
  ASSERT bool_decide (classModuleMap m !! c = None) ;;
  Ok (p, mk (<[c := p]> (classModuleMap m)) (constructed m) (log m)).
Definition make_owning (c : cls) (m : t) : nat * t := (constructed m, mk (classModuleMap m) (S (constructed m)) (c :: log m)).

(** [require<T>()] and the [require]s of a constructor; the fuel is the depth of
    the constructors that are running *)
Fixpoint require (fuel : nat) (c : cls) (m : t) : res (nat * t) :=
  match getJsModuleExported c m with
  | Some p => Ok (p, m)
  | None =>
      match fuel with
      | O => NoFuel
      | S fuel =>
          m ← foldl (λ r d, m ← r; '(_, m) ← require fuel d m; Ok m) (Ok m) (deps c);
          let '(p, m) := make_owning c m in
          addJsModuleExported c p m
      end
  end.
Definition require_all (fuel : nat) (ds : list cls) (m : t) : res t :=
  foldl (λ r d, m ← r; '(_, m) ← require fuel d m; Ok m) (Ok m) ds.
End defs.
End Modules.

Module LCG.
Definition a : Z := 500713.
Definition c : Z := 138041.
Definition init : Z := 0x12345.
Definition seed (seed_ : Z) : Z := u64 seed_.
(** the state afterwards *)
Definition next (s : Z) : Z := u64 (a * s + c).
Definition rnd (s : Z) : Z * Z := (next s, u32 (Z.shiftr (next s) 16)).
(** [normalizedRnd], as the fraction of which it is the [double] *)
Definition normalizedRnd (s : Z) : Z * (Z * Z) := (next s, (u32 (Z.shiftr (next s) 16), 2 ^ 32)%Z).
End LCG.

Module JsModulesSpec.
Import Modules.
Section modules.
Context (deps : nat → list nat).
Implicit Types (m : t) (c d : nat).
#[local] Abbreviation require := (require deps).
#[local] Abbreviation require_all := (require_all deps).

Lemma require_all_nil fuel m : require_all fuel [] m = Ok m.
Proof. done. Qed.
Lemma foldl_stuck fuel ds (r : res t) : (∀ m, r ≠ Ok m) →
  foldl (λ r d, m ← r; '(_, m) ← require fuel d m; Ok m) r ds = r.
Proof.
  intros Hr. induction ds as [|d ds IH]; [done|]. cbn. destruct r as [m| | | |]; try done. by destruct (Hr m).
Qed.
Lemma require_all_cons fuel d ds m : require_all fuel (d :: ds) m = ('(_, m) ← require fuel d m; require_all fuel ds m).
Proof.
  unfold Modules.require_all. cbn [foldl mbind res_bind]. destruct (require fuel d m) as [[p m']| | | |] eqn:Hd; try done;
    cbn [mbind res_bind]; by rewrite foldl_stuck.
Qed.
Lemma require_unfold fuel c m : require (S fuel) c m =
  match classModuleMap m !! c with
  | Some p => Ok (p, m)
  | None => m ← require_all fuel (deps c) m; let '(p, m) := make_owning c m in addJsModuleExported c p m
  end.
Proof. done. Qed.

(** the classes in the map are those whose constructor has returned, once *)
Record wf m : Prop := mkWf {
  wf_dom : ∀ c, is_Some (classModuleMap m !! c) ↔ c ∈ log m;
  wf_once : NoDup (log m);
  wf_before : ∀ l c l', log m = l ++ c :: l' → ∀ d, d ∈ deps c → d ∈ l';
}.
Lemma modules_init_wf : wf init.
Proof.
  split; cbn; [|constructor|by intros [|? ?]]. intros c. rewrite lookup_empty. split; [by intros []|by intros ?%elem_of_nil].
Qed.

(** what [require] leaves: a longer log that ends in the one before it *)
Definition extends m m' : Prop := ∃ l, log m' = l ++ log m ∧ ∀ c p, classModuleMap m !! c = Some p → classModuleMap m' !! c = Some p.
Lemma extends_refl m : extends m m.
Proof. by exists []. Qed.
Lemma extends_trans m1 m2 m3 : extends m1 m2 → extends m2 m3 → extends m1 m3.
Proof. intros (l1 & H1 & E1) (l2 & H2 & E2). exists (l2 ++ l1). split; [by rewrite H2, H1, app_assoc|naive_solver]. Qed.

Section rank.
Context (rank : nat → nat) (Hrank : ∀ c d, d ∈ deps c → rank d < rank c).

(** what is made below a class has a lower rank *)
Lemma require_spec fuel : (∀ c m, rank c < fuel → wf m →
    ∃ p m', require fuel c m = Ok (p, m') ∧ wf m' ∧ extends m m' ∧ classModuleMap m' !! c = Some p ∧
      ∀ d, rank c < rank d → d ∈ log m' → d ∈ log m) ∧
  (∀ n ds m, (∀ d, d ∈ ds → rank d < n) → n ≤ fuel → wf m →
    ∃ m', require_all fuel ds m = Ok m' ∧ wf m' ∧ extends m m' ∧ (∀ d, d ∈ ds → d ∈ log m') ∧
      ∀ d, n ≤ rank d → d ∈ log m' → d ∈ log m).
Proof.
  induction fuel as [|fuel [IH1 IH2]].
  - split; [intros; lia|]. intros n ds m Hds Hn Hwf. destruct ds as [|d ds]; [|specialize (Hds d ltac:(by left)); lia].
    exists m. split_and!; [done|done|apply extends_refl|by intros ? ?%elem_of_nil|done].
  - assert (H1 : ∀ c m, rank c < S fuel → wf m →
      ∃ p m', require (S fuel) c m = Ok (p, m') ∧ wf m' ∧ extends m m' ∧ classModuleMap m' !! c = Some p ∧
        ∀ d, rank c < rank d → d ∈ log m' → d ∈ log m).
    { intros c m Hc Hwf. rewrite require_unfold. destruct (classModuleMap m !! c) as [p|] eqn:Hm.
      { exists p, m. split_and!; [done|done|apply extends_refl|done|done]. }
      destruct (IH2 (rank c) (deps c) m (Hrank c) ltac:(lia) Hwf) as (m1 & Hr & [Hd Ho Hb] & Hext & Hin & Hnew).
      rewrite Hr. cbn [mbind res_bind make_owning]. unfold addJsModuleExported. cbn [classModuleMap].
      assert (Hnot : c ∉ log m1).
      { intros Hc1%Hnew; [|lia]. apply (wf_dom _ Hwf) in Hc1 as [? Hc1]. by rewrite Hm in Hc1. }
      assert (Hnone : classModuleMap m1 !! c = None) by (apply eq_None_not_Some; by rewrite Hd).
      rewrite bool_decide_eq_true_2 by done. eexists _, _. split; [done|]. split_and!.
      - split; cbn [classModuleMap log].
        + intros d. rewrite elem_of_cons, <-Hd. destruct (decide (d = c)) as [->|Hne].
          * rewrite lookup_insert_eq. split; [by left|by eexists].
          * rewrite lookup_insert_ne by done. naive_solver.
        + by constructor.
        + intros [|c1 l] c2 l' Heq d Hdd; cbn in Heq; simplify_eq; [by apply Hin|by eapply Hb].
      - destruct Hext as (l & Hl & He). exists (c :: l). cbn. split; [by rewrite Hl|]. intros d p Hp.
        rewrite lookup_insert_ne; [by apply He|]. intros ->. by rewrite Hm in Hp.
      - cbn. apply lookup_insert_eq.
      - cbn. intros d Hlt [->|Hd']%elem_of_cons; [lia|]. apply Hnew; [lia|done]. }
    split; [exact H1|]. intros n ds. induction ds as [|d ds IH]; intros m Hds Hn Hwf.
    { exists m. split_and!; [done|done|apply extends_refl|by intros ? ?%elem_of_nil|done]. }
    rewrite require_all_cons. pose proof (Hds d ltac:(by left)) as Hd.
    destruct (H1 d m ltac:(lia) Hwf) as (p & m1 & Hr & Hwf1 & Hext & Hp & Hnew). rewrite Hr. cbn [mbind res_bind].
    destruct (IH m1) as (m2 & Hr2 & Hwf2 & Hext2 & Hin & Hnew2); [intros e He; apply Hds; by right|done|done|].
    exists m2. split_and!; [done|done|by eapply extends_trans| |].
    + intros e [->|He]%elem_of_cons; [|by apply Hin]. destruct Hext2 as (l & -> & _). apply elem_of_app. right.
      apply (wf_dom _ Hwf1). by eexists.
    + intros e He Hin2. apply Hnew; [lia|]. by apply Hnew2.
Qed.
End rank.

(** more fuel gives the same result *)
Lemma require_mono fuel fuel' c m p m' : fuel ≤ fuel' → require fuel c m = Ok (p, m') → require fuel' c m = Ok (p, m').
Proof.
  revert fuel' c m p m'. induction fuel as [|fuel IH]; intros fuel' c m p m' Hle Hr.
  - cbn in Hr. unfold getJsModuleExported in Hr. destruct (classModuleMap m !! c) eqn:Hm; [|done].
    destruct fuel'; cbn; unfold getJsModuleExported; by rewrite Hm.
  - destruct fuel' as [|fuel']; [lia|]. rewrite require_unfold in Hr |- *. destruct (classModuleMap m !! c); [done|].
    assert (Hall : ∀ ds m m1, require_all fuel ds m = Ok m1 → require_all fuel' ds m = Ok m1).
    { induction ds as [|d ds IHds]; intros m0 m1; [done|]. rewrite !require_all_cons.
      destruct (require fuel d m0) as [[p0 m2]| | | |] eqn:Hd; try done. cbn [mbind res_bind].
      rewrite (IH fuel' _ _ _ _ ltac:(lia) Hd). cbn [mbind res_bind]. apply IHds. }
    destruct (require_all fuel (deps c) m) as [m1| | | |] eqn:Ha; try done. by rewrite (Hall _ _ _ Ha).
Qed.

(** When no module needs itself, [require] returns the one object of its
    class, each class that is needed has been constructed once and after the
    classes it requires, and requiring it again returns the same object and
    constructs nothing; a class that needs itself, directly or through others, is
    constructed for ever. *)
Theorem modules_constructed_once (rank : nat → nat) (P : nat → Prop) c m :
  wf m →
  ((∀ c d, d ∈ deps c → rank d < rank c) →
   ∃ p m', (∀ fuel, rank c < fuel → require fuel c m = Ok (p, m')) ∧ wf m' ∧ extends m m' ∧ c ∈ log m' ∧
     ∀ fuel, require fuel c m' = Ok (p, m')) ∧
  ((∀ c, P c → classModuleMap m !! c = None ∧ ∃ d ds, deps c = d :: ds ∧ P d) → P c → ∀ fuel, require fuel c m = NoFuel).
Proof.
  intros Hwf. split.
  - intros Hrank. destruct (proj1 (require_spec rank Hrank (S (rank c))) c m ltac:(lia) Hwf) as (p & m' & Hr & Hwf' & Hext & Hp & _).
    exists p, m'. split_and!; [|done|done|apply (wf_dom _ Hwf'); by eexists|].
    + intros fuel Hf. eapply require_mono; [exact Hf|exact Hr].
    + intros [|fuel]; cbn; unfold getJsModuleExported; by rewrite Hp.
  - intros HP Hc fuel. revert c Hc. induction fuel as [|fuel IH]; intros c Hc; destruct (HP c Hc) as (Hm & d & ds & Hd & HPd).
    + cbn. unfold getJsModuleExported. by rewrite Hm.
    + rewrite require_unfold, Hm, Hd, require_all_cons. by rewrite (IH d HPd).
Qed.
End modules.

(** ** Random numbers *)
Import LCG.

(** A step of the generator is a permutation of the 64-bit states without a
    fixed point, whatever the seed, and a normalized number is a fraction of at
    least 0 and less than 1. *)
Theorem generator_steps (s s' : Z) :
  (0 ≤ s < 2 ^ 64)%Z → (0 ≤ s' < 2 ^ 64)%Z →
  (0 ≤ next s < 2 ^ 64)%Z ∧ (next s = next s' → s = s') ∧ next s ≠ s ∧
  (normalizedRnd s).1 = (rnd s).1 ∧ (0 ≤ (normalizedRnd s).2.1 < (normalizedRnd s).2.2)%Z.
Proof.
  intros Hs Hs'. assert (Hnext : ∀ s, ∃ k, next s = (a * s + c - 2 ^ 64 * k)%Z).
  { intros z. exists ((a * z + c) / 2 ^ 64)%Z. unfold next, u64. rewrite Z.mod_eq; lia. }
  split; [apply u64_range|]. split_and!; [| |done|cbn; apply Z_mod_lt; lia|cbn; apply Z_mod_lt; lia].
  - destruct (Hnext s) as [k ->], (Hnext s') as [k' ->]. intros Heq.
    assert (Hdiv : (2 ^ 64 | a * (s - s'))%Z) by (exists (k - k')%Z; unfold a in *; lia).
    apply Z.gauss in Hdiv as [q Hq]; [|by vm_compute]. lia.
  - destruct (Hnext s) as [k ->]. unfold a, c. lia.
Qed.
End JsModulesSpec.

(** ** Runs *)
Module JsModulesExample.
Import Modules JsModulesSpec.

(** module 0 needs 1 and 2, 1 needs 2, 3 needs itself *)
Definition deps (c : nat) : list nat := match c with 0 => [1; 2] | 1 => [2] | 3 => [3] | _ => [] end.
Definition deps' (c : nat) : list nat := match c with 0 => [1; 2] | 1 => [2] | _ => [] end.
Definition rank (c : nat) : nat := 2 - c.
Lemma modules_constructed_once_witness :
  (∃ p m', (∀ fuel, 2 < fuel → require deps' fuel 0 init = Ok (p, m')) ∧ 0 ∈ log m' ∧ NoDup (log m')) ∧
  (∀ fuel, require deps fuel 3 init = NoFuel).
Proof.
  split.
  - destruct (proj1 (modules_constructed_once deps' rank (λ _, False) 0 init (modules_init_wf _))) as (p & m' & Hr & Hwf & _ & Hc & _).
    + intros [|[|c]] d Hd; cbn in Hd; rewrite ?elem_of_cons, elem_of_nil in Hd; unfold rank; naive_solver lia.
    + exists p, m'. split_and!; [exact Hr|exact Hc|apply Hwf].
  - apply (proj2 (modules_constructed_once deps rank (λ c, c = 3) 3 init (modules_init_wf _))); [|done].
    intros c ->. split; [done|]. by exists 3, [].
Defined.
Lemma generator_steps_witness : LCG.next LCG.init ≠ LCG.init ∧ (LCG.next 0 = LCG.next 1 → (0 = 1)%Z).
Proof.
  split; [apply (generator_steps LCG.init LCG.init); by vm_compute|apply (generator_steps 0 1); lia].
Defined.
End JsModulesExample.
