(* ===== verification/Threads.v ===== *)
(** * What the threads of a cluster share (include/nodecpp/cluster.h,
    src/clustering_impl/interthread_comm.h, clustering.cpp, src/tcp_socket/listener_thread.cpp)

    [Module Msg]: the messages. A message is a tag and the bytes of a struct; the
    receiver looks at the tag, asserts that there are enough bytes and casts.
    [Module Threads]: the slots of the threads with their queues, the load of
    the workers, the table of the listener threads and the operating system (the
    threads are of one process and share its descriptors); posting a message,
    receiving what the awaker socket announces, and making a thread.

    The queue of a slot is the list of the messages it holds (RingQueue.v shows
    that it behaves so). A thread that posts to a full queue waits inside
    [postInterThreadMsg]; posting here is what happens once there is room. *)

From S2P Require Import Prelude HttpMessage InterThread TcpSocket Address Server.
From Stdlib Require Import Lia.

Module Msg.
Import ThreadSlots.

Inductive InterThreadMsgType : Type :=
  | UserDefined | ThreadStarted | ThreadTerminate | ServerListening | ConnAccepted | ServerError
  | ServerCloseRequest | ServerClosedNotification | RequestToListeningThread | Infrastructural | GlobalMQ | Undefined.
#[export] Instance type_eq_dec : EqDecision InterThreadMsgType.
Proof. solve_decision. Defined.

Record ListeningEvMsg : Type := mkListeningEv { le_requestID : Z }.
Record ConnAcceptedEvMsg : Type := mkConnAccepted {
  ca_requestID : Z; serverIdx : Z; socket : Z; ip : Ip.Ip4; uport : Ip.Port;
}.
Record ServerErrorEvMsg : Type := mkServerError { se_requestID : Z }.
Record ServerCloseNotificationMsg : Type := mkCloseNotification { cn_requestID : Z; cn_entryIdx : Z; hasError : bool }.
Record ListeningRequestMsg : Type := mkListeningRequest {
  lr_requestID : Z; lr_entryIndex : Z; lr_ip : Ip.Ip4; lr_port : Z; lr_backlog : Z; lr_family : Ip.Family;
}.
Record ServerCloseRequestMsg : Type := mkCloseRequest { cr_requestID : Z; cr_entryIdx : Z }.
Record ThreadStartedReportMsg : Type := mkThreadStarted { ts_requestID : Z }.

Inductive RequestType : Type :=
  | NoRequest | AddServerSocket | CreateSharedServerSocket | RemoveServerSocket | CloseSharedServerSocket.
Record RequestToListenerThread : Type := mkRequest {
  rq_type : RequestType; rq_entryIndex : Z; rq_socket : Z; rq_ip : Ip.Ip4; rq_port : Ip.Port; rq_backlog : Z;
}.

(** the bytes of a message: those of one of the structs *)
Inductive payload : Type :=
  | PListeningEv (m : ListeningEvMsg)
  | PConnAccepted (m : ConnAcceptedEvMsg)
  | PServerError (m : ServerErrorEvMsg)
  | PCloseNotification (m : ServerCloseNotificationMsg)
  | PListeningRequest (m : ListeningRequestMsg)
  | PCloseRequest (m : ServerCloseRequestMsg)
  | PThreadStarted (m : ThreadStartedReportMsg)
  | PRequest (m : RequestToListenerThread).

(** [sizeof] on a 64-bit machine, with the padding *)
Definition sizeof_ListeningEvMsg : Z := 8.
Definition sizeof_ConnAcceptedEvMsg : Z := 32.
Definition sizeof_ServerErrorEvMsg : Z := 16.
Definition sizeof_ServerCloseNotificationMsg : Z := 24.
Definition sizeof_ListeningRequestMsg : Z := 32.
Definition sizeof_ServerCloseRequest : Z := 16.
Definition sizeof_ThreadStartedReportMsg : Z := 8.
Definition sizeof_RequestToListenerThread : Z := 40.
Definition availableSize (p : payload) : Z :=
  match p with
  | PListeningEv _ => sizeof_ListeningEvMsg
  | PConnAccepted _ => sizeof_ConnAcceptedEvMsg
  | PServerError _ => sizeof_ServerErrorEvMsg
  | PCloseNotification _ => sizeof_ServerCloseNotificationMsg
  | PListeningRequest _ => sizeof_ListeningRequestMsg
  | PCloseRequest _ => sizeof_ServerCloseRequest
  | PThreadStarted _ => sizeof_ThreadStartedReportMsg
  | PRequest _ => sizeof_RequestToListenerThread
  end.

(** [ASSERT( sizeof(S) <= sz )], then [reinterpret_cast<const S*>]: the bytes of
    another struct mean nothing *)
Definition cast {A} (sizeof : Z) (as_ : payload → option A) (p : payload) : res A :=
  ASSERT bool_decide (sizeof ≤ availableSize p)%Z ;;
  match as_ p with Some m => Ok m | None => UB end.
Definition as_ConnAccepted (p : payload) : res ConnAcceptedEvMsg :=
  cast sizeof_ConnAcceptedEvMsg (λ p, match p with PConnAccepted m => Some m | _ => None end) p.
Definition as_ServerError (p : payload) : res ServerErrorEvMsg :=
  cast sizeof_ServerErrorEvMsg (λ p, match p with PServerError m => Some m | _ => None end) p.
Definition as_CloseNotification (p : payload) : res ServerCloseNotificationMsg :=
  cast sizeof_ServerCloseNotificationMsg (λ p, match p with PCloseNotification m => Some m | _ => None end) p.
Definition as_ListeningRequest (p : payload) : res ListeningRequestMsg :=
  cast sizeof_ListeningRequestMsg (λ p, match p with PListeningRequest m => Some m | _ => None end) p.
Definition as_CloseRequest (p : payload) : res ServerCloseRequestMsg :=
  cast sizeof_ServerCloseRequest (λ p, match p with PCloseRequest m => Some m | _ => None end) p.
Definition as_Request (p : payload) : res RequestToListenerThread :=
  cast sizeof_RequestToListenerThread (λ p, match p with PRequest m => Some m | _ => None end) p.

Record InterThreadMsg : Type := mk {
  msg : payload; msgType : InterThreadMsgType; sourceThreadID : ThreadID; targetThreadID : ThreadID;
}.
End Msg.

Module Threads.
Import Msg ThreadSlots.
#[local] Existing Instance Tcp.ret_eq_dec.

Section defs.
Context {W : Type} `{!OS W, !ServerOS W}.

(** The postmen of the slots are for another infrastructure: there are none. *)
Abbreviation slots_t := (ThreadSlots.t Empty_set).

Record t : Type := mk {
  threadQueues : slots_t;
  queues : list (list InterThreadMsg);
  workerLoad : WorkerLoad.t ThreadID;
  listeners : Listeners.t;
  os : W;
}.
Definition with_slots (x : slots_t) (s : t) : t := mk x (queues s) (workerLoad s) (listeners s) (os s).
Definition with_queues (x : list (list InterThreadMsg)) (s : t) : t := mk (threadQueues s) x (workerLoad s) (listeners s) (os s).
Definition with_load (x : WorkerLoad.t ThreadID) (s : t) : t := mk (threadQueues s) (queues s) x (listeners s) (os s).
Definition with_listeners (x : Listeners.t) (s : t) : t := mk (threadQueues s) (queues s) (workerLoad s) x (os s).
Definition with_os (x : W) (s : t) : t := mk (threadQueues s) (queues s) (workerLoad s) (listeners s) x.

Definition queue_push (i : nat) (m : InterThreadMsg) (qs : list (list InterThreadMsg)) : list (list InterThreadMsg) :=
  alter (λ q, q ++ [m]) i qs.

(** [thisThreadDescriptor.threadID] is [self] *)
Definition postInterThreadMsg (self : ThreadID) (m : payload) (ty : InterThreadMsgType) (target : ThreadID) (s : t) : res t :=
  '(slot, writeHandle) ← post_check target (threadQueues s);
  let s := with_queues (queue_push slot (Msg.mk m ty self target) (queues s)) s in
  '(w, (ret, sentSize)) ← Tcp.internal_send_packet [Some x01] writeHandle (os s);
  ASSERT bool_decide (ret = Tcp.RET_OK) ;;
  ASSERT bool_decide (sentSize = 1) ;;
  Ok (with_os w s).

(** [pop_front( messages, count )] waits while there is no message *)
Definition popFrontFromThisThreadQueue (self : ThreadID) (count : nat) (s : t) : option (t * list InterThreadMsg) :=
  let i := Z.to_nat (slotId self) in
  match queues s !! i with
  | Some (m :: q) => Some (with_queues (<[i := drop count (m :: q)]> (queues s)) s, take count (m :: q))
  | _ => None
  end.

Definition getListeners (s : t) : list ThreadID * nat := Listeners.getListeners (listeners s).
Definition getLeastLoadedWorkerAndIncrementLoad (s : t) : res (t * ThreadID) :=
  '(l, id) ← WorkerLoad.getCandidateAndIncrementLoad (workerLoad s);
  Ok (with_load l s, id).
Definition addWorkerEntryForLoadTracking (id : ThreadID) (s : t) : res (t * nat) :=
  '(l, i) ← WorkerLoad.addWorker id (workerLoad s);
  Ok (with_load l s, i).
Definition decrementWorkerLoadCtr (idx : nat) (s : t) : res t :=
  l ← WorkerLoad.decrementLoadCtr idx (workerLoad s);
  Ok (with_load l s).

(** ** The awaker socket *)
Definition maxMsgCnt : nat := 8.

(** The part of [pollPhase2] of every thread for an awaker socket that is
    ready: [onInterthreadMessage] is what the thread does with a message, [A]
    its own state. A byte without a message would make the reader wait for a
    message that was not announced: an error of the protocol. *)
Fixpoint on_messages {A} (onInterthreadMessage : InterThreadMsg → A * t → res (A * t)) (ms : list InterThreadMsg)
    (s : A * t) : res (A * t) :=
  match ms with
  | [] => Ok s
  | m :: ms => s ← onInterthreadMessage m s; on_messages onInterthreadMessage ms s
  end.

Definition awaker_event {A} (onInterthreadMessage : InterThreadMsg → A * t → res (A * t)) (self : ThreadID)
    (awakerSock : Z) (revents : Z) (s : A * t) : res (A * t) :=
  if Tcp.has revents Tcp.POLLIN then
    '(w, (ret, recvBuffer)) ← Tcp.internal_get_packet_bytes2 awakerSock maxMsgCnt (os s.2);
    let s := (s.1, with_os w s.2) in
    if bool_decide (ret = Tcp.RET_OK) then
      let actaulFromSock := length recvBuffer in
      ASSERT bool_decide (actaulFromSock ≤ maxMsgCnt) ;;
      match popFrontFromThisThreadQueue self actaulFromSock s.2 with
      | None => AssertFail
      | Some (sh, thq) =>
          ASSERT bool_decide (length thq = actaulFromSock) ;;
          on_messages onInterthreadMessage thq (s.1, sh)
      end
    else Ok (s.1, with_os (sys_so_error awakerSock (os s.2)).1 s.2)
  else Ok s.

(** ** Making a thread *)

(** [OSLayer::appAcquireSocket] *)
Definition appAcquireSocket (w : W) : res (W * Z) :=
  let '(w, sk) := Tcp.internal_make_tcp_socket w in
  if bool_decide (sk = Tcp.INVALID_SOCKET) then Thrown else Ok (w, sk).

Definition acquireSocketAndLetInterThreadCommServerListening (ip4 : Ip.Ip4) (backlog : Z) (w : W) : res (W * Z * Z) :=
  '(w, s) ← appAcquireSocket w;
  let '(w, bound) := sys_bind s ip4 (Ip.Port_fromNetwork 0) w in
  if negb bound then Thrown
  else
    let '(w, port) := Server.internal_port_of_tcp_socket s w in
    if bool_decide (port = 0%Z) then Thrown
    else
      let '(w, listens) := sys_listen s backlog w in
      if (listens : bool) then Ok (w, s, port) else Thrown.

(** the connecting end with its port, the accepted end with that of its peer *)
Definition acquireAndConnectSocketForInterThreadComm (interThreadCommServerSock : Z) (address : string)
    (destinationPort : Z) (w : W) : res (W * ((Z * Z) * (Z * Z))) :=
  '(w, s) ← appAcquireSocket w;
  let '(w, r) := sys_connect s address destinationPort w in
  match r with
  | Some Broken => Thrown
  | _ =>
      let '(w, sourcePort) := Server.internal_port_of_tcp_socket s w in
      if bool_decide (sourcePort = 0%Z) then Thrown
      else
        let '(w, acc) := Server.internal_tcp_accept interThreadCommServerSock w in
        match acc with
        | None => Thrown
        | Some (newSock, _, remotePort) => Ok (w, ((s, sourcePort), (newSock, Ip.Port_getHost remotePort)))
        end
  end.

(** [InterThreadCommInitializer] after [init]: its server *)
Record InterThreadCommInitializer : Type := mkInit { myServerPort : Z; myServerSocket : Z }.

(** the handles to read from and to write to *)
Definition generateHandlePair (i : InterThreadCommInitializer) (w : W) : res (W * (Z * Z)) :=
  '(w, ((s, sourcePort), (newSock, peerPort))) ←
    acquireAndConnectSocketForInterThreadComm (myServerSocket i) "127.0.01" (myServerPort i) w;
  ASSERT bool_decide (sourcePort = peerPort) ;;
  Ok (w, (s, newSock)).

(** [initInterThreadCommSystemAndGetReadHandleForMainThread]; [loopback] is
    [Ip4::parse( "127.0.01" )] *)
Definition initInterThreadComm (loopback : Ip.Ip4) (s : t) : res (t * InterThreadCommInitializer * Z) :=
  '(w, srv, port) ← acquireSocketAndLetInterThreadCommServerListening loopback 128 (os s);
  let i := mkInit port srv in
  '(w, (readHandle, writeHandle)) ← generateHandlePair i w;
  match threadQueues s with
  | [] => UB
  | d :: ds =>
      d ← CommData.setWriteHandleForFirstUse writeHandle d;
      Ok (with_slots (d :: ds) (with_os w s), i, readHandle)
  end.

(** [preinitThreadStartupData]: the new thread's address and its read handle *)
Definition newThread (i : InterThreadCommInitializer) (s : t) : res (t * ThreadID * Z) :=
  '(w, (readHandle, writeHandle)) ← generateHandlePair i (os s);
  '(sl, id) ← ThreadSlots.preinitThreadStartupData writeHandle (threadQueues s);
  Ok (with_slots sl (with_os w s), id, readHandle).

(** [createListenerThread]: what the master does for it *)
Definition createListenerThread (i : InterThreadCommInitializer) (s : t) : res (t * ThreadID * Z) :=
  '(s, id, readHandle) ← newThread i s;
  '(l, _) ← Listeners.add id (listeners s);
  Ok (with_listeners l s, id, readHandle).
End defs.
Arguments t : clear implicits.
End Threads.
