(* ===== verification/Startup.v ===== *)
(** * The start of a program and its logs (src/infra_main.cpp, src/infrastructure.h, include/nodecpp/logging.h)

    [Startup] is what happens before and around the loops: the factories of the
    node classes, which register themselves before [main], [main] in both builds,
    [Runnable::internalRun] over the loop of EventLoop.v, and the listener threads
    that the master starts, as many as its command line says, over the threads of
    Threads.v. [Logs] is the handles of logging.h: the log of a worker is that of
    the master with the same number. The logs themselves are those of a library
    that is not part of the repository, a parameter. *)

From S2P Require Import Prelude.
From S2P Require Import Buffers.
From S2P Require Import Timers.
From S2P Require Import Events.
From S2P Require Import InterThread.
From S2P Require Import NetRegistry.
From S2P Require Import TcpSocket.
From S2P Require Import TcpSocketSpec.
From S2P Require Import HttpMessage.
From S2P Require Import Address.
From S2P Require Import Server.
From S2P Require Import ServerSpec.
From S2P Require Import EventLoop.
From S2P Require Import EventLoopSpec.
From S2P Require Import Threads.
From Stdlib Require Import Lia.

Module Startup.
Import Str.

(** ** The factories *)
Section factories.
Context {F : Type}.

(** [NodeFactoryMap]: a null pointer, or a map in the order of the names *)
Definition factoryMap : Type := option (list (list u8 * F)).

(** [std::less] on strings: bytes as unsigned *)
Fixpoint less (a b : list u8) : bool :=
  match a, b with
  | _, [] => false
  | [], _ => true
  | x :: a, y :: b => bool_decide (Z_of_u8 x < Z_of_u8 y)%Z || (bool_decide (x = y) && less a b)
  end.
Fixpoint insert_ordered (name : list u8) (f : F) (m : list (list u8 * F)) : list (list u8 * F) :=
  match m with
  | [] => [(name, f)]
  | (k, g) :: m' => if less name k then (name, f) :: m else (k, g) :: insert_ordered name f m'
  end.

Definition registerFactory (name : list u8) (f : F) (m : factoryMap) : res factoryMap :=
  let m := default [] m in
  ASSERT bool_decide (name ∉ m.*1) ;; Ok (Some (insert_ordered name f m)).
Fixpoint register_all (l : list (list u8 * F)) (m : factoryMap) : res factoryMap :=
  match l with [] => Ok m | (name, f) :: l => m ← registerFactory name f m; register_all l m end.

(** [main] and [workerThreadMain] from the assertion on; [run] is [create()->run(...)] *)
Definition main {S : Type} (run : F → S → res S) (m : factoryMap) (s : S) : res S :=
  match m with
  | None => UB
  | Some l => ASSERT bool_decide (length l = 1) ;; foldl (λ r f, s ← r; run f.2 s) (Ok s) l
  end.
End factories.
Arguments factoryMap : clear implicits.

(** ** A node, in the build without clustering *)
Section node.
Context {Ob W CB H : Type} `{Countable Ob} `{!Infinite Ob}.
Context `{!OS W, !ServerOS W, !LoopOS W}.
Context (grow : nat → nat) (inet_addr : list u8 → Z).
Abbreviation world := (EventLoop.world (Ob := Ob) (W := W) (CB := CB)).
Abbreviation infra := (Timers.t CB H * world)%type.
Context (user : Ob → Tcp.Event → Tcp.mgr Ob (NetRegistry.NetRegistry.t Ob) W → list (Tcp.Cmd Ob W)).
Context (suser : Ob → Server.SEvent Ob → Server.net Ob W CB → list (Server.Cmd Ob W)).
Context (call : CB → infra → res (infra * bool)) (resume : H → infra → res infra).
Context (setCoroStatus : H → CoroStandardOutcomes → world → world).

(** [Infrastructure()] *)
Definition new_infra (w : W) : infra :=
  (Timers.init,
   EventLoop.mkWorld
     (Server.mk (Tcp.mk ∅ (NetRegistry.NetRegistry.init ∅) [] [] Buffer.empty_buffer w []) ∅ ∅ ∅ [] [] [] []) [] true).

(** [node_main] is the constructor of the node and its [main()] *)
Definition internalRun (turns fuel : nat) (node_main : infra → res infra) (w : W) : res infra :=
  s ← EventLoop.doBasicInitialization grow (new_infra w);
  s ← node_main s;
  EventLoop.runStandardLoop grow inet_addr user suser call resume setCoroStatus turns fuel s.
End node.

(** ** The listener threads of the master *)
Section master.
Context {W : Type} `{!OS W, !ServerOS W}.

Definition numlisteners : list u8 := str "numlisteners=".
(** the last argument that says so counts; [atol] gives a [long], the count is a [size_t] *)
Definition listener_arg (a : list u8) : option Z :=
  if bool_decide (13 < length a) && bool_decide (take 13 a = numlisteners) then Some (u64 (atol (drop 13 a))) else None.
Definition listenerCnt (argv : list (list u8)) : Z :=
  foldl (λ cnt a, default cnt (listener_arg a)) 1%Z (drop 1 argv).

Fixpoint create_listeners (fuel : nat) (ini : Threads.InterThreadCommInitializer) (i cnt : Z) (s : Threads.t W) : res (Threads.t W) :=
  if bool_decide (i < cnt)%Z then
    match fuel with
    | O => NoFuel
    | S fuel => '(s, _, _) ← Threads.createListenerThread ini s; create_listeners fuel ini (i + 1) cnt s
    end
  else Ok s.

(** [internalRun] of the master, up to its node: the awaker socket of the master is
    the handle that is returned *)
Definition start_master (loopback : Ip.Ip4) (argv : list (list u8)) (s : Threads.t W) : res (Threads.t W * Z) :=
  '(s, ini, readHandle) ← Threads.initInterThreadComm loopback s;
  s ← create_listeners ThreadSlots.MAX_THREADS ini 0 (listenerCnt argv) s;
  Ok (s, readHandle).
End master.
End Startup.

(** ** The handles of logs *)
Module Logs.
Section defs.
(** the [Log] of the library: a new one, and what a call does to it *)
Context {L : Type} (new_log : L).

(** [log_] is a pointer; [master] is [clusterIsMaster()] *)
Record handle : Type := mkHandle { log_ : option nat; ordinal : Z }.

(** the objects, [logging_impl::logs], [ordinalBase] of each thread *)
Record t : Type := mk { objects : gmap nat L; next : nat; logs : list nat; ordinalBase : gmap nat nat }.
Definition init : t := mk ∅ 0 [] ∅.

(** [Log()] in thread [w]; the ordinal of the master is read by nothing *)
Definition construct (master : bool) (w : nat) (s : t) : t * handle :=
  if master then
    let logs := logs s ++ [next s] in
    (mk (<[next s := new_log]> (objects s)) (S (next s)) logs (ordinalBase s), mkHandle (Some (next s)) (Z.of_nat (length logs)))
  else
    let n := default 0 (ordinalBase s !! w) in
    (mk (objects s) (next s) (logs s) (<[w := S n]> (ordinalBase s)), mkHandle (logs s !! n) (Z.of_nat n)).

(** [~Log()] *)
Definition destruct_log (master : bool) (h : handle) (s : t) : res t :=
  match log_ h with
  | Some p =>
      if master then
        REQUIRE bool_decide (is_Some (objects s !! p)) ;;
        Ok (mk (delete p (objects s)) (next s) (logs s) (ordinalBase s))
      else Ok s
  | None => Ok s
  end.

(** what goes through the pointer when there is one: [log], [setLevel] and [clear]
    from every thread, [setGuaranteedLevel], [resetGuaranteedLevel] and [add] from
    the master *)
Definition through (f : L → L) (h : handle) (s : t) : res t :=
  match log_ h with
  | Some p => match objects s !! p with Some l => Ok (mk (<[p := f l]> (objects s)) (next s) (logs s) (ordinalBase s)) | None => UB end
  | None => Ok s
  end.
Definition log_call (f : L → L) (h : handle) (s : t) : res t := through f h s.
Definition master_call (f : L → L) (master : bool) (h : handle) (s : t) : res t :=
  if master then through f h s else Ok s.
Definition add (f : L → L * bool) (master : bool) (h : handle) (s : t) : res (t * bool) :=
  match log_ h with
  | Some p =>
      if master then
        match objects s !! p with
        | Some l => Ok (mk (<[p := (f l).1]> (objects s)) (next s) (logs s) (ordinalBase s), (f l).2)
        | None => UB
        end
      else Ok (s, false)
  | None => Ok (s, false)
  end.

(** ** A program: the threads make logs, write to them and let them go *)
Inductive event : Type :=
  | New (w : nat) | Gone (w k : nat) | Write (w k : nat) (f : L → L).
(** thread 0 is the master; [handles] is what each thread has made, in order *)
Record program : Type := mkProgram { process : t; handles : gmap nat (list handle) }.
Definition is_master (w : nat) : bool := bool_decide (w = 0).
Definition of_thread (w : nat) (s : program) : list handle := default [] (handles s !! w).
Definition step (e : event) (s : program) : res program :=
  match e with
  | New w =>
      let '(p, h) := construct (is_master w) w (process s) in
      Ok (mkProgram p (<[w := of_thread w s ++ [h]]> (handles s)))
  | Gone w k =>
      match of_thread w s !! k with
      | Some h => p ← destruct_log (is_master w) h (process s); Ok (mkProgram p (handles s))
      | None => Ok s
      end
  | Write w k f =>
      match of_thread w s !! k with
      | Some h => p ← log_call f h (process s); Ok (mkProgram p (handles s))
      | None => Ok s
      end
  end.
Fixpoint run (es : list event) (s : program) : res program :=
  match es with [] => Ok s | e :: es => s ← step e s; run es s end.
Definition start : program := mkProgram init ∅.
End defs.
Arguments t : clear implicits.
Arguments event : clear implicits.
Arguments program : clear implicits.
End Logs.

(** ** Theorems about logs *)
Module LogsSpec.
Import Logs.
Section spec.
Context {L : Type} (new_log : L).
Abbreviation step := (step new_log).
Abbreviation run := (run new_log).
Implicit Types s : program L.

Record inv s : Prop := {
  inv_count : length (of_thread 0 s) = length (logs (process s));
  inv_master : ∀ k h, of_thread 0 s !! k = Some h → log_ h = logs (process s) !! k;
  inv_base : ∀ w, w ≠ 0 → default 0 (ordinalBase (process s) !! w) = length (of_thread w s);
}.

Lemma of_thread_add w h (p : t L) s : of_thread w (mkProgram p (<[w := of_thread w s ++ [h]]> (handles s))) = of_thread w s ++ [h].
Proof. unfold of_thread at 1. cbn. by rewrite lookup_insert_eq. Qed.
Lemma of_thread_add_other w v h (p : t L) s : w ≠ v →
  of_thread v (mkProgram p (<[w := of_thread w s ++ [h]]> (handles s))) = of_thread v s.
Proof. intros Hv. unfold of_thread at 1. cbn. by rewrite lookup_insert_ne. Qed.

(** what is done through handles changes neither the handles nor what new ones are made from *)
Definition same_handles s s' : Prop :=
  handles s' = handles s ∧ logs (process s') = logs (process s) ∧ ordinalBase (process s') = ordinalBase (process s).
Lemma step_same e s s' : step e s = Ok s' → (∀ w, e ≠ New w) → same_handles s s'.
Proof.
  intros Hs He. destruct e as [w|w k|w k f]; cbn [Logs.step] in Hs; [by destruct (He w)| |].
  - destruct (of_thread w s !! k); [|by injection Hs as <-]. unfold destruct_log in Hs. by open_eq.
  - destruct (of_thread w s !! k); [|by injection Hs as <-]. unfold log_call, through in Hs. by open_eq.
Qed.

Lemma same_inv s s' : same_handles s s' → inv s → inv s'.
Proof.
  intros (Hh & Hl & Hb) [H1 H2 H3]. unfold of_thread in *. constructor; unfold of_thread; by rewrite ?Hh, ?Hl, ?Hb.
Qed.

Lemma step_inv e s s' : inv s → step e s = Ok s' → inv s'.
Proof.
  intros Hinv Hs. destruct e as [w| |]; [|eapply same_inv; [eapply step_same; [exact Hs|done]|done]..].
  cbn [Logs.step] in Hs. unfold construct, is_master in Hs. destruct Hinv as [H1 H2 H3]. case_bool_decide as Hw.
  - subst w. injection Hs as <-. constructor; cbn [process].
    + rewrite of_thread_add. cbn. rewrite !length_app. cbn. lia.
    + intros k h. rewrite of_thread_add. cbn. intros [Hk|[Hk Hl]]%lookup_app_Some.
      * rewrite (H2 _ _ Hk). symmetry. apply lookup_app_l. rewrite <-H1. by eapply lookup_lt_Some.
      * apply list_lookup_singleton_Some in Hl as [Hl <-]. cbn. symmetry.
        replace k with (length (logs (process s))) by lia. by rewrite lookup_app_r, Nat.sub_diag.
    + intros w Hw. rewrite of_thread_add_other by done. cbn. by apply H3.
  - injection Hs as <-. constructor; cbn [process].
    + rewrite of_thread_add_other by done. done.
    + intros k h. rewrite of_thread_add_other by done. apply H2.
    + intros v Hv. cbn [ordinalBase]. destruct (decide (w = v)) as [<-|Hwv].
      * rewrite of_thread_add, lookup_insert_eq. cbn. rewrite H3, length_app by done. cbn. lia.
      * rewrite of_thread_add_other, lookup_insert_ne by done. by apply H3.
Qed.

Lemma run_inv es s s' : inv s → run es s = Ok s' → inv s'.
Proof.
  revert s. induction es as [|e es IH]; intros s Hs Hr; cbn [Logs.run] in Hr; [by injection Hr as <-|].
  apply bind_Ok_inv in Hr as (s1 & He & Hr). eapply IH, Hr. by eapply step_inv.
Qed.
Lemma start_inv : inv start.
Proof. by constructor. Qed.

(** handles stay what they are *)
Lemma step_keeps e s s' w k h : step e s = Ok s' → of_thread w s !! k = Some h → of_thread w s' !! k = Some h.
Proof.
  intros Hs Hk. destruct e as [v| |]; [|pose proof (step_same _ _ _ Hs) as (Hh & _); [done|unfold of_thread in *; by rewrite Hh]..].
  cbn [Logs.step] in Hs. destruct (construct _ _ _ _) as [p h']. injection Hs as <-.
  destruct (decide (v = w)) as [<-|Hv]; [rewrite of_thread_add; by apply lookup_app_l_Some|by rewrite of_thread_add_other].
Qed.
Lemma run_keeps es s s' w k h : run es s = Ok s' → of_thread w s !! k = Some h → of_thread w s' !! k = Some h.
Proof.
  revert s. induction es as [|e es IH]; intros s Hr Hk; cbn [Logs.run] in Hr; [by injection Hr as <-|].
  apply bind_Ok_inv in Hr as (s1 & He & Hr). eapply IH; [exact Hr|]. by eapply step_keeps.
Qed.

(** a new handle of a worker *)
Lemma new_of_worker w s : inv s → w ≠ 0 →
  ∃ s', step (New w) s = Ok s' ∧ process s' = (construct new_log false w (process s)).1 ∧
    of_thread w s' = of_thread w s ++ [mkHandle (h ← of_thread 0 s !! length (of_thread w s); log_ h) (Z.of_nat (length (of_thread w s)))] ∧
    of_thread 0 s' = of_thread 0 s.
Proof.
  intros Hinv Hw. cbn [Logs.step]. unfold is_master. rewrite bool_decide_eq_false_2 by done. cbn [construct].
  rewrite (inv_base _ Hinv) by done. eexists. split; [done|]. split; [done|]. rewrite of_thread_add, of_thread_add_other by done.
  split; [|done]. do 3 f_equal. destruct (of_thread 0 s !! _) as [h|] eqn:Hh; cbn.
  - symmetry. by apply (inv_master _ Hinv).
  - apply lookup_ge_None_2. rewrite <-(inv_count _ Hinv). by apply lookup_ge_None_1.
Qed.

(** The log with number [k] of a worker is the log with number [k] of the master,
    provided that the master has made it before: writing to one is writing to the
    other. A worker that comes first gets a handle without a log, and what is written
    to it is lost, also after the master has made its log. *)
Theorem worker_log_is_masters es s w (f : L → L) : run es start = Ok s → w ≠ 0 →
  let k := length (of_thread w s) in
  ∃ s', step (New w) s = Ok s' ∧
    if bool_decide (k < length (of_thread 0 s)) then step (Write w k f) s' = step (Write 0 k f) s'
    else ∀ es' s'', run es' s' = Ok s'' → step (Write w k f) s'' = Ok s''.
Proof.
  intros Hr Hw k. pose proof (run_inv _ _ _ start_inv Hr) as Hinv.
  destruct (new_of_worker w s Hinv Hw) as (s' & Hs & _ & Hnew & Hm). exists s'. split; [exact Hs|]. fold k in Hnew.
  assert (Hk : of_thread w s' !! k = Some (mkHandle (h ← of_thread 0 s !! k; log_ h) (Z.of_nat k)))
    by (rewrite Hnew; by apply list_lookup_middle).
  case_bool_decide as Hlt.
  - apply lookup_lt_is_Some in Hlt as [h Hh]. cbn [Logs.step]. rewrite Hk, Hm, Hh. done.
  - intros es' s'' Hr'. apply (run_keeps _ _ _ _ _ _ Hr') in Hk. cbn [Logs.step]. rewrite Hk.
    rewrite lookup_ge_None_2 by lia. cbn. by destruct s''.
Qed.

(** A log of the master that has ended is still in the list from which workers take
    theirs: a worker that takes it writes to memory that was freed. *)
Theorem ended_log_is_given_out es s s1 w (f : L → L) : run es start = Ok s → w ≠ 0 →
  let k := length (of_thread w s) in
  k < length (of_thread 0 s) → step (Gone 0 k) s = Ok s1 →
  ∃ s2, step (New w) s1 = Ok s2 ∧ step (Write w k f) s2 = UB.
Proof.
  intros Hr Hw k Hlt Hg. pose proof (run_inv _ _ _ start_inv Hr) as Hinv.
  pose proof (step_inv _ _ _ Hinv Hg) as Hinv1. pose proof (step_same _ _ _ Hg) as (Hh & Hl & _); [done|].
  assert (Hof : ∀ v, of_thread v s1 = of_thread v s) by (intros v; unfold of_thread; by rewrite Hh).
  destruct (new_of_worker w s1 Hinv1 Hw) as (s2 & Hs & Hp & Hnew & _). exists s2. split; [exact Hs|].
  rewrite !Hof in Hnew. fold k in Hnew. apply lookup_lt_is_Some in Hlt as [h Hk].
  cbn [Logs.step]. rewrite Hnew, list_lookup_middle by done. rewrite Hk. cbn [mbind option_bind log_ log_call through].
  cbn [Logs.step] in Hg. rewrite Hk in Hg. unfold destruct_log in Hg. unfold through. cbn [log_].
  assert (is_Some (logs (process s) !! k)) as [q Hq].
  { apply lookup_lt_is_Some. rewrite <-(inv_count _ Hinv). by eapply lookup_lt_Some. }
  rewrite (inv_master _ Hinv _ _ Hk), Hq in *. unfold is_master in Hg.
  rewrite (bool_decide_eq_true_2 (0 = 0)) in Hg by done. open_eq.
  rewrite Hp. unfold log_call, through. cbn. by rewrite lookup_delete_eq.
Qed.
End spec.
End LogsSpec.

(** ** Theorems about the start *)
Module StartupSpec.
Import Startup ThreadSlots.

Section listeners.
Context {W : Type} `{!OS W, !ServerOS W}.
Implicit Types s : Threads.t W.

(** the slots a thread may still get *)
Definition free (qs : ThreadSlots.t Empty_set) : nat :=
  length (filter (λ d, CommData.status d = CommData.unused) (drop 1 qs)).

Lemma preinit_free h (qs : ThreadSlots.t Empty_set) : ThreadSlots.wf qs →
  halts (λ '(qs', _), ThreadSlots.wf qs' ∧ free qs = S (free qs')) (preinitThreadStartupData h qs).
Proof.
  intros [Hlen Hwf]. unfold preinitThreadStartupData. destruct qs as [|d0 qs]; [done|].
  pose proof (proj1 (Forall_cons _ _ _) Hwf) as [Hd0 Hwfq].
  destruct (ThreadSlots.acquire_from_spec 1 h qs Hwfq) as [(j & d & Hj & Hu & _ & ->)|[_ ->]]; [|done].
  rewrite bind_Ok. cbn [halts]. split.
  - split; [cbn; rewrite length_insert; exact Hlen|]. constructor; [done|]. apply Forall_insert; [done|].
    constructor; cbn; [done|by right|apply u64_range].
  - unfold free. cbn [drop]. rewrite !drop_0. rewrite insert_take_drop by (by eapply lookup_lt_Some).
    rewrite <-(take_drop_middle qs j d Hj) at 1. rewrite !filter_app, !filter_cons, !length_app.
    rewrite decide_True by done. rewrite decide_False by done. cbn. lia.
Qed.

Lemma generateHandlePair_halts ini (w : W) : halts (λ _, True) (Threads.generateHandlePair ini w).
Proof.
  unfold Threads.generateHandlePair, Threads.acquireAndConnectSocketForInterThreadComm, Threads.appAcquireSocket.
  repeat first [done | progress cbn | case_match].
Qed.

Lemma createListenerThread_free ini s : ThreadSlots.wf (Threads.threadQueues s) →
  halts (λ '(s', _, _), ThreadSlots.wf (Threads.threadQueues s') ∧ free (Threads.threadQueues s) = S (free (Threads.threadQueues s')))
    (Threads.createListenerThread ini s).
Proof.
  intros Hwf. unfold Threads.createListenerThread, Threads.newThread.
  pose proof (generateHandlePair_halts ini (Threads.os s)) as Hg.
  destruct (Threads.generateHandlePair _ _) as [[w [rh wh]]| | | |]; [|done..]. rewrite bind_Ok.
  pose proof (preinit_free wh _ Hwf) as Hp. destruct (preinitThreadStartupData _ _) as [[sl id]| | | |]; [|done..].
  rewrite !bind_Ok. unfold Listeners.add. repeat case_match; done.
Qed.

Lemma create_listeners_free fuel ini i cnt s :
  ThreadSlots.wf (Threads.threadQueues s) → free (Threads.threadQueues s) < fuel →
  halts (λ s', free (Threads.threadQueues s) = Z.to_nat (cnt - i) + free (Threads.threadQueues s')) (create_listeners fuel ini i cnt s).
Proof.
  revert i s. induction fuel as [|fuel IH]; intros i s Hwf Hf; [lia|]. cbn [create_listeners].
  case_bool_decide as Hi; [|cbn; lia].
  pose proof (createListenerThread_free ini s Hwf) as Hc. destruct (Threads.createListenerThread ini s) as [[[s1 id] rh]| | | |]; [|done..].
  rewrite bind_Ok. destruct Hc as [Hwf1 Hf1]. eapply halts_impl; [apply IH; [done|lia]|]. cbn. intros s' Hs'. lia.
Qed.

Lemma initInterThreadComm_free loopback s : Threads.threadQueues s = ThreadSlots.init →
  halts (λ '(s', _, _), ThreadSlots.wf (Threads.threadQueues s') ∧ free (Threads.threadQueues s') = MAX_THREADS - 1)
    (Threads.initInterThreadComm loopback s).
Proof.
  intros Hs. unfold Threads.initInterThreadComm, Threads.acquireSocketAndLetInterThreadCommServerListening, Threads.appAcquireSocket.
  destruct (Tcp.internal_make_tcp_socket _) as [w sk]. case_bool_decide; [done|]. rewrite bind_Ok.
  destruct (sys_bind _ _ _ _) as [w1 bound]. destruct bound; [|done]. cbn [negb].
  destruct (Server.internal_port_of_tcp_socket _ _) as [w2 port]. case_bool_decide; [done|].
  destruct (sys_listen _ _ _) as [w3 l]. destruct l; [|done]. rewrite bind_Ok.
  pose proof (generateHandlePair_halts (Threads.mkInit port sk) w3) as Hg.
  destruct (Threads.generateHandlePair _ _) as [[w4 [rh wh]]| | | |]; [|done..]. rewrite bind_Ok, Hs.
  change (ThreadSlots.init (P:=Empty_set)) with (CommData.init (P:=Empty_set) :: replicate (MAX_THREADS - 1) CommData.init). unfold CommData.setWriteHandleForFirstUse.
  change (CommData.first_use_ok (P:=Empty_set) CommData.init) with true. cbn beta iota. rewrite bind_Ok. cbn [halts Threads.threadQueues Threads.with_slots].
  split; [split; [reflexivity|]|reflexivity]. constructor; [constructor; cbn; [done|by right|lia]|].
  apply Forall_replicate. apply CommData.commdata_wf_init.
Qed.

(** C35. The start of the master comes to an end whatever its command line asks for: each
    listener thread takes one slot, so that it goes through only when the number is below
    [MAX_THREADS], and then so many slots fewer are free. A larger number, such as that of
    [numlisteners=-1], ends in the assertion on the last slot. *)
Theorem master_starts_listeners (loopback : Ip.Ip4) (argv : list (list u8)) s :
  Threads.threadQueues s = ThreadSlots.init →
  halts (λ '(s', _), (listenerCnt argv < Z.of_nat MAX_THREADS)%Z ∧
      free (Threads.threadQueues s') = MAX_THREADS - 1 - Z.to_nat (listenerCnt argv))
    (start_master loopback argv s).
Proof.
  intros Hs. unfold start_master. eapply halts_bind.
  - apply (initInterThreadComm_free loopback s Hs).
  - intros [[s1 ini] rh] [Hwf Hf]. eapply halts_bind; [apply create_listeners_free; [exact Hwf|rewrite Hf; unfold MAX_THREADS; lia]|].
    cbn beta. rewrite Hf. intros s2 Hs2. cbn [halts]. unfold MAX_THREADS in *. split; lia.
Qed.
End listeners.

(** ** The number of listeners *)
Section numbers.
Import Str.
#[local] Existing Instance pretty.pretty_N.

Lemma digit_spec d : (d < 10)%N →
  let c := Ascii.byte_of_ascii (pretty.pretty_N_char d) in is_digit c = true ∧ (Z_of_u8 c - 48 = Z.of_N d)%Z.
Proof.
  intros Hd. assert (d = 0 ∨ d = 1 ∨ d = 2 ∨ d = 3 ∨ d = 4 ∨ d = 5 ∨ d = 6 ∨ d = 7 ∨ d = 8 ∨ d = 9)%N as Hc by lia.
  repeat destruct Hc as [->|Hc]; [by vm_compute..|]. subst. by vm_compute.
Qed.

Lemma atol_digits_go x s : atol_digits (str (pretty.pretty_N_go x s)) 0 = atol_digits (str s) (Z.of_N x).
Proof.
  revert s. induction (N.lt_wf_0 x) as [x _ IH]; intros s. destruct (decide (x = 0)%N) as [->|Hx]; [by rewrite pretty.pretty_N_go_0|].
  rewrite pretty.pretty_N_go_step by lia. rewrite IH by (apply N.div_lt; lia).
  destruct (digit_spec (x `mod` 10)) as [Hd Hz]; [apply N.mod_lt; lia|]. cbv zeta in Hd, Hz.
  change (str (String ?c s)) with (Ascii.byte_of_ascii c :: str s). cbn [atol_digits]. rewrite Hd, Hz. f_equal.
  rewrite N2Z.inj_div, N2Z.inj_mod. pose proof (Z.div_mod (Z.of_N x) 10). lia.
Qed.

(** a string that begins with a digit *)
Definition starts (s : list u8) : Prop := match s with c :: _ => is_digit c = true | [] => False end.
Lemma go_starts x s : (0 < x)%N ∨ starts (str s) → starts (str (pretty.pretty_N_go x s)).
Proof.
  revert s. induction (N.lt_wf_0 x) as [x _ IH]; intros s Hs. destruct (decide (x = 0)%N) as [->|Hx].
  { rewrite pretty.pretty_N_go_0. destruct Hs; [lia|done]. }
  rewrite pretty.pretty_N_go_step by lia. apply IH; [apply N.div_lt; lia|]. right.
  apply (digit_spec (x `mod` 10)). apply N.mod_lt. lia.
Qed.
Lemma decimal_starts n : starts (decimal n).
Proof.
  unfold decimal, pretty.pretty, pretty.pretty_N. destruct (decide (n = 0)%N); [done|]. apply go_starts. left. lia.
Qed.

(** [atol] reads what was printed *)
Lemma atol_decimal n : (Z.of_N n < 2 ^ 63)%Z → atol (decimal n) = Z.of_N n.
Proof.
  intros Hn. assert (Hd : atol_digits (decimal n) 0 = Z.of_N n).
  { unfold decimal, pretty.pretty, pretty.pretty_N. destruct (decide (n = 0)%N) as [->|]; [done|]. by rewrite atol_digits_go. }
  pose proof (decimal_starts n) as Hs. unfold atol. destruct (decimal n) as [|c cs]; [done|]. cbn [starts] in Hs.
  cbn [skip]. unfold is_digit in Hs. apply bool_decide_eq_true_1 in Hs. rewrite bool_decide_eq_false_2 by lia.
  assert (Hsign : c ≠ x2d ∧ c ≠ x2b) by (split; intros ->; cbn in Hs; lia).
  destruct c; (exfalso; destruct Hsign; congruence) || (rewrite Hd; lia).
Qed.

(** The master makes the number of listener threads that its command line gives: what
    is printed into [numlisteners=] is read back, of several the last counts, and other
    arguments and the name of the program do not. *)
Theorem listenerCnt_reads prog (before after : list (list u8)) n :
  (Z.of_N n < 2 ^ 63)%Z → Forall (λ a, listener_arg a = None) after →
  listenerCnt (prog :: before ++ (numlisteners ++ decimal n) :: after) = Z.of_N n.
Proof.
  intros Hn Hafter. unfold listenerCnt. cbn [drop]. rewrite drop_0, foldl_app. cbn [foldl].
  assert (Hlen : 0 < length (decimal n)) by (pose proof (decimal_starts n); destruct (decimal n); [done|cbn; lia]).
  assert (Harg : listener_arg (numlisteners ++ decimal n) = Some (Z.of_N n)).
  { unfold listener_arg. rewrite length_app, bool_decide_eq_true_2 by (cbn; lia).
    rewrite (take_app_length' _ _ 13), (drop_app_length' _ _ 13) by done. rewrite bool_decide_eq_true_2 by done. cbn [andb].
    rewrite atol_decimal, u64_small by lia. done. }
  rewrite Harg. cbn [default]. induction Hafter as [|a l Ha Hl IH]; [done|]. cbn [foldl]. by rewrite Ha.
Qed.
End numbers.

(** ** Factories *)
Section factories.
Context {F : Type}.

Lemma length_insert_ordered name (f : F) m : length (insert_ordered name f m) = S (length m).
Proof. induction m as [|[k g] m IH]; [done|]. cbn. case_match; cbn; by rewrite ?IH. Qed.

Lemma register_all_length (l : list (list u8 * F)) m m' :
  register_all l m = Ok m' → length (default [] m') = length l + length (default [] m).
Proof.
  revert m. induction l as [|[name f] l IH]; intros m Hr; cbn [register_all] in Hr; [by injection Hr as <-|].
  apply bind_Ok_inv in Hr as (m1 & H1 & Hr). rewrite (IH _ Hr). unfold registerFactory in H1. inv_res. cbn.
  rewrite length_insert_ordered. lia.
Qed.
Lemma register_all_some (l : list (list u8 * F)) m : is_Some m ∨ l ≠ [] →
  match register_all l m with Ok m' => is_Some m' | AssertFail => True | _ => False end.
Proof.
  revert m. induction l as [|[name f] l IH]; intros m Hm; cbn [register_all]; [by destruct Hm|].
  unfold registerFactory. destruct (bool_decide _); [|done]. cbn. apply IH. by left.
Qed.

(** A program runs one node: if exactly one class was registered, [main] runs it; if
    none was, [main] asks a null pointer for its size; two, of one name or of different
    names, fail an assertion. *)
Theorem main_runs_one_node {S : Type} (run : F → S → res S) (l : list (list u8 * F)) (s : S) :
  (m ← register_all l None; main run m s) =
  match l with [] => UB | [(_, f)] => run f s | _ => AssertFail end.
Proof.
  destruct l as [|[n f] [|[n' f'] l]]; [done|reflexivity|].
  assert (Hs : (n, f) :: (n', f') :: l ≠ []) by discriminate.
  pose proof (register_all_some ((n, f) :: (n', f') :: l) None (or_intror Hs)) as Hr. clear Hs.
  pose proof (register_all_length ((n, f) :: (n', f') :: l) None) as Hm. revert Hr Hm.
  generalize (register_all ((n, f) :: (n', f') :: l) None). intros [m| | | |] Hs Hm; cbn beta iota in Hs; try done.
  destruct Hs as [x ->]. specialize (Hm _ eq_refl). cbn in Hm. rewrite bind_Ok. unfold main.
  by rewrite bool_decide_eq_false_2 by (rewrite Hm; lia).
Qed.
End factories.

(** ** A node that has nothing to do *)
Section node.
Context {Ob W CB H : Type} `{Countable Ob} `{!Infinite Ob}.
Context `{!OS W, !ServerOS W, !LoopOS W}.
Context (grow : nat → nat) (inet_addr : list u8 → Z).
Context (user : Ob → Tcp.Event → Tcp.mgr Ob (NetRegistry.NetRegistry.t Ob) W → list (Tcp.Cmd Ob W)).
Context (suser : Ob → Server.SEvent Ob → Server.net Ob W CB → list (Server.Cmd Ob W)).
Abbreviation infra := (Timers.t CB H * EventLoop.world (Ob := Ob) (W := W) (CB := CB))%type.
Context (call : CB → infra → res (infra * bool)) (resume : H → infra → res infra).
Context (setCoroStatus : H → CoroStandardOutcomes →
  EventLoop.world (Ob := Ob) (W := W) (CB := CB) → EventLoop.world (Ob := Ob) (W := W) (CB := CB)).

(** A node whose [main] leaves no socket or server registered, no event to report, no
    immediate and no timer ends after one turn of the loop, in which nothing is waited
    for and none of its code is called. *)
Theorem idle_program_ends turns fuel (node_main : infra → res infra) (w : W) (s : infra) :
  node_main (new_infra w) = Ok s → EventLoop.running s.2 = true →
  EventLoopSpec.unpolled s (EventLoopSpec.clock1 s) → EventLoop.refedTimeout s = false →
  internalRun grow inet_addr user suser call resume setCoroStatus (S turns) fuel node_main w = Ok (EventLoopSpec.after_clock s).
Proof.
  intros Hmain Hrun Hun Href. unfold internalRun, EventLoop.doBasicInitialization, EventLoop.on_net, EventLoop.reworkIfNecessary.
  rewrite EventLoopSpec.rework_same; [|done|cbn; unfold NetRegistry.NetRegistry.compactionMinSize; lia].
  cbn [mbind res_bind].
  match goal with |- context [node_main ?x] => change x with (new_infra (Ob := Ob) (CB := CB) (H := H) w) end.
  rewrite Hmain. cbn [mbind res_bind EventLoop.runStandardLoop]. rewrite Hrun, EventLoopSpec.turn_unpolled, Href by done. done.
Qed.
End node.
End StartupSpec.

(** ** Concrete programs *)
Module StartupExample.
Import Startup StartupSpec Logs LogsSpec Str.
Import TcpExample ServerExample EventLoopExample.

Example two_nodes_fail : (m ← register_all [(str "b", 1); (str "a", 2)] None; main (λ f (s : list nat), Ok (f :: s)) m []) = AssertFail.
Proof. reflexivity. Qed.
Example one_name_twice_fails : register_all [(str "a", 1); (str "a", 2)] None = AssertFail.
Proof. reflexivity. Qed.

(** *** Listeners *)
Definition threads : Threads.t system :=
  Threads.mk ThreadSlots.init (replicate ThreadSlots.MAX_THREADS []) WorkerLoad.init Listeners.init world2.
Definition started (arg : string) : res (Threads.t system * Z) :=
  start_master (Ip.Ip4_fromNetwork 16777343) [str "prog"; str arg] threads.

Lemma master_starts_listeners_witness :
  is_ok (started "numlisteners=3") = true ∧
  halts (λ '(s', _), free (Threads.threadQueues s') = 124) (started "numlisteners=3").
Proof.
  split; [vm_compute; reflexivity|].
  apply (halts_impl (λ '(s', _), (listenerCnt [str "prog"; str "numlisteners=3"] < Z.of_nat ThreadSlots.MAX_THREADS)%Z ∧
    free (Threads.threadQueues s') = ThreadSlots.MAX_THREADS - 1 - Z.to_nat (listenerCnt [str "prog"; str "numlisteners=3"]))).
  - apply (master_starts_listeners (Ip.Ip4_fromNetwork 16777343) [str "prog"; str "numlisteners=3"] threads). reflexivity.
  - intros [s' rh] [_ Hf]. rewrite Hf. vm_compute. reflexivity.
Defined.

Example negative_number_fails : started "numlisteners=-1" = AssertFail.
Proof. vm_compute. reflexivity. Qed.
(** 0, or what is not a number, leaves the master without listener threads *)
Example no_number_no_listeners : listenerCnt [str "prog"; str "numlisteners=many"] = 0%Z.
Proof. reflexivity. Qed.

Lemma listenerCnt_reads_witness : listenerCnt [str "prog"; str "numlisteners=7"; str "numlisteners="] = 7%Z.
Proof. apply (listenerCnt_reads (str "prog") [] [str "numlisteners="] 7); [lia|]. constructor; [reflexivity|constructor]. Defined.

(** *** A node whose [main] does nothing *)
Definition empty_node : infra := new_infra world2.
Lemma idle_program_ends_witness :
  internalRun NetRegistry.NetRegistrySpec.double no_addr quiet_sockets quiet_user no_call no_resume no_status 1 0 Ok world2 =
  Ok (EventLoopSpec.after_clock empty_node).
Proof.
  apply (idle_program_ends NetRegistry.NetRegistrySpec.double no_addr quiet_sockets quiet_user no_call no_resume no_status
    0 0 Ok world2 empty_node); try reflexivity.
  constructor; reflexivity.
Defined.

(** *** Logs of strings *)
Definition made : program (list nat) := match run [] [New 0] start with Ok s => s | _ => start end.

Lemma worker_log_is_masters_witness :
  ∃ s', step [] (New 1) made = Ok s' ∧ step [] (Write 1 0 (cons 7)) s' = step [] (Write 0 0 (cons 7)) s'.
Proof. apply (worker_log_is_masters [] [New 0] made 1 (cons 7)); [reflexivity|discriminate]. Defined.

Definition ended : program (list nat) := match step [] (Gone 0 0) made with Ok s => s | _ => start end.
Lemma ended_log_is_given_out_witness :
  ∃ s2, step [] (New 1) ended = Ok s2 ∧ step [] (Write 1 0 (cons 7)) s2 = UB.
Proof.
  apply (ended_log_is_given_out [] [New 0] made ended 1 (cons 7)); [reflexivity|discriminate|vm_compute; lia|reflexivity].
Defined.
End StartupExample.
