(* ===== verification/ListenerThread.v ===== *)
(** * Listener threads (src/tcp_socket/listener_thread_impl.h, listener_thread.cpp)

    A listener thread polls the listening sockets the master has told it of and
    sends every connection it accepts to a worker. [NetSocketsForListenerThread],
    [ListenerThreadWorker] and [NetServerManagerForListenerThread] are one
    record here: the table of descriptors, the agents and the flag [running]. The
    threads' shared state (Threads.v) is passed along. An agent is never
    destroyed while it is in the table, so the pointer of an entry is null only
    where none was put. *)

From S2P Require Import Prelude HttpMessage InterThread NetRegistry TcpSocket Address Server EventLoop Threads.
From Stdlib Require Import Lia.

(** [setsockopt( sock, SOL_SOCKET, SO_REUSEPORT, ... )] *)
Class ListenerOS (W : Type) := { sys_reuse_port : Z → W → W * bool }.

Module Listener.
Import Msg ThreadSlots.
#[local] Existing Instances Tcp.ret_eq_dec Server.state_eq_dec.
Abbreviation pollfd := NetRegistry.NetRegistry.pollfd.
Abbreviation mkFd := NetRegistry.NetRegistry.mkFd.
Abbreviation fd := NetRegistry.NetRegistry.fd.
Abbreviation events := NetRegistry.NetRegistry.events.
Abbreviation revents := NetRegistry.NetRegistry.revents.

(** [DataForCommandProcessing] of [AgentServer] and [entryIndexAtSlave] *)
Record AgentServer : Type := mkAgent {
  entryIndexAtSlave : Z;
  index : nat;
  a_refed : bool;
  osSocket : Z;
  a_state : Server.State;
  localAddress : Server.Address;
}.
Definition set_index (i : nat) (a : AgentServer) : AgentServer :=
  mkAgent (entryIndexAtSlave a) i (a_refed a) (osSocket a) (a_state a) (localAddress a).
Definition set_socket (sk : Z) (a : AgentServer) : AgentServer :=
  mkAgent (entryIndexAtSlave a) (index a) (a_refed a) sk (a_state a) (localAddress a).
(** the family of the thread's manager *)
Definition family : Ip.Family := Ip.family_of (Str.str "IPv4").
Definition set_listening (a : AgentServer) : AgentServer :=
  mkAgent (entryIndexAtSlave a) (index a) true (osSocket a) (a_state a)
    (Server.mkAddress (Server.a_port (localAddress a)) family (Server.a_ip (localAddress a))).

Inductive EntryState : Type := Unused | SockIssued | SockAssociated | SockClosed.
#[export] Instance entry_state_eq_dec : EqDecision EntryState.
Proof. solve_decision. Defined.

Record Entry : Type := mkEntry { e_state : EntryState; e_index : nat; e_refed : bool; ptr : option nat }.
Definition empty_entry (i : nat) : Entry := mkEntry Unused i false None.

Record t : Type := mk {
  ourSide : list Entry;
  osSide : list pollfd;
  associatedCount : nat;
  usedCount : nat;
  agents : gmap nat AgentServer;           (* the objects *)
  agentServers : list (option nat);        (* and their owners *)
  running : bool;
  accepted : list Z;                       (* what was accepted; the code does not read it *)
}.
Definition with_our (x : list Entry) (s : t) : t :=
  mk x (osSide s) (associatedCount s) (usedCount s) (agents s) (agentServers s) (running s) (accepted s).
Definition with_os (x : list pollfd) (s : t) : t :=
  mk (ourSide s) x (associatedCount s) (usedCount s) (agents s) (agentServers s) (running s) (accepted s).
Definition with_counts (a u : nat) (s : t) : t :=
  mk (ourSide s) (osSide s) a u (agents s) (agentServers s) (running s) (accepted s).
Definition with_agents (x : gmap nat AgentServer) (s : t) : t :=
  mk (ourSide s) (osSide s) (associatedCount s) (usedCount s) x (agentServers s) (running s) (accepted s).
Definition with_owners (x : list (option nat)) (s : t) : t :=
  mk (ourSide s) (osSide s) (associatedCount s) (usedCount s) (agents s) x (running s) (accepted s).
Definition log_accepted (sk : Z) (s : t) : t :=
  mk (ourSide s) (osSide s) (associatedCount s) (usedCount s) (agents s) (agentServers s) (running s) (accepted s ++ [sk]).

(** ** The table *)
Definition awakerSockIdx : nat := 1.
Definition reserved_capacity : nat := 2.
Definition compactionMinSize : nat := 32.
Definition zero_fd : pollfd := mkFd 0 0 0.
Definition no_fd : pollfd := mkFd Tcp.INVALID_SOCKET 0 0.

Definition init : t :=
  mk [empty_entry 0; empty_entry 0] [zero_fd; no_fd] 0 0 ∅ [] true [].

Definition is_null (e : Entry) : bool := bool_decide (ptr e = None).
Definition entry_isUsed (e : Entry) : res bool :=
  ASSERT bool_decide (e_state e = Unused) || negb (is_null e) ;;
  Ok (bool_decide (e_state e ≠ Unused)).
Definition isAssociated (e : Entry) : res bool :=
  ASSERT bool_decide (e_state e = Unused) || negb (is_null e) ;;
  Ok (bool_decide (e_state e = SockAssociated)).
Definition entry_setAssociated (e : Entry) : res Entry :=
  ASSERT bool_decide (e_state e = SockIssued) && negb (is_null e) ;;
  Ok (mkEntry SockAssociated (e_index e) (e_refed e) (ptr e)).

Definition agent (o : nat) (s : t) : res AgentServer :=
  match agents s !! o with Some a => Ok a | None => UB end.
(** [getAgentServer], [getAgentServerData] *)
Definition getAgentServer (e : Entry) : res nat :=
  match ptr e with Some o => Ok o | None => AssertFail end.

Definition updateIndex (idx : nat) (e : Entry) (as_ : gmap nat AgentServer) : res (Entry * gmap nat AgentServer) :=
  o ← getAgentServer e;
  Ok (mkEntry (e_state e) idx (e_refed e) (ptr e), alter (set_index idx) o as_).

Definition lookup_entry (i : nat) (s : t) : res Entry :=
  match ourSide s !! i with Some e => Ok e | None => UB end.
Definition lookup_fd (i : nat) (s : t) : res pollfd :=
  match osSide s !! i with Some f => Ok f | None => UB end.

Definition isUsed (idx : nat) (s : t) : res bool :=
  ASSERT bool_decide (reserved_capacity ≤ idx) ;;
  ASSERT bool_decide (idx < length (ourSide s)) ;;
  e ← lookup_entry idx s; entry_isUsed e.
Definition at_ (idx : nat) (s : t) : res Entry :=
  u ← isUsed idx s;
  ASSERT u ;;
  lookup_entry idx s.
Definition reventsAt (idx : nat) (s : t) : res Z :=
  ASSERT bool_decide (idx ≠ 0) ;;
  ASSERT bool_decide (idx < length (osSide s)) ;;
  f ← lookup_fd idx s; Ok (revents f).
Definition socketsAt (idx : nat) (s : t) : res Z :=
  ASSERT bool_decide (idx ≠ 0) ;;
  ASSERT bool_decide (idx < length (osSide s)) ;;
  f ← lookup_fd idx s; Ok (fd f).
Definition getAwakerSockSocket (s : t) : res Z := f ← lookup_fd awakerSockIdx s; Ok (fd f).
Definition size (s : t) : nat := length (ourSide s) - 1.
Definition isValidId (idx : nat) (s : t) : bool :=
  bool_decide (reserved_capacity ≤ idx) && bool_decide (idx < length (ourSide s)).

(** the constructor of an entry of [o], which sets the agent's index *)
Definition new_entry (i o : nat) (s : t) : res (Entry * t) :=
  a ← agent o s;
  ASSERT bool_decide (0 < osSocket a)%Z ;;
  Ok (mkEntry SockIssued i false (Some o), with_agents (<[o := set_index i a]> (agents s)) s).

(** the first unused entry from [i] on *)
Fixpoint find_unused (i : nat) (es : list Entry) : res (option nat) :=
  match es with
  | [] => Ok None
  | e :: es => u ← entry_isUsed e; if (u : bool) then find_unused (S i) es else Ok (Some i)
  end.

Definition addEntry (o : nat) (s : t) : res t :=
  ASSERT bool_decide (length (ourSide s) = length (osSide s)) ;;
  a ← agent o s;
  ASSERT bool_decide (0 < osSocket a)%Z ;;
  free ← find_unused reserved_capacity (drop reserved_capacity (ourSide s));
  match free with
  | Some i =>
      '(e, s) ← new_entry i o s;
      Ok (with_counts (associatedCount s) (S (usedCount s))
            (with_os (<[i := mkFd (- osSocket a) 0 0]> (osSide s)) (with_our (<[i := e]> (ourSide s)) s)))
  | None =>
      '(e, s) ← new_entry (length (ourSide s)) o s;
      Ok (with_counts (associatedCount s) (S (usedCount s))
            (with_os (osSide s ++ [mkFd (- osSocket a) 0 0]) (with_our (ourSide s ++ [e]) s)))
  end.

Definition setAwakerSocket (sk : Z) (s : t) : res t :=
  f ← lookup_fd awakerSockIdx s;
  Ok (with_counts (S (associatedCount s)) (S (usedCount s))
        (with_os (<[awakerSockIdx := mkFd sk (Z.lor (events f) Tcp.POLLIN) 0]> (osSide s)) s)).

(** the loop of [makeCompactIfNecessary] over the entries from [reserved_capacity] on *)
Fixpoint compact_loop (es : list Entry) (fs : list pollfd) (es' : list Entry) (fs' : list pollfd) (n : nat)
    (as_ : gmap nat AgentServer) : res (list Entry * list pollfd * nat * gmap nat AgentServer) :=
  match es, fs with
  | e :: es, f :: fs =>
      u ← entry_isUsed e;
      if (u : bool) then
        '(e, as_) ← updateIndex (length es') e as_;
        compact_loop es fs (es' ++ [e]) (fs' ++ [f]) (S n) as_
      else compact_loop es fs es' fs' n as_
  | [], _ => Ok (es', fs', n, as_)
  | _ :: _, [] => UB
  end.

Definition makeCompactIfNecessary (s : t) : res t :=
  if bool_decide (length (ourSide s) ≤ compactionMinSize) || bool_decide (usedCount s < length (ourSide s) / 2)
  then Ok s
  else
    e ← lookup_entry awakerSockIdx s;
    f ← lookup_fd awakerSockIdx s;
    '(es, fs, usedCountNew, as_) ←
      compact_loop (drop reserved_capacity (ourSide s)) (drop reserved_capacity (osSide s))
        [empty_entry 0; e] [zero_fd; f] (if bool_decide (fd f ≠ Tcp.INVALID_SOCKET) then 1 else 0) (agents s);
    ASSERT bool_decide (usedCountNew = usedCount s) ;;
    Ok (with_agents as_ (with_os fs (with_our es s))).

Definition setAssociated (idx : nat) (s : t) : res t :=
  u ← isUsed idx s;
  ASSERT u ;;
  e ← lookup_entry idx s;
  e ← entry_setAssociated e;
  f ← lookup_fd idx s;
  let f := mkFd (- fd f) (events f) (revents f) in
  ASSERT bool_decide (events f = 0%Z) ;;
  ASSERT bool_decide (revents f = 0%Z) ;;
  ASSERT bool_decide (0 < fd f)%Z ;;
  Ok (with_counts (S (associatedCount s)) (usedCount s)
        (with_os (<[idx := f]> (osSide s)) (with_our (<[idx := e]> (ourSide s)) s))).

Definition setPollin (idx : nat) (s : t) : res t :=
  ASSERT bool_decide (reserved_capacity ≤ idx) ;;
  ASSERT bool_decide (idx < length (ourSide s)) ;;
  f ← lookup_fd idx s;
  Ok (with_os (<[idx := mkFd (fd f) (Z.lor (events f) Tcp.POLLIN) (revents f)]> (osSide s)) s).

Definition setRefed (idx : nat) (r : bool) (s : t) : res t :=
  ASSERT bool_decide (reserved_capacity ≤ idx) ;;
  ASSERT bool_decide (idx < length (ourSide s)) ;;
  e ← lookup_entry idx s;
  u ← (if r then entry_isUsed e else Ok true);
  ASSERT u ;;
  Ok (with_our (<[idx := mkEntry (e_state e) (e_index e) r (ptr e)]> (ourSide s)) s).

(** the descriptors that are polled *)
Definition getPollfd (s : t) : option (list pollfd) :=
  if bool_decide (1 < length (osSide s)) && bool_decide (0 < associatedCount s) then Some (drop 1 (osSide s)) else None.

Definition set_revents (f : pollfd) (r : Z) : pollfd := mkFd (fd f) (events f) r.
Definition poll_answers (rs : list Z) (fs : list pollfd) : list pollfd :=
  take 1 fs ++ zip_with set_revents (drop 1 fs) rs.

Section thread.
Context {W : Type} `{!OS W, !ServerOS W, !LoopOS W, !ListenerOS W}.
Context (self : ThreadID).
Abbreviation state := (t * Threads.t W)%type.

(** [TimeOutNever] as an [int] *)
Definition wait (timeoutToUse : Z) (s : state) : state * (bool * Z) :=
  if bool_decide (associatedCount s.1 = 0) then (s, (false, 0%Z))
  else
    let '(w, (retval, rs)) := sys_poll (drop 1 (osSide s.1)) timeoutToUse (Threads.os s.2) in
    ((with_os (poll_answers rs (osSide s.1)) s.1, Threads.with_os w s.2), (true, retval)).

(** ** Agents *)
Definition internal_make_shared_tcp_socket (w : W) : W * Z :=
  let '(w, sock) := Tcp.internal_make_tcp_socket w in
  if bool_decide (sock ≠ Tcp.INVALID_SOCKET) then
    let '(w, shared) := sys_reuse_port sock w in
    if (shared : bool) then (w, sock) else (sys_close sock w, Tcp.INVALID_SOCKET)
  else (w, Tcp.INVALID_SOCKET).

(** the end of both ways to start listening *)
Definition start_polling (o : nat) (l : t) : res t :=
  l ← addEntry o l;
  a ← agent o l;
  let l := with_agents (<[o := set_listening a]> (agents l)) l in
  ASSERT bool_decide (index a ≠ 0) ;;
  l ← setAssociated (index a) l;
  l ← setPollin (index a) l;
  setRefed (index a) true l.

Definition appAddAgentServerSocketAndStartListening (o : nat) (sk : Z) (s : state) : res state :=
  a ← agent o s.1;
  l ← start_polling o (with_agents (<[o := set_socket sk a]> (agents s.1)) s.1);
  Ok (l, s.2).

Definition acquireSharedServerSocketAndStartListening (o : nat) (backlog : Z) (s : state) : res state :=
  let '(w, sk) := internal_make_shared_tcp_socket (Threads.os s.2) in
  if bool_decide (sk = Tcp.INVALID_SOCKET) then Thrown
  else
    a ← agent o s.1;
    let addr := localAddress a in
    let '(w, bound) := sys_bind sk (Server.a_ip addr) (Ip.Port_fromHost (Server.a_port addr)) w in
    if negb bound then Thrown
    else
      let '(w, listens) := sys_listen sk backlog w in
      if negb listens then Thrown
      else
        l ← start_polling o (with_agents (<[o := set_socket sk a]> (agents s.1)) s.1);
        Ok (l, Threads.with_os w s.2).

(** the first free place of [agentServers], or a new one *)
Fixpoint put_owner (o : nat) (l : list (option nat)) : list (option nat) :=
  match l with
  | [] => [Some o]
  | None :: l => Some o :: l
  | x :: l => x :: put_owner o l
  end.

Definition new_name (l : t) : nat := fresh (elements (dom (agents l))).
Definition make_agent (entryIndex : Z) (ip : Ip.Ip4) (port : Z) (l : t) : t * nat :=
  let o := new_name l in
  (with_agents (<[o := mkAgent entryIndex 0 false 0 Server.Unused (Server.mkAddress port Ip.Undefined ip)]> (agents l)) l, o).

Definition createAgentServerWithSharedSocket (entryIndex : Z) (ip : Ip.Ip4) (port backlog : Z) (s : state) : res state :=
  let '(l, o) := make_agent entryIndex ip port s.1 in
  s ← acquireSharedServerSocketAndStartListening o backlog (l, s.2);
  Ok (with_owners (put_owner o (agentServers s.1)) s.1, s.2).

Definition createAgentServerWithExistingSocket (entryIndex sk : Z) (ip : Ip.Ip4) (port : Z) (s : state) : res state :=
  let '(l, o) := make_agent entryIndex ip port s.1 in
  s ← appAddAgentServerSocketAndStartListening o sk (l, s.2);
  Ok (with_owners (put_owner o (agentServers s.1)) s.1, s.2).

Definition internalCleanupBeforeClosing (a : AgentServer) : AgentServer :=
  mkAgent (entryIndexAtSlave a) 0 (a_refed a) (osSocket a) Server.Closed (localAddress a).
Definition listening (a : AgentServer) : bool := bool_decide (a_state a = Server.Listening).

(** ** Messages *)
Definition sendConnAcceptedEv (target : ThreadID) (internalID sk : Z) (remoteIp : Ip.Ip4) (remotePort : Ip.Port)
    (sh : Threads.t W) : res (Threads.t W) :=
  Threads.postInterThreadMsg self (PConnAccepted (mkConnAccepted 0 internalID sk remoteIp remotePort)) ConnAccepted target sh.
Definition sendServerErrorEv (target : ThreadID) (sh : Threads.t W) : res (Threads.t W) :=
  Threads.postInterThreadMsg self (PServerError (mkServerError 0)) ServerError target sh.
Definition sendServerCloseNotification (target : ThreadID) (entryIdx : Z) (err : bool) (sh : Threads.t W) : res (Threads.t W) :=
  Threads.postInterThreadMsg self (PCloseNotification (mkCloseNotification 0 entryIdx err)) ServerClosedNotification target sh.
(** [postinit] *)
Definition reportThreadStarted (sh : Threads.t W) : res (Threads.t W) :=
  Threads.postInterThreadMsg self (PThreadStarted (mkThreadStarted 0)) ThreadStarted (mkID 0 0) sh.

Definition onConnection (a : AgentServer) (sk : Z) (remoteIp : Ip.Ip4) (remotePort : Ip.Port) (s : state) : res state :=
  ASSERT bool_decide (sk ≠ 0%Z) ;;
  '(sh, id) ← Threads.getLeastLoadedWorkerAndIncrementLoad s.2;
  sh ← sendConnAcceptedEv id (entryIndexAtSlave a) sk remoteIp remotePort sh;
  Ok (s.1, sh).
(** it writes to the log only *)
Definition onError (s : state) : res state := Ok s.

Definition processInterthreadRequest (m : InterThreadMsg) (s : state) : res state :=
  match msgType m with
  | RequestToListeningThread =>
      rq ← as_Request (msg m);
      match rq_type rq with
      | AddServerSocket =>
          createAgentServerWithExistingSocket (rq_entryIndex rq) (rq_socket rq) (rq_ip rq) (Ip.Port_getHost (rq_port rq)) s
      | CreateSharedServerSocket =>
          createAgentServerWithSharedSocket (rq_entryIndex rq) (rq_ip rq) (Ip.Port_getHost (rq_port rq)) (rq_backlog rq) s
      | _ => Ok s
      end
  | ServerError => _ ← as_ServerError (msg m); Ok s
  | ServerCloseRequest => _ ← as_CloseRequest (msg m); Ok s
  | Infrastructural => Ok s
  | _ => AssertFail
  end.

(** ** The loop *)
Definition getAcceptedSockData (sk : Z) (s : state) : state * option (Z * Ip.Ip4 * Ip.Port) :=
  let '(w, r) := Server.internal_tcp_accept sk (Threads.os s.2) in ((s.1, Threads.with_os w s.2), r).

Definition so_error (sk : Z) (s : state) : state := (s.1, Threads.with_os (sys_so_error sk (Threads.os s.2)).1 s.2).

Definition infraCheckPollFdSet (current : Entry) (ev : Z) (s : state) : res state :=
  o ← getAgentServer current;
  a ← agent o s.1;
  if Tcp.has ev (Z.lor Tcp.POLLERR Tcp.POLLNVAL) then onError (so_error (osSocket a) s)
  else if Tcp.has ev Tcp.POLLIN then
    let '(s, r) := getAcceptedSockData (osSocket a) s in
    match r with
    | None => Ok s
    | Some (sk, remoteIp, remotePort) => onConnection a sk remoteIp remotePort (log_accepted sk s.1, s.2)
    end
  else if bool_decide (ev ≠ 0%Z) then onError (so_error (osSocket a) s)
  else Ok s.

(** the body of the loop of [pollPhase2] for a descriptor that is ready; the
    flag is [false] where the code breaks out of the loop *)
Definition dispatch (i : nat) (ev : Z) (s : state) : res (state * bool) :=
  if bool_decide (reserved_capacity ≤ i) then
    current ← at_ i s.1;
    assoc ← isAssociated current;
    if (assoc : bool) then s ← infraCheckPollFdSet current ev s; Ok (s, false) else Ok (s, true)
  else if bool_decide (i = awakerSockIdx) then
    sk ← getAwakerSockSocket s.1;
    s ← Threads.awaker_event processInterthreadRequest self sk ev s; Ok (s, true)
  else Ok (s, true).

(** [for ( i=0; processed<retval; ++i )], with [i] for [1 + i] *)
Fixpoint poll_loop (fuel i : nat) (processed retval : Z) (s : state) : res state :=
  if bool_decide (processed < retval)%Z then
    match fuel with
    | O => NoFuel
    | S fuel =>
        ev ← reventsAt i s.1;
        if bool_decide (ev ≠ 0%Z) then
          '(s, go) ← dispatch i ev s;
          if (go : bool) then poll_loop fuel (S i) (processed + 1) retval s else Ok s
        else poll_loop fuel (S i) processed retval s
    end
  else Ok s.

Definition pollPhase2 (fuel : nat) (s : state) : res (state * bool) :=
  let '(s, (waited, retval)) := wait (-1) s in
  if negb waited then Ok (s, false)
  else if bool_decide (retval < 0)%Z then AssertFail
  else if bool_decide (retval = 0%Z) then Ok (s, true)
  else s ← poll_loop fuel 1 0 retval s; Ok (s, true).

Definition infraGetCurrentTime (s : state) : state * Z :=
  let '(w, now) := sys_now (Threads.os s.2) in ((s.1, Threads.with_os w s.2), now).

(** one pass of [while (running)]; [false] when the loop returns *)
Definition turn (fuel : nat) (s : state) : res (state * bool) :=
  let '(s, _) := infraGetCurrentTime s in
  l ← makeCompactIfNecessary s.1;
  pollPhase2 fuel (l, s.2).

Fixpoint loop (turns fuel : nat) (s : state) : res state :=
  if running s.1 then
    match turns with
    | O => NoFuel
    | S turns => '(s, go) ← turn fuel s; if (go : bool) then loop turns fuel s else Ok s
    end
  else Ok s.

(** the network is initialized when the thread is made *)
Definition runLoop (turns fuel : nat) (listenerReadHandle : Z) (s : state) : res state :=
  l ← setAwakerSocket listenerReadHandle s.1;
  sh ← reportThreadStarted s.2;
  loop turns fuel (l, sh).
End thread.
End Listener.
