(* ===== verification/ListenerThreadSpec.v ===== *)
(** * Theorems about listener threads

    The table of a listener thread only grows: [wf] says that all its places are
    taken and polled. A turn serves the messages of the awaker socket and
    then the first listening socket that is ready, and no other; an accepted
    connection becomes one message to one worker; the loop never returns. *)

From S2P Require Import Prelude HttpMessage InterThread NetRegistry TcpSocket TcpSocketSpec Address Server ServerSpec EventLoop EventLoopSpec Threads ListenerThread.
From Stdlib Require Import Lia.

Module ListenerSpec.
Import Msg ThreadSlots Listener.
Abbreviation mkFd := NetRegistry.NetRegistry.mkFd.
Abbreviation fd := NetRegistry.NetRegistry.fd.
Abbreviation events := NetRegistry.NetRegistry.events.
Abbreviation revents := NetRegistry.NetRegistry.revents.

(** the entry at [i] is that of the agent [o], which is polled for input *)
Definition polled (s : t) (i o : nat) (a : AgentServer) : Prop :=
  ourSide s !! i = Some (mkEntry SockAssociated i true (Some o)) ∧ agents s !! o = Some a ∧
  index a = i ∧ (0 < osSocket a)%Z ∧
  ∃ f, osSide s !! i = Some f ∧ fd f = osSocket a ∧ events f = Tcp.POLLIN.

Record wf (s : t) : Prop := {
  wf_length : length (ourSide s) = length (osSide s);
  wf_reserved : 2 ≤ length (ourSide s);
  wf_head : ourSide s !! 0 = Some (empty_entry 0) ∧ ourSide s !! 1 = Some (empty_entry 0) ∧ osSide s !! 0 = Some zero_fd;
  wf_entries : ∀ i, 2 ≤ i → i < length (ourSide s) → ∃ o a, polled s i o a;
  wf_awaker : ∃ f, osSide s !! 1 = Some f ∧ (0 < fd f)%Z;
  wf_used : usedCount s = length (ourSide s) - 1;
  wf_associated : associatedCount s = usedCount s;
}.

Lemma polled_used s i o a : polled s i o a → isUsed i s = Ok true → 2 ≤ i.
Proof.
  intros _ Hu. unfold isUsed in Hu. apply assert_Ok in Hu as [Hi _]. by apply bool_decide_eq_true_1 in Hi.
Qed.

Lemma polled_at s i o a : 2 ≤ i → polled s i o a → at_ i s = Ok (mkEntry SockAssociated i true (Some o)).
Proof.
  intros Hi (He & _). pose proof (lookup_lt_Some _ _ _ He). unfold at_, isUsed, lookup_entry.
  rewrite !bool_decide_eq_true_2 by (unfold reserved_capacity; lia). by rewrite He.
Qed.

Lemma find_unused_none i es :
  Forall (λ e, e_state e ≠ Unused ∧ ptr e ≠ None) es → find_unused i es = Ok None.
Proof.
  intros Hall. revert i. induction Hall as [|e es [Hu Hp] _ IH]; intros i; [done|].
  cbn [find_unused]. unfold entry_isUsed, is_null.
  rewrite (bool_decide_eq_false_2 (e_state e = Unused)), (bool_decide_eq_false_2 (ptr e = None)) by done.
  cbn. rewrite bool_decide_eq_true_2 by done. apply IH.
Qed.

Lemma wf_all_used s : wf s → Forall (λ e, e_state e ≠ Unused ∧ ptr e ≠ None) (drop reserved_capacity (ourSide s)).
Proof.
  intros Hwf. apply Forall_lookup. intros i e He. rewrite lookup_drop in He.
  pose proof (lookup_lt_Some _ _ _ He). destruct (wf_entries _ Hwf (reserved_capacity + i)) as (o & a & Hp & _);
    [unfold reserved_capacity; lia|done|]. rewrite He in Hp. by simplify_eq.
Qed.

(** the table once the agent [o] with the data [a] is polled *)
Definition with_polled (o : nat) (a : AgentServer) (s : t) : t :=
  let n := length (ourSide s) in
  mk (ourSide s ++ [mkEntry SockAssociated n true (Some o)]) (osSide s ++ [mkFd (osSocket a) Tcp.POLLIN 0])
     (S (associatedCount s)) (S (usedCount s)) (<[o := set_listening (set_index n a)]> (agents s))
     (agentServers s) (running s) (accepted s).

Lemma start_polling_spec s o a :
  wf s → agents s !! o = Some a → (0 < osSocket a)%Z → start_polling o s = Ok (with_polled o a s).
Proof.
  intros Hwf Ha Hsk. pose proof (wf_length _ Hwf) as Hlen. pose proof (wf_reserved _ Hwf) as H2.
  unfold start_polling, addEntry, new_entry, agent. rewrite bool_decide_eq_true_2, Ha by done. cbn [mbind res_bind].
  rewrite bool_decide_eq_true_2 by done. rewrite find_unused_none by by apply wf_all_used. cbn [mbind res_bind].
  cbn. rewrite lookup_insert_eq. cbn [mbind res_bind].
  rewrite bool_decide_eq_true_2 by (cbn; lia). cbn.
  set (n := length (ourSide s)) in *. set (es := ourSide s ++ _). set (fs := osSide s ++ _).
  assert (Hes : es !! n = Some (mkEntry SockIssued n false (Some o))) by (by apply list_lookup_middle).
  assert (Hfs : fs !! n = Some (mkFd (- osSocket a) 0 0)) by (by apply list_lookup_middle).
  assert (Hn : length es = S n) by (subst es; rewrite length_app; cbn; lia).
  unfold setAssociated, isUsed, lookup_entry, lookup_fd. cbn.
  rewrite Hn, !bool_decide_eq_true_2 by (unfold reserved_capacity; lia).
  rewrite Hes, Hfs. cbn [mbind res_bind]. change (entry_isUsed _) with (Ok true). cbn [mbind res_bind].
  change (entry_setAssociated _) with (Ok (mkEntry SockAssociated n false (Some o))). cbn. rewrite !(bool_decide_eq_true_2 (_ = 0%Z)) by done.
  rewrite (bool_decide_eq_true_2 (0 < _)%Z) by lia. cbn.
  unfold setPollin, lookup_fd. cbn. rewrite length_insert, Hn, !bool_decide_eq_true_2 by (unfold reserved_capacity; lia).
  rewrite list_lookup_insert_eq by (subst fs; rewrite length_app; cbn; lia). cbn.
  unfold setRefed, lookup_entry. cbn. rewrite length_insert, Hn, !bool_decide_eq_true_2 by (unfold reserved_capacity; lia).
  rewrite list_lookup_insert_eq by lia. cbn [mbind res_bind]. change (entry_isUsed _) with (Ok true). cbn. unfold with_polled.
  rewrite !list_insert_insert_eq, insert_insert_eq, Z.opp_involutive.
  assert (Hrep : ∀ {X} (l : list X) x y, length l = n → <[n:=y]> (l ++ [x]) = l ++ [y]).
  { intros X l x y Hl. rewrite insert_app_r_alt by lia. by rewrite Hl, Nat.sub_diag. }
  subst es fs. by rewrite !Hrep by done.
Qed.

(** ** The table grows *)
Record extends (s s' : t) : Prop := {
  ext_wf : wf s';
  ext_our : ∃ es, ourSide s' = ourSide s ++ es;
  ext_os : ∃ fs, osSide s' = osSide s ++ fs;
  ext_running : running s' = running s;
  ext_accepted : accepted s' = accepted s;
  ext_polled : ∀ i o a, polled s i o a → polled s' i o a;
}.

Lemma store_extends_refl s : wf s → extends s s.
Proof. intros Hwf. constructor; try done; exists []; by rewrite app_nil_r. Qed.

Lemma store_extends_trans s1 s2 s3 : extends s1 s2 → extends s2 s3 → extends s1 s3.
Proof.
  intros [_ [es1 H1] [fs1 H2] H3 H4 H5] [Hw [es2 H1'] [fs2 H2'] H3' H4' H5']. constructor; try done.
  - exists (es1 ++ es2). by rewrite H1', H1, app_assoc.
  - exists (fs1 ++ fs2). by rewrite H2', H2, app_assoc.
  - congruence.
  - congruence.
  - intros i o a Hp. by apply H5', H5.
Qed.

(** an agent that is in no entry yet is polled in a place of its own *)
Lemma with_polled_extends s o a a' :
  wf s → agents s !! o = None → (0 < osSocket a)%Z →
  let s1 := with_agents (<[o := a']> (agents s)) s in
  extends s (with_polled o a s1) ∧
  polled (with_polled o a s1) (length (ourSide s)) o (set_listening (set_index (length (ourSide s)) a)).
Proof.
  intros Hwf Ho Hsk s1. pose proof (wf_length _ Hwf) as Hlen. pose proof (wf_reserved _ Hwf) as H2.
  assert (Hnew : polled (with_polled o a s1) (length (ourSide s)) o (set_listening (set_index (length (ourSide s)) a))).
  { unfold polled, with_polled. cbn. rewrite lookup_insert_eq.
    split_and!; try done; [by rewrite list_lookup_middle|]. exists (mkFd (osSocket a) Tcp.POLLIN 0).
    by rewrite list_lookup_middle. }
  assert (Hold : ∀ i o' a0, polled s i o' a0 → polled (with_polled o a s1) i o' a0).
  { intros i o' a0 (He & Ha & Hi & Hs & f & Hf & Hfd). unfold polled, with_polled. cbn.
    split_and!; try done.
    - by apply lookup_app_l_Some.
    - rewrite !lookup_insert_ne by congruence. done.
    - exists f. split; [by apply lookup_app_l_Some|done]. }
  split; [|done]. constructor; try done.
  - destruct (wf_head _ Hwf) as (? & ? & ?). destruct (wf_awaker _ Hwf) as (f & ? & ?).
    constructor; cbn.
    + rewrite !length_app. cbn. lia.
    + rewrite length_app. lia.
    + split_and!; by apply lookup_app_l_Some.
    + intros i Hi. rewrite length_app. cbn. intros Hlt. destruct (decide (i = length (ourSide s))) as [->|].
      * by eexists _, _.
      * destruct (wf_entries _ Hwf i) as (o' & a0 & Hp); [done|lia|]. exists o', a0. by apply Hold.
    + exists f. split; [by apply lookup_app_l_Some|done].
    + rewrite length_app, (wf_used _ Hwf). cbn. lia.
    + by rewrite (wf_associated _ Hwf).
  - by eexists.
  - by eexists.
Qed.

Lemma wf_with_owners x s : wf s → wf (with_owners x s).
Proof. intros []. by constructor. Qed.
Lemma extends_with_owners x s s' : extends s s' → extends s (with_owners x s').
Proof. intros []. constructor; try done. by apply wf_with_owners. Qed.

Section thread.
Context {W : Type} `{!OS W, !ServerOS W, !LoopOS W, !ListenerOS W}.
Context (self : ThreadID).
Implicit Types (l : t) (sh : Threads.t W).

Lemma new_agent_fresh l : agents l !! new_name l = None.
Proof.
  apply not_elem_of_dom. rewrite <-elem_of_elements. apply infinite_is_fresh.
Qed.

(** what both ways to create an agent do to the table *)
Definition created (o : nat) (a : AgentServer) l : t := with_agents (<[o := a]> (agents l)) l.

Lemma created_wf o a l : wf l → agents l !! o = None → wf (created o a l).
Proof.
  intros Hwf Ho. pose proof Hwf as []. constructor; try done. intros i Hi Hlt.
  destruct (wf_entries0 i Hi Hlt) as (o' & a0 & Hp & Ha0 & Hr). exists o', a0. split; [done|]. split; [|done].
  cbn. rewrite lookup_insert_ne; [done|]. by intros <-; rewrite Ho in Ha0.
Qed.

Lemma start_polling_created o a l :
  wf l → agents l !! o = None →
  start_polling o (created o a l) = if bool_decide (0 < osSocket a)%Z then Ok (with_polled o a (created o a l)) else AssertFail.
Proof.
  intros Hwf Ho. case_bool_decide as Hsk.
  - apply start_polling_spec; [by apply created_wf|apply lookup_insert_eq|done].
  - unfold start_polling, addEntry, agent. rewrite bool_decide_eq_true_2 by apply (wf_length _ Hwf).
    cbn. rewrite lookup_insert_eq. cbn. by rewrite bool_decide_eq_false_2.
Qed.

Lemma start_polling_created_extends o a l l' :
  wf l → agents l !! o = None → start_polling o (created o a l) = Ok l' → extends l l'.
Proof.
  intros Hwf Ho. rewrite start_polling_created by done. case_bool_decide as Hsk; [|done]. intros [= <-].
  by destruct (with_polled_extends l o a a Hwf Ho Hsk).
Qed.

(** A request of the master is served: the socket is polled for input. *)
Lemma existing_socket_spec entryIndex sk ip_ port l sh :
  wf l → (0 < sk)%Z → ∃ l' a,
    createAgentServerWithExistingSocket entryIndex sk ip_ port (l, sh) = Ok (l', sh) ∧ extends l l' ∧
    polled l' (length (ourSide l)) (new_name l) a ∧ length (ourSide l') = S (length (ourSide l)) ∧
    entryIndexAtSlave a = entryIndex ∧ osSocket a = sk ∧ localAddress a = Server.mkAddress port family ip_ ∧
    agentServers l' = put_owner (new_name l) (agentServers l).
Proof.
  intros Hwf Hsk. unfold createAgentServerWithExistingSocket, make_agent, appAddAgentServerSocketAndStartListening, agent.
  cbn. rewrite lookup_insert_eq. cbn. rewrite insert_insert_eq. set (a := set_socket sk _).
  change (with_agents _ _) with (created (new_name l) a l). pose proof (new_agent_fresh l) as Hn.
  rewrite start_polling_created, bool_decide_eq_true_2 by done. cbn [mbind res_bind].
  destruct (with_polled_extends l (new_name l) a a Hwf) as [Hext Hp]; [done..|].
  eexists _, _. split; [reflexivity|]. split; [by apply extends_with_owners|].
  split; [exact Hp|]. cbn. rewrite length_app. cbn. split; [lia|]. done.
Qed.

(** Serving messages only adds to the table. *)
Lemma shared_socket_extends entryIndex ip_ port backlog s s' :
  wf s.1 → createAgentServerWithSharedSocket entryIndex ip_ port backlog s = Ok s' → extends s.1 s'.1.
Proof.
  intros Hwf. unfold createAgentServerWithSharedSocket, make_agent, acquireSharedServerSocketAndStartListening, agent.
  cbn [fst snd]. destruct (internal_make_shared_tcp_socket _) as [w sk]. case_bool_decide; [done|].
  cbn. rewrite lookup_insert_eq. cbn. destruct (sys_bind _ _ _ _) as [w2 []]; [|done]. cbn.
  destruct (sys_listen _ _ _) as [w3 []]; [|done]. cbn. rewrite insert_insert_eq.
  destruct (start_polling _ _) as [l'| | | |] eqn:Hst; try done. cbn. intros [= <-]. cbn. apply extends_with_owners.
  eapply start_polling_created_extends; [done|apply new_agent_fresh|exact Hst].
Qed.

Lemma existing_socket_extends entryIndex sk ip_ port (s s' : t * Threads.t W) :
  wf s.1 → createAgentServerWithExistingSocket entryIndex sk ip_ port s = Ok s' → extends s.1 s'.1.
Proof.
  intros Hwf. unfold createAgentServerWithExistingSocket, make_agent, appAddAgentServerSocketAndStartListening, agent.
  cbn. rewrite lookup_insert_eq. cbn. rewrite insert_insert_eq.
  destruct (start_polling _ _) as [l'| | | |] eqn:Hst; try done. cbn. intros [= <-]. cbn. apply extends_with_owners.
  eapply start_polling_created_extends; [done|apply new_agent_fresh|exact Hst].
Qed.

Lemma message_extends m s s' : wf s.1 → processInterthreadRequest m s = Ok s' → extends s.1 s'.1.
Proof.
  intros Hwf. unfold processInterthreadRequest. destruct (msgType m); try done.
  - destruct (as_ServerError _); try done. cbn. intros [= <-]. by apply store_extends_refl.
  - destruct (as_CloseRequest _); try done. cbn. intros [= <-]. by apply store_extends_refl.
  - destruct (as_Request _) as [rq| | | |]; try done. cbn.
    destruct (rq_type rq); try (intros [= <-]; by apply store_extends_refl).
    + by apply existing_socket_extends.
    + by apply shared_socket_extends.
  - intros [= <-]. by apply store_extends_refl.
Qed.

Lemma messages_extend ms s s' : wf s.1 → Threads.on_messages processInterthreadRequest ms s = Ok s' → extends s.1 s'.1.
Proof.
  revert s. induction ms as [|m ms IH]; intros s Hwf; cbn [Threads.on_messages].
  - intros [= <-]. by apply store_extends_refl.
  - destruct (processInterthreadRequest m s) as [s1| | | |] eqn:Hm; try done. cbn [mbind res_bind]. intros Hs.
    pose proof (message_extends _ _ _ Hwf Hm) as He. eapply store_extends_trans; [exact He|]. apply IH; [apply He|done].
Qed.

Lemma awaker_extends sk ev s s' :
  wf s.1 → Threads.awaker_event processInterthreadRequest self sk ev s = Ok s' → extends s.1 s'.1.
Proof.
  intros Hwf. unfold Threads.awaker_event. destruct (Tcp.has _ _); [|intros [= <-]; by apply store_extends_refl].
  destruct (Tcp.internal_get_packet_bytes2 _ _ _) as [[w [r bs]]| | | |]; try done. cbn [mbind res_bind].
  case_bool_decide; [|intros [= <-]; by apply store_extends_refl]. case_bool_decide; [|done].
  cbn [fst snd]. destruct (Threads.popFrontFromThisThreadQueue _ _ _) as [[sh thq]|]; [|done].
  case_bool_decide; [|done]. by intros ?%messages_extend.
Qed.

(** ** A turn *)
#[local] Abbreviation ready_count := EventLoopSpec.EventLoopSpec.ready_count.

Definition answered (rs : list Z) l : t := with_os (poll_answers rs (osSide l)) l.

Lemma answered_lookup rs l i :
  length rs = length (osSide l) - 1 →
  poll_answers rs (osSide l) !! i =
    match i with O => osSide l !! 0 | S j => f ← osSide l !! i; r ← rs !! j; Some (set_revents f r) end.
Proof.
  intros Hlen. unfold poll_answers. destruct (osSide l) as [|f fs]; cbn.
  - by destruct i, rs.
  - destruct i as [|j]; [done|]. rewrite drop_0, take_0. 
    change ((f :: [] ++ zip_with set_revents fs rs) !! S j) with (zip_with set_revents fs rs !! j).
    rewrite lookup_zip_with. change ((f :: fs) !! S j) with (fs !! j). by destruct (fs !! j), (rs !! j).
Qed.

Lemma answered_polled rs l i o a : length rs = length (osSide l) - 1 → polled l i o a → polled (answered rs l) i o a.
Proof.
  intros Hlen (He & Ha & Hi & Hs & f & Hf & Hfd & Hev). repeat (split; [done|]).
  cbn. rewrite answered_lookup by done. destruct i as [|j]; [by exists f|].
  rewrite Hf. cbn. destruct (lookup_lt_is_Some_2 rs j) as [r Hr]; [apply lookup_lt_Some in Hf; lia|].
  rewrite Hr. cbn. by eexists.
Qed.

Lemma answered_wf rs l : length rs = length (osSide l) - 1 → wf l → wf (answered rs l).
Proof.
  intros Hlen Hwf. pose proof Hwf as []. constructor; try done.
  - cbn. unfold poll_answers. rewrite length_app, length_take, length_zip_with, length_drop. lia.
  - destruct wf_head0 as (? & ? & ?). split_and!; try done. cbn. by rewrite answered_lookup.
  - intros i Hi Hlt. destruct (wf_entries0 i Hi Hlt) as (o & a & Hp). exists o, a. by apply answered_polled.
  - destruct wf_awaker0 as (f & Hf & Hfd). cbn. rewrite answered_lookup, Hf by done. cbn.
    destruct (lookup_lt_is_Some_2 rs 0) as [r Hr]; [lia|]. rewrite Hr. cbn. by eexists.
Qed.

(** the first ready descriptor from [i] on *)
Fixpoint first_ready (i : nat) (rs : list Z) : option (nat * Z) :=
  match rs with
  | [] => None
  | r :: rs => if bool_decide (r ≠ 0%Z) then Some (i, r) else first_ready (S i) rs
  end.

(** what a turn does with the listening sockets *)
Definition serve_first (r : option (nat * Z)) (s : t * Threads.t W) : res (t * Threads.t W) :=
  match r with
  | None => Ok s
  | Some (j, r) => e ← at_ j s.1; infraCheckPollFdSet self e r s
  end.

Lemma ready_count_cons r rs : ready_count (r :: rs) = (if bool_decide (r ≠ 0%Z) then 1 else 0) + ready_count rs.
Proof.
  unfold EventLoopSpec.EventLoopSpec.ready_count. rewrite filter_cons.
  destruct (decide (r ≠ 0%Z)); [by rewrite bool_decide_eq_true_2|by rewrite bool_decide_eq_false_2].
Qed.

Lemma reventsAt_spec i s f : i ≠ 0 → osSide s !! i = Some f → reventsAt i s = Ok (revents f).
Proof.
  intros Hi Hf. pose proof (lookup_lt_Some _ _ _ Hf). unfold reventsAt, lookup_fd.
  by rewrite !bool_decide_eq_true_2, Hf by done.
Qed.

Lemma dispatch_server i r s o a :
  2 ≤ i → polled s.1 i o a → dispatch self i r s = (s ← serve_first (Some (i, r)) s; Ok (s, false)).
Proof.
  intros Hi Hp. unfold dispatch, serve_first. rewrite bool_decide_eq_true_2 by done.
  by rewrite (polled_at _ _ _ _ Hi Hp).
Qed.

Lemma poll_loop_servers rs : ∀ i p retval fuel s,
  wf s.1 → 2 ≤ i → (∀ k r, rs !! k = Some r → ∃ f, osSide s.1 !! (i + k) = Some f ∧ revents f = r) →
  retval = (p + Z.of_nat (ready_count rs))%Z → length rs ≤ fuel →
  poll_loop self fuel i p retval s = serve_first (first_ready i rs) s.
Proof.
  induction rs as [|r rs IH]; intros i p retval fuel s Hwf Hi Hrs -> Hfuel.
  - cbn. destruct fuel; cbn; by rewrite bool_decide_eq_false_2 by lia.
  - destruct fuel as [|fuel]; [cbn in Hfuel; lia|]. cbn [poll_loop]. rewrite ready_count_cons.
    destruct (Hrs 0 r eq_refl) as (f & Hf & Hr). rewrite Nat.add_0_r in Hf.
    rewrite (reventsAt_spec i s.1 f), Hr by (done || lia). cbn [mbind res_bind first_ready].
    assert (Hnext : ∀ p', (∀ k r0, rs !! k = Some r0 → ∃ f0, osSide s.1 !! (S i + k) = Some f0 ∧ revents f0 = r0) ∧
      poll_loop self fuel (S i) p' (p' + Z.of_nat (ready_count rs)) s = serve_first (first_ready (S i) rs) s).
    { intros p'. assert (Hr' : ∀ k r0, rs !! k = Some r0 → ∃ f0, osSide s.1 !! (S i + k) = Some f0 ∧ revents f0 = r0).
      { intros k r0 Hk. destruct (Hrs (S k) r0 Hk) as (f0 & Hf0 & ?). exists f0. by rewrite <-plus_n_Sm in Hf0. }
      split; [done|]. apply IH; [done|lia|done|done|cbn in Hfuel; lia]. }
    destruct (decide (r = 0%Z)) as [->|Hne].
    + rewrite !(bool_decide_eq_false_2 (0%Z ≠ 0%Z)) by lia. cbn [Nat.add].
      destruct (Hnext p) as [_ ->]. case_bool_decide as Hlt; [done|].
      assert (Hz : ready_count rs = 0) by lia.
      clear -Hz. revert i. induction rs as [|r rs IH]; intros i; [done|].
      rewrite ready_count_cons in Hz. cbn. case_bool_decide; [lia|]. apply IH. lia.
    + rewrite !(bool_decide_eq_true_2 (r ≠ 0%Z)) by done. rewrite bool_decide_eq_true_2 by lia.
      destruct (wf_entries _ Hwf i Hi) as (o & a & Hp).
      { rewrite (wf_length _ Hwf). by eapply lookup_lt_Some. }
      rewrite (dispatch_server _ _ _ _ _ Hi Hp). destruct (serve_first (Some (i, r)) s); reflexivity.
Qed.

Lemma wait_spec l sh w retval rs :
  wf l → sys_poll (drop 1 (osSide l)) (-1) (Threads.os sh) = (w, (retval, rs)) →
  wait (-1) (l, sh) = ((answered rs l, Threads.with_os w sh), (true, retval)).
Proof.
  intros Hwf Hp. unfold wait. cbn. pose proof (wf_reserved _ Hwf).
  rewrite bool_decide_eq_false_2 by (rewrite (wf_associated _ Hwf), (wf_used _ Hwf); lia). by rewrite Hp.
Qed.

(** the messages of the awaker socket, if it answered [a] *)
Definition serve_awaker (a : Z) (s : t * Threads.t W) : res (t * Threads.t W) :=
  if bool_decide (a ≠ 0%Z) then
    sk ← getAwakerSockSocket s.1; Threads.awaker_event processInterthreadRequest self sk a s
  else Ok s.

Lemma serve_awaker_extends a s s' : wf s.1 → serve_awaker a s = Ok s' → extends s.1 s'.1.
Proof.
  intros Hwf. unfold serve_awaker. case_bool_decide; [|intros [= <-]; by apply store_extends_refl].
  destruct (getAwakerSockSocket _) as [sk| | | |]; try done. by apply awaker_extends.
Qed.

Lemma poll_loop_first a rs retval fuel s :
  wf s.1 → (∀ k r, (a :: rs) !! k = Some r → ∃ f, osSide s.1 !! (1 + k) = Some f ∧ revents f = r) →
  retval = Z.of_nat (ready_count (a :: rs)) → (0 < retval)%Z → length rs < fuel →
  poll_loop self fuel 1 0 retval s = (s ← serve_awaker a s; serve_first (first_ready 2 rs) s).
Proof.
  intros Hwf Hrs Hret Hpos Hfuel. destruct fuel as [|fuel]; [lia|]. cbn [poll_loop].
  rewrite bool_decide_eq_true_2 by done. destruct (Hrs 0 a eq_refl) as (f & Hf & Hfr).
  rewrite (reventsAt_spec 1 s.1 f), Hfr by done. cbn [mbind res_bind]. unfold serve_awaker.
  rewrite ready_count_cons in Hret.
  assert (Hrest : ∀ s' : t * Threads.t W, extends s.1 s'.1 → ∀ k r, rs !! k = Some r → ∃ f, osSide s'.1 !! (2 + k) = Some f ∧ revents f = r).
  { intros s' Hext k r Hk. destruct (ext_os _ _ Hext) as [fs ->]. destruct (Hrs (S k) r Hk) as (f0 & Hf0 & Hr).
    exists f0. split; [|done]. by apply lookup_app_l_Some. }
  case_bool_decide as Ha.
  - unfold dispatch. rewrite bool_decide_eq_false_2 by (unfold reserved_capacity; lia).
    rewrite bool_decide_eq_true_2 by done. destruct (getAwakerSockSocket s.1) as [sk| | | |]; try done. cbn [mbind res_bind].
    destruct (Threads.awaker_event _ _ _ _ _) as [s'| | | |] eqn:Haw; try done. cbn [mbind res_bind].
    pose proof (awaker_extends _ _ _ _ Hwf Haw) as Hext.
    apply poll_loop_servers; [apply Hext|lia|by apply Hrest|lia|lia].
  - cbn [mbind res_bind]. apply poll_loop_servers; [done|lia|by apply (Hrest s), store_extends_refl|lia|lia].
Qed.

(** While the entries are all used compaction moves nothing. *)
Lemma compact_loop_full es : ∀ fs es' fs' n as_,
  length fs = length es →
  (∀ k e, es !! k = Some e → ∃ o a, e = mkEntry SockAssociated (length es' + k) true (Some o) ∧
     as_ !! o = Some a ∧ index a = length es' + k) →
  compact_loop es fs es' fs' n as_ = Ok (es' ++ es, fs' ++ fs, n + length es, as_).
Proof.
  induction es as [|e es IH]; intros [|f fs] es' fs' n as_ Hlen Hes; try done; cbn [compact_loop].
  - by rewrite !app_nil_r, Nat.add_0_r.
  - destruct (Hes 0 e eq_refl) as (o & a & -> & Ho & Ha). rewrite Nat.add_0_r in *.
    change (entry_isUsed _) with (Ok true). cbn [mbind res_bind]. unfold updateIndex, getAgentServer. cbn.
    assert (Halt : alter (set_index (length es')) o as_ = as_).
    { apply map_eq. intros o'. destruct (decide (o = o')) as [<-|]; [|by rewrite lookup_alter_ne].
      rewrite lookup_alter_eq, Ho. cbn. f_equal. rewrite <-Ha. by destruct a. }
    rewrite Halt, IH.
    + rewrite <-!app_assoc. cbn. by rewrite <-plus_n_Sm.
    + cbn in Hlen. lia.
    + intros k e Hk. destruct (Hes (S k) e Hk) as (o' & a' & -> & Ho' & Ha'). exists o', a'.
      rewrite length_app. cbn. rewrite Ha'. split_and!; [f_equal; lia|done|lia].
Qed.

Lemma makeCompact_full l : wf l → makeCompactIfNecessary l = Ok l.
Proof.
  intros Hwf. unfold makeCompactIfNecessary. destruct (_ || _); [done|].
  destruct (wf_head _ Hwf) as (H0 & H1 & Hz). destruct (wf_awaker _ Hwf) as (f & Hf & Hfd).
  pose proof (wf_length _ Hwf) as Hlen. pose proof (wf_reserved _ Hwf) as Hres.
  unfold lookup_entry, lookup_fd, awakerSockIdx. rewrite H1, Hf. cbn [mbind res_bind].
  rewrite compact_loop_full.
  - cbn [mbind res_bind]. assert (Hne : fd f ≠ Tcp.INVALID_SOCKET) by (unfold Tcp.INVALID_SOCKET; lia).
    rewrite (bool_decide_eq_true_2 _ Hne).
    rewrite bool_decide_eq_true_2 by (rewrite (wf_used _ Hwf), length_drop; unfold reserved_capacity; lia).
    destruct l as [[|e0 [|e1 es]] [|f0 [|f1 fs]] ? ? ? ? ? ?]; cbn in *; try done; try lia. by simplify_eq.
  - rewrite !length_drop. lia.
  - intros k e He. rewrite lookup_drop in He. pose proof (lookup_lt_Some _ _ _ He).
    destruct (wf_entries _ Hwf (reserved_capacity + k)) as (o & a & Hp & Ha & Hi & _); [unfold reserved_capacity; lia|done|].
    rewrite He in Hp. exists o, a. by simplify_eq.
Qed.

Context `{!EventLoopSpec.EventLoopSpec.LoopOSLaws W}.

Lemma poll_length fds to w w' retval rs : sys_poll fds to w = (w', (retval, rs)) → length rs = length fds.
Proof. intros Hp. pose proof (EventLoopSpec.EventLoopSpec.poll_law fds to w) as Hl. rewrite Hp in Hl. apply Hl. Qed.

Lemma turn_spec l sh w0 now w retval a rs fuel :
  wf l → sys_now (Threads.os sh) = (w0, now) → sys_poll (drop 1 (osSide l)) (-1) w0 = (w, (retval, a :: rs)) →
  (0 < retval)%Z → length (osSide l) ≤ fuel →
  turn self fuel (l, sh) =
    (s ← serve_awaker a (answered (a :: rs) l, Threads.with_os w sh);
     s ← serve_first (first_ready 2 rs) s; Ok (s, true)).
Proof.
  intros Hwf Hnow Hp Hpos Hfuel. unfold turn, infraGetCurrentTime. cbn [fst snd]. rewrite Hnow.
  rewrite makeCompact_full by done. cbn [mbind res_bind]. unfold pollPhase2.
  pose proof (poll_length _ _ _ _ _ _ Hp) as Hlen. rewrite length_drop in Hlen. cbn in Hlen.
  rewrite (wait_spec _ _ w retval (a :: rs)) by done. cbn [negb].
  rewrite bool_decide_eq_false_2, bool_decide_eq_false_2 by lia.
  pose proof (EventLoopSpec.EventLoopSpec.poll_law (drop 1 (osSide l)) (-1) w0) as Hlaw. rewrite Hp in Hlaw.
  destruct Hlaw as [_ [?|[Hret _]]]; [lia|].
  rewrite (poll_loop_first a rs); [|by apply answered_wf| |done|done|lia].
  - change (Threads.with_os w (Threads.with_os w0 sh)) with (Threads.with_os w sh). by destruct (serve_awaker _ _).
  - intros k r Hk. cbn [fst]. cbn [osSide answered with_os]. rewrite answered_lookup by done. cbn [Nat.add].
    destruct (lookup_lt_is_Some_2 (osSide l) (S k)) as [f Hf]; [apply lookup_lt_Some in Hk; cbn in Hk; lia|].
    rewrite Hf, Hk. cbn. by eexists.
Qed.

(** C20. A turn of a listener thread first serves the messages of its awaker
    socket and then exactly one of the listening sockets: the first in the table
    that is ready. Whatever the later ones have to report waits for a turn in which
    no earlier one is ready. *)
Theorem turn_serves_first_ready l sh w0 now w retval a rs fuel :
  wf l → sys_now (Threads.os sh) = (w0, now) → sys_poll (drop 1 (osSide l)) (-1) w0 = (w, (retval, a :: rs)) →
  (0 < retval)%Z → length (osSide l) ≤ fuel →
  turn self fuel (l, sh) =
    (s ← serve_awaker a (answered (a :: rs) l, Threads.with_os w sh);
     s ← serve_first (first_ready 2 rs) s; Ok (s, true)).
Proof. apply turn_spec. Qed.

(** ** What stays the same *)
Record grows (s s' : t) : Prop := {
  gr_wf : wf s';
  gr_our : ∃ es, ourSide s' = ourSide s ++ es;
  gr_running : running s' = running s;
  gr_accepted : ∃ ks, accepted s' = accepted s ++ ks;
  gr_polled : ∀ i o a, polled s i o a → polled s' i o a;
}.
Lemma extends_grows s s' : extends s s' → grows s s'.
Proof. intros []. constructor; try done. exists []. by rewrite app_nil_r. Qed.
Lemma grows_trans s1 s2 s3 : grows s1 s2 → grows s2 s3 → grows s1 s3.
Proof.
  intros [_ [es1 H1] H2 [ks1 H3] H4] [Hw [es2 H1'] H2' [ks2 H3'] H4']. constructor; try done.
  - exists (es1 ++ es2). by rewrite H1', H1, app_assoc.
  - congruence.
  - exists (ks1 ++ ks2). by rewrite H3', H3, app_assoc.
  - intros i o a Hp. by apply H4', H4.
Qed.
Lemma log_accepted_grows sk s : wf s → grows s (log_accepted sk s).
Proof.
  intros []. constructor; try done; [|by eexists]. exists []. by rewrite app_nil_r.
Qed.

Lemma check_grows e r s s' : wf s.1 → infraCheckPollFdSet self e r s = Ok s' → grows s.1 s'.1.
Proof.
  intros Hwf. unfold infraCheckPollFdSet, onError. destruct (getAgentServer e) as [o| | | |]; try done. cbn [mbind res_bind].
  destruct (agent o s.1) as [a| | | |]; try done. cbn [mbind res_bind].
  pose proof (extends_grows _ _ (store_extends_refl _ Hwf)) as Hrefl.
  destruct (Tcp.has _ _); [by intros [= <-]|]. destruct (Tcp.has _ _).
  - unfold getAcceptedSockData. destruct (Server.internal_tcp_accept _ _) as [w [[[sk ip_] port]|]]; [|by intros [= <-]].
    unfold onConnection. case_bool_decide; [|done]. cbn [fst snd].
    destruct (Threads.getLeastLoadedWorkerAndIncrementLoad _) as [[sh id]| | | |]; try done. cbn [mbind res_bind].
    destruct (sendConnAcceptedEv _ _ _ _ _ _ _) as [sh'| | | |]; try done. cbn. intros [= <-]. by apply log_accepted_grows.
  - case_bool_decide; by intros [= <-].
Qed.

Lemma dispatch_grows i r s s' go : wf s.1 → dispatch self i r s = Ok (s', go) → grows s.1 s'.1.
Proof.
  intros Hwf. unfold dispatch. pose proof (extends_grows _ _ (store_extends_refl _ Hwf)) as Hrefl. case_bool_decide.
  - destruct (at_ i s.1) as [e| | | |]; try done. cbn [mbind res_bind].
    destruct (isAssociated e) as [[]| | | |]; try done; cbn [mbind res_bind].
    + destruct (infraCheckPollFdSet _ _ _ _) as [s1| | | |] eqn:Hc; try done. cbn. intros [= <- <-]. by eapply check_grows.
    + by intros [= <- <-].
  - case_bool_decide; [|by intros [= <- <-]]. destruct (getAwakerSockSocket _) as [sk| | | |]; try done. cbn [mbind res_bind].
    destruct (Threads.awaker_event _ _ _ _ _) as [s1| | | |] eqn:Ha; try done. cbn. intros [= <- <-].
    apply extends_grows. by eapply awaker_extends.
Qed.

Lemma poll_loop_grows fuel : ∀ i p retval s s', wf s.1 → poll_loop self fuel i p retval s = Ok s' → grows s.1 s'.1.
Proof.
  induction fuel as [|fuel IH]; intros i p retval s s' Hwf; cbn [poll_loop];
    pose proof (extends_grows _ _ (store_extends_refl _ Hwf)) as Hrefl.
  - case_bool_decide; [done|by intros [= <-]].
  - case_bool_decide; [|by intros [= <-]]. destruct (reventsAt i s.1) as [r| | | |]; try done. cbn [mbind res_bind].
    case_bool_decide; [|by apply IH]. destruct (dispatch self i r s) as [[s1 go]| | | |] eqn:Hd; try done. cbn [mbind res_bind].
    pose proof (dispatch_grows _ _ _ _ _ Hwf Hd) as Hg. destruct go; [|by intros [= <-]].
    intros Hl. eapply grows_trans; [exact Hg|]. eapply IH; [apply Hg|done].
Qed.

Lemma answered_grows rs l : length rs = length (osSide l) - 1 → wf l → grows l (answered rs l).
Proof.
  intros Hlen Hwf. constructor; try done.
  - by apply answered_wf.
  - exists []. by rewrite app_nil_r.
  - exists []. by rewrite app_nil_r.
  - intros i o a. by apply answered_polled.
Qed.

Lemma turn_grows fuel s s' go : wf s.1 → turn self fuel s = Ok (s', go) → grows s.1 s'.1 ∧ go = true.
Proof.
  intros Hwf. unfold turn, infraGetCurrentTime. destruct (sys_now _) as [w0 now]. cbn [fst snd].
  rewrite makeCompact_full by done. cbn [mbind res_bind]. unfold pollPhase2.
  destruct (sys_poll (drop 1 (osSide s.1)) (-1) w0) as [w [retval rs]] eqn:Hp.
  rewrite (wait_spec _ _ w retval rs) by done. cbn [negb].
  pose proof (poll_length _ _ _ _ _ _ Hp) as Hlen. rewrite length_drop in Hlen.
  pose proof (answered_grows _ _ Hlen Hwf) as Hg.
  case_bool_decide; [done|]. case_bool_decide; [by intros [= <- <-]|].
  destruct (poll_loop _ _ _ _ _ _) as [s1| | | |] eqn:Hl; try done. cbn. intros [= <- <-]. split; [|done].
  eapply grows_trans; [exact Hg|]. eapply (poll_loop_grows _ _ _ _ (answered rs s.1, _)); [apply Hg|exact Hl].
Qed.

(** C19. Whatever the system answers and whatever the messages ask for, a turn keeps
    the table of a listener thread well formed - every place taken, polled for input
    and known to its agent, the counters right - and never takes a socket out of it. *)
Theorem listener_table_invariant fuel s s' go :
  wf s.1 → turn self fuel s = Ok (s', go) →
  wf s'.1 ∧ (∀ i o a, polled s.1 i o a → polled s'.1 i o a) ∧ (∃ ks, accepted s'.1 = accepted s.1 ++ ks) ∧
  makeCompactIfNecessary s'.1 = Ok s'.1.
Proof.
  intros Hwf Ht. destruct (turn_grows _ _ _ _ Hwf Ht) as [Hg _].
  split_and!; [apply Hg..|]. apply makeCompact_full, Hg.
Qed.

Lemma loop_no_end turns fuel s s' : wf s.1 → running s.1 = true → loop self turns fuel s ≠ Ok s'.
Proof.
  revert s. induction turns as [|n IH]; intros s Hwf Hr; cbn [loop]; rewrite Hr; [done|].
  destruct (turn self fuel s) as [[s1 go]| | | |] eqn:Ht; try done. cbn [mbind res_bind].
  destruct (turn_grows _ _ _ _ Hwf Ht) as [Hg ->]. apply IH; [apply Hg|]. by rewrite (gr_running _ _ Hg).
Qed.

Lemma started_wf h l : setAwakerSocket h init = Ok l → (0 < h)%Z → wf l ∧ running l = true.
Proof.
  intros [= <-] Hh. split; [|done]. constructor; cbn; try done; try (intros; lia); by eexists.
Qed.

(** The loop of a listener thread, once started, never returns: nothing clears
    [running], and the awaker socket alone keeps [wait] waiting. *)
Theorem listener_loop_never_returns turns fuel h sh s' : (0 < h)%Z → runLoop self turns fuel h (init, sh) ≠ Ok s'.
Proof.
  intros Hh. unfold runLoop. cbn [fst snd]. destruct (setAwakerSocket h init) as [l| | | |] eqn:Hl; try done. cbn [mbind res_bind].
  destruct (reportThreadStarted _ _) as [sh'| | | |]; try done. cbn [mbind res_bind].
  destruct (started_wf _ _ Hl Hh). by apply loop_no_end.
Qed.

(** ** A connection *)

(** the place of the worker whose turn it is *)
Definition next_worker (ws : WorkerLoad.t ThreadID) : nat :=
  if bool_decide (S (WorkerLoad.current ws) < WorkerLoad.usedSlotCnt ws) then S (WorkerLoad.current ws) else 0.

(** C17. A connection accepted from the socket of an agent becomes exactly one
    message, at the end of the queue of one worker, with the
    place of the server in the workers' tables, the descriptor and the address of the
    peer. The worker is the one after the last one chosen, in a circle, whatever the loads are; its load
    has grown by one, the other loads and everything else are as before. *)
Theorem connection_dispatched l sh i o a w w' sk ip_ port load id slot h :
  wf l → 2 ≤ i → polled l i o a →
  Server.internal_tcp_accept (osSocket a) (Threads.os sh) = (w, Some (sk, ip_, port)) → sk ≠ 0%Z →
  WorkerLoad.wf (Threads.workerLoad sh) → (WorkerLoad.totalLoadCtr (Threads.workerLoad sh) < 2 ^ 31)%Z →
  WorkerLoad.workers (Threads.workerLoad sh) !! next_worker (Threads.workerLoad sh) = Some (load, id) →
  post_check id (Threads.threadQueues sh) = Ok (slot, h) →
  sys_sendto h [Some x01] w = (w', inl 1) →
  ∃ wl, WorkerLoad.wf wl ∧ WorkerLoad.current wl = next_worker (Threads.workerLoad sh) ∧
    WorkerLoad.workers wl =
      <[next_worker (Threads.workerLoad sh) := ((load + 1)%Z, id)]> (WorkerLoad.workers (Threads.workerLoad sh)) ∧
    serve_first (Some (i, Tcp.POLLIN)) (l, sh) =
      Ok (log_accepted sk l,
          Threads.mk (Threads.threadQueues sh)
            (Threads.queue_push slot
               (Msg.mk (PConnAccepted (mkConnAccepted 0 (entryIndexAtSlave a) sk ip_ port)) ConnAccepted self id)
               (Threads.queues sh))
            wl (Threads.listeners sh) w').
Proof.
  intros Hwf Hi Hp Hacc Hsk Hlw Htot Hnext Hpost Hsend.
  destruct (InterThreadSpec.worker_choice_ignores_load (Threads.workerLoad sh) Hlw) as (load' & id' & wl & Hn & Hcand & Hcur & Hws & Hlw');
    [|done|].
  { intros Hz. unfold WorkerLoad.usedSlotCnt in Hz. apply nil_length_inv in Hz. by rewrite Hz in Hnext. }
  fold (next_worker (Threads.workerLoad sh)) in Hn, Hcur, Hws. rewrite Hnext in Hn. injection Hn as <- <-.
  exists wl. do 3 (split; [done|]). unfold serve_first. cbn [fst].
  rewrite (polled_at _ _ _ _ Hi Hp). cbn [mbind res_bind]. destruct Hp as (_ & Ha & _).
  unfold infraCheckPollFdSet, getAgentServer, agent. cbn [ptr mbind res_bind fst]. rewrite Ha. cbn [mbind res_bind].
  change (Tcp.has Tcp.POLLIN (Z.lor Tcp.POLLERR Tcp.POLLNVAL)) with false.
  change (Tcp.has Tcp.POLLIN Tcp.POLLIN) with true. cbv iota.
  unfold getAcceptedSockData. cbn [snd]. rewrite Hacc. unfold onConnection. rewrite bool_decide_eq_true_2 by done.
  unfold Threads.getLeastLoadedWorkerAndIncrementLoad. cbn [snd Threads.workerLoad Threads.with_os]. rewrite Hcand. cbn [mbind res_bind].
  unfold sendConnAcceptedEv, Threads.postInterThreadMsg. cbn [Threads.threadQueues Threads.with_os Threads.with_load].
  rewrite Hpost. cbn [mbind res_bind]. rewrite Casts.internal_send_packet_small by (cbn; lia). cbn [Threads.os Threads.with_os Threads.with_load Threads.with_queues].
  rewrite Hsend. by cbn.
Qed.

(** ** A broken socket *)
Fixpoint turns (n fuel : nat) (s : t * Threads.t W) : res (t * Threads.t W) :=
  match n with O => Ok s | S n => '(s, _) ← turn self fuel s; turns n fuel s end.

Definition fds_of (fs : list pollfd) : list Z := (λ f, fd f) <$> fs.
Lemma answered_fds rs l :
  length rs = length (osSide l) - 1 → fds_of (drop 1 (osSide (answered rs l))) = fds_of (drop 1 (osSide l)).
Proof.
  intros Hlen. apply list_eq. intros i. unfold fds_of. rewrite !list_lookup_fmap, !lookup_drop. cbn [osSide answered with_os].
  rewrite answered_lookup by done. cbn. destruct (osSide l !! S i) as [f|] eqn:Hf; [|done]. cbn.
  destruct (lookup_lt_is_Some_2 rs i) as [r ->]; [apply lookup_lt_Some in Hf; lia|]. done.
Qed.

(** A listening socket that reports an error is never taken out of the table: as
    long as it does, and no message arrives, no turn accepts a connection from any
    server behind it, and the thread spins without waiting. *)
Theorem broken_server_blocks_the_rest (P : W → Prop) j o a n fuel l sh :
  wf l → 2 ≤ j → polled l j o a → length (osSide l) ≤ fuel → P (Threads.os sh) →
  (∀ w, P w → P (sys_now w).1) → (∀ k w, P w → P (sys_so_error k w).1) →
  (∀ w fds, P w → fds_of fds = fds_of (drop 1 (osSide l)) → ∃ w' rs r,
     sys_poll fds (-1) w = (w', (Z.of_nat (ready_count (0%Z :: rs)), 0%Z :: rs)) ∧ P w' ∧
     first_ready 2 rs = Some (j, r) ∧ Tcp.has r (Z.lor Tcp.POLLERR Tcp.POLLNVAL) = true) →
  ∃ l' w', turns n fuel (l, sh) = Ok (l', Threads.with_os w' sh) ∧ accepted l' = accepted l ∧ ourSide l' = ourSide l.
Proof.
  intros Hwf Hj Hp Hfuel HP Hnow Herr Hpoll. revert l sh Hwf Hp Hfuel HP Hpoll.
  induction n as [|n IH]; intros l sh Hwf Hp Hfuel HP Hpoll; cbn [turns].
  - exists l, (Threads.os sh). by destruct sh.
  - destruct (sys_now (Threads.os sh)) as [w0 now] eqn:Hn. pose proof (Hnow _ HP) as HP0. rewrite Hn in HP0.
    destruct (Hpoll w0 (drop 1 (osSide l)) HP0) as (w & rs & r & Heq & HPw & Hfirst & Hhas); [done|].
    pose proof (poll_length _ _ _ _ _ _ Heq) as Hlen. rewrite length_drop in Hlen. cbn in Hlen.
    assert (Hcount : ∀ i rs, first_ready i rs ≠ None → 0 < ready_count rs).
    { clear. intros i rs. revert i. induction rs as [|r rs IH]; intros i Hf; [done|]. rewrite ready_count_cons. cbn in Hf.
      case_bool_decide; [lia|]. specialize (IH _ Hf). lia. }
    assert (Hpos : 0 < ready_count (0%Z :: rs)).
    { apply (Hcount 1). cbn. by rewrite Hfirst. }
    rewrite (turn_spec _ _ w0 now w _ 0 rs _ Hwf Hn Heq) by (done || lia).
    unfold serve_awaker. rewrite bool_decide_eq_false_2 by lia. cbn [mbind res_bind]. rewrite Hfirst. unfold serve_first.
    pose proof (answered_polled (0%Z :: rs) _ _ _ _ Hlen Hp) as Hp'. cbn [fst].
    rewrite (polled_at _ _ _ _ Hj Hp'). cbn [mbind res_bind]. unfold infraCheckPollFdSet, getAgentServer, agent. cbn [ptr mbind res_bind fst].
    destruct Hp' as (? & Ha & ?). rewrite Ha. cbn [mbind res_bind]. rewrite Hhas. cbn [mbind res_bind onError so_error fst snd].
    destruct (IH (answered (0%Z :: rs) l) (Threads.with_os (sys_so_error (osSocket a) w).1 sh)) as (l' & w' & Heq' & Hac & Hour).
    + by apply answered_wf.
    + by apply answered_polled.
    + rewrite <-(wf_length _ (answered_wf (0%Z :: rs) l Hlen Hwf)). cbn. by rewrite (wf_length _ Hwf).
    + by apply Herr.
    + intros w1 fds HP1 Hfds. apply Hpoll; [done|]. by rewrite Hfds, answered_fds.
    + exists l', w'. split; [exact Heq'|]. split; [by rewrite Hac|by rewrite Hour].
Qed.
End thread.
End ListenerSpec.

(** ** Concrete instances: a listener thread with one socket *)
Module ListenerExample.
Import Msg ThreadSlots Listener ListenerSpec TcpExample ServerExample.
Abbreviation system := TcpExample.net.

#[export] Instance listener_os : ListenerOS system := {| sys_reuse_port _ w := (w, true) |}.

(** the awaker socket is quiet, every other descriptor answers [r] *)
Definition answers_with (r : Z) (fds : list pollfd) : list Z :=
  match fds with
  | [] => []
  | _ :: fds => 0%Z :: ((λ f, if bool_decide (fd f < 0)%Z then 0%Z else r) <$> fds)
  end.
Definition loop_with (r : Z) : LoopOS system := {|
  sys_poll fds _ w := (w, (Z.of_nat (EventLoopSpec.EventLoopSpec.ready_count (answers_with r fds)), answers_with r fds));
  sys_now w := (w, 100%Z);
|}.
Lemma loop_with_laws r : @EventLoopSpec.EventLoopSpec.LoopOSLaws system (loop_with r).
Proof.
  constructor. intros fds timeout w. cbn. split; [destruct fds; cbn; [done|by rewrite length_fmap]|]. right. split; [done|].
  intros j f x Hf Hx Hneg. destruct fds as [|f0 fds], j as [|j]; cbn in *; simplify_eq; [done|].
  assert (Hx' : ((λ f, if bool_decide (fd f < 0)%Z then 0%Z else r) <$> fds) !! j = Some x) by exact Hx.
  assert (Hf' : fds !! j = Some f) by exact Hf. rewrite list_lookup_fmap, Hf' in Hx'. cbn in Hx'. rewrite bool_decide_eq_true_2 in Hx' by done. by injection Hx'.
Qed.

Definition agent9 : AgentServer := mkAgent (2 ^ 63) 2 true 9 Server.Unused (Server.mkAddress 2000 family 0%Z).
Definition one_server : t :=
  mk [empty_entry 0; empty_entry 0; mkEntry SockAssociated 2 true (Some 0)] [zero_fd; mkFd 20 1 0; mkFd 9 1 0] 2 2
     {[0 := agent9]} [Some 0] true [].
Lemma one_server_polled : polled one_server 2 0 agent9.
Proof. split_and!; try done. by eexists. Qed.
Lemma one_server_wf : wf one_server.
Proof.
  constructor; cbn; try done; try lia.
  - intros [|[|[|i]]] ? ?; try lia. exists 0, agent9. apply one_server_polled.
  - by eexists.
Qed.

(** one worker, in slot 1, with nothing in its queue *)
Definition worker1 : ThreadID := mkID 1 1.
Definition slots1 : ThreadSlots.t Empty_set :=
  [CommData.mk 30 0 None CommData.acquired; CommData.mk 31 1 None CommData.acquired].
Definition shared1 : Threads.t system :=
  Threads.mk slots1 [[]; []] (WorkerLoad.mk [(0%Z, worker1)] 0 0) Listeners.init (TcpExample.mkNet [] false [] [inl 1] true).

(** three workers, the second one chosen last; its neighbour is next although it has the most to do *)
Definition busy : WorkerLoad.t ThreadID := WorkerLoad.mk [(0, worker1); (1, worker1); (7, worker1)]%Z 8 1.

Lemma busy_wf : WorkerLoad.wf busy.
Proof.
  constructor; [|done|left; cbn; lia].
  do 3 (apply Forall_cons; split; [cbn; lia|]). by apply Forall_nil.
Qed.

Lemma connection_dispatched_witness :
  ∃ wl, WorkerLoad.wf wl ∧ WorkerLoad.current wl = 2 ∧
    WorkerLoad.workers wl = [(0, worker1); (1, worker1); (8, worker1)]%Z ∧
    serve_first (mkID 2 1) (Some (2, Tcp.POLLIN)) (one_server, Threads.with_load busy shared1) =
      Ok (log_accepted 12 one_server,
          Threads.mk slots1
            [[]; [Msg.mk (PConnAccepted (mkConnAccepted 0 (2 ^ 63) 12 16777343%Z 20480%Z)) ConnAccepted (mkID 2 1) worker1]]
            wl Listeners.init (TcpExample.mkNet [Some x01] false [] [] true)).
Proof.
  apply (connection_dispatched (mkID 2 1) one_server (Threads.with_load busy shared1) 2 0 agent9 (Threads.os shared1)
           (TcpExample.mkNet [Some x01] false [] [] true) 12 16777343%Z 20480%Z 7 worker1 1 31);
    first [apply one_server_wf|apply one_server_polled|done|idtac].
  apply busy_wf.
Defined.

Lemma turn_serves_first_ready_witness :
  @turn system _ _ (loop_with 1) _ (mkID 2 1) 3 (one_server, shared1) =
    (s ← Ok (answered [0; 1]%Z one_server, shared1);
     s ← serve_first (mkID 2 1) (Some (2, 1%Z)) s; Ok (s, true)).
Proof.
  rewrite (@turn_serves_first_ready system _ _ (loop_with 1) _ (mkID 2 1) (loop_with_laws 1) one_server shared1 (Threads.os shared1) 100
            (Threads.os shared1) 1 0 [1]%Z 3); try done.
  apply one_server_wf.
Defined.

Lemma listener_table_invariant_witness : ∃ s' : t * Threads.t system,
  @turn system _ _ (loop_with 1) _ (mkID 2 1) 3 (one_server, shared1) = Ok (s', true) ∧ accepted s'.1 = [12]%Z ∧ wf s'.1.
Proof.
  eexists. split; [reflexivity|]. split; [reflexivity|].
  refine (proj1 (@listener_table_invariant system _ _ (loop_with 1) _ (mkID 2 1) (loop_with_laws 1) 3 (one_server, shared1)
                   _ true one_server_wf _)). reflexivity.
Defined.

Lemma listener_loop_never_returns_witness :
  (0 < 20)%Z ∧ ∀ turns s', @runLoop system _ _ (loop_with 1) _ (mkID 2 1) turns 3 20 (init, shared1) ≠ Ok s'.
Proof.
  split; [lia|]. intros turns s'.
  apply (@listener_loop_never_returns system _ _ (loop_with 1) _ (mkID 2 1) (loop_with_laws 1) turns 3 20 shared1 s'). lia.
Defined.

Lemma broken_server_blocks_the_rest_witness : ∃ (l' : t) (w' : system),
  @turns system _ _ (loop_with 8) _ (mkID 2 1) 1000 3 (one_server, shared1) = Ok (l', Threads.with_os w' shared1) ∧
  accepted l' = [] ∧ ourSide l' = ourSide one_server.
Proof.
  apply (@broken_server_blocks_the_rest system _ _ (loop_with 8) _ (mkID 2 1) (loop_with_laws 8) (λ _, True) 2 0 agent9 1000 3
           one_server shared1); try first [apply one_server_wf|apply one_server_polled|done].
  - intros w fds _ Hfds. destruct fds as [|f0 [|f1 [|]]]; cbn in Hfds; simplify_eq. exists w, [8]%Z, 8%Z.
    cbn. by rewrite H0.
Defined.
End ListenerExample.
