(* ===== verification/Cluster.v ===== *)
(** * The master and the workers (include/nodecpp/cluster.h, src/clustering_impl/clustering.cpp,
    src/tcp_socket/tcp_socket.h, src/net.cpp, src/infra_main.cpp)

    [Module Cluster] models the thread's [Cluster] object and what it does with a
    message: at the master, the agents that stand for the servers of the workers;
    at a worker, its table of servers without a socket and the connections it is
    sent. [Module Worker] is written against the class [WorkerNode], the node of a
    worker as far as the cluster is concerned; Server.v provides it in
    ClusterSpec.v. [use_shared] is [NODECPP_USE_SHARED_SOCKS_FOR_LISTENERS]. *)

From S2P Require Import Prelude HttpMessage InterThread NetRegistry TcpSocket Address Server Threads.
From Stdlib Require Import Lia.

Module Cluster.
Import Msg ThreadSlots.
#[local] Existing Instances Tcp.ret_eq_dec Server.state_eq_dec Ip.Family_eq_dec.

(** [AgentServer] with its [DataForCommandProcessing]; [index] is never set *)
Record AgentServer : Type := mkAgent {
  socketsToSlaves : list (Z * ThreadID);     (* [entryIndex], [targetThreadId] *)
  refed : bool;
  osSocket : Z;
  a_state : Server.State;
  localAddress : Server.Address;
  nextStep : nat;
  requestID : Z;
}.
Definition new_agent : AgentServer := mkAgent [] false 0 Server.Unused Server.no_address 0 (2 ^ 64 - 1).
Definition with_slave (x : Z * ThreadID) (a : AgentServer) : AgentServer :=
  mkAgent (socketsToSlaves a ++ [x]) (refed a) (osSocket a) (a_state a) (localAddress a) (nextStep a) (requestID a).
Definition with_socket (sk : Z) (a : AgentServer) : AgentServer :=
  mkAgent (socketsToSlaves a) (refed a) sk (a_state a) (localAddress a) (nextStep a) (requestID a).
Definition with_address (r : bool) (st : Server.State) (x : Server.Address) (a : AgentServer) : AgentServer :=
  mkAgent (socketsToSlaves a) r (osSocket a) st x (nextStep a) (requestID a).
Definition with_step (n : nat) (a : AgentServer) : AgentServer :=
  mkAgent (socketsToSlaves a) (refed a) (osSocket a) (a_state a) (localAddress a) n (requestID a).
Definition with_request (x : Z) (a : AgentServer) : AgentServer :=
  mkAgent (socketsToSlaves a) (refed a) (osSocket a) (a_state a) (localAddress a) (nextStep a) x.
Definition listening (a : AgentServer) : bool := bool_decide (a_state a = Server.Listening).

(** [Cluster]: [thisThreadWorker.id_], the ids of [workers_], the agents in their
    owners and [slaveProcessor.requestIdBase] *)
Record t : Type := mk {
  id_ : Z;
  workers_ : list Z;
  coreCtr : Z;
  agentServers : list (option AgentServer);
  requestIdBase : Z;
}.
Definition with_agents (x : list (option AgentServer)) (c : t) : t :=
  mk (id_ c) (workers_ c) (coreCtr c) x (requestIdBase c).
Definition with_workers (x : list Z) (n : Z) (c : t) : t := mk (id_ c) x n (agentServers c) (requestIdBase c).
Definition next_request (c : t) : t :=
  mk (id_ c) (workers_ c) (coreCtr c) (agentServers c) (u64 (requestIdBase c + 1)).

Definition isMaster (c : t) : bool := bool_decide (id_ c = 0%Z).
Definition isWorker (c : t) : bool := bool_decide (id_ c ≠ 0%Z).
(** [preinitMaster], [preinitSlave] *)
Definition preinit (id : Z) : t := mk id [] 0 [] 0.

Definition family : Ip.Family := Ip.family_of (Str.str "IPv4").

Section master.
Context {W : Type} `{!OS W, !ServerOS W}.
Context (use_shared : bool).
Context (self : ThreadID).
Abbreviation state := (t * Threads.t W)%type.
Abbreviation on_threads := (λ (f : Threads.t W → res (Threads.t W)) (s : state), sh ← f s.2; Ok (s.1, sh)).

(** ** Messages of the master *)
Definition sendListeningEv (target : ThreadID) (rid : Z) (sh : Threads.t W) : res (Threads.t W) :=
  Threads.postInterThreadMsg self (PListeningEv (mkListeningEv rid)) ServerListening target sh.
Definition sendConnAcceptedEv (target : ThreadID) (internalID rid sk : Z) (remoteIp : Ip.Ip4) (remotePort : Ip.Port)
    (sh : Threads.t W) : res (Threads.t W) :=
  Threads.postInterThreadMsg self (PConnAccepted (mkConnAccepted rid internalID sk remoteIp remotePort)) ConnAccepted target sh.
Definition sendServerErrorEv (target : ThreadID) (rid : Z) (sh : Threads.t W) : res (Threads.t W) :=
  Threads.postInterThreadMsg self (PServerError (mkServerError rid)) ServerError target sh.
Definition sendServerCloseNotification (target : ThreadID) (entryIdx rid : Z) (err : bool) (sh : Threads.t W) : res (Threads.t W) :=
  Threads.postInterThreadMsg self (PCloseNotification (mkCloseNotification rid entryIdx err)) ServerClosedNotification target sh.

(** ** Agents *)
Definition agent (i : nat) (c : t) : res AgentServer :=
  match agentServers c !! i with Some (Some a) => Ok a | _ => UB end.
Definition put (i : nat) (a : AgentServer) (c : t) : t := with_agents (<[i := Some a]> (agentServers c)) c.

(** [onConnection] and [onError] of an agent *)
Definition onConnection (sk : Z) (remoteIp : Ip.Ip4) (remotePort : Ip.Port) (a : AgentServer) (sh : Threads.t W)
  : res (AgentServer * Threads.t W) :=
  ASSERT bool_decide (sk ≠ 0%Z) ;;
  ASSERT bool_decide (length (socketsToSlaves a) ≠ 0) ;;
  let n := nextStep a mod length (socketsToSlaves a) in
  match socketsToSlaves a !! n with
  | None => UB
  | Some (entryIndex, target) =>
      sh ← sendConnAcceptedEv target entryIndex (requestID a) sk remoteIp remotePort sh;
      Ok (with_step (S n) a, sh)
  end.

(** for every worker of the agent a message is sent to that of [nextStep] *)
Fixpoint send_errors (n : nat) (a : AgentServer) (sh : Threads.t W) : res (Threads.t W) :=
  match n with
  | O => Ok sh
  | S n =>
      match socketsToSlaves a !! nextStep a with
      | None => UB
      | Some (_, target) => sh ← sendServerErrorEv target (requestID a) sh; send_errors n a sh
      end
  end.
Definition onError (a : AgentServer) (sh : Threads.t W) : res (Threads.t W) := send_errors (length (socketsToSlaves a)) a sh.

Definition appAddAgentServer (a : AgentServer) (sh : Threads.t W) : res (AgentServer * Threads.t W) :=
  let '(w, sk) := Tcp.internal_make_tcp_socket (Threads.os sh) in
  if bool_decide (sk = Tcp.INVALID_SOCKET) then Thrown
  else Ok (with_socket sk a, Threads.with_os w sh).

(** the first free place of [agentServers], or a new one *)
Fixpoint place (i : nat) (l : list (option AgentServer)) : nat :=
  match l with
  | None :: _ => i
  | Some _ :: l => place (S i) l
  | [] => i
  end.
Definition put_at (i : nat) (a : AgentServer) (l : list (option AgentServer)) : list (option AgentServer) :=
  if bool_decide (i < length l) then <[i := Some a]> l else l ++ [Some a].

Definition createAgentServer (s : state) : res (state * nat) :=
  '(a, sh) ← (if use_shared then Ok (new_agent, s.2) else appAddAgentServer new_agent s.2);
  let i := place 0 (agentServers s.1) in
  Ok ((with_agents (put_at i a (agentServers s.1)) s.1, sh), i).

Definition appAgentAtMasterListen (a : AgentServer) (ip_ : Ip.Ip4) (port backlog : Z) (sh : Threads.t W)
  : res (AgentServer * Threads.t W) :=
  let '(w, bound) := sys_bind (osSocket a) ip_ (Ip.Port_fromHost port) (Threads.os sh) in
  if negb bound then Thrown
  else
    '(w, port) ← (if bool_decide (port = 0%Z) then
                    let '(w, p) := Server.internal_port_of_tcp_socket (osSocket a) w in
                    if bool_decide (p = 0%Z) then Thrown else Ok (w, p)
                  else Ok (w, port));
    let '(w, listens) := sys_listen (osSocket a) backlog w in
    if (listens : bool)
    then Ok (with_address true (a_state a) (Server.mkAddress port family ip_) a, Threads.with_os w sh)
    else Thrown.

Definition address_eqb (a b : Server.Address) : bool :=
  bool_decide (Server.a_port a = Server.a_port b) && bool_decide (Server.a_ip a = Server.a_ip b) &&
  bool_decide (Server.a_family a = Server.a_family b).

Definition is_agent_of (addr : Server.Address) (rid : Z) (a : AgentServer) : bool :=
  address_eqb (localAddress a) addr && bool_decide (requestID a = rid).

(** the first agent that satisfies [p] *)
Fixpoint find_agent (p : AgentServer → bool) (i : nat) (l : list (option AgentServer)) : option (nat * AgentServer) :=
  match l with
  | [] => None
  | Some a :: l => if p a then Some (i, a) else find_agent p (S i) l
  | None :: l => find_agent p (S i) l
  end.

(** the request to each of the first [maxUsed] entries of the table *)
Fixpoint tell_listeners (rq : RequestToListenerThread) (ids : list ThreadID) (sh : Threads.t W) : res (Threads.t W) :=
  match ids with
  | [] => Ok sh
  | id :: ids =>
      sh ← Threads.postInterThreadMsg self (PRequest rq) RequestToListeningThread id sh;
      tell_listeners rq ids sh
  end.

Definition listening_threads (sh : Threads.t W) : list ThreadID :=
  take (Threads.getListeners sh).2 (Threads.getListeners sh).1.

Definition processRequestForListeningAtMaster (target : ThreadID) (entryIndex rid : Z) (addr : Server.Address) (backlog : Z)
    (s : state) : res (state * bool) :=
  ASSERT isMaster s.1 ;;
  match find_agent (is_agent_of addr rid) 0 (agentServers s.1) with
  | Some (i, a) => Ok ((put i (with_slave (entryIndex, target) a) s.1, s.2), listening a)
  | None =>
      '(s, i) ← createAgentServer s;
      a ← agent i s.1;
      let a := with_slave (entryIndex, target) (with_request rid a) in
      '(a, sh) ← (if use_shared then Ok (with_address (refed a) Server.Listening addr a, s.2)
                  else appAgentAtMasterListen a (Server.a_ip addr) (Server.a_port addr) backlog s.2);
      let rq := mkRequest (if use_shared then CreateSharedServerSocket else AddServerSocket) entryIndex (osSocket a)
                  (Server.a_ip addr) (Ip.Port_fromHost (Server.a_port addr)) backlog in
      sh ← tell_listeners rq (listening_threads sh) sh;
      Ok ((put i a s.1, sh), false)
  end.

Definition serves (entryIdx : Z) (a : AgentServer) : bool := existsb (λ sl, bool_decide (sl.1 = entryIdx)) (socketsToSlaves a).

(** [AgentServer::close] looks up the entry at the agent's [index], which nothing
    has set: an agent is in no table *)
Definition agent_close (i : nat) (s : state) : res state := UB.

Fixpoint notify_closed (rid : Z) (sls : list (Z * ThreadID)) (sh : Threads.t W) : res (Threads.t W) :=
  match sls with
  | [] => Ok sh
  | (entryIndex, target) :: sls =>
      sh ← sendServerCloseNotification target entryIndex rid false sh; notify_closed rid sls sh
  end.

Definition processRequestForServerCloseAtMaster (mh : ServerCloseRequestMsg) (s : state) : res state :=
  ASSERT isMaster s.1 ;;
  match find_agent (λ a, bool_decide (requestID a = cr_requestID mh) && serves (cr_entryIdx mh) a) 0 (agentServers s.1) with
  | None => AssertFail
  | Some (i, a) =>
      s ← agent_close i s;
      sh ← notify_closed (requestID a) (socketsToSlaves a) s.2;
      Ok (s.1, sh)
  end.

(** what the master does with a message *)
Definition processInterthreadRequest (m : InterThreadMsg) (s : state) : res state :=
  match msgType m with
  | ThreadStarted => Ok s
  | ServerListening =>
      rq ← as_ListeningRequest (msg m);
      let addr := Server.mkAddress (lr_port rq) (lr_family rq) (lr_ip rq) in
      '(s, already) ← processRequestForListeningAtMaster (sourceThreadID m) (lr_entryIndex rq) (lr_requestID rq) addr (lr_backlog rq) s;
      if (already : bool) then
        sh ← sendListeningEv (sourceThreadID m) (lr_requestID rq) s.2; Ok (s.1, sh)
      else Ok s
  | ServerCloseRequest => rq ← as_CloseRequest (msg m); processRequestForServerCloseAtMaster rq s
  | _ => AssertFail
  end.

(** the awaker socket in [pollPhase2] of the master *)
Definition master_awaker (awakerSock ev : Z) (s : state) : res state :=
  Threads.awaker_event processInterthreadRequest self awakerSock ev s.

(** [fork]: the address of the new worker's thread, its handle to read from and
    its id *)
Definition fork (i : Threads.InterThreadCommInitializer) (s : state) : res (state * (ThreadID * Z * Z)) :=
  '(sh, id, readHandle) ← Threads.newThread i s.2;
  let wid := u64 (coreCtr s.1 + 1) in
  Ok ((with_workers (workers_ s.1 ++ [wid]) wid s.1, sh), (id, readHandle, wid)).
End master.
End Cluster.

(** ** The node of a worker *)

(** what the cluster needs of it: [wn_create] makes a server object, [wn_set_address]
    its [localAddress], [wn_begin_close] sets its state to [BeingClosed] and gives
    the number of its sockets, [wn_report_ended] is [appReportAllAceptedConnectionsEnded]
    for an index, [wn_consume] hands an accepted connection to a server, [wn_destroy]
    ends a server. *)
Class WorkerNode (Ob N W : Type) := {
  wn_create : N → N * Ob;
  wn_set_address : Ob → Server.Address → N → res N;
  wn_begin_close : Ob → N → res (N * nat);
  wn_report_ended : Z → N → res N;
  wn_consume : Ob → Z → Ip.Ip4 → Ip.Port → N → W → res (N * W);
  wn_destroy : Ob → N → res N;
}.

Module Worker.
Import Msg ThreadSlots.

Definition SlaveServerEntryMinIndex : Z := (2 ^ 63)%Z.

Section worker.
Context {Ob N W : Type} `{Countable Ob} `{!OS W, !ServerOS W, !WorkerNode Ob N W}.
Context (self : ThreadID).

(** an entry of [slaveServers] *)
Record SlaveEntry : Type := mkSlave {
  sl_state : NetRegistry.NetRegistry.State; sl_index : Z; sl_refed : bool; sl_ptr : option Ob;
}.
Record AcceptedSocketData : Type := mkAccepted { as_idx : Z; as_socket : Z; as_ip : Ip.Ip4; as_port : Ip.Port }.

(** A worker's part of the cluster: [servers] are the server objects with their
    [index], [consumed] the sockets handed to servers; the code does not read it. *)
Record t : Type := mk {
  cluster : Cluster.t;
  workerIdxInLoadCollector : nat;
  slaveServers : list SlaveEntry;
  servers : gmap Ob Z;
  acceptedSockets : list AcceptedSocketData;
  receivedListeningEvs : list Z;
  node : N;
  consumed : list Z;
}.
Definition with_cluster (x : Cluster.t) (s : t) : t :=
  mk x (workerIdxInLoadCollector s) (slaveServers s) (servers s) (acceptedSockets s) (receivedListeningEvs s) (node s) (consumed s).
Definition with_slaves (x : list SlaveEntry) (s : t) : t :=
  mk (cluster s) (workerIdxInLoadCollector s) x (servers s) (acceptedSockets s) (receivedListeningEvs s) (node s) (consumed s).
Definition with_servers (x : gmap Ob Z) (s : t) : t :=
  mk (cluster s) (workerIdxInLoadCollector s) (slaveServers s) x (acceptedSockets s) (receivedListeningEvs s) (node s) (consumed s).
Definition with_accepted (x : list AcceptedSocketData) (s : t) : t :=
  mk (cluster s) (workerIdxInLoadCollector s) (slaveServers s) (servers s) x (receivedListeningEvs s) (node s) (consumed s).
Definition with_listening (x : list Z) (s : t) : t :=
  mk (cluster s) (workerIdxInLoadCollector s) (slaveServers s) (servers s) (acceptedSockets s) x (node s) (consumed s).
Definition with_node (x : N) (s : t) : t :=
  mk (cluster s) (workerIdxInLoadCollector s) (slaveServers s) (servers s) (acceptedSockets s) (receivedListeningEvs s) x (consumed s).
Definition log_consumed (sk : Z) (s : t) : t :=
  mk (cluster s) (workerIdxInLoadCollector s) (slaveServers s) (servers s) (acceptedSockets s) (receivedListeningEvs s) (node s)
     (consumed s ++ [sk]).
Abbreviation state := (t * Threads.t W)%type.

(** ** The table of the servers *)
Definition is_valid (e : SlaveEntry) (s : t) : bool :=
  match sl_ptr e with Some o => bool_decide (is_Some (servers s !! o)) | None => false end.
Definition isUsed (e : SlaveEntry) (s : t) : res bool :=
  ASSERT bool_decide (sl_state e = NetRegistry.NetRegistry.Unused) || is_valid e s ;;
  Ok (bool_decide (sl_state e ≠ NetRegistry.NetRegistry.Unused)).
Definition getServerSocket (e : SlaveEntry) (s : t) : res Ob :=
  ASSERT is_valid e s ;;
  match sl_ptr e with Some o => Ok o | None => AssertFail end.

Definition slaveServerAt (idx : Z) (s : t) : res SlaveEntry :=
  ASSERT bool_decide (SlaveServerEntryMinIndex ≤ idx)%Z ;;
  ASSERT bool_decide (idx < SlaveServerEntryMinIndex + Z.of_nat (length (slaveServers s)))%Z ;;
  match slaveServers s !! Z.to_nat (idx - SlaveServerEntryMinIndex) with Some e => Ok e | None => UB end.
(** [slaveServerAt( idx )] as a reference that is assigned *)
Definition set_slave (idx : Z) (e : SlaveEntry) (s : t) : t :=
  with_slaves (<[Z.to_nat (idx - SlaveServerEntryMinIndex) := e]> (slaveServers s)) s.

Fixpoint find_unused (i : nat) (es : list SlaveEntry) (s : t) : res (option nat) :=
  match es with
  | [] => Ok None
  | e :: es => u ← isUsed e s; if (u : bool) then find_unused (S i) es s else Ok (Some i)
  end.

Definition addSlaveServerEntry (o : Ob) (s : t) : res t :=
  ASSERT Cluster.isWorker (cluster s) ;;
  free ← find_unused 0 (slaveServers s) s;
  let i := match free with Some i => i | None => length (slaveServers s) end in
  let idx := (SlaveServerEntryMinIndex + Z.of_nat i)%Z in
  let e := mkSlave NetRegistry.NetRegistry.SockIssued idx false (Some o) in
  let s := with_servers (<[o := idx]> (servers s)) s in
  Ok (with_slaves (match free with Some i => <[i := e]> (slaveServers s) | None => slaveServers s ++ [e] end) s).

Definition setSlaveSocketClosed (idx : Z) (s : t) : res t :=
  e ← slaveServerAt idx s;
  ASSERT bool_decide (sl_state e ≠ NetRegistry.NetRegistry.Unused) ;;
  Ok (set_slave idx (mkSlave NetRegistry.NetRegistry.SockClosed (sl_index e) (sl_refed e) (sl_ptr e)) s).
Definition setSlaveServerUnused (idx : Z) (s : t) : res t :=
  e ← slaveServerAt idx s;
  Ok (set_slave idx (mkSlave NetRegistry.NetRegistry.Unused 0 (sl_refed e) (sl_ptr e)) s).

(** ** Calls of the user *)
Definition index (o : Ob) (s : t) : res Z := match servers s !! o with Some i => Ok i | None => UB end.

(** [createServer] *)
Definition createServer (s : t) : res (t * Ob) :=
  let '(n, o) := wn_create (node s) in
  s ← addSlaveServerEntry o (with_node n s);
  Ok (s, o).

Definition serializeAndSendListeningRequest (rid entryIndex : Z) (ip_ : Ip.Ip4) (port backlog : Z) (f : Ip.Family)
    (sh : Threads.t W) : res (Threads.t W) :=
  Threads.postInterThreadMsg self (PListeningRequest (mkListeningRequest rid entryIndex ip_ port backlog f))
    ServerListening (mkID 0 0) sh.
Definition serializeAndSendServerCloseRequest (rid entryIndex : Z) (sh : Threads.t W) : res (Threads.t W) :=
  Threads.postInterThreadMsg self (PCloseRequest (mkCloseRequest rid entryIndex)) ServerListening (mkID 0 0) sh.

(** [acceptRequestForListeningAtSlave], [acceptRequestForServerCloseAtSlave] *)
Definition sendListeningRequest (entryIndex : Z) (ip_ : Ip.Ip4) (port : Z) (f : Ip.Family) (backlog : Z) (s : state) : res state :=
  ASSERT Cluster.isWorker (cluster s.1) ;;
  let c := Cluster.next_request (cluster s.1) in
  sh ← serializeAndSendListeningRequest (Cluster.requestIdBase c) entryIndex ip_ port backlog f s.2;
  Ok (with_cluster c s.1, sh).
Definition sendServerCloseRequest (entryIndex : Z) (s : state) : res state :=
  ASSERT Cluster.isWorker (cluster s.1) ;;
  let c := Cluster.next_request (cluster s.1) in
  sh ← serializeAndSendServerCloseRequest (Cluster.requestIdBase c) entryIndex s.2;
  Ok (with_cluster c s.1, sh).

(** [appListen] *)
Definition listen (o : Ob) (ip_ : Ip.Ip4) (port backlog : Z) (s : state) : res state :=
  n ← wn_set_address o (Server.mkAddress port Cluster.family ip_) (node s.1);
  idx ← index o s.1;
  sendListeningRequest idx ip_ port Cluster.family backlog (with_node n s.1, s.2).

(** [ServerBase::close] *)
Definition close (o : Ob) (s : state) : res state :=
  idx ← index o s.1; sendServerCloseRequest idx s.

(** [appClose], then the rest of [closingProcedure] *)
Definition appClose (o : Ob) (s : t) : res t :=
  idx ← index o s;
  e ← slaveServerAt idx s;
  u ← isUsed e s;
  if (u : bool) then setSlaveSocketClosed idx s else Ok s.
Definition closeByWorkingCluster (o : Ob) (s : t) : res t :=
  s ← appClose o s;
  '(n, sockCount) ← wn_begin_close o (node s);
  let s := with_node n s in
  if bool_decide (sockCount = 0) then
    idx ← index o s; n ← wn_report_ended idx (node s); Ok (with_node n s)
  else Ok s.

(** the destructor of a server *)
Definition destruct_server (o : Ob) (s : t) : res t :=
  n ← wn_destroy o (node s);
  idx ← index o s;
  s ← setSlaveServerUnused idx (with_node n s);
  Ok (with_servers (delete o (servers s)) s).

(** [setSocketClosed] of the table of sockets, in a worker *)
Definition decrementThisWorkerLoadCtr (s : state) : res state :=
  sh ← Threads.decrementWorkerLoadCtr (workerIdxInLoadCollector s.1) s.2; Ok (s.1, sh).

(** ** Messages *)
Definition addAcceptedSocket (serverIdx_ sk : Z) (remoteIp : Ip.Ip4) (remotePort : Ip.Port) (s : t) : res t :=
  ASSERT Cluster.isWorker (cluster s) ;;
  Ok (with_accepted (acceptedSockets s ++ [mkAccepted serverIdx_ sk remoteIp remotePort]) s).
Definition addListeningServerEv (serverIdx_ : Z) (s : t) : res t :=
  ASSERT Cluster.isWorker (cluster s) ;;
  Ok (with_listening (receivedListeningEvs s ++ [serverIdx_]) s).
Definition appGetSlaveServerEntry (id : Z) (s : t) : res SlaveEntry :=
  ASSERT Cluster.isWorker (cluster s) ;; slaveServerAt id s.

Definition processResponse (m : InterThreadMsg) (s : state) : res state :=
  match msgType m with
  | ServerListening => Ok s
  | ConnAccepted =>
      c ← as_ConnAccepted (msg m);
      l ← addAcceptedSocket (serverIdx c) (socket c) (ip c) (uport c) s.1;
      Ok (l, s.2)
  | ServerError => _ ← as_ServerError (msg m); Ok s
  | ServerClosedNotification =>
      c ← as_CloseNotification (msg m);
      e ← appGetSlaveServerEntry (cn_entryIdx c) s.1;
      o ← getServerSocket e s.1;
      l ← closeByWorkingCluster o s.1;
      Ok (l, s.2)
  | _ => AssertFail
  end.

(** the awaker socket in [pollPhase2] of a worker *)
Definition worker_awaker (awakerSock ev : Z) (s : state) : res state :=
  Threads.awaker_event processResponse self awakerSock ev s.

Fixpoint emit_accepted (infos : list AcceptedSocketData) (s : state) : res state :=
  match infos with
  | [] => Ok s
  | info :: infos =>
      e ← slaveServerAt (as_idx info) s.1;
      o ← getServerSocket e s.1;
      '(n, w) ← wn_consume o (as_socket info) (as_ip info) (as_port info) (node s.1) (Threads.os s.2);
      emit_accepted infos (log_consumed (as_socket info) (with_node n s.1), Threads.with_os w s.2)
  end.
Definition infraEmitAcceptedSocketEventsReceivedfromMaster (s : state) : res state :=
  s ← emit_accepted (acceptedSockets s.1) s; Ok (with_accepted [] s.1, s.2).

(** ** The thread of a worker: [workerThreadMain], up to the loop *)
Definition reportThreadStarted (sh : Threads.t W) : res (Threads.t W) :=
  Threads.postInterThreadMsg self (PThreadStarted (mkThreadStarted 0)) ThreadStarted (mkID 0 0) sh.
Definition start (wid : Z) (n : N) (sh : Threads.t W) : res state :=
  ASSERT bool_decide (slotId self ≠ 0%Z) ;;
  '(sh, i) ← Threads.addWorkerEntryForLoadTracking self sh;
  sh ← (if Cluster.isMaster (Cluster.preinit wid) then Ok sh else reportThreadStarted sh);
  Ok (mk (Cluster.preinit wid) i [] ∅ [] [] n [], sh).
End worker.
Arguments t _ _ {_ _}.
Arguments SlaveEntry _ : clear implicits.
End Worker.
