(* ===== verification/ClusterSpec.v ===== *)
(** * Theorems about the cluster

    The threads of a cluster as steps over what they share: no connection is lost or
    made up on its way from a listening socket to a server of a worker. What the
    master does with a request to listen and with one to close, and the cases in
    which a worker or a listener thread fails. *)

From S2P Require Import Prelude Buffers HttpMessage InterThread NetRegistry TcpSocket TcpSocketSpec Address Server ServerSpec.
From S2P Require Import EventLoop EventLoopSpec Threads ListenerThread ListenerThreadSpec Cluster.
From Stdlib Require Import Lia.

(** ** Connections on their way *)
Module Transit.
Import Msg ThreadSlots.

(** the descriptor of a connection that a message carries *)
Definition conn_of (m : InterThreadMsg) : list Z :=
  match msgType m, msg m with ConnAccepted, PConnAccepted c => [socket c] | _, _ => [] end.
Definition conns (ms : list InterThreadMsg) : list Z := ms ≫= conn_of.
Definition in_queues (qs : list (list InterThreadMsg)) : list Z := qs ≫= conns.

Lemma conns_app ms ms' : conns (ms ++ ms') = conns ms ++ conns ms'.
Proof. apply bind_app. Qed.

Lemma bind_insert {A B} (f : A → list B) l i x y d :
  l !! i = Some x → f y ≡ₚ f x ++ d → <[i := y]> l ≫= f ≡ₚ (l ≫= f) ++ d.
Proof.
  revert i. induction l as [|z l IH]; intros [|i] Hi Hy; simplify_eq/=.
  - rewrite Hy, <-!app_assoc. f_equiv. apply Permutation_app_comm.
  - rewrite (IH i Hi Hy). by rewrite app_assoc.
Qed.

Lemma alter_as_insert {A} (f : A → A) (l : list A) i x : l !! i = Some x → alter f i l = <[i := f x]> l.
Proof.
  revert i. induction l as [|y l IH]; intros [|i] Hi; simplify_eq/=; [done|]. f_equal. by apply IH.
Qed.

Section threads.
Context {W : Type} `{!OS W, !ServerOS W}.
Context (self : ThreadID).
Implicit Types (sh : Threads.t W).

Definition transit sh : list Z := in_queues (Threads.queues sh).
Definition sized sh : Prop := length (Threads.queues sh) = MAX_THREADS.

(** [sh'] is [sh] with the connections [ks] put into queues *)
Definition moved (ks : list Z) sh sh' : Prop := sized sh → sized sh' ∧ transit sh' ≡ₚ transit sh ++ ks.

Lemma moved_refl sh sh' : Threads.queues sh' = Threads.queues sh → moved [] sh sh'.
Proof. intros Hq Hs. unfold sized, transit in *. rewrite Hq, app_nil_r. by split. Qed.
Lemma moved_trans ks1 ks2 sh1 sh2 sh3 : moved ks1 sh1 sh2 → moved ks2 sh2 sh3 → moved (ks1 ++ ks2) sh1 sh3.
Proof.
  intros H1 H2 Hs. destruct (H1 Hs) as [Hs2 Hp1]. destruct (H2 Hs2) as [Hs3 Hp2].
  split; [done|]. by rewrite Hp2, Hp1, app_assoc.
Qed.

Lemma post_check_slot target (qs : ThreadSlots.t Empty_set) slot h :
  post_check target qs = Ok (slot, h) → slot = Z.to_nat (slotId target) ∧ slot < MAX_THREADS.
Proof.
  unfold post_check. intros [Hlt Hr]%assert_Ok. apply bool_decide_eq_true_1 in Hlt.
  destruct (qs !! _) as [d|]; [|done]. destruct (CommData.getWriteHandleAndReincarnation d) as [v [r h']].
  apply assert_Ok in Hr as [_ Hr]. apply assert_Ok in Hr as [_ Hr]. injection Hr as <- <-. split; [done|].
  unfold MAX_THREADS in *. lia.
Qed.

(** Posting puts the message at the end of the queue of its target, and that is all. *)
Lemma post_queues m ty target sh sh' :
  Threads.postInterThreadMsg self m ty target sh = Ok sh' →
  Threads.queues sh' = Threads.queue_push (Z.to_nat (slotId target)) (Msg.mk m ty self target) (Threads.queues sh) ∧
  Z.to_nat (slotId target) < MAX_THREADS ∧ Threads.threadQueues sh' = Threads.threadQueues sh ∧
  Threads.workerLoad sh' = Threads.workerLoad sh ∧ Threads.listeners sh' = Threads.listeners sh.
Proof.
  unfold Threads.postInterThreadMsg. destruct (post_check target _) as [[slot h]| | | |] eqn:Hp; try done. cbn [mbind res_bind].
  apply post_check_slot in Hp as [-> Hlt]. intros ([w [r n]] & _ & Hs)%bind_Ok_inv. revert Hs.
  intros [_ [_ [= <-]]%assert_Ok]%assert_Ok. done.
Qed.

Lemma queue_push_moved slot m qs : slot < length qs →
  length (Threads.queue_push slot m qs) = length qs ∧ in_queues (Threads.queue_push slot m qs) ≡ₚ in_queues qs ++ conn_of m.
Proof.
  intros Hlt. unfold Threads.queue_push. split; [apply length_alter|].
  destruct (lookup_lt_is_Some_2 qs slot Hlt) as [q Hq].
  rewrite (alter_as_insert _ _ _ _ Hq). apply (bind_insert conns _ _ q); [done|].
  rewrite conns_app. by cbn; rewrite app_nil_r.
Qed.

Lemma post_moved m ty target sh sh' :
  Threads.postInterThreadMsg self m ty target sh = Ok sh' → moved (conn_of (Msg.mk m ty self target)) sh sh'.
Proof.
  intros (Hq & Hlt & _)%post_queues Hs. unfold sized, transit in *. rewrite Hq.
  destruct (queue_push_moved (Z.to_nat (slotId target)) (Msg.mk m ty self target) (Threads.queues sh)) as [Hl Hp]; [lia|].
  by rewrite Hl.
Qed.

Lemma pop_moved count sh sh' thq :
  Threads.popFrontFromThisThreadQueue self count sh = Some (sh', thq) →
  (sized sh → sized sh') ∧ transit sh ≡ₚ transit sh' ++ conns thq.
Proof.
  unfold Threads.popFrontFromThisThreadQueue. destruct (Threads.queues sh !! _) as [[|m q]|] eqn:Hq; try done.
  intros [= <- <-]. unfold sized, transit. cbn [Threads.queues Threads.with_queues]. rewrite length_insert. split; [done|].
  set (i := Z.to_nat (slotId self)) in *. set (qs := Threads.queues sh) in *.
  pose proof (bind_insert conns (<[i := drop count (m :: q)]> qs) i (drop count (m :: q)) (m :: q) (conns (take count (m :: q)))) as Hb.
  rewrite list_insert_insert_eq, (list_insert_id _ _ _ Hq) in Hb. apply Hb.
  - apply list_lookup_insert_eq. by eapply lookup_lt_Some.
  - rewrite <-(take_drop count (m :: q)) at 1. rewrite conns_app. apply Permutation_app_comm.
Qed.

(** A thread that takes in what its messages carry, by [held], takes in what leaves
    the queues when its awaker socket is served. *)
Lemma awaker_balance {A} (handle : InterThreadMsg → A * Threads.t W → res (A * Threads.t W)) (held : A → list Z) sock ev s s' :
  (∀ m s s', handle m s = Ok s' → sized s.2 →
     sized s'.2 ∧ held s'.1 ++ transit s'.2 ≡ₚ held s.1 ++ transit s.2 ++ conn_of m) →
  Threads.awaker_event handle self sock ev s = Ok s' → sized s.2 →
  sized s'.2 ∧ held s'.1 ++ transit s'.2 ≡ₚ held s.1 ++ transit s.2.
Proof.
  intros Hhandle. unfold Threads.awaker_event. destruct (Tcp.has _ _); [|by intros [= <-]].
  destruct (Tcp.internal_get_packet_bytes2 _ _ _) as [[w [r bs]]| | | |]; try done. cbn [mbind res_bind].
  case_bool_decide; [|intros [= <-]; done]. intros [_ Hr]%assert_Ok.
  cbn [fst snd] in Hr. destruct (Threads.popFrontFromThisThreadQueue _ _ _) as [[sh thq]|] eqn:Hpop; [|done].
  apply assert_Ok in Hr as [_ Hr]. apply pop_moved in Hpop as [Hsz Hp]. intros Hs.
  change (transit (Threads.with_os w s.2)) with (transit s.2) in Hp. specialize (Hsz Hs). rewrite Hp. clear Hp Hs.
  assert (Hall : ∀ ms s0, Threads.on_messages handle ms s0 = Ok s' → sized s0.2 →
    sized s'.2 ∧ held s'.1 ++ transit s'.2 ≡ₚ held s0.1 ++ transit s0.2 ++ conns ms).
  { clear -Hhandle. induction ms as [|m ms IH]; intros s0; cbn [Threads.on_messages].
    - intros [= <-] Hs. cbn. by rewrite app_nil_r.
    - destruct (handle m s0) as [s1| | | |] eqn:Hm; try done. cbn [mbind res_bind]. intros Hr Hs.
      destruct (Hhandle _ _ _ Hm Hs) as [Hs1 Hp1]. destruct (IH _ Hr Hs1) as [Hs' Hp']. split; [done|].
      rewrite Hp'. cbn. change (conn_of m ++ (ms ≫= conn_of)) with (conn_of m ++ conns ms).
      rewrite !app_assoc. f_equiv. by rewrite Hp1, app_assoc. }
  apply (Hall thq (s.1, sh) Hr Hsz).
Qed.

Lemma awaker_keeps {A B} (handle : InterThreadMsg → A * Threads.t W → res (A * Threads.t W)) (f : A → B) sock ev s s' :
  (∀ m s s', handle m s = Ok s' → f s'.1 = f s.1) →
  Threads.awaker_event handle self sock ev s = Ok s' → f s'.1 = f s.1.
Proof.
  intros Hhandle.
  assert (Hall : ∀ ms s0, Threads.on_messages handle ms s0 = Ok s' → f s'.1 = f s0.1).
  { induction ms as [|m ms IH]; intros s0; cbn [Threads.on_messages]; [by intros [= <-]|].
    intros (s1 & Hm & Hr)%bind_Ok_inv. by rewrite (IH _ Hr), (Hhandle _ _ _ Hm). }
  unfold Threads.awaker_event. destruct (Tcp.has _ _); [|by intros [= <-]].
  intros ([w [r bs]] & _ & Hr)%bind_Ok_inv. case_bool_decide; [|by injection Hr as <-].
  apply assert_Ok in Hr as [_ Hr]. cbn [fst snd] in Hr. destruct (Threads.popFrontFromThisThreadQueue _ _ _) as [[sh thq]|]; [|done].
  apply assert_Ok in Hr as [_ Hr]. by apply Hall in Hr.
Qed.

(** ** A listener thread *)
Section listener.
Context `{!LoopOS W, !ListenerOS W}.
Import Listener.
Abbreviation lstate := (Listener.t * Threads.t W)%type.

Lemma start_polling_accepted o l l' : start_polling o l = Ok l' → accepted l' = accepted l.
Proof.
  unfold start_polling. intros H. open_eq.
  assert (H1 : ∀ o l l', addEntry o l = Ok l' → accepted l' = accepted l).
  { clear. intros o l l'. unfold addEntry, new_entry. intros H. by open_eq. }
  assert (H2 : ∀ i l l', setAssociated i l = Ok l' → accepted l' = accepted l).
  { clear. intros i l l'. unfold setAssociated. intros H. by open_eq. }
  assert (H3 : ∀ i l l', setPollin i l = Ok l' → accepted l' = accepted l).
  { clear. intros i l l'. unfold setPollin. intros H. by open_eq. }
  assert (H4 : ∀ i r l l', setRefed i r l = Ok l' → accepted l' = accepted l).
  { clear. intros i r l l'. unfold setRefed. intros H. inv_res. done. }
  apply H4 in H. repeat match goal with E : _ = Ok _ |- _ => first [apply H1 in E|apply H2 in E|apply H3 in E|clear E] end.
  cbn in *; congruence.
Qed.

Lemma listener_message (m : InterThreadMsg) (s s' : lstate) :
  Listener.processInterthreadRequest m s = Ok s' →
  conn_of m = [] ∧ accepted s'.1 = accepted s.1 ∧ Threads.queues s'.2 = Threads.queues s.2.
Proof.
  unfold Listener.processInterthreadRequest, conn_of. destruct (msgType m); try done; intros H; try by open_eq.
  apply bind_Ok_inv in H as (rq & _ & H). destruct (rq_type rq); try by injection H as <-.
  - unfold createAgentServerWithExistingSocket, appAddAgentServerSocketAndStartListening, make_agent in H.
    apply bind_Ok_inv in H as (s1 & H1 & [= <-]). apply bind_Ok_inv in H1 as (a & _ & H1).
    apply bind_Ok_inv in H1 as (l & Hl & [= <-]). apply start_polling_accepted in Hl. cbn in *. done.
  - unfold createAgentServerWithSharedSocket, acquireSharedServerSocketAndStartListening, make_agent in H.
    apply bind_Ok_inv in H as (s1 & H1 & [= <-]). destruct (internal_make_shared_tcp_socket _) as [w sk].
    case_bool_decide; [done|]. apply bind_Ok_inv in H1 as (a & _ & H1). cbn beta zeta in H1.
    destruct (sys_bind _ _ _ _) as [w2 []]; [|done]. cbn [negb] in H1. destruct (sys_listen _ _ _) as [w3 []]; [|done].
    cbn [negb] in H1. apply bind_Ok_inv in H1 as (l & Hl & [= <-]). apply start_polling_accepted in Hl. cbn in *. done.
Qed.

(** what a step of a listener thread accepts goes into queues *)
Definition dispatched (s s' : lstate) : Prop := ∃ ks, accepted s'.1 = accepted s.1 ++ ks ∧ moved ks s.2 s'.2.

Lemma dispatched_refl s s' : accepted s'.1 = accepted s.1 → Threads.queues s'.2 = Threads.queues s.2 → dispatched s s'.
Proof. intros Ha Hq. exists []. rewrite app_nil_r. split; [done|by apply moved_refl]. Qed.
Lemma dispatched_trans s1 s2 s3 : dispatched s1 s2 → dispatched s2 s3 → dispatched s1 s3.
Proof.
  intros (ks1 & Ha1 & Hm1) (ks2 & Ha2 & Hm2). exists (ks1 ++ ks2). rewrite Ha2, Ha1, app_assoc. split; [done|].
  by eapply moved_trans.
Qed.

Lemma check_dispatched e r s s' : infraCheckPollFdSet self e r s = Ok s' → dispatched s s'.
Proof.
  unfold infraCheckPollFdSet, onError. intros (o & _ & H)%bind_Ok_inv. apply bind_Ok_inv in H as (a & _ & H).
  destruct (Tcp.has _ _); [by injection H as <-; apply dispatched_refl|]. destruct (Tcp.has _ _).
  - unfold getAcceptedSockData in H. destruct (Server.internal_tcp_accept _ _) as [w [[[sk ip_] port]|]];
      [|by injection H as <-; apply dispatched_refl].
    unfold onConnection in H. apply assert_Ok in H as [_ H]. apply bind_Ok_inv in H as ([sh id] & Hl & H).
    apply bind_Ok_inv in H as (sh' & Hp & [= <-]). exists [sk]. split; [done|].
    unfold Threads.getLeastLoadedWorkerAndIncrementLoad in Hl. apply bind_Ok_inv in Hl as ([wl id'] & _ & [= <- <-]).
    apply post_moved in Hp. exact Hp.
  - case_bool_decide; injection H as <-; by apply dispatched_refl.
Qed.

Lemma dispatch_dispatched i r s s' go : Listener.dispatch self i r s = Ok (s', go) → dispatched s s'.
Proof.
  unfold Listener.dispatch. case_bool_decide.
  - intros (e & _ & H1)%bind_Ok_inv. apply bind_Ok_inv in H1 as ([] & _ & H1); [|injection H1 as <- <-; by apply dispatched_refl].
    apply bind_Ok_inv in H1 as (s1 & Hc & [= <- <-]). by eapply check_dispatched.
  - case_bool_decide; [|intros [= <- <-]; by apply dispatched_refl].
    intros (sk & _ & H1)%bind_Ok_inv. apply bind_Ok_inv in H1 as (s1 & Ha & [= <- <-]). exists [].
    rewrite app_nil_r. split.
    + eapply (awaker_keeps _ accepted); [|exact Ha]. intros m s2 s3 Hm. by apply listener_message in Hm as (_ & ? & _).
    + intros Hs. destruct (awaker_balance processInterthreadRequest (λ _, []) sk r s s1) as [Hs' Hp].
      { intros m s2 s3 Hm Hs2. apply listener_message in Hm as (Hc & _ & Hq). rewrite Hc.
        destruct (moved_refl _ _ Hq Hs2) as [? Hp]. by split. }
      { exact Ha. }
      { exact Hs. }
      split; [done|]. cbn in Hp. by rewrite Hp, app_nil_r.
Qed.

Lemma poll_loop_dispatched fuel : ∀ i p retval s s', Listener.poll_loop self fuel i p retval s = Ok s' → dispatched s s'.
Proof.
  induction fuel as [|fuel IH]; intros i p retval s s'; cbn [Listener.poll_loop].
  - case_bool_decide; [done|]. intros [= <-]. by apply dispatched_refl.
  - case_bool_decide; [|intros [= <-]; by apply dispatched_refl]. intros (r & _ & Hr)%bind_Ok_inv.
    case_bool_decide; [|by eapply IH]. apply bind_Ok_inv in Hr as ([s1 go] & Hd & Hr).
    apply dispatch_dispatched in Hd. destruct go; [|by injection Hr as <-]. eapply dispatched_trans; [exact Hd|by eapply IH].
Qed.

Lemma turn_dispatched fuel s s' go : Listener.turn self fuel s = Ok (s', go) → dispatched s s'.
Proof.
  unfold Listener.turn, Listener.infraGetCurrentTime. destruct (sys_now _) as [w0 now].
  intros (l & Hc & H1)%bind_Ok_inv. cbn [fst snd] in *.
  assert (Hl : accepted l = accepted s.1).
  { unfold makeCompactIfNecessary in Hc. destruct (_ || _); [by injection Hc as <-|]. by inv_res; open_eq. }
  unfold Listener.pollPhase2, Listener.wait in H1. cbn [fst snd] in H1.
  assert (Hs : ∀ w, dispatched s (l, Threads.with_os w (Threads.with_os w0 s.2))) by (intros w; by apply dispatched_refl).
  case_bool_decide.
  - injection H1 as <- <-. by apply dispatched_refl.
  - destruct (sys_poll _ _ _) as [w [retval rs]]. cbn [negb] in H1. case_bool_decide; [done|].
    case_bool_decide; [injection H1 as <- <-; by apply dispatched_refl|].
    apply bind_Ok_inv in H1 as (s1 & Hp & [= <- <-]). apply poll_loop_dispatched in Hp.
    eapply dispatched_trans; [|exact Hp]. by apply dispatched_refl.
Qed.
End listener.

(** ** The master *)
Section master.
Context (use_shared : bool).
Import Cluster.

Lemma tell_listeners_moved rq ids sh sh' : tell_listeners self rq ids sh = Ok sh' → moved [] sh sh'.
Proof.
  revert sh. induction ids as [|id ids IH]; intros sh; cbn [tell_listeners].
  - intros [= <-]. by apply moved_refl.
  - intros (sh1 & Hp%post_moved & Hr)%bind_Ok_inv. eapply (moved_trans [] []); [exact Hp|by apply IH].
Qed.

Lemma create_agent_queues s s' i : createAgentServer use_shared s = Ok (s', i) → Threads.queues s'.2 = Threads.queues s.2.
Proof.
  unfold createAgentServer, appAddAgentServer. intros ([a sh] & Ha & [= <- <-])%bind_Ok_inv.
  destruct use_shared; [by injection Ha as <- <-|]. destruct (Tcp.internal_make_tcp_socket _) as [w sk].
  case_bool_decide; [done|]. by injection Ha as <- <-.
Qed.

Lemma agent_listen_queues a ip_ port backlog sh a' sh' :
  appAgentAtMasterListen a ip_ port backlog sh = Ok (a', sh') → Threads.queues sh' = Threads.queues sh.
Proof.
  unfold appAgentAtMasterListen. destruct (sys_bind _ _ _ _) as [w []]; [|done]. cbn [negb].
  intros ([w1 p] & _ & H)%bind_Ok_inv. destruct (sys_listen _ _ _) as [w2 []]; [|done]. by injection H as <- <-.
Qed.

Lemma listening_request_moved target entryIndex rid addr backlog s s' b :
  processRequestForListeningAtMaster use_shared self target entryIndex rid addr backlog s = Ok (s', b) → moved [] s.2 s'.2.
Proof.
  unfold processRequestForListeningAtMaster. intros [_ H]%assert_Ok. destruct (find_agent _ _ _) as [[i a]|].
  - injection H as <- <-. by apply moved_refl.
  - apply bind_Ok_inv in H as ([s1 i] & Hc%create_agent_queues & H). apply bind_Ok_inv in H as (a & _ & H).
    apply bind_Ok_inv in H as ([a1 sh1] & Hl & H). apply bind_Ok_inv in H as (sh2 & Ht & [= <- <-]).
    assert (Hq : Threads.queues sh1 = Threads.queues s1.2).
    { destruct use_shared; [by injection Hl as <- <-|]. by eapply agent_listen_queues. }
    apply tell_listeners_moved in Ht. apply (moved_trans [] [] _ sh1); [|done]. apply moved_refl. congruence.
Qed.

Lemma master_message (m : InterThreadMsg) s s' :
  processInterthreadRequest use_shared self m s = Ok s' → conn_of m = [] ∧ moved [] s.2 s'.2.
Proof.
  unfold processInterthreadRequest, conn_of. destruct (msgType m); try done; intros H.
  - injection H as <-. split; [done|by apply moved_refl].
  - apply bind_Ok_inv in H as (rq & _ & H). apply bind_Ok_inv in H as ([s1 already] & Hl & H).
    apply listening_request_moved in Hl. split; [done|]. destruct already; [|by injection H as <-].
    apply bind_Ok_inv in H as (sh & Hp%post_moved & [= <-]). by eapply (moved_trans [] []).
  - apply bind_Ok_inv in H as (rq & _ & H). unfold processRequestForServerCloseAtMaster in H.
    apply assert_Ok in H as [_ H]. by destruct (find_agent _ _ _) as [[i a]|].
Qed.

Lemma master_awaker_moved sock ev s s' : master_awaker use_shared self sock ev s = Ok s' → moved [] s.2 s'.2.
Proof.
  intros Ha Hs. destruct (awaker_balance (processInterthreadRequest use_shared self) (λ _, []) sock ev s s') as [Hs' Hp]; [|done..|].
  - intros m s1 s2 (-> & Hm)%master_message Hs1. destruct (Hm Hs1) as [? Hp]. by split.
  - split; [done|]. cbn in Hp. by rewrite Hp, app_nil_r.
Qed.
End master.

(** ** A worker *)
Section worker.
Context {Ob N : Type} `{Countable Ob} `{!WorkerNode Ob N W}.
Import Worker.
Abbreviation wstate := (Worker.t Ob N * Threads.t W)%type.

(** what a worker has taken in *)
Definition held (w : Worker.t Ob N) : list Z := (as_socket <$> acceptedSockets w) ++ consumed w.

Lemma close_held (o : Ob) (w w' : Worker.t Ob N) : closeByWorkingCluster o w = Ok w' → held w' = held w.
Proof.
  unfold closeByWorkingCluster. intros (w1 & Ha & H2)%bind_Ok_inv. apply bind_Ok_inv in H2 as ([n k] & _ & H2).
  assert (Hw1 : held w1 = held w).
  { unfold appClose, setSlaveSocketClosed in Ha. inv_res. open_eq; done. }
  case_bool_decide; [|by injection H2 as <-]. inv_res. done.
Qed.

Lemma worker_message (m : InterThreadMsg) (s s' : wstate) :
  processResponse m s = Ok s' → held s'.1 ++ transit s'.2 ≡ₚ held s.1 ++ transit s.2 ++ conn_of m ∧ s'.2 = s.2.
Proof.
  unfold processResponse, conn_of. destruct (msgType m); try done; intros H1.
  - injection H1 as <-. by rewrite app_nil_r.
  - apply bind_Ok_inv in H1 as (c & Hc & H1). apply bind_Ok_inv in H1 as (l & Hl & [= <-]).
    unfold as_ConnAccepted, cast in Hc. inv_res. destruct (msg m) as [| | | | | | |]; try done. injection Hc as <-.
    unfold addAcceptedSocket in Hl. inv_res. split; [|done]. unfold held. cbn.
    rewrite fmap_app, <-!app_assoc. f_equiv. cbn. rewrite app_assoc. apply Permutation_cons_append.
  - apply bind_Ok_inv in H1 as (c & _ & [= <-]). by rewrite app_nil_r.
  - inv_res. match goal with E : closeByWorkingCluster _ _ = _ |- _ => apply close_held in E; cbn in *; rewrite E end.
    by rewrite app_nil_r.
Qed.

Lemma worker_awaker_balance sock ev (s s' : wstate) :
  worker_awaker self sock ev s = Ok s' → sized s.2 → sized s'.2 ∧ held s'.1 ++ transit s'.2 ≡ₚ held s.1 ++ transit s.2.
Proof.
  apply awaker_balance. intros m s1 s2 (Hp & Hq)%worker_message Hs. rewrite Hq in *. by split.
Qed.

Lemma emit_accepted_log infos (s s' : wstate) :
  emit_accepted infos s = Ok s' →
  consumed s'.1 = consumed s.1 ++ (as_socket <$> infos) ∧ Threads.queues s'.2 = Threads.queues s.2.
Proof.
  revert s. induction infos as [|info infos IH]; intros s; cbn [emit_accepted].
  - intros [= <-]. by rewrite app_nil_r.
  - intros H1. apply bind_Ok_inv in H1 as (e & _ & H1). apply bind_Ok_inv in H1 as (o & _ & H1).
    apply bind_Ok_inv in H1 as ([n w] & _ & H1). destruct (IH _ H1) as [Hc Hq]. split; [|exact Hq].
    rewrite Hc. cbn. by rewrite <-app_assoc.
Qed.

Lemma emit_balance (s s' : wstate) :
  infraEmitAcceptedSocketEventsReceivedfromMaster s = Ok s' → held s'.1 ≡ₚ held s.1 ∧ Threads.queues s'.2 = Threads.queues s.2.
Proof.
  unfold infraEmitAcceptedSocketEventsReceivedfromMaster. intros (s1 & He & [= <-])%bind_Ok_inv.
  apply emit_accepted_log in He as [Hc Hq]. split; [|done]. unfold held. cbn. rewrite Hc. apply Permutation_app_comm.
Qed.
End worker.
End threads.
End Transit.

(** ** All the threads of a process *)
Module System.
Import Transit Msg ThreadSlots.

Section system.
Context {W Ob N : Type} `{!OS W, !ServerOS W, !LoopOS W, !ListenerOS W} `{Countable Ob} `{!WorkerNode Ob N W}.
Context (use_shared : bool).

Record sys : Type := mkSys {
  threads : Threads.t W;
  listeners : list (ThreadID * Listener.t);
  workers : list (ThreadID * Worker.t Ob N);
  master : Cluster.t;
}.

(** the calls of a worker's user on servers, and the end of one of its sockets *)
Inductive call : Type :=
  | Create
  | Listen (o : Ob) (ip_ : Ip.Ip4) (port backlog : Z)
  | Close (o : Ob)
  | Destruct (o : Ob)
  | SocketClosed.
Definition run_call (self : ThreadID) (c : call) (s : Worker.t Ob N * Threads.t W) : res (Worker.t Ob N * Threads.t W) :=
  match c with
  | Create => '(w, _) ← Worker.createServer s.1; Ok (w, s.2)
  | Listen o ip_ port backlog => Worker.listen self o ip_ port backlog s
  | Close o => Worker.close self o s
  | Destruct o => w ← Worker.destruct_server o s.1; Ok (w, s.2)
  | SocketClosed => Worker.decrementThisWorkerLoadCtr s
  end.

(** A step of one thread: a turn of a listener thread, the awaker socket of the
    master or of a worker, a worker handing out what it was sent, a call of its user,
    anything else its node and the system do; and a new thread. *)
Inductive step : sys → sys → Prop :=
  | step_listener s i self l fuel l' sh go :
      listeners s !! i = Some (self, l) → Listener.turn self fuel (l, threads s) = Ok ((l', sh), go) →
      step s (mkSys sh (<[i := (self, l')]> (listeners s)) (workers s) (master s))
  | step_master s sock ev c sh :
      Cluster.master_awaker use_shared (mkID 0 0) sock ev (master s, threads s) = Ok (c, sh) →
      step s (mkSys sh (listeners s) (workers s) c)
  | step_worker_messages s i self w sock ev w' sh :
      workers s !! i = Some (self, w) → Worker.worker_awaker self sock ev (w, threads s) = Ok (w', sh) →
      step s (mkSys sh (listeners s) (<[i := (self, w')]> (workers s)) (master s))
  | step_worker_accepts s i self w w' sh :
      workers s !! i = Some (self, w) →
      Worker.infraEmitAcceptedSocketEventsReceivedfromMaster (w, threads s) = Ok (w', sh) →
      step s (mkSys sh (listeners s) (<[i := (self, w')]> (workers s)) (master s))
  | step_worker_call s i self w c w' sh :
      workers s !! i = Some (self, w) → run_call self c (w, threads s) = Ok (w', sh) →
      step s (mkSys sh (listeners s) (<[i := (self, w')]> (workers s)) (master s))
  | step_worker_node s i self w n :
      workers s !! i = Some (self, w) →
      step s (mkSys (threads s) (listeners s) (<[i := (self, Worker.with_node n w)]> (workers s)) (master s))
  | step_system s w : step s (mkSys (Threads.with_os w (threads s)) (listeners s) (workers s) (master s))
  | step_fork s i c sh r :
      Cluster.fork i (master s, threads s) = Ok ((c, sh), r) → step s (mkSys sh (listeners s) (workers s) c)
  | step_start_worker s self wid n w sh :
      Worker.start self wid n (threads s) = Ok (w, sh) →
      step s (mkSys sh (listeners s) (workers s ++ [(self, w)]) (master s))
  | step_start_listener s i sh self h l sh' :
      Threads.createListenerThread i (threads s) = Ok (sh, self, h) → Listener.setAwakerSocket h Listener.init = Ok l →
      Listener.reportThreadStarted self sh = Ok sh' →
      step s (mkSys sh' (listeners s ++ [(self, l)]) (workers s) (master s)).

Definition initial (s : sys) : Prop :=
  Threads.queues (threads s) = replicate MAX_THREADS [] ∧ listeners s = [] ∧ workers s = [].

Definition all_accepted (s : sys) : list Z := listeners s ≫= λ p, Listener.accepted p.2.
Definition all_held (s : sys) : list Z := workers s ≫= λ p, held p.2.
Definition balanced (s : sys) : Prop :=
  sized (threads s) ∧ all_accepted s ≡ₚ transit (threads s) ++ all_held s.

Lemma call_held self c w sh w' sh' :
  run_call self c (w, sh) = Ok (w', sh') → held w' = held w ∧ moved [] sh sh'.
Proof.
  destruct c; cbn [run_call fst snd]; intros Hc.
  - apply bind_Ok_inv in Hc as ([w1 o] & Hcr & [= <- <-]). split; [|by apply moved_refl].
    unfold Worker.createServer in Hcr. destruct (wn_create _) as [n o']. apply bind_Ok_inv in Hcr as (w2 & Ha & [= <- <-]).
    unfold Worker.addSlaveServerEntry in Ha. by inv_res.
  - unfold Worker.listen, Worker.sendListeningRequest, Worker.serializeAndSendListeningRequest in Hc.
    apply bind_Ok_inv in Hc as (n & _ & Hc). apply bind_Ok_inv in Hc as (idx & _ & Hc). apply assert_Ok in Hc as [_ Hc].
    apply bind_Ok_inv in Hc as (sh1 & Hp%post_moved & [= <- <-]). by split.
  - unfold Worker.close, Worker.sendServerCloseRequest, Worker.serializeAndSendServerCloseRequest in Hc.
    apply bind_Ok_inv in Hc as (idx & _ & Hc). apply assert_Ok in Hc as [_ Hc].
    apply bind_Ok_inv in Hc as (sh1 & Hp%post_moved & [= <- <-]). by split.
  - apply bind_Ok_inv in Hc as (w1 & Hd & [= <- <-]). split; [|by apply moved_refl].
    unfold Worker.destruct_server, Worker.setSlaveServerUnused in Hd. by inv_res.
  - unfold Worker.decrementThisWorkerLoadCtr, Threads.decrementWorkerLoadCtr in Hc. inv_res. split; [done|by apply moved_refl].
Qed.

Lemma new_thread_queues i (sh sh' : Threads.t W) id h : Threads.newThread i sh = Ok (sh', id, h) → Threads.queues sh' = Threads.queues sh.
Proof.
  unfold Threads.newThread. intros ([w [rh wh]] & _ & H1)%bind_Ok_inv.
  by apply bind_Ok_inv in H1 as ([sl id'] & _ & [= <- <- <-]).
Qed.

Lemma bind_insert_eq {A B} (f : A → list B) l i x y : l !! i = Some x → f y ≡ₚ f x → <[i := y]> l ≫= f ≡ₚ l ≫= f.
Proof. intros Hi Hy. rewrite (bind_insert f l i x y [] Hi); by rewrite app_nil_r. Qed.

Lemma balanced_step s s' : step s s' → balanced s → balanced s'.
Proof.
  intros Hstep [Hs Hb]. unfold balanced, all_accepted, all_held in *.
  destruct Hstep as [s i self l fuel l' sh go Hl Ht|s sock ev c sh Hm|s i self w sock ev w' sh Hw Hm|s i self w w' sh Hw He
                    |s i self w c w' sh Hw Hc|s i self w n Hw|s w|s i c sh r Hf|s self wid n w sh Hst|s i sh self h l sh' Hc Hl Hr];
    cbn [threads listeners workers master] in *.
  - apply turn_dispatched in Ht as (ks & Ha & Hm). destruct (Hm Hs) as [Hs' Hp]. split; [done|].
    rewrite (bind_insert _ _ _ _ _ ks Hl); [|cbn [fst snd] in *; by rewrite Ha]. rewrite Hb. cbn [fst snd] in Hp. rewrite Hp, <-!app_assoc.
    f_equiv. apply Permutation_app_comm.
  - destruct (master_awaker_moved _ _ _ _ _ _ Hm Hs) as [Hs' Hp]. split; [done|]. cbn [fst snd] in Hp. by rewrite Hp, app_nil_r.
  - destruct (worker_awaker_balance _ _ _ _ _ Hm Hs) as [Hs' Hp]. split; [done|]. cbn [fst snd] in Hp. rewrite Hb.
    rewrite <-(list_insert_id _ _ _ Hw) at 1.
    assert (Hi : i < length (workers s)) by (by eapply lookup_lt_Some).
    assert (Hpull : ∀ w0, <[i := (self, w0)]> (workers s) ≫= (λ p, held p.2) ≡ₚ held w0 ++ (delete i (workers s) ≫= λ p, held p.2)).
    { intros w0. rewrite insert_take_drop, delete_take_drop by done. rewrite !bind_app. cbn.
      rewrite !app_assoc. f_equiv. apply Permutation_app_comm. }
    rewrite !Hpull, !app_assoc. f_equiv. rewrite Permutation_app_comm, <-Hp. apply Permutation_app_comm.
  - apply emit_balance in He as [Hh Hq]. destruct (moved_refl _ _ Hq Hs) as [Hs' Hp]. split; [done|].
    cbn [fst snd] in *. rewrite app_nil_r in Hp. rewrite Hp, Hb. f_equiv. symmetry. by eapply bind_insert_eq.
  - apply call_held in Hc as [Hh Hm]. destruct (Hm Hs) as [Hs' Hp]. split; [done|].
    rewrite app_nil_r in Hp. rewrite Hp, Hb. f_equiv. symmetry. eapply bind_insert_eq; [done|]. cbn. by rewrite Hh.
  - split; [done|]. rewrite Hb. f_equiv. symmetry. by eapply bind_insert_eq.
  - by split.
  - unfold Cluster.fork in Hf. apply bind_Ok_inv in Hf as ([[sh1 id] rh] & Hn & [= <- <- <-]).
    apply new_thread_queues in Hn. destruct (moved_refl _ _ Hn Hs) as [Hs' Hp]. split; [done|].
    rewrite app_nil_r in Hp. by rewrite Hp.
  - unfold Worker.start in Hst. apply assert_Ok in Hst as [_ Hst]. apply bind_Ok_inv in Hst as ([sh1 k] & Ha & Hst).
    apply bind_Ok_inv in Hst as (sh2 & Hr & [= <- <-]).
    assert (Hm : moved [] (threads s) sh2).
    { unfold Threads.addWorkerEntryForLoadTracking in Ha. apply bind_Ok_inv in Ha as ([wl k'] & _ & [= <- <-]).
      destruct (Cluster.isMaster _); [injection Hr as <-; by apply moved_refl|]. by apply post_moved in Hr. }
    destruct (Hm Hs) as [Hs' Hp]. split; [done|]. rewrite app_nil_r in Hp. rewrite Hp, Hb, bind_app. f_equiv.
    cbn. by rewrite !app_nil_r.
  - unfold Threads.createListenerThread in Hc. apply bind_Ok_inv in Hc as ([[sh1 id] rh] & Hn & Hc).
    apply bind_Ok_inv in Hc as ([ls k] & _ & [= <- <- <-]). apply new_thread_queues in Hn. injection Hl as <-.
    assert (Hm : moved [] (threads s) sh').
    { apply post_moved in Hr. apply (moved_trans [] [] _ (Threads.with_listeners ls sh1)); [by apply moved_refl|exact Hr]. }
    destruct (Hm Hs) as [Hs' Hp]. split; [done|]. rewrite app_nil_r in Hp. by rewrite bind_app, Hp, Hb, app_nil_r.
Qed.

Lemma initial_balanced s : initial s → balanced s.
Proof.
  intros (Hq & Hl & Hw). unfold balanced, all_accepted, all_held, sized, transit. rewrite Hq, Hl, Hw. split; [apply length_replicate|].
  assert (Hz : ∀ n, in_queues (replicate n []) = []) by (induction n; done). by rewrite Hz.
Qed.

(** C2. No connection is lost, made up or delivered twice between the threads of a
    cluster: whatever the threads do and in whatever order, as long as none has failed,
    the descriptors that the listener threads have accepted are exactly those in a
    queue, those a worker has received and not handed out yet, and those it has handed
    to one of its servers. *)
Theorem connections_conserved s s' :
  initial s → rtc step s s' →
  all_accepted s' ≡ₚ
    transit (threads s') ++
    (workers s' ≫= λ p, (Worker.as_socket <$> Worker.acceptedSockets p.2) ++ Worker.consumed p.2).
Proof.
  intros Hi Hsteps. apply initial_balanced in Hi. induction Hsteps as [s|s1 s2 s3 Hstep _ IH]; [apply Hi|].
  apply IH. by eapply balanced_step.
Qed.
End system.
End System.
