(* ===== verification/MasterSpec.v ===== *)
(** * Theorems about the master and its workers

    What the master makes of a request to listen, and what becomes of a request to
    close; how a connection that was sent to a worker reaches its user; where the
    counters and indices that the threads exchange do not fit together. *)

From S2P Require Import Prelude Buffers HttpMessage InterThread NetRegistry TcpSocket TcpSocketSpec Address Server ServerSpec.
From S2P Require Import EventLoop EventLoopSpec Threads ListenerThread ListenerThreadSpec Cluster ClusterSpec.
From Stdlib Require Import Lia.

Module MasterSpec.
Import Transit Msg ThreadSlots Cluster.

Section master.
Context {W : Type} `{!OS W, !ServerOS W}.
Context (use_shared : bool).
Context (self : ThreadID).
Implicit Types (c : Cluster.t) (sh : Threads.t W).

(** ** Requests to listen *)

(** A post that succeeds, and the bytes it leaves in the awaker socket. *)
Lemma post_ok m ty target sh slot h w :
  post_check target (Threads.threadQueues sh) = Ok (slot, h) → sys_sendto h [Some x01] (Threads.os sh) = (w, inl 1) →
  Threads.postInterThreadMsg self m ty target sh =
    Ok (Threads.with_os w (Threads.with_queues (Threads.queue_push slot (Msg.mk m ty self target) (Threads.queues sh)) sh)).
Proof.
  intros Hp Hs. unfold Threads.postInterThreadMsg. rewrite Hp. cbn [mbind res_bind].
  rewrite Casts.internal_send_packet_small by (cbn; lia). cbn [Threads.os Threads.with_queues]. rewrite Hs. by cbn.
Qed.

(** the queues after the request [rq] to every thread of [ids] *)
Definition told (rq : RequestToListenerThread) (ids : list ThreadID) (qs : list (list InterThreadMsg)) : list (list InterThreadMsg) :=
  foldl (λ qs id, Threads.queue_push (Z.to_nat (slotId id)) (Msg.mk (PRequest rq) RequestToListeningThread self id) qs) qs ids.

Lemma tell_listeners_told rq ids sh sh' :
  tell_listeners self rq ids sh = Ok sh' → Threads.queues sh' = told rq ids (Threads.queues sh).
Proof.
  revert sh. induction ids as [|id ids IH]; intros sh; cbn [tell_listeners]; [by intros [= <-]|].
  intros (sh1 & (Hq & _)%post_queues & Hr)%bind_Ok_inv. rewrite (IH _ Hr), Hq. done.
Qed.

Lemma find_agent_spec p i l :
  match find_agent p i l with
  | Some (j, a) => i ≤ j ∧ l !! (j - i) = Some (Some a) ∧ p a = true
  | None => ∀ k a, l !! k = Some (Some a) → p a = false
  end.
Proof.
  revert i. induction l as [|[a|] l IH]; intros i; cbn [find_agent]; [done|..].
  - destruct (p a) eqn:Hp; [by rewrite Nat.sub_diag|]. specialize (IH (S i)).
    destruct (find_agent p (S i) l) as [[j b]|].
    + destruct IH as (? & Hl & ?). split; [lia|]. split; [|done]. by replace (j - i) with (S (j - S i)) by lia.
    + intros [|k] b Hk; simplify_eq/=; [done|]. by eapply IH.
  - specialize (IH (S i)). destruct (find_agent p (S i) l) as [[j b]|].
    + destruct IH as (? & Hl & ?). split; [lia|]. split; [|done]. by replace (j - i) with (S (j - S i)) by lia.
    + intros [|k] b Hk; simplify_eq/=. by eapply IH.
Qed.

Lemma find_agent_none p i l : (∀ a, Some a ∈ l → p a = false) → find_agent p i l = None.
Proof.
  revert i. induction l as [|[a|] l IH]; intros i Hall; cbn [find_agent]; [done|..].
  - rewrite Hall by left. apply IH. intros b Hb. apply Hall. by right.
  - apply IH. intros b Hb. apply Hall. by right.
Qed.

Lemma put_at_lookup i a l : i ≤ length l → put_at i a l !! i = Some (Some a).
Proof.
  intros Hi. unfold put_at. case_bool_decide as Hlt; [by apply list_lookup_insert_eq|].
  replace i with (length l) by lia. by rewrite list_lookup_middle.
Qed.

Lemma place_le i l : i ≤ place i l ≤ i + length l.
Proof.
  revert i. induction l as [|[a|] l IH]; intros i; cbn [place length]; [lia| |lia]. specialize (IH (S i)). lia.
Qed.

Lemma put_at_put i a b l : i ≤ length l → <[i := Some b]> (put_at i a l) = put_at i b l.
Proof.
  intros Hi. unfold put_at. case_bool_decide as Hlt; [by rewrite list_insert_insert_eq|].
  replace i with (length l) by lia. rewrite insert_app_r_alt by lia. by rewrite Nat.sub_diag.
Qed.

(** C18. The first worker that asks to listen on an address makes the master open the
    socket: the master gets an agent that knows the worker and the place of the server in its table, is
    bound and listens, and every listener thread is sent exactly one request with the
    descriptor of that socket; no answer goes to the worker. *)
Theorem first_request_creates_agent c sh target idx rid addr backlog w0 sk w1 w2 sh' :
  isMaster c = true → (∀ a, Some a ∈ agentServers c → is_agent_of addr rid a = false) →
  Tcp.internal_make_tcp_socket (Threads.os sh) = (w0, sk) → sk ≠ Tcp.INVALID_SOCKET → Server.a_port addr ≠ 0%Z →
  sys_bind sk (Server.a_ip addr) (Ip.Port_fromHost (Server.a_port addr)) w0 = (w1, true) →
  sys_listen sk backlog w1 = (w2, true) →
  let rq := mkRequest AddServerSocket idx sk (Server.a_ip addr) (Ip.Port_fromHost (Server.a_port addr)) backlog in
  tell_listeners self rq (listening_threads sh) (Threads.with_os w2 sh) = Ok sh' →
  ∃ c' i a,
    processRequestForListeningAtMaster false self target idx rid addr backlog (c, sh) = Ok ((c', sh'), false) ∧
    agentServers c' = put_at i a (agentServers c) ∧ i = place 0 (agentServers c) ∧
    socketsToSlaves a = [(idx, target)] ∧ osSocket a = sk ∧ requestID a = rid ∧
    localAddress a = Server.mkAddress (Server.a_port addr) family (Server.a_ip addr) ∧
    Threads.queues sh' = told rq (listening_threads sh) (Threads.queues sh).
Proof.
  intros Hm Hnone Hmake Hsk Hport Hbind Hlisten rq Htell. unfold processRequestForListeningAtMaster. cbn [fst snd].
  rewrite Hm, find_agent_none by done. unfold createAgentServer, appAddAgentServer. cbn [fst snd]. rewrite Hmake.
  rewrite bool_decide_eq_false_2 by done. cbn [mbind res_bind]. set (i := place 0 (agentServers c)).
  assert (Hi : i ≤ length (agentServers c)) by (pose proof (place_le 0 (agentServers c)); subst i; lia).
  unfold agent. cbn [agentServers with_agents fst]. rewrite put_at_lookup by done. cbn [mbind res_bind].
  unfold appAgentAtMasterListen. cbn [osSocket with_slave with_request with_socket snd Threads.os Threads.with_os].
  rewrite Hbind. cbn [negb]. rewrite bool_decide_eq_false_2 by done. cbn [mbind res_bind]. rewrite Hlisten. cbn [mbind res_bind].
  change (tell_listeners self _ (listening_threads _) _) with
    (tell_listeners self rq (listening_threads sh) (Threads.with_os w2 sh)).
  rewrite Htell. cbn [mbind res_bind].
  eexists _, i, _. split; [reflexivity|]. cbn [agentServers put with_agents]. rewrite put_at_put by done. split; [reflexivity|].
  do 5 (split; [done|]). by apply tell_listeners_told in Htell.
Qed.

(** A later request for the same address with the same number only adds the worker
    to the agent: no socket is opened, no listener thread is told, and the worker is
    answered only if the agent is marked as listening, which an agent with a socket of
    the master never is. *)
Theorem second_request_joins c sh target idx rid addr backlog i a :
  isMaster c = true → find_agent (is_agent_of addr rid) 0 (agentServers c) = Some (i, a) →
  let c' := put i (with_slave (idx, target) a) c in
  processRequestForListeningAtMaster use_shared self target idx rid addr backlog (c, sh) = Ok ((c', sh), listening a) ∧
  (∀ b, agentServers c !! i = Some (Some b) → b = a) ∧
  ∀ m, msgType m = ServerListening → sourceThreadID m = target →
    msg m = PListeningRequest (mkListeningRequest rid idx (Server.a_ip addr) (Server.a_port addr) backlog (Server.a_family addr)) →
    a_state a ≠ Server.Listening → processInterthreadRequest use_shared self m (c, sh) = Ok (c', sh).
Proof.
  intros Hm Hf c'. pose proof (find_agent_spec (is_agent_of addr rid) 0 (agentServers c)) as Hspec. rewrite Hf in Hspec.
  destruct Hspec as (_ & Hl & _). rewrite Nat.sub_0_r in Hl.
  assert (Hreq : processRequestForListeningAtMaster use_shared self target idx rid addr backlog (c, sh) = Ok ((c', sh), listening a)).
  { unfold processRequestForListeningAtMaster. cbn [fst snd]. by rewrite Hm, Hf. }
  split; [done|]. split; [intros b Hb; congruence|]. intros m Ht Hsrc Hmsg Hst.
  unfold processInterthreadRequest. rewrite Ht, Hmsg. change (as_ListeningRequest _) with
    (Ok (mkListeningRequest rid idx (Server.a_ip addr) (Server.a_port addr) backlog (Server.a_family addr))).
  cbn [mbind res_bind lr_port lr_family lr_ip lr_entryIndex lr_requestID lr_backlog]. rewrite Hsrc.
  replace (Server.mkAddress _ _ _) with addr by (by destruct addr). rewrite Hreq. cbn [mbind res_bind].
  unfold listening. by rewrite bool_decide_eq_false_2.
Qed.

End master.

Section worker.
Context {Ob N W : Type} `{Countable Ob} `{!OS W, !ServerOS W, !WorkerNode Ob N W}.
Context (self : ThreadID).
Import Worker.
Implicit Types (w : Worker.t Ob N) (sh : Threads.t W).

(** Closing a server of a worker brings the master down: the request to close is
    posted with the tag of a request to listen, and is shorter than one, so the master
    fails its check of the size, whatever its state. *)
Theorem close_request_fails_at_master o w sh idx h (ww : W) :
  isWorker (cluster w) = true → servers w !! o = Some idx →
  post_check (mkID 0 0) (Threads.threadQueues sh) = Ok (0, h) → sys_sendto h [Some x01] (Threads.os sh) = (ww, inl 1) →
  ∃ m s', Worker.close self o (w, sh) = Ok s' ∧
    Threads.queues s'.2 = Threads.queue_push 0 m (Threads.queues sh) ∧
    ∀ use_shared c sh2, processInterthreadRequest use_shared (mkID 0 0) m (c, sh2) = AssertFail.
Proof.
  intros Hw Ho Hpost Hsend. unfold Worker.close, Worker.index. cbn [fst]. rewrite Ho. cbn [mbind res_bind].
  unfold sendServerCloseRequest. cbn [fst snd]. rewrite Hw. unfold serializeAndSendServerCloseRequest.
  rewrite (post_ok _ _ _ _ _ 0 h ww) by done. cbn [mbind res_bind]. do 2 eexists. split; [reflexivity|]. split; [reflexivity|].
  intros use_shared c sh2. by unfold processInterthreadRequest.
Qed.

Lemma close_open_entry o w idx e n :
  servers w !! o = Some idx → slaveServerAt idx w = Ok e → sl_ptr e = Some o →
  sl_state e ≠ NetRegistry.NetRegistry.Unused → wn_begin_close o (node w) = Ok (n, 0) →
  is_ok (closeByWorkingCluster o w) = is_ok (wn_report_ended idx n) ∧
  (wn_report_ended idx n = AssertFail → closeByWorkingCluster o w = AssertFail).
Proof.
  intros Ho Hat Hp Hst Hb. unfold closeByWorkingCluster, appClose, Worker.index. rewrite Ho. cbn [mbind res_bind].
  rewrite Hat. cbn [mbind res_bind]. unfold Worker.isUsed, is_valid. rewrite Hp, Ho.
  rewrite (bool_decide_eq_true_2 (is_Some _)) by by eexists. rewrite orb_true_r. cbn [mbind res_bind].
  rewrite bool_decide_eq_true_2 by done. unfold setSlaveSocketClosed. rewrite Hat. cbn [mbind res_bind].
  rewrite bool_decide_eq_true_2 by done. cbn [mbind res_bind]. cbn [node set_slave with_slaves]. rewrite Hb. cbn [mbind res_bind].
  rewrite bool_decide_eq_true_2 by done. unfold Worker.index. cbn [servers with_node set_slave with_slaves]. rewrite Ho. cbn [mbind res_bind].
  cbn [node with_node]. split; [by destruct (wn_report_ended idx n)|by intros ->].
Qed.

(** A connection goes to the worker with the lowest load, with the index of the
    server in the table of the worker that asked first: a worker that has no server at that
    place - it has not asked yet, or created its servers in another order - fails. *)
Theorem connection_for_absent_server_fails w sh info infos :
  acceptedSockets w = info :: infos →
  (as_idx info < SlaveServerEntryMinIndex ∨ SlaveServerEntryMinIndex + Z.of_nat (length (slaveServers w)) ≤ as_idx info)%Z →
  infraEmitAcceptedSocketEventsReceivedfromMaster (w, sh) = AssertFail.
Proof.
  intros Hacc Hidx. unfold infraEmitAcceptedSocketEventsReceivedfromMaster. cbn [fst]. rewrite Hacc. cbn [emit_accepted fst].
  unfold slaveServerAt. destruct Hidx; [by rewrite bool_decide_eq_false_2 by lia|].
  destruct (bool_decide _); [|done]. by rewrite bool_decide_eq_false_2 by lia.
Qed.
End worker.

(** ** The node of Server.v behind a worker *)
Section node.
Context {Ob W E : Type} `{Countable Ob} `{!Infinite Ob} `{!OS W, !ServerOS W}.
Context (grow : nat → nat) (inet_addr : list u8 → Z).
Context (suser : Ob → Server.SEvent Ob → Server.net Ob W E → list (Server.Cmd Ob W)).
Import Worker.
Abbreviation net := (Server.net Ob W E).

(** The table of Server.v reserves one place, that of a worker also the second for the
    awaker socket. *)
Definition report_ended (idx : Z) (s : net) : res net :=
  ASSERT bool_decide (idx < Z.of_nat (length (NetRegistry.NetRegistry.all_entries (Server.table s))))%Z ;;
  _ ← NetRegistry.NetRegistry.at_ (Z.to_nat idx) (Server.table s);
  Ok (Server.with_pending (Server.pendingCloseEvents s ++ [(Z.to_nat idx, false)]) s).

#[local] Instance server_node : WorkerNode Ob net W := {|
  wn_create s := let o := Server.new_name s in (Server.put o Server.new_server (Server.add_object o 0 s), o);
  wn_set_address o a s := d ← Server.get o s; Ok (Server.put o (Server.with_address (Server.refed d) a d) s);
  wn_begin_close o s := d ← Server.get o s; Ok (Server.put o (Server.with_state Server.BeingClosed d) s, Server.getSockCount d);
  wn_report_ended := report_ended;
  wn_consume o sk ip_ port s w :=
    s ← Server.consumeAcceptedSocket grow inet_addr suser o sk ip_ port (Server.with_os w s); Ok (s, Server.os s);
  wn_destroy o s :=
    d ← Server.get o s;
    s ← Server.destroy_sockets grow (MultiOwner.owned (MultiOwner.items (Server.socketList d))) s;
    Ok (Server.with_servers (delete o (Server.servers s)) s);
|}.
Implicit Types (w : Worker.t Ob net) (sh : Threads.t W).

(** C12. A connection that was sent to a worker reaches the user of its server: once the
    loop hands out what was received, the server has a new connected socket, polled for
    input and owned by it, with the addresses of the message, and its user is told,
    as if the server had accepted the connection itself. *)
Theorem connection_reaches_user w sh info e sv d :
  acceptedSockets w = [info] → slaveServerAt (as_idx info) w = Ok e → sl_ptr e = Some sv → is_Some (servers w !! sv) →
  Server.servers (node w) !! sv = Some d → NetRegistry.NetRegistry.wf (Server.table (node w)) →
  ServerSpec.room (Server.table (node w)) → (0 < as_socket info)%Z →
  ∃ o j s2 d2,
    infraEmitAcceptedSocketEventsReceivedfromMaster (w, sh) =
      (s3 ← Server.run_cmds grow inet_addr (suser sv (ServerSpec.accept_event d o) s2) s2;
       Ok (with_accepted [] (log_consumed (as_socket info) (with_node s3 w)), Threads.with_os (Server.os s3) sh)) ∧
    ServerSpec.opened o (as_socket info) (Server.table (node w)) (Server.table s2) j ∧
    Tcp.socks (Server.tcp s2) !! o = Some ServerSpec.accepted_sock ∧
    Server.owner s2 !! o = Some sv ∧ Server.servers s2 !! sv = Some d2 ∧ Server.getSockCount d2 = Server.getSockCount d + 1 ∧
    snd <$> Server.addresses s2 !! o =
      Some (Server.mkAddress (Ip.Port_getHost (as_port info)) Ip.Undefined (as_ip info)) ∧
    Server.os s2 = Threads.os sh ∧ Server.strace s2 = Server.strace (node w) ++ [(sv, ServerSpec.accept_event d o)].
Proof.
  intros Hacc Hat Hp [i Hi] Hd Hwf Hroom Hsk.
  destruct (ServerSpec.consume_spec grow inet_addr suser (Server.with_os (Threads.os sh) (node w)) sv d (as_socket info)
              (as_ip info) (as_port info)) as (o & j & s2 & d2 & Heq & _ & Hop & Hso & _ & _ & Hos & How & Had & Hsv & _ & _ & Hc & _ & _ & Ht); try done.
  exists o, j, s2, d2. split_and!; try done.
  - unfold infraEmitAcceptedSocketEventsReceivedfromMaster. cbn [fst]. rewrite Hacc. cbn [emit_accepted fst snd]. rewrite Hat.
    cbn [mbind res_bind]. unfold getServerSocket, is_valid. rewrite Hp. rewrite bool_decide_eq_true_2 by by eexists. cbn [mbind res_bind].
    cbn [wn_consume server_node]. rewrite Heq. by destruct (Server.run_cmds _ _ _ _).
  - rewrite Hso. apply lookup_insert_eq.
  - rewrite How. apply lookup_insert_eq.
  - rewrite Hsv. apply lookup_insert_eq.
  - by rewrite Had.
Qed.

(** A worker that is told to close a server without connections fails: the
    server reports its end under its index, which is beyond every table of sockets. *)
Theorem worker_server_close_fails w sv idx e d :
  servers w !! sv = Some idx → slaveServerAt idx w = Ok e → sl_ptr e = Some sv →
  sl_state e ≠ NetRegistry.NetRegistry.Unused → Server.servers (node w) !! sv = Some d → Server.getSockCount d = 0 →
  (Z.of_nat (length (NetRegistry.NetRegistry.all_entries (Server.table (node w)))) < 2 ^ 63)%Z →
  closeByWorkingCluster sv w = AssertFail.
Proof.
  intros Hi Hat Hp Hst Hd Hc Hlen. pose proof Hat as Hidx. unfold slaveServerAt in Hidx. inv_res.
  eapply (close_open_entry sv w idx e); try done.
  - cbn [wn_begin_close server_node]. rewrite (ServerSpec.get_of sv _ d) by done. cbn [mbind res_bind]. by rewrite Hc.
  - cbn [wn_report_ended server_node]. unfold report_ended. rewrite bool_decide_eq_false_2; [done|].
    change (Server.table (Server.put _ _ _)) with (Server.table (node w)). unfold SlaveServerEntryMinIndex in *. lia.
Qed.
End node.

(** ** The load of the workers *)
Section load.
Context {ID : Type}.
Import WorkerLoad.
Implicit Types (s : WorkerLoad.t ID).

Lemma base_underflow n : 1 ≤ n → n ≤ 128 →
  (u64 (u64 (Z.shiftl (u64 (0 - 1)) 32) + u64 (Z.shiftl (u64 (0 - 1)) 28) / Z.of_nat n + 1) ≤ 2 ^ 64 - 2 ^ 32)%Z.
Proof.
  intros H1 H2. change (u64 (Z.shiftl (u64 (0 - 1)) 32)) with (2 ^ 64 - 2 ^ 32)%Z.
  change (u64 (Z.shiftl (u64 (0 - 1)) 28)) with (2 ^ 64 - 2 ^ 28)%Z.
  set (d := ((2 ^ 64 - 2 ^ 28) / Z.of_nat n)%Z).
  assert (Hd : (2 ^ 32 ≤ d ≤ 2 ^ 64 - 2 ^ 28)%Z).
  { subst d. split; [apply Z.div_le_lower_bound; lia|apply Z.div_le_upper_bound; lia]. }
  unfold u64. rewrite <-(Z_mod_plus_full _ (-1)). rewrite Z.mod_small by lia. lia.
Qed.

(** The end of a socket that a worker has opened itself is counted like the end
    of a connection it was sent: on a worker without connections the load falls below zero
    and wraps around. The worker is then never chosen again while no connection is
    accepted, and with a single worker no connection can be dispatched at all. *)
Theorem client_socket_underflows_load ws i id s' :
  length ws ≤ MAX_THREADS → Forall (λ w, w.1 = 0%Z) ws → ws !! i = Some (0%Z, id) →
  ∀ cur, decrementLoadCtr i (WorkerLoad.mk ws 0 cur) = Ok s' →
  workers s' !! i = Some ((2 ^ 64 - 1)%Z, id) ∧ totalLoadCtr s' = (2 ^ 64 - 1)%Z ∧
  is_candidate (comparisonBase s') ((2 ^ 64 - 1)%Z, id) = false ∧
  (length ws = 1 → getCandidateAndIncrementLoad s' = AssertFail).
Proof.
  intros Hlen Hall Hi cur. unfold decrementLoadCtr. cbn [workers]. rewrite Hi. intros [= <-].
  pose proof (lookup_lt_Some _ _ _ Hi) as Hlt.
  assert (Hcand : is_candidate (comparisonBase (WorkerLoad.mk (<[i := (u64 (0 - 1), id)]> ws) (u64 (0 - 1)) cur)) ((2 ^ 64 - 1)%Z, id) = false).
  { unfold is_candidate, comparisonBase, usedSlotCnt. cbn [workers totalLoadCtr fst]. rewrite length_insert.
    apply bool_decide_eq_false_2. change (u64 (Z.shiftl (2 ^ 64 - 1) 32)) with (2 ^ 64 - 2 ^ 32)%Z.
    pose proof (base_underflow (length ws) ltac:(lia) Hlen). lia. }
  split; [by apply list_lookup_insert_eq|]. split; [done|]. split; [exact Hcand|]. intros H1.
  destruct ws as [|w0 [|]]; try done. destruct i as [|i]; [|done]. cbn [list_insert insert] in *.
  unfold getCandidateAndIncrementLoad. rewrite bool_decide_eq_true_2 by done. unfold usedSlotCnt at 1. cbn [workers length current].
  change (1 - S cur) with 0. cbn [scan]. cbn [scan lookup list_lookup workers].
  change (u64 (0 - 1)) with (2 ^ 64 - 1)%Z in *. cbn [workers] in *. unfold insert, list_insert in *. rewrite Hcand.
  destruct cur; reflexivity.
Qed.
End load.
End MasterSpec.

(** ** Concrete instances: a master, a listener thread and a worker whose node is that of ServerSpec.v *)
Module ClusterExample.
Import Msg ThreadSlots TcpExample ServerExample ListenerExample MasterSpec.
Abbreviation system := TcpExample.net.
Abbreviation net := (Server.net nat system nat).
#[export] Instance example_node : WorkerNode nat net system := server_node NS.double no_addr quiet_user.

(** what is still to be read, and the outcomes of the next sends *)
Definition world (bytes sends : nat) : system :=
  TcpExample.mkNet [] false (replicate bytes x01) (replicate sends (inl 1)) true.
Definition slots3 : ThreadSlots.t Empty_set :=
  [CommData.mk 30 0 None CommData.acquired; CommData.mk 31 1 None CommData.acquired; CommData.mk 32 1 None CommData.acquired].
Definition one_listener : Listeners.t := Listeners.mk (<[0 := mkID 2 1]> (replicate 128 Listeners.no_thread)) 1.
Definition shared3 (bytes sends : nat) : Threads.t system :=
  Threads.mk slots3 [[]; []; []] (WorkerLoad.mk [(0%Z, worker1)] 0 0) one_listener (world bytes sends).
Definition addr80 : Server.Address := Server.mkAddress 80 Cluster.family 0%Z.

Lemma first_request_creates_agent_witness : ∃ (c' : Cluster.t) (i : nat) (a : Cluster.AgentServer) (sh' : Threads.t system),
  Cluster.processRequestForListeningAtMaster false (mkID 0 0) worker1 (2 ^ 63) 1 addr80 128 (Cluster.preinit 0, shared3 0 1) =
    Ok ((c', sh'), false) ∧
  Cluster.socketsToSlaves a = [((2 ^ 63)%Z, worker1)] ∧ i = 0 ∧
  Threads.queues sh' = [[]; []; [Msg.mk (PRequest (mkRequest AddServerSocket (2 ^ 63) 9 0%Z 20480%Z 128)) RequestToListeningThread (mkID 0 0) (mkID 2 1)]].
Proof.
  destruct (first_request_creates_agent (mkID 0 0) (Cluster.preinit 0) (shared3 0 1) worker1 (2 ^ 63) 1 addr80 128 (world 0 1) 9
              (world 0 1) (world 0 1)
              (Threads.mk slots3 [[]; []; [Msg.mk (PRequest (mkRequest AddServerSocket (2 ^ 63) 9 0%Z 20480%Z 128)) RequestToListeningThread (mkID 0 0) (mkID 2 1)]]
                 (WorkerLoad.mk [(0%Z, worker1)] 0 0) one_listener (TcpExample.mkNet [Some x01] false [] [] true)))
    as (c' & i & a & Heq & _ & Hi & Hs & _ & _ & _ & Hq); try done.
  - intros a Ha. by apply elem_of_nil in Ha.
  - by exists c', i, a, (Threads.mk slots3 [[]; []; [Msg.mk (PRequest (mkRequest AddServerSocket (2 ^ 63) 9 0%Z 20480%Z 128)) RequestToListeningThread (mkID 0 0) (mkID 2 1)]]
                 (WorkerLoad.mk [(0%Z, worker1)] 0 0) one_listener (TcpExample.mkNet [Some x01] false [] [] true)).
Defined.

Definition agent80 : Cluster.AgentServer :=
  Cluster.mkAgent [((2 ^ 63)%Z, worker1)] true 9 Server.Unused addr80 0 1.
Definition master80 : Cluster.t := Cluster.mk 0 [1]%Z 1 [Some agent80] 0.
Lemma second_request_joins_witness :
  Cluster.processRequestForListeningAtMaster false (mkID 0 0) (mkID 5 1) (2 ^ 63) 1 addr80 128 (master80, shared3 0 0) =
    Ok ((Cluster.put 0 (Cluster.with_slave ((2 ^ 63)%Z, mkID 5 1) agent80) master80, shared3 0 0), false).
Proof.
  refine (proj1 (second_request_joins false (mkID 0 0) master80 (shared3 0 0) (mkID 5 1) (2 ^ 63) 1 addr80 128 0 agent80 _ _)); reflexivity.
Defined.

(** a worker with the server 5 in the first place of its table *)
Definition worker5 (st : NetRegistry.NetRegistry.State) (n : net) (acc : list Worker.AcceptedSocketData) : Worker.t nat net :=
  Worker.mk (Cluster.preinit 1) 0 [Worker.mkSlave st (2 ^ 63) false (Some 5)] {[5 := (2 ^ 63)%Z]} acc [] n [].

Lemma close_request_fails_at_master_witness : ∃ m s',
  Worker.close worker1 5 (worker5 NetRegistry.NetRegistry.SockIssued listening2 [], shared3 0 1) = Ok s' ∧
  Threads.queues s'.2 = [[m]; []; []] ∧
  ∀ use_shared c (sh2 : Threads.t system), Cluster.processInterthreadRequest use_shared (mkID 0 0) m (c, sh2) = AssertFail.
Proof.
  apply (close_request_fails_at_master worker1 5 (worker5 NetRegistry.NetRegistry.SockIssued listening2 []) (shared3 0 1) (2 ^ 63) 30
           (TcpExample.mkNet [Some x01] false [] [] true)); done.
Defined.

Lemma connection_for_absent_server_fails_witness :
  Worker.infraEmitAcceptedSocketEventsReceivedfromMaster
    (worker5 NetRegistry.NetRegistry.SockIssued listening2 [Worker.mkAccepted (2 ^ 63 + 1) 12 0%Z 0%Z], shared3 0 0) = AssertFail.
Proof.
  apply (connection_for_absent_server_fails (worker5 NetRegistry.NetRegistry.SockIssued listening2 [Worker.mkAccepted (2 ^ 63 + 1) 12 0%Z 0%Z])
           (shared3 0 0) (Worker.mkAccepted (2 ^ 63 + 1) 12 0%Z 0%Z) []); [done|]. right. vm_compute. discriminate.
Defined.

Lemma connection_reaches_user_witness : ∃ (o : nat) (s2 : net),
  Worker.infraEmitAcceptedSocketEventsReceivedfromMaster
    (worker5 NetRegistry.NetRegistry.SockIssued listening2 [Worker.mkAccepted (2 ^ 63) 12 0%Z 0%Z], shared3 0 0) =
    Ok (Worker.with_accepted [] (Worker.log_consumed 12 (Worker.with_node s2 (worker5 NetRegistry.NetRegistry.SockIssued listening2 [Worker.mkAccepted (2 ^ 63) 12 0%Z 0%Z]))),
        Threads.with_os (Server.os s2) (shared3 0 0)) ∧
  Server.owner s2 !! o = Some 5 ∧ Server.strace s2 = [(5, Server.SvResumed 3 false)].
Proof.
  destruct (connection_reaches_user NS.double no_addr quiet_user
              (worker5 NetRegistry.NetRegistry.SockIssued listening2 [Worker.mkAccepted (2 ^ 63) 12 0%Z 0%Z]) (shared3 0 0)
              (Worker.mkAccepted (2 ^ 63) 12 0%Z 0%Z) (Worker.mkSlave NetRegistry.NetRegistry.SockIssued (2 ^ 63) false (Some 5)) 5
              (server5 Server.Listening (Some 3) [Some 6])) as (o & j & s2 & d2 & Heq & _ & _ & How & _ & _ & _ & _ & Ht); try done.
  - apply table2_wf. by left.
  - by exists o, s2.
Defined.

Lemma worker_server_close_fails_witness :
  Worker.closeByWorkingCluster 5 (worker5 NetRegistry.NetRegistry.SockIssued closing2 []) = AssertFail.
Proof.
  apply (worker_server_close_fails NS.double no_addr quiet_user (worker5 NetRegistry.NetRegistry.SockIssued closing2 []) 5 (2 ^ 63)
           (Worker.mkSlave NetRegistry.NetRegistry.SockIssued (2 ^ 63) false (Some 5)) (server5 Server.BeingClosed None [])); done.
Defined.

Lemma client_socket_underflows_load_witness :
  WorkerLoad.decrementLoadCtr 0 (WorkerLoad.mk [(0%Z, worker1)] 0 0) = Ok (WorkerLoad.mk [((2 ^ 64 - 1)%Z, worker1)] (2 ^ 64 - 1) 0) ∧
  WorkerLoad.getCandidateAndIncrementLoad (WorkerLoad.mk [((2 ^ 64 - 1)%Z, worker1)] (2 ^ 64 - 1) 0) = AssertFail.
Proof.
  split; [reflexivity|].
  apply (client_socket_underflows_load [(0%Z, worker1)] 0 worker1 (WorkerLoad.mk [((2 ^ 64 - 1)%Z, worker1)] (2 ^ 64 - 1) 0)) with (cur := 0); try done.
  - cbn. unfold WorkerLoad.MAX_THREADS. lia.
  - by repeat constructor.
Defined.
End ClusterExample.

(** ** From an empty process to a connection at the user of a worker: a worker and a listener
    thread start, the worker listens, the master opens the socket, the listener
    accepts a connection, the worker hands it to its server. *)
Module Scenario.
Import Msg ThreadSlots TcpExample ServerExample ClusterExample System.
#[local] Existing Instance ListenerExample.listener_os.

(** the awaker socket is ready when there is something to read, every other descriptor is *)
Definition scenario_answers (w : system) (fds : list Listener.pollfd) : list Z :=
  match fds with
  | [] => []
  | _ :: fds => (if bool_decide (n_in w = []) then 0%Z else 1%Z) ::
                ((λ f, if bool_decide (NetRegistry.NetRegistry.fd f < 0)%Z then 0%Z else 1%Z) <$> fds)
  end.
#[local] Instance scenario_os : LoopOS system := {|
  sys_poll fds _ w := (w, (Z.of_nat (EventLoopSpec.EventLoopSpec.ready_count (scenario_answers w fds)), scenario_answers w fds));
  sys_now w := (w, 100%Z);
|}.
Abbreviation sys := (System.sys (W := system) (Ob := nat) (N := net)).

Definition ini : Threads.InterThreadCommInitializer := Threads.mkInit 80 9.
Definition empty_node : net :=
  Server.mk (Tcp.mk ∅ (NetRegistry.NetRegistry.init ∅) [] [] Buffer.empty_buffer world2 []) ∅ ∅ ∅ [] [] [] [].
Definition s0 : sys :=
  mkSys (Threads.mk (CommData.mk 30 0 None CommData.acquired :: replicate 127 CommData.init) (replicate MAX_THREADS [])
           WorkerLoad.init Listeners.init (world 0 20)) [] [] (Cluster.preinit 0).

Definition set_listener (i : nat) (r : res (Listener.t * Threads.t system * bool)) (s : sys) : sys :=
  match r, listeners s !! i with
  | Ok ((l, sh), _), Some (self, _) => mkSys sh (<[i := (self, l)]> (listeners s)) (workers s) (master s)
  | _, _ => s
  end.
Definition set_worker (i : nat) (r : res (Worker.t nat net * Threads.t system)) (s : sys) : sys :=
  match r, workers s !! i with
  | Ok (w, sh), Some (self, _) => mkSys sh (listeners s) (<[i := (self, w)]> (workers s)) (master s)
  | _, _ => s
  end.
Definition with_bytes (n : nat) (s : sys) : sys :=
  mkSys (Threads.with_os (world n 20) (threads s)) (listeners s) (workers s) (master s).
Definition the_worker (s : sys) : Worker.t nat net * Threads.t system :=
  match workers s with (_, w) :: _ => (w, threads s) | [] => (Worker.mk (Cluster.preinit 0) 0 [] ∅ [] [] empty_node [], threads s) end.
Definition the_listener (s : sys) : Listener.t * Threads.t system :=
  match listeners s with (_, l) :: _ => (l, threads s) | [] => (Listener.init, threads s) end.

Definition s1 : sys := Eval vm_compute in
  match Cluster.fork ini (master s0, threads s0) with Ok ((c, sh), _) => mkSys sh [] [] c | _ => s0 end.
Definition s2 : sys := Eval vm_compute in
  match Worker.start (mkID 1 1) 1 empty_node (threads s1) with Ok (w, sh) => mkSys sh [] [(mkID 1 1, w)] (master s1) | _ => s1 end.
Definition s3 : sys := Eval vm_compute in
  match Threads.createListenerThread ini (threads s2) with
  | Ok (sh, id, h) =>
      match Listener.setAwakerSocket h Listener.init, Listener.reportThreadStarted id sh with
      | Ok l, Ok sh => mkSys sh [(id, l)] (workers s2) (master s2)
      | _, _ => s2
      end
  | _ => s2
  end.
Definition s4 : sys := Eval vm_compute in set_worker 0 (run_call (mkID 1 1) Create (the_worker s3)) s3.
Definition s5 : sys := Eval vm_compute in set_worker 0 (run_call (mkID 1 1) (Listen 0 0%Z 80 128) (the_worker s4)) s4.
Definition s6 : sys := Eval vm_compute in with_bytes 3 s5.
Definition s7 : sys := Eval vm_compute in
  match Cluster.master_awaker false (mkID 0 0) 9 1 (master s6, threads s6) with
  | Ok (c, sh) => mkSys sh (listeners s6) (workers s6) c
  | _ => s6
  end.
Definition s8 : sys := Eval vm_compute in with_bytes 1 s7.
Definition s9 : sys := Eval vm_compute in set_listener 0 (Listener.turn (mkID 2 1) 10 (the_listener s8)) s8.
Definition s10 : sys := Eval vm_compute in set_listener 0 (Listener.turn (mkID 2 1) 10 (the_listener s9)) s9.
Definition s11 : sys := Eval vm_compute in with_bytes 1 s10.
Definition s12 : sys := Eval vm_compute in set_worker 0 (Worker.worker_awaker (mkID 1 1) 9 1 (the_worker s11)) s11.
Definition s13 : sys := Eval vm_compute in
  set_worker 0 (Worker.infraEmitAcceptedSocketEventsReceivedfromMaster (the_worker s12)) s12.

Abbreviation ID1 := (mkID 1 1).
Abbreviation ID2 := (mkID 2 1).
Lemma step_eq (s t t' : sys) : step false s t → t = t' → step false s t'.
Proof. by intros ? <-. Qed.

Abbreviation worker_of s := ((the_worker s).1).
Abbreviation listener_of s := ((the_listener s).1).
Lemma steps_start : rtc (step false) s0 s3.
Proof.
  apply rtc_l with s1; [eapply (step_fork false s0 ini); vm_compute; reflexivity|].
  apply rtc_l with s2; [eapply (step_start_worker false s1 ID1 1 empty_node); vm_compute; reflexivity|].
  apply rtc_once. eapply (step_start_listener false s2 ini); vm_compute; reflexivity.
Qed.
Lemma steps_calls : rtc (step false) s3 s6.
Proof.
  apply rtc_l with s4.
  { apply (step_eq _ _ _ (step_worker_call false s3 0 ID1 (worker_of s3) Create (worker_of s4) (threads s4) ltac:(vm_compute; reflexivity)
             ltac:(vm_compute; reflexivity))). vm_compute. reflexivity. }
  apply rtc_l with s5.
  { apply (step_eq _ _ _ (step_worker_call false s4 0 ID1 (worker_of s4) (Listen 0 0%Z 80 128) (worker_of s5) (threads s5)
             ltac:(vm_compute; reflexivity) ltac:(vm_compute; reflexivity))). vm_compute. reflexivity. }
  apply rtc_once. apply (step_eq _ _ _ (step_system false s5 (world 3 20))). vm_compute. reflexivity.
Qed.
Lemma steps_listen : rtc (step false) s6 s9.
Proof.
  apply rtc_l with s7.
  { assert (Hm : Cluster.master_awaker false (mkID 0 0) 9 1 (master s6, threads s6) = Ok (master s7, threads s7)) by (vm_compute; reflexivity).
    apply (step_eq _ _ _ (step_master false s6 9 1 (master s7) (threads s7) Hm)). vm_compute. reflexivity. }
  apply rtc_l with s8; [apply (step_eq _ _ _ (step_system false s7 (world 1 20))); vm_compute; reflexivity|].
  apply rtc_once.
  assert (Ht : Listener.turn ID2 10 (the_listener s8) = Ok (the_listener s9, true)) by (vm_compute; reflexivity).
  apply (step_eq _ _ _ (step_listener false s8 0 ID2 (listener_of s8) 10 (listener_of s9) (threads s9) true eq_refl Ht)).
  vm_compute. reflexivity.
Qed.
Lemma steps_connection : rtc (step false) s9 s13.
Proof.
  apply rtc_l with s10.
  { assert (Ht : Listener.turn ID2 10 (the_listener s9) = Ok (the_listener s10, true)) by (vm_compute; reflexivity).
    apply (step_eq _ _ _ (step_listener false s9 0 ID2 (listener_of s9) 10 (listener_of s10) (threads s10) true eq_refl Ht)).
    vm_compute. reflexivity. }
  apply rtc_l with s11; [apply (step_eq _ _ _ (step_system false s10 (world 1 20))); vm_compute; reflexivity|].
  apply rtc_l with s12.
  { assert (Hw : Worker.worker_awaker ID1 9 1 (the_worker s11) = Ok (the_worker s12)) by (vm_compute; reflexivity).
    apply (step_eq _ _ _ (step_worker_messages false s11 0 ID1 (worker_of s11) 9 1 (worker_of s12) (threads s12) eq_refl Hw)).
    vm_compute. reflexivity. }
  apply rtc_once.
  assert (Hw : Worker.infraEmitAcceptedSocketEventsReceivedfromMaster (the_worker s12) = Ok (the_worker s13)) by (vm_compute; reflexivity).
  apply (step_eq _ _ _ (step_worker_accepts false s12 0 ID1 (worker_of s12) (worker_of s13) (threads s13) eq_refl Hw)).
  vm_compute. reflexivity.
Qed.

Lemma connections_conserved_witness :
  rtc (step false) s0 s13 ∧ all_accepted s13 = [12]%Z ∧ Worker.consumed (the_worker s13).1 = [12]%Z ∧
  all_accepted s13 ≡ₚ
    Transit.transit (threads s13) ++
    (workers s13 ≫= λ p, (Worker.as_socket <$> Worker.acceptedSockets p.2) ++ Worker.consumed p.2).
Proof.
  assert (Hsteps : rtc (step false) s0 s13).
  { transitivity s3; [exact steps_start|]. transitivity s6; [exact steps_calls|].
    transitivity s9; [exact steps_listen|exact steps_connection]. }
  split; [exact Hsteps|]. split; [reflexivity|]. split; [reflexivity|].
  apply (connections_conserved false s0 s13); [by split_and!|exact Hsteps].
Defined.
End Scenario.
