(* ===== verification/SysCalls.v ===== *)
(** * The system calls of the sockets (src/tcp_socket/tcp_socket.cpp, tcp_socket_base.h)

    [Sys] is the functions [internal_...] between the sockets and the operating
    system, [SocketRiia] and the calls of [OSLayer] that use them, in the build for
    Linux: what is asked of the kernel, with the options and flags, what the
    result and [errno] are turned into, and the lines that go to the log. The
    kernel is used through the class [Kernel], of which [KernelLaws] states what
    the manual pages promise. The classes [OS], [ServerOS] and [ListenerOS] that the rest of
    the library is written against are instances here, over any kernel, and
    [OSLaws] follows from [KernelLaws]. *)

From S2P Require Import Prelude.
From S2P Require Import Buffers.
From S2P Require Import TcpSocket.
From S2P Require Import TcpSocketSpec.
From S2P Require Import HttpMessage.
From S2P Require Import Address.
From S2P Require Import Server.
From S2P Require Import ListenerThread.
From Stdlib Require Import Lia.

(** ** The kernel *)

(** [struct sockaddr_in]: port and address in network order *)
Record sockaddr_in : Type := mkAddr { sin_family : Z; sin_port : Z; sin_addr : Z }.

(** What a call answers: [Done ret out] with what it wrote through its pointers, or
    [-1] with [errno]. *)
Inductive rep (A : Type) : Type :=
  | Done (ret : Z) (out : A)
  | Err (e : Z).
Arguments Done {A}.
Arguments Err {A}.

(** The calls by their names. [k_sendto] is given the bytes it may read,
    [k_recvfrom] the room it may write to. *)
Class Kernel (W : Type) := {
  k_socket : Z → Z → Z → W → W * rep unit;
  k_ioctl : Z → Z → Z → W → W * rep unit;
  k_setsockopt : Z → Z → Z → list Z → W → W * rep unit;
  k_getsockopt : Z → Z → Z → W → W * rep Z;
  k_bind : Z → sockaddr_in → W → W * rep unit;
  k_connect : Z → sockaddr_in → W → W * rep unit;
  k_getsockname : Z → W → W * rep sockaddr_in;
  k_listen : Z → Z → W → W * rep unit;
  k_accept : Z → W → W * rep sockaddr_in;
  k_sendto : Z → list cell → W → W * rep unit;
  k_recvfrom : Z → Z → W → W * rep (list u8);
  k_shutdown : Z → Z → W → W * rep unit;
  k_close : Z → W → W * rep unit;
}.

Module Sys.
Import Tcp Ip.

(** The constants of the Linux headers. *)
Definition PF_INET : Z := 2.
Definition SOCK_STREAM : Z := 1.
Definition IPPROTO_TCP : Z := 6.
Definition SOL_SOCKET : Z := 1.
Definition SO_REUSEPORT : Z := 15.
Definition SO_KEEPALIVE : Z := 9.
Definition SO_LINGER : Z := 13.
Definition SO_ERROR : Z := 4.
Definition TCP_NODELAY : Z := 1.
Definition FIONBIO : Z := 0x5421.
Definition SHUT_WR : Z := 1.
Definition EAGAIN : Z := 11.
Definition EWOULDBLOCK : Z := 11.
Definition EINPROGRESS : Z := 115.

(** ** The log *)
Inductive severity : Type := Info | Fatal.
Inductive arg : Type := AInt (n : Z) | AStr (s : list u8).
Record line : Type := mkLine { level : severity; text : string; args : list arg }.

Definition zero_addr : sockaddr_in := mkAddr 0 0 0.
Definition inet_sockaddr (ip : Ip4) (port : Port) : sockaddr_in :=
  mkAddr PF_INET (Port_getNetwork port) (Ip4_getNetwork ip).

(** Before [main]: there is nothing to initialise on Linux. *)
Definition netInitialize : bool := true.
Definition netInitialized : bool := netInitialize.
Definition isNetInitialized : bool := netInitialized.

Section calls.
Context {W : Type} `{!Kernel W} (inet_addr : list u8 → Z).

(** the kernel, [errno] of the thread and what was logged *)
Record io : Type := mkIo { world : W; errno : Z; lines : list line }.

Definition put_line (l : line) (s : io) : io := mkIo (world s) (errno s) (lines s ++ [l]).
Definition info (text : string) (args : list arg) : io → io := put_line (mkLine Info text args).
Definition fatal (text : string) (args : list arg) : io → io := put_line (mkLine Fatal text args).

(** A call: what it returns, and what it wrote over [d]. *)
Definition syscall {A} (d : A) (k : W → W * rep A) (s : io) : io * (Z * A) :=
  let '(w, r) := k (world s) in
  match r with
  | Done ret out => (mkIo w (errno s) (lines s), (ret, out))
  | Err e => (mkIo w e (lines s), ((-1)%Z, d))
  end.
Definition call (k : W → W * rep unit) (s : io) : io * Z :=
  let '(s, (ret, _)) := syscall tt k s in (s, ret).

Definition getSockError (s : io) : Z := errno s.
Definition isErrorWouldBlock (error : Z) (s : io) : bool :=
  bool_decide (errno s = EINPROGRESS) || bool_decide (error = EAGAIN) || bool_decide (error = EWOULDBLOCK).

(** ** Closing *)
Definition internal_close (sock : Z) (s : io) : io := (call (k_close sock) s).1.

Definition internal_shutdown_send (sock : Z) (s : io) : io :=
  let '(s, res) := call (k_shutdown sock SHUT_WR) s in
  if bool_decide (0 ≠ res)%Z then let error := getSockError s in s else s.

(** ** Options *)

(** a call that has to return 0, and the line that is logged otherwise *)
Definition zero_or_log (text : string) (sock : Z) (k : W → W * rep unit) (s : io) : io * bool :=
  let '(s, res) := call k s in
  if bool_decide (0 ≠ res)%Z then
    let error := getSockError s in (info text [AInt sock; AInt error] s, false)
  else (s, true).

Definition internal_async_socket (sock : Z) : io → io * bool :=
  zero_or_log "making sock async {} failed; error {}" sock (k_ioctl sock FIONBIO 1).
Definition internal_shared_socket (sock : Z) : io → io * bool :=
  zero_or_log "making sock shared {} failed; error {}" sock (k_setsockopt sock SOL_SOCKET SO_REUSEPORT [1%Z]).
Definition internal_tcp_no_delay_socket (sock : Z) (noDelay : bool) : io → io * bool :=
  zero_or_log "TCP_NODELAY on sock {} failed; error {}" sock
    (k_setsockopt sock IPPROTO_TCP TCP_NODELAY [Z.b2z noDelay]).
Definition internal_socket_keep_alive (sock : Z) (enable : bool) : io → io * bool :=
  zero_or_log "TCP_NODELAY on sock {} failed; error {}" sock
    (k_setsockopt sock SOL_SOCKET SO_KEEPALIVE [Z.b2z enable]).
Definition internal_linger_zero_socket (sock : Z) : io → io * bool :=
  zero_or_log "SO_LINGER on sock {} failed; error {}" sock (k_setsockopt sock SOL_SOCKET SO_LINGER [1%Z; 0%Z]).

(** ** Making a socket *)
Definition internal_make_tcp_socket (s : io) : io * Z :=
  let '(s, sock) := call (k_socket PF_INET SOCK_STREAM IPPROTO_TCP) s in
  if bool_decide (INVALID_SOCKET = sock) then
    let error := getSockError s in (info "socket() failed; error {}" [AInt error] s, INVALID_SOCKET)
  else
    let s := info "socket() success {}" [AInt sock] s in
    let '(s, async) := internal_async_socket sock s in
    if negb async then (internal_close sock s, INVALID_SOCKET)
    else (s, sock).

Definition internal_make_shared_tcp_socket (s : io) : io * Z :=
  let '(s, sock) := internal_make_tcp_socket s in
  if bool_decide (INVALID_SOCKET ≠ sock) then
    let '(s, shared) := internal_shared_socket sock s in
    if negb shared then (internal_close sock s, INVALID_SOCKET) else (s, sock)
  else (s, INVALID_SOCKET).

(** ** Addresses of a socket *)
Definition internal_bind_sockaddr (sock : Z) (sa_self : sockaddr_in) : io → io * bool :=
  zero_or_log "bind() on sock {} failed; error {}" sock (k_bind sock sa_self).

Definition internal_bind_socket (sock : Z) (ip : Ip4) (port : Port) (s : io) : io * bool :=
  let s := info "internal_bind_socket() on sock {} to {}:{}" [AInt sock; AStr (Ip4_toStr ip); AStr (Port_toStr port)] s in
  internal_bind_sockaddr sock (inet_sockaddr ip port) s.

Definition internal_connect_socket (sa_other : sockaddr_in) (sock : Z) (s : io) : io * COMMLAYER_RET :=
  let '(s, res) := call (k_connect sock sa_other) s in
  if bool_decide (0 ≠ res)%Z then
    let error := getSockError s in
    if isErrorWouldBlock error s then (info "connect() on sock {} in progress" [AInt sock] s, RET_PENDING)
    else (info "connect() on sock {} failed; error {}" [AInt sock; AInt error] s, RET_FAILED)
  else (info "connect() on sock {} completed" [AInt sock] s, RET_OK).

Definition internal_connect_for_address (peerIp : Ip4) (peerPort : Port) (sock : Z) (s : io) : io * COMMLAYER_RET :=
  let s := info "internal_connect_for_address() on sock {} to {}:{}"
             [AInt sock; AStr (Ip4_toStr peerIp); AStr (Port_toStr peerPort)] s in
  internal_connect_socket (inet_sockaddr peerIp peerPort) sock s.

Definition internal_port_of_tcp_socket (sock : Z) (s : io) : io * Z :=
  let '(s, (ret, sa)) := syscall zero_addr (k_getsockname sock) s in
  if bool_decide (ret ≠ -1)%Z then (s, htons (sin_port sa))
  else let error := getSockError s in (info "listen() on sock {} failed; error {}" [AInt sock; AInt error] s, 0%Z).

Definition internal_listen_tcp_socket (sock backlog : Z) (s : io) : io * bool :=
  let '(s, listens) := zero_or_log "listen() on sock {} failed; error {}" sock (k_listen sock backlog) s in
  if (listens : bool) then (info "listen() on sock {} success" [AInt sock] s, true) else (s, false).

(** [ip] and [port] are references: they are written before the last call *)
Definition internal_tcp_accept (ip : Ip4) (port : Port) (sock : Z) (s : io) : io * (Z * Ip4 * Port) :=
  let '(s, (outSock, sa)) := syscall zero_addr (k_accept sock) s in
  if bool_decide (INVALID_SOCKET = outSock) then
    let error := getSockError s in
    (fatal "accept() on sock {} failed; error {}" [AInt sock; AInt error] s, (INVALID_SOCKET, ip, port))
  else
    let ip := Ip4_fromNetwork (sin_addr sa) in
    let port := Port_fromNetwork (sin_port sa) in
    let '(s, async) := internal_async_socket outSock s in
    if negb async then (internal_close outSock s, (INVALID_SOCKET, ip, port))
    else (s, (outSock, ip, port)).

Definition internal_getsockopt_so_error (sock : Z) (s : io) : io * bool :=
  let '(s, (err, result)) := syscall 0%Z (k_getsockopt sock SOL_SOCKET SO_ERROR) s in
  if bool_decide (err ≠ 0)%Z then let error := getSockError s in (s, false)
  else if bool_decide (result ≠ 0)%Z then (s, false)
  else (s, true).

(** ** Data *)

(** the outcome and [sentSize]; the kernel reads [call_len] bytes from [data] *)
Definition internal_send_packet (data : list cell) (sock : Z) (s : io) : res (io * (COMMLAYER_RET * nat)) :=
  let len := call_len (Z.of_nat (length data)) in
  REQUIRE bool_decide (len ≤ Z.of_nat (length data))%Z ;;
  let '(s, bytes_sent) := call (k_sendto sock (take (Z.to_nat len) data)) s in
  if bool_decide (bytes_sent < 0)%Z then
    let error := getSockError s in
    if isErrorWouldBlock error s then Ok (s, (RET_PENDING, 0)) else Ok (s, (RET_FAILED, 0))
  else
    let sentSize := Z.to_nat bytes_sent in
    if bool_decide (sentSize = length data) then Ok (s, (RET_OK, sentSize))
    else
      Ok (info "internal_send_packet() on sock {} size {} PENDING sent {} "
            [AInt sock; AInt (Z.of_nat (length data)); AInt (Z.of_nat sentSize)] s, (RET_PENDING, sentSize)).

(** [internal_send_packet_object::write]; the object's [ret] is the second component *)
Definition send_object_write (sock : Z) (data : list cell) (x : io * option COMMLAYER_RET)
  : res (io * option COMMLAYER_RET * bool * nat) :=
  '(s, (ret, sentSize)) ← internal_send_packet data sock x.1;
  Ok ((s, Some ret), bool_decide (ret = RET_OK) && bool_decide (length data = sentSize), sentSize).

(** the outcome and the [retSz] bytes put in the buffer *)
Definition internal_get_packet_bytes2 (sock : Z) (buff : bool) (buffSz : nat) (s : io)
  : res (io * (COMMLAYER_RET * list u8)) :=
  ASSERT buff ;;
  ASSERT bool_decide (buffSz ≠ 0) ;;
  let len := call_len (Z.of_nat buffSz) in
  REQUIRE bool_decide (len ≤ Z.of_nat buffSz)%Z ;;
  let '(s, (ret, bytes)) := syscall [] (k_recvfrom sock len) s in
  if bool_decide (ret < 0)%Z then
    let error := getSockError s in
    if isErrorWouldBlock error s
    then Ok (info "internal_get_packet_bytes2() on sock {} PENDING" [AInt sock] s, (RET_PENDING, []))
    else Ok (info "internal_get_packet_bytes2() on sock {} ERROR {}" [AInt sock; AInt error] s, (RET_FAILED, []))
  else
    let retSz := Z.to_nat ret in
    Ok (s, (RET_OK, take retSz bytes)).

(** [internal_read_packet_object::read] *)
Definition read_object_read (sock : Z) (size : nat) (x : io * option COMMLAYER_RET)
  : res (io * option COMMLAYER_RET * bool * list u8) :=
  '(s, (ret, bytes)) ← internal_get_packet_bytes2 sock true size x.1;
  Ok ((s, Some ret), bool_decide (ret = RET_OK) && bool_decide (size = length bytes), bytes).

(** ** [SocketRiia], [OpaqueSocketData] *)
Definition riia : Type := Z.
Definition riia_valid (r : riia) : bool := bool_decide (r ≠ INVALID_SOCKET).
(** the new object and what is left of the other one *)
Definition riia_move (other : riia) : riia * riia := (other, INVALID_SOCKET).
Definition riia_assign (this other : riia) : riia * riia := (other, INVALID_SOCKET).
Definition riia_release (r : riia) : Z * riia := (r, INVALID_SOCKET).
Definition riia_destroy (r : riia) (s : io) : io := if riia_valid r then internal_close r s else s.

(** ** [OSLayer] *)
Definition appAcquireSocket (s : io) : io * res riia :=
  let '(s, sock) := internal_make_tcp_socket s in
  if negb (riia_valid sock) then (riia_destroy sock s, Thrown)
  else
    let '(ret, sock) := riia_move sock in
    (riia_destroy sock s, Ok ret).

Definition appConnectSocket (sock : Z) (ip : string) (port : Z) (s : io) : io * res unit :=
  let peerIp := Ip4_parse inet_addr (Str.str ip) in
  let peerPort := Port_fromHost port in
  let '(s, st) := internal_connect_for_address peerIp peerPort sock s in
  (s, if bool_decide (st ≠ RET_PENDING) && bool_decide (st ≠ RET_OK) then Thrown else Ok tt).

(** ** The classes of the operating system, over a kernel *)

(** the first call of [internal_make_tcp_socket], [internal_tcp_accept] and
    [internal_port_of_tcp_socket], with what they log about it *)
Definition socket_call (s : io) : io * Z :=
  let '(s, sock) := call (k_socket PF_INET SOCK_STREAM IPPROTO_TCP) s in
  if bool_decide (INVALID_SOCKET = sock)
  then (info "socket() failed; error {}" [AInt (getSockError s)] s, INVALID_SOCKET)
  else (info "socket() success {}" [AInt sock] s, sock).
Definition accept_call (sock : Z) (s : io) : io * option (Z * Z * Z) :=
  let '(s, (outSock, sa)) := syscall zero_addr (k_accept sock) s in
  if bool_decide (INVALID_SOCKET = outSock)
  then (fatal "accept() on sock {} failed; error {}" [AInt sock; AInt (getSockError s)] s, None)
  else (s, Some (outSock, sin_addr sa, sin_port sa)).
Definition getsockname_call (sock : Z) (s : io) : io * option Z :=
  let '(s, (ret, sa)) := syscall zero_addr (k_getsockname sock) s in
  if bool_decide (ret ≠ -1)%Z then (s, Some (sin_port sa))
  else (info "listen() on sock {} failed; error {}" [AInt sock; AInt (getSockError s)] s, None).

(** where the code is undefined the instance answers with an error *)
Definition sendto_call (sock : Z) (data : list cell) (s : io) : io * (nat + io_error) :=
  match internal_send_packet data sock s with
  | Ok (s, (RET_OK, n)) | Ok (s, (RET_PENDING, S _ as n)) => (s, inl n)
  | Ok (s, (RET_PENDING, 0)) => (s, inr WouldBlock)
  | Ok (s, (RET_FAILED, _)) => (s, inr Broken)
  | _ => (s, inr Broken)
  end.
Definition recvfrom_call (sock : Z) (room : nat) (s : io) : io * (list u8 + io_error) :=
  match internal_get_packet_bytes2 sock true room s with
  | Ok (s, (RET_OK, bs)) => (s, inl bs)
  | Ok (s, (RET_PENDING, _)) => (s, inr WouldBlock)
  | Ok (s, (RET_FAILED, _)) => (s, inr Broken)
  | _ => (s, inr Broken)
  end.
Definition connect_call (sock : Z) (ip : string) (port : Z) (s : io) : io * option io_error :=
  let '(s, r) := internal_connect_for_address (Ip4_parse inet_addr (Str.str ip)) (Port_fromHost port) sock s in
  (s, match r with RET_OK => None | RET_PENDING => Some WouldBlock | RET_FAILED => Some Broken end).

#[local] Instance io_os : OS io := {|
  sys_socket := socket_call;
  sys_ioctl_async := internal_async_socket;
  sys_connect := connect_call;
  sys_sendto := sendto_call;
  sys_recvfrom := recvfrom_call;
  sys_so_error := internal_getsockopt_so_error;
  sys_shutdown_send := internal_shutdown_send;
  sys_linger_zero sock s := (internal_linger_zero_socket sock s).1;
  sys_keep_alive := internal_socket_keep_alive;
  sys_no_delay := internal_tcp_no_delay_socket;
  sys_close := internal_close;
|}.
#[local] Instance io_server_os : ServerOS io := {|
  sys_bind := internal_bind_socket;
  sys_getsockname := getsockname_call;
  sys_listen := internal_listen_tcp_socket;
  sys_accept := accept_call;
|}.
#[local] Instance io_listener_os : ListenerOS io := {| sys_reuse_port := internal_shared_socket |}.
End calls.
Arguments io : clear implicits.
End Sys.
