(* ===== verification/SysCallsSpec.v ===== *)
(** * What the system calls of the sockets do (SysCalls.v)

    [KernelLaws] is what the manual pages promise of the kernel: which calls open
    and close descriptors, and what [sendto], [recvfrom] and [shutdown] do to the
    streams. From it follow the laws that the sockets rely on ([OSLaws]), that
    no path of the functions loses a descriptor, and what sending and receiving
    do through the instances of SysCalls.v. The last part is a small kernel for the concrete instances. *)

From S2P Require Import Prelude.
From S2P Require Import Buffers.
From S2P Require Import Circular.
From S2P Require Import TcpSocket.
From S2P Require Import TcpSocketSpec.
From S2P Require Import HttpMessage.
From S2P Require Import Address.
From S2P Require Import Server.
From S2P Require Import ListenerThread.
From S2P Require Import SysCalls.
From Stdlib Require Import Lia.

Module SysLaws.
Import Sys.

(** a call that opens and closes nothing, in the world it leaves *)
Definition keeps {W A} (opened : W → gset Z) (k : W → W * A) : Prop := ∀ w, opened (k w).1 = opened w.

(** a call that returns a descriptor *)
Definition opens {W A} (opened : W → gset Z) (k : W → W * rep A) : Prop := ∀ w,
  match k w with
  | (w', Done fd _) => (0 ≤ fd)%Z ∧ fd ∉ opened w ∧ opened w' = {[fd]} ∪ opened w
  | (w', Err _) => opened w' = opened w
  end.

(** [opened] are the open descriptors; [k_sent], [k_fin] and [k_incoming] are the
    streams as in [OSLaws], where [k_fin] holds when nothing more can be sent:
    the sending side was shut down, or there is no connection, which is what
    makes [shutdown] fail. *)
Class KernelLaws (W : Type) `{!Kernel W} := {
  opened : W → gset Z;
  k_sent : Z → W → list cell;
  k_fin : Z → W → bool;
  k_incoming : Z → W → list u8;
  socket_opens d t p : opens opened (k_socket d t p);
  accept_opens fd : opens opened (k_accept fd);
  close_closes fd w : opened (k_close fd w).1 = opened w ∖ {[fd]};
  ioctl_keeps fd r a : keeps opened (k_ioctl fd r a);
  setsockopt_keeps fd l o v : keeps opened (k_setsockopt fd l o v);
  getsockopt_keeps fd l o : keeps opened (k_getsockopt fd l o);
  bind_keeps fd sa : keeps opened (k_bind fd sa);
  connect_keeps fd sa : keeps opened (k_connect fd sa);
  getsockname_keeps fd : keeps opened (k_getsockname fd);
  listen_keeps fd n : keeps opened (k_listen fd n);
  sendto_keeps fd d : keeps opened (k_sendto fd d);
  recvfrom_keeps fd n : keeps opened (k_recvfrom fd n);
  shutdown_keeps fd h : keeps opened (k_shutdown fd h);
  sendto_stream fd d w : let '(w', r) := k_sendto fd d w in
    match r with
    | Done n _ => (0 ≤ n ≤ Z.of_nat (length d))%Z ∧ k_sent fd w' = k_sent fd w ++ take (Z.to_nat n) d
    | Err _ => k_sent fd w' = k_sent fd w
    end ∧ k_fin fd w' = k_fin fd w ∧ k_incoming fd w' = k_incoming fd w;
  recvfrom_stream fd n w : let '(w', r) := k_recvfrom fd n w in
    match r with
    | Done m bs => (0 ≤ m ≤ n)%Z ∧ m = Z.of_nat (length bs) ∧ k_incoming fd w = bs ++ k_incoming fd w'
    | Err _ => k_incoming fd w' = k_incoming fd w
    end ∧ k_sent fd w' = k_sent fd w ∧ k_fin fd w' = k_fin fd w;
  getsockopt_stream fd l o w : let w' := (k_getsockopt fd l o w).1 in
    k_sent fd w' = k_sent fd w ∧ k_fin fd w' = k_fin fd w ∧ k_incoming fd w' = k_incoming fd w;
  shutdown_stream fd w : let w' := (k_shutdown fd SHUT_WR w).1 in
    k_sent fd w' = k_sent fd w ∧ k_fin fd w' = true ∧ k_incoming fd w' = k_incoming fd w;
}.
End SysLaws.

Module SysSpec.
Import Tcp TcpLaws Casts Ip Sys SysLaws.

(** ** The length of a transfer *)
Section spec.
Context {W : Type} `{!Kernel W} (inet_addr : list u8 → Z).
Implicit Types (s : io W) (sock : Z).
#[local] Existing Instance io_server_os.
#[local] Existing Instance io_listener_os.
#[local] Instance os_io : OS (io W) := io_os inet_addr.

(** [EINPROGRESS] is looked for in [errno] and the others in the copy of it, which
    is the same as long as nothing was called in between. *)
Lemma would_block_same s :
  isErrorWouldBlock (getSockError s) s = bool_decide (errno s = EINPROGRESS ∨ errno s = EAGAIN).
Proof.
  unfold isErrorWouldBlock, getSockError, EWOULDBLOCK, EAGAIN.
  repeat case_bool_decide; naive_solver.
Qed.

(** ** The definitions of the other files are these functions *)
Lemma make_socket_refines s : Tcp.internal_make_tcp_socket s = internal_make_tcp_socket s.
Proof.
  unfold Tcp.internal_make_tcp_socket, internal_make_tcp_socket. cbn. unfold socket_call.
  destruct (call _ s) as [s1 sk]. case_bool_decide as Hsk; [by rewrite bool_decide_eq_true_2|].
  rewrite bool_decide_eq_false_2 by done. by destruct (internal_async_socket _ _) as [s2 []].
Qed.

Lemma shared_socket_refines s :
  Listener.internal_make_shared_tcp_socket s = internal_make_shared_tcp_socket s.
Proof.
  unfold Listener.internal_make_shared_tcp_socket, internal_make_shared_tcp_socket.
  rewrite make_socket_refines. destruct (internal_make_tcp_socket s) as [s1 sk]. cbn.
  case_bool_decide; case_bool_decide; try done. by destruct (internal_shared_socket _ _) as [s2 []].
Qed.

Lemma accept_refines ip port sock s :
  Server.internal_tcp_accept sock s =
  let '(s', (sk, ip', port')) := internal_tcp_accept ip port sock s in
  (s', if bool_decide (sk = INVALID_SOCKET) then None else Some (sk, ip', port')).
Proof.
  unfold Server.internal_tcp_accept, internal_tcp_accept. cbn. unfold accept_call.
  destruct (syscall _ _ s) as [s1 [sk sa]]. case_bool_decide; [by rewrite bool_decide_eq_true_2|].
  destruct (internal_async_socket _ _) as [s2 []]; cbn; [by rewrite bool_decide_eq_false_2|].
  by rewrite bool_decide_eq_true_2.
Qed.

Lemma port_refines sock s : Server.internal_port_of_tcp_socket sock s = internal_port_of_tcp_socket sock s.
Proof.
  unfold Server.internal_port_of_tcp_socket, internal_port_of_tcp_socket. cbn. unfold getsockname_call.
  destruct (syscall _ _ s) as [s1 [ret sa]]. by case_bool_decide.
Qed.

(** what [internal_send_packet] may return *)
Lemma send_shape data sock s s' r n :
  internal_send_packet data sock s = Ok (s', (r, n)) →
  (n = length data ∧ (r = RET_OK ∨ r = RET_PENDING ∧ n = 0) ∨ n ≠ length data ∧ r = RET_PENDING) ∨
  r = RET_FAILED ∧ n = 0.
Proof.
  unfold internal_send_packet. intros Hs. apply require_Ok in Hs as [_ Hs].
  destruct (call _ s) as [s1 b]. case_bool_decide.
  - case_match; simplify_eq; [|by right]. left. destruct data; [left; split; [done|by right]|by right].
  - case_bool_decide; simplify_eq; left; [left; by split; [|left]|by right].
Qed.

Lemma send_refines data sock s s' x :
  (Z.of_nat (length data) < 2 ^ 31)%Z →
  internal_send_packet data sock s = Ok (s', x) → Tcp.internal_send_packet data sock s = Ok (s', x).
Proof.
  destruct x as [r n]. intros Hl Hs. rewrite internal_send_packet_small by done. cbn. unfold sendto_call. rewrite Hs.
  destruct (send_shape _ _ _ _ _ _ Hs) as [[[-> [->|[-> Hn]]]|[Hn ->]]|[-> ->]].
  - by rewrite bool_decide_eq_true_2.
  - by rewrite Hn.
  - destruct n; [done|]. by rewrite bool_decide_eq_false_2.
  - done.
Qed.

Lemma recv_refines sock n s r :
  0 < n → (Z.of_nat n < 2 ^ 31)%Z →
  internal_get_packet_bytes2 sock true n s = r → Tcp.internal_get_packet_bytes2 sock n s = r.
Proof.
  intros H0 Hl Hr. rewrite internal_get_packet_bytes2_small by done. cbn. unfold recvfrom_call. rewrite Hr.
  unfold internal_get_packet_bytes2 in Hr. cbn in Hr.
  rewrite bool_decide_eq_true_2 in Hr by lia. rewrite call_len_small, bool_decide_eq_true_2 in Hr by lia.
  destruct (syscall _ _ s) as [s1 [ret bs]]. repeat case_match; by simplify_eq.
Qed.

Lemma connect_refines {Ob T} `{Countable Ob} `{!SockTable Ob T} sock ip port (m : mgr Ob T (io W)) :
  Tcp.os_connect sock ip port m =
  let '(s', r) := appConnectSocket inet_addr sock ip port (os m) in
  _ ← r; Ok (with_os s' m).
Proof.
  unfold Tcp.os_connect, appConnectSocket. cbn. unfold connect_call.
  by destruct (internal_connect_for_address _ _ _ _) as [s1 []].
Qed.

(** ** The kernel after a call *)
Context `{!KernelLaws W}.
Definition open_fds (s : io W) : gset Z := opened (world s).

Lemma syscall_world {A} (d : A) k s : world (syscall d k s).1 = (k (world s)).1.
Proof. unfold syscall. by destruct (k (world s)) as [w []]. Qed.

Lemma call_world k s : world (call k s).1 = (k (world s)).1.
Proof. unfold call. rewrite <-(syscall_world tt). by destruct (syscall tt k s) as [s1 [ret []]]. Qed.

Lemma syscall_keeps {A} (d : A) k s : keeps opened k → open_fds (syscall d k s).1 = open_fds s.
Proof. intros Hk. unfold open_fds. rewrite syscall_world. apply Hk. Qed.

Lemma call_keeps k s : keeps opened k → open_fds (call k s).1 = open_fds s.
Proof. intros Hk. unfold open_fds. rewrite call_world. apply Hk. Qed.

Lemma zero_or_log_world text sock k s : world (zero_or_log text sock k s).1 = (k (world s)).1.
Proof.
  unfold zero_or_log. rewrite <-call_world. destruct (call k s) as [s1 r]. by case_bool_decide.
Qed.

Lemma zero_or_log_keeps text sock k s :
  keeps opened k → open_fds (zero_or_log text sock k s).1 = open_fds s.
Proof. intros Hk. unfold open_fds. rewrite zero_or_log_world. apply Hk. Qed.

Lemma close_open_fds sock s : open_fds (internal_close sock s) = open_fds s ∖ {[sock]}.
Proof. unfold open_fds, internal_close. rewrite call_world. apply close_closes. Qed.

(** ** No descriptor is lost

    [acquired s s' sk]: between [s] and [s'] the socket [sk] was opened and nothing
    else, or nothing when [sk] is [INVALID_SOCKET]. *)
Definition acquired (s s' : io W) (sk : Z) : Prop :=
  if bool_decide (sk = INVALID_SOCKET) then open_fds s' = open_fds s
  else sk ∉ open_fds s ∧ open_fds s' = {[sk]} ∪ open_fds s.

Lemma acquired_none s s' : open_fds s' = open_fds s → acquired s s' INVALID_SOCKET.
Proof. done. Qed.

Lemma acquired_keep s s1 s2 sk : acquired s s1 sk → open_fds s2 = open_fds s1 → acquired s s2 sk.
Proof. unfold acquired. by intros ? ->. Qed.

(** the way out of a function that fails after it has the socket *)
Lemma acquired_close s s1 sk : sk ≠ INVALID_SOCKET → acquired s s1 sk → open_fds (internal_close sk s1) = open_fds s.
Proof.
  unfold acquired. rewrite close_open_fds. intros Hsk. case_bool_decide; [done|]. intros [? ->]. set_solver.
Qed.

Lemma keep_or_close s s1 sk text k :
  sk ≠ INVALID_SOCKET → acquired s s1 sk → keeps opened k →
  let '(s2, done) := zero_or_log text sk k s1 in
  if (done : bool) then acquired s s2 sk else acquired s (internal_close sk s2) INVALID_SOCKET.
Proof.
  intros Hsk Hs Hk. pose proof (zero_or_log_keeps text sk k s1 Hk) as Ho.
  destruct (zero_or_log text sk k s1) as [s2 []]; cbn in Ho; [by apply (acquired_keep _ s1)|].
  apply acquired_none, acquired_close; [done|]. by apply (acquired_keep _ s1).
Qed.

Lemma syscall_opens {A} (d : A) k s : opens opened k →
  let '(s', (sk, _)) := syscall d k s in acquired s s' sk.
Proof.
  intros Hk. specialize (Hk (world s)). unfold syscall, acquired, open_fds.
  destruct (k (world s)) as [w [fd out|e]]; cbn; [|done].
  destruct Hk as (? & ? & ?). rewrite bool_decide_eq_false_2; [done|]. unfold INVALID_SOCKET. lia.
Qed.

Lemma make_socket_acquires s : acquired s (internal_make_tcp_socket s).1 (internal_make_tcp_socket s).2.
Proof.
  unfold internal_make_tcp_socket, call.
  pose proof (syscall_opens tt _ s (socket_opens PF_INET SOCK_STREAM IPPROTO_TCP)) as Ho.
  destruct (syscall tt _ s) as [s1 [sk []]]. case_bool_decide as Hsk; [by subst|].
  pose proof (keep_or_close s (info "socket() success {}" [AInt sk] s1) sk "making sock async {} failed; error {}"
                (k_ioctl sk FIONBIO 1)) as Ha.
  unfold internal_async_socket. destruct (zero_or_log _ sk _ _) as [s2 []]; apply Ha; (done || apply ioctl_keeps).
Qed.

Lemma shared_socket_acquires s :
  acquired s (internal_make_shared_tcp_socket s).1 (internal_make_shared_tcp_socket s).2.
Proof.
  unfold internal_make_shared_tcp_socket. pose proof (make_socket_acquires s) as Ho.
  destruct (internal_make_tcp_socket s) as [s1 sk]. cbn in Ho.
  case_bool_decide as Hsk; [|destruct (decide (sk = INVALID_SOCKET)) as [->|]; [done|congruence]].
  pose proof (keep_or_close s s1 sk "making sock shared {} failed; error {}"
                (k_setsockopt sk SOL_SOCKET SO_REUSEPORT [1%Z])) as Ha.
  unfold internal_shared_socket. destruct (zero_or_log _ sk _ _) as [s2 []]; apply Ha; (done || apply setsockopt_keeps).
Qed.

Lemma accept_acquires ip port sock s :
  acquired s (internal_tcp_accept ip port sock s).1 (internal_tcp_accept ip port sock s).2.1.1.
Proof.
  unfold internal_tcp_accept.
  pose proof (syscall_opens zero_addr _ s (accept_opens sock)) as Ho.
  destruct (syscall zero_addr _ s) as [s1 [sk sa]]. case_bool_decide as Hsk; [by subst|].
  pose proof (keep_or_close s s1 sk "making sock async {} failed; error {}" (k_ioctl sk FIONBIO 1)) as Ha.
  unfold internal_async_socket. destruct (zero_or_log _ sk _ _) as [s2 []]; apply Ha; (done || apply ioctl_keeps).
Qed.

Lemma riia_destroy_open_fds r s :
  open_fds (riia_destroy r s) = if riia_valid r then open_fds s ∖ {[r]} else open_fds s.
Proof. unfold riia_destroy. destruct (riia_valid r); [apply close_open_fds|done]. Qed.

(** the exception of [appAcquireSocket] leaves no socket behind *)
Lemma appAcquireSocket_acquires s :
  match appAcquireSocket s with
  | (s', Ok r) => r ≠ INVALID_SOCKET ∧ acquired s s' r
  | (s', x) => x = Thrown ∧ open_fds s' = open_fds s
  end.
Proof.
  unfold appAcquireSocket. pose proof (make_socket_acquires s) as Ho.
  destruct (internal_make_tcp_socket s) as [s1 sk]. cbn in Ho. unfold riia_move, riia_destroy, riia_valid.
  destruct (decide (sk = INVALID_SOCKET)) as [->|Hsk].
  - cbn. split; [done|]. by unfold acquired in Ho.
  - by rewrite bool_decide_eq_true_2.
Qed.

(** every other function leaves the descriptors alone *)
Lemma others_keep ip port sa sock b n s data buffSz :
  open_fds (internal_shutdown_send sock s) = open_fds s ∧
  open_fds (internal_async_socket sock s).1 = open_fds s ∧
  open_fds (internal_shared_socket sock s).1 = open_fds s ∧
  open_fds (internal_tcp_no_delay_socket sock b s).1 = open_fds s ∧
  open_fds (internal_socket_keep_alive sock b s).1 = open_fds s ∧
  open_fds (internal_linger_zero_socket sock s).1 = open_fds s ∧
  open_fds (internal_bind_socket sock ip port s).1 = open_fds s ∧
  open_fds (internal_connect_socket sa sock s).1 = open_fds s ∧
  open_fds (internal_port_of_tcp_socket sock s).1 = open_fds s ∧
  open_fds (internal_listen_tcp_socket sock n s).1 = open_fds s ∧
  open_fds (internal_getsockopt_so_error sock s).1 = open_fds s ∧
  (∀ x, internal_send_packet data sock s = Ok x → open_fds x.1 = open_fds s) ∧
  (∀ x, internal_get_packet_bytes2 sock true buffSz s = Ok x → open_fds x.1 = open_fds s).
Proof.
  split_and!.
  - unfold internal_shutdown_send. pose proof (call_keeps _ s (shutdown_keeps sock SHUT_WR)) as Hk.
    destruct (call _ s). by case_bool_decide.
  - apply zero_or_log_keeps, ioctl_keeps.
  - apply zero_or_log_keeps, setsockopt_keeps.
  - apply zero_or_log_keeps, setsockopt_keeps.
  - apply zero_or_log_keeps, setsockopt_keeps.
  - apply zero_or_log_keeps, setsockopt_keeps.
  - unfold internal_bind_socket, internal_bind_sockaddr. by rewrite (zero_or_log_keeps _ _ _ _ (bind_keeps _ _)).
  - unfold internal_connect_socket. pose proof (call_keeps _ s (connect_keeps sock sa)) as Hk.
    destruct (call _ s). repeat case_match; done.
  - unfold internal_port_of_tcp_socket. pose proof (syscall_keeps zero_addr _ s (getsockname_keeps sock)) as Hk.
    destruct (syscall _ _ s) as [? []]. by case_bool_decide.
  - unfold internal_listen_tcp_socket.
    pose proof (zero_or_log_keeps "listen() on sock {} failed; error {}" sock _ s (listen_keeps sock n)) as Hk.
    by destruct (zero_or_log _ _ _ s) as [? []].
  - unfold internal_getsockopt_so_error.
    pose proof (syscall_keeps 0%Z _ s (getsockopt_keeps sock SOL_SOCKET SO_ERROR)) as Hk.
    destruct (syscall _ _ s) as [? []]. by repeat case_bool_decide.
  - intros x Hx. unfold internal_send_packet in Hx. apply require_Ok in Hx as [_ Hx].
    match type of Hx with context [call ?k s] => pose proof (call_keeps k s (sendto_keeps _ _)) as Hk end.
    destruct (call _ s). repeat case_match; by simplify_eq.
  - intros x Hx. unfold internal_get_packet_bytes2 in Hx. apply assert_Ok in Hx as [_ Hx]. apply require_Ok in Hx as [_ Hx].
    match type of Hx with context [syscall ?d ?k s] => pose proof (syscall_keeps d k s (recvfrom_keeps _ _)) as Hk end.
    destruct (syscall _ _ s) as [? []]. repeat case_match; by simplify_eq.
Qed.

(** ** The laws the sockets rely on *)
Lemma send_stream data sock s :
  let '(s', r) := sendto_call sock data s in
  match r with
  | inl n => n ≤ length data ∧ k_sent sock (world s') = k_sent sock (world s) ++ take n data
  | inr _ => k_sent sock (world s') = k_sent sock (world s)
  end ∧ k_fin sock (world s') = k_fin sock (world s) ∧ k_incoming sock (world s') = k_incoming sock (world s).
Proof.
  unfold sendto_call, internal_send_packet, call, syscall.
  pose proof (call_len_nonneg (Z.of_nat (length data))) as Hc.
  set (len := call_len (Z.of_nat (length data))) in *. clearbody len.
  case_bool_decide as Hlen; [|done].
  pose proof (sendto_stream sock (take (Z.to_nat len) data) (world s)) as Hs.
  destruct (k_sendto _ _ _) as [w [n []|e]]; cbn.
  - destruct Hs as ((Hn & Hsent) & Hs). rewrite length_take in Hn. rewrite take_take in Hsent.
    replace (Z.to_nat n `min` Z.to_nat len) with (Z.to_nat n) in Hsent by lia.
    rewrite bool_decide_eq_false_2 by lia.
    case_bool_decide; [by split_and!; [lia|..]; naive_solver|].
    destruct (Z.to_nat n) eqn:Hz; cbn; [|split; [split; [lia|done]|done]].
    by rewrite take_0, app_nil_r in Hsent.
  - by destruct (isErrorWouldBlock _ _).
Qed.

Lemma recv_stream n sock s :
  let '(s', r) := recvfrom_call sock n s in
  match r with
  | inl bs => length bs ≤ n ∧ k_incoming sock (world s) = bs ++ k_incoming sock (world s')
  | inr _ => k_incoming sock (world s') = k_incoming sock (world s)
  end ∧ k_sent sock (world s') = k_sent sock (world s) ∧ k_fin sock (world s') = k_fin sock (world s).
Proof.
  unfold recvfrom_call, internal_get_packet_bytes2, syscall.
  pose proof (call_len_nonneg (Z.of_nat n)) as Hc. set (len := call_len (Z.of_nat n)) in *. clearbody len.
  case_bool_decide as Hn; [|done]. case_bool_decide as Hlen; [|done].
  pose proof (recvfrom_stream sock len (world s)) as Hs.
  destruct (k_recvfrom _ _ _) as [w [m bs|e]]; cbn.
  - destruct Hs as ((Hm & -> & Hin) & Hs). rewrite bool_decide_eq_false_2 by lia. cbn.
    rewrite Nat2Z.id, take_ge by done. split; [split; [lia|done]|done].
  - by destruct (isErrorWouldBlock _ _).
Qed.

#[local] Instance io_os_laws : OSLaws (io W).
Proof.
  refine {| sent k s := k_sent k (world s); fin k s := k_fin k (world s); incoming k s := k_incoming k (world s) |}.
  - intros k d s. apply send_stream.
  - intros k n s. apply recv_stream.
  - intros k s. cbn. enough (world (internal_getsockopt_so_error k s).1 = (k_getsockopt k SOL_SOCKET SO_ERROR (world s)).1) as ->
      by apply getsockopt_stream.
    unfold internal_getsockopt_so_error. rewrite <-(syscall_world 0%Z).
    destruct (syscall _ _ s) as [s1 []]. by repeat case_bool_decide.
  - intros k s. cbn. enough (world (internal_shutdown_send k s) = (k_shutdown k SHUT_WR (world s)).1) as ->
      by apply shutdown_stream.
    unfold internal_shutdown_send. rewrite <-call_world. destruct (call _ s). by case_bool_decide.
Defined.
End spec.

(** ** What the results stand for *)
Section results.
Context {W : Type} `{!Kernel W}.
Implicit Types (s : io W).

Definition would_block (e : Z) : bool := bool_decide (e = EINPROGRESS ∨ e = EAGAIN).

Lemma call_Err k s w e : k (world s) = (w, Err e) → call k s = (mkIo w e (lines s), (-1)%Z).
Proof. unfold call, syscall. by intros ->. Qed.

Lemma call_Done k s w r u : k (world s) = (w, Done r u) → call k s = (mkIo w (errno s) (lines s), r).
Proof. unfold call, syscall. by intros ->. Qed.

(** a connection is made, under way, or impossible *)
Lemma connect_result sa sock s w r :
  k_connect sock sa (world s) = (w, r) →
  (internal_connect_socket sa sock s).2 =
  match r with
  | Done 0 _ => RET_OK
  | Done _ _ => if would_block (errno s) then RET_PENDING else RET_FAILED
  | Err e => if would_block e then RET_PENDING else RET_FAILED
  end.
Proof.
  intros Hk. unfold internal_connect_socket.
  destruct r as [n u|e]; [rewrite (call_Done _ _ _ _ _ Hk)|rewrite (call_Err _ _ _ _ Hk)].
  - case_bool_decide as Hn; [|by destruct n]. rewrite would_block_same. cbn. fold (would_block (errno s)).
    destruct n; [done|..]; by destruct (would_block _).
  - rewrite bool_decide_eq_true_2 by done. rewrite would_block_same. cbn. fold (would_block e).
    by destruct (would_block e).
Qed.

(** [internal_send_packet], by the answer of the kernel, below 2 GB *)
Lemma send_result data sock s w r :
  (Z.of_nat (length data) < 2 ^ 31)%Z → k_sendto sock data (world s) = (w, r) →
  ∃ s', world s' = w ∧ internal_send_packet data sock s = Ok (s',
    match r with
    | Err e => (if would_block e then RET_PENDING else RET_FAILED, 0)
    | Done n _ =>
        if bool_decide (n < 0)%Z then (if would_block (errno s) then RET_PENDING else RET_FAILED, 0)
        else (if bool_decide (Z.to_nat n = length data) then RET_OK else RET_PENDING, Z.to_nat n)
    end).
Proof.
  intros Hl Hk. unfold internal_send_packet. rewrite call_len_small by lia.
  rewrite bool_decide_eq_true_2 by done. rewrite Nat2Z.id, firstn_all.
  destruct r as [n u|e]; [rewrite (call_Done _ _ _ _ _ Hk)|rewrite (call_Err _ _ _ _ Hk)].
  - rewrite would_block_same. cbn. fold (would_block (errno s)).
    case_bool_decide; [destruct (would_block _)|case_bool_decide]; (eexists; split; [|done]; done).
  - rewrite bool_decide_eq_true_2 by done. rewrite would_block_same. cbn. fold (would_block e).
    destruct (would_block e); (eexists; split; [|done]; done).
Qed.

(** [as_int] of a size from 2 GB on: the call would read beyond the data *)
Lemma send_beyond data sock s :
  (2 ^ 31 ≤ Z.of_nat (length data) < 2 ^ 32)%Z → internal_send_packet data sock s = UB.
Proof.
  intros Hl. pose proof (call_len_beyond _ Hl). unfold internal_send_packet. rewrite bool_decide_eq_false_2; [done|lia].
Qed.

(** a refused keep-alive is logged as a refused no-delay, and a [getsockname]
    that fails as a [listen] *)
Lemma keep_alive_logs_no_delay sock enable s w e :
  k_setsockopt sock SOL_SOCKET SO_KEEPALIVE [Z.b2z enable] (world s) = (w, Err e) →
  lines (internal_socket_keep_alive sock enable s).1 =
  lines s ++ [mkLine Info "TCP_NODELAY on sock {} failed; error {}" [AInt sock; AInt e]].
Proof. intros Hk. unfold internal_socket_keep_alive, zero_or_log. by rewrite (call_Err _ _ _ _ Hk). Qed.

Lemma port_logs_listen sock s w e :
  k_getsockname sock (world s) = (w, Err e) →
  lines (internal_port_of_tcp_socket sock s).1 =
  lines s ++ [mkLine Info "listen() on sock {} failed; error {}" [AInt sock; AInt e]] ∧
  (internal_port_of_tcp_socket sock s).2 = 0%Z.
Proof. intros Hk. unfold internal_port_of_tcp_socket, syscall. by rewrite Hk. Qed.

(** accepting when there is nobody, which is no error for a socket that does not
    wait, is logged as fatal *)
Lemma accept_would_block_fatal ip port sock s w :
  k_accept sock (world s) = (w, Err EAGAIN) →
  lines (internal_tcp_accept ip port sock s).1 =
  lines s ++ [mkLine Fatal "accept() on sock {} failed; error {}" [AInt sock; AInt EAGAIN]].
Proof. intros Hk. unfold internal_tcp_accept, syscall. by rewrite Hk. Qed.

(** ** A socket that is assigned over stays open

    [operator=(SocketRiia&&)] does not close what it had: after the ends of both
    objects the old descriptor is still open. *)
Lemma riia_assign_loses `{!KernelLaws W} r other s :
  r ∈ open_fds s → r ≠ other →
  let '(r1, other1) := riia_assign r other in
  r ∈ open_fds (riia_destroy other1 (riia_destroy r1 s)).
Proof.
  intros Hr Hne. unfold riia_assign. rewrite riia_destroy_open_fds. cbn. rewrite riia_destroy_open_fds.
  destruct (riia_valid other); set_solver.
Qed.

(** the constructor, in contrast, passes it on: it is closed once *)
Lemma riia_move_closes_once `{!KernelLaws W} r s :
  let '(r1, r0) := riia_move r in
  open_fds (riia_destroy r0 (riia_destroy r1 s)) = if riia_valid r then open_fds s ∖ {[r]} else open_fds s.
Proof. unfold riia_move. rewrite riia_destroy_open_fds. cbn. apply riia_destroy_open_fds. Qed.
End results.

(** ** The properties *)
Section properties.
Context {W : Type} `{!Kernel W} (inet_addr : list u8 → Z).
Implicit Types (s : io W).
#[local] Existing Instance io_server_os.
#[local] Existing Instance io_listener_os.
#[local] Instance os_io' : OS (io W) := io_os inet_addr.

(** C38. No descriptor is lost: each function that makes or accepts a socket has
    opened exactly the descriptor it returns when it succeeds, and nothing when it returns
    [INVALID_SOCKET] or throws, whichever call failed on the way. *)
Theorem descriptors_accounted `{!KernelLaws W} ip port sock s :
  acquired s (internal_make_tcp_socket s).1 (internal_make_tcp_socket s).2 ∧
  acquired s (internal_make_shared_tcp_socket s).1 (internal_make_shared_tcp_socket s).2 ∧
  acquired s (internal_tcp_accept ip port sock s).1 (internal_tcp_accept ip port sock s).2.1.1 ∧
  match appAcquireSocket s with
  | (s', Ok r) => r ≠ INVALID_SOCKET ∧ acquired s s' r
  | (s', x) => x = Thrown ∧ open_fds s' = open_fds s
  end.
Proof.
  split_and!; [apply make_socket_acquires|apply shared_socket_acquires|apply accept_acquires|].
  apply appAcquireSocket_acquires.
Qed.
End properties.
End SysSpec.

(** ** A small kernel

    A connection per descriptor, room for some bytes in all, and whether it lets a
    socket be made asynchronous or shared. *)
Module SysExample.
Import Tcp Ip Sys SysLaws SysSpec.

Record box : Type := mkBox {
  b_fds : gset Z; b_async : bool; b_share : bool; b_room : nat;
  b_in : gmap Z (list u8); b_sent : gmap Z (list cell); b_fin : gset Z;
}.
Definition with_fds (x : gset Z) (b : box) : box :=
  mkBox x (b_async b) (b_share b) (b_room b) (b_in b) (b_sent b) (b_fin b).

Definition new_fd (b : box) : Z := Z.of_nat (fresh (Z.to_nat <$> elements (b_fds b))).
Lemma new_fd_fresh b : new_fd b ∉ b_fds b.
Proof.
  unfold new_fd. intros Hin. apply (infinite_is_fresh (Z.to_nat <$> elements (b_fds b))).
  apply list_elem_of_fmap. eexists. split; [symmetry; apply Nat2Z.id|]. by apply elem_of_elements.
Qed.

Definition open_one {A} (out : A) (b : box) : box * rep A :=
  (with_fds ({[new_fd b]} ∪ b_fds b) b, Done (new_fd b) out).
Definition answer_of (ok : bool) (b : box) : box * rep unit := (b, if ok then Done 0 tt else Err 22).

Definition box_send (fd : Z) (d : list cell) (b : box) : box * rep unit :=
  match b_room b with
  | 0 => (b, Err EAGAIN)
  | _ =>
      let n := b_room b `min` length d in
      (mkBox (b_fds b) (b_async b) (b_share b) (b_room b - n) (b_in b)
         (<[fd := default [] (b_sent b !! fd) ++ take n d]> (b_sent b)) (b_fin b), Done (Z.of_nat n) tt)
  end.
Definition box_recv (fd : Z) (n : Z) (b : box) : box * rep (list u8) :=
  let all := default [] (b_in b !! fd) in
  if bool_decide (all = [] ∨ (n < 0)%Z) then (b, Err EAGAIN)
  else
    let bs := take (Z.to_nat n) all in
    (mkBox (b_fds b) (b_async b) (b_share b) (b_room b) (<[fd := drop (Z.to_nat n) all]> (b_in b)) (b_sent b) (b_fin b),
     Done (Z.of_nat (length bs)) bs).

#[export] Instance box_kernel : Kernel box := {|
  k_socket _ _ _ := open_one tt;
  k_ioctl _ _ _ b := answer_of (b_async b) b;
  k_setsockopt _ _ o _ b := answer_of (if bool_decide (o = SO_REUSEPORT) then b_share b else true) b;
  k_getsockopt _ _ _ b := (b, Done 0 0%Z);
  k_bind _ _ := answer_of true;
  k_connect _ _ b := (b, Err EINPROGRESS);
  k_getsockname _ b := (b, Done 0 (mkAddr PF_INET (htons 80) 0));
  k_listen _ _ := answer_of true;
  k_accept _ := open_one (mkAddr PF_INET (htons 5000) 16777343);
  k_sendto := box_send;
  k_recvfrom := box_recv;
  k_shutdown fd _ b :=
    (mkBox (b_fds b) (b_async b) (b_share b) (b_room b) (b_in b) (b_sent b) ({[fd]} ∪ b_fin b), Done 0 tt);
  k_close fd b := (with_fds (b_fds b ∖ {[fd]}) b, Done 0 tt);
|}.

#[export] Instance box_laws : KernelLaws box.
Proof.
  refine {| opened := b_fds; k_sent fd b := default [] (b_sent b !! fd);
            k_fin fd b := bool_decide (fd ∈ b_fin b); k_incoming fd b := default [] (b_in b !! fd) |};
    try (intros; intros b; cbn; done).
  1,2: intros; intros b; cbn; split_and!; [unfold new_fd; lia|apply new_fd_fresh|done].
  - done.
  - intros fd d b. cbn. unfold box_send. by destruct (b_room b).
  - intros fd n b. cbn. unfold box_recv. by case_bool_decide.
  - intros fd d b. cbn. unfold box_send. destruct (b_room b) as [|r]; [done|].
    split; [|done]. split; [lia|]. cbn [b_sent]. by rewrite lookup_insert_eq, Nat2Z.id.
  - intros fd n b. cbn. unfold box_recv. case_bool_decide as Hn; [done|]. split; [|done].
    rewrite length_take. split; [lia|]. split; [done|]. cbn [b_in].
    rewrite lookup_insert_eq. cbn. symmetry. apply take_drop.
  - done.
  - intros fd b. cbn. split; [done|]. split; [|done]. rewrite bool_decide_eq_true_2; [done|set_solver].
Defined.

(** one descriptor is open; sockets can be asynchronous but not shared *)
Definition box1 : io box := mkIo (mkBox {[0%Z]} true false 1 ∅ ∅ ∅) 0 [].
Definition two_bytes : list cell := [Some x01; Some x02].


Lemma descriptors_accounted_witness :
  (internal_make_shared_tcp_socket box1).2 = INVALID_SOCKET ∧
  open_fds (internal_make_shared_tcp_socket box1).1 = {[0%Z]}.
Proof.
  destruct (descriptors_accounted default_Ip4 default_Port 0%Z box1) as (_ & Hs & _).
  assert (Hr : (internal_make_shared_tcp_socket box1).2 = INVALID_SOCKET) by (by vm_compute).
  split; [done|]. unfold acquired in Hs. rewrite Hr in Hs. exact Hs.
Defined.

(** what the kernel was asked and what went to the log *)
Example accept_logs :
  let '(s, (sk, ip, port)) := internal_tcp_accept default_Ip4 default_Port 0 box1 in
  sk ≠ INVALID_SOCKET ∧ Port_getHost port = 5000%Z ∧ Ip4_toStr ip = Str.str "127.0.0.1" ∧ lines s = [].
Proof. by vm_compute. Qed.
End SysExample.
